(* ===== verification/_CoqProject ===== *)
-Q . S2P
Prelude.v
Errors.v
Effects.v
Identifiers.v
Json.v
JsonReader.v
KeyedMap.v
Trust.v
FileSet.v
RegistrySet.v
Roots.v
RegistryScopes.v
Protocol.v
PipeServer.v
PipeSafety.v
Authorization.v
Storage.v
RegistryStorage.v
Generations.v
ServiceUpgrade.v
Calendar.v
ServiceLog.v
Journal.v
WindowsRegistry.v
RegistryTransaction.v
Readers.v
RegistryAtomicity.v
RegistryApply.v
RegistryFaults.v
Transaction.v
LocalPlatform.v
Contract.v
Wire.v
Impersonation.v
Service.v
Frames.v
ServiceJobs.v
ServiceLife.v
ServiceState.v
ServiceLoop.v
PipeLoop.v
WindowsPath.v
Client.v
PipeClient.v
Handover.v
CommandLine.v
ClientService.v
Model.v
TrustScenarios.v
RegistryScenarios.v
Atomicity.v
Recovery.v
LocalPlatformProof.v
TransactionScenarios.v
ApplyScenarios.v
ServiceScenarios.v
PipeScenarios.v
ClientScenarios.v
WindowsFiles.v
DirectoryNames.v
AccessControl.v
WindowsPlatform.v
WindowsPlatformProof.v
WindowsScenarios.v
DirectPlatform.v
DirectPlatformProof.v
DirectUpdate.v
DirectFrames.v
DirectRecord.v
DirectHistory.v
DirectOutcome.v
DirectScenarios.v
ServiceBinaries.v
SlotSafety.v
ServiceControl.v
ServiceRecords.v
ServiceSetup.v
ServiceRemoval.v
ServiceSetupProof.v
SetupScenarios.v
