(* ===== verification/Prelude.v ===== *)
(** * SE7EN Service: a verification library

    The program (src/) is a Windows service that installs and updates the files
    of games and launchers on behalf of ordinary users, with the client that
    calls it, the helper that updates a launcher directly and the installer that
    installs and upgrades the service.  This library models the decisions of the
    Rust code under src/src and proves what makes them correct.

    ** How the model is built

    A fallible function is a Rocq function to [Result]; code that changes the
    world is a computation [M S A] (Effects), from a state to an outcome and a
    state.  The outcome is a result, [Crashed] (the process or machine stops
    there, and the state keeps what was done) or [OutOfFuel].  Every operation on
    files takes its fate from a list in the state: it works, fails, or the machine
    stops before or after it, and a failed or cut write leaves a prefix.  A
    theorem over all fates is a theorem over all faults and crash points.  [wp]
    (Effects) excludes running out of fuel; [partial], [keeps] (Frames) and
    [preserves] (ServiceSetupProof) say what holds however a computation ends.

    What is not under src/ is a class: SerdeJson (the JSON crate), Crypto (SHA-256
    and Ed25519), UnicodeCase, Base64, Reader (a derived decoder), FileNames and
    RegistryNames (how the system compares names), WindowsVolumes,
    DirectoryListing, ServiceManager, SetupMachine, ClientMachine, PipeKernel (the
    overlapped calls of the server), ClientSystem (those of the client), SidText,
    DirectorySystem (security of directories), LzmaDecoder and others.  Their laws
    (SerdeJsonLaws, ReaderLaws, FileNamesLaws, UnicodeCaseLaws, ClockLaws,
    ServiceClock, PipeKernelLaws, ClientSystemLaws, DirectoryPeace) state documented
    behaviour only; JsonReader, Readers and Model instantiate them, and the Scenarios
    files evaluate the code and the theorems at concrete inputs.

    ** Parts, and the files that model them

    - Prelude, Errors (src/src/lib.rs: ErrorCode, MaintenanceError), Effects,
      KeyedMap, Identifiers (digests, identifiers, job names).
    - Signed documents: Json (canonical JSON), Trust (src/src/trust.rs: keyrings),
      FileSet (file_set.rs), RegistrySet (registry_set.rs).  A document is accepted
      exactly when it is canonical, well formed, signed and no older than what was
      accepted: verify_keyring_iff, verify_file_set_iff, verify_registry_set_iff;
      what acceptance excludes: validate_relative_path_confined,
      registry_set_values_safe; versions only grow: keyring_install_monotone.
    - Stored registries: Roots (roots.rs), RegistryScopes (registry_scopes.rs),
      Generations (windows.rs, GenerationRegistry), over Storage (the disk and
      replace_service_file) and RegistryStorage.  Invariants over histories
      (root_registry_protected, generations_never_roll_back,
      registry_scope_outside_protected) and crash safety of saving
      (save_load_generations_crash_safe).
    - Protocol, Wire and Authorization (protocol.rs and the authorization of
      windows.rs): authorize_request_iff.
    - The transaction engine: Journal and Transaction (transaction.rs) over the
      class TransactionPlatform, with the contract PlatformContract in Contract;
      Atomicity and Recovery prove against the contract, for the replacement in
      two steps and for the atomic one: transaction_atomic,
      read_journal_torn.  Three platforms discharge the contract: LocalPlatform
      (the tests' platform of transaction.rs), WindowsPlatform (windows.rs,
      through the handles of WindowsFiles and the paths of WindowsPath and
      DirectoryNames; replaced_root_refused) and
      DirectPlatform.
    - The registry transaction: WindowsRegistry, RegistryTransaction (windows.rs,
      apply_registry_set_transaction and its recovery); RegistryAtomicity and
      RegistryApply prove registry_set_atomic, RegistryFaults the cases in which
      it fails.
    - The service: Impersonation (work as the caller), Service (windows.rs:
      recover_service_state, process_request, serve_requests and its workers),
      ServiceLog and Calendar (service_log.rs).  ServiceJobs refines the service to
      a machine of one job (service_refines_job_machine); ServiceLife,
      ServiceState and ServiceLoop add stopping, start-up, the invariant of the
      state and the log of answers.
    - The pipe (windows_pipe.rs): PipeServer (instances, overlapped operations, the
      wait for the next request); PipeSafety shows that storage lent to the kernel is
      left alone until the operation ended (kernel_storage_is_not_reused), that no
      connection is lost and that an idle server holds none.  PipeLoop puts
      serve_requests on this server: every_request_is_answered_once.  PipeClient is
      the other end, open_verified_client and the exchange of one message
      (message_goes_to_the_service); it implements ClientMachine for Client.
    - AccessControl (windows.rs: tokens and the grant on a shared library;
      windows_data_directory.rs: creating, hardening and checking the protected data
      directory): data_directory_is_protected.
    - The client: Client, CommandLine (bin/client.rs; a setup package is unpacked
      whole or not at all, setup_is_unpacked_whole), with Handover (the update of
      a running Launcher is safe and ends) and ClientService (client and service
      together).
    - Direct launcher updates: DirectUpdate (windows/direct_update.rs: plan, trust,
      prepare, commit, cancel, recover) on DirectPlatform.  DirectFrames says what it
      leaves alone; DirectRecord, DirectHistory and DirectOutcome prove
      validate_plan_iff, accepted_release_never_goes_back and direct_commit_outcome.
    - The installer: ServiceUpgrade (service_upgrade.rs: versions, decision, the
      phases of an upgrade over ServiceUpgradePlatform), ServiceRecords (its
      documents), ServiceBinaries (windows_upgrade.rs: the slots of the binary),
      ServiceControl (the service control manager), ServiceSetup (the installer and
      its platform), ServiceRemoval.  SlotSafety: the old binary is kept
      (old_binary_is_kept); ServiceSetupProof: only authorised binaries run, and a
      removal is complete (removal_is_complete); ServiceControl: stop_is_seen.

    The parts meet in four states.  [World] (Transaction) has the directory trees,
    the private job directories and the kept handles; the engine, the direct helper
    and the installer's slots share it.  [Disk] (Storage) has the files of the
    protected data directory.  [Service] (Service) joins them with the registries,
    the active job, the flags that workers and the control handler share; an event
    of the loop, a request or the end of a worker is one step.  [SetupState]
    (ServiceSetup) joins trees, data and the machine for an installer.  [Loop]
    (PipeLoop) joins the service with the server of its pipe.

    ** Fuel and bounds

    Four rounds for the phases of an upgrade ([upgrade_loop]); 1201 rounds of 100
    ms cover the two minutes of a completion ([completion_fuel]), 23 the five-second
    slices of a shutdown ([shutdown_fuel]); [poll_fuel] covers a timeout polled every
    100 ms and [ready_fuel] 30 seconds of attempts 50 ms apart; [listing_fuel] is one more than the bytes of a directory listing, each entry
    moves on by at least one; [chunks_of] has the length of the file.  Theorems that
    the code returns prove each of them enough.  Only the waits that have no end of
    their own, for the next event of the pipe and for the end of a process, take any
    fuel, and their theorems hold for every amount.  Machine integers are values of [N]
    with their bounds and checked operations written out; [usize] has 32 bits.

    ** Simplifications

    A handle is the place where it was opened (nothing else may move an object that
    is opened without sharing deletion).  Reserved directories hold prepared and
    backup files, directories and links only; hard links are not modelled.  A panic
    is an abort.  Workers run atomically between two events of the loop, their
    start, end and loss are events of their own.  A machine that stops during a call
    of the service manager stops before the next operation on files.  The data
    directory exists while the service runs ([TransactionPolicy::new] only checks and
    creates it).

    ** Not modelled

    The closing of handles and the freeing of buffers; the impersonation calls
    themselves and the structures passed to Windows for a signature check; reports to
    the service manager and the event log; the service's entry point and dispatcher;
    diagnostic files; the build script.  They are calls of Windows around
    the modelled decisions, and their answers are inputs of the model.

    Prelude: bytes, strings, decimal numbers, splitting, and the error monad
    every component is written in. *)

From stdpp Require Export base gmap strings list fin_maps.
From Stdlib Require Export Ascii NArith Lia.

#[export] Set Default Goal Selector "!".

(** ** Notations *)

Declare Scope se7en_scope.
Delimit Scope se7en_scope with se7en.

(** A byte of a [Vec<u8>], [&[u8]] or of a UTF-8 [str]. *)
Abbreviation byte := ascii.

(** [str::as_bytes] and its inverse on byte strings. *)
Abbreviation as_bytes := String.list_ascii_of_string.
Abbreviation of_bytes := String.string_of_list_ascii.

(** [str::len]: the length in bytes. *)
Abbreviation str_len := String.length.

(** ** Machine integers: [u64], [u32] and [usize] are values of [N] below
    their bound; the checked operations return [None] on overflow. *)

Definition u8_max : N := 255.
Definition u32_max : N := 4294967295.
Definition u64_max : N := 18446744073709551615.
(** The service is built for i686: [usize] has 32 bits. *)
Definition usize_max : N := u32_max.

Definition checked_add (max a b : N) : option N :=
  if (a + b <=? max)%N then Some (a + b)%N else None.

Definition checked_mul (max a b : N) : option N :=
  if (a * b <=? max)%N then Some (a * b)%N else None.

Definition saturating_add (max a b : N) : N := N.min max (a + b).

Lemma checked_add_Some max a b c :
  checked_add max a b = Some c <-> (c = a + b /\ a + b <= max)%N.
Proof.
  unfold checked_add. destruct (N.leb_spec (a + b) max); split;
    intros; simplify_eq; try split; try lia; destruct_and?; congruence || lia.
Qed.

Lemma checked_mul_Some max a b c :
  checked_mul max a b = Some c <-> (c = a * b /\ a * b <= max)%N.
Proof.
  unfold checked_mul. destruct (N.leb_spec (a * b) max); split;
    intros; simplify_eq; try split; try lia; destruct_and?; congruence || lia.
Qed.

Lemma checked_add_ok max a b : (a + b <= max)%N -> checked_add max a b = Some (a + b)%N.
Proof. intros H. by apply checked_add_Some. Qed.

Lemma checked_mul_ok max a b : (a * b <= max)%N -> checked_mul max a b = Some (a * b)%N.
Proof. intros H. by apply checked_mul_Some. Qed.

(** ** Byte classes *)

Definition in_range (lo hi : N) (b : byte) : bool :=
  ((lo <=? N_of_ascii b) && (N_of_ascii b <=? hi))%N.

Definition is_ascii_digit (b : byte) : bool := in_range 48 57 b.
Definition is_ascii_lowercase (b : byte) : bool := in_range 97 122 b.
Definition is_ascii_uppercase (b : byte) : bool := in_range 65 90 b.
Definition is_ascii_alphanumeric (b : byte) : bool :=
  is_ascii_digit b || is_ascii_lowercase b || is_ascii_uppercase b.

Definition byte_of_N (n : N) : byte := ascii_of_N n.

Lemma N_of_byte_of_N n : (n < 256)%N -> N_of_ascii (byte_of_N n) = n.
Proof. apply N_ascii_embedding. Qed.

Lemma N_of_ascii_inj a b : N_of_ascii a = N_of_ascii b -> a = b.
Proof.
  intros H. rewrite <- (ascii_N_embedding a), <- (ascii_N_embedding b).
  by rewrite H.
Qed.

Lemma N_of_ascii_lt b : (N_of_ascii b < 256)%N.
Proof. apply N_ascii_bounded. Qed.

Definition to_ascii_lower (b : byte) : byte :=
  if is_ascii_uppercase b then byte_of_N (N_of_ascii b + 32) else b.
Definition to_ascii_upper (b : byte) : byte :=
  if is_ascii_lowercase b then byte_of_N (N_of_ascii b - 32) else b.

Definition str_map (f : byte -> byte) (s : string) : string :=
  of_bytes (f <$> as_bytes s).

Definition to_ascii_lowercase : string -> string := str_map to_ascii_lower.
Definition to_ascii_uppercase : string -> string := str_map to_ascii_upper.
Definition eq_ignore_ascii_case (a b : string) : bool :=
  bool_decide (to_ascii_lowercase a = to_ascii_lowercase b).

(** ** [str::split], [str::rsplitn] and [slice::split] on one separator byte *)

Fixpoint split_on (sep : byte) (l : list byte) : list (list byte) :=
  match l with
  | [] => [[]]
  | c :: l' =>
      if decide (c = sep) then [] :: split_on sep l'
      else match split_on sep l' with
           | h :: t => (c :: h) :: t
           | [] => [[c]]
           end
  end.

Fixpoint join_with (sep : byte) (ls : list (list byte)) : list byte :=
  match ls with
  | [] => []
  | [l] => l
  | l :: ls' => l ++ sep :: join_with sep ls'
  end.

Definition str_split (sep : byte) (s : string) : list string :=
  of_bytes <$> split_on sep (as_bytes s).

(** The last occurrence of the separator. *)
Fixpoint rsplit_once (sep : byte) (l : list byte) : option (list byte * list byte) :=
  match l with
  | [] => None
  | c :: l' =>
      match rsplit_once sep l' with
      | Some (a, b) => Some (c :: a, b)
      | None => if decide (c = sep) then Some ([], l') else None
      end
  end.

(** [str::rsplitn (n, sep)]: at most [n] parts, from the right. *)
Fixpoint rsplitn_bytes (n : nat) (sep : byte) (l : list byte) : list (list byte) :=
  match n with
  | O => []
  | S O => [l]
  | S n' =>
      match rsplit_once sep l with
      | Some (a, b) => b :: rsplitn_bytes n' sep a
      | None => [l]
      end
  end.

Definition rsplitn (n : nat) (sep : byte) (s : string) : list string :=
  of_bytes <$> rsplitn_bytes n sep (as_bytes s).

Lemma split_on_not_nil sep l : split_on sep l <> [].
Proof. destruct l; simpl; repeat case_match; done. Qed.

Lemma join_split sep l : join_with sep (split_on sep l) = l.
Proof.
  induction l as [|c l IH]; [done|]. simpl. case_decide as Hc.
  - subst. pose proof (split_on_not_nil sep l).
    destruct (split_on sep l) eqn:E; [done|]. simpl in *. by rewrite IH.
  - destruct (split_on sep l) as [|h t] eqn:E; [by apply split_on_not_nil in E|].
    destruct t; simpl in *; by rewrite <- IH.
Qed.

Lemma split_on_app sep a l :
  sep ∉ a -> split_on sep (a ++ sep :: l) = a :: split_on sep l.
Proof.
  induction a as [|c a IH]; intros Hn; simpl.
  - by rewrite decide_True.
  - apply not_elem_of_cons in Hn as [Hc Hn]. rewrite decide_False by done.
    by rewrite IH.
Qed.

Lemma split_on_no_sep sep a : sep ∉ a -> split_on sep a = [a].
Proof.
  induction a as [|c a IH]; intros Hn; simpl; [done|].
  apply not_elem_of_cons in Hn as [Hc Hn]. rewrite decide_False by done.
  by rewrite IH.
Qed.

Lemma split_join sep ls :
  ls <> [] -> Forall (fun l => sep ∉ l) ls -> split_on sep (join_with sep ls) = ls.
Proof.
  induction ls as [|l ls IH]; intros Hne Hall; [done|].
  apply Forall_cons in Hall as [Hl Hall]. destruct ls as [|l' ls].
  - by apply split_on_no_sep.
  - change (join_with sep (l :: l' :: ls)) with (l ++ sep :: join_with sep (l' :: ls)).
    rewrite split_on_app by done. by rewrite IH.
Qed.

Lemma split_on_no_sep_in sep l : Forall (fun p => sep ∉ p) (split_on sep l).
Proof.
  induction l as [|c l IH]; simpl.
  - constructor; [apply not_elem_of_nil|done].
  - case_decide.
    + constructor; [apply not_elem_of_nil|done].
    + destruct (split_on sep l) as [|h t].
      * repeat constructor. apply not_elem_of_cons. split; [done|apply not_elem_of_nil].
      * apply Forall_cons in IH as [Hh Ht]. constructor; [|done].
        apply not_elem_of_cons. done.
Qed.

Lemma rsplit_once_None sep l : rsplit_once sep l = None <-> sep ∉ l.
Proof.
  induction l as [|c l IH]; simpl.
  - split; [intros _; apply not_elem_of_nil|done].
  - rewrite not_elem_of_cons, <- IH.
    destruct (rsplit_once sep l) as [[a b]|]; [by split; [|intros []]|].
    case_decide as Hc; split; done || by intros [? _].
Qed.

Lemma rsplit_once_app sep a b : sep ∉ b -> rsplit_once sep (a ++ sep :: b) = Some (a, b).
Proof.
  intros Hb. induction a as [|c a IH]; simpl.
  - apply rsplit_once_None in Hb. rewrite Hb. by rewrite decide_True.
  - by rewrite IH.
Qed.

Lemma rsplit_once_Some sep l a b :
  rsplit_once sep l = Some (a, b) -> l = a ++ sep :: b /\ sep ∉ b.
Proof.
  revert a b. induction l as [|c l IH]; intros a b; simpl; [done|].
  destruct (rsplit_once sep l) as [[a' b']|] eqn:E.
  - intros [= <- <-]. destruct (IH _ _ eq_refl) as [-> ?]. done.
  - case_decide; [|done]. intros [= <- <-]. subst.
    by apply rsplit_once_None in E.
Qed.

(** ** Decimal text of a [u64]: [u64::to_string] and [str::parse::<u64>] *)

Definition digit_char (d : N) : byte := byte_of_N (48 + d).
Definition char_digit (b : byte) : option N :=
  if is_ascii_digit b then Some (N_of_ascii b - 48)%N else None.

(** Twenty digits hold every [u64]; the fuel is the digit count. *)
Fixpoint decimal_digits (fuel : nat) (n : N) (acc : list byte) : list byte :=
  match fuel with
  | O => acc
  | S fuel' =>
      if (n <? 10)%N then digit_char n :: acc
      else decimal_digits fuel' (n / 10) (digit_char (n mod 10) :: acc)
  end.

Definition u64_to_string (n : N) : list byte := decimal_digits 20 n [].

Fixpoint parse_digits (acc : N) (l : list byte) : option N :=
  match l with
  | [] => Some acc
  | c :: l' =>
      d ← char_digit c;
      m ← checked_mul u64_max acc 10;
      a ← checked_add u64_max m d;
      parse_digits a l'
  end.

(** [str::parse::<u64>] also accepts a leading plus sign. *)
Definition parse_u64 (l : list byte) : option N :=
  match l with
  | [] => None
  | c :: l' =>
      if decide (c = "+"%char)
      then match l' with [] => None | _ :: _ => parse_digits 0 l' end
      else parse_digits 0 l
  end.

Lemma char_digit_digit_char d : (d < 10)%N -> char_digit (digit_char d) = Some d.
Proof.
  intros H. unfold char_digit, digit_char, is_ascii_digit, in_range.
  rewrite N_of_byte_of_N by lia.
  destruct (N.leb_spec 48 (48 + d)), (N.leb_spec (48 + d) 57); try lia.
  simpl. f_equal. lia.
Qed.

Lemma is_ascii_digit_digit_char d : (d < 10)%N -> is_ascii_digit (digit_char d) = true.
Proof.
  intros H. pose proof (char_digit_digit_char d H) as E. unfold char_digit in E.
  by destruct (is_ascii_digit (digit_char d)).
Qed.

Lemma decimal_digits_app fuel n acc :
  decimal_digits fuel n acc = decimal_digits fuel n [] ++ acc.
Proof.
  revert n acc. induction fuel as [|fuel IH]; intros n acc; simpl; [done|].
  destruct (n <? 10)%N; [done|]. rewrite IH, (IH _ [_]).
  by rewrite <- app_assoc.
Qed.

Lemma decimal_digits_spec fuel n :
  (0 < fuel)%nat -> (n < 10 ^ N.of_nat fuel)%N ->
  decimal_digits fuel n [] <> [] /\
  Forall (fun b => is_ascii_digit b = true) (decimal_digits fuel n []) /\
  (length (decimal_digits fuel n []) <= fuel)%nat.
Proof.
  revert n. induction fuel as [|fuel IH]; intros n Hf Hn; [lia|]. simpl.
  destruct (N.ltb_spec n 10).
  - split_and!; [done| |simpl; lia].
    repeat constructor. by apply is_ascii_digit_digit_char.
  - assert (0 < fuel)%nat.
    { destruct fuel; [|lia]. change (10 ^ N.of_nat 1)%N with 10%N in Hn. lia. }
    rewrite decimal_digits_app.
    destruct (IH (n / 10)%N) as (H1 & H2 & H3); [done| |].
    { apply N.Div0.div_lt_upper_bound. rewrite <- N.pow_succ_r'.
      by rewrite <- Nat2N.inj_succ. }
    split_and!.
    + by destruct (decimal_digits fuel (n / 10) []).
    + apply Forall_app. split; [done|]. repeat constructor.
      apply is_ascii_digit_digit_char. by apply N.mod_lt.
    + rewrite length_app. simpl. lia.
Qed.

Lemma parse_digits_app l1 l2 a b :
  parse_digits a l1 = Some b -> parse_digits a (l1 ++ l2) = parse_digits b l2.
Proof.
  revert a. induction l1 as [|c l1 IH]; intros a; simpl; [by intros [= ->]|].
  destruct (char_digit c) as [d|]; simpl; [|done].
  destruct (checked_mul _ _ _) as [m|]; simpl; [|done].
  destruct (checked_add _ _ _) as [s|]; simpl; [|done]. apply IH.
Qed.

Lemma parse_decimal_digits fuel n :
  (0 < fuel)%nat -> (n < 10 ^ N.of_nat fuel)%N -> (n <= u64_max)%N ->
  parse_digits 0 (decimal_digits fuel n []) = Some n.
Proof.
  revert n. induction fuel as [|fuel IH]; intros n Hf Hn Hmax; [lia|]. simpl.
  destruct (N.ltb_spec n 10).
  - cbn [parse_digits]. rewrite char_digit_digit_char by lia.
    cbn [mbind option_bind]. rewrite (checked_mul_ok _ 0) by lia.
    cbn [mbind option_bind]. by rewrite checked_add_ok by lia.
  - assert (0 < fuel)%nat.
    { destruct fuel; [|lia]. change (10 ^ N.of_nat 1)%N with 10%N in Hn. lia. }
    rewrite decimal_digits_app.
    assert (n / 10 < 10 ^ N.of_nat fuel)%N.
    { apply N.Div0.div_lt_upper_bound. rewrite <- N.pow_succ_r'.
      by rewrite <- Nat2N.inj_succ. }
    assert (n / 10 <= n)%N by (apply N.Div0.div_le_upper_bound; lia).
    rewrite (parse_digits_app _ _ _ (n / 10)%N) by (apply IH; [done|done|etransitivity; eassumption]).
    assert (n = n / 10 * 10 + n mod 10)%N as Hdiv
      by (rewrite N.mul_comm; by apply N.div_mod).
    cbn [parse_digits]. rewrite char_digit_digit_char by (by apply N.mod_lt).
    revert Hdiv. generalize (n / 10)%N (n mod 10)%N. intros q r Hdiv.
    cbn [mbind option_bind]. rewrite checked_mul_ok by lia.
    cbn [mbind option_bind]. rewrite checked_add_ok by lia.
    cbn [mbind option_bind]. by rewrite <- Hdiv.
Qed.

Lemma u64_fits_twenty_digits n : (n <= u64_max)%N -> (n < 10 ^ N.of_nat 20)%N.
Proof. unfold u64_max. change (10 ^ N.of_nat 20)%N with 100000000000000000000%N. lia. Qed.

Lemma u64_to_string_digits n :
  (n <= u64_max)%N ->
  u64_to_string n <> [] /\
  Forall (fun b => is_ascii_digit b = true) (u64_to_string n) /\
  (length (u64_to_string n) <= 20)%nat.
Proof.
  intros H. apply decimal_digits_spec; [lia|]. by apply u64_fits_twenty_digits.
Qed.

Lemma parse_u64_to_string n : (n <= u64_max)%N -> parse_u64 (u64_to_string n) = Some n.
Proof.
  intros H. destruct (u64_to_string_digits n H) as (Hne & Hd & _).
  pose proof (parse_decimal_digits 20 n ltac:(lia) (u64_fits_twenty_digits n H) H) as E.
  fold (u64_to_string n) in E. destruct (u64_to_string n) as [|c l]; [done|].
  apply Forall_cons in Hd as [Hc _]. unfold parse_u64.
  rewrite decide_False; [done|]. intros ->. done.
Qed.

Lemma parse_digits_max a l n : (a <= u64_max)%N -> parse_digits a l = Some n -> (n <= u64_max)%N.
Proof.
  revert a. induction l as [|c l IH]; intros a Ha; simpl; [by intros [= <-]|].
  destruct (char_digit c) as [d|]; simpl; [|done].
  destruct (checked_mul _ _ _) as [m|]; simpl; [|done].
  destruct (checked_add _ _ _) as [s|] eqn:E; simpl; [|done].
  apply checked_add_Some in E as [-> Hs]. by apply IH.
Qed.

Lemma parse_u64_max l n : parse_u64 l = Some n -> (n <= u64_max)%N.
Proof.
  unfold parse_u64. destruct l as [|c l]; [done|].
  case_decide; [destruct l; [done|]|]; apply parse_digits_max; vm_compute; done.
Qed.

Lemma u64_to_string_inj n m :
  (n <= u64_max)%N -> (m <= u64_max)%N -> u64_to_string n = u64_to_string m -> n = m.
Proof.
  intros Hn Hm E. apply parse_u64_to_string in Hn, Hm. rewrite E in Hn. congruence.
Qed.

(** A digit string without leading zeros is the text of the number it parses to. *)

Lemma parse_digits_app_inv l1 l2 a b :
  parse_digits a (l1 ++ l2) = Some b ->
  exists m, parse_digits a l1 = Some m /\ parse_digits m l2 = Some b.
Proof.
  revert a. induction l1 as [|c l1 IH]; intros a; simpl; [by eexists|].
  destruct (char_digit c) as [d|]; simpl; [|done].
  destruct (checked_mul _ _ _) as [m|]; simpl; [|done].
  destruct (checked_add _ _ _) as [s|]; simpl; [|done]. apply IH.
Qed.

Lemma parse_digits_single m c b :
  parse_digits m [c] = Some b ->
  exists d, (d < 10)%N /\ c = digit_char d /\ b = (m * 10 + d)%N.
Proof.
  simpl. destruct (char_digit c) as [d|] eqn:Ec; simpl; [|done].
  destruct (checked_mul _ _ _) as [k|] eqn:Ek; simpl; [|done].
  destruct (checked_add _ _ _) as [s|] eqn:Es; simpl; [|done]. intros [= <-].
  apply checked_mul_Some in Ek as [-> _]. apply checked_add_Some in Es as [-> _].
  exists d. unfold char_digit, is_ascii_digit, in_range in Ec.
  destruct (N.leb_spec 48 (N_of_ascii c)), (N.leb_spec (N_of_ascii c) 57); simplify_eq/=.
  split_and!; [lia| |done]. apply N_of_ascii_inj. unfold digit_char.
  rewrite N_of_byte_of_N; lia.
Qed.

Lemma decimal_digits_parsed l n :
  l <> [] -> head l <> Some "0"%char -> parse_digits 0 l = Some n ->
  (10 ^ N.of_nat (length l - 1) <= n)%N /\
  forall fuel, (length l <= fuel)%nat -> decimal_digits fuel n [] = l.
Proof.
  revert n. induction l as [|c l IH] using rev_ind; intros n Hne Hh Hp; [done|].
  apply parse_digits_app_inv in Hp as (m & Hm & Hc).
  apply parse_digits_single in Hc as (d & Hd & -> & ->).
  rewrite length_app, Nat.add_sub. destruct l as [|c' l].
  - injection Hm as <-. split.
    + simpl. assert (d <> 0)%N by (by intros ->). lia.
    + intros [|fuel] Hf; [simpl in Hf; lia|]. cbn [decimal_digits].
      by rewrite (proj2 (N.ltb_lt _ _)) by lia.
  - destruct (IH m) as [Hlow Hdig]; [done|done|done|]. simpl length in Hlow, Hdig.
    rewrite Nat.sub_succ, Nat.sub_0_r in Hlow. split.
    + simpl length. rewrite Nat2N.inj_succ, N.pow_succ_r'. lia.
    + intros [|fuel] Hf; [simpl in Hf; lia|]. cbn [decimal_digits].
      assert (1 <= m)%N by (etransitivity; [|exact Hlow]; apply N.lt_pred_le, N.neq_0_lt_0; by apply N.pow_nonzero).
      rewrite (proj2 (N.ltb_ge _ _)) by lia. rewrite decimal_digits_app.
      assert ((m * 10 + d) / 10 = m)%N as ->
        by (rewrite N.add_comm, N.div_add by done; rewrite N.div_small; lia).
      assert ((m * 10 + d) mod 10 = d)%N as ->
        by (rewrite N.add_comm, N.Div0.mod_add; by apply N.mod_small).
      rewrite Hdig; [done|]. simpl in Hf |- *. lia.
Qed.

Lemma u64_to_string_parsed l n :
  l <> [] -> head l <> Some "0"%char -> parse_digits 0 l = Some n -> u64_to_string n = l.
Proof.
  intros Hne Hh Hp. destruct (decimal_digits_parsed l n Hne Hh Hp) as [Hlow Hd].
  apply Hd. apply parse_digits_max in Hp; [|by vm_compute].
  destruct (Nat.le_gt_cases (length l) 20) as [|Hl]; [done|exfalso].
  assert (10 ^ 20 <= n)%N; [|unfold u64_max in *; lia].
  etransitivity; [|exact Hlow]. apply N.pow_le_mono_r; [done|lia].
Qed.

(** ** Strings as byte lists *)

Lemma of_as_bytes s : of_bytes (as_bytes s) = s.
Proof. apply String.string_of_list_ascii_of_string. Qed.

Lemma as_of_bytes l : as_bytes (of_bytes l) = l.
Proof. apply String.list_ascii_of_string_of_list_ascii. Qed.

Lemma as_bytes_inj s t : as_bytes s = as_bytes t -> s = t.
Proof. intros H. by rewrite <- (of_as_bytes s), H, of_as_bytes. Qed.

Lemma of_bytes_inj l k : of_bytes l = of_bytes k -> l = k.
Proof. intros H. by rewrite <- (as_of_bytes l), H, as_of_bytes. Qed.

Lemma as_bytes_app s t : as_bytes (s +:+ t) = as_bytes s ++ as_bytes t.
Proof. induction s as [|c s IH]; simpl; [done|]. by rewrite IH. Qed.

Lemma length_as_bytes s : length (as_bytes s) = str_len s.
Proof. induction s as [|c s IH]; simpl; [done|]. by rewrite IH. Qed.

Lemma str_len_of_bytes l : str_len (of_bytes l) = length l.
Proof. by rewrite <- length_as_bytes, as_of_bytes. Qed.

(** [forallb] as [Forall]. *)
Lemma forallb_Forall {A} (f : A -> bool) l :
  forallb f l = true <-> Forall (fun x => f x = true) l.
Proof. rewrite forallb_forall. by rewrite List.Forall_forall. Qed.

Create Rewrite HintDb se7en.
#[export] Hint Rewrite of_as_bytes as_of_bytes as_bytes_app length_as_bytes
  str_len_of_bytes : se7en.

(** ** Unicode case folding

    [str::to_lowercase] maps through the Unicode tables of the standard
    library.  It is an operation of this class; its documented behaviour on
    ASCII text is the law. *)

Class UnicodeCase := to_lowercase : string -> string.

Definition is_ascii (s : string) : bool :=
  forallb (fun b => N_of_ascii b <? 128)%N (as_bytes s).

Class UnicodeCaseLaws `{UnicodeCase} :=
  to_lowercase_ascii s : is_ascii s = true -> to_lowercase s = to_ascii_lowercase s.

(** ** [char::is_control] on UTF-8 text

    The control characters are U+0000 to U+001F, U+007F and U+0080 to U+009F;
    the last range is encoded as the byte C2 followed by 80 to 9F. *)

Fixpoint has_control_bytes (l : list byte) : bool :=
  match l with
  | [] => false
  | c :: l' =>
      in_range 0 31 c || (N_of_ascii c =? 127)%N ||
      match l' with
      | d :: _ => (N_of_ascii c =? 194)%N && in_range 128 159 d
      | [] => false
      end || has_control_bytes l'
  end.

Definition has_control (s : string) : bool := has_control_bytes (as_bytes s).

(** A NUL character is the byte zero. *)
Definition has_nul (s : string) : bool := bool_decide (zero ∈ as_bytes s).

Lemma has_nul_control s : has_control s = false -> has_nul s = false.
Proof.
  unfold has_control, has_nul. intros Hc. apply bool_decide_eq_false.
  induction (as_bytes s) as [|c l IH]; [apply not_elem_of_nil|].
  cbn in Hc. apply orb_false_iff in Hc as [Hc1 Hc2].
  apply not_elem_of_cons. split; [|by apply IH].
  intros <-. by destruct l.
Qed.

(** ** Prefixes and suffixes *)

Definition starts_with (p s : string) : bool := String.prefix p s.

Definition last_byte (s : string) : option byte := last (as_bytes s).
Definition first_byte_of (s : string) : option byte := head (as_bytes s).

(** [str::split_once]: the text before the first separator, when there is one. *)
Fixpoint before_first (sep : byte) (l : list byte) : option (list byte) :=
  match l with
  | [] => None
  | c :: l' => if decide (c = sep) then Some [] else cons c <$> before_first sep l'
  end.

(** [str::strip_prefix]. *)
Fixpoint strip_prefix_bytes (p l : list byte) : option (list byte) :=
  match p, l with
  | [], _ => Some l
  | c :: p', d :: l' => if decide (c = d) then strip_prefix_bytes p' l' else None
  | _ :: _, [] => None
  end.

Definition strip_prefix (p s : string) : option string :=
  of_bytes <$> strip_prefix_bytes (as_bytes p) (as_bytes s).

(** ** [Path::is_absolute] on Windows: a drive with a root, a verbatim or
    device path, or a UNC path with a server and a share. *)

Definition path_sep (b : byte) : bool := bool_decide (b = "\"%char \/ b = "/"%char).

Fixpoint next_component (l : list byte) : list byte * list byte :=
  match l with
  | [] => ([], [])
  | c :: l' =>
      if path_sep c then ([], l') else let '(a, r) := next_component l' in (c :: a, r)
  end.

Definition unc_prefix (l : list byte) : bool :=
  let '(server, rest) := next_component l in
  let '(share, _) := next_component rest in
  negb (length server =? 0)%nat && negb (length share =? 0)%nat.

Definition path_is_absolute (s : string) : bool :=
  match as_bytes s with
  | a :: b :: rest =>
      if path_sep a && path_sep b then
        match rest with
        | q :: c :: _ =>
            (bool_decide (a = "\"%char /\ b = "\"%char /\ q = "?"%char /\ c = "\"%char))
            || (bool_decide (q = "."%char) && path_sep c) || unc_prefix rest
        | _ => false
        end
      else
        (is_ascii_lowercase a || is_ascii_uppercase a) && bool_decide (b = ":"%char)
        && match rest with c :: _ => path_sep c | [] => false end
  | _ => false
  end.
