(* ===== verification/Errors.v ===== *)
(** * Errors: stable error codes and the error monad

    [ErrorCode], [MaintenanceError] and [Result] of src/src/lib.rs.  Every
    fallible operation of the library returns [Result A]; [?] is the bind of
    the monad and an early [return Err] is [ensure]. *)

From S2P Require Import Prelude.

Inductive ErrorCode :=
  | JsonInvalid | JsonNonCanonical | ManifestTooLarge | TrustSignature
  | TrustUnknownKey | KeyringRollback | KeyringConflict | FileSetRollback
  | GenerationConflict | FileSetPath | FileSetLimit | FileSetHash
  | RegistrySetRollback | RegistrySetLimit | RegistryScopeInvalid
  | RegistryScopeNotFound | RegistryScopeUnauthorized | RegistryValueInvalid
  | RegistryIo | ProductMismatch | ProtocolInvalid | ProtocolVersion
  | ProtocolTooLarge | RootInvalid | RootNotFound | RootUnauthorized
  | RootIdentity | StagingInvalid | InsufficientSpace | ServiceBusy
  | TransactionConflict | TransactionIo | TransactionState
  | RecoveryIncomplete.

#[export] Instance ErrorCode_eq_dec : EqDecision ErrorCode.
Proof. solve_decision. Defined.

Definition as_str (c : ErrorCode) : string :=
  match c with
  | JsonInvalid => "E_JSON_INVALID"
  | JsonNonCanonical => "E_JSON_NON_CANONICAL"
  | ManifestTooLarge => "E_MANIFEST_TOO_LARGE"
  | TrustSignature => "E_TRUST_SIGNATURE"
  | TrustUnknownKey => "E_TRUST_UNKNOWN_KEY"
  | KeyringRollback => "E_KEYRING_ROLLBACK"
  | KeyringConflict => "E_KEYRING_CONFLICT"
  | FileSetRollback => "E_FILESET_ROLLBACK"
  | GenerationConflict => "E_GENERATION_CONFLICT"
  | FileSetPath => "E_FILESET_PATH"
  | FileSetLimit => "E_FILESET_LIMIT"
  | FileSetHash => "E_FILESET_HASH"
  | RegistrySetRollback => "E_REGISTRYSET_ROLLBACK"
  | RegistrySetLimit => "E_REGISTRYSET_LIMIT"
  | RegistryScopeInvalid => "E_REGISTRY_SCOPE_INVALID"
  | RegistryScopeNotFound => "E_REGISTRY_SCOPE_NOT_FOUND"
  | RegistryScopeUnauthorized => "E_REGISTRY_SCOPE_UNAUTHORIZED"
  | RegistryValueInvalid => "E_REGISTRY_VALUE_INVALID"
  | RegistryIo => "E_REGISTRY_IO"
  | ProductMismatch => "E_PRODUCT_MISMATCH"
  | ProtocolInvalid => "E_PROTOCOL_INVALID"
  | ProtocolVersion => "E_PROTOCOL_VERSION"
  | ProtocolTooLarge => "E_PROTOCOL_TOO_LARGE"
  | RootInvalid => "E_ROOT_INVALID"
  | RootNotFound => "E_ROOT_NOT_FOUND"
  | RootUnauthorized => "E_ROOT_UNAUTHORIZED"
  | RootIdentity => "E_ROOT_IDENTITY"
  | StagingInvalid => "E_STAGING_INVALID"
  | InsufficientSpace => "E_INSUFFICIENT_SPACE"
  | ServiceBusy => "E_SERVICE_BUSY"
  | TransactionConflict => "E_TRANSACTION_CONFLICT"
  | TransactionIo => "E_TRANSACTION_IO"
  | TransactionState => "E_TRANSACTION_STATE"
  | RecoveryIncomplete => "E_RECOVERY_INCOMPLETE"
  end.

(** [platform_status] is a Win32 status when the error came from the system. *)
Record MaintenanceError := mkError {
  code : ErrorCode;
  detail : string;
  platform_status : option N;
}.

#[export] Instance MaintenanceError_eq_dec : EqDecision MaintenanceError.
Proof. solve_decision. Defined.

Definition new_error (c : ErrorCode) (d : string) : MaintenanceError :=
  {| code := c; detail := d; platform_status := None |}.

Definition with_platform_status (c : ErrorCode) (d : string) (s : N) : MaintenanceError :=
  {| code := c; detail := d; platform_status := Some s |}.

Definition policy_rejection (c : ErrorCode) : MaintenanceError :=
  {| code := c; detail := "platform policy rejected the operation";
     platform_status := None |}.

(** [impl Display for MaintenanceError]. *)
Definition display_error (e : MaintenanceError) : string :=
  as_str (code e) +:+ ": " +:+ detail e +:+
  match platform_status e with
  | Some status =>
      " (platform status " +:+ of_bytes (u64_to_string status) +:+ ")"
  | None => ""
  end.

(** ** The monad *)

Inductive Result (A : Type) :=
  | Ok (a : A)
  | Err (e : MaintenanceError).
Arguments Ok {_} _.
Arguments Err {_} _.

#[export] Instance Result_ret : MRet Result := fun _ a => Ok a.
#[export] Instance Result_bind : MBind Result := fun _ _ k m =>
  match m with Ok a => k a | Err e => Err e end.
#[export] Instance Result_fmap : FMap Result := fun _ _ f m =>
  match m with Ok a => Ok (f a) | Err e => Err e end.

(** [if !b { return Err (..) }]. *)
Definition ensure (b : bool) (c : ErrorCode) (d : string) : Result () :=
  if b then Ok tt else Err (new_error c d).

(** [ok_or_else] / [map_err] on an [Option] or foreign error. *)
Definition ok_or {A} (o : option A) (c : ErrorCode) (d : string) : Result A :=
  match o with Some a => Ok a | None => Err (new_error c d) end.

Definition is_ok {A} (r : Result A) : bool :=
  match r with Ok _ => true | Err _ => false end.
Definition is_err {A} (r : Result A) : bool := negb (is_ok r).
Definition ok {A} (r : Result A) : option A :=
  match r with Ok a => Some a | Err _ => None end.

(** A [for] loop whose body may return early. *)
Fixpoint try_for {A S} (f : S -> A -> Result S) (s : S) (l : list A) : Result S :=
  match l with
  | [] => Ok s
  | a :: l' => s' ← f s a; try_for f s' l'
  end.

Section laws.
Context {A B : Type}.
Implicit Types (m : Result A) (k : A -> Result B).

Lemma bind_Ok m k b : (m ≫= k) = Ok b <-> exists a, m = Ok a /\ k a = Ok b.
Proof. destruct m; simpl; naive_solver. Qed.

Lemma bind_Err m k e :
  (m ≫= k) = Err e <-> m = Err e \/ exists a, m = Ok a /\ k a = Err e.
Proof. destruct m; simpl; naive_solver. Qed.

Lemma ok_or_Ok (o : option A) c d a : ok_or o c d = Ok a <-> o = Some a.
Proof. destruct o; simpl; naive_solver. Qed.

Lemma is_ok_true m : is_ok m = true <-> exists a, m = Ok a.
Proof. destruct m; simpl; naive_solver. Qed.
End laws.

Lemma ensure_Ok b c d u : ensure b c d = Ok u <-> b = true.
Proof. destruct b, u; simpl; naive_solver. Qed.

Lemma ensure_Err b c d e : ensure b c d = Err e <-> b = false /\ e = new_error c d.
Proof. destruct b; simpl; naive_solver. Qed.

(** Turns [m = Ok a] for a composed [m] into its successful steps. *)
Ltac ok_inv :=
  repeat match goal with
  | H : (_ ≫= _) = Ok _ |- _ =>
      apply bind_Ok in H; let x := fresh "x" in let Hx := fresh "Hx" in
      destruct H as (x & Hx & H)
  | H : ensure _ _ _ = Ok _ |- _ => apply ensure_Ok in H
  | H : ok_or _ _ _ = Ok _ |- _ => apply ok_or_Ok in H
  | H : Ok _ = Ok _ |- _ => injection H as H
  | H : Err _ = Ok _ |- _ => discriminate H
  | H : () |- _ => destruct H
  end.

(** Runs the monad without unfolding the operations in it. *)
Ltac mred := cbn [mbind Result_bind mret Result_ret ensure ok_or negb andb orb fst snd].

(** Resolves the successful checked additions in the context. *)
Ltac add_inv :=
  repeat match goal with
  | H : checked_add _ _ _ = Some _ |- _ =>
      let Hle := fresh "Hle" in apply checked_add_Some in H as [-> Hle]
  | H : checked_mul _ _ _ = Some _ |- _ =>
      let Hle := fresh "Hle" in apply checked_mul_Some in H as [-> Hle]
  end.

(** Splits boolean guards. *)
Ltac bool_inv :=
  repeat match goal with
  | H : (_ && _) = true |- _ => apply andb_true_iff in H as [? ?]
  | H : (_ || _) = false |- _ => apply orb_false_iff in H as [? ?]
  | H : negb _ = true |- _ => apply negb_true_iff in H
  | H : negb _ = false |- _ => apply negb_false_iff in H
  | H : bool_decide _ = true |- _ => apply bool_decide_eq_true in H
  | H : bool_decide _ = false |- _ => apply bool_decide_eq_false in H
  | H : (_ =? _)%N = true |- _ => apply N.eqb_eq in H
  | H : (_ =? _)%N = false |- _ => apply N.eqb_neq in H
  | H : (_ <=? _)%N = true |- _ => apply N.leb_le in H
  | H : (_ <? _)%N = true |- _ => apply N.ltb_lt in H
  | H : (_ <? _)%N = false |- _ => apply N.ltb_ge in H
  | H : (_ <=? _)%N = false |- _ => apply N.leb_gt in H
  | H : (_ =? _)%nat = true |- _ => apply Nat.eqb_eq in H
  | H : (_ =? _)%nat = false |- _ => apply Nat.eqb_neq in H
  | H : (_ <=? _)%nat = true |- _ => apply Nat.leb_le in H
  | H : (_ <? _)%nat = true |- _ => apply Nat.ltb_lt in H
  | H : (_ <? _)%nat = false |- _ => apply Nat.ltb_ge in H
  | H : (_ <=? _)%nat = false |- _ => apply Nat.leb_gt in H
  | H : forallb _ _ = true |- _ => apply forallb_Forall in H
  end.

(** An invariant of the loop's state. *)
Lemma try_for_inv {A S} (I : S -> Prop) (f : S -> A -> Result S) s l s' :
  (forall s a s', I s -> f s a = Ok s' -> I s') ->
  I s -> try_for f s l = Ok s' -> I s'.
Proof.
  intros Hf. revert s. induction l as [|a l IH]; intros s Hs; cbn [try_for].
  - by intros [= <-].
  - intros Hl. ok_inv. eauto.
Qed.

(** ** Loops that collect unique keys

    Five validators of the program fold [HashSet::insert] over a list and fail
    on a repeated key; they share this lemma. *)

Section unique_keys.
Context {A K : Type} `{Countable K} (key : A -> K) (P : A -> Prop).
Context (f : gset K -> A -> Result (gset K)).
Context (f_Ok : forall s a s', f s a = Ok s' -> (key a ∉ s) /\ s' = {[ key a ]} ∪ s /\ P a).

Lemma try_for_unique s l s' :
  try_for f s l = Ok s' ->
  NoDup (key <$> l) /\ Forall P l /\ s' = list_to_set (key <$> l) ∪ s /\
  (forall a, a ∈ l -> key a ∉ s).
Proof.
  revert s. induction l as [|a l IH]; intros s; cbn [try_for].
  - intros [= <-]. split_and!; [constructor|constructor|set_solver|].
    intros a Ha. by apply not_elem_of_nil in Ha.
  - intros Hl. ok_inv. apply f_Ok in Hx as (Hn & -> & HP).
    apply IH in Hl as (Hnd & HF & -> & Hout). split_and!.
    + cbn. constructor; [|done]. intros (b & Eb & Hb)%list_elem_of_fmap.
      apply Hout in Hb. rewrite <- Eb in Hb. set_solver.
    + by constructor.
    + cbn. set_solver.
    + intros b [->|Hb]%elem_of_cons; [done|]. apply Hout in Hb. set_solver.
Qed.

Lemma try_for_unique_ok s l :
  (forall s a, key a ∉ s -> P a -> f s a = Ok ({[ key a ]} ∪ s)) ->
  NoDup (key <$> l) -> Forall P l -> (forall a, a ∈ l -> key a ∉ s) ->
  exists s', try_for f s l = Ok s'.
Proof.
  intros Hf. revert s. induction l as [|a l IH]; intros s Hnd HP Hs; cbn; [by eexists|].
  apply NoDup_cons in Hnd as [Hn Hnd]. apply Forall_cons in HP as [Ha HP].
  rewrite Hf; [|apply Hs; by left|done]. apply IH; [done|done|].
  intros b Hb Hin. apply elem_of_union in Hin as [E%elem_of_singleton|Hin].
  - apply Hn. rewrite <- E. by apply list_elem_of_fmap_2.
  - apply (Hs b); [by right|done].
Qed.
End unique_keys.
