(* ===== verification/Effects.v ===== *)
(** * Effects: state, errors, crashes and fuel

    Code that changes the world (the disk, the service manager) is a
    computation [M S A]: it runs from a state to a new state and ends with a
    [Result], with a crash (the process or the machine stops there and the
    state keeps what was done; undefined behaviour is one too), or without fuel.  An error handler sees errors
    and never a crash.  [wp] is the weakest precondition; it excludes running
    out of fuel, so every specification stated with it includes termination. *)

From S2P Require Import Prelude Errors.

Inductive Outcome (A : Type) :=
  | Done (r : Result A)
  | Crashed
  | OutOfFuel.
Arguments Done {_} _.
Arguments Crashed {_}.
Arguments OutOfFuel {_}.

Definition M (S A : Type) : Type := S -> Outcome A * S.

Definition pure {S A} (a : A) : M S A := fun s => (Done (Ok a), s).
Definition fail {S A} (e : MaintenanceError) : M S A := fun s => (Done (Err e), s).
Definition lift {S A} (r : Result A) : M S A := fun s => (Done r, s).
Definition crash {S A} : M S A := fun s => (Crashed, s).
Definition out_of_fuel {S A} : M S A := fun s => (OutOfFuel, s).
Definition gets {S A} (f : S -> A) : M S A := fun s => (Done (Ok (f s)), s).
Definition modify {S} (f : S -> S) : M S () := fun s => (Done (Ok tt), f s).

Definition bind {S A B} (m : M S A) (k : A -> M S B) : M S B := fun s =>
  match m s with
  | (Done (Ok a), s') => k a s'
  | (Done (Err e), s') => (Done (Err e), s')
  | (Crashed, s') => (Crashed, s')
  | (OutOfFuel, s') => (OutOfFuel, s')
  end.

(** The result of a fallible call, as a value: [if let Err (e) = ..], [match ..]. *)
Definition attempt {S A} (m : M S A) : M S (Result A) := fun s =>
  match m s with
  | (Done r, s') => (Done (Ok r), s')
  | (Crashed, s') => (Crashed, s')
  | (OutOfFuel, s') => (OutOfFuel, s')
  end.

(** [map_err] to a fixed error. *)
Definition map_err {S A} (e : MaintenanceError) (m : M S A) : M S A := fun s =>
  match m s with
  | (Done (Err _), s') => (Done (Err e), s')
  | o => o
  end.

#[export] Instance M_ret S : MRet (M S) := fun A a => @pure S A a.
#[export] Instance M_bind S : MBind (M S) := fun A B k m => bind m k.

Fixpoint for_each {S A} (f : A -> M S ()) (l : list A) : M S () :=
  match l with
  | [] => pure tt
  | a :: l' => _ ← f a; for_each f l'
  end.

(** A call of the system, and one that answers by success. *)
Definition answer {S A} (call : S -> A * S) : M S A := fun s =>
  let '(a, s') := call s in (Done (Ok a), s').

Definition succeeds {S} (call : S -> bool * S) (c : ErrorCode) (detail : string) : M S () :=
  good ← answer call; lift (ensure good c detail).

(** The two halves of a sequence that returned. *)
Lemma bind_Done {S A B} (m : M S A) (k : A -> M S B) s b s' :
  (m ≫= k) s = (Done (Ok b), s') ->
  exists a s1, m s = (Done (Ok a), s1) /\ k a s1 = (Done (Ok b), s').
Proof.
  unfold mbind, M_bind, bind. destruct (m s) as [[[a|e]| |] s1]; intros Hk; try done. eauto.
Qed.

(** ** Weakest preconditions *)

Section wp.
Context {S : Type}.

(** [Q] holds when the code returns, [E] when it fails, [C] when it crashes. *)
Definition wp {A} (m : M S A) (Q : A -> S -> Prop) (E : MaintenanceError -> S -> Prop)
    (C : S -> Prop) (s : S) : Prop :=
  match m s with
  | (Done (Ok a), s') => Q a s'
  | (Done (Err e), s') => E e s'
  | (Crashed, s') => C s'
  | (OutOfFuel, _) => False
  end.

Lemma wp_pure {A} (a : A) Q E C s : Q a s -> wp (pure a) Q E C s.
Proof. done. Qed.

Lemma wp_bind {A B} (m : M S A) (k : A -> M S B) Q E C s :
  wp m (fun a s' => wp (k a) Q E C s') E C s -> wp (m ≫= k) Q E C s.
Proof.
  unfold wp, mbind, M_bind, bind. by destruct (m s) as [[[a|e]| |] s'].
Qed.

Lemma wp_attempt {A} (m : M S A) Q E C s :
  wp m (fun a => Q (Ok a)) (fun e => Q (Err e)) C s -> wp (attempt m) Q E C s.
Proof. unfold wp, attempt. by destruct (m s) as [[[a|e]| |] s']. Qed.

Lemma wp_map_err {A} e (m : M S A) Q E C s :
  wp m Q (fun _ => E e) C s -> wp (map_err e m) Q E C s.
Proof. unfold wp, map_err. by destruct (m s) as [[[a|e']| |] s']. Qed.

Lemma wp_mono {A} (m : M S A) (Q Q' : A -> S -> Prop) (E E' : MaintenanceError -> S -> Prop)
    (C C' : S -> Prop) s :
  wp m Q E C s ->
  (forall a s', Q a s' -> Q' a s') -> (forall e s', E e s' -> E' e s') ->
  (forall s', C s' -> C' s') ->
  wp m Q' E' C' s.
Proof. unfold wp. destruct (m s) as [[[a|e]| |] s']; eauto. Qed.

Lemma wp_lift {A} (r : Result A) Q (E : MaintenanceError -> S -> Prop) C s :
  (forall a, r = Ok a -> Q a s) -> (forall e, r = Err e -> E e s) -> wp (lift r) Q E C s.
Proof. unfold wp, lift. destruct r; eauto. Qed.

Lemma wp_gets {A} (f : S -> A) Q E C s : Q (f s) s -> wp (gets f) Q E C s.
Proof. done. Qed.

(** A loop with an invariant on the part of the list already processed. *)
Lemma wp_for_each {A} (f : A -> M S ()) (I : list A -> S -> Prop) E C l s :
  I [] s ->
  (forall done a rest s', l = done ++ a :: rest -> I done s' ->
     wp (f a) (fun _ => I (done ++ [a])) E C s') ->
  wp (for_each f l) (fun _ => I l) E C s.
Proof.
  intros Hs Hstep.
  assert (forall rest done s', l = done ++ rest -> I done s' ->
            wp (for_each f rest) (fun _ => I l) E C s') as Hgen.
  { induction rest as [|a rest IH]; intros done s' El Hi.
    - rewrite app_nil_r in El. subst. done.
    - cbn [for_each]. apply wp_bind. eapply wp_mono; [by eapply Hstep| |done|done].
      intros [] s'' Hi'. apply (IH (done ++ [a])); [by rewrite <- app_assoc|done]. }
  by apply (Hgen l []).
Qed.
End wp.
