(* ===== verification/Identifiers.v ===== *)
(** * Identifiers, digests and job names

    The textual keys of src/src/lib.rs: lowercase hexadecimal digests
    ([decode_lower_hex], [encode_hex]), root, product and scope identifiers
    ([valid_identifier]) and job identifiers ([valid_job_identifier]), with the
    job name that [prepare_file_set] of src/src/transaction.rs formats and
    [generation_from_job_id] of src/src/windows.rs reads back. *)

From S2P Require Import Prelude Errors.

Definition MAX_JOB_ID_BYTES : nat := 64 + 1 + 20 + 1 + 64.

(** ** Lowercase hexadecimal *)

Definition hex_nibble (b : byte) (c : ErrorCode) : Result N :=
  if in_range 48 57 b then Ok (N_of_ascii b - 48)%N
  else if in_range 97 102 b then Ok (N_of_ascii b - 97 + 10)%N
  else Err (new_error c "hexadecimal value must use lowercase ASCII").

(** The loop over [as_chunks::<2>]; an odd trailing byte is the remainder. *)
Fixpoint decode_pairs (l : list byte) (c : ErrorCode) : Result (list byte) :=
  match l with
  | hi :: lo :: l' =>
      h ← hex_nibble hi c;
      n ← hex_nibble lo c;
      rest ← decode_pairs l' c;
      Ok (byte_of_N (N.lor (N.shiftl h 4) n) :: rest)
  | _ => Ok []
  end.

Definition decode_lower_hex (n : nat) (value : string) (c : ErrorCode) : Result (list byte) :=
  _ ← ensure (str_len value =? n * 2)%nat c "hexadecimal value has the wrong length";
  decode_pairs (as_bytes value) c.

(** [format!("{byte:02x}")]. *)
Definition hex_digit (n : N) : byte :=
  if (n <? 10)%N then byte_of_N (48 + n) else byte_of_N (97 + (n - 10)).

Definition encode_hex_bytes (bs : list byte) : list byte :=
  bs ≫= fun b => [hex_digit (N_of_ascii b / 16); hex_digit (N_of_ascii b mod 16)].

Definition encode_hex (bs : list byte) : string := of_bytes (encode_hex_bytes bs).

Definition encode_lower_hex (bs : list byte) : string := encode_hex bs.

(** ** Identifiers *)

Definition identifier_byte (b : byte) : bool :=
  is_ascii_lowercase b || is_ascii_digit b ||
  bool_decide (b ∈ as_bytes "._-").

Definition valid_identifier (value : string) : bool :=
  match as_bytes value with
  | [] => false
  | first :: _ =>
      (str_len value <=? 64)%nat && is_ascii_alphanumeric first &&
      forallb identifier_byte (as_bytes value)
  end.

Definition lower_hex_byte (b : byte) : bool := is_ascii_digit b || in_range 97 102 b.

Definition valid_job_identifier (value : string) : bool :=
  if (MAX_JOB_ID_BYTES <? str_len value)%nat then false
  else
    match rsplitn 3 "-" value with
    | digest :: generation_text :: root_id :: _ =>
        if negb (valid_identifier root_id)
           || negb (str_len digest =? 64)%nat
           || negb (forallb lower_hex_byte (as_bytes digest))
        then false
        else
          match parse_u64 (as_bytes generation_text) with
          | Some generation =>
              (0 <? generation)%N &&
              bool_decide (u64_to_string generation = as_bytes generation_text)
          | None => false
          end
    | _ => false
    end.

(** [valid_internal_job_id] of src/src/transaction.rs. *)
Definition valid_internal_job_id (value : string) : bool :=
  negb (str_len value =? 0)%nat && (str_len value <=? 256)%nat &&
  forallb identifier_byte (as_bytes value).

(** The job name: [format!("{}-{}-{}", root_id, generation, encode_hex(digest))]. *)
Definition format_job_id (root_id : string) (generation : N) (digest : list byte) : string :=
  root_id +:+ "-" +:+ of_bytes (u64_to_string generation) +:+ "-" +:+ encode_hex digest.

(** [GenerationRecord] of src/src/file_set.rs. *)
Record GenerationRecord := {
  generation : N;
  digest : list byte;
}.

Definition generation_from_job_id (job_id : string) : option (string * GenerationRecord) :=
  if negb (valid_job_identifier job_id) then None
  else
    match rsplitn 3 "-" job_id with
    | digest_text :: generation_text :: root_id :: _ =>
        g ← parse_u64 (as_bytes generation_text);
        if (g =? 0)%N || negb (valid_identifier root_id) then None
        else
          d ← ok (decode_lower_hex 32 digest_text GenerationConflict);
          Some (root_id, {| generation := g; digest := d |})
    | _ => None
    end.

(** ** Hexadecimal lemmas *)

Lemma hex_nibble_digit n c : (n < 16)%N -> hex_nibble (hex_digit n) c = Ok n.
Proof.
  intros H. unfold hex_nibble, hex_digit, in_range.
  destruct (N.ltb_spec n 10).
  - rewrite N_of_byte_of_N by lia.
    destruct (N.leb_spec 48 (48 + n)), (N.leb_spec (48 + n) 57); try lia.
    simpl. f_equal. lia.
  - rewrite N_of_byte_of_N by lia.
    destruct (N.leb_spec 48 (97 + (n - 10))), (N.leb_spec (97 + (n - 10)) 57); try lia.
    destruct (N.leb_spec 97 (97 + (n - 10))), (N.leb_spec (97 + (n - 10)) 102); try lia.
    simpl. f_equal. lia.
Qed.

Lemma hex_nibble_Ok b c n : hex_nibble b c = Ok n -> (n < 16)%N /\ b = hex_digit n.
Proof.
  unfold hex_nibble, in_range. pose proof (N_of_ascii_lt b).
  destruct (N.leb_spec 48 (N_of_ascii b)), (N.leb_spec (N_of_ascii b) 57),
    (N.leb_spec 97 (N_of_ascii b)), (N.leb_spec (N_of_ascii b) 102);
    simpl; intros [= <-]; (split; [lia|]); apply N_of_ascii_inj; unfold hex_digit;
    match goal with |- context [(?x <? 10)%N] => destruct (N.ltb_spec x 10) end;
    try lia; rewrite N_of_byte_of_N by lia; lia.
Qed.

Lemma nibbles_lor h n :
  (h < 16)%N -> (n < 16)%N -> N.lor (N.shiftl h 4) n = (h * 16 + n)%N.
Proof.
  intros Hh Hn. rewrite N.shiftl_mul_pow2. change (2 ^ 4)%N with 16%N.
  enough (N.land (h * 16) n = 0%N) as Hland
    by (by rewrite N.add_nocarry_lxor, N.lxor_lor).
  apply N.bits_inj. intros i.
  rewrite N.land_spec, N.bits_0. change 16%N with (2 ^ 4)%N.
  destruct (N.lt_ge_cases i 4).
  - by rewrite N.mul_pow2_bits_low.
  - rewrite (N.bits_above_log2 n); [by rewrite andb_false_r|].
    destruct (N.eq_dec n 0) as [->|]; [simpl; lia|].
    apply N.lt_le_trans with 4%N; [|done]. apply N.log2_lt_pow2; [lia|].
    by change (2 ^ 4)%N with 16%N.
Qed.

Lemma decode_pairs_encode bs c : decode_pairs (encode_hex_bytes bs) c = Ok bs.
Proof.
  induction bs as [|b bs IH]; [done|].
  change (encode_hex_bytes (b :: bs)) with
    (hex_digit (N_of_ascii b / 16) :: hex_digit (N_of_ascii b mod 16) :: encode_hex_bytes bs).
  pose proof (N_of_ascii_lt b).
  assert (N_of_ascii b / 16 < 16)%N by (apply N.Div0.div_lt_upper_bound; lia).
  assert (N_of_ascii b mod 16 < 16)%N by (by apply N.mod_lt).
  cbn [decode_pairs]. rewrite !hex_nibble_digit by done.
  cbn [mbind Result_bind]. rewrite IH. cbn [mbind Result_bind]. do 2 f_equal.
  rewrite nibbles_lor by done. apply N_of_ascii_inj.
  assert (N_of_ascii b = N_of_ascii b / 16 * 16 + N_of_ascii b mod 16)%N as <-
    by (rewrite N.mul_comm; by apply N.div_mod).
  by rewrite N_of_byte_of_N.
Qed.

Lemma decode_pairs_Ok l c bs :
  Nat.Even (length l) -> decode_pairs l c = Ok bs -> l = encode_hex_bytes bs.
Proof.
  intros Heven. remember (length l) as k eqn:Hk. revert l bs Hk.
  induction k as [k IH] using lt_wf_ind. intros l bs -> H.
  destruct l as [|hi [|lo l]]; simpl in H.
  - ok_inv. by subst.
  - by destruct Heven as [? ?]; simpl in *; lia.
  - ok_inv. subst.
    apply hex_nibble_Ok in Hx as [Hh ->]. apply hex_nibble_Ok in Hx0 as [Hn ->].
    rewrite nibbles_lor by done.
    assert (l = encode_hex_bytes x1) as ->.
    { eapply (IH (length l)); simpl; [lia| |done|done].
      destruct Heven as [j Hj]. exists (j - 1)%nat. simpl in Hj. lia. }
    change (encode_hex_bytes (?b :: ?bs)) with
      (hex_digit (N_of_ascii b / 16) :: hex_digit (N_of_ascii b mod 16) :: encode_hex_bytes bs).
    rewrite N_of_byte_of_N by lia.
    rewrite N.div_add_l, N.div_small, N.add_0_r by done.
    by rewrite N.add_comm, N.Div0.mod_add, N.mod_small.
Qed.

Lemma length_encode_hex_bytes bs : length (encode_hex_bytes bs) = (length bs * 2)%nat.
Proof. induction bs as [|b bs IH]; simpl in *; lia. Qed.

Lemma decode_lower_hex_encode n bs c :
  length bs = n -> decode_lower_hex n (encode_hex bs) c = Ok bs.
Proof.
  intros <-. unfold decode_lower_hex, encode_hex.
  rewrite str_len_of_bytes, length_encode_hex_bytes, Nat.eqb_refl. simpl.
  rewrite as_of_bytes. apply decode_pairs_encode.
Qed.

Lemma encode_hex_inj bs1 bs2 : encode_hex bs1 = encode_hex bs2 -> bs1 = bs2.
Proof.
  intros H. apply of_bytes_inj in H.
  pose proof (decode_pairs_encode bs1 JsonInvalid) as H1.
  rewrite H, decode_pairs_encode in H1. by injection H1.
Qed.

(** Decoding a digest is exactly the inverse of printing it: a text decodes
    to [bs] as an [n]-byte value if and only if it is the lowercase hexadecimal
    print of the [n] bytes [bs], so one digest has one accepted spelling. *)
Lemma decode_lower_hex_iff n value c bs :
  decode_lower_hex n value c = Ok bs <-> length bs = n /\ value = encode_hex bs.
Proof.
  split; [|intros [Hn ->]; by apply decode_lower_hex_encode].
  unfold decode_lower_hex. intros H. ok_inv. apply Nat.eqb_eq in Hx.
  apply decode_pairs_Ok in H; [|exists n; rewrite length_as_bytes; lia].
  split.
  - pose proof (f_equal length H) as Hl.
    rewrite length_as_bytes, length_encode_hex_bytes in Hl. lia.
  - unfold encode_hex. by rewrite <- H, of_as_bytes.
Qed.

Lemma hex_digit_lower n : (n < 16)%N -> lower_hex_byte (hex_digit n) = true.
Proof.
  intros H. unfold lower_hex_byte, is_ascii_digit, hex_digit, in_range.
  destruct (N.ltb_spec n 10); rewrite N_of_byte_of_N by lia;
    apply orb_true_iff; [left|right]; apply andb_true_iff; split; apply N.leb_le; lia.
Qed.

Lemma encode_hex_lower bs : Forall (fun b => lower_hex_byte b = true) (encode_hex_bytes bs).
Proof.
  unfold encode_hex_bytes. induction bs as [|b bs IH]; simpl; [done|].
  pose proof (N_of_ascii_lt b).
  repeat (constructor; [apply hex_digit_lower|]); [|by apply N.mod_lt|done].
  apply N.Div0.div_lt_upper_bound. lia.
Qed.

Lemma lower_hex_decodes n l c :
  length l = (n * 2)%nat -> Forall (fun b => lower_hex_byte b = true) l ->
  exists bs, decode_pairs l c = Ok bs.
Proof.
  revert l. induction n as [|n IH]; intros l Hl Hall.
  - destruct l; [by exists []|done].
  - destruct l as [|hi [|lo l]]; simpl in Hl; try lia.
    apply Forall_cons in Hall as [Hhi Hall]. apply Forall_cons in Hall as [Hlo Hall].
    destruct (IH l ltac:(lia) Hall) as [bs Hbs].
    assert (forall b, lower_hex_byte b = true -> exists x, hex_nibble b c = Ok x) as Hn.
    { intros b Hb. unfold lower_hex_byte, is_ascii_digit in Hb. unfold hex_nibble.
      destruct (in_range 48 57 b); [by eexists|].
      destruct (in_range 97 102 b); [by eexists|done]. }
    destruct (Hn hi Hhi) as [h Eh], (Hn lo Hlo) as [m Em].
    simpl. rewrite Eh, Em. simpl. rewrite Hbs. by eexists.
Qed.

(** ** Job names *)

Lemma dash_not_digit l :
  Forall (fun b => is_ascii_digit b = true) l -> "-"%char ∉ l.
Proof. intros H Hin. rewrite Forall_forall in H. by apply H in Hin. Qed.

Lemma dash_not_hex l : Forall (fun b => lower_hex_byte b = true) l -> "-"%char ∉ l.
Proof. intros H Hin. rewrite Forall_forall in H. by apply H in Hin. Qed.

Lemma as_bytes_format_job_id r g d :
  as_bytes (format_job_id r g d) =
  as_bytes r ++ "-"%char :: u64_to_string g ++ "-"%char :: encode_hex_bytes d.
Proof.
  unfold format_job_id, encode_hex. rewrite !as_bytes_app, !as_of_bytes. done.
Qed.

Lemma rsplitn_format_job_id r g d :
  (g <= u64_max)%N ->
  rsplitn 3 "-" (format_job_id r g d) = [encode_hex d; of_bytes (u64_to_string g); r].
Proof.
  intros Hg. unfold rsplitn. rewrite as_bytes_format_job_id. cbn [rsplitn_bytes].
  rewrite app_comm_cons, app_assoc.
  rewrite rsplit_once_app by apply dash_not_hex, encode_hex_lower.
  rewrite rsplit_once_app by (apply dash_not_digit, u64_to_string_digits; done).
  simpl. by rewrite of_as_bytes.
Qed.

Lemma rsplitn_3_inv s a b r rest :
  rsplitn 3 "-" s = a :: b :: r :: rest ->
  rest = [] /\ as_bytes s = as_bytes r ++ "-"%char :: as_bytes b ++ "-"%char :: as_bytes a.
Proof.
  unfold rsplitn. cbn [rsplitn_bytes].
  destruct (rsplit_once _ (as_bytes s)) as [[l d]|] eqn:E1; [|done].
  destruct (rsplit_once _ l) as [[l' t]|] eqn:E2; [|done].
  simpl. intros [= <- <- <- <-].
  apply rsplit_once_Some in E1 as [-> _]. apply rsplit_once_Some in E2 as [-> _].
  rewrite !as_of_bytes. split; [done|]. by rewrite <- app_assoc.
Qed.

Lemma valid_identifier_spec r :
  valid_identifier r = true <->
  (0 < str_len r <= 64)%nat /\ Forall (fun b => identifier_byte b = true) (as_bytes r) /\
  (exists b, head (as_bytes r) = Some b /\ is_ascii_alphanumeric b = true).
Proof.
  unfold valid_identifier. rewrite <- length_as_bytes.
  destruct (as_bytes r) as [|b l] eqn:E.
  - split; [done|]. simpl. intros [? _]. lia.
  - rewrite !andb_true_iff, forallb_Forall, Nat.leb_le. simpl. naive_solver lia.
Qed.

Lemma valid_identifier_len r : valid_identifier r = true -> (0 < str_len r <= 64)%nat.
Proof. rewrite valid_identifier_spec. by intros [? _]. Qed.

Lemma format_job_id_len r g d :
  (g <= u64_max)%N ->
  (str_len (format_job_id r g d) <= str_len r + 1 + 20 + 1 + length d * 2)%nat.
Proof.
  intros Hg. rewrite <- length_as_bytes, as_bytes_format_job_id.
  destruct (u64_to_string_digits g Hg) as (_ & _ & Hl).
  rewrite !length_app, length_as_bytes. simpl.
  rewrite length_app. simpl. rewrite length_encode_hex_bytes. lia.
Qed.

Lemma valid_job_identifier_format r g d :
  valid_identifier r = true -> (0 < g <= u64_max)%N -> length d = 32%nat ->
  valid_job_identifier (format_job_id r g d) = true.
Proof.
  intros Hr [Hg Hmax] Hd. unfold valid_job_identifier.
  pose proof (format_job_id_len r g d Hmax). pose proof (valid_identifier_len r Hr).
  destruct (Nat.ltb_spec MAX_JOB_ID_BYTES (str_len (format_job_id r g d))) as [Hlt|_].
  { unfold MAX_JOB_ID_BYTES in Hlt. lia. }
  rewrite rsplitn_format_job_id by done. rewrite Hr.
  unfold encode_hex. rewrite str_len_of_bytes, length_encode_hex_bytes, Hd, as_of_bytes.
  rewrite (proj2 (forallb_Forall _ _) (encode_hex_lower d)). simpl.
  rewrite as_of_bytes, parse_u64_to_string by done.
  rewrite bool_decide_true by done. destruct (N.ltb_spec 0 g); [done|lia].
Qed.

Lemma valid_job_identifier_inv s :
  valid_job_identifier s = true ->
  exists r g d, s = format_job_id r g d /\ valid_identifier r = true /\
    (0 < g <= u64_max)%N /\ length d = 32%nat.
Proof.
  unfold valid_job_identifier. case_match; [done|].
  destruct (rsplitn 3 "-" s) as [|a [|b [|r rest]]] eqn:E; try done.
  apply rsplitn_3_inv in E as [_ E].
  destruct (negb _ || _ || _) eqn:G; [done|]. bool_inv.
  destruct (parse_u64 _) as [g|] eqn:Eg; [|done]. intros Hg. bool_inv.
  destruct (lower_hex_decodes 32 (as_bytes a) JsonInvalid) as [d Hd];
    [by rewrite length_as_bytes|done|].
  apply decode_pairs_Ok in Hd as Ha; [|exists 32%nat; by rewrite length_as_bytes].
  exists r, g, d. split_and!; [|done|lia|by apply parse_u64_max in Eg|].
  - apply as_bytes_inj. rewrite as_bytes_format_job_id, E.
    by rewrite <- Ha, H4.
  - pose proof (f_equal length Ha) as Hl.
    rewrite length_encode_hex_bytes, length_as_bytes in Hl. lia.
Qed.

(** The job identifiers the service accepts are exactly the names
    [prepare_file_set] formats: a valid root identifier, a positive [u64]
    generation in decimal and a 32-byte digest. *)
Lemma valid_job_identifier_iff s :
  valid_job_identifier s = true <->
  exists r g d, s = format_job_id r g d /\ valid_identifier r = true /\
    (0 < g <= u64_max)%N /\ length d = 32%nat.
Proof.
  split; [apply valid_job_identifier_inv|].
  intros (r & g & d & -> & ? & ? & ?). by apply valid_job_identifier_format.
Qed.

Lemma format_job_id_inj r1 g1 d1 r2 g2 d2 :
  (g1 <= u64_max)%N -> (g2 <= u64_max)%N ->
  format_job_id r1 g1 d1 = format_job_id r2 g2 d2 -> r1 = r2 /\ g1 = g2 /\ d1 = d2.
Proof.
  intros H1 H2 E.
  pose proof (rsplitn_format_job_id r1 g1 d1 H1) as E1.
  rewrite E, rsplitn_format_job_id in E1 by done. injection E1 as Ed Eg ->.
  apply encode_hex_inj in Ed. apply of_bytes_inj, u64_to_string_inj in Eg; auto.
Qed.

Lemma generation_from_job_id_format r g d :
  valid_identifier r = true -> (0 < g <= u64_max)%N -> length d = 32%nat ->
  generation_from_job_id (format_job_id r g d) =
    Some (r, {| generation := g; digest := d |}).
Proof.
  intros Hr [Hg Hmax] Hd. unfold generation_from_job_id.
  rewrite valid_job_identifier_format by done. cbn [negb].
  rewrite rsplitn_format_job_id by done.
  rewrite as_of_bytes, parse_u64_to_string by done. simpl.
  rewrite Hr. destruct (N.eqb_spec g 0); [lia|]. simpl.
  by rewrite decode_lower_hex_encode.
Qed.

Lemma generation_from_job_id_inv s r rec :
  generation_from_job_id s = Some (r, rec) ->
  s = format_job_id r (generation rec) (digest rec) /\ valid_identifier r = true /\
  (0 < generation rec <= u64_max)%N /\ length (digest rec) = 32%nat.
Proof.
  intros H. destruct (valid_job_identifier s) eqn:E;
    [|unfold generation_from_job_id in H; by rewrite E in H].
  apply valid_job_identifier_inv in E as (r' & g & d & -> & Hr & Hg & Hd).
  rewrite generation_from_job_id_format in H by done.
  injection H as <- <-. done.
Qed.

(** A committed job's name carries its generation record through a crash:
    reading a name back yields root [r] and record [(g, d)] exactly when the
    name is the one formatted from a valid root, positive generation and
    32-byte digest, even though root identifiers may contain dashes. *)
Theorem generation_from_job_id_iff s r rec :
  generation_from_job_id s = Some (r, rec) <->
  s = format_job_id r (generation rec) (digest rec) /\ valid_identifier r = true /\
  (0 < generation rec <= u64_max)%N /\ length (digest rec) = 32%nat.
Proof.
  split; [apply generation_from_job_id_inv|].
  intros (-> & Hr & Hg & Hd). destruct rec. by apply generation_from_job_id_format.
Qed.
