(* ===== verification/Json.v ===== *)
(** * Canonical JSON

    [canonical_json], [write_canonical] and [parse_canonical] of src/src/lib.rs.
    The JSON reader and the string and number printers belong to the crate
    serde_json: they are the operations of the class [SerdeJson], and the laws
    the theorems use are the class [SerdeJsonLaws].  The object writer, the key
    order, the rejection of floating-point numbers and the canonicality check
    are the program's own and are defined here. *)

From stdpp Require Import sorting.
From S2P Require Import Prelude Errors.

(** ** What the crate provides *)

Class SerdeJson := {
  Number : Type;
  as_u64 : Number -> option N;
  as_i64 : Number -> option Z;
  number_to_string : Number -> list byte;
  number_of_u64 : N -> Number;
  (** [serde_json::to_writer] on a string, into a byte vector. *)
  write_string : string -> option (list byte);
}.

#[local] Set Warnings "-register-all".

(** [serde_json::Value]; the entries of an object are in the map's own order. *)
Inductive Value `{SerdeJson} :=
  | Null
  | VBool (b : bool)
  | VNumber (n : Number)
  | VString (s : string)
  | Array (items : list Value)
  | Object (entries : list (string * Value)).

Section writer.
Context `{SerdeJson}.

Fixpoint get {X} (key : string) (entries : list (string * X)) : option X :=
  match entries with
  | [] => None
  | (k, v) :: entries' => if decide (k = key) then Some v else get key entries'
  end.

Definition object_keys {X} (entries : list (string * X)) : list string :=
  entries.*1.

(** [keys.sort_unstable()], byte-lexicographic. *)
Definition sort_keys (keys : list string) : list string := merge_sort String.le keys.

(** The items of an array or object, separated by commas. *)
Fixpoint write_items (first : bool) (items : list (Result (list byte))) : Result (list byte) :=
  match items with
  | [] => Ok []
  | item :: items' =>
      bytes ← item;
      rest ← write_items false items';
      Ok ((if first then [] else [","%char]) ++ bytes ++ rest)
  end.

Definition write_entry {X} (write : X -> Result (list byte)) (key : string)
    (item : option X) : Result (list byte) :=
  k ← ok_or (write_string key) JsonInvalid "could not encode JSON key";
  v ← ok_or item JsonInvalid "JSON object changed while read";
  bytes ← write v;
  Ok (k ++ ":"%char :: bytes).

Fixpoint write_canonical (value : Value) : Result (list byte) :=
  match value with
  | Null => Ok (as_bytes "null")
  | VBool true => Ok (as_bytes "true")
  | VBool false => Ok (as_bytes "false")
  | VNumber number =>
      match as_u64 number, as_i64 number with
      | None, None =>
          Err (new_error JsonInvalid "floating-point JSON numbers are not supported")
      | _, _ => Ok (number_to_string number)
      end
  | VString string =>
      ok_or (write_string string) JsonInvalid "could not encode JSON string"
  | Array items =>
      body ← write_items true (List.map write_canonical items);
      Ok ("["%char :: body ++ ["]"%char])
  | Object object =>
      let written := List.map (fun kv => (fst kv, write_canonical (snd kv))) object in
      body ← write_items true
        ((fun key => write_entry (fun r => r) key (get key written))
           <$> sort_keys (object_keys object));
      Ok ("{"%char :: body ++ ["}"%char])
  end.

Definition canonical_json (value : Value) : Result (list byte) := write_canonical value.
End writer.

(** ** Documents *)

(** [serde_json::from_slice] at a type with a derived [Deserialize]. *)
Class Reader (T : Type) := from_slice : list byte -> option T.

(** [serde_json::to_value] at a type with a derived [Serialize]; each instance
    follows the type's serde attributes. *)
Class Encoder `{SerdeJson} (T : Type) := to_value : T -> option Value.

Definition parse_canonical `{SerdeJson} (T : Type) `{!Reader T, !Encoder T}
    (bytes : list byte) (maximum : N) : Result T :=
  _ ← ensure (N.of_nat (length bytes) <=? maximum)%N ManifestTooLarge
        "signed document exceeds the configured bound";
  parsed ← ok_or (from_slice bytes) JsonInvalid "signed document is not strict JSON";
  value ← ok_or (to_value parsed) JsonInvalid "signed document cannot be re-encoded";
  canonical ← canonical_json value;
  _ ← ensure (bool_decide (canonical = bytes)) JsonNonCanonical
        "signed document bytes are not canonical";
  Ok parsed.

Lemma parse_canonical_Ok `{SerdeJson} (T : Type) `{!Reader T, !Encoder T} bytes maximum t :
  parse_canonical T bytes maximum = Ok t ->
  (N.of_nat (length bytes) <= maximum)%N /\ from_slice bytes = Some t /\
  exists v, to_value t = Some v /\ canonical_json v = Ok bytes.
Proof.
  unfold parse_canonical. intros Hp. ok_inv. subst. bool_inv. subst.
  split; [done|]. split; [done|]. by eexists.
Qed.

(** Exactly the canonical texts of readable documents are accepted. *)
Lemma parse_canonical_iff `{SerdeJson} (T : Type) `{!Reader T, !Encoder T} bytes maximum t :
  parse_canonical T bytes maximum = Ok t <->
  (N.of_nat (length bytes) <= maximum)%N /\ from_slice bytes = Some t /\
  exists v, to_value t = Some v /\ canonical_json v = Ok bytes.
Proof.
  split; [apply parse_canonical_Ok|]. intros (Hl%N.leb_le & Hr & v & Hv & Hc).
  unfold parse_canonical. rewrite Hl. mred. rewrite Hr. mred. rewrite Hv. mred. rewrite Hc. mred.
  by rewrite bool_decide_true.
Qed.

(** [signing_message]: the domain, a zero byte, the canonical payload. *)
Definition signing_message (domain payload : list byte) : list byte :=
  domain ++ zero :: payload.

(** ** Laws of the crate's printers *)

Definition quote : byte := byte_of_N 34.

(** Bytes of a printed integer. *)
Definition number_byte (b : byte) : bool := is_ascii_digit b || bool_decide (b = "-"%char).

Definition integral `{SerdeJson} (n : Number) : Prop :=
  is_Some (as_u64 n) \/ is_Some (as_i64 n).

(** A byte of a string that is printed as itself. *)
Definition verbatim_byte (b : byte) : bool :=
  in_range 32 126 b && negb (bool_decide (b = quote)) && negb (bool_decide (b = byte_of_N 92)).

Class SerdeJsonLaws `{SerdeJson} := {
  number_to_string_inj n m :
    integral n -> integral m -> number_to_string n = number_to_string m -> n = m;
  number_to_string_bytes n :
    integral n ->
    number_to_string n <> [] /\
    Forall (fun b => number_byte b = true) (number_to_string n);
  number_of_u64_inj n m : number_of_u64 n = number_of_u64 m -> n = m;
  number_of_u64_integral n : (n <= u64_max)%N -> integral (number_of_u64 n);
  write_string_quote s l : write_string s = Some l -> exists l', l = quote :: l';
  write_string_prefix s1 s2 l1 l2 r1 r2 :
    write_string s1 = Some l1 -> write_string s2 = Some l2 ->
    l1 ++ r1 = l2 ++ r2 -> s1 = s2 /\ r1 = r2;
  (** Plain ASCII text is printed between quotes as it is. *)
  write_string_verbatim s :
    forallb verbatim_byte (as_bytes s) = true ->
    write_string s = Some (quote :: as_bytes s ++ [quote]);
  (** Control characters are escaped. *)
  write_string_printable s l b : write_string s = Some l -> b ∈ l -> (32 <= N_of_ascii b)%N;
  as_u64_of_u64 n : (n <= u64_max)%N -> as_u64 (number_of_u64 n) = Some n;
  number_to_string_length n : integral n -> (length (number_to_string n) <= 20)%nat;
  (** A byte is escaped by at most six. *)
  write_string_length s l : write_string s = Some l -> (length l <= 2 + 6 * str_len s)%nat;
}.

(** ** Key order: the writer prints the document with its objects sorted *)

Lemma Value_nested_ind `{SerdeJson} (P : Value -> Prop)
  (HNull : P Null) (HBool : forall b, P (VBool b)) (HNumber : forall n, P (VNumber n))
  (HString : forall s, P (VString s))
  (HArray : forall items, Forall P items -> P (Array items))
  (HObject : forall es, Forall (fun kv => P kv.2) es -> P (Object es)) v : P v.
Proof.
  revert v. fix IH 1. intros [| | | |items|es]; [done..| |].
  - apply HArray. induction items as [|v items IHl]; constructor; [apply IH|done].
  - apply HObject. induction es as [|[k v] es IHl]; constructor; [apply IH|done].
Qed.

Section normal_form.
Context `{SerdeJson}.

(** The document with every object's entries in key order. *)
Fixpoint normalize (v : Value) : Value :=
  match v with
  | Array items => Array (List.map normalize items)
  | Object es =>
      let normal := List.map (fun kv => (fst kv, normalize (snd kv))) es in
      Object (omap (fun key => (key,.) <$> get key normal) (sort_keys (object_keys es)))
  | _ => v
  end.

(** Two documents that differ only in the order of object entries. *)
Definition value_equiv (v w : Value) : Prop := normalize v = normalize w.

#[export] Instance value_equiv_equivalence : Equivalence value_equiv.
Proof. split; unfold value_equiv; congruence. Qed.

(** The printer without the sort. *)
Fixpoint print (v : Value) : Result (list byte) :=
  match v with
  | Array items =>
      body ← write_items true (List.map print items);
      Ok ("["%char :: body ++ ["]"%char])
  | Object es =>
      body ← write_items true
        (List.map (fun kv => write_entry (fun r => r) (fst kv) (Some (print (snd kv)))) es);
      Ok ("{"%char :: body ++ ["}"%char])
  | _ => write_canonical v
  end.

Lemma get_map {X Y} (f : X -> Y) key (es : list (string * X)) :
  get key (List.map (fun kv => (fst kv, f (snd kv))) es) = f <$> get key es.
Proof.
  induction es as [|[k v] es IH]; [done|]. cbn. case_decide; [done|apply IH].
Qed.

Lemma get_in {X} key (es : list (string * X)) :
  key ∈ object_keys es -> exists v, get key es = Some v /\ (key, v) ∈ es.
Proof.
  induction es as [|[k v] es IH]; cbn; intros Hin.
  - by apply not_elem_of_nil in Hin.
  - case_decide as Hk.
    + subst. exists v. split; [done|by left].
    + apply elem_of_cons in Hin as [->|Hin]; [done|].
      destruct (IH Hin) as (w & ? & ?). exists w. split; [done|by right].
Qed.

Lemma object_keys_map {X Y} (f : X -> Y) (es : list (string * X)) :
  object_keys (List.map (fun kv => (fst kv, f (snd kv))) es) = object_keys es.
Proof. unfold object_keys. induction es as [|[k v] es IH]; cbn; congruence. Qed.

Lemma write_canonical_print v : write_canonical v = print (normalize v).
Proof.
  induction v as [|b|n|s|items IH|es IH] using Value_nested_ind; try done.
  - cbn. do 2 f_equal. induction IH as [|v vs Hv _ IHs]; cbn; congruence.
  - cbn. do 2 f_equal.
    assert (forall k, k ∈ sort_keys (object_keys es) -> k ∈ object_keys es) as Hin.
    { intros k. unfold sort_keys. by rewrite merge_sort_Permutation. }
    revert Hin. generalize (sort_keys (object_keys es)) as keys.
    induction keys as [|k keys IHk]; intros Hin; [done|]. cbn.
    rewrite !get_map.
    destruct (get_in k es) as (v & Hget & Hv); [apply Hin; by left|].
    rewrite Hget. cbn. f_equal.
    + rewrite Forall_forall in IH. specialize (IH _ Hv). cbn in IH. by rewrite IH.
    + apply IHk. intros k' Hk'. apply Hin. by right.
Qed.

#[export] Instance canonical_json_proper : Proper (value_equiv ==> eq) canonical_json.
Proof.
  intros v w E. unfold canonical_json. by rewrite !write_canonical_print, E.
Qed.

Lemma get_Permutation {X} key (es1 es2 : list (string * X)) :
  NoDup (object_keys es1) -> es1 ≡ₚ es2 -> get key es1 = get key es2.
Proof.
  intros Hnd Hp. revert Hnd. unfold object_keys.
  induction Hp as [|[k v] l1 l2 Hp IH|[k1 v1] [k2 v2] l|l1 l2 l3 Hp1 IH1 Hp2 IH2];
    cbn; intros Hnd.
  - done.
  - apply NoDup_cons in Hnd as [_ Hnd]. case_decide; [done|]. by apply IH.
  - apply NoDup_cons in Hnd as [Hn _].
    repeat case_decide; try done. subst. exfalso. apply Hn. by left.
  - rewrite IH1 by done. apply IH2. by rewrite <- Hp1.
Qed.

(** Object key order is immaterial: reordering the entries of an object
    does not change its canonical bytes, so one document has one encoding. *)
Theorem canonical_json_key_order es1 es2 :
  NoDup (object_keys es1) -> es1 ≡ₚ es2 ->
  canonical_json (Object es1) = canonical_json (Object es2).
Proof.
  intros Hnd Hp. apply canonical_json_proper. unfold value_equiv. cbn. f_equal.
  assert (sort_keys (object_keys es1) = sort_keys (object_keys es2)) as ->.
  { apply (Sorted_unique String.le); [apply Sorted_merge_sort, _..|].
    unfold sort_keys, object_keys. by rewrite !merge_sort_Permutation, Hp. }
  apply list_omap_ext, Forall2_same_length_lookup. split; [done|].
  intros i k k' Hk Hk'. simplify_eq. rewrite !get_map. f_equal.
  by rewrite (get_Permutation _ _ _ Hnd Hp).
Qed.
End normal_form.

(** ** The printer is a prefix code, hence injective *)

(** What may follow a value: the end, a comma or a closing bracket. *)
Definition delimiter (c : byte) : bool := bool_decide (c ∈ as_bytes ",]}").

Definition delimited (r : list byte) : Prop :=
  match r with [] => True | c :: _ => delimiter c = true end.

Section injectivity.
Context `{SerdeJsonLaws}.

(** The first byte of a printed value determines its constructor. *)
Definition first_byte (v : Value) (c : byte) : Prop :=
  match v with
  | Null => c = "n"%char
  | VBool true => c = "t"%char
  | VBool false => c = "f"%char
  | VNumber _ => number_byte c = true
  | VString _ => c = quote
  | Array _ => c = "["%char
  | Object _ => c = "{"%char
  end.

Lemma print_number n l :
  print (VNumber n) = Ok l -> integral n /\ l = number_to_string n.
Proof.
  cbn. unfold integral.
  destruct (as_u64 n), (as_i64 n); intros; ok_inv; naive_solver.
Qed.

Lemma print_first_byte v l : print v = Ok l -> exists c l', l = c :: l' /\ first_byte v c.
Proof.
  destruct v as [|[]|n|s|items|es]; intros Hp.
  1-3: injection Hp as <-; by do 2 eexists.
  - apply print_number in Hp as [Hi ->].
    destruct (number_to_string_bytes n Hi) as [Hne Hall].
    destruct (number_to_string n) as [|c l']; [done|].
    apply Forall_cons in Hall as [Hc _]. by exists c, l'.
  - cbn in Hp. ok_inv. apply write_string_quote in Hp as [l' ->]. by do 2 eexists.
  - cbn in Hp. ok_inv. subst. by do 2 eexists.
  - cbn in Hp. ok_inv. subst. by do 2 eexists.
Qed.

Lemma first_byte_not_delimiter v c : first_byte v c -> delimiter c = false.
Proof.
  destruct v as [|[]| | | |]; cbn; try (by intros ->).
  unfold number_byte, delimiter. intros Hc. apply bool_decide_eq_false. intros Hin.
  cbn in Hin. rewrite !elem_of_cons in Hin.
  destruct Hin as [->|[->|[->|Hin]]]; try done. by apply not_elem_of_nil in Hin.
Qed.

Lemma number_byte_not_delimiter c : number_byte c = true -> delimiter c = false.
Proof. intros Hc. by apply (first_byte_not_delimiter (VNumber (number_of_u64 0))). Qed.

Lemma number_span l1 l2 r1 r2 :
  Forall (fun b => number_byte b = true) l1 ->
  Forall (fun b => number_byte b = true) l2 ->
  delimited r1 -> delimited r2 -> l1 ++ r1 = l2 ++ r2 -> l1 = l2 /\ r1 = r2.
Proof.
  intros H1. revert l2. induction H1 as [|c l1 Hc H1 IH]; intros l2 H2 D1 D2 E.
  - destruct H2 as [|c l2 Hc H2]; [done|]. cbn in E. subst.
    apply number_byte_not_delimiter in Hc. cbn in D1. congruence.
  - destruct H2 as [|c' l2 Hc' H2]; cbn in E.
    + subst. apply number_byte_not_delimiter in Hc. cbn in D2. congruence.
    + injection E as <- E. apply IH in E as [-> ->]; done.
Qed.

(** [p] prints [x] self-delimitingly. *)
Definition prefix_code {X} (p : X -> Result (list byte)) (x : X) : Prop :=
  forall y l1 l2 r1 r2, p x = Ok l1 -> p y = Ok l2 ->
    delimited r1 -> delimited r2 -> l1 ++ r1 = l2 ++ r2 -> x = y /\ r1 = r2.

Lemma write_items_delimited {X} (p : X -> Result (list byte)) xs body close r :
  write_items false (List.map p xs) = Ok body -> delimiter close = true ->
  delimited (body ++ close :: r).
Proof.
  destruct xs as [|x xs]; cbn; intros; ok_inv; subst; done.
Qed.

Lemma write_items_prefix {X} (p : X -> Result (list byte)) close :
  delimiter close = true -> close <> ","%char ->
  (forall x l, p x = Ok l -> exists c l', l = c :: l' /\ delimiter c = false) ->
  forall xs, Forall (prefix_code p) xs ->
  forall first ys b1 b2 r1 r2,
    write_items first (List.map p xs) = Ok b1 ->
    write_items first (List.map p ys) = Ok b2 ->
    b1 ++ close :: r1 = b2 ++ close :: r2 -> xs = ys /\ r1 = r2.
Proof.
  intros Hclose Hcomma Hfirst xs Hxs.
  assert (forall first x xs b r r', write_items first (List.map p (x :: xs)) = Ok b ->
            close :: r = b ++ r' -> False) as Hstart.
  { intros first x xs' b r r' Hw E. cbn in Hw. ok_inv. subst.
    destruct (Hfirst _ _ Hx) as (c & l' & -> & Hc).
    destruct first; cbn in E; injection E as Ec _; congruence. }
  induction Hxs as [|x xs Hx Hxs IH]; intros first ys b1 b2 r1 r2 H1 H2 E.
  - destruct ys as [|y ys]; [cbn in H1, H2; ok_inv; subst; by injection E|].
    cbn in H1. ok_inv. subst. cbn in E. by apply (Hstart _ _ _ _ _ _ H2) in E.
  - destruct ys as [|y ys].
    { cbn in H2. ok_inv. subst. symmetry in E. by apply (Hstart _ _ _ _ _ _ H1) in E. }
    cbn in H1, H2. ok_inv. subst. rewrite <- !app_assoc in E.
    apply app_inv_head in E. rewrite <- ?app_assoc in E.
    eapply Hx in E as [-> E]; [|done..| |].
    + eapply IH in E as [-> ->]; [done|done|done].
    + by eapply write_items_delimited.
    + by eapply write_items_delimited.
Qed.

Lemma write_entry_prefix k v :
  prefix_code print v ->
  prefix_code (fun kv => write_entry (fun r => r) (fst kv) (Some (print (snd kv)))) (k, v).
Proof.
  intros Hv [k' v'] l1 l2 r1 r2 H1 H2 D1 D2 E. unfold write_entry in *. cbn in *.
  ok_inv. simplify_eq. rewrite <- !app_assoc in E.
  eapply write_string_prefix in E as [-> E]; [|done|done].
  cbn in E. injection E as E. eapply Hv in E as [-> ->]; done.
Qed.

Lemma write_entry_first {X} (p : X -> Result (list byte)) k o l :
  write_entry p k o = Ok l -> exists c l', l = c :: l' /\ delimiter c = false.
Proof.
  unfold write_entry. intros Hp. ok_inv. subst.
  apply write_string_quote in Hx as [l' ->]. by do 2 eexists.
Qed.

Lemma print_prefix_code v : prefix_code print v.
Proof.
  induction v as [|b|n|s|items IH|es IH] using Value_nested_ind;
    intros w l1 l2 r1 r2 H1 H2 D1 D2 E;
    destruct (print_first_byte _ _ H1) as (c & l1' & -> & F1);
    destruct (print_first_byte _ _ H2) as (c' & l2' & -> & F2);
    cbn [app] in E; injection E as <- E.
  (* the first byte leaves only the matching constructor *)
  all: destruct w as [|b'|m|s'|items'|es'];
    try (destruct b as [|]); try (destruct b' as [|]); cbn in F1, F2;
    try (by subst).
  all: try (cbn in H1, H2; injection H1 as <-; injection H2 as <-;
            by simplify_list_eq).
  - apply print_number in H1 as [I1 L1], H2 as [I2 L2].
    destruct (number_to_string_bytes n I1) as [_ A1], (number_to_string_bytes m I2) as [_ A2].
    destruct (number_span (c :: l1') (c :: l2') r1 r2) as [El ->];
      [by rewrite L1|by rewrite L2|done|done|by cbn; rewrite E|].
    split; [|done]. f_equal. apply number_to_string_inj; [done|done|congruence].
  - cbn in H1, H2. ok_inv.
    destruct (write_string_prefix _ _ _ _ r1 r2 H1 H2) as [-> ->]; [by cbn; rewrite E|done].
  - cbn in H1, H2. ok_inv. subst. rewrite <- !app_assoc in E. cbn in E.
    eapply (write_items_prefix print "]"%char) in E as [-> ->]; try done.
    intros v l Hp. destruct (print_first_byte _ _ Hp) as (c & l' & -> & Hc).
    eauto using first_byte_not_delimiter.
  - cbn in H1, H2. ok_inv. subst. rewrite <- !app_assoc in E. cbn in E.
    eapply (write_items_prefix
      (fun kv => write_entry (fun r => r) (fst kv) (Some (print (snd kv)))) "}"%char)
      in E as [-> ->]; try done.
    + intros [k v] l Hp. by apply write_entry_first in Hp.
    + eapply Forall_impl; [exact IH|]. intros [k v] Hv. by apply write_entry_prefix.
Qed.

(** Equal canonical bytes come from values equal up to key order. *)
Lemma canonical_json_equiv v w bytes :
  canonical_json v = Ok bytes -> canonical_json w = Ok bytes -> value_equiv v w.
Proof.
  unfold canonical_json. rewrite !write_canonical_print. intros H1 H2.
  by destruct (print_prefix_code _ _ _ _ [] [] H1 H2).
Qed.

(** Canonical text identifies the document: once a value has canonical
    bytes, exactly the values equal to it up to the order of object keys have
    the same bytes. *)
Theorem canonical_json_injective v w bytes :
  canonical_json v = Ok bytes -> (canonical_json w = Ok bytes <-> value_equiv v w).
Proof.
  intros Hv. split; [by eapply canonical_json_equiv|]. by intros <-.
Qed.

(** A printed object ends by itself, whatever follows it. *)
Lemma print_object_prefix es v l1 l2 r1 r2 :
  print (Object es) = Ok l1 -> print v = Ok l2 -> l1 ++ r1 = l2 ++ r2 ->
  Object es = v /\ r1 = r2.
Proof.
  intros H1 H2 E. destruct (print_first_byte _ _ H1) as (c & t1 & -> & F1).
  destruct (print_first_byte _ _ H2) as (c' & t2 & -> & F2).
  cbn in F1. subst c. cbn [app] in E. injection E as <- E.
  destruct v as [|[]|n|s|items|es']; cbn in F2; try done.
  cbn in H1, H2. ok_inv. subst. rewrite <- !app_assoc in E. cbn in E.
  eapply (write_items_prefix
    (fun kv => write_entry (fun r => r) (fst kv) (Some (print (snd kv)))) "}"%char)
    in E as [-> ->]; try done.
  - intros [k v] l Hp. by apply write_entry_first in Hp.
  - apply Forall_forall. intros [k v] _. apply write_entry_prefix, print_prefix_code.
Qed.

(** ** Canonical text is one line *)

Definition printable (b : byte) : Prop := (32 <= N_of_ascii b)%N.

Lemma write_items_printable first items l :
  Forall (fun r => forall b, r = Ok b -> Forall printable b) items ->
  write_items first items = Ok l -> Forall printable l.
Proof.
  intros HF. revert first l. induction HF as [|r items Hr HF IH]; intros first l Hl; cbn in Hl;
    ok_inv; subst; [constructor|].
  apply Forall_app. split; [by destruct first; repeat constructor|].
  apply Forall_app. eauto.
Qed.

Lemma write_canonical_printable v l : print v = Ok l -> Forall printable l.
Proof.
  revert l. induction v as [|b|n|s|items IH|es IH] using Value_nested_ind; intros l Hp.
  - injection Hp as <-. by apply (bool_decide_unpack _).
  - destruct b; injection Hp as <-; by apply (bool_decide_unpack _).
  - apply print_number in Hp as [Hi ->].
    destruct (number_to_string_bytes n Hi) as [_ Hb]. eapply Forall_impl; [exact Hb|].
    intros b. unfold number_byte, is_ascii_digit, in_range, printable.
    rewrite orb_true_iff, bool_decide_eq_true. intros [Hd| ->]; [bool_inv; lia|done].
  - cbn in Hp. ok_inv. apply Forall_forall. intros b. by eapply write_string_printable.
  - cbn in Hp. ok_inv. subst. apply Forall_cons. split; [done|].
    apply Forall_app. split; [|by repeat constructor].
    eapply write_items_printable; [|exact Hx]. apply Forall_fmap.
    eapply Forall_impl; [exact IH|done].
  - cbn in Hp. ok_inv. subst. apply Forall_cons. split; [done|].
    apply Forall_app. split; [|by repeat constructor].
    eapply write_items_printable; [|exact Hx]. apply Forall_fmap.
    eapply Forall_impl; [exact IH|]. intros [k v] Hv b. unfold write_entry. cbn. intros Hw.
    ok_inv. subst. apply Forall_app. split.
    + apply Forall_forall. intros c. by eapply write_string_printable.
    + constructor; [done|by apply Hv].
Qed.

(** No line break occurs in canonical text. *)
Lemma canonical_json_one_line v bytes : canonical_json v = Ok bytes -> byte_of_N 10 ∉ bytes.
Proof.
  unfold canonical_json. rewrite write_canonical_print. intros Hp Hin.
  apply write_canonical_printable in Hp. rewrite Forall_forall in Hp.
  apply Hp in Hin. by unfold printable in Hin.
Qed.
End injectivity.

(** ** Reading equivalent documents field by field *)

Section fields.
Context `{SerdeJson}.

Lemma array_equiv l1 l2 : value_equiv (Array l1) (Array l2) -> Forall2 value_equiv l1 l2.
Proof.
  unfold value_equiv. cbn. intros E. injection E as E.
  revert l2 E. induction l1 as [|v l1 IH]; intros [|w l2]; cbn; intros E; simplify_eq;
    constructor; auto.
Qed.

Lemma omap_pair_eq {X} (g1 g2 : string -> option X) (ks : list string) :
  (forall k, k ∈ ks -> is_Some (g1 k) /\ is_Some (g2 k)) ->
  omap (fun k => (k,.) <$> g1 k) ks = omap (fun k => (k,.) <$> g2 k) ks ->
  forall k, k ∈ ks -> g1 k = g2 k.
Proof.
  induction ks as [|k ks IH]; intros Hs E k' Hk'; [by apply not_elem_of_nil in Hk'|].
  destruct (Hs k) as [[a Ha] [b Hb]]; [by left|]. cbn in E. rewrite Ha, Hb in E.
  injection E as -> E. apply elem_of_cons in Hk' as [->|Hk']; [congruence|].
  apply IH; [|done|done]. intros. apply Hs. by right.
Qed.

(** Equivalent objects with the same keys agree on every field. *)
Lemma object_equiv_get es1 es2 k v1 v2 :
  object_keys es1 = object_keys es2 ->
  value_equiv (Object es1) (Object es2) ->
  get k es1 = Some v1 -> get k es2 = Some v2 -> value_equiv v1 v2.
Proof.
  unfold value_equiv. cbn. intros Ek E H1 H2. injection E as E. rewrite Ek in E.
  assert (k ∈ sort_keys (object_keys es2)) as Hin.
  { unfold sort_keys. rewrite merge_sort_Permutation. clear -H2. revert H2.
    induction es2 as [|[k' w] es2 IH]; cbn; [done|].
    case_decide as Hk; [subst; by left|]. right. by apply IH. }
  eapply (omap_pair_eq _ _ _) in E; [| |exact Hin].
  - rewrite !get_map, H1, H2 in E. cbn in E. by injection E.
  - intros k' Hk'. unfold sort_keys in Hk'. rewrite merge_sort_Permutation in Hk'.
    rewrite !get_map. destruct (get_in k' es2 Hk') as (w2 & -> & _).
    rewrite <- Ek in Hk'. destruct (get_in k' es1 Hk') as (w1 & -> & _).
    split; by eexists.
Qed.

Lemma string_equiv s t : value_equiv (VString s) (VString t) -> s = t.
Proof. by intros [=]. Qed.

Lemma u64_equiv `{!SerdeJsonLaws} n m :
  value_equiv (VNumber (number_of_u64 n)) (VNumber (number_of_u64 m)) -> n = m.
Proof. unfold value_equiv. cbn. intros E. injection E as E. by apply number_of_u64_inj. Qed.

Lemma array_fmap_equiv {X} (f : X -> Value) l1 l2 :
  (forall x y, value_equiv (f x) (f y) -> x = y) ->
  value_equiv (Array (f <$> l1)) (Array (f <$> l2)) -> l1 = l2.
Proof.
  intros Hf E. apply array_equiv in E. revert l2 E.
  induction l1 as [|x l1 IH]; intros [|y l2] E; inversion E; subst; [done|].
  f_equal; auto.
Qed.
End fields.

(** [object_field E k as H]: from the equivalence [E] of two literal objects,
    the equivalence [H] of their fields named [k]. *)
Tactic Notation "object_field" hyp(E) constr(k) "as" ident(H) :=
  let e := fresh in
  pose proof (fun K v1 v2 => object_equiv_get _ _ k v1 v2 K E) as e;
  specialize (e eq_refl _ _ eq_refl eq_refl); rename e into H.

(** The crate reads back what it printed: the round trip of a derived
    [Serialize]/[Deserialize] pair through canonical text. *)
Class ReaderLaws `{SerdeJson} (T : Type) `{!Reader T, !Encoder T} :=
  from_slice_canonical t v bytes :
    to_value t = Some v -> canonical_json v = Ok bytes -> from_slice bytes = Some t.

Lemma parse_canonical_encoded `{SerdeJson} (T : Type) `{!Reader T, !Encoder T}
    `{!ReaderLaws T} t v bytes maximum :
  to_value t = Some v -> canonical_json v = Ok bytes ->
  (N.of_nat (length bytes) <= maximum)%N -> parse_canonical T bytes maximum = Ok t.
Proof.
  intros Hv Hb Hm. unfold parse_canonical. rewrite (proj2 (N.leb_le _ _) Hm). mred.
  rewrite (from_slice_canonical _ _ _ Hv Hb). mred. rewrite Hv. mred. rewrite Hb. mred.
  by rewrite bool_decide_true.
Qed.

(** A cut document is not read as another one. *)
Lemma parse_canonical_prefix `{SerdeJsonLaws} (T : Type) `{!Reader T, !Encoder T}
    es bytes c maximum t :
  canonical_json (Object es) = Ok bytes -> c `prefix_of` bytes ->
  parse_canonical T c maximum = Ok t -> c = bytes.
Proof.
  intros Hb [r Hr] (_ & _ & v & _ & Hc)%parse_canonical_Ok.
  unfold canonical_json in Hb, Hc. rewrite write_canonical_print in Hb, Hc.
  cbn [normalize] in Hb. destruct (print_object_prefix _ _ _ _ [] r Hb Hc) as [_ Er].
  - by rewrite app_nil_r.
  - by rewrite Hr, <- Er, app_nil_r.
Qed.
