(* ===== verification/JsonReader.v ===== *)
(** * A concrete JSON crate

    A printer, and a reader for the canonical text that it writes.  With them the
    laws of [SerdeJson] and [ReaderLaws] are satisfiable, the readers of the
    program's documents are concrete functions, and witnesses compute on bytes. *)

From stdpp Require Import sorting.
From S2P Require Import Prelude Errors Identifiers Json.

(** ** The printer *)

Definition backslash : byte := byte_of_N 92.

(** A control character is written as [u] and four hexadecimal digits. *)
Definition escape_byte (c : byte) : list byte :=
  if decide (c = quote \/ c = backslash) then [backslash; c]
  else if decide (N_of_ascii c < 32)%N then
    [backslash; "u"%char; "0"%char; "0"%char; hex_digit (N_of_ascii c / 16); hex_digit (N_of_ascii c mod 16)]
  else [c].

Definition escape (l : list byte) : list byte := l ≫= escape_byte.

#[export] Instance model_json : SerdeJson := {|
  Number := N;
  as_u64 n := if (n <=? u64_max)%N then Some n else None;
  as_i64 _ := None;
  number_to_string := u64_to_string;
  number_of_u64 n := n;
  write_string s := Some (quote :: escape (as_bytes s) ++ [quote]);
|}.

(** The first escaped byte decides how many bytes belong to it: all of it is
    checked byte by byte. *)
Lemma escape_byte_cases c :
  (c <> quote /\ c <> backslash /\ (32 <= N_of_ascii c)%N /\ escape_byte c = [c])
  \/ exists d, escape_byte c = backslash :: d /\ Forall (fun b => 32 <= N_of_ascii b)%N d.
Proof.
  unfold escape_byte. case_decide as Hq; [right|case_decide as Hc; [right|left]].
  - eexists. split; [done|]. repeat constructor. by destruct Hq as [->| ->].
  - eexists. split; [done|]. repeat constructor; [done|..];
      destruct c as [[] [] [] [] [] [] [] []]; vm_compute in Hc |- *; done.
  - split_and!; [tauto..|lia|done].
Qed.

Lemma escape_byte_prefix c1 c2 r1 r2 :
  escape_byte c1 ++ r1 = escape_byte c2 ++ r2 -> c1 = c2 /\ r1 = r2.
Proof.
  assert (forall c : byte, (c = quote \/ c = backslash) -> c <> "u"%char) as Hu
    by (by intros c [->| ->]).
  unfold escape_byte.
  destruct (decide (c1 = quote \/ c1 = backslash)) as [H1|H1];
    destruct (decide (c2 = quote \/ c2 = backslash)) as [H2|H2].
  - by intros [= -> ->].
  - case_decide; intros [= E1 E2]; [by apply Hu in H1|by destruct H2; right].
  - case_decide; intros [= E1 E2]; [by apply Hu in H2|by destruct H1; right].
  - case_decide as D1; case_decide as D2; intros E; injection E as E1 E2;
      [|by destruct H2; right|by destruct H1; right|done].
    assert (encode_hex [c1] = encode_hex [c2]) as E.
    { unfold encode_hex, encode_hex_bytes. cbn. congruence. }
    apply encode_hex_inj in E. by simplify_eq.
Qed.

Lemma escape_prefix l1 l2 r1 r2 :
  escape l1 ++ quote :: r1 = escape l2 ++ quote :: r2 -> l1 = l2 /\ r1 = r2.
Proof.
  assert (forall c l r, escape_byte c ++ l = quote :: r -> False) as Hq.
  { intros c l r. destruct (escape_byte_cases c) as [(? & ? & _ & ->)|(d & -> & _)];
      cbn; intros; simplify_eq. }
  revert l2. unfold escape. induction l1 as [|c l1 IH]; intros [|c' l2]; cbn.
  - by intros [= ->].
  - rewrite <- app_assoc. intros E. symmetry in E. by apply Hq in E.
  - rewrite <- app_assoc. intros E. by apply Hq in E.
  - rewrite <- !app_assoc. intros [-> E]%escape_byte_prefix. by apply IH in E as [-> ->].
Qed.

Lemma model_integral (n : Number) : integral n -> (n <= u64_max)%N.
Proof.
  intros [[m Hm]|[m Hm]]; cbn in Hm; [|done].
  destruct (N.leb_spec n u64_max); done.
Qed.

Lemma escape_length l : (length (escape l) <= 6 * length l)%nat.
Proof.
  unfold escape. induction l as [|c l IH]; [done|]. rewrite bind_cons, length_app, length_cons.
  assert (length (escape_byte c) <= 6)%nat by (unfold escape_byte; repeat case_decide; cbn; lia).
  lia.
Qed.

#[export] Instance model_json_laws : SerdeJsonLaws.
Proof.
  split.
  - intros n m Hn Hm. apply u64_to_string_inj; by apply model_integral.
  - intros n Hn. apply model_integral in Hn.
    destruct (u64_to_string_digits n Hn) as (Hne & Hall & _). split; [done|].
    eapply Forall_impl; [exact Hall|]. intros b Hb. unfold number_byte. by rewrite Hb.
  - done.
  - intros n Hn. left. cbn. destruct (N.leb_spec n u64_max); [by eexists|lia].
  - intros s l [= <-]. by eexists.
  - intros s1 s2 l1 l2 r1 r2 [= <-] [= <-]. cbn. rewrite <- !app_assoc. intros [= E].
    apply escape_prefix in E as [E ->]. split; [by apply as_bytes_inj|done].
  - intros s Hs%forallb_Forall. cbn. do 3 f_equal. unfold escape.
    induction Hs as [|c l Hc Hl IH]; [done|]. cbn. rewrite IH.
    unfold verbatim_byte, in_range in Hc. bool_inv. unfold escape_byte.
    rewrite !decide_False by (first [lia|by intros [->| ->]]). done.
  - intros s l b [= <-] Hb. rewrite elem_of_cons, elem_of_app, list_elem_of_singleton in Hb.
    destruct Hb as [->|[Hb| ->]]; [done| |done].
    apply list_elem_of_bind in Hb as (c & Hb & _).
    destruct (escape_byte_cases c) as [(_ & _ & Hc & E)|(d & E & Hd)]; rewrite E in Hb.
    + by apply list_elem_of_singleton in Hb as ->.
    + rewrite Forall_forall in Hd. apply elem_of_cons in Hb as [->|Hb]; [done|by apply Hd].
  - intros n Hn. cbn. by rewrite (proj2 (N.leb_le _ _) Hn).
  - intros n Hn%model_integral. by apply u64_to_string_digits.
  - intros s l [= <-]. cbn. rewrite length_app. cbn. pose proof (escape_length (as_bytes s)).
    rewrite length_as_bytes in *. lia.
Qed.

(** Two spellings of one object have the same canonical bytes. *)
Definition sample_object : Value :=
  Object [("b", VNumber (number_of_u64 7)); ("a", Array [VString "x"; Null])].
Definition sample_object_reordered : Value :=
  Object [("a", Array [VString "x"; Null]); ("b", VNumber (number_of_u64 7))].

Lemma canonical_json_key_order_witness :
  NoDup (object_keys [("b", VNumber (number_of_u64 7)); ("a", Array [VString "x"; Null])]) /\
  canonical_json sample_object = canonical_json sample_object_reordered.
Proof.
  split.
  - by apply (bool_decide_unpack _).
  - apply (canonical_json_key_order
      [("b", VNumber (number_of_u64 7)); ("a", Array [VString "x"; Null])]
      [("a", Array [VString "x"; Null]); ("b", VNumber (number_of_u64 7))]).
    + by apply (bool_decide_unpack _).
    + apply Permutation_swap.
Defined.

Lemma canonical_json_injective_witness :
  exists bytes, canonical_json sample_object = Ok bytes /\
    value_equiv sample_object sample_object_reordered.
Proof.
  eexists. split; [reflexivity|].
  apply (canonical_json_injective sample_object sample_object_reordered _ eq_refl).
  reflexivity.
Defined.

(** The body of a string up to its closing quote. *)
Fixpoint unescape (l : list byte) : option (list byte * list byte) :=
  match l with
  | [] => None
  | c :: l' =>
      if decide (c = quote) then Some ([], l')
      else if decide (c = backslash) then
        match l' with
        | d :: l'' =>
            if decide (d = "u"%char) then
              match l'' with
              | _ :: _ :: h :: w :: l3 =>
                  hi ← ok (hex_nibble h JsonInvalid); lo ← ok (hex_nibble w JsonInvalid);
                  '(s, r) ← unescape l3; Some (byte_of_N (hi * 16 + lo) :: s, r)
              | _ => None
              end
            else '(s, r) ← unescape l''; Some (d :: s, r)
        | [] => None
        end
      else '(s, r) ← unescape l'; Some (c :: s, r)
  end.

Fixpoint span_digits (l : list byte) : list byte * list byte :=
  match l with
  | [] => ([], [])
  | c :: l' =>
      if is_ascii_digit c then let '(d, r) := span_digits l' in (c :: d, r) else ([], l)
  end.

(** Two units of fuel per byte are enough ([parse_value_print]). *)
Fixpoint parse_value (fuel : nat) (l : list byte) : option (Value * list byte) :=
  match fuel with
  | O => None
  | S f =>
      match l with
      | [] => None
      | c :: l' =>
          if decide (c = "n"%char) then (Null,.) <$> strip_prefix_bytes (as_bytes "ull") l'
          else if decide (c = "t"%char) then
            (VBool true,.) <$> strip_prefix_bytes (as_bytes "rue") l'
          else if decide (c = "f"%char) then
            (VBool false,.) <$> strip_prefix_bytes (as_bytes "alse") l'
          else if decide (c = quote) then
            '(s, r) ← unescape l'; Some (VString (of_bytes s), r)
          else if decide (c = "["%char) then
            if decide (head l' = Some "]"%char) then Some (Array [], tail l')
            else '(vs, r) ← parse_items f l'; Some (Array vs, r)
          else if decide (c = "{"%char) then
            if decide (head l' = Some "}"%char) then Some (Object [], tail l')
            else '(es, r) ← parse_entries f l'; Some (Object es, r)
          else let '(d, r) := span_digits l in n ← parse_u64 d; Some (VNumber n, r)
      end
  end
with parse_items (fuel : nat) (l : list byte) : option (list Value * list byte) :=
  match fuel with
  | O => None
  | S f =>
      '(v, r) ← parse_value f l;
      match r with
      | c :: r' =>
          if decide (c = ","%char) then '(vs, r'') ← parse_items f r'; Some (v :: vs, r'')
          else if decide (c = "]"%char) then Some ([v], r') else None
      | [] => None
      end
  end
with parse_entries (fuel : nat) (l : list byte)
    : option (list (string * Value) * list byte) :=
  match fuel with
  | O => None
  | S f =>
      match l with
      | q :: l' =>
          if decide (q = quote) then
            '(k, r) ← unescape l';
            if decide (head r = Some ":"%char) then
              '(v, r) ← parse_value f (tail r);
              match r with
              | c :: r' =>
                  if decide (c = ","%char) then
                    '(es, r'') ← parse_entries f r'; Some ((of_bytes k, v) :: es, r'')
                  else if decide (c = "}"%char) then Some ([(of_bytes k, v)], r') else None
              | [] => None
              end
            else None
          else None
      | [] => None
      end
  end.

Definition parse_json (l : list byte) : option Value :=
  match parse_value (2 * length l) l with
  | Some (v, []) => Some v
  | _ => None
  end.

(** ** Reading back what was printed *)

Lemma unescape_quoted c l :
  c <> "u"%char ->
  unescape (backslash :: c :: l) = ('(s, r) ← unescape l; Some (c :: s, r)).
Proof.
  intros Hc. change (unescape (backslash :: c :: l)) with
    (if decide (c = "u"%char) then
       match l with
       | _ :: _ :: h :: w :: l3 =>
           hi ← ok (hex_nibble h JsonInvalid); lo ← ok (hex_nibble w JsonInvalid);
           '(s, r) ← unescape l3; Some (byte_of_N (hi * 16 + lo) :: s, r)
       | _ => None
       end
     else '(s, r) ← unescape l; Some (c :: s, r)).
  by rewrite decide_False.
Qed.

Lemma unescape_control hi lo l :
  (hi < 16)%N -> (lo < 16)%N ->
  unescape (backslash :: "u"%char :: "0"%char :: "0"%char :: hex_digit hi :: hex_digit lo :: l)
  = ('(s, r) ← unescape l; Some (byte_of_N (hi * 16 + lo) :: s, r)).
Proof.
  intros Hh Hl. change (unescape (backslash :: "u"%char :: "0"%char :: "0"%char :: hex_digit hi
      :: hex_digit lo :: l)) with
    (hi ← ok (hex_nibble (hex_digit hi) JsonInvalid); lo ← ok (hex_nibble (hex_digit lo) JsonInvalid);
     '(s, r) ← unescape l; Some (byte_of_N (hi * 16 + lo) :: s, r)).
  by rewrite !hex_nibble_digit by done.
Qed.

Lemma unescape_plain c l :
  c <> quote -> c <> backslash ->
  unescape (c :: l) = ('(s, r) ← unescape l; Some (c :: s, r)).
Proof.
  intros Hq Hb. cbn [unescape]. by rewrite !decide_False.
Qed.

Lemma unescape_escape s r : unescape (escape s ++ quote :: r) = Some (s, r).
Proof.
  induction s as [|c s IH]; [done|].
  change (escape (c :: s)) with (escape_byte c ++ escape s). rewrite <- app_assoc.
  unfold escape_byte. case_decide as Hq; [|case_decide as Hc].
  - cbn [app]. rewrite unescape_quoted by (by destruct Hq as [->| ->]). by rewrite IH.
  - cbn [app]. rewrite unescape_control, IH; cbn.
    + rewrite N.mul_comm, <- N.div_mod by done. unfold byte_of_N. by rewrite ascii_N_embedding.
    + apply N.Div0.div_lt_upper_bound. lia.
    + by apply N.mod_lt.
  - cbn [app]. rewrite unescape_plain by tauto. by rewrite IH.
Qed.

Lemma span_digits_app l r :
  Forall (fun b => is_ascii_digit b = true) l -> delimited r -> span_digits (l ++ r) = (l, r).
Proof.
  intros Hl Hr. induction Hl as [|c l Hc Hl IH]; cbn.
  - destruct r as [|c r]; [done|]. cbn in *. destruct (is_ascii_digit c) eqn:E; [|done].
    exfalso. assert (number_byte c = true) as Hn by (unfold number_byte; by rewrite E).
    apply number_byte_not_delimiter in Hn. congruence.
  - by rewrite Hc, IH.
Qed.

(** A printed value starts with a byte that selects its case. *)
Lemma parse_value_number fuel n r :
  (n <= u64_max)%N -> delimited r ->
  parse_value (S fuel) (u64_to_string n ++ r) = Some (VNumber n, r).
Proof.
  intros Hn Hr. destruct (u64_to_string_digits n Hn) as (Hne & Hd & _).
  pose proof (span_digits_app _ r Hd Hr) as Es.
  pose proof (parse_u64_to_string n Hn) as Ep.
  destruct (u64_to_string n) as [|c l]; [done|]. apply Forall_cons in Hd as [Hc _].
  cbn [app] in *. cbn [parse_value].
  rewrite !decide_False by (intros ->; done). rewrite Es. by rewrite Ep.
Qed.

Definition reads_back (v : Value) : Prop :=
  forall l r fuel, print v = Ok l -> delimited r -> (2 * length l <= fuel)%nat ->
    parse_value fuel (l ++ r) = Some (v, r).

Lemma parse_items_print items : Forall reads_back items -> items <> [] ->
  forall body r fuel, write_items true (List.map print items) = Ok body ->
    (2 * length body + 1 <= fuel)%nat ->
    parse_items fuel (body ++ "]"%char :: r) = Some (items, r).
Proof.
  induction 1 as [|v items Hv Hitems IH]; intros Hne body r fuel Hb Hf; [done|].
  destruct fuel as [|fuel]; [lia|]. cbn in Hb. ok_inv. subst body. cbn [parse_items].
  rewrite length_app in Hf. rewrite <- app_assoc.
  rewrite (Hv x); [|done| |lia].
  - destruct items as [|w items]; cbn in Hx0; ok_inv; subst; [done|]. cbn [mbind option_bind].
    cbn [app]. rewrite decide_True by done.
    rewrite (IH ltac:(done) (x1 ++ x2)); [done| |cbn in Hf; lia].
    cbn. by rewrite Hx1, Hx2.
  - destruct items as [|w items]; cbn in Hx0; ok_inv; by subst.
Qed.

Lemma write_entry_print k v l :
  write_entry (fun r => r) k (Some (print v)) = Ok l ->
  exists lv, print v = Ok lv /\ l = quote :: escape (as_bytes k) ++ quote :: ":"%char :: lv.
Proof.
  unfold write_entry. cbn. intros He. ok_inv. exists x. split; [done|].
  rewrite <- He, <- app_assoc. done.
Qed.

Lemma parse_entries_print es : Forall (fun kv => reads_back kv.2) es -> es <> [] ->
  forall body r fuel,
    write_items true
      (List.map (fun kv => write_entry (fun r => r) (fst kv) (Some (print (snd kv)))) es) = Ok body ->
    (2 * length body + 1 <= fuel)%nat ->
    parse_entries fuel (body ++ "}"%char :: r) = Some (es, r).
Proof.
  induction 1 as [|[k v] es Hv Hes IH]; intros Hne body r fuel Hb Hf; [done|].
  destruct fuel as [|fuel]; [lia|]. cbn [List.map write_items fst snd] in Hb. ok_inv. subst body.
  apply write_entry_print in Hx as (lv & Hlv & ->). cbn [app length] in *.
  rewrite ?length_app in Hf. cbn [length] in Hf. rewrite ?length_app in Hf. cbn [length] in Hf.
  cbn [parse_entries]. rewrite decide_True by done.
  rewrite <- !app_assoc. cbn [app]. rewrite unescape_escape.
  cbn [mbind option_bind head tail]. rewrite decide_True by done.
  rewrite <- ?app_assoc. cbn in Hv.
  rewrite (Hv lv); [|done| |lia].
  - rewrite of_as_bytes.
    destruct es as [|[k' v'] es]; [cbn in Hx0; ok_inv; by subst|].
    cbn [List.map write_items fst snd] in Hx0. ok_inv. subst. cbn [mbind option_bind app].
    rewrite decide_True by done.
    rewrite (IH ltac:(done) (x ++ x1)); [done| |cbn in Hf; lia].
    cbn [List.map write_items fst snd]. rewrite Hx, Hx1. done.
  - destruct es as [|[k' v'] es]; [cbn in Hx0; ok_inv; by subst|].
    cbn [List.map write_items fst snd] in Hx0. ok_inv. by subst.
Qed.

Lemma first_not_close v l l' c :
  print v = Ok l -> delimiter c = true -> head (l ++ l') <> Some c.
Proof.
  intros Hp Hc. destruct (print_first_byte _ _ Hp) as (d & t & -> & Hd). cbn. intros [= ->].
  apply first_byte_not_delimiter in Hd. congruence.
Qed.

Lemma parse_value_print v : reads_back v.
Proof.
  induction v as [|b|n|s|items IH|es IH] using Value_nested_ind;
    intros l r fuel Hp Hr Hf;
    (destruct fuel as [|fuel]; [destruct (print_first_byte _ _ Hp) as (?&?&->&?); cbn in Hf; lia|]).
  - injection Hp as <-. done.
  - by destruct b; cbn in Hp; injection Hp as <-.
  - apply print_number in Hp as [Hn%model_integral ->]. by apply parse_value_number.
  - cbn in Hp. ok_inv. subst l. cbn [app parse_value].
    rewrite !decide_False by done. rewrite decide_True by done.
    rewrite <- app_assoc. cbn [app]. rewrite unescape_escape. cbn. by rewrite of_as_bytes.
  - cbn in Hp. ok_inv. subst l. cbn [app parse_value]. cbn [length] in Hf.
    rewrite length_app in Hf. cbn [length] in Hf.
    do 4 rewrite decide_False by done. rewrite decide_True by done. rewrite <- app_assoc.
    destruct items as [|v items].
    + cbn in Hx. ok_inv. by subst.
    + rewrite decide_False.
      * cbn [app]. rewrite (parse_items_print (v :: items)); [done|done|done|done|lia].
      * cbn in Hx. ok_inv. subst x. cbn [app]. rewrite <- app_assoc. by eapply first_not_close.
  - cbn [print] in Hp. ok_inv. subst l. cbn [app parse_value]. cbn [length] in Hf.
    rewrite length_app in Hf. cbn [length] in Hf.
    do 5 rewrite decide_False by done. rewrite decide_True by done. rewrite <- app_assoc.
    destruct es as [|[k v] es].
    + cbn in Hx. ok_inv. by subst.
    + rewrite decide_False.
      * cbn [app]. rewrite (parse_entries_print ((k, v) :: es)); [done|done|done|done|lia].
      * cbn [List.map write_items fst snd] in Hx. ok_inv. subst x.
        apply write_entry_print in Hx0 as (lv & _ & ->). done.
Qed.

Lemma parse_json_canonical v bytes :
  canonical_json v = Ok bytes -> parse_json bytes = Some (normalize v).
Proof.
  unfold canonical_json. rewrite write_canonical_print. intros Hp. unfold parse_json.
  pose proof (parse_value_print (normalize v) bytes [] (2 * length bytes) Hp I ltac:(lia)) as Hr.
  rewrite app_nil_r in Hr. by rewrite Hr.
Qed.

(** ** Decoding the fields of a document *)

Definition as_object (v : Value) : option (list (string * Value)) :=
  match v with Object es => Some es | _ => None end.
Definition as_array (v : Value) : option (list Value) :=
  match v with Array items => Some items | _ => None end.
Definition as_string (v : Value) : option string :=
  match v with VString s => Some s | _ => None end.
Definition as_number (v : Value) : option N :=
  match v with VNumber n => Some n | _ => None end.

Definition field {X} (read : Value -> option X) (key : string) (v : Value) : option X :=
  es ← as_object v; x ← get key es; read x.

(** [deny_unknown_fields] is not needed for the round trip and not modelled here. *)
Definition reader_of {T} (decode : Value -> option T) : Reader T := fun bytes =>
  v ← parse_json bytes; decode v.

(** Normalization keeps the fields of an object with distinct keys. *)
Lemma get_normalize {X} (es : list (string * X)) key :
  get key (omap (fun k => (k,.) <$> get k es) (sort_keys (object_keys es))) = get (X := X) key es.
Proof.
  assert (forall ks, (key ∈ ks \/ get key es = None) ->
            get key (omap (fun k => (k,.) <$> get k es) ks) = get key es) as Hks.
  { induction ks as [|k ks IH]; intros Hin; cbn.
    - destruct Hin as [Hin|Hin]; [by apply not_elem_of_nil in Hin|done].
    - destruct (get k es) as [v|] eqn:E; cbn.
      + case_decide as Hk; [by subst|]. apply IH. destruct Hin as [Hin|]; [left|by right].
        by apply elem_of_cons in Hin as [->|].
      + apply IH. destruct Hin as [Hin|]; [|by right].
        apply elem_of_cons in Hin as [->|]; [by right|by left]. }
  apply Hks. unfold sort_keys. rewrite merge_sort_Permutation.
  clear Hks. induction es as [|[k v] es IH]; cbn; [by right|].
  rewrite elem_of_cons. case_decide; [by left; left|]. destruct IH as [IH|IH]; [left|right]; auto.
Qed.

Lemma field_normalize {X} (read : Value -> option X) key es v :
  get key es = Some v -> field read key (normalize (Object es)) = read (normalize v).
Proof.
  intros Hg. unfold field. cbn [normalize as_object mbind option_bind].
  rewrite <- (object_keys_map normalize es).
  rewrite get_normalize, get_map, Hg. done.
Qed.

Lemma reader_of_laws {T} (decode : Value -> option T) (E : Encoder T) :
  (forall t v bytes, to_value t = Some v -> canonical_json v = Ok bytes -> decode (normalize v) = Some t) ->
  @ReaderLaws _ T (reader_of decode) E.
Proof.
  intros Hd t v bytes Hv Hb. unfold from_slice, reader_of.
  rewrite (parse_json_canonical v bytes Hb). cbn. by eapply Hd.
Qed.

(** A list of documents read element by element. *)
Lemma mapM_normalize {X} (encode : X -> Value) (decode : Value -> option X) l :
  Forall (fun x => decode (normalize (encode x)) = Some x) l ->
  mapM decode (List.map normalize (encode <$> l)) = Some l.
Proof.
  induction 1 as [|x l Hx Hl IH]; [done|]. cbn in *. rewrite Hx. cbn. by rewrite IH.
Qed.
