(* ===== verification/KeyedMap.v ===== *)
(** * Maps keyed by a field of their values

    The root registry and the registry-scope registry are [BTreeMap]s from an
    identifier to a record that holds the same identifier; both are stored as
    the list of their values in key order and rebuilt by registering every
    element of the list.  The shared lemmas are here. *)

From stdpp Require Import sorting.
From S2P Require Import Prelude Errors Json.

(** [BTreeMap::values]: the values in key order. *)
Definition map_values {A} (m : gmap string A) : list A :=
  omap (fun k => m !! k) (sort_keys (map_to_list m).*1).

Lemma omap_map_to_list {A} (m : gmap string A) :
  omap (fun k => m !! k) (map_to_list m).*1 = (map_to_list m).*2.
Proof.
  assert (forall l, (forall kv, kv ∈ l -> m !! kv.1 = Some kv.2) ->
            omap (fun k => m !! k) l.*1 = l.*2) as Hl.
  { induction l as [|[k a] l IH]; intros Hm; [done|]. cbn.
    pose proof (Hm (k, a) ltac:(left)) as E. cbn in E. rewrite E. f_equal. apply IH.
    intros. apply Hm. by right. }
  apply Hl. intros [k a] Hka. by apply elem_of_map_to_list.
Qed.

Lemma map_values_Permutation {A} (m : gmap string A) :
  map_values m ≡ₚ (map_to_list m).*2.
Proof.
  unfold map_values, sort_keys. rewrite merge_sort_Permutation.
  by rewrite omap_map_to_list.
Qed.

Lemma length_map_values {A} (m : gmap string A) : length (map_values m) = size m.
Proof.
  rewrite map_values_Permutation, length_fmap. apply length_map_to_list.
Qed.

Lemma elem_of_map_values {A} (m : gmap string A) a :
  a ∈ map_values m <-> exists k, m !! k = Some a.
Proof.
  rewrite map_values_Permutation, list_elem_of_fmap. split.
  - intros ([k b] & -> & Hb%elem_of_map_to_list). by exists k.
  - intros [k Hk]. exists (k, a). by rewrite elem_of_map_to_list.
Qed.

Section keyed.
Context {A : Type} (key : A -> string).

(** Every value is stored under its own key. *)
Definition keyed (m : gmap string A) : Prop :=
  map_Forall (fun k a => key a = k) m.

Lemma keyed_pairs m :
  keyed m -> (fun a => (key a, a)) <$> (map_to_list m).*2 = map_to_list m.
Proof.
  intros Hm. rewrite <- list_fmap_compose. rewrite <- (list_fmap_id (map_to_list m)) at 2.
  apply list_fmap_ext. intros i [k a] Hi%list_elem_of_lookup_2%elem_of_map_to_list.
  cbn. by rewrite (Hm _ _ Hi).
Qed.

Lemma keyed_values_NoDup m : keyed m -> NoDup (key <$> map_values m).
Proof.
  intros Hm. rewrite map_values_Permutation.
  replace (key <$> (map_to_list m).*2) with ((map_to_list m).*1).
  - apply NoDup_fst_map_to_list.
  - rewrite <- (keyed_pairs m Hm) at 1. by rewrite <- list_fmap_compose.
Qed.

Lemma list_to_map_values m :
  keyed m -> list_to_map ((fun a => (key a, a)) <$> map_values m) = m.
Proof.
  intros Hm. rewrite <- (list_to_map_to_list m) at 2.
  apply list_to_map_proper.
  - rewrite <- list_fmap_compose. by apply keyed_values_NoDup.
  - rewrite map_values_Permutation. by rewrite keyed_pairs.
Qed.

(** Registering a list of distinct valid values builds their map. *)
Lemma try_for_insert (P : A -> Prop) (max : nat)
    (f : gmap string A -> A -> Result (gmap string A)) :
  (forall m a, P a -> m !! key a = None -> (size m < max)%nat ->
     f m a = Ok (<[key a := a]> m)) ->
  forall l m, Forall P l -> NoDup (key <$> l) ->
    (forall a, a ∈ l -> m !! key a = None) -> (size m + length l <= max)%nat ->
    try_for f m l = Ok (list_to_map ((fun a => (key a, a)) <$> l) ∪ m).
Proof.
  intros Hf. induction l as [|a l IH]; intros m HP Hnd Hm Hs; cbn [try_for].
  - change (list_to_map (M := gmap string A) ((fun a => (key a, a)) <$> [])) with (∅ : gmap string A).
    by rewrite (left_id_L ∅ (∪)).
  - apply Forall_cons in HP as [Ha HP]. apply NoDup_cons in Hnd as [Hna Hnd]. cbn in Hs.
    rewrite Hf; [|done|apply Hm; by left|lia]. mred.
    rewrite IH; [|done|done| |].
    + cbn. by rewrite <- insert_union_l, <- insert_union_r
        by (apply not_elem_of_list_to_map_1; by rewrite <- list_fmap_compose).
    + intros b Hb. rewrite lookup_insert_ne; [apply Hm; by right|].
      intros E. apply Hna. rewrite E. by apply list_elem_of_fmap_2.
    + rewrite map_size_insert_None; [lia|]. apply Hm. by left.
Qed.

Lemma try_for_map_values (P : A -> Prop) (max : nat)
    (f : gmap string A -> A -> Result (gmap string A)) m :
  (forall m a, P a -> m !! key a = None -> (size m < max)%nat ->
     f m a = Ok (<[key a := a]> m)) ->
  keyed m -> map_Forall (fun _ a => P a) m -> (size m <= max)%nat ->
  try_for f ∅ (map_values m) = Ok m.
Proof.
  intros Hf Hm HP Hs. rewrite (try_for_insert P max f Hf).
  - by rewrite list_to_map_values, (right_id_L ∅ (∪)).
  - rewrite Forall_forall. intros a [k Hk]%elem_of_map_values. exact (HP _ _ Hk).
  - by apply keyed_values_NoDup.
  - done.
  - rewrite map_size_empty, length_map_values. lia.
Qed.

(** Counting the selected values. *)
Lemma length_filter_values (p : A -> bool) m :
  length (List.filter p (map_values m)) =
  size (filter (fun kv : string * A => p kv.2 = true) m).
Proof.
  assert (forall l : list (string * A), length (List.filter p l.*2)
            = length (filter (fun kv : string * A => p kv.2 = true) l)) as Hl.
  { induction l as [|[k a] l IH]; [done|].
    rewrite filter_cons, fmap_cons. cbn [List.filter snd].
    destruct (p a); [rewrite decide_True by done|rewrite decide_False by done];
      cbn [length]; congruence. }
  transitivity (length (List.filter p (map_to_list m).*2)).
  - assert (forall l1 l2, l1 ≡ₚ l2 -> length (List.filter p l1) = length (List.filter p l2)) as HP.
    { induction 1; cbn; repeat case_match; cbn; congruence. }
    apply HP, map_values_Permutation.
  - rewrite Hl, <- length_map_to_list, map_filter_alt.
    rewrite map_to_list_to_map; [done|].
    apply NoDup_fmap_fst; [|apply NoDup_filter, NoDup_map_to_list].
    intros k a1 a2 [_ H1]%list_elem_of_filter [_ H2]%list_elem_of_filter.
    apply elem_of_map_to_list in H1, H2. congruence.
Qed.
End keyed.
