(* ===== verification/Trust.v ===== *)
(** * Trust: signed keyrings

    src/src/trust.rs: [verify_keyring_with_root], [validate_keyring_shape] and
    [VerifiedKeyring::release_verifying_key], with the hash and signature
    primitives of the crates sha2 and ed25519-dalek as the class [Crypto]. *)

From S2P Require Import Prelude Errors Identifiers Json.

(** ** What the cryptographic crates provide *)

Class Crypto := {
  VerifyingKey : Type;
  (** [Sha256::digest], 32 bytes. *)
  sha256 : list byte -> list byte;
  (** [VerifyingKey::from_bytes] on 32 bytes. *)
  verifying_key_from_bytes : list byte -> option VerifyingKey;
  (** [VerifyingKey::verify_strict] on a message and a 64-byte signature. *)
  verify_strict : VerifyingKey -> list byte -> list byte -> bool;
}.

Definition KEYRING_SIGNING_DOMAIN : list byte := as_bytes "7launcher-maintenance-keyring-v1".
Definition FILE_SET_SIGNING_DOMAIN : list byte := as_bytes "7launcher-file-set-v1".
Definition REGISTRY_SET_SIGNING_DOMAIN : list byte := as_bytes "7launcher-registry-set-v1".

Definition MAX_MANIFEST_BYTES : N := 32 * 1024 * 1024.

Definition OFFLINE_ROOT_PUBLIC_KEY : list byte := byte_of_N <$>
  [0x07; 0x63; 0xa6; 0xdd; 0x11; 0x62; 0x94; 0x8b; 0xbf; 0xb9; 0x9b; 0x0b; 0x7b; 0x0f; 0xfd; 0x98;
   0xfe; 0xf3; 0x74; 0x0a; 0x75; 0xb5; 0x50; 0x00; 0xf1; 0x04; 0xbd; 0xf7; 0x1a; 0xde; 0xc8; 0xd6]%N.

Definition KEYRING_KIND : string := "7launcher-maintenance-keyring-v1".
Definition KEYRING_SCHEMA : N := 1.
Definition MAX_RELEASE_KEYS : nat := 64.
Definition MAX_SIGNER_THUMBPRINTS : nat := 64.

(** ** Data *)

Record ReleaseKey := {
  rk_key_id : string;
  rk_public_key : string;
}.

Record Keyring := {
  authenticode_signer_thumbprints : list string;
  kr_kind : string;
  release_keys : list ReleaseKey;
  kr_schema : N;
  kr_signature : string;
  kr_version : N;
}.

Record KeyringAcceptance := {
  minimum_version : N;
  current_digest : option (list byte);
}.

Definition KeyringAcceptance_default : KeyringAcceptance :=
  {| minimum_version := 0; current_digest := None |}.

Record VerifiedKeyring := {
  keyring : Keyring;
  vk_digest : list byte;
}.

(** ** Encoding: field names follow [rename_all = "camelCase"] *)

Section encoding.
Context `{SerdeJson}.

Definition strings_value (l : list string) : Value := Array (VString <$> l).

Definition ReleaseKey_value (k : ReleaseKey) : Value :=
  Object [("keyId", VString (rk_key_id k)); ("publicKey", VString (rk_public_key k))].

#[export] Instance Keyring_encoder : Encoder Keyring := fun k =>
  Some (Object [
    ("authenticodeSignerThumbprints", strings_value (authenticode_signer_thumbprints k));
    ("kind", VString (kr_kind k));
    ("releaseKeys", Array (ReleaseKey_value <$> release_keys k));
    ("schema", VNumber (number_of_u64 (kr_schema k)));
    ("signature", VString (kr_signature k));
    ("version", VNumber (number_of_u64 (kr_version k)))]).

(** The [json!] payload of [verify_keyring_with_root]: every field but the signature. *)
Definition keyring_payload (k : Keyring) : Value :=
  Object [
    ("authenticodeSignerThumbprints", strings_value (authenticode_signer_thumbprints k));
    ("kind", VString (kr_kind k));
    ("releaseKeys", Array (ReleaseKey_value <$> release_keys k));
    ("schema", VNumber (number_of_u64 (kr_schema k)));
    ("version", VNumber (number_of_u64 (kr_version k)))].
End encoding.

(** ** Shape *)

Section verification.
Context `{Crypto}.

(** [VerifyingKey::from_bytes (decode_lower_hex::<32> (public_key))]. *)
Definition decode_release_key (k : ReleaseKey) : Result VerifyingKey :=
  bytes ← decode_lower_hex 32 (rk_public_key k) TrustUnknownKey;
  ok_or (verifying_key_from_bytes bytes) TrustUnknownKey "release public key is invalid".

Definition check_release_key (key_ids : gset string) (k : ReleaseKey) : Result (gset string) :=
  _ ← ensure (valid_identifier (rk_key_id k) && bool_decide (rk_key_id k ∉ key_ids))
        JsonInvalid "release key IDs must be valid and unique";
  _ ← decode_release_key k;
  Ok ({[ rk_key_id k ]} ∪ key_ids).

Definition check_thumbprint (seen : gset string) (t : string) : Result (gset string) :=
  _ ← ensure
        (((str_len t =? 40)%nat || (str_len t =? 64)%nat)
         && forallb lower_hex_byte (as_bytes t) && bool_decide (t ∉ seen))
        JsonInvalid "signer thumbprints must be unique lowercase SHA-1 or SHA-256 hex";
  Ok ({[ t ]} ∪ seen).

Definition validate_keyring_shape (k : Keyring) : Result () :=
  _ ← ensure (bool_decide (kr_kind k = KEYRING_KIND) && (kr_schema k =? KEYRING_SCHEMA)%N
              && negb (kr_version k =? 0)%N)
        JsonInvalid "keyring kind, schema, or version is unsupported";
  _ ← ensure (negb (length (release_keys k) =? 0)%nat
              && (length (release_keys k) <=? MAX_RELEASE_KEYS)%nat)
        FileSetLimit "keyring release-key count is outside the allowed range";
  _ ← ensure (length (authenticode_signer_thumbprints k) <=? MAX_SIGNER_THUMBPRINTS)%nat
        FileSetLimit "keyring signer-thumbprint count exceeds the bound";
  _ ← try_for check_release_key ∅ (release_keys k);
  _ ← try_for check_thumbprint ∅ (authenticode_signer_thumbprints k);
  Ok tt.

Definition release_verifying_key (v : VerifiedKeyring) (key_id : string) : Result VerifyingKey :=
  k ← ok_or (List.find (fun k => bool_decide (rk_key_id k = key_id)) (release_keys (keyring v)))
        TrustUnknownKey "file set references an unknown release key";
  decode_release_key k.

(** ** Verification *)

Context `{SerdeJson} `{!Reader Keyring}.

Definition verify_keyring_with_root (bytes : list byte) (acceptance : KeyringAcceptance)
    (root_public_key : list byte) : Result VerifiedKeyring :=
  k ← parse_canonical Keyring bytes MAX_MANIFEST_BYTES;
  _ ← validate_keyring_shape k;
  payload_bytes ← canonical_json (keyring_payload k);
  signature_bytes ← decode_lower_hex 64 (kr_signature k) TrustSignature;
  root_key ← ok_or (verifying_key_from_bytes root_public_key)
               TrustSignature "root public key is invalid";
  _ ← ensure (verify_strict root_key
                (signing_message KEYRING_SIGNING_DOMAIN payload_bytes) signature_bytes)
        TrustSignature "keyring signature is invalid";
  let d := sha256 bytes in
  _ ← ensure (minimum_version acceptance <=? kr_version k)%N
        KeyringRollback "keyring version is older than the accepted version";
  _ ← ensure (negb ((kr_version k =? minimum_version acceptance)%N
                    && negb (minimum_version acceptance =? 0)%N
                    && match current_digest acceptance with
                       | Some current => bool_decide (current <> d)
                       | None => false
                       end))
        KeyringConflict "accepted keyring version has a different digest";
  Ok {| keyring := k; vk_digest := d |}.

Definition verify_keyring (bytes : list byte) (acceptance : KeyringAcceptance)
    : Result VerifiedKeyring :=
  verify_keyring_with_root bytes acceptance OFFLINE_ROOT_PUBLIC_KEY.

(** ** Replacing the installed keyring, src/src/windows.rs *)

Definition map_error {A} (f : MaintenanceError -> MaintenanceError) (r : Result A) : Result A :=
  match r with Ok a => Ok a | Err e => Err (f e) end.

Definition installed_keyring_acceptance (bytes : list byte) : Result KeyringAcceptance :=
  current ← map_error
    (fun error => new_error (code error)
       "installed keyring is invalid; repair or uninstall the service before retrying")
    (verify_keyring bytes KeyringAcceptance_default);
  Ok {| minimum_version := kr_version (keyring current);
        current_digest := Some (vk_digest current) |}.

(** [verify_candidate_keyring_bytes], given the bytes of the protected
    keyring file when it exists. *)
Definition verify_candidate_keyring_bytes (installed : option (list byte))
    (source_bytes : list byte) : Result VerifiedKeyring :=
  acceptance ← match installed with
               | Some current_bytes => installed_keyring_acceptance current_bytes
               | None => Ok KeyringAcceptance_default
               end;
  verify_keyring source_bytes acceptance.

(** The protected keyring file is replaced only by bytes that verify against
    the current one ([install_verified_keyring_bytes]). *)
Inductive keyring_install : option (list byte) -> option (list byte) -> Prop :=
  | Keyring_installed installed source v :
      verify_candidate_keyring_bytes installed source = Ok v ->
      keyring_install installed (Some source).
End verification.

(** ** Signing domains *)

Lemma signing_message_inj d1 d2 p1 p2 :
  zero ∉ d1 -> zero ∉ d2 ->
  signing_message d1 p1 = signing_message d2 p2 -> d1 = d2 /\ p1 = p2.
Proof.
  unfold signing_message. revert d2.
  induction d1 as [|c d1 IH]; intros [|c' d2] H1 H2 E; cbn in E; injection E as E.
  - by subst.
  - subst. destruct H2. by left.
  - subst. destruct H1. by left.
  - apply not_elem_of_cons in H1 as [_ H1], H2 as [_ H2].
    destruct (IH _ H1 H2 H) as [-> ->]. by subst.
Qed.

Definition signing_domains : list (list byte) :=
  [KEYRING_SIGNING_DOMAIN; FILE_SET_SIGNING_DOMAIN; REGISTRY_SET_SIGNING_DOMAIN].

(** Signatures cannot be moved between document kinds: for the program's
    three signing domains a signed message determines both the domain and the
    canonical payload. *)
Theorem signing_domains_separated d1 d2 p1 p2 :
  d1 ∈ signing_domains -> d2 ∈ signing_domains ->
  signing_message d1 p1 = signing_message d2 p2 -> d1 = d2 /\ p1 = p2.
Proof.
  assert (Forall (fun d => zero ∉ d) signing_domains) as Hz
    by (by apply (bool_decide_unpack _)).
  rewrite Forall_forall in Hz. intros H1 H2. apply signing_message_inj; by apply Hz.
Qed.

Lemma signing_domains_separated_witness :
  KEYRING_SIGNING_DOMAIN ∈ signing_domains /\
  (signing_message KEYRING_SIGNING_DOMAIN [] = signing_message KEYRING_SIGNING_DOMAIN [] ->
   KEYRING_SIGNING_DOMAIN = KEYRING_SIGNING_DOMAIN /\ @nil byte = []).
Proof.
  assert (KEYRING_SIGNING_DOMAIN ∈ signing_domains) as Hin by (by left).
  split; [exact Hin|]. intros E.
  apply (signing_domains_separated _ _ _ _ Hin Hin E).
Defined.

(** ** Shape invariants *)

Section shape.
Context `{Crypto}.

(** What a validated keyring guarantees to its clients. *)
Record keyring_wf (k : Keyring) : Prop := {
  wf_kind : kr_kind k = KEYRING_KIND;
  wf_schema : kr_schema k = KEYRING_SCHEMA;
  wf_version : (0 < kr_version k)%N;
  wf_key_count : (0 < length (release_keys k) <= MAX_RELEASE_KEYS)%nat;
  wf_key_ids : NoDup (rk_key_id <$> release_keys k);
  wf_keys : Forall (fun r => valid_identifier (rk_key_id r) = true /\
                     exists key, decode_release_key r = Ok key) (release_keys k);
  wf_thumbprint_count :
    (length (authenticode_signer_thumbprints k) <= MAX_SIGNER_THUMBPRINTS)%nat;
  wf_thumbprints_unique : NoDup (authenticode_signer_thumbprints k);
  wf_thumbprints : Forall (fun t => (str_len t = 40%nat \/ str_len t = 64%nat) /\
                     Forall (fun b => lower_hex_byte b = true) (as_bytes t))
                   (authenticode_signer_thumbprints k);
}.

Definition key_ok (r : ReleaseKey) : Prop :=
  valid_identifier (rk_key_id r) = true /\ exists key, decode_release_key r = Ok key.

Definition thumbprint_ok (t : string) : Prop :=
  (str_len t = 40%nat \/ str_len t = 64%nat) /\
  Forall (fun b => lower_hex_byte b = true) (as_bytes t).

Lemma check_release_key_Ok s r s' :
  check_release_key s r = Ok s' <->
  (rk_key_id r ∉ s) /\ s' = {[ rk_key_id r ]} ∪ s /\ key_ok r.
Proof.
  unfold check_release_key, key_ok. split.
  - intros Hc. ok_inv. bool_inv. subst. split_and!; eauto.
  - intros (Hn & -> & Hv & key & Hk). rewrite Hv, bool_decide_true by done.
    cbn. by rewrite Hk.
Qed.

Lemma check_thumbprint_Ok s t s' :
  check_thumbprint s t = Ok s' <-> (t ∉ s) /\ s' = {[ t ]} ∪ s /\ thumbprint_ok t.
Proof.
  unfold check_thumbprint, thumbprint_ok. split.
  - intros Hc. ok_inv. bool_inv. subst.
    apply orb_true_iff in H0 as [H0|H0]; apply Nat.eqb_eq in H0; split_and!; auto.
  - intros (Hn & -> & Hlen & Hall). rewrite (proj2 (forallb_Forall _ _) Hall).
    rewrite bool_decide_true by done. by destruct Hlen as [-> | ->].
Qed.

(** [validate_keyring_shape] accepts exactly the well-formed keyrings:
    supported kind and schema, positive version, 1 to 64 uniquely named
    decodable keys, at most 64 unique lowercase thumbprints. *)
Lemma validate_keyring_shape_iff k :
  validate_keyring_shape k = Ok tt <-> keyring_wf k.
Proof.
  unfold validate_keyring_shape. split.
  - intros Hv. ok_inv. bool_inv.
    apply (try_for_unique rk_key_id key_ok) in Hx2 as (N1 & F1 & _ & _);
      [|intros; by apply check_release_key_Ok].
    apply (try_for_unique (fun t => t) thumbprint_ok) in Hx3 as (N2 & F2 & _ & _);
      [|intros; by apply check_thumbprint_Ok].
    rewrite list_fmap_id in N2. split; try done; lia.
  - intros []. rewrite bool_decide_true by done.
    rewrite (proj2 (N.eqb_eq _ _) wf_schema0), (proj2 (N.eqb_neq (kr_version k) 0)) by lia.
    rewrite (proj2 (Nat.eqb_neq (length (release_keys k)) 0)) by lia.
    rewrite (proj2 (Nat.leb_le (length (release_keys k)) _)) by lia.
    rewrite (proj2 (Nat.leb_le _ _) wf_thumbprint_count0). cbn.
    destruct (try_for_unique_ok rk_key_id key_ok check_release_key ∅ (release_keys k))
      as [s1 ->]; [intros; by apply check_release_key_Ok|done|done|set_solver|].
    destruct (try_for_unique_ok (fun t => t) thumbprint_ok check_thumbprint ∅
                (authenticode_signer_thumbprints k))
      as [s2 ->]; [intros; by apply check_thumbprint_Ok|by rewrite list_fmap_id
                  |done|set_solver|done].
Qed.

Lemma find_key_id id ks :
  match List.find (fun k => bool_decide (rk_key_id k = id)) ks with
  | Some k => k ∈ ks /\ rk_key_id k = id
  | None => id ∉ rk_key_id <$> ks
  end.
Proof.
  induction ks as [|k ks IH]; cbn; [apply not_elem_of_nil|].
  case_bool_decide; [split; [by left|done]|].
  destruct (List.find _ ks) as [k'|].
  - destruct IH. split; [by right|done].
  - by apply not_elem_of_cons.
Qed.

(** In a well-formed keyring a release key resolves exactly for the listed key
    identifiers, to the key listed under that identifier. *)
Lemma release_verifying_key_listed v id key :
  keyring_wf (keyring v) ->
  release_verifying_key v id = Ok key <->
  exists r, r ∈ release_keys (keyring v) /\ rk_key_id r = id /\ decode_release_key r = Ok key.
Proof.
  intros Hwf. unfold release_verifying_key.
  pose proof (find_key_id id (release_keys (keyring v))) as Hf.
  destruct (List.find _ _) as [r|]; cbn.
  - destruct Hf as [Hin Hid]. split; [by eauto|]. intros (r' & Hin' & Hid' & Hk).
    assert (r = r') as ->; [|done].
    apply list_elem_of_lookup in Hin as [i Hi], Hin' as [j Hj].
    assert (i = j) as ->; [|congruence].
    eapply (NoDup_lookup (rk_key_id <$> release_keys (keyring v))).
    + by destruct Hwf.
    + rewrite list_lookup_fmap, Hi. by cbn.
    + rewrite list_lookup_fmap, Hj. cbn. congruence.
  - split; [done|]. intros (r & Hin & <- & _). destruct Hf. by apply list_elem_of_fmap_2.
Qed.
End shape.

(** ** What a verified keyring means *)

Section keyring_theorems.
Context `{Crypto} `{SerdeJsonLaws} `{!Reader Keyring}.

Lemma ReleaseKey_value_inj r1 r2 :
  value_equiv (ReleaseKey_value r1) (ReleaseKey_value r2) -> r1 = r2.
Proof.
  unfold ReleaseKey_value. intros E.
  object_field E "keyId" as E1. object_field E "publicKey" as E2.
  apply string_equiv in E1, E2. destruct r1, r2; cbn in *; congruence.
Qed.

(** Two keyrings agree on every signed field. *)
Definition keyring_signed_eq (k1 k2 : Keyring) : Prop :=
  authenticode_signer_thumbprints k1 = authenticode_signer_thumbprints k2 /\
  kr_kind k1 = kr_kind k2 /\ release_keys k1 = release_keys k2 /\
  kr_schema k1 = kr_schema k2 /\ kr_version k1 = kr_version k2.

(** A keyring signature binds the whole keyring: two keyrings with the
    same signed bytes agree on thumbprints, kind, keys, schema and version. *)
Theorem keyring_payload_binds k1 k2 bytes :
  canonical_json (keyring_payload k1) = Ok bytes ->
  canonical_json (keyring_payload k2) = Ok bytes ->
  keyring_signed_eq k1 k2.
Proof.
  intros B1 B2. pose proof (canonical_json_equiv _ _ _ B1 B2) as E.
  unfold keyring_payload in E.
  object_field E "authenticodeSignerThumbprints" as E1. object_field E "kind" as E2.
  object_field E "releaseKeys" as E3. object_field E "schema" as E4.
  object_field E "version" as E5.
  apply (array_fmap_equiv VString) in E1; [|apply string_equiv].
  apply (array_fmap_equiv ReleaseKey_value) in E3; [|apply ReleaseKey_value_inj].
  apply string_equiv in E2. apply u64_equiv in E4, E5. done.
Qed.

Lemma verify_keyring_Ok bytes acceptance root v :
  verify_keyring_with_root bytes acceptance root = Ok v ->
  vk_digest v = sha256 bytes /\
  keyring_wf (keyring v) /\
  parse_canonical Keyring bytes MAX_MANIFEST_BYTES = Ok (keyring v) /\
  (exists payload signature key,
     canonical_json (keyring_payload (keyring v)) = Ok payload /\
     decode_lower_hex 64 (kr_signature (keyring v)) TrustSignature = Ok signature /\
     verifying_key_from_bytes root = Some key /\
     verify_strict key (signing_message KEYRING_SIGNING_DOMAIN payload) signature = true) /\
  (minimum_version acceptance <= kr_version (keyring v))%N /\
  (kr_version (keyring v) = minimum_version acceptance -> minimum_version acceptance <> 0%N ->
   forall d, current_digest acceptance = Some d -> d = sha256 bytes).
Proof.
  unfold verify_keyring_with_root. intros Hv. ok_inv. subst. cbn.
  apply validate_keyring_shape_iff in Hx0.
  split_and!; [done|done|done|by do 3 eexists|by bool_inv|].
  intros E Hmin d Hd. rewrite (proj2 (N.eqb_eq _ _) E), (proj2 (N.eqb_neq _ _) Hmin), Hd in Hx6.
  cbn in Hx6. bool_inv. by apply dec_stable.
Qed.

(** The trust anchor [root] signed the keyring. *)
Definition keyring_signed (k : Keyring) (root : list byte) : Prop :=
  exists payload signature key,
    canonical_json (keyring_payload k) = Ok payload /\
    length signature = 64%nat /\ kr_signature k = encode_hex signature /\
    verifying_key_from_bytes root = Some key /\
    verify_strict key (signing_message KEYRING_SIGNING_DOMAIN payload) signature = true.

(** The document may follow the accepted one: newer, or the same version of the
    same bytes; version 0 stands for none. *)
Definition keyring_follows (acceptance : KeyringAcceptance) (version : N) (d : list byte) : Prop :=
  (minimum_version acceptance <= version)%N /\
  (version = minimum_version acceptance -> minimum_version acceptance <> 0%N ->
   forall current, current_digest acceptance = Some current -> current = d).

(** C15: a keyring is accepted exactly when its bytes are the canonical text of
    a well-formed keyring within the size bound, the trust anchor verifies the
    signature over its canonical payload, and its version and digest respect
    the anti-rollback floor; the digest handed on is that of the bytes. *)
Theorem verify_keyring_iff bytes acceptance root v :
  verify_keyring_with_root bytes acceptance root = Ok v <->
  parse_canonical Keyring bytes MAX_MANIFEST_BYTES = Ok (keyring v) /\
  vk_digest v = sha256 bytes /\ keyring_wf (keyring v) /\ keyring_signed (keyring v) root /\
  keyring_follows acceptance (kr_version (keyring v)) (vk_digest v).
Proof.
  split.
  - intros Hv. apply verify_keyring_Ok in Hv as (Hd & Hwf & Hparse & Hsig & Hmin & Hc).
    destruct Hsig as (payload & sig & key & Hp & Hs & Hk & Hver).
    apply decode_lower_hex_iff in Hs as [Hlen Hs].
    split_and!; [done|done|done|by exists payload, sig, key|split; [done|by rewrite Hd]].
  - intros (Hparse & Hd & Hwf & (payload & sig & key & Hp & Hlen & Hs & Hk & Hver) & Hmin & Hc).
    unfold verify_keyring_with_root. rewrite Hparse. mred.
    rewrite (proj2 (validate_keyring_shape_iff _) Hwf). mred. rewrite Hp. mred.
    rewrite (proj2 (decode_lower_hex_iff _ _ _ _) (conj Hlen Hs)). mred. rewrite Hk. mred.
    rewrite Hver. mred. rewrite (proj2 (N.leb_le _ _) Hmin). mred.
    assert (((kr_version (keyring v) =? minimum_version acceptance)%N
             && negb (minimum_version acceptance =? 0)%N
             && match current_digest acceptance with
                | Some current => bool_decide (current <> sha256 bytes)
                | None => false
                end) = false) as ->.
    { destruct (N.eqb_spec (kr_version (keyring v)) (minimum_version acceptance)) as [E|_]; [|done].
      destruct (N.eqb_spec (minimum_version acceptance) 0) as [_|Hnz]; [done|].
      destruct (current_digest acceptance) as [c|]; [|done].
      apply bool_decide_eq_false. rewrite <- Hd. intros Hne. by apply Hne, (Hc E Hnz). }
    mred. rewrite <- Hd. by destruct v.
Qed.

(** A stricter acceptance never changes which document is accepted. *)
Lemma verify_keyring_weaken bytes acceptance root v :
  verify_keyring_with_root bytes acceptance root = Ok v ->
  verify_keyring_with_root bytes KeyringAcceptance_default root = Ok v.
Proof.
  unfold verify_keyring_with_root. intros Hv. ok_inv. subst.
  rewrite Hx. mred. rewrite Hx0. mred.
  rewrite Hx1. mred. rewrite Hx2. mred.
  rewrite Hx3. mred. rewrite Hx4. cbn. rewrite andb_false_r.
  by destruct (kr_version x).
Qed.

Lemma keyring_install_step b0 installed v0 :
  keyring_install (Some b0) installed ->
  verify_keyring b0 KeyringAcceptance_default = Ok v0 ->
  exists b1 v1, installed = Some b1 /\
    verify_keyring b1 KeyringAcceptance_default = Ok v1 /\
    (kr_version (keyring v0) <= kr_version (keyring v1))%N /\
    (kr_version (keyring v1) = kr_version (keyring v0) -> vk_digest v0 = vk_digest v1).
Proof.
  intros Hstep H0'. inversion Hstep as [i source v Hver]; subst.
  unfold verify_candidate_keyring_bytes, installed_keyring_acceptance in Hver.
  rewrite H0' in Hver. cbn in Hver.
  exists source, v. split; [done|]. split; [by eapply verify_keyring_weaken|].
  apply verify_keyring_Ok in Hver as (Hd & Hwf & _ & _ & Hmin & Hc).
  cbn in Hmin, Hc. split; [done|]. intros E. rewrite Hd. apply Hc; [done| |done].
  apply verify_keyring_Ok in H0' as (_ & [] & _). lia.
Qed.

(** C24: anti-rollback of the trust state: whatever sequence of keyrings is
    installed, the installed version never decreases, and while the version
    stays the same the installed bytes keep the same digest. *)
Theorem keyring_install_monotone b0 v0 installed :
  rtc keyring_install (Some b0) installed ->
  verify_keyring b0 KeyringAcceptance_default = Ok v0 ->
  exists b1 v1, installed = Some b1 /\
    verify_keyring b1 KeyringAcceptance_default = Ok v1 /\
    (kr_version (keyring v0) <= kr_version (keyring v1))%N /\
    (kr_version (keyring v1) = kr_version (keyring v0) -> vk_digest v0 = vk_digest v1).
Proof.
  intros Hsteps. remember (Some b0) as start eqn:Hs. revert b0 v0 Hs.
  induction Hsteps as [i|i j k Hij _ IH]; intros b0 v0 -> H0'.
  - exists b0, v0. split_and!; auto; lia.
  - destruct (keyring_install_step _ _ _ Hij H0') as (b1 & v1 & -> & H1' & Hle & Heq).
    destruct (IH b1 v1 eq_refl H1') as (b2 & v2 & -> & H2' & Hle' & Heq').
    exists b2, v2. split_and!; [done|done|lia|]. intros E.
    rewrite Heq, Heq'; [done|lia|lia].
Qed.
End keyring_theorems.
