(* ===== verification/FileSet.v ===== *)
(** * File sets: signed manifests of files to install and remove

    src/src/file_set.rs: relative path validation, [validate_file_set] and
    [verify_file_set]. *)

From S2P Require Import Prelude Errors Identifiers Json Trust.

Definition FILE_SET_KIND : string := "7launcher-file-set-v1".
Definition FILE_SET_SCHEMA : N := 1.
Definition MAX_PATH_BYTES : nat := 1024.
Definition MAX_FILE_ENTRIES : N := 100000.
Definition MAX_DECLARED_PAYLOAD_BYTES : N := 2 * 1024 * 1024 * 1024 * 1024.

(** ** Data *)

Record FileEntry := {
  fe_path : string;
  fe_sha256 : string;
  fe_size : N;
}.

Record FileSet := {
  fs_files : list FileEntry;
  fs_generation : N;
  fs_key_id : string;
  fs_kind : string;
  fs_product_id : string;
  fs_remove_files : list string;
  fs_schema : N;
  fs_signature : string;
}.

Record FileSetAcceptance := {
  fsa_expected_product_id : string;
  fsa_previous : option GenerationRecord;
}.

Record VerifiedFileSet := {
  file_set : FileSet;
  vfs_digest : list byte;
}.

Section encoding.
Context `{SerdeJson}.

Definition FileEntry_value (e : FileEntry) : Value :=
  Object [("path", VString (fe_path e)); ("sha256", VString (fe_sha256 e));
          ("size", VNumber (number_of_u64 (fe_size e)))].

#[export] Instance FileSet_encoder : Encoder FileSet := fun f =>
  Some (Object [
    ("files", Array (FileEntry_value <$> fs_files f));
    ("generation", VNumber (number_of_u64 (fs_generation f)));
    ("keyId", VString (fs_key_id f));
    ("kind", VString (fs_kind f));
    ("productId", VString (fs_product_id f));
    ("removeFiles", strings_value (fs_remove_files f));
    ("schema", VNumber (number_of_u64 (fs_schema f)));
    ("signature", VString (fs_signature f))]).

(** The [json!] payload of [verify_file_set]. *)
Definition file_set_payload (f : FileSet) : Value :=
  Object [
    ("files", Array (FileEntry_value <$> fs_files f));
    ("generation", VNumber (number_of_u64 (fs_generation f)));
    ("keyId", VString (fs_key_id f));
    ("kind", VString (fs_kind f));
    ("productId", VString (fs_product_id f));
    ("removeFiles", strings_value (fs_remove_files f));
    ("schema", VNumber (number_of_u64 (fs_schema f)))].
End encoding.

(** ** Relative paths *)

Definition device_digits : list string := ["1"; "2"; "3"; "4"; "5"; "6"; "7"; "8"; "9"].

Definition is_reserved_windows_name (component : string) : bool :=
  let stem := to_ascii_uppercase
    (match before_first "." (as_bytes component) with
     | Some candidate => of_bytes candidate
     | None => component
     end) in
  bool_decide (stem ∈ ["CON"; "PRN"; "AUX"; "NUL"])
  || match strip_prefix "COM" stem with
     | Some suffix => bool_decide (suffix ∈ device_digits)
     | None => false
     end
  || match strip_prefix "LPT" stem with
     | Some suffix => bool_decide (suffix ∈ device_digits)
     | None => false
     end.

Definition forbidden_path_bytes : list byte := as_bytes "<>:|?*" ++ [quote].

(** The checks on the whole path. *)
Definition bounded_path (path : string) : bool :=
  negb (str_len path =? 0)%nat && (str_len path <=? MAX_PATH_BYTES)%nat
  && negb (bool_decide (first_byte_of path = Some "/"%char))
  && negb (bool_decide (last_byte path = Some "/"%char))
  && negb (bool_decide ("\"%char ∈ as_bytes path))
  && forallb (fun b => negb (in_range 0 31 b) && bool_decide (b ∉ forbidden_path_bytes))
       (as_bytes path).

(** The checks on the [index]-th component. *)
Definition forbidden_component (index : nat) (component : string) : bool :=
  (str_len component =? 0)%nat
  || bool_decide (component ∈ ["."; ".."])
  || bool_decide (last_byte component ∈ [Some " "%char; Some "."%char])
  || is_reserved_windows_name component
  || ((index =? 0)%nat && eq_ignore_ascii_case component ".7launcher-maintenance").

Fixpoint check_components (index : nat) (components : list string) : Result () :=
  match components with
  | [] => Ok tt
  | c :: cs =>
      _ ← ensure (negb (forbidden_component index c)) FileSetPath
            "file-set path contains a forbidden component";
      check_components (S index) cs
  end.

Definition path_components (path : string) : list string := str_split "/" path.

Definition validate_relative_path (path : string) : Result () :=
  _ ← ensure (bounded_path path) FileSetPath
        "file-set path is not a bounded canonical relative path";
  check_components 0 (path_components path).

(** ** Contents *)

Section validation.
Context `{UnicodeCase}.

(** The loop over [files]: seen paths and the declared size so far. *)
Definition check_file (state : gset string * N) (file : FileEntry)
    : Result (gset string * N) :=
  let '(paths, declared_size) := state in
  _ ← validate_relative_path (fe_path file);
  let normalized := to_lowercase (fe_path file) in
  _ ← ensure (bool_decide (normalized ∉ paths)) FileSetPath "file-set paths must be unique";
  _ ← decode_lower_hex 32 (fe_sha256 file) FileSetHash;
  size ← ok_or (checked_add u64_max declared_size (fe_size file)) FileSetLimit
           "declared payload size overflowed";
  _ ← ensure (size <=? MAX_DECLARED_PAYLOAD_BYTES)%N FileSetLimit
        "declared payload exceeds the configured bound";
  Ok ({[ normalized ]} ∪ paths, size).

(** The loop over [remove_files]. *)
Definition check_removal (paths : gset string) (path : string) : Result (gset string) :=
  _ ← validate_relative_path path;
  _ ← ensure (bool_decide (to_lowercase path ∉ paths)) FileSetPath
        "create/replace and remove paths must not overlap";
  Ok ({[ to_lowercase path ]} ∪ paths).

Definition validate_file_set (f : FileSet) (expected_product_id : string) : Result () :=
  _ ← ensure (negb (fs_generation f =? 0)%N && valid_identifier (fs_product_id f))
        JsonInvalid "file-set generation or product ID is invalid";
  _ ← ensure (bool_decide (fs_product_id f = expected_product_id))
        ProductMismatch "file set does not belong to the registered product";
  entry_count ← ok_or
    (checked_add usize_max (N.of_nat (length (fs_files f))) (N.of_nat (length (fs_remove_files f))))
    FileSetLimit "file-set entry count overflowed";
  _ ← ensure (negb (entry_count =? 0)%N && (entry_count <=? MAX_FILE_ENTRIES)%N)
        FileSetLimit "file-set entry count is outside the allowed range";
  state ← try_for check_file (∅, 0%N) (fs_files f);
  _ ← try_for check_removal (fst state) (fs_remove_files f);
  Ok tt.

Context `{Crypto} `{SerdeJson} `{!Reader FileSet}.

(** Rejects an older generation, or the same generation with other bytes. *)
Definition check_generation (rollback : ErrorCode) (rollback_detail conflict_detail : string)
    (generation_number : N) (d : list byte) (previous : option GenerationRecord) : Result () :=
  match previous with
  | Some p =>
      _ ← ensure (negb (generation_number <? generation p)%N) rollback rollback_detail;
      ensure (negb ((generation_number =? generation p)%N && bool_decide (d <> digest p)))
        GenerationConflict conflict_detail
  | None => Ok tt
  end.

Definition verify_file_set (bytes : list byte) (kr : VerifiedKeyring)
    (acceptance : FileSetAcceptance) : Result VerifiedFileSet :=
  f ← parse_canonical FileSet bytes MAX_MANIFEST_BYTES;
  _ ← ensure (bool_decide (fs_kind f = FILE_SET_KIND) && (fs_schema f =? FILE_SET_SCHEMA)%N)
        JsonInvalid "file-set kind or schema is unsupported";
  _ ← ensure (valid_identifier (fs_key_id f)) JsonInvalid "file-set key ID is invalid";
  payload_bytes ← canonical_json (file_set_payload f);
  signature_bytes ← decode_lower_hex 64 (fs_signature f) TrustSignature;
  key ← release_verifying_key kr (fs_key_id f);
  _ ← ensure (verify_strict key (signing_message FILE_SET_SIGNING_DOMAIN payload_bytes)
                signature_bytes)
        TrustSignature "file-set signature is invalid";
  _ ← validate_file_set f (fsa_expected_product_id acceptance);
  let d := sha256 bytes in
  _ ← check_generation FileSetRollback
        "file-set generation is older than the accepted generation"
        "file-set generation was reused with another digest"
        (fs_generation f) d (fsa_previous acceptance);
  Ok {| file_set := f; vfs_digest := d |}.
End validation.

(** ** Accepted paths stay below the root *)

(** What an accepted component is. *)
Record safe_component (c : string) : Prop := {
  sc_not_empty : c <> "";
  sc_not_dot : c <> ".";
  sc_not_dotdot : c <> "..";
  sc_no_trailing : last_byte c <> Some " "%char /\ last_byte c <> Some "."%char;
  sc_not_device : is_reserved_windows_name c = false;
  sc_bytes : Forall (fun b => b <> "/"%char /\ b <> "\"%char /\ b <> ":"%char /\ b <> zero)
               (as_bytes c);
}.

(** The lexical walk of a file system: [""] and ["."] stay, [".."] goes up. *)
Fixpoint walk (position components : list string) : list string :=
  match components with
  | [] => position
  | c :: cs =>
      if decide (c = "" \/ c = ".") then walk position cs
      else if decide (c = "..") then walk (removelast position) cs
      else walk (position ++ [c]) cs
  end.

Lemma check_components_Ok index cs :
  check_components index cs = Ok tt <->
  forall i c, cs !! i = Some c -> forbidden_component (index + i) c = false.
Proof.
  revert index. induction cs as [|c cs IH]; intros index; cbn [check_components].
  - split; [intros _ i c Hi; done|done].
  - split.
    + intros Hc. ok_inv. bool_inv. intros [|i] c' Hi; cbn in Hi.
      * rewrite Nat.add_0_r. congruence.
      * rewrite Nat.add_succ_r. by apply (IH (S index)).
    + intros Hall. rewrite (proj2 (IH (S index))).
      * pose proof (Hall 0%nat c eq_refl) as H0. rewrite Nat.add_0_r in H0. by rewrite H0.
      * intros i c' Hi. pose proof (Hall (S i) c' Hi) as Hs. by rewrite Nat.add_succ_r in Hs.
Qed.

Lemma forbidden_component_false i c :
  forbidden_component i c = false ->
  c <> "" /\ c <> "." /\ c <> ".." /\ last_byte c <> Some " "%char /\
  last_byte c <> Some "."%char /\ is_reserved_windows_name c = false /\
  (i = 0%nat -> eq_ignore_ascii_case c ".7launcher-maintenance" = false).
Proof.
  unfold forbidden_component. rewrite !orb_false_iff, !bool_decide_eq_false.
  rewrite !not_elem_of_cons. intros ([[[Hempty Hdots] Htrail] Hdev] & Hres).
  split_and!; try tauto.
  - by intros ->.
  - intros ->. by apply andb_false_iff in Hres as [Hres|Hres].
Qed.

Lemma split_bytes_sub sep l p b :
  p ∈ split_on sep l -> b ∈ p -> b ∈ l /\ b <> sep.
Proof.
  revert p. induction l as [|c l IH]; intros p; cbn.
  - intros ->%list_elem_of_singleton Hb. by apply not_elem_of_nil in Hb.
  - case_decide as Hc.
    + intros [->|Hp]%elem_of_cons Hb; [by apply not_elem_of_nil in Hb|].
      destruct (IH p Hp Hb). split; [by right|done].
    + destruct (split_on sep l) as [|h t].
      * intros ->%list_elem_of_singleton ->%list_elem_of_singleton. split; [by left|done].
      * intros [->|Hp]%elem_of_cons Hb.
        -- apply elem_of_cons in Hb as [->|Hb]; [split; [by left|done]|].
           destruct (IH h (list_elem_of_here _ _) Hb). split; [by right|done].
        -- destruct (IH p (list_elem_of_further _ _ _ Hp) Hb). split; [by right|done].
Qed.

Lemma path_components_bytes path c b :
  c ∈ path_components path -> b ∈ as_bytes c -> b ∈ as_bytes path /\ b <> "/"%char.
Proof.
  unfold path_components, str_split. intros (p & -> & Hp)%list_elem_of_fmap.
  rewrite as_of_bytes. by apply split_bytes_sub.
Qed.

Lemma validate_relative_path_Ok path :
  validate_relative_path path = Ok tt <->
  bounded_path path = true /\ check_components 0 (path_components path) = Ok tt.
Proof.
  unfold validate_relative_path. destruct (bounded_path path); cbn; naive_solver.
Qed.

Lemma validated_components path :
  validate_relative_path path = Ok tt ->
  Forall safe_component (path_components path) /\ (str_len path <= MAX_PATH_BYTES)%nat.
Proof.
  intros [Hb Hc]%validate_relative_path_Ok. unfold bounded_path in Hb.
  rewrite !andb_true_iff, forallb_Forall, Nat.leb_le, !negb_true_iff in Hb.
  rewrite !bool_decide_eq_false in Hb.
  destruct Hb as (((((_ & Hlen) & _) & _) & Hback) & Hbytes).
  split; [|done]. apply Forall_forall. intros c Hin.
  apply list_elem_of_lookup in Hin as Hlk. destruct Hlk as [i Hi].
  apply (proj1 (check_components_Ok _ _) Hc) in Hi.
  apply forbidden_component_false in Hi as (? & ? & ? & ? & ? & ? & _).
  split; try done. apply Forall_forall. intros b Hbc.
  destruct (path_components_bytes _ _ _ Hin Hbc) as [Hbp Hslash].
  rewrite Forall_forall in Hbytes. specialize (Hbytes b Hbp).
  apply andb_true_iff in Hbytes as [Hctl Hforb%bool_decide_eq_true].
  split_and!; [done| | |]; intros ->; try done.
  apply Hforb. by apply (bool_decide_unpack _).
Qed.

Lemma walk_safe position cs :
  Forall safe_component cs -> walk position cs = position ++ cs.
Proof.
  intros Hs. revert position. induction Hs as [|c cs [] _ IH]; intros position; cbn.
  - by rewrite app_nil_r.
  - rewrite decide_False by naive_solver. rewrite decide_False by done.
    rewrite IH. by rewrite <- app_assoc.
Qed.

(** C22: path confinement.  A validated relative path has only ordinary
    components: none is empty, a dot or dot-dot component, a Windows device
    name or ends in a space or dot, and none contains a slash, a backslash,
    a colon or NUL; so walking it from any directory ends exactly that
    many levels below the directory, never above it, and the first component
    is never the service's own reserved directory. *)
Theorem validate_relative_path_confined path :
  validate_relative_path path = Ok tt ->
  Forall safe_component (path_components path) /\
  (forall root, walk root (path_components path) = root ++ path_components path) /\
  join_with "/" (as_bytes <$> path_components path) = as_bytes path /\
  (forall c, head (path_components path) = Some c ->
     eq_ignore_ascii_case c ".7launcher-maintenance" = false).
Proof.
  intros Hv. destruct (validated_components path Hv) as [Hs _].
  split_and!; [done|intros root; by apply walk_safe| |].
  - unfold path_components, str_split. rewrite <- list_fmap_compose.
    rewrite (list_fmap_ext _ (fun x => x)) by (intros; apply as_of_bytes).
    rewrite list_fmap_id. apply join_split.
  - intros c Hc. apply validate_relative_path_Ok in Hv as [_ Hv].
    destruct (path_components path) as [|c' cs]; [done|]. injection Hc as ->.
    pose proof (proj1 (check_components_Ok _ _) Hv 0%nat c eq_refl) as Hf.
    by apply forbidden_component_false in Hf as (_ & _ & _ & _ & _ & _ & Hf); apply Hf.
Qed.

Lemma validate_relative_path_confined_witness :
  validate_relative_path "bin/app.exe" = Ok tt /\
  walk ["root"] (path_components "bin/app.exe") = ["root"; "bin"; "app.exe"].
Proof.
  split; [by vm_compute|].
  apply (validate_relative_path_confined "bin/app.exe"). by vm_compute.
Defined.

(** ** Accepted contents *)

Definition total_size (files : list FileEntry) : N :=
  foldr (fun e total => fe_size e + total)%N 0%N files.

Section contents.
Context `{UnicodeCase}.

Definition folded_paths (f : FileSet) : list string :=
  to_lowercase <$> ((fe_path <$> fs_files f) ++ fs_remove_files f).

(** A file entry whose own fields are valid. *)
Definition file_ok (e : FileEntry) : Prop :=
  validate_relative_path (fe_path e) = Ok tt /\
  exists d, decode_lower_hex 32 (fe_sha256 e) FileSetHash = Ok d.

Record file_set_wf (f : FileSet) (product : string) : Prop := {
  fw_generation : (0 < fs_generation f)%N;
  fw_product_valid : valid_identifier (fs_product_id f) = true;
  fw_product : fs_product_id f = product;
  fw_count : (0 < N.of_nat (length (fs_files f) + length (fs_remove_files f))
                <= MAX_FILE_ENTRIES)%N;
  fw_files : Forall file_ok (fs_files f);
  fw_removals : Forall (fun p => validate_relative_path p = Ok tt) (fs_remove_files f);
  fw_unique : NoDup (folded_paths f);
  fw_size : (total_size (fs_files f) <= MAX_DECLARED_PAYLOAD_BYTES)%N;
}.

Let fold_path (e : FileEntry) : string := to_lowercase (fe_path e).

Lemma check_file_Ok paths size e st :
  check_file (paths, size) e = Ok st <->
  file_ok e /\ (fold_path e ∉ paths) /\
  (size + fe_size e <= MAX_DECLARED_PAYLOAD_BYTES)%N /\
  st = ({[ fold_path e ]} ∪ paths, (size + fe_size e)%N).
Proof.
  unfold check_file, file_ok, fold_path. split.
  - intros Hc. ok_inv. add_inv. bool_inv. subst. split_and!; eauto.
  - intros ([Hv [d Hd]] & Hn & Hle & ->). rewrite Hv. mred.
    rewrite bool_decide_true by done. mred.
    rewrite Hd. mred.
    assert (size + fe_size e <= u64_max)%N.
    { etransitivity; [exact Hle|]. by vm_compute. }
    rewrite checked_add_ok by done. mred.
    by rewrite (proj2 (N.leb_le _ _) Hle).
Qed.

Lemma check_files_Ok paths size files st :
  (size <= MAX_DECLARED_PAYLOAD_BYTES)%N ->
  try_for check_file (paths, size) files = Ok st <->
  Forall file_ok files /\ NoDup (fold_path <$> files) /\
  (forall e, e ∈ files -> fold_path e ∉ paths) /\
  (size + total_size files <= MAX_DECLARED_PAYLOAD_BYTES)%N /\
  st = (list_to_set (fold_path <$> files) ∪ paths, (size + total_size files)%N).
Proof.
  revert paths size st. induction files as [|e files IH]; intros paths size st Hsize.
  - cbn. rewrite N.add_0_r, union_empty_l_L. split.
    + intros [= <-]. split_and!; [constructor|constructor| |done|done].
      intros e He. by apply not_elem_of_nil in He.
    + by intros (_ & _ & _ & _ & ->).
  - change (total_size (e :: files)) with (fe_size e + total_size files)%N.
    cbn [try_for fmap list_fmap]. rewrite list_to_set_cons, bind_Ok, Forall_cons, NoDup_cons.
    split.
    + intros (st' & Hc & Hl). apply check_file_Ok in Hc as (Ho & Hn & Hle & ->).
      apply IH in Hl as (HF & Hnd & Hout & Hle' & ->); [|done].
      split_and!; [done|done| |done| |lia|].
      * intros (e' & E & He')%list_elem_of_fmap. apply Hout in He'. set_solver.
      * intros e' [->|He']%elem_of_cons; [done|]. apply Hout in He'. set_solver.
      * f_equal; [set_solver|lia].
    + intros ((Ho & HF) & (Hn & Hnd) & Hout & Hle & ->).
      exists ({[ fold_path e ]} ∪ paths, (size + fe_size e)%N). split.
      * apply check_file_Ok. split_and!; [done|apply Hout; by left|lia|done].
      * apply IH; [lia|]. split_and!; [done|done| |lia|f_equal; [set_solver|lia]].
        intros e' He' [E%elem_of_singleton|Hin]%elem_of_union.
        -- apply Hn. rewrite <- E. by apply list_elem_of_fmap_2.
        -- apply (Hout e'); [by right|done].
Qed.

Lemma check_removal_Ok paths p s' :
  check_removal paths p = Ok s' <->
  (to_lowercase p ∉ paths) /\ s' = {[ to_lowercase p ]} ∪ paths /\
  validate_relative_path p = Ok tt.
Proof.
  unfold check_removal. split.
  - intros Hc. ok_inv. bool_inv. by subst.
  - intros (Hn & -> & Hv). rewrite Hv. cbn. by rewrite bool_decide_true.
Qed.

Lemma folded_paths_app f :
  folded_paths f = (fold_path <$> fs_files f) ++ (to_lowercase <$> fs_remove_files f).
Proof. unfold folded_paths. by rewrite fmap_app, <- list_fmap_compose. Qed.

(** [validate_file_set] accepts exactly the well-formed file sets of the
    expected product: 1 to 100000 entries, every path confined, no two
    entries on the same path up to letter case, decodable digests, and a
    total declared size within the bound, summed without overflow. *)
Lemma validate_file_set_iff f product :
  validate_file_set f product = Ok tt <-> file_set_wf f product.
Proof.
  unfold validate_file_set. split.
  - intros Hv. ok_inv. add_inv. bool_inv.
    match goal with Hf : try_for check_file _ _ = _ |- _ =>
      apply check_files_Ok in Hf as (HF & Hnd & _ & Hsz & ->); [|by vm_compute] end.
    match goal with Hr : try_for check_removal _ _ = _ |- _ =>
      apply (try_for_unique to_lowercase (fun p => validate_relative_path p = Ok tt))
        in Hr as (Hnd' & HF' & _ & Hout); [|intros; by apply check_removal_Ok] end.
    split; [lia|done|done|rewrite Nat2N.inj_add; lia|done|done| |done].
    rewrite folded_paths_app. apply NoDup_app. split_and!; [done| |done].
    intros k Hk (p & -> & Hp)%list_elem_of_fmap. apply Hout in Hp. cbn in Hp. set_solver.
  - intros []. rewrite Nat2N.inj_add in fw_count0.
    rewrite (proj2 (N.eqb_neq (fs_generation f) 0)) by lia.
    rewrite fw_product_valid0, bool_decide_true by done. mred.
    rewrite checked_add_ok by (unfold usize_max, u32_max, MAX_FILE_ENTRIES in *; lia).
    mred.
    rewrite (proj2 (N.eqb_neq _ 0)) by lia.
    rewrite (proj2 (N.leb_le _ MAX_FILE_ENTRIES)) by lia. mred.
    rewrite folded_paths_app in fw_unique0.
    apply NoDup_app in fw_unique0 as (Hnd1 & Hdis & Hnd2).
    assert (try_for check_file (∅, 0%N) (fs_files f) =
            Ok (list_to_set (fold_path <$> fs_files f) ∪ ∅, (0 + total_size (fs_files f))%N)) as ->.
    { apply check_files_Ok; [by vm_compute|]. split_and!; [done|done|set_solver|done|done]. }
    mred.
    edestruct (try_for_unique_ok to_lowercase (fun p => validate_relative_path p = Ok tt)
                check_removal) as [s ->]; [|done|done| |done].
    + intros s p Hn Hp. by apply check_removal_Ok.
    + intros p Hp Hin. apply (Hdis (to_lowercase p)); [set_solver|].
      by apply list_elem_of_fmap_2.
Qed.
End contents.

(** ** What a verified file set means *)

(** A generation may follow [previous] when it is newer, or the same one with
    the same digest. *)
Definition generation_follows (previous : option GenerationRecord) (next : GenerationRecord)
    : Prop :=
  forall p, previous = Some p ->
    (generation p <= generation next)%N /\
    (generation next = generation p -> digest next = digest p).

Lemma check_generation_Ok rollback d1 d2 g d previous :
  check_generation rollback d1 d2 g d previous = Ok tt <->
  generation_follows previous {| generation := g; digest := d |}.
Proof.
  unfold check_generation, generation_follows. destruct previous as [p|]; cbn; [|done].
  split.
  - intros Hc. ok_inv. bool_inv. intros p' [= <-]. split; [done|]. intros ->.
    rewrite N.eqb_refl in Hc. cbn in Hc. bool_inv. by apply dec_stable.
  - intros Hp. destruct (Hp p eq_refl) as [Hle Heq].
    rewrite (proj2 (N.ltb_ge _ _) Hle). cbn.
    destruct (N.eqb_spec g (generation p)) as [E|_]; [|done].
    by rewrite bool_decide_false by (rewrite (Heq E); tauto).
Qed.

Section file_set_theorems.
Context `{UnicodeCase} `{Crypto} `{SerdeJsonLaws} `{!Reader FileSet}.

Lemma FileEntry_value_inj e1 e2 :
  value_equiv (FileEntry_value e1) (FileEntry_value e2) -> e1 = e2.
Proof.
  unfold FileEntry_value. intros E. object_field E "path" as E1.
  object_field E "sha256" as E2. object_field E "size" as E3.
  apply string_equiv in E1, E2. apply u64_equiv in E3.
  destruct e1, e2; cbn in *; congruence.
Qed.

Definition file_set_signed_eq (f1 f2 : FileSet) : Prop :=
  fs_files f1 = fs_files f2 /\ fs_generation f1 = fs_generation f2 /\
  fs_key_id f1 = fs_key_id f2 /\ fs_kind f1 = fs_kind f2 /\
  fs_product_id f1 = fs_product_id f2 /\ fs_remove_files f1 = fs_remove_files f2 /\
  fs_schema f1 = fs_schema f2.

(** A file-set signature binds the whole manifest: two manifests with
    the same signed bytes list the same files, digests, sizes and removals
    for the same product, generation and key. *)
Theorem file_set_payload_binds f1 f2 bytes :
  canonical_json (file_set_payload f1) = Ok bytes ->
  canonical_json (file_set_payload f2) = Ok bytes ->
  file_set_signed_eq f1 f2.
Proof.
  intros B1 B2. pose proof (canonical_json_equiv _ _ _ B1 B2) as E.
  unfold file_set_payload in E.
  object_field E "files" as E1. object_field E "generation" as E2.
  object_field E "keyId" as E3. object_field E "kind" as E4.
  object_field E "productId" as E5. object_field E "removeFiles" as E6.
  object_field E "schema" as E7.
  apply (array_fmap_equiv FileEntry_value) in E1; [|apply FileEntry_value_inj].
  apply (array_fmap_equiv VString) in E6; [|apply string_equiv].
  apply u64_equiv in E2, E7. apply string_equiv in E3, E4, E5. done.
Qed.

(** A release key that the keyring lists under the identifier named in the file
    set verifies the signature over its canonical payload. *)
Definition file_set_signed (f : FileSet) (k : Keyring) : Prop :=
  exists payload signature r key,
    canonical_json (file_set_payload f) = Ok payload /\
    length signature = 64%nat /\ fs_signature f = encode_hex signature /\
    r ∈ release_keys k /\ rk_key_id r = fs_key_id f /\ decode_release_key r = Ok key /\
    verify_strict key (signing_message FILE_SET_SIGNING_DOMAIN payload) signature = true.

(** C16: given a well-formed keyring, a file set is accepted exactly when its
    bytes are the canonical text of a well-formed file set of the expected
    product, a release key of the keyring signed it under the file-set domain,
    and it neither rolls back nor forks the accepted generation; the digest
    handed on is that of the bytes. *)
Theorem verify_file_set_iff bytes kr acceptance v :
  keyring_wf (keyring kr) ->
  verify_file_set bytes kr acceptance = Ok v <->
  parse_canonical FileSet bytes MAX_MANIFEST_BYTES = Ok (file_set v) /\
  vfs_digest v = sha256 bytes /\
  fs_kind (file_set v) = FILE_SET_KIND /\ fs_schema (file_set v) = FILE_SET_SCHEMA /\
  valid_identifier (fs_key_id (file_set v)) = true /\
  file_set_wf (file_set v) (fsa_expected_product_id acceptance) /\
  file_set_signed (file_set v) (keyring kr) /\
  generation_follows (fsa_previous acceptance)
    {| generation := fs_generation (file_set v); digest := vfs_digest v |}.
Proof.
  intros Hwf. unfold verify_file_set. split.
  - intros Hv. ok_inv. bool_inv. subst. cbn.
    match goal with Hs : decode_lower_hex 64 _ _ = Ok _ |- _ =>
      apply decode_lower_hex_iff in Hs as [Hlen Hs] end.
    match goal with Hk : release_verifying_key _ _ = Ok _ |- _ =>
      apply release_verifying_key_listed in Hk as (r & Hr & Hid & Hk); [|done] end.
    split_and!; [done|done|done|done|done|by apply validate_file_set_iff| |].
    + do 4 eexists. split_and!; try exact Hs; eauto.
    + by eapply check_generation_Ok.
  - intros (Hparse & Hd & Hkind & Hschema & Hid & Hfs & Hsig & Hgen).
    destruct Hsig as (payload & sig & r & key & Hp & Hlen & Hs & Hr & Hrid & Hk & Hver).
    rewrite Hparse. mred. rewrite bool_decide_true, (proj2 (N.eqb_eq _ _) Hschema) by done. mred.
    rewrite Hid. mred. rewrite Hp. mred.
    rewrite (proj2 (decode_lower_hex_iff _ _ _ _) (conj Hlen Hs)). mred.
    rewrite (proj2 (release_verifying_key_listed kr (fs_key_id (file_set v)) key Hwf)) by eauto.
    mred. rewrite Hver. mred. rewrite (proj2 (validate_file_set_iff _ _) Hfs). mred.
    rewrite <- Hd. rewrite (proj2 (check_generation_Ok _ _ _ _ _ _) Hgen). mred. by destruct v.
Qed.
End file_set_theorems.
