(* ===== verification/RegistrySet.v ===== *)
(** * Registry sets: signed manifests of registry values

    src/src/registry_set.rs: value names, the allowlist, base64 payloads,
    [validate_registry_set] and [verify_registry_set]. *)

From S2P Require Import Prelude Errors Identifiers Json Trust FileSet.

Definition REGISTRY_SET_KIND : string := "7launcher-registry-set-v1".
Definition REGISTRY_SET_SCHEMA : N := 1.
Definition MAX_REGISTRY_SET_BYTES : N := 64 * 1024.
Definition MAX_REGISTRY_ENTRIES : nat := 32.
Definition MAX_REGISTRY_VALUE_NAME_BYTES : nat := 256.
Definition MAX_REGISTRY_STRING_BYTES : N := 16 * 1024.
Definition MAX_REGISTRY_BINARY_BYTES : N := 16 * 1024.
(** [MAX_REGISTRY_BINARY_BYTES.div_ceil(3) * 4]. *)
Definition MAX_ENCODED_BYTES : N := (MAX_REGISTRY_BINARY_BYTES + 2) / 3 * 4.

(** The crate base64, standard alphabet with padding. *)
Class Base64 := {
  base64_encode : list byte -> string;
  base64_decode : string -> option (list byte);
}.

(** ** Data *)

Inductive RegistryValueKind := KString | KDword | KBinary.

#[export] Instance RegistryValueKind_eq_dec : EqDecision RegistryValueKind.
Proof. solve_decision. Defined.

Record AllowedRegistryValue := {
  av_name : string;
  av_value_type : RegistryValueKind;
}.

#[export] Instance AllowedRegistryValue_eq_dec : EqDecision AllowedRegistryValue.
Proof. solve_decision. Defined.

Inductive RegistryValue :=
  | RvString (name : string) (data : string)
  | RvDword (name : string) (data : N)
  | RvBinary (name : string) (data : string).

Definition value_name (v : RegistryValue) : string :=
  match v with RvString n _ | RvDword n _ | RvBinary n _ => n end.

Definition value_type (v : RegistryValue) : RegistryValueKind :=
  match v with
  | RvString _ _ => KString
  | RvDword _ _ => KDword
  | RvBinary _ _ => KBinary
  end.

Record RegistrySet := {
  rs_generation : N;
  rs_key_id : string;
  rs_kind : string;
  rs_product_id : string;
  rs_schema : N;
  rs_scope_id : string;
  rs_signature : string;
  rs_values : list RegistryValue;
}.

Record RegistrySetAcceptance := {
  rsa_allowed_values : list AllowedRegistryValue;
  rsa_expected_product_id : string;
  rsa_expected_scope_id : string;
  rsa_previous : option GenerationRecord;
}.

Record VerifiedRegistrySet := {
  vrs_digest : list byte;
  registry_set : RegistrySet;
}.

Section encoding.
Context `{SerdeJson}.

(** [tag = "type", rename_all = "lowercase"]. *)
Definition RegistryValue_value (v : RegistryValue) : Value :=
  match v with
  | RvString name data =>
      Object [("type", VString "string"); ("name", VString name); ("data", VString data)]
  | RvDword name data =>
      Object [("type", VString "dword"); ("name", VString name);
              ("data", VNumber (number_of_u64 data))]
  | RvBinary name data =>
      Object [("type", VString "binary"); ("name", VString name); ("data", VString data)]
  end.

#[export] Instance RegistrySet_encoder : Encoder RegistrySet := fun r =>
  Some (Object [
    ("generation", VNumber (number_of_u64 (rs_generation r)));
    ("keyId", VString (rs_key_id r));
    ("kind", VString (rs_kind r));
    ("productId", VString (rs_product_id r));
    ("schema", VNumber (number_of_u64 (rs_schema r)));
    ("scopeId", VString (rs_scope_id r));
    ("signature", VString (rs_signature r));
    ("values", Array (RegistryValue_value <$> rs_values r))]).

Definition registry_set_payload (r : RegistrySet) : Value :=
  Object [
    ("generation", VNumber (number_of_u64 (rs_generation r)));
    ("keyId", VString (rs_key_id r));
    ("kind", VString (rs_kind r));
    ("productId", VString (rs_product_id r));
    ("schema", VNumber (number_of_u64 (rs_schema r)));
    ("scopeId", VString (rs_scope_id r));
    ("values", Array (RegistryValue_value <$> rs_values r))].
End encoding.

(** ** Value names and binary data *)

Definition validate_registry_value_name (value : string) : Result () :=
  ensure (negb ((str_len value =? 0)%nat
                || (MAX_REGISTRY_VALUE_NAME_BYTES <? str_len value)%nat
                || has_nul value || has_control value))
    RegistryValueInvalid "registry value name is invalid".

Definition decode_registry_binary `{Base64} (data : string) : Result (list byte) :=
  _ ← ensure ((N.of_nat (str_len data) <=? MAX_ENCODED_BYTES)%N && is_ascii data)
        RegistrySetLimit "registry binary data exceeds the encoded bound";
  decoded ← ok_or (base64_decode data) JsonInvalid
              "registry binary data is not valid canonical base64";
  _ ← ensure (N.of_nat (length decoded) <=? MAX_REGISTRY_BINARY_BYTES)%N
        RegistrySetLimit "registry binary data exceeds the decoded bound";
  _ ← ensure (bool_decide (base64_encode decoded = data))
        JsonInvalid "registry binary data is not canonical base64";
  Ok decoded.

Definition EXECUTING_VALUE_NAMES : list string :=
  ["AppInit_DLLs"; "AutoRun"; "Debugger"; "GlobalFlag"; "LoadAppInit_DLLs";
   "MonitorProcess"; "Shell"; "StubPath"; "Taskman"; "Userinit"; "VerifierDlls"].

Definition executes_programs (name : string) : bool :=
  existsb (fun n => eq_ignore_ascii_case name n) EXECUTING_VALUE_NAMES.

Section validation.
Context `{UnicodeCase}.

Definition check_allowed_value (names : gset string) (v : AllowedRegistryValue)
    : Result (gset string) :=
  _ ← validate_registry_value_name (av_name v);
  _ ← ensure (negb (executes_programs (av_name v))) RegistryValueInvalid
        "registry value name is one that Windows uses to start programs";
  _ ← ensure (bool_decide (to_lowercase (av_name v) ∉ names)) RegistryValueInvalid
        "registry scope value names must be unique";
  Ok ({[ to_lowercase (av_name v) ]} ∪ names).

Definition validate_allowed_registry_values (values : list AllowedRegistryValue) : Result () :=
  _ ← ensure (negb (length values =? 0)%nat && (length values <=? MAX_REGISTRY_ENTRIES)%nat)
        RegistrySetLimit "registry scope allowlist is outside the allowed range";
  _ ← try_for check_allowed_value ∅ values;
  Ok tt.

Context `{Base64}.

(** [candidate.name.eq_ignore_ascii_case(value.name()) && same type]. *)
Definition value_allowed (allowed : list AllowedRegistryValue) (v : RegistryValue) : bool :=
  existsb (fun c => eq_ignore_ascii_case (av_name c) (value_name v)
                    && bool_decide (av_value_type c = value_type v)) allowed.

Definition check_registry_value (allowed : list AllowedRegistryValue)
    (names : gset string) (v : RegistryValue) : Result (gset string) :=
  _ ← validate_registry_value_name (value_name v);
  _ ← ensure (bool_decide (to_lowercase (value_name v) ∉ names)) RegistryValueInvalid
        "registry-set value names must be unique";
  _ ← match v with
      | RvString _ data =>
          ensure ((N.of_nat (str_len data) <=? MAX_REGISTRY_STRING_BYTES)%N
                  && negb (has_nul data))
            RegistrySetLimit "registry string data exceeds the bound or contains NUL"
      | RvBinary _ data => _ ← decode_registry_binary data; Ok tt
      | RvDword _ _ => Ok tt
      end;
  _ ← ensure (value_allowed allowed v) RegistryScopeUnauthorized
        "registry-set value is outside the registered allowlist";
  Ok ({[ to_lowercase (value_name v) ]} ∪ names).

Definition validate_registry_set (r : RegistrySet) (acceptance : RegistrySetAcceptance)
    : Result () :=
  _ ← ensure (negb (rs_generation r =? 0)%N && valid_identifier (rs_product_id r)
              && valid_identifier (rs_scope_id r))
        JsonInvalid "registry-set generation, product ID, or scope ID is invalid";
  _ ← ensure (bool_decide (rs_product_id r = rsa_expected_product_id acceptance))
        ProductMismatch "registry set does not belong to the registered product";
  _ ← ensure (bool_decide (rs_scope_id r = rsa_expected_scope_id acceptance))
        RegistryScopeInvalid "registry set does not belong to the registered scope";
  _ ← ensure (negb (length (rs_values r) =? 0)%nat
              && (length (rs_values r) <=? MAX_REGISTRY_ENTRIES)%nat)
        RegistrySetLimit "registry-set value count is outside the allowed range";
  _ ← try_for (check_registry_value (rsa_allowed_values acceptance)) ∅ (rs_values r);
  Ok tt.

Context `{Crypto} `{SerdeJson} `{!Reader RegistrySet}.

Definition verify_registry_set (bytes : list byte) (kr : VerifiedKeyring)
    (acceptance : RegistrySetAcceptance) : Result VerifiedRegistrySet :=
  r ← parse_canonical RegistrySet bytes MAX_REGISTRY_SET_BYTES;
  _ ← ensure (bool_decide (rs_kind r = REGISTRY_SET_KIND)
              && (rs_schema r =? REGISTRY_SET_SCHEMA)%N)
        JsonInvalid "registry-set kind or schema is unsupported";
  _ ← ensure (valid_identifier (rs_key_id r)) JsonInvalid "registry-set key ID is invalid";
  payload_bytes ← canonical_json (registry_set_payload r);
  signature_bytes ← decode_lower_hex 64 (rs_signature r) TrustSignature;
  key ← release_verifying_key kr (rs_key_id r);
  _ ← ensure (verify_strict key (signing_message REGISTRY_SET_SIGNING_DOMAIN payload_bytes)
                signature_bytes)
        TrustSignature "registry-set signature is invalid";
  _ ← validate_registry_set r acceptance;
  let d := sha256 bytes in
  _ ← check_generation RegistrySetRollback
        "registry-set generation is older than the accepted generation"
        "registry-set generation was reused with another digest"
        (rs_generation r) d (rsa_previous acceptance);
  Ok {| vrs_digest := d; registry_set := r |}.
End validation.

(** ** Names *)

Lemma eq_ignore_ascii_case_iff a b :
  eq_ignore_ascii_case a b = true <-> to_ascii_lowercase a = to_ascii_lowercase b.
Proof. unfold eq_ignore_ascii_case. apply bool_decide_eq_true. Qed.

Lemma executes_programs_fold a b :
  eq_ignore_ascii_case a b = true -> executes_programs a = executes_programs b.
Proof.
  rewrite eq_ignore_ascii_case_iff. unfold executes_programs, eq_ignore_ascii_case.
  intros ->. done.
Qed.

Section registry_theorems.
Context `{UnicodeCase} `{Base64}.

(** An allowlist entry that may be registered. *)
Definition allowed_ok (v : AllowedRegistryValue) : Prop :=
  validate_registry_value_name (av_name v) = Ok tt /\ executes_programs (av_name v) = false.

Record allowlist_wf (values : list AllowedRegistryValue) : Prop := {
  aw_count : (0 < length values <= MAX_REGISTRY_ENTRIES)%nat;
  aw_entries : Forall allowed_ok values;
  aw_unique : NoDup ((fun v => to_lowercase (av_name v)) <$> values);
}.

Lemma check_allowed_value_Ok names v s :
  check_allowed_value names v = Ok s <->
  (to_lowercase (av_name v) ∉ names) /\
  s = {[ to_lowercase (av_name v) ]} ∪ names /\ allowed_ok v.
Proof.
  unfold check_allowed_value, allowed_ok. split.
  - intros Hc. ok_inv. bool_inv. by subst.
  - intros (Hn & -> & Hv & He). rewrite Hv. mred. rewrite He. mred.
    by rewrite bool_decide_true.
Qed.

(** A registered allowlist names between 1 and 32 values, distinct up to
    letter case, none of which Windows reads to start a program; and every
    such allowlist is accepted. *)
Lemma validate_allowed_registry_values_iff values :
  validate_allowed_registry_values values = Ok tt <-> allowlist_wf values.
Proof.
  unfold validate_allowed_registry_values. split.
  - intros Hv. ok_inv. bool_inv.
    apply (try_for_unique (fun v => to_lowercase (av_name v)) allowed_ok)
      in Hx0 as (Hnd & HF & _ & _); [|intros; by apply check_allowed_value_Ok].
    split; [lia|done|done].
  - intros []. rewrite (proj2 (Nat.eqb_neq _ 0)) by lia.
    rewrite (proj2 (Nat.leb_le _ MAX_REGISTRY_ENTRIES)) by lia. mred.
    edestruct (try_for_unique_ok (fun v => to_lowercase (av_name v)) allowed_ok
                 check_allowed_value ∅ values) as [s ->];
      [intros; by apply check_allowed_value_Ok|done|done|set_solver|done].
Qed.

(** A value that may be written under an allowlist. *)
Definition value_data_ok (v : RegistryValue) : Prop :=
  match v with
  | RvString _ data =>
      (N.of_nat (str_len data) <= MAX_REGISTRY_STRING_BYTES)%N /\ has_nul data = false
  | RvDword _ _ => True
  | RvBinary _ data =>
      exists bytes, decode_registry_binary data = Ok bytes
  end.

Definition value_ok (allowed : list AllowedRegistryValue) (v : RegistryValue) : Prop :=
  validate_registry_value_name (value_name v) = Ok tt /\ value_data_ok v /\
  value_allowed allowed v = true.

Record registry_set_wf (r : RegistrySet) (a : RegistrySetAcceptance) : Prop := {
  rw_generation : (0 < rs_generation r)%N;
  rw_product_valid : valid_identifier (rs_product_id r) = true;
  rw_scope_valid : valid_identifier (rs_scope_id r) = true;
  rw_product : rs_product_id r = rsa_expected_product_id a;
  rw_scope : rs_scope_id r = rsa_expected_scope_id a;
  rw_count : (0 < length (rs_values r) <= MAX_REGISTRY_ENTRIES)%nat;
  rw_values : Forall (value_ok (rsa_allowed_values a)) (rs_values r);
  rw_unique : NoDup ((fun v => to_lowercase (value_name v)) <$> rs_values r);
}.

Lemma check_registry_value_Ok allowed names v s :
  check_registry_value allowed names v = Ok s <->
  (to_lowercase (value_name v) ∉ names) /\
  s = {[ to_lowercase (value_name v) ]} ∪ names /\ value_ok allowed v.
Proof.
  unfold check_registry_value, value_ok, value_data_ok. split.
  - intros Hc. ok_inv. bool_inv. subst. split_and!; [done|done|done| |done].
    destruct v; ok_inv; bool_inv; [done|done|by eexists].
  - intros (Hn & -> & Hv & Hd & Ha). rewrite Hv. mred.
    rewrite bool_decide_true by done. mred. rewrite Ha.
    destruct v as [n d|n d|n d]; [| done |].
    + destruct Hd as [Hl Hz]. by rewrite (proj2 (N.leb_le _ _) Hl), Hz.
    + destruct Hd as [bytes Hb]. by rewrite Hb.
Qed.

(** [validate_registry_set] accepts exactly the sets of the expected
    product and scope with 1 to 32 values of distinct names, each bounded,
    canonical and on the registered allowlist with the registered type. *)
Lemma validate_registry_set_iff r a :
  validate_registry_set r a = Ok tt <-> registry_set_wf r a.
Proof.
  unfold validate_registry_set. split.
  - intros Hv. ok_inv. bool_inv.
    apply (try_for_unique (fun v => to_lowercase (value_name v))
             (value_ok (rsa_allowed_values a)))
      in Hx3 as (Hnd & HF & _ & _); [|intros; by apply check_registry_value_Ok].
    split; try done; lia.
  - intros []. rewrite (proj2 (N.eqb_neq _ 0)) by lia.
    rewrite rw_product_valid0, rw_scope_valid0, !bool_decide_true by done.
    rewrite (proj2 (Nat.eqb_neq _ 0)) by lia.
    rewrite (proj2 (Nat.leb_le _ MAX_REGISTRY_ENTRIES)) by lia. mred.
    edestruct (try_for_unique_ok (fun v => to_lowercase (value_name v))
                 (value_ok (rsa_allowed_values a))
                 (check_registry_value (rsa_allowed_values a)) ∅ (rs_values r)) as [s ->];
      [intros; by apply check_registry_value_Ok|done|done|set_solver|done].
Qed.

Lemma value_allowed_spec allowed v :
  value_allowed allowed v = true <->
  exists c, c ∈ allowed /\ eq_ignore_ascii_case (av_name c) (value_name v) = true /\
    av_value_type c = value_type v.
Proof.
  unfold value_allowed. rewrite existsb_exists. split.
  - intros (c & Hin & Hc). apply andb_true_iff in Hc as [? ?%bool_decide_eq_true].
    exists c. by rewrite list_elem_of_In.
  - intros (c & Hin & Hc & Ht). exists c. rewrite list_elem_of_In in Hin.
    rewrite Hc. by rewrite bool_decide_true.
Qed.

(** C18: no signed registry set can plant code.  Under an allowlist that was
    accepted at registration, every value of an accepted set is one of the
    registered names with the registered type, and none has a name that
    Windows reads to start a program or load a library, in any letter case. *)
Theorem registry_set_values_safe r a v :
  validate_allowed_registry_values (rsa_allowed_values a) = Ok tt ->
  validate_registry_set r a = Ok tt -> v ∈ rs_values r ->
  executes_programs (value_name v) = false /\
  exists c, c ∈ rsa_allowed_values a /\ av_value_type c = value_type v /\
    eq_ignore_ascii_case (av_name c) (value_name v) = true.
Proof.
  intros Ha%validate_allowed_registry_values_iff Hr%validate_registry_set_iff Hv.
  pose proof (proj1 (Forall_forall _ _) (rw_values _ _ Hr) v Hv) as (_ & _ & Hall).
  destruct Ha as [_ Ha _]. rewrite Forall_forall in Ha.
  apply value_allowed_spec in Hall as (c & Hc & Hname & Htype).
  split; [|by exists c]. rewrite <- (executes_programs_fold _ _ Hname).
  by apply (Ha c Hc).
Qed.
End registry_theorems.

Section registry_set_theorems.
Context `{UnicodeCase} `{Base64} `{Crypto} `{SerdeJsonLaws} `{!Reader RegistrySet}.

Lemma RegistryValue_value_inj v1 v2 :
  value_equiv (RegistryValue_value v1) (RegistryValue_value v2) -> v1 = v2.
Proof.
  destruct v1, v2; unfold RegistryValue_value; intros E; object_field E "type" as E1;
    apply string_equiv in E1; try discriminate;
    object_field E "name" as E2; object_field E "data" as E3;
    apply string_equiv in E2; (apply string_equiv in E3 || apply u64_equiv in E3);
    congruence.
Qed.

Definition registry_set_signed_eq (r1 r2 : RegistrySet) : Prop :=
  rs_generation r1 = rs_generation r2 /\ rs_key_id r1 = rs_key_id r2 /\
  rs_kind r1 = rs_kind r2 /\ rs_product_id r1 = rs_product_id r2 /\
  rs_schema r1 = rs_schema r2 /\ rs_scope_id r1 = rs_scope_id r2 /\
  rs_values r1 = rs_values r2.

(** A registry-set signature binds the generation, key, product, scope
    and every value with its name, type and data. *)
Theorem registry_set_payload_binds r1 r2 bytes :
  canonical_json (registry_set_payload r1) = Ok bytes ->
  canonical_json (registry_set_payload r2) = Ok bytes ->
  registry_set_signed_eq r1 r2.
Proof.
  intros B1 B2. pose proof (canonical_json_equiv _ _ _ B1 B2) as E.
  unfold registry_set_payload in E.
  object_field E "generation" as E1. object_field E "keyId" as E2.
  object_field E "kind" as E3. object_field E "productId" as E4.
  object_field E "schema" as E5. object_field E "scopeId" as E6.
  object_field E "values" as E7.
  apply (array_fmap_equiv RegistryValue_value) in E7; [|apply RegistryValue_value_inj].
  apply u64_equiv in E1, E5. apply string_equiv in E2, E3, E4, E6. done.
Qed.

Definition registry_set_signed (r : RegistrySet) (k : Keyring) : Prop :=
  exists payload signature rk key,
    canonical_json (registry_set_payload r) = Ok payload /\
    length signature = 64%nat /\ rs_signature r = encode_hex signature /\
    rk ∈ release_keys k /\ rk_key_id rk = rs_key_id r /\ decode_release_key rk = Ok key /\
    verify_strict key (signing_message REGISTRY_SET_SIGNING_DOMAIN payload) signature = true.

(** C17: given a well-formed keyring, a registry set is accepted exactly when
    its bytes are the canonical text of a set of the expected product and scope
    whose values are all allowed there, a release key of the keyring signed it
    under the registry-set domain, and it neither rolls back nor forks the
    accepted generation. *)
Theorem verify_registry_set_iff bytes kr a v :
  keyring_wf (keyring kr) ->
  verify_registry_set bytes kr a = Ok v <->
  parse_canonical RegistrySet bytes MAX_REGISTRY_SET_BYTES = Ok (registry_set v) /\
  vrs_digest v = sha256 bytes /\
  rs_kind (registry_set v) = REGISTRY_SET_KIND /\ rs_schema (registry_set v) = REGISTRY_SET_SCHEMA /\
  valid_identifier (rs_key_id (registry_set v)) = true /\
  registry_set_wf (registry_set v) a /\ registry_set_signed (registry_set v) (keyring kr) /\
  generation_follows (rsa_previous a)
    {| generation := rs_generation (registry_set v); digest := vrs_digest v |}.
Proof.
  intros Hwf. unfold verify_registry_set. split.
  - intros Hv. ok_inv. bool_inv. subst. cbn.
    match goal with Hs : decode_lower_hex 64 _ _ = Ok _ |- _ =>
      apply decode_lower_hex_iff in Hs as [Hlen Hs] end.
    match goal with Hk : release_verifying_key _ _ = Ok _ |- _ =>
      apply release_verifying_key_listed in Hk as (r & Hr & Hid & Hk); [|done] end.
    split_and!; [done|done|done|done|done|by apply validate_registry_set_iff| |].
    + do 4 eexists. split_and!; try exact Hs; eauto.
    + by eapply check_generation_Ok.
  - intros (Hparse & Hd & Hkind & Hschema & Hid & Hrs & Hsig & Hgen).
    destruct Hsig as (payload & sig & r & key & Hp & Hlen & Hs & Hr & Hrid & Hk & Hver).
    rewrite Hparse. mred. rewrite bool_decide_true, (proj2 (N.eqb_eq _ _) Hschema) by done. mred.
    rewrite Hid. mred. rewrite Hp. mred.
    rewrite (proj2 (decode_lower_hex_iff _ _ _ _) (conj Hlen Hs)). mred.
    rewrite (proj2 (release_verifying_key_listed kr (rs_key_id (registry_set v)) key Hwf)) by eauto.
    mred. rewrite Hver. mred. rewrite (proj2 (validate_registry_set_iff _ _) Hrs). mred.
    rewrite <- Hd. rewrite (proj2 (check_generation_Ok _ _ _ _ _ _) Hgen). mred. by destruct v.
Qed.
End registry_set_theorems.
