(* ===== verification/Roots.v ===== *)
(** * Registered roots

    src/src/roots.rs: [RegisteredRoot], [RootRegistry] and its canonical
    document.  Writing the document to disk is the business of Storage. *)

From S2P Require Import Prelude Errors Identifiers Json KeyedMap.

Definition ROOT_REGISTRY_KIND : string := "7launcher-maintenance-roots-v1".
Definition ROOT_REGISTRY_SCHEMA : N := 1.
Definition MAX_ROOT_REGISTRY_BYTES : N := 1024 * 1024.
Definition MAX_REGISTERED_ROOTS : nat := 256.

Inductive RootKind := Launcher | Game | Library.

#[export] Instance RootKind_eq_dec : EqDecision RootKind.
Proof. solve_decision. Defined.

Record DirectoryIdentity := {
  volume_serial : N;
  file_id : list byte;
}.

#[export] Instance DirectoryIdentity_eq_dec : EqDecision DirectoryIdentity.
Proof. solve_decision. Defined.

Record RegisteredRoot := {
  root_id : string;
  root_product_id : string;
  root_kind : RootKind;
  canonical_path : string;
  identity : DirectoryIdentity;
  root_owner_sid : string;
}.

#[export] Instance RegisteredRoot_eq_dec : EqDecision RegisteredRoot.
Proof. solve_decision. Defined.

(** [valid_owner_sid]; src/src/windows.rs has the same text check as [valid_sid_text]. *)
Definition sid_byte (b : byte) : bool :=
  is_ascii_digit b || bool_decide (b = "-"%char) || bool_decide (b = "S"%char).

Definition valid_owner_sid (value : string) : bool :=
  starts_with "S-1-" value && (str_len value <=? 184)%nat
  && forallb sid_byte (as_bytes value).

Definition validate_stored (r : RegisteredRoot) : Result () :=
  ensure (valid_identifier (root_id r) && valid_identifier (root_product_id r)
          && valid_owner_sid (root_owner_sid r) && path_is_absolute (canonical_path r))
    RootInvalid "stored root metadata is invalid".

Definition from_canonical_identity (id product : string) (kind : RootKind) (path : string)
    (ident : DirectoryIdentity) (owner : string) : Result RegisteredRoot :=
  let root := {| root_id := id; root_product_id := product; root_kind := kind;
                 canonical_path := path; identity := ident; root_owner_sid := owner |} in
  _ ← validate_stored root;
  Ok root.

(** ** The registry: a [BTreeMap] from root identifier to root *)

Abbreviation RootRegistry := (gmap string RegisteredRoot).

Definition register (roots : RootRegistry) (root : RegisteredRoot) : Result RootRegistry :=
  _ ← validate_stored root;
  _ ← ensure (size roots <? MAX_REGISTERED_ROOTS)%nat RootInvalid
        "registered-root count exceeds the bound";
  _ ← ensure (bool_decide (roots !! root_id root = None)) TransactionConflict
        "root ID is already registered";
  Ok (<[root_id root := root]> roots).

(** A protected root is visible to its owner, a library to everybody. *)
Definition root_accessible (root : RegisteredRoot) (caller_sid : string) : bool :=
  bool_decide (root_kind root = Library) || bool_decide (root_owner_sid root = caller_sid).

Definition resolve_accessible (roots : RootRegistry) (id caller_sid : string)
    : Result RegisteredRoot :=
  root ← ok_or (roots !! id) RootNotFound "root ID is not registered";
  _ ← ensure (root_accessible root caller_sid) RootUnauthorized
        "protected root belongs to another user SID";
  Ok root.

Definition unregister (roots : RootRegistry) (id caller_sid : string)
    : Result (RegisteredRoot * RootRegistry) :=
  root ← resolve_accessible roots id caller_sid;
  _ ← ok_or (roots !! id) RootNotFound "root ID is not registered";
  Ok (root, delete id roots).

Definition resolve_job (roots : RootRegistry) (id caller_sid product : string)
    : Result RegisteredRoot :=
  root ← resolve_accessible roots id caller_sid;
  _ ← ensure (bool_decide (root_product_id root = product)) ProductMismatch
        "registered root belongs to another product";
  Ok root.

Definition accessible_root_count (roots : RootRegistry) (caller_sid : string) : nat :=
  length (List.filter (fun r => root_accessible r caller_sid) (map_values roots)).

(** ** The stored document *)

Record RootRegistryDocument := {
  rd_kind : string;
  rd_roots : list RegisteredRoot;
  rd_schema : N;
}.

Section encoding.
Context `{SerdeJson}.

Definition RootKind_value (k : RootKind) : Value :=
  VString (match k with Launcher => "launcher" | Game => "game" | Library => "library" end).

Definition DirectoryIdentity_value (d : DirectoryIdentity) : Value :=
  Object [("volumeSerial", VNumber (number_of_u64 (volume_serial d)));
          ("fileId", Array ((fun b => VNumber (number_of_u64 (N_of_ascii b))) <$> file_id d))].

Definition RegisteredRoot_value (r : RegisteredRoot) : Value :=
  Object [("rootId", VString (root_id r));
          ("productId", VString (root_product_id r));
          ("rootKind", RootKind_value (root_kind r));
          ("canonicalPath", VString (canonical_path r));
          ("identity", DirectoryIdentity_value (identity r));
          ("ownerSid", VString (root_owner_sid r))].

#[export] Instance RootRegistryDocument_encoder : Encoder RootRegistryDocument := fun d =>
  Some (Object [("kind", VString (rd_kind d));
                ("roots", Array (RegisteredRoot_value <$> rd_roots d));
                ("schema", VNumber (number_of_u64 (rd_schema d)))]).

(** The bytes [RootRegistry::save] writes. *)
Definition encode_roots (roots : RootRegistry) : Result (list byte) :=
  let document := {| rd_kind := ROOT_REGISTRY_KIND; rd_roots := map_values roots;
                     rd_schema := ROOT_REGISTRY_SCHEMA |} in
  value ← ok_or (to_value document) RootInvalid "root registry cannot be encoded";
  bytes ← canonical_json value;
  _ ← ensure (N.of_nat (length bytes) <=? MAX_ROOT_REGISTRY_BYTES)%N RootInvalid
        "root registry exceeds the bound";
  Ok bytes.

(** The registry [RootRegistry::load] builds from the bytes it read. *)
Definition decode_roots `{!Reader RootRegistryDocument} (bytes : list byte)
    : Result RootRegistry :=
  document ← parse_canonical RootRegistryDocument bytes MAX_ROOT_REGISTRY_BYTES;
  _ ← ensure (bool_decide (rd_kind document = ROOT_REGISTRY_KIND)
              && (rd_schema document =? ROOT_REGISTRY_SCHEMA)%N)
        RootInvalid "root registry schema is unsupported";
  _ ← ensure (length (rd_roots document) <=? MAX_REGISTERED_ROOTS)%nat
        RootInvalid "registered-root count exceeds the bound";
  try_for register ∅ (rd_roots document).
End encoding.

(** ** Invariant and access control *)

(** Every root is stored under its own identifier with valid metadata, and the
    count is bounded. *)
Definition roots_wf (roots : RootRegistry) : Prop :=
  keyed root_id roots
  /\ map_Forall (fun _ r => validate_stored r = Ok tt) roots
  /\ (size roots <= MAX_REGISTERED_ROOTS)%nat.

(** A change of the registry: a registration, or a removal asked for by a caller. *)
Inductive root_event :=
  | Registered (root : RegisteredRoot)
  | Unregistered (id caller_sid : string).

Inductive root_step : RootRegistry -> root_event -> RootRegistry -> Prop :=
  | step_register roots root roots' :
      register roots root = Ok roots' -> root_step roots (Registered root) roots'
  | step_unregister roots id caller_sid root roots' :
      unregister roots id caller_sid = Ok (root, roots') ->
      root_step roots (Unregistered id caller_sid) roots'.

Inductive root_steps : RootRegistry -> list root_event -> RootRegistry -> Prop :=
  | steps_nil roots : root_steps roots [] roots
  | steps_cons roots1 ev roots2 evs roots3 :
      root_step roots1 ev roots2 -> root_steps roots2 evs roots3 ->
      root_steps roots1 (ev :: evs) roots3.

Lemma register_iff roots root roots' :
  register roots root = Ok roots' <->
  validate_stored root = Ok tt /\ (size roots < MAX_REGISTERED_ROOTS)%nat
  /\ roots !! root_id root = None /\ roots' = <[root_id root := root]> roots.
Proof.
  unfold register. split.
  - intros Hr. ok_inv. bool_inv. auto.
  - intros (-> & Hs & Hn & ->). apply Nat.ltb_lt in Hs. mred. rewrite Hs, Hn. done.
Qed.

Lemma resolve_accessible_iff roots id caller_sid root :
  resolve_accessible roots id caller_sid = Ok root <->
  roots !! id = Some root /\ (root_kind root = Library \/ root_owner_sid root = caller_sid).
Proof.
  unfold resolve_accessible. split.
  - intros Hr. ok_inv. subst. split; [done|]. unfold root_accessible in *.
    apply orb_true_iff in Hx0 as [Ha|Ha]; bool_inv; auto.
  - intros [-> Ha]. mred. assert (root_accessible root caller_sid = true) as ->; [|done].
    unfold root_accessible. by rewrite orb_true_iff, !bool_decide_eq_true.
Qed.

Lemma unregister_iff roots id caller_sid root roots' :
  unregister roots id caller_sid = Ok (root, roots') <->
  resolve_accessible roots id caller_sid = Ok root /\ roots' = delete id roots.
Proof.
  unfold unregister. split.
  - intros Hu. ok_inv. by simplify_eq.
  - intros [Hr ->]. pose proof (proj1 (resolve_accessible_iff _ _ _ _) Hr) as [Hl _].
    rewrite Hr. mred. by rewrite Hl.
Qed.

Lemma register_wf roots root roots' :
  roots_wf roots -> register roots root = Ok roots' -> roots_wf roots'.
Proof.
  intros (Hk & Hv & Hs) (Hr & Hlt & Hn & ->)%register_iff. split_and!.
  - by apply map_Forall_insert_2.
  - by apply map_Forall_insert_2.
  - rewrite map_size_insert_None by done. lia.
Qed.

Lemma unregister_wf roots id caller_sid root roots' :
  roots_wf roots -> unregister roots id caller_sid = Ok (root, roots') -> roots_wf roots'.
Proof.
  intros (Hk & Hv & Hs) [_ ->]%unregister_iff. split_and!.
  - by apply map_Forall_delete.
  - by apply map_Forall_delete.
  - etransitivity; [|exact Hs]. apply map_subseteq_size, delete_subseteq.
Qed.

Lemma roots_wf_empty : roots_wf ∅.
Proof. split_and!; [apply map_Forall_empty..|]. rewrite map_size_empty. lia. Qed.

Lemma root_step_wf roots ev roots' : roots_wf roots -> root_step roots ev roots' -> roots_wf roots'.
Proof. intros Hwf Hstep. inversion Hstep; subst; eauto using register_wf, unregister_wf. Qed.

(** One step keeps a root unless a caller with access removes it. *)
Lemma root_step_keeps roots ev roots' id r :
  root_step roots ev roots' -> roots !! id = Some r ->
  roots' !! id = Some r
  \/ exists sid, ev = Unregistered id sid /\ (root_kind r = Library \/ sid = root_owner_sid r).
Proof.
  intros Hstep Hr. destruct Hstep as [roots root roots' Hreg|roots id' sid root roots' Hun].
  - apply register_iff in Hreg as (_ & _ & Hn & ->). left.
    rewrite lookup_insert_ne; [done|]. congruence.
  - apply unregister_iff in Hun as [[Hl Ha]%resolve_accessible_iff ->].
    destruct (decide (id = id')) as [->|Hne].
    + right. exists sid. rewrite Hr in Hl. simplify_eq. naive_solver.
    + left. by rewrite lookup_delete_ne.
Qed.

(** C27: along any sequence of registrations and removals that starts from the
    empty registry, every root is stored under its own identifier with valid
    metadata and at most 256 are registered; and a protected (launcher or game)
    root that was registered is still there, unchanged, unless its owner removed
    it. *)
Theorem root_registry_protected roots evs1 evs2 roots' id r :
  root_steps ∅ evs1 roots -> root_steps roots evs2 roots' ->
  roots_wf roots'
  /\ (roots !! id = Some r -> root_kind r <> Library ->
      Unregistered id (root_owner_sid r) ∉ evs2 -> roots' !! id = Some r).
Proof.
  intros H1 H2.
  assert (forall a evs b, root_steps a evs b -> roots_wf a -> roots_wf b) as Hwf.
  { induction 1; eauto using root_step_wf. }
  split; [eauto using roots_wf_empty|]. clear H1 Hwf.
  induction H2 as [|roots1 ev roots2 evs roots3 Hstep _ IH]; [done|].
  intros Hr Hk Hn. apply not_elem_of_cons in Hn as [Hev Hn].
  apply IH; [|done|done].
  destruct (root_step_keeps _ _ _ _ _ Hstep Hr) as [Hr2|(sid & -> & [?| ->])]; done.
Qed.

(** The number of roots reported to a caller is the number of identifiers
    the caller can resolve. *)
Theorem accessible_root_count_resolvable roots caller_sid :
  accessible_root_count roots caller_sid =
  size (filter (fun kv : string * RegisteredRoot =>
                  is_ok (resolve_accessible roots kv.1 caller_sid) = true) roots).
Proof.
  unfold accessible_root_count. rewrite length_filter_values. f_equal.
  apply map_filter_ext. intros id r Hr. cbn. rewrite is_ok_true.
  setoid_rewrite resolve_accessible_iff. rewrite Hr.
  unfold root_accessible. rewrite orb_true_iff, !bool_decide_eq_true. naive_solver.
Qed.

(** ** The stored document *)

Section roundtrip.
Context `{SerdeJson, !Reader RootRegistryDocument, !ReaderLaws RootRegistryDocument}.

(** A registry that was encoded for the disk is read back as itself. *)
Lemma decode_encode_roots roots bytes :
  roots_wf roots -> encode_roots roots = Ok bytes -> decode_roots bytes = Ok roots.
Proof.
  intros (Hk & Hv & Hs) He. unfold encode_roots in He. ok_inv. bool_inv. subst.
  unfold decode_roots. rewrite (parse_canonical_encoded _ _ _ _ _ Hx Hx0) by done.
  mred. cbn [rd_kind rd_schema rd_roots]. rewrite bool_decide_true by done. mred.
  rewrite N.eqb_refl. mred. rewrite length_map_values.
  rewrite (proj2 (Nat.leb_le _ _) Hs). mred.
  apply (try_for_map_values root_id (fun r => validate_stored r = Ok tt) MAX_REGISTERED_ROOTS);
    [|done..].
  intros m a Ha Hn Hlt. by apply register_iff.
Qed.

(** Whatever the file holds, a registry that loads satisfies the invariant. *)
Lemma decode_roots_wf bytes roots : decode_roots bytes = Ok roots -> roots_wf roots.
Proof.
  unfold decode_roots. intros Hd. ok_inv. eapply try_for_inv; [|exact roots_wf_empty|exact Hd].
  eauto using register_wf.
Qed.
End roundtrip.
