(* ===== verification/RegistryScopes.v ===== *)
(** * Registered registry scopes

    src/src/registry_scopes.rs: [RegisteredRegistryScope], the policy on the
    keys below HKLM SOFTWARE, [RegistryScopeRegistry] and its document. *)

From S2P Require Import Prelude Errors Identifiers Json KeyedMap Roots RegistrySet.

Definition REGISTRY_SCOPE_REGISTRY_KIND : string :=
  "7launcher-maintenance-registry-scopes-v1".
Definition REGISTRY_SCOPE_REGISTRY_SCHEMA : N := 1.
Definition MAX_REGISTRY_SCOPE_REGISTRY_BYTES : N := 1024 * 1024.
Definition MAX_REGISTERED_REGISTRY_SCOPES : nat := 256.
Definition MAX_REGISTRY_SUBKEY_BYTES : nat := 1024.

Inductive RegistryView := Registry32 | Registry64.

#[export] Instance RegistryView_eq_dec : EqDecision RegistryView.
Proof. solve_decision. Defined.

Record RegisteredRegistryScope := {
  allowed_values : list AllowedRegistryValue;
  scope_owner_sid : string;
  scope_product_id : string;
  scope_id : string;
  subkey : string;
  view : RegistryView;
}.

#[export] Instance RegisteredRegistryScope_eq_dec : EqDecision RegisteredRegistryScope.
Proof. solve_decision. Defined.

(** ** The key policy *)

Definition key_sep : byte := "\"%char.

Definition key_components (value : string) : list string := str_split key_sep value.

(** The publishers whose keys belong to Windows or to a platform that loads
    code into other processes, whatever the product. *)
Definition FORBIDDEN_PUBLISHERS : list string :=
  ["classes"; "clients"; "policies"; "registeredapplications"; "windows"; "wow6432node";
   "khronos"; "mozilla"].

Definition publisher_allows (publisher product : string) (depth : nat) : bool :=
  if decide (publisher ∈ FORBIDDEN_PUBLISHERS) then false
  else if decide (publisher = "microsoft")
       then bool_decide (product = "microsoft games") && (4 <=? depth)%nat
  else if decide (publisher = "google") then negb (bool_decide (product = "chrome"))
  else true.

Definition product_key_is_allowed (folded : string) : bool :=
  let components := key_components folded in
  match components with
  | hive :: publisher :: product :: _ =>
      if decide (hive = "software")
      then publisher_allows publisher product (length components) else false
  | _ => false
  end.

Definition bad_key_component (component : string) : bool :=
  bool_decide (component = "") || bool_decide (component = ".")
  || bool_decide (component = "..").

Definition validate_registry_subkey (value : string) : Result () :=
  _ ← ensure (negb ((MAX_REGISTRY_SUBKEY_BYTES <? str_len value)%nat
                    || negb (starts_with "SOFTWARE\" value)
                    || bool_decide (last_byte value = Some key_sep)
                    || bool_decide ("/"%char ∈ as_bytes value)
                    || has_nul value || has_control value
                    || existsb bad_key_component (key_components value)))
        RegistryScopeInvalid "registry subkey is not a canonical HKLM SOFTWARE path";
  _ ← ensure (product_key_is_allowed (to_ascii_lowercase value)) RegistryScopeUnauthorized
        "registry scope must be a product key outside Windows and platform namespaces";
  Ok tt.

(** ** The registry *)

Abbreviation RegistryScopeRegistry := (gmap string RegisteredRegistryScope).

Section scopes.
Context `{UnicodeCase}.

Definition validate_stored_scope (s : RegisteredRegistryScope) : Result () :=
  _ ← ensure (valid_identifier (scope_id s) && valid_identifier (scope_product_id s)
              && valid_owner_sid (scope_owner_sid s))
        RegistryScopeInvalid "registry scope identity is invalid";
  _ ← validate_registry_subkey (subkey s);
  validate_allowed_registry_values (allowed_values s).

Definition new_scope (id product : string) (v : RegistryView) (key : string)
    (allowed : list AllowedRegistryValue) (owner : string) : Result RegisteredRegistryScope :=
  let scope := {| allowed_values := allowed; scope_owner_sid := owner;
                  scope_product_id := product; scope_id := id; subkey := key; view := v |} in
  _ ← validate_stored_scope scope;
  Ok scope.

(** Registering the same scope again is accepted and changes nothing. *)
Definition register_scope (scopes : RegistryScopeRegistry) (scope : RegisteredRegistryScope)
    : Result RegistryScopeRegistry :=
  _ ← validate_stored_scope scope;
  match scopes !! scope_id scope with
  | Some existing =>
      if decide (existing = scope) then Ok scopes
      else Err (new_error TransactionConflict
                  "registry scope ID is already registered with another policy")
  | None =>
      _ ← ensure (size scopes <? MAX_REGISTERED_REGISTRY_SCOPES)%nat RegistrySetLimit
            "registered registry-scope count exceeds the bound";
      Ok (<[scope_id scope := scope]> scopes)
  end.

Definition resolve_registered (scopes : RegistryScopeRegistry) (id : string)
    : Result RegisteredRegistryScope :=
  ok_or (scopes !! id) RegistryScopeNotFound "registry scope is not registered".

Definition resolve_owned (scopes : RegistryScopeRegistry) (id owner : string)
    : Result RegisteredRegistryScope :=
  scope ← ok_or (scopes !! id) RegistryScopeNotFound "registry scope is not registered";
  _ ← ensure (bool_decide (scope_owner_sid scope = owner)) RegistryScopeUnauthorized
        "registry scope belongs to another user SID";
  Ok scope.

Definition unregister_scope (scopes : RegistryScopeRegistry) (id owner : string)
    : Result (RegisteredRegistryScope * RegistryScopeRegistry) :=
  scope ← resolve_owned scopes id owner;
  _ ← ok_or (scopes !! id) RegistryScopeNotFound "registry scope is not registered";
  Ok (scope, delete id scopes).

Definition owned_scope_count (scopes : RegistryScopeRegistry) (owner : string) : nat :=
  length (List.filter (fun s => bool_decide (scope_owner_sid s = owner)) (map_values scopes)).
End scopes.

(** ** The stored document *)

Record RegistryScopeRegistryDocument := {
  sd_kind : string;
  sd_schema : N;
  sd_scopes : list RegisteredRegistryScope;
}.

Section encoding.
Context `{SerdeJson, UnicodeCase}.

Definition RegistryValueKind_value (k : RegistryValueKind) : Value :=
  VString (match k with KString => "string" | KDword => "dword" | KBinary => "binary" end).

Definition AllowedRegistryValue_value (v : AllowedRegistryValue) : Value :=
  Object [("name", VString (av_name v)); ("type", RegistryValueKind_value (av_value_type v))].

Definition RegistryView_value (v : RegistryView) : Value :=
  VString (match v with Registry32 => "registry32" | Registry64 => "registry64" end).

Definition RegisteredRegistryScope_value (s : RegisteredRegistryScope) : Value :=
  Object [("allowedValues", Array (AllowedRegistryValue_value <$> allowed_values s));
          ("ownerSid", VString (scope_owner_sid s));
          ("productId", VString (scope_product_id s));
          ("scopeId", VString (scope_id s));
          ("subkey", VString (subkey s));
          ("view", RegistryView_value (view s))].

#[export] Instance RegistryScopeRegistryDocument_encoder :
  Encoder RegistryScopeRegistryDocument := fun d =>
  Some (Object [("kind", VString (sd_kind d));
                ("schema", VNumber (number_of_u64 (sd_schema d)));
                ("scopes", Array (RegisteredRegistryScope_value <$> sd_scopes d))]).

(** The bytes [RegistryScopeRegistry::save] writes. *)
Definition encode_scopes (scopes : RegistryScopeRegistry) : Result (list byte) :=
  let document := {| sd_kind := REGISTRY_SCOPE_REGISTRY_KIND;
                     sd_schema := REGISTRY_SCOPE_REGISTRY_SCHEMA;
                     sd_scopes := map_values scopes |} in
  value ← ok_or (to_value document) RegistryScopeInvalid
            "registry-scope registry cannot be encoded";
  bytes ← canonical_json value;
  _ ← ensure (N.of_nat (length bytes) <=? MAX_REGISTRY_SCOPE_REGISTRY_BYTES)%N
        RegistrySetLimit "registry-scope registry exceeds the bound";
  Ok bytes.

(** The registry [RegistryScopeRegistry::load] builds from the bytes it read. *)
Definition decode_scopes `{!Reader RegistryScopeRegistryDocument} (bytes : list byte)
    : Result RegistryScopeRegistry :=
  document ← parse_canonical RegistryScopeRegistryDocument bytes
               MAX_REGISTRY_SCOPE_REGISTRY_BYTES;
  _ ← ensure (bool_decide (sd_kind document = REGISTRY_SCOPE_REGISTRY_KIND)
              && (sd_schema document =? REGISTRY_SCOPE_REGISTRY_SCHEMA)%N
              && (length (sd_scopes document) <=? MAX_REGISTERED_REGISTRY_SCOPES)%nat)
        RegistryScopeInvalid "registry-scope registry schema or count is invalid";
  try_for register_scope ∅ (sd_scopes document).
End encoding.

(** ** Where a scope can be *)

Lemma str_map_components f sep s :
  (forall b, f b = sep <-> b = sep) -> str_split sep (str_map f s) = str_map f <$> str_split sep s.
Proof.
  intros Hf. unfold str_split, str_map. rewrite as_of_bytes.
  assert (forall l, split_on sep (f <$> l) = fmap f <$> split_on sep l) as ->.
  { induction l as [|c l IH]; [done|]. cbn.
    destruct (decide (c = sep)) as [->|Hc].
    - rewrite decide_True by (by apply Hf). by rewrite IH.
    - rewrite decide_False by (by rewrite Hf). rewrite IH.
      by destruct (split_on sep l). }
  rewrite <- !list_fmap_compose. apply list_fmap_ext. intros i x _. cbn.
  by rewrite as_of_bytes.
Qed.

Lemma to_ascii_lower_sep b : to_ascii_lower b = key_sep <-> b = key_sep.
Proof. destruct b as [[] [] [] [] [] [] [] []]; vm_compute; split; congruence. Qed.

Lemma key_components_fold s :
  key_components (to_ascii_lowercase s) = to_ascii_lowercase <$> key_components s.
Proof. apply str_map_components, to_ascii_lower_sep. Qed.

(** A component that names a key of its own. *)
Definition plain_key_component (c : string) : Prop := c <> "" /\ c <> "." /\ c <> "..".

Lemma bad_key_component_false c : bad_key_component c = false <-> plain_key_component c.
Proof.
  unfold bad_key_component, plain_key_component.
  rewrite !orb_false_iff, !bool_decide_eq_false. tauto.
Qed.

Record subkey_wf (value : string) (publisher product : string) (rest : list string) : Prop := {
  sw_components : key_components value = "SOFTWARE" :: publisher :: product :: rest;
  sw_plain : Forall plain_key_component (publisher :: product :: rest);
  sw_length : (str_len value <= MAX_REGISTRY_SUBKEY_BYTES)%nat;
  sw_text : has_control value = false /\ ("/"%char ∉ as_bytes value);
  sw_allowed : publisher_allows (to_ascii_lowercase publisher) (to_ascii_lowercase product)
                 (3 + length rest) = true;
}.

Lemma product_key_is_allowed_true value :
  product_key_is_allowed (to_ascii_lowercase value) = true <->
  exists hive publisher product rest,
    key_components value = hive :: publisher :: product :: rest
    /\ to_ascii_lowercase hive = "software"
    /\ publisher_allows (to_ascii_lowercase publisher) (to_ascii_lowercase product)
         (3 + length rest) = true.
Proof.
  unfold product_key_is_allowed. rewrite key_components_fold.
  destruct (key_components value) as [|hive [|publisher [|product rest]]]; cbn [fmap list_fmap].
  1-3: by split; [|intros (? & ? & ? & ? & ? & _)].
  cbn [length]. rewrite length_fmap. split.
  - case_decide as Hh; [|done]. intros Ha. by do 4 eexists.
  - intros (? & ? & ? & ? & ? & Hh & Ha). simplify_eq. by rewrite decide_True.
Qed.

Lemma starts_with_iff p s :
  starts_with p s = true <-> exists r, as_bytes s = as_bytes p ++ r.
Proof.
  unfold starts_with. revert s. induction p as [|c p IH]; intros s; cbn.
  { split; [by eexists|by destruct s]. }
  destruct s as [|d s]; cbn; [by split; [|intros []]|].
  destruct (ascii_dec c d) as [->|Hne].
  - rewrite IH. split; intros [r Hr]; exists r; [by rewrite Hr|by injection Hr].
  - split; [done|]. intros [r Hr]. by injection Hr.
Qed.

Lemma split_on_last sep l : split_on sep (l ++ [sep]) = split_on sep l ++ [[]].
Proof.
  induction l as [|c l IH]; cbn; [by rewrite decide_True|].
  rewrite IH. case_decide; [done|].
  pose proof (split_on_not_nil sep l). by destruct (split_on sep l).
Qed.

Lemma key_components_join s :
  as_bytes s = join_with key_sep (as_bytes <$> key_components s).
Proof.
  unfold key_components, str_split. rewrite <- list_fmap_compose.
  rewrite (list_fmap_ext _ id) by (intros; apply as_of_bytes).
  by rewrite list_fmap_id, join_split.
Qed.

Lemma software_prefix value :
  starts_with "SOFTWARE\" value = true <->
  exists c cs, key_components value = "SOFTWARE" :: c :: cs.
Proof.
  rewrite starts_with_iff. split.
  - intros [r Hr]. unfold key_components, str_split. rewrite Hr.
    change (as_bytes "SOFTWARE\" ++ r) with (as_bytes "SOFTWARE" ++ key_sep :: r).
    rewrite split_on_app by (by apply (bool_decide_unpack _)).
    pose proof (split_on_not_nil key_sep r) as Hne.
    destruct (split_on key_sep r) as [|c cs]; [done|]. by do 2 eexists.
  - intros (c & cs & E). rewrite key_components_join, E.
    exists (join_with key_sep (as_bytes <$> c :: cs)). done.
Qed.

(** A registry scope is accepted exactly at a key
    [SOFTWARE\publisher\product...] of bounded length, without control
    characters, slashes or empty, dot or dot-dot components, whose publisher
    and product, compared without case, are outside the namespaces of Windows
    and of platforms that load code into other processes. *)
Lemma validate_registry_subkey_iff value :
  validate_registry_subkey value = Ok tt <->
  exists publisher product rest, subkey_wf value publisher product rest.
Proof.
  unfold validate_registry_subkey. split.
  - intros Hv. ok_inv. bool_inv. rewrite product_key_is_allowed_true in *.
    destruct Hx0 as (hive & publisher & product & rest & E & Hh & Ha).
    assert (hive = "SOFTWARE") as ->.
    { match goal with H : starts_with _ _ = true |- _ =>
        apply software_prefix in H as (c & cs & E') end. congruence. }
    exists publisher, product, rest. split; [done| |lia|done|done].
    apply Forall_forall. intros c Hc. apply bad_key_component_false.
    destruct (bad_key_component c) eqn:Eb; [|done].
    match goal with H : existsb _ _ = false |- _ => rewrite <- H end.
    symmetry. apply existsb_exists. exists c. split; [|done].
    rewrite E. apply list_elem_of_In. by right.
  - intros (publisher & product & rest & [Ec Hp Hl [Ht Hs] Ha]).
    assert (starts_with "SOFTWARE\" value = true) as Hpre
      by (apply software_prefix; eauto).
    assert (existsb bad_key_component (key_components value) = false) as Hb.
    { apply not_true_iff_false. intros (c & Hc & Hbad)%existsb_exists.
      rewrite Ec in Hc. destruct Hc as [<-|Hc]; [done|].
      apply list_elem_of_In in Hc. rewrite Forall_forall in Hp.
      apply Hp, bad_key_component_false in Hc. congruence. }
    assert (last_byte value <> Some key_sep) as Hlast.
    { unfold last_byte. intros [l El]%last_Some. pose proof Hb as Hb'. unfold key_components, str_split in Hb'.
      rewrite El, split_on_last, fmap_app, existsb_app in Hb'.
      apply orb_false_iff in Hb' as [_ Hb']. done. }
    rewrite Hpre, Hb, Ht, (has_nul_control _ Ht).
    rewrite (proj2 (Nat.ltb_ge _ _) Hl), !bool_decide_false by done. mred.
    replace (product_key_is_allowed _) with true; [done|]. symmetry.
    apply product_key_is_allowed_true. by do 4 eexists.
Qed.

(** Namespaces a scope must not touch, in lower case. *)
Definition PROTECTED_NAMESPACES : list (list string) :=
  ((fun p => ["software"; p]) <$> FORBIDDEN_PUBLISHERS) ++
  [["software"; "google"; "chrome"]; ["software"; "microsoft"; "windows"];
   ["software"; "microsoft"; "windows nt"]].

Definition protected_overlap (components : list string) (ns : list string) : bool :=
  bool_decide (ns `prefix_of` components) || bool_decide (components `prefix_of` ns).

Lemma prefix_two {A} (a b c d : A) l : [a; b] `prefix_of` c :: d :: l -> a = c /\ b = d.
Proof. intros [k Hk]. by injection Hk as -> -> _. Qed.

Lemma prefix_long {A} (a b c : A) l k : a :: b :: c :: l `prefix_of` k -> (3 <= length k)%nat.
Proof. intros [m ->]. cbn. lia. Qed.

(** C23: an accepted scope, compared component by component without case, is
    neither inside a protected namespace nor above one: no key of COM, of the
    Windows or policy trees, of browser hosts or of graphics layers can be
    reached or contained by a scope. *)
Theorem registry_scope_outside_protected value ns :
  validate_registry_subkey value = Ok tt -> ns ∈ PROTECTED_NAMESPACES ->
  protected_overlap (to_ascii_lowercase <$> key_components value) ns = false.
Proof.
  intros (publisher & product & rest & [Ec _ _ _ Ha])%validate_registry_subkey_iff Hns.
  unfold protected_overlap. rewrite orb_false_iff, !bool_decide_eq_false, Ec.
  cbn [fmap list_fmap]. revert Ha. unfold publisher_allows.
  generalize (to_ascii_lowercase publisher) (to_ascii_lowercase product). intros p q Ha.
  case_decide as Hf; [done|].
  apply elem_of_app in Hns as [(n & -> & Hn)%list_elem_of_fmap|Hns].
  - split.
    + intros [_ ->]%prefix_two. done.
    + intros Hl%prefix_long. cbn in Hl. lia.
  - rewrite !elem_of_cons in Hns. destruct Hns as [->|[->|[->|Hns]]];
      [..|by apply not_elem_of_nil in Hns]; (split; [intros [k [= -> -> _]]|]);
      try (intros [k [= <- <- _]]); repeat case_decide; bool_inv; try done.
    all: by destruct (bool_decide_reflect (q = "chrome")).
Qed.

Lemma registry_scope_outside_protected_witness :
  validate_registry_subkey "SOFTWARE\Studio\Great Game" = Ok tt /\
  protected_overlap (to_ascii_lowercase <$> key_components "SOFTWARE\Studio\Great Game")
    ["software"; "classes"] = false.
Proof.
  split; [by vm_compute|]. apply registry_scope_outside_protected; [by vm_compute|].
  by apply (bool_decide_unpack _).
Defined.

(** ** Invariant, ownership and round trip *)

Section invariant.
Context `{UnicodeCase}.

Definition scopes_wf (scopes : RegistryScopeRegistry) : Prop :=
  keyed scope_id scopes
  /\ map_Forall (fun _ s => validate_stored_scope s = Ok tt) scopes
  /\ (size scopes <= MAX_REGISTERED_REGISTRY_SCOPES)%nat.

Lemma scopes_wf_empty : scopes_wf ∅.
Proof. split_and!; [apply map_Forall_empty..|]. rewrite map_size_empty. lia. Qed.

Lemma register_scope_iff scopes s scopes' :
  register_scope scopes s = Ok scopes' <->
  validate_stored_scope s = Ok tt /\
  (scopes !! scope_id s = Some s /\ scopes' = scopes
   \/ scopes !! scope_id s = None /\ (size scopes < MAX_REGISTERED_REGISTRY_SCOPES)%nat
      /\ scopes' = <[scope_id s := s]> scopes).
Proof.
  unfold register_scope. split.
  - intros Hr. ok_inv. split; [done|]. destruct (scopes !! scope_id s) as [e|] eqn:E.
    + case_decide; ok_inv; subst. auto.
    + ok_inv. bool_inv. auto.
  - intros [-> [[-> ->]|(-> & Hs & ->)]]; mred; [by rewrite decide_True|].
    by rewrite (proj2 (Nat.ltb_lt _ _) Hs).
Qed.

Lemma resolve_owned_iff scopes id owner s :
  resolve_owned scopes id owner = Ok s <-> scopes !! id = Some s /\ scope_owner_sid s = owner.
Proof.
  unfold resolve_owned. split.
  - intros Hr. ok_inv. bool_inv. by subst.
  - intros [-> Ho]. mred. by rewrite bool_decide_true.
Qed.

Lemma unregister_scope_iff scopes id owner s scopes' :
  unregister_scope scopes id owner = Ok (s, scopes') <->
  scopes !! id = Some s /\ scope_owner_sid s = owner /\ scopes' = delete id scopes.
Proof.
  unfold unregister_scope. split.
  - intros Hu. ok_inv. apply resolve_owned_iff in Hx as [? ?]. by simplify_eq.
  - intros (Hl & Ho & ->). rewrite (proj2 (resolve_owned_iff _ _ _ _) (conj Hl Ho)). mred.
    by rewrite Hl.
Qed.

Inductive scope_event :=
  | ScopeRegistered (s : RegisteredRegistryScope)
  | ScopeUnregistered (id owner : string).

Inductive scope_step : RegistryScopeRegistry -> scope_event -> RegistryScopeRegistry -> Prop :=
  | scope_step_register scopes s scopes' :
      register_scope scopes s = Ok scopes' -> scope_step scopes (ScopeRegistered s) scopes'
  | scope_step_unregister scopes id owner s scopes' :
      unregister_scope scopes id owner = Ok (s, scopes') ->
      scope_step scopes (ScopeUnregistered id owner) scopes'.

Lemma scope_step_wf scopes ev scopes' :
  scopes_wf scopes -> scope_step scopes ev scopes' -> scopes_wf scopes'.
Proof.
  intros (Hk & Hv & Hs) Hstep. inversion Hstep as [? s0 ? Hr|? id0 owner s0 ? Hu]; subst.
  - apply register_scope_iff in Hr as (Hval & [[Hl ->]|(Hn & Hlt & ->)]); [done|].
    split_and!; [by apply map_Forall_insert_2..|].
    rewrite map_size_insert_None by done. lia.
  - apply unregister_scope_iff in Hu as (Hl & <- & ->).
    split_and!; [by apply map_Forall_delete..|].
    etransitivity; [|exact Hs]. apply map_subseteq_size, delete_subseteq.
Qed.

(** A change of the scope registry keeps its invariant (every scope under
    its own identifier, each one valid, at most 256), and a registered scope
    keeps its key, its allow list and its owner: it can be neither replaced
    nor widened, only removed, and only by its owner. *)
Theorem scope_step_protected scopes ev scopes' :
  scopes_wf scopes -> scope_step scopes ev scopes' ->
  scopes_wf scopes' /\
  forall id s, scopes !! id = Some s ->
    scopes' !! id = Some s \/ ev = ScopeUnregistered id (scope_owner_sid s).
Proof.
  intros Hwf Hstep. split; [by eapply scope_step_wf|]. intros id s Hl.
  inversion Hstep as [? s0 ? Hr|? id0 owner s0 ? Hu]; subst.
  - apply register_scope_iff in Hr as (Hval & [[Hl' ->]|(Hn & Hlt & ->)]); [auto|].
    left. rewrite lookup_insert_ne; congruence.
  - apply unregister_scope_iff in Hu as (Hl' & <- & ->).
    destruct (decide (id = id0)) as [->|Hne]; [right|left; by rewrite lookup_delete_ne].
    rewrite Hl in Hl'. by simplify_eq.
Qed.

Context `{SerdeJson, !Reader RegistryScopeRegistryDocument}.

Lemma decode_scopes_wf bytes scopes : decode_scopes bytes = Ok scopes -> scopes_wf scopes.
Proof.
  unfold decode_scopes. intros Hd. ok_inv.
  eapply try_for_inv; [|exact scopes_wf_empty|exact Hd].
  intros a s b Ha Hr. eapply scope_step_wf; [exact Ha|by constructor].
Qed.

(** A registry that was encoded for the disk is read back as itself. *)
Lemma decode_encode_scopes `{!ReaderLaws RegistryScopeRegistryDocument} scopes bytes :
  scopes_wf scopes -> encode_scopes scopes = Ok bytes -> decode_scopes bytes = Ok scopes.
Proof.
  intros (Hk & Hv & Hs) He. unfold encode_scopes in He. ok_inv. bool_inv. subst.
  unfold decode_scopes. rewrite (parse_canonical_encoded _ _ _ _ _ Hx Hx0) by done.
  mred. cbn [sd_kind sd_schema sd_scopes]. rewrite bool_decide_true by done. mred.
  rewrite N.eqb_refl. mred. rewrite length_map_values, (proj2 (Nat.leb_le _ _) Hs). mred.
  apply (try_for_map_values scope_id (fun s => validate_stored_scope s = Ok tt)
    MAX_REGISTERED_REGISTRY_SCOPES); [|done..].
  intros m a Ha Hn Hlt. apply register_scope_iff. auto.
Qed.
End invariant.
