(* ===== verification/Protocol.v ===== *)
(** * The pipe protocol

    src/src/protocol.rs: [Request] and [decode_request], the strict decoding of
    one message.  The JSON reader is the crate's ([Reader Request]). *)

From S2P Require Import Prelude Errors Identifiers Json Roots FileSet RegistrySet RegistryScopes.

Definition PROTOCOL_MAJOR : N := 1.
Definition MAX_IPC_MESSAGE_BYTES : nat := 64 * 1024.

Inductive Request :=
  | GetStatus (protocol_major : N)
  | GetRootStatus (protocol_major : N) (root_id : string)
  | GetRegistryScopeStatus (protocol_major : N) (scope_id : string)
  | RegisterRoot (protocol_major : N) (root_id product_id : string) (root_kind : RootKind)
      (path : string)
  | UnregisterRoot (protocol_major : N) (root_id : string)
  | RegisterRegistryScope (protocol_major : N) (scope_id product_id : string)
      (view : RegistryView) (subkey : string) (allowed_values : list AllowedRegistryValue)
  | UnregisterRegistryScope (protocol_major : N) (scope_id : string)
  | ApplyRegistrySet (protocol_major : N) (scope_id manifest_path : string)
  | PrepareFileSet (protocol_major : N) (root_id manifest_path staging_path : string)
  | CommitJob (protocol_major : N) (job_id : string)
  | GetJobStatus (protocol_major : N) (job_id : string).

Definition protocol_major (r : Request) : N :=
  match r with
  | GetStatus m | GetRootStatus m _ | GetRegistryScopeStatus m _ | RegisterRoot m _ _ _ _
  | UnregisterRoot m _ | RegisterRegistryScope m _ _ _ _ _ | UnregisterRegistryScope m _
  | ApplyRegistrySet m _ _ | PrepareFileSet m _ _ _ | CommitJob m _ | GetJobStatus m _ => m
  end.

Definition validate_job_id (value : string) : Result () :=
  ensure (valid_job_identifier value) ProtocolInvalid "IPC job identifier is invalid".

Definition validate_id (value : string) : Result () :=
  ensure (valid_identifier value) ProtocolInvalid "IPC identifier is invalid".

Definition validate_client_path (value : string) : Result () :=
  ensure (negb ((str_len value =? 0)%nat || (MAX_PATH_BYTES <? str_len value)%nat
                || has_nul value))
    ProtocolInvalid "IPC client path is invalid".

Section decoding.
Context `{UnicodeCase}.

Definition validate_request (request : Request) : Result () :=
  match request with
  | GetStatus _ => Ok tt
  | GetRootStatus _ root_id => validate_id root_id
  | GetRegistryScopeStatus _ scope_id => validate_id scope_id
  | RegisterRoot _ root_id product_id _ path =>
      _ ← validate_id root_id;
      _ ← validate_id product_id;
      _ ← validate_client_path path;
      Ok tt
  | UnregisterRoot _ root_id => validate_id root_id
  | RegisterRegistryScope _ scope_id product_id _ subkey allowed_values =>
      _ ← validate_id scope_id;
      _ ← validate_id product_id;
      _ ← validate_client_path subkey;
      validate_allowed_registry_values allowed_values
  | UnregisterRegistryScope _ scope_id => validate_id scope_id
  | ApplyRegistrySet _ scope_id manifest_path =>
      _ ← validate_id scope_id;
      validate_client_path manifest_path
  | PrepareFileSet _ root_id manifest_path staging_path =>
      _ ← validate_id root_id;
      _ ← validate_client_path manifest_path;
      validate_client_path staging_path
  | CommitJob _ job_id | GetJobStatus _ job_id => validate_job_id job_id
  end.

Definition decode_request `{!Reader Request} (bytes : list byte) : Result Request :=
  _ ← ensure (length bytes <=? MAX_IPC_MESSAGE_BYTES)%nat ProtocolTooLarge
        "IPC message exceeds 64 KiB";
  request ← ok_or (from_slice bytes) ProtocolInvalid
              "IPC message is not a supported strict request";
  _ ← ensure (protocol_major request =? PROTOCOL_MAJOR)%N ProtocolVersion
        "IPC protocol major is unsupported";
  _ ← validate_request request;
  Ok request.
End decoding.

(** ** What an accepted request satisfies *)

(** The identifiers, paths, job identifiers and allow lists a request names. *)
Definition request_ids (r : Request) : list string :=
  match r with
  | GetRootStatus _ id | GetRegistryScopeStatus _ id | UnregisterRoot _ id
  | UnregisterRegistryScope _ id | ApplyRegistrySet _ id _ | PrepareFileSet _ id _ _ => [id]
  | RegisterRoot _ id product _ _ | RegisterRegistryScope _ id product _ _ _ => [id; product]
  | GetStatus _ | CommitJob _ _ | GetJobStatus _ _ => []
  end.

Definition request_paths (r : Request) : list string :=
  match r with
  | RegisterRoot _ _ _ _ path => [path]
  | RegisterRegistryScope _ _ _ _ subkey _ => [subkey]
  | ApplyRegistrySet _ _ manifest => [manifest]
  | PrepareFileSet _ _ manifest staging => [manifest; staging]
  | _ => []
  end.

Definition request_jobs (r : Request) : list string :=
  match r with CommitJob _ id | GetJobStatus _ id => [id] | _ => [] end.

Definition request_allowed (r : Request) : option (list AllowedRegistryValue) :=
  match r with RegisterRegistryScope _ _ _ _ _ allowed => Some allowed | _ => None end.

Definition client_path_ok (p : string) : Prop :=
  (0 < str_len p <= MAX_PATH_BYTES)%nat /\ (zero ∉ as_bytes p).

Section accepted.
Context `{UnicodeCase}.

Record request_wf (r : Request) : Prop := {
  rw_major : protocol_major r = PROTOCOL_MAJOR;
  rw_ids : Forall (fun id => valid_identifier id = true) (request_ids r);
  rw_paths : Forall client_path_ok (request_paths r);
  rw_jobs : Forall (fun id => valid_job_identifier id = true) (request_jobs r);
  rw_allowed : forall allowed, request_allowed r = Some allowed ->
                 validate_allowed_registry_values allowed = Ok tt;
}.

Lemma validate_client_path_Ok p u : validate_client_path p = Ok u <-> client_path_ok p.
Proof.
  unfold validate_client_path, client_path_ok, has_nul. rewrite ensure_Ok. split.
  - intros Hg. bool_inv. split; [lia|done].
  - intros [Hl Hn]. rewrite (bool_decide_false _ Hn).
    rewrite (proj2 (Nat.eqb_neq _ _)), (proj2 (Nat.ltb_ge _ _)) by lia. done.
Qed.

Lemma validate_id_Ok id u : validate_id id = Ok u <-> valid_identifier id = true.
Proof. apply ensure_Ok. Qed.

Lemma validate_job_id_Ok id u : validate_job_id id = Ok u <-> valid_job_identifier id = true.
Proof. apply ensure_Ok. Qed.

Lemma bind_unit_Ok (m k : Result ()) :
  (_ ← m; k) = Ok tt <-> m = Ok tt /\ k = Ok tt.
Proof. rewrite bind_Ok. split; [intros ([] & ? & ?); auto|intros []; eauto]. Qed.

Lemma validate_request_iff r :
  validate_request r = Ok tt <->
  Forall (fun id => valid_identifier id = true) (request_ids r)
  /\ Forall client_path_ok (request_paths r)
  /\ Forall (fun id => valid_job_identifier id = true) (request_jobs r)
  /\ (forall allowed, request_allowed r = Some allowed ->
        validate_allowed_registry_values allowed = Ok tt).
Proof.
  destruct r; cbn [validate_request request_ids request_paths request_jobs request_allowed];
    rewrite ?bind_unit_Ok, ?validate_id_Ok, ?validate_job_id_Ok, ?validate_client_path_Ok;
    rewrite ?Forall_cons, ?Forall_nil; naive_solver.
Qed.

(** A message is accepted exactly when it has at most 64 KiB, the reader
    decodes it, its protocol major is the service's, and every identifier,
    path, job identifier and allow list in it is valid. *)
Theorem decode_request_iff `{!Reader Request} bytes r :
  decode_request bytes = Ok r <->
  (length bytes <= MAX_IPC_MESSAGE_BYTES)%nat /\ from_slice bytes = Some r /\ request_wf r.
Proof.
  unfold decode_request. split.
  - intros Hd. ok_inv. subst. bool_inv. apply validate_request_iff in Hx2 as (?&?&?&?).
    done.
  - intros (Hl & -> & [Hm Hi Hp Hj Ha]). rewrite (proj2 (Nat.leb_le _ _) Hl). mred.
    rewrite Hm, N.eqb_refl. mred. by rewrite (proj2 (validate_request_iff r)).
Qed.
End accepted.
