(* ===== verification/PipeServer.v ===== *)
(** * The server of the pipe

    src/src/windows_pipe.rs: several overlapped instances of the named pipe, each
    listening, reading or held, and the loop that waits for the next request.  The
    kernel is an interface; a status is zero or an error of Windows.  The OVERLAPPED
    and the buffer of an instance are the kernel's while an operation is in flight:
    using or freeing them then is undefined behaviour, a crash of the model. *)

From S2P Require Import Prelude Errors Effects Protocol.

Definition SERVICE_PIPE_INSTANCES : N := 4.
(** Durations in milliseconds. *)
Definition PIPE_READ_TIMEOUT : N := 10 * 1000.
Definition PIPE_WRITE_TIMEOUT : N := 10 * 1000.

Definition PIPE_NAME : string := "\\.\pipe\SE7ENService-v1".

(** The constants of winerror.h and winbase.h. *)
Definition ERROR_NO_DATA : N := 232.
Definition ERROR_MORE_DATA : N := 234.
Definition ERROR_PIPE_CONNECTED : N := 535.
Definition ERROR_IO_INCOMPLETE : N := 996.
Definition ERROR_IO_PENDING : N := 997.
Definition WAIT_TIMEOUT : N := 258.

(** [pipe_error]: HRESULT_FROM_WIN32 keeps the low 16 bits of the code. *)
Definition pipe_error (c : ErrorCode) (detail : string) (status : N) : MaintenanceError :=
  with_platform_status c detail (N.land status 65535).

Definition milliseconds (duration : N) : N := N.min duration (u32_max - 1).

Definition read_error (status : N) : MaintenanceError :=
  if (status =? ERROR_MORE_DATA)%N
  then new_error ProtocolTooLarge "IPC request exceeds the message bound"
  else pipe_error ProtocolInvalid "IPC request could not be read as one bounded message" status.

(** ** Instances *)

Inductive Phase :=
  | Listening
  | Reading (deadline : N)
  | Held.

#[export] Instance Phase_eq_dec : EqDecision Phase.
Proof. solve_decision. Defined.

(** The handles are those of the instance's slot; [in_flight]: the kernel uses the
    OVERLAPPED and the buffer. *)
Record PipeInstance := { phase : Phase; in_flight : bool }.

Definition has_pending_io (i : PipeInstance) : bool :=
  match phase i with Listening | Reading _ => true | Held => false end.

(** What a read or connect completion produced. *)
Inductive Progress :=
  | Pending
  | Request (message : Result (list byte)).

Inductive PipeEvent :=
  | RequestOf (slot : nat) (message : Result (list byte))
  | Stop
  | Wake
  | Idle.

(** A call that hands out a handle. *)
Inductive Opened := OpenFailed | InvalidHandle | Handle.

(** The errors of the call and of [KernelHandle::new]. *)
Definition kernel_handle (o : Opened) (failed invalid : MaintenanceError) : Result () :=
  match o with OpenFailed => Err failed | InvalidHandle => Err invalid | Handle => Ok tt end.

Definition create_event (o : Opened) : Result () :=
  kernel_handle o (new_error TransactionIo "service event cannot be created")
    (new_error TransactionIo "service event handle is invalid").

(** ** The kernel *)

(** The calls of the code, by slot. *)
Class PipeKernel (K : Type) := {
  (** [Instant::now] *)
  pk_now : K -> N * K;
  (** the descriptor of the pipe can be made of its text *)
  pk_descriptor : K -> bool * K;
  (** [CreateNamedPipeW] with its name, the flag of the first instance and the bound *)
  pk_create : string -> bool -> N -> K -> bool * K;
  pk_event : K -> Opened * K;
  pk_disconnect : nat -> K -> bool * K;
  pk_connect : nat -> K -> N * K;
  pk_read : nat -> K -> N * K;
  pk_write : nat -> list byte -> K -> N * K;
  pk_cancel : nat -> K -> bool * K;
  (** [GetOverlappedResult], waiting or not: the status and the bytes transferred *)
  pk_result : nat -> bool -> K -> (N * N) * K;
  (** the buffer of the instance, as the kernel left it *)
  pk_buffer : nat -> K -> list byte;
  pk_wait_one : nat -> N -> K -> N * K;
  (** the stop event, the wake event, then those of the slots *)
  pk_wait_many : list nat -> N -> K -> N * K;
}.

Record PipeServer := {
  instances : list PipeInstance;
  ready : list (nat * Result (list byte));
  read_timeout : N;
  write_timeout : N;
  last_activity : N;
}.

Record ServerState (K : Type) := mkServer { server : PipeServer; kernel : K }.
Arguments mkServer {_} _ _.
Arguments server {_} _.
Arguments kernel {_} _.

Section server.
Context {K : Type} `{!PipeKernel K}.

Abbreviation State := (ServerState K).

Definition set_server (f : PipeServer -> PipeServer) : M State () :=
  modify (fun s => mkServer (f (server s)) (kernel s)).

Definition with_instances (l : list PipeInstance) (p : PipeServer) : PipeServer :=
  {| instances := l; ready := ready p; read_timeout := read_timeout p;
     write_timeout := write_timeout p; last_activity := last_activity p |}.
Definition with_ready (l : list (nat * Result (list byte))) (p : PipeServer) : PipeServer :=
  {| instances := instances p; ready := l; read_timeout := read_timeout p;
     write_timeout := write_timeout p; last_activity := last_activity p |}.
Definition with_activity (t : N) (p : PipeServer) : PipeServer :=
  {| instances := instances p; ready := ready p; read_timeout := read_timeout p;
     write_timeout := write_timeout p; last_activity := t |}.

(** A call of the kernel. *)
Definition kernel_call {A} (call : K -> A * K) : M State A := fun s =>
  let '(a, k) := call (kernel s) in (Done (Ok a), mkServer (server s) k).

Definition clock : M State N := kernel_call pk_now.

Definition update_instance (slot : nat) (f : PipeInstance -> PipeInstance) : M State () :=
  set_server (fun p => with_instances (alter f slot (instances p)) p).
Definition set_phase (slot : nat) (ph : Phase) : M State () :=
  update_instance slot (fun i => {| phase := ph; in_flight := in_flight i |}).
Definition set_in_flight (slot : nat) (b : bool) : M State () :=
  update_instance slot (fun i => {| phase := phase i; in_flight := b |}).

Definition instance (slot : nat) : M State PipeInstance := fun s =>
  lift (ok_or (instances (server s) !! slot) TransactionState "pipe instance does not exist") s.

(** The storage of the operation is written or freed. *)
Definition use_overlapped (slot : nat) : M State () :=
  i ← instance slot;
  if in_flight i then crash else pure tt.

Definition reset_overlapped (slot : nat) : M State () := use_overlapped slot.

(** Starts an operation on the OVERLAPPED of the instance. *)
Definition start (slot : nat) (call : nat -> K -> N * K) : M State N :=
  status ← kernel_call (call slot);
  _ ← set_in_flight slot (status =? ERROR_IO_PENDING)%N;
  pure status.

(** [GetOverlappedResult]: the operation has ended unless it says otherwise. *)
Definition overlapped_result (slot : nat) (wait : bool) : M State (N * N) :=
  r ← kernel_call (pk_result slot wait);
  _ ← (if wait || negb (fst r =? ERROR_IO_INCOMPLETE)%N then set_in_flight slot false else pure tt);
  pure r.

Definition create_instance (name : string) (first : bool) (bound : N) : M State () :=
  described ← kernel_call pk_descriptor;
  _ ← lift (ensure described RootUnauthorized "security descriptor could not be constructed");
  created ← kernel_call (pk_create name first bound);
  _ ← lift (ensure created TransactionIo
        (if first then "local maintenance pipe name is already in use"
         else "local maintenance pipe instance could not be created"));
  event ← kernel_call pk_event;
  _ ← lift (create_event event);
  set_server (fun p => with_instances (instances p ++ [{| phase := Held; in_flight := false |}]) p).

Definition cancel_pending (slot : nat) : M State () :=
  i ← instance slot;
  if has_pending_io i then
    _ ← kernel_call (pk_cancel slot);
    _ ← overlapped_result slot true;
    set_phase slot Held
  else pure tt.

Definition finish_read (slot : nat) : M State (list byte) :=
  '(status, transferred) ← overlapped_result slot false;
  _ ← set_phase slot Held;
  _ ← (if (status =? 0)%N then pure tt else fail (read_error status));
  gets (fun s => if (N.to_nat transferred <=? length (pk_buffer slot (kernel s)))%nat
                 then take (N.to_nat transferred) (pk_buffer slot (kernel s)) else []).

Definition start_read (slot : nat) : M State Progress :=
  _ ← reset_overlapped slot;
  started ← start slot pk_read;
  if (started =? 0)%N then
    now ← clock;
    timeout ← gets (fun s => read_timeout (server s));
    _ ← set_phase slot (Reading (now + timeout)%N);
    message ← attempt (finish_read slot);
    pure (Request message)
  else if (started =? ERROR_IO_PENDING)%N then
    now ← clock;
    timeout ← gets (fun s => read_timeout (server s));
    _ ← set_phase slot (Reading (now + timeout)%N);
    pure Pending
  else
    _ ← set_phase slot Held;
    pure (Request (Err (read_error started))).

(** The four attempts to connect. *)
Fixpoint connect (attempts : nat) (slot : nat) : M State Progress :=
  match attempts with
  | O => fail (new_error TransactionIo "named-pipe instance could not listen")
  | S attempts' =>
      _ ← reset_overlapped slot;
      status ← start slot pk_connect;
      if (status =? 0)%N || (status =? ERROR_PIPE_CONNECTED)%N then start_read slot
      else if (status =? ERROR_IO_PENDING)%N then
        _ ← set_phase slot Listening; pure Pending
      else if (status =? ERROR_NO_DATA)%N then
        _ ← kernel_call (pk_disconnect slot); connect attempts' slot
      else fail (pipe_error TransactionIo "named-pipe connection failed" status)
  end.

(** [Instance::listen] *)
Definition listen_again (slot : nat) : M State Progress :=
  _ ← cancel_pending slot;
  _ ← kernel_call (pk_disconnect slot);
  connect 4 slot.

Definition complete (slot : nat) : M State Progress :=
  i ← instance slot;
  match phase i with
  | Listening =>
      '(status, _) ← overlapped_result slot false;
      _ ← set_phase slot Held;
      if (status =? 0)%N then start_read slot else listen_again slot
  | Reading _ => message ← attempt (finish_read slot); pure (Request message)
  | Held => pure Pending
  end.

Definition write (slot : nat) (bytes : list byte) : M State () :=
  timeout ← gets (fun s => write_timeout (server s));
  _ ← reset_overlapped slot;
  started ← start slot (fun i => pk_write i bytes);
  _ ← (if (started =? 0)%N then pure tt
       else if (started =? ERROR_IO_PENDING)%N then
         wait ← kernel_call (pk_wait_one slot (milliseconds timeout));
         if (wait =? 0)%N then pure tt
         else
           _ ← kernel_call (pk_cancel slot);
           _ ← overlapped_result slot true;
           fail (new_error TransactionIo "IPC response write timed out")
       else fail (pipe_error TransactionIo "IPC response could not be written" started));
  '(status, transferred) ← overlapped_result slot false;
  _ ← (if (status =? 0)%N then pure tt
       else fail (pipe_error TransactionIo "IPC response write did not complete" status));
  lift (ensure (transferred =? N.of_nat (length bytes))%N TransactionIo
          "IPC response write was incomplete").

(** [Drop for Instance]: the storage is freed after the kernel let go of it. *)
Definition drop_instance (slot : nat) : M State () :=
  _ ← cancel_pending slot; use_overlapped slot.

(** ** The server *)

(** [PipeServer::listen] *)
Definition listen (slot : nat) : M State () :=
  _ ← instance slot;
  progress ← listen_again slot;
  match progress with
  | Request message => set_server (fun p => with_ready (ready p ++ [(slot, message)]) p)
  | Pending => pure tt
  end.

Definition new_server (read_timeout write_timeout now : N) : PipeServer :=
  {| instances := []; ready := []; read_timeout := read_timeout;
     write_timeout := write_timeout; last_activity := now |}.

(** [PipeServer::create] *)
Definition create (name : string) (bound read_timeout write_timeout : N) : M State () :=
  now ← clock;
  _ ← set_server (fun _ => new_server read_timeout write_timeout now);
  _ ← for_each (fun index => create_instance name (index =? 0)%nat (N.max bound 1))
        (seq 0 (N.to_nat (N.max bound 1)));
  count ← gets (fun s => length (instances (server s)));
  for_each listen (seq 0 count).

(** [PipeServer::pipe]: whether the handle may be used to impersonate the client. *)
Definition pipe (slot : nat) (p : PipeServer) : bool :=
  match instances p !! slot with Some i => bool_decide (phase i = Held) | None => false end.

Definition touch : M State () := now ← clock; set_server (with_activity now).

(** [PipeServer::respond]; the result of the write is for diagnostics only. *)
Definition respond (slot : nat) (bytes : list byte) : M State (Result ()) :=
  _ ← instance slot;
  written ← attempt (write slot bytes);
  _ ← touch;
  _ ← listen slot;
  pure written.

Definition release (slot : nat) : M State () := _ ← touch; listen slot.

Definition busy (p : PipeServer) : bool :=
  existsb (fun i => negb (bool_decide (phase i = Listening))) (instances p).

(** The slots of a list from [n] on whose instance satisfies a test. *)
Fixpoint slots_where (test : Phase -> bool) (n : nat) (l : list PipeInstance) : list nat :=
  match l with
  | [] => []
  | i :: l' => if test (phase i) then n :: slots_where test (S n) l' else slots_where test (S n) l'
  end.

Definition waiting (ph : Phase) : bool := negb (bool_decide (ph = Held)).
Definition expired (now : N) (ph : Phase) : bool :=
  match ph with Reading deadline => (deadline <=? now)%N | _ => false end.

Definition earliest (a b : option N) : option N :=
  match a, b with
  | Some x, Some y => Some (N.min x y)
  | Some x, None => Some x
  | None, _ => b
  end.

Definition read_deadline (l : list PipeInstance) : option N :=
  foldl (fun d i => match phase i with Reading t => earliest d (Some t) | _ => d end) None l.

Definition expire_reads : M State () :=
  now ← clock;
  slots ← gets (fun s => slots_where (expired now) 0 (instances (server s)));
  for_each listen slots.

(** The wait ended for the event of a slot. *)
Definition signaled (slot : nat) : M State () :=
  i ← instance slot;
  progress ← complete slot;
  match progress with
  | Request message => set_server (fun p => with_ready (ready p ++ [(slot, message)]) p)
  | Pending => if bool_decide (phase i = Listening) then touch else pure tt
  end.

(** One round of [PipeServer::next_event]. *)
Definition next_round (idle_timeout : N) : M State (option PipeEvent) :=
  queue ← gets (fun s => ready (server s));
  match queue with
  | (slot, message) :: rest =>
      _ ← set_server (with_ready rest);
      _ ← touch;
      pure (Some (RequestOf slot message))
  | [] =>
      now ← clock;
      p ← gets server;
      let slots := slots_where waiting 0 (instances p) in
      let idle_deadline := if busy p then None else Some (last_activity p + idle_timeout)%N in
      let timeout := match earliest (read_deadline (instances p)) idle_deadline with
                     | Some until => milliseconds (until - now)
                     | None => u32_max
                     end in
      wait ← kernel_call (pk_wait_many slots timeout);
      if (wait =? WAIT_TIMEOUT)%N then
        _ ← expire_reads;
        match idle_deadline with
        | Some idle =>
            later ← clock;
            busy_now ← gets (fun s => busy (server s));
            pure (if (idle <=? later)%N && negb busy_now then Some Idle else None)
        | None => pure None
        end
      else if (wait =? 0)%N then pure (Some Stop)
      else if (wait =? 1)%N then pure (Some Wake)
      else
        slot ← lift (ok_or (slots !! N.to_nat (wait - 2)) TransactionIo "named-pipe wait failed");
        _ ← signaled slot;
        pure None
  end.

(** [PipeServer::next_event]: the rounds are not bounded, [fuel] is that of the model. *)
Fixpoint next_event (fuel : nat) (idle_timeout : N) : M State PipeEvent :=
  match fuel with
  | O => out_of_fuel
  | S fuel' =>
      e ← next_round idle_timeout;
      match e with Some e => pure e | None => next_event fuel' idle_timeout end
  end.

(** The instances are dropped in their order. *)
Definition drop_server : M State () :=
  count ← gets (fun s => length (instances (server s)));
  for_each drop_instance (seq 0 count).
End server.
