(* ===== verification/PipeSafety.v ===== *)
(** * What the server of the pipe guarantees

    The storage of an operation in flight is never used again, and the held
    instances are those whose request is queued or owed an answer.  The specifications follow
    an instance through each operation ([with_slot]), then the server through its
    calls ([running], [stopped]) and its runs ([server_step]). *)

From stdpp Require Import relations.
From S2P Require Import Prelude Errors Effects Protocol PipeServer.

(** ** What the kernel promises *)

(** [pk_ended]: the event of the slot's operation is set. *)
Class PipeKernelLaws (K : Type) `{!PipeKernel K} := {
  pk_ended : nat -> K -> Prop;
  pk_read_ended i k k' : pk_read i k = (0%N, k') -> pk_ended i k';
  pk_write_ended i bytes k k' : pk_write i bytes k = (0%N, k') -> pk_ended i k';
  pk_wait_one_ended i t k k' : pk_wait_one i t k = (0%N, k') -> pk_ended i k';
  pk_wait_many_ended slots t k n k' i :
    pk_wait_many slots t k = (n, k') -> n <> WAIT_TIMEOUT -> (2 <= n)%N ->
    slots !! N.to_nat (n - 2) = Some i -> pk_ended i k';
  pk_now_ended i k t k' : pk_now k = (t, k') -> pk_ended i k -> pk_ended i k';
  pk_result_ended i k r k' :
    pk_result i false k = (r, k') -> pk_ended i k -> fst r <> ERROR_IO_INCOMPLETE;
}.

(** ** One instance *)

Definition put (slot : nat) (i : PipeInstance) (p : PipeServer) : PipeServer :=
  with_instances (<[slot := i]> (instances p)) p.

Lemma put_put slot i j p : put slot i (put slot j p) = put slot i p.
Proof. unfold put. cbn. by rewrite list_insert_insert_eq. Qed.

Lemma put_id slot i p : instances p !! slot = Some i -> put slot i p = p.
Proof. intros Hi. unfold put. rewrite list_insert_id by done. by destruct p. Qed.

Lemma lookup_put slot i p :
  slot < length (instances p) -> instances (put slot i p) !! slot = Some i.
Proof. intros. cbn. by rewrite list_lookup_insert_eq. Qed.

(** An operation in flight is the one the phase says is pending. *)
Definition io_ok (i : PipeInstance) : Prop := in_flight i = true -> has_pending_io i = true.

Definition free : PipeInstance := {| phase := Held; in_flight := false |}.

Definition settled (r : Progress) (i : PipeInstance) : Prop :=
  match r with Pending => has_pending_io i = true | Request _ => i = free end.

Lemma settled_io_ok r i : settled r i -> io_ok i.
Proof. by destruct r; [intros ? ?|intros -> [=]]. Qed.

Section one.
Context {K : Type} `{!PipeKernel K, !PipeKernelLaws K}.
Context (slot : nat) (p : PipeServer) (Hslot : slot < length (instances p)).

Abbreviation State := (ServerState K).

(** The state of the server [p] with the slot's instance [i]. *)
Definition with_slot (i : PipeInstance) (k : K) : State := mkServer (put slot i p) k.

Section rules.
Context {A : Type} (Q : A -> State -> Prop) (E : MaintenanceError -> State -> Prop) (C : State -> Prop).

Lemma wp_call (call : K -> A * K) i k :
  (forall a k', call k = (a, k') -> Q a (with_slot i k')) ->
  wp (kernel_call call) Q E C (with_slot i k).
Proof. intros HQ. unfold wp, kernel_call. cbn. destruct (call k) as [a k']. by apply HQ. Qed.
End rules.

Lemma wp_update f i k (Q : () -> State -> Prop) E C :
  Q tt (with_slot (f i) k) -> wp (update_instance slot f) Q E C (with_slot i k).
Proof.
  unfold update_instance, set_server, wp, modify, with_slot. cbn.
  enough (with_instances (alter f slot (<[slot:=i]> (instances p))) (put slot i p)
          = put slot (f i) p) as -> by done.
  unfold put, with_instances. cbn. f_equal.
  by rewrite !list_insert_alter, list_alter_alter_eq.
Qed.

Lemma wp_instance i k (Q : PipeInstance -> State -> Prop) E C :
  Q i (with_slot i k) -> wp (instance slot) Q E C (with_slot i k).
Proof. intros HQ. unfold instance, with_slot, wp. cbn [server]. by rewrite lookup_put. Qed.

Lemma wp_start call i k (Q : N -> State -> Prop) E C :
  (forall st k', call slot k = (st, k') ->
     Q st (with_slot {| phase := phase i; in_flight := (st =? ERROR_IO_PENDING)%N |} k')) ->
  wp (start slot call) Q E C (with_slot i k).
Proof.
  intros HQ. apply wp_bind, wp_call. intros st k' Hk. apply wp_bind, wp_update.
  apply wp_pure. by apply HQ.
Qed.

Lemma wp_result wait i k (Q : N * N -> State -> Prop) E C :
  (forall r k', pk_result slot wait k = (r, k') ->
     Q r (with_slot {| phase := phase i;
       in_flight := in_flight i && negb (wait || negb (fst r =? ERROR_IO_INCOMPLETE)%N) |} k')) ->
  wp (overlapped_result slot wait) Q E C (with_slot i k).
Proof.
  intros HQ. apply wp_bind, wp_call. intros r k' Hk. specialize (HQ r k' Hk).
  apply wp_bind. destruct (wait || _).
  - apply wp_update, wp_pure. by rewrite andb_false_r in HQ.
  - apply wp_pure, wp_pure. rewrite andb_true_r in HQ. by destruct i.
Qed.

Lemma wp_use i k (Q : () -> State -> Prop) E C :
  in_flight i = false -> Q tt (with_slot i k) -> wp (use_overlapped slot) Q E C (with_slot i k).
Proof. intros Hi HQ. apply wp_bind, wp_instance. by rewrite Hi. Qed.

(** The result of an operation that has ended. *)
Lemma wp_result_ended i k (Q : N * N -> State -> Prop) E C :
  pk_ended slot k ->
  (forall r k', Q r (with_slot {| phase := phase i; in_flight := false |} k')) ->
  wp (overlapped_result slot false) Q E C (with_slot i k).
Proof.
  intros Hk HQ. apply wp_result. intros r k' Hr.
  rewrite (proj2 (N.eqb_neq _ _) (pk_result_ended _ _ _ _ Hr Hk)), andb_false_r. apply HQ.
Qed.

Lemma wp_clock i k (Q : N -> State -> Prop) E C :
  (forall t k', pk_now k = (t, k') -> Q t (with_slot i k')) -> wp clock Q E C (with_slot i k).
Proof. apply wp_call. Qed.

(** *** The operations of an instance: no crash, and what becomes of it *)

Lemma cancel_pending_spec i k (Q : () -> State -> Prop) E C :
  io_ok i -> (forall k', Q tt (with_slot free k')) ->
  wp (cancel_pending slot) Q E C (with_slot i k).
Proof.
  intros Hi HQ. apply wp_bind, wp_instance. destruct (has_pending_io i) eqn:Ep.
  - apply wp_bind, wp_call. intros b k' _. apply wp_bind, wp_result. intros r k'' _.
    apply wp_update. rewrite andb_false_r. apply HQ.
  - apply wp_pure. destruct i as [[| |] [|]]; try discriminate Ep; [|apply HQ].
    by specialize (Hi eq_refl).
Qed.

Lemma finish_read_spec i k (Q : Result (list byte) -> State -> Prop) C :
  pk_ended slot k -> (forall r k', Q r (with_slot free k')) ->
  wp (finish_read slot) (fun b => Q (Ok b)) (fun e => Q (Err e)) C (with_slot i k).
Proof.
  intros Hk HQ. apply wp_bind, wp_result_ended; [done|]. intros [status n] k'.
  apply wp_bind, wp_update. apply wp_bind. destruct (status =? 0)%N; [apply wp_pure, wp_gets|];
    apply HQ.
Qed.

Lemma start_read_spec i k (Q : Progress -> State -> Prop) E :
  in_flight i = false -> (forall r i' k', settled r i' -> Q r (with_slot i' k')) ->
  wp (start_read slot) Q E (fun _ => False) (with_slot i k).
Proof.
  intros Hi HQ. apply wp_bind, wp_use; [done|]. apply wp_bind, wp_start. intros st k' Hst.
  destruct (N.eqb_spec st 0) as [->|Hne].
  - apply pk_read_ended in Hst. apply wp_bind, wp_clock. intros t k'' Ht.
    apply wp_bind, wp_gets, wp_bind, wp_update, wp_bind, wp_attempt.
    apply (finish_read_spec _ _ (fun m s => wp (pure (Request m)) Q E (fun _ => False) s));
      [by eapply pk_now_ended|]. intros. by apply wp_pure, HQ.
  - destruct (st =? ERROR_IO_PENDING)%N.
    + apply wp_bind, wp_clock. intros t k'' _. apply wp_bind, wp_gets, wp_bind, wp_update.
      by apply wp_pure, HQ.
    + apply wp_bind, wp_update, wp_pure, HQ. done.
Qed.

Lemma connect_spec n i k (Q : Progress -> State -> Prop) (E : MaintenanceError -> State -> Prop) :
  i = free -> (forall r i' k', settled r i' -> Q r (with_slot i' k')) ->
  (forall e k', E e (with_slot free k')) ->
  wp (connect n slot) Q E (fun _ => False) (with_slot i k).
Proof.
  intros -> HQ HE. revert k. induction n as [|n IH]; intros k; [apply HE|].
  apply wp_bind, wp_use; [done|]. apply wp_bind, wp_start. intros st k' _.
  destruct (_ || _) eqn:E1; [|destruct (st =? ERROR_IO_PENDING)%N].
  - apply start_read_spec; [|done]. apply orb_prop in E1 as [E1|E1]; by apply N.eqb_eq in E1 as ->.
  - by apply wp_bind, wp_update, wp_pure, HQ.
  - destruct (st =? ERROR_NO_DATA)%N; [|apply HE].
    apply wp_bind, wp_call. intros b k'' _. apply IH.
Qed.

Lemma listen_again_spec i k (Q : Progress -> State -> Prop) (E : MaintenanceError -> State -> Prop) :
  io_ok i -> (forall r i' k', settled r i' -> Q r (with_slot i' k')) ->
  (forall e k', E e (with_slot free k')) ->
  wp (listen_again slot) Q E (fun _ => False) (with_slot i k).
Proof.
  intros Hi HQ HE. apply wp_bind, cancel_pending_spec; [done|]. intros k'.
  apply wp_bind, wp_call. intros b k'' _. by apply connect_spec.
Qed.

Lemma complete_spec i k (Q : Progress -> State -> Prop) (E : MaintenanceError -> State -> Prop) :
  has_pending_io i = true -> pk_ended slot k ->
  (forall r i' k', settled r i' -> Q r (with_slot i' k')) ->
  (forall e k', E e (with_slot free k')) ->
  wp (complete slot) Q E (fun _ => False) (with_slot i k).
Proof.
  intros Hi Hk HQ HE. apply wp_bind, wp_instance. destruct i as [[|t|] b]; [| |discriminate Hi]; cbn.
  - apply wp_bind, wp_result_ended; [done|]. intros [st n] k'. apply wp_bind, wp_update.
    destruct (st =? 0)%N; [by apply start_read_spec|by apply listen_again_spec].
  - apply wp_bind, wp_attempt.
    apply (finish_read_spec _ _ (fun m s => wp (pure (Request m)) Q E (fun _ => False) s));
      [done|]. intros. by apply wp_pure, HQ.
Qed.

Lemma write_spec bytes k (Q : Result () -> State -> Prop) :
  (forall r k', Q r (with_slot free k')) ->
  wp (write slot bytes) (fun a => Q (Ok a)) (fun e => Q (Err e)) (fun _ => False) (with_slot free k).
Proof.
  intros HQ. apply wp_bind, wp_gets, wp_bind, wp_use; [done|]. apply wp_bind, wp_start.
  intros st k' Hst.
  assert (forall b k, pk_ended slot k ->
    wp ('(status, transferred) ← overlapped_result slot false;
        _ ← (if (status =? 0)%N then pure tt
             else fail (pipe_error TransactionIo "IPC response write did not complete" status));
        lift (ensure (transferred =? N.of_nat (length bytes))%N TransactionIo
                "IPC response write was incomplete"))
      (fun a => Q (Ok a)) (fun e => Q (Err e)) (fun _ => False)
      (with_slot {| phase := Held; in_flight := b |} k)) as Hend.
  { intros b k2 He. apply wp_bind, wp_result_ended; [done|]. intros [status n] k3. apply wp_bind.
    destruct (status =? 0)%N; [|apply HQ]. apply wp_pure, wp_lift; intros; apply HQ. }
  apply wp_bind. destruct (N.eqb_spec st 0) as [->|Hne].
  { apply wp_pure, Hend. by eapply pk_write_ended. }
  destruct (st =? ERROR_IO_PENDING)%N; [|apply HQ].
  apply wp_bind, wp_call. intros w k2 Hw. destruct (N.eqb_spec w 0) as [->|Hw0].
  { apply wp_pure, Hend. by eapply pk_wait_one_ended. }
  apply wp_bind, wp_call. intros b k3 _. apply wp_bind, wp_result. intros r k4 _.
  rewrite andb_false_r. apply HQ.
Qed.

Lemma drop_instance_spec i k (Q : () -> State -> Prop) E C :
  io_ok i -> (forall k', Q tt (with_slot free k')) -> wp (drop_instance slot) Q E C (with_slot i k).
Proof.
  intros Hi HQ. apply wp_bind, cancel_pending_spec; [done|]. intros k'. by apply wp_use.
Qed.
End one.

(** ** All instances *)

Definition io_safe (p : PipeServer) : Prop := forall j i, instances p !! j = Some i -> io_ok i.

Definition queued (p : PipeServer) : list nat := (ready p).*1.

(** The slots with a request: those of the queue and those that the caller has to
    answer are the held ones, each once. *)
Definition accounted (owed : list nat) (p : PipeServer) : Prop :=
  NoDup (queued p ++ owed) /\ forall j, j ∈ queued p ++ owed <-> pipe j p = true.

Definition accounted_but (slot : nat) (owed : list nat) (p : PipeServer) : Prop :=
  NoDup (slot :: queued p ++ owed) /\
  forall j, j <> slot -> (j ∈ queued p ++ owed <-> pipe j p = true).

Lemma pipe_put slot i p j :
  slot < length (instances p) ->
  pipe j (put slot i p) = if decide (j = slot) then bool_decide (phase i = Held) else pipe j p.
Proof.
  intros Hs. unfold pipe, put. cbn. destruct (decide (j = slot)) as [->|Hj].
  - by rewrite list_lookup_insert_eq.
  - by rewrite list_lookup_insert_ne.
Qed.

Lemma accounted_owed slot owed owed' p :
  accounted owed p -> owed ≡ₚ slot :: owed' -> accounted_but slot owed' p.
Proof.
  intros [Hn Hj] Hp.
  assert (queued p ++ owed ≡ₚ slot :: queued p ++ owed') as Hpp
    by (rewrite Hp; symmetry; apply Permutation_middle).
  split; [by rewrite <- Hpp|]. intros j Hne. rewrite <- Hj, Hpp, elem_of_cons. naive_solver.
Qed.

Lemma accounted_pending slot owed p i :
  accounted owed p -> instances p !! slot = Some i -> has_pending_io i = true ->
  accounted_but slot owed p.
Proof.
  intros [Hn Hj] Hi Hp. split; [|by intros]. constructor; [|done].
  rewrite Hj. unfold pipe. rewrite Hi. destruct i as [[| |] b]; try done.
Qed.

Lemma accounted_settle slot owed p r i :
  slot < length (instances p) -> accounted_but slot owed p -> settled r i ->
  accounted owed (match r with
                  | Pending => put slot i p
                  | Request m => with_ready (ready p ++ [(slot, m)]) (put slot i p)
                  end).
Proof.
  intros Hs [Hn Hj] Hr. destruct r as [|m]; cbn in Hr.
  - split; [by inversion Hn|]. intros j. rewrite pipe_put by done.
    change (queued (put slot i p)) with (queued p).
    destruct (decide (j = slot)) as [->|Hne]; [|by apply Hj].
    split; [by inversion Hn|]. by destruct i as [[| |] ?].
  - subst i. unfold accounted, queued. cbn. rewrite fmap_app. cbn.
    assert (((ready p).*1 ++ [slot]) ++ owed ≡ₚ slot :: queued p ++ owed) as Hp.
    { rewrite <- app_assoc. symmetry. apply Permutation_middle. }
    split; [by rewrite Hp|]. intros j. rewrite Hp, elem_of_cons.
    change (pipe j (with_ready (ready p ++ [(slot, m)]) (put slot free p)))
      with (pipe j (put slot free p)).
    rewrite pipe_put by done. destruct (decide (j = slot)) as [->|Hne]; [naive_solver|].
    rewrite <- (Hj j Hne). naive_solver.
Qed.

Lemma io_safe_put slot i p : io_safe p -> io_ok i -> io_safe (put slot i p).
Proof.
  intros Hp Hi j i' Hj. cbn in Hj. apply list_lookup_insert_Some in Hj as [(-> & -> & _)|(_ & Hj)];
    eauto.
Qed.

Lemma elem_of_slots_where test l n j :
  j ∈ slots_where test n l <->
  exists i, (n <= j)%nat /\ l !! (j - n) = Some i /\ test (phase i) = true.
Proof.
  revert n. induction l as [|i l IH]; intros n; cbn [slots_where].
  - split; [by intros ?%elem_of_nil|]. intros (? & _ & Hl & _). by rewrite lookup_nil in Hl.
  - assert (forall P : Prop, (P <-> j = n /\ test (phase i) = true \/ j ∈ slots_where test (S n) l) ->
      (P <-> exists i', (n <= j)%nat /\ (i :: l) !! (j - n) = Some i' /\ test (phase i') = true)) as Hcons.
    { intros P ->. rewrite IH. split.
      - intros [(-> & Ht)|(i' & Hle & Hl & Ht)].
        + exists i. by rewrite Nat.sub_diag.
        + exists i'. replace (j - n) with (S (j - S n)) by lia. split; [lia|done].
      - intros (i' & Hle & Hl & Ht). destruct (decide (j = n)) as [->|Hne].
        + left. rewrite Nat.sub_diag in Hl. injection Hl as ->. done.
        + right. exists i'. replace (j - n) with (S (j - S n)) in Hl by lia. split; [lia|done]. }
    apply Hcons. destruct (test (phase i)); rewrite ?elem_of_cons; naive_solver.
Qed.

Lemma slots_where_NoDup test l n : NoDup (slots_where test n l).
Proof.
  revert n. induction l as [|i l IH]; intros n; cbn [slots_where]; [constructor|].
  destruct (test (phase i)); [|done]. constructor; [|done].
  rewrite elem_of_slots_where. intros (? & ? & _). lia.
Qed.

Section all.
Context {K : Type} `{!PipeKernel K, !PipeKernelLaws K}.

Abbreviation State := (ServerState K).

Definition size (s : State) : nat := length (instances (server s)).

(** What holds of the server while [owed] is to be answered, and after an error. *)
Definition running (n : nat) (owed : list nat) (s : State) : Prop :=
  size s = n /\ io_safe (server s) /\ accounted owed (server s).
Definition stopped (n : nat) (s : State) : Prop := size s = n /\ io_safe (server s).

Lemma running_stopped n owed s : running n owed s -> stopped n s.
Proof. by intros (? & ? & _). Qed.

Lemma running_permutation n owed owed' s :
  owed ≡ₚ owed' -> running n owed s -> running n owed' s.
Proof.
  intros Hp (Hs & Hio & Hn & Hj). split; [done|]. split; [done|].
  split; [by rewrite <- Hp|]. intros j. by rewrite <- Hp.
Qed.

(** Only the instance of the slot has changed. *)
Definition others (slot : nat) (s s' : State) : Prop :=
  forall j, j <> slot -> instances (server s') !! j = instances (server s) !! j.

Lemma with_slot_id slot i (s : State) :
  instances (server s) !! slot = Some i -> s = with_slot slot (server s) i (kernel s).
Proof. intros Hi. unfold with_slot. rewrite put_id by done. by destruct s. Qed.

Lemma listen_spec n slot owed s :
  slot < n -> stopped n s -> accounted_but slot owed (server s) ->
  wp (listen slot) (fun _ s' => running n owed s' /\ others slot s s')
     (fun _ s' => stopped n s') (fun _ => False) s.
Proof.
  intros Hlt [Hsize Hio] Hbut.
  destruct (lookup_lt_is_Some_2 (instances (server s)) slot) as [i Hi]; [by rewrite <- Hsize in Hlt|].
  assert (slot < length (instances (server s))) as Hs by by rewrite <- Hsize in Hlt.
  rewrite (with_slot_id slot i s Hi).
  assert (forall i' k', size (with_slot slot (server s) i' k') = n) as Hsz.
  { intros. unfold size, with_slot, put. cbn. by rewrite length_insert. }
  assert (forall i' k', others slot s (with_slot slot (server s) i' k')) as Hoth.
  { intros i' k' j Hj. cbn. by rewrite list_lookup_insert_ne. }
  apply wp_bind, wp_instance; [done|].
  apply wp_bind, (listen_again_spec slot (server s)); [done|by eapply Hio| |].
  - intros r i' k' Hr. pose proof (accounted_settle _ _ _ _ _ Hs Hbut Hr) as Hacc.
    pose proof (io_safe_put slot i' _ Hio (settled_io_ok _ _ Hr)) as Hio'.
    rewrite <- (with_slot_id slot i s Hi).
    destruct r as [|m]; [apply wp_pure|]; (split; [split; [apply (Hsz i' k')|done]|apply (Hoth i' k')]).
  - intros e k'. split; [apply Hsz|]. apply io_safe_put; [done|by intros [=]].
Qed.

Lemma signaled_spec n slot owed s :
  running n owed s -> pk_ended slot (kernel s) ->
  (exists i, instances (server s) !! slot = Some i /\ has_pending_io i = true) ->
  wp (signaled slot) (fun _ s' => running n owed s') (fun _ s' => stopped n s') (fun _ => False) s.
Proof.
  intros (Hsize & Hio & Hacc) Hk (i & Hi & Hp).
  assert (slot < length (instances (server s))) as Hs by by eapply lookup_lt_Some.
  pose proof (accounted_pending _ _ _ _ Hacc Hi Hp) as Hbut.
  rewrite (with_slot_id slot i s Hi).
  assert (forall i' k', size (with_slot slot (server s) i' k') = n) as Hsz.
  { intros. unfold size, with_slot, put. cbn. by rewrite length_insert. }
  apply wp_bind, wp_instance; [done|]. apply wp_bind, (complete_spec slot (server s)); [done..| |].
  - intros r i' k' Hr. pose proof (accounted_settle _ _ _ _ _ Hs Hbut Hr) as Hacc'.
    pose proof (io_safe_put slot i' _ Hio (settled_io_ok _ _ Hr)) as Hio'.
    destruct r as [|m]; [|split; [apply (Hsz i' k')|done]].
    destruct (bool_decide _); [|apply wp_pure; split; [apply (Hsz i' k')|done]].
    apply wp_bind. unfold clock, kernel_call, wp. cbn.
    destruct (pk_now k') as [t k'']. split; [apply (Hsz i' k')|done].
  - intros e k'. split; [apply Hsz|]. apply io_safe_put; [done|by intros [=]].
Qed.

Lemma wp_server_call {A} (call : K -> A * K) s Q E C :
  (forall a k', call (kernel s) = (a, k') -> Q a (mkServer (server s) k')) ->
  wp (kernel_call call) Q E C s.
Proof. intros HQ. unfold wp, kernel_call. destruct (call (kernel s)). by apply HQ. Qed.

Lemma wp_set_server f s (Q : () -> State -> Prop) E C :
  Q tt (mkServer (f (server s)) (kernel s)) -> wp (set_server f) Q E C s.
Proof. done. Qed.

Lemma expire_reads_spec n owed s :
  running n owed s ->
  wp expire_reads (fun _ s' => running n owed s') (fun _ s' => stopped n s') (fun _ => False) s.
Proof.
  intros Hrun. apply wp_bind, wp_server_call. intros now k _. apply wp_bind, wp_gets. cbn [server].
  set (slots := slots_where (expired now) 0 (instances (server s))).
  pose (I := fun (d : list nat) (s' : State) => running n owed s' /\
    forall j, j ∉ d -> instances (server s') !! j = instances (server s) !! j).
  eapply wp_mono; [apply (wp_for_each _ I (fun _ s' => stopped n s') (fun _ => False))|by intros [] s' [? _]|done|done].
  - by split.
  - intros d slot rest s' Hl [Hr Hsame].
    assert (slot ∈ slots) as Hin by (rewrite Hl; set_solver).
    assert (slot ∉ d) as Hnd.
    { pose proof (slots_where_NoDup (expired now) (instances (server s)) 0) as Hno.
      fold slots in Hno. rewrite Hl in Hno. apply NoDup_app in Hno as (_ & Hno & _).
      intros Hd. by apply (Hno slot Hd), elem_of_cons; left. }
    apply elem_of_slots_where in Hin as (i & _ & Hi & Ht). rewrite Nat.sub_0_r in Hi.
    rewrite <- (Hsame slot Hnd) in Hi.
    assert (has_pending_io i = true) as Hp by (by destruct i as [[| |] ?]).
    destruct Hr as (Hsize & Hio & Hacc).
    eapply wp_mono; [apply (listen_spec n slot owed)|..]; try done.
    + rewrite <- Hsize. by eapply lookup_lt_Some.
    + by eapply accounted_pending.
    + intros [] s'' [Hr' Ho]. split; [done|]. intros j Hj. rewrite Ho by set_solver.
      apply Hsame. set_solver.
Qed.

(** What the caller has to answer after an event. *)
Definition owed_after (e : option PipeEvent) (owed : list nat) : list nat :=
  match e with Some (RequestOf slot _) => slot :: owed | _ => owed end.

Lemma next_round_spec n owed idle_timeout s :
  running n owed s ->
  wp (next_round idle_timeout) (fun e s' => running n (owed_after e owed) s')
     (fun _ s' => stopped n s') (fun _ => False) s.
Proof.
  intros Hrun. apply wp_bind, wp_gets. destruct (ready (server s)) as [|[slot m] rest] eqn:Er.
  - apply wp_bind, wp_server_call. intros now k _. apply wp_bind, wp_gets. cbn [server].
    apply wp_bind, wp_server_call. intros w k' Hw. cbn [server kernel] in *.
    destruct (N.eqb_spec w WAIT_TIMEOUT) as [->|Hne].
    + apply wp_bind. eapply wp_mono; [by apply (expire_reads_spec n owed)| |done|done].
      intros [] s' Hr. destruct (if busy _ then _ else _); [|by apply wp_pure].
      apply wp_bind, wp_server_call. intros later k2 _. apply wp_bind, wp_gets, wp_pure.
      destruct (_ && _); apply Hr.
    + destruct (N.eqb_spec w 0); [by apply wp_pure|]. destruct (N.eqb_spec w 1); [by apply wp_pure|].
      apply wp_bind, wp_lift; [|by intros; apply (running_stopped n owed)].
      intros slot Hslot. destruct (_ !! _) as [slot'|] eqn:Hl; [|discriminate Hslot].
      injection Hslot as ->. apply wp_bind.
      eapply wp_mono; [apply (signaled_spec n slot owed)|by intros [] s' ?; apply wp_pure|done|done].
      * done.
      * eapply pk_wait_many_ended; [done|done|lia|done].
      * apply list_elem_of_lookup_2, elem_of_slots_where in Hl as (i & _ & Hi & Ht).
        rewrite Nat.sub_0_r in Hi. exists i. split; [done|]. by destruct i as [[| |] ?].
  - apply wp_bind, wp_set_server, wp_bind, wp_bind, wp_server_call. intros t k _.
    apply wp_set_server, wp_pure.
    destruct Hrun as (Hsize & Hio & Hn & Hj). split; [done|]. split; [done|].
    assert (queued (server s) ++ owed ≡ₚ rest.*1 ++ slot :: owed) as Hp.
    { unfold queued. rewrite Er. apply Permutation_middle. }
    split; [by rewrite <- Hp|]. intros j. rewrite <- Hp. apply Hj.
Qed.

Lemma answered_spec n slot owed s (Q : () -> State -> Prop) :
  slot < n -> stopped n s -> accounted_but slot owed (server s) ->
  (forall s', running n owed s' -> Q tt s') ->
  wp (_ ← touch; listen slot) Q (fun _ s' => stopped n s') (fun _ => False) s.
Proof.
  intros Hlt Hs Hb HQ. apply wp_bind, wp_bind, wp_server_call. intros t k _. apply wp_set_server.
  eapply wp_mono; [by apply (listen_spec n slot owed)|intros [] s' [? _]; by apply HQ|done|done].
Qed.

Lemma owed_slot n slot owed owed' s :
  running n owed s -> owed ≡ₚ slot :: owed' ->
  slot < n /\ instances (server s) !! slot = Some free.
Proof.
  intros (Hsize & Hio & Hn & Hj) Hp. specialize (Hj slot) as [Hj _].
  assert (pipe slot (server s) = true) as Hh by (apply Hj; rewrite Hp; set_solver).
  unfold pipe in Hh. destruct (instances _ !! slot) as [i|] eqn:Hi; [|discriminate Hh].
  split; [rewrite <- Hsize; by eapply lookup_lt_Some|].
  apply bool_decide_eq_true in Hh. specialize (Hio _ _ Hi). destruct i as [ph b]. cbn in Hh. subst ph.
  destruct b; [by specialize (Hio eq_refl)|done].
Qed.

Lemma respond_spec n slot owed owed' bytes s :
  running n owed s -> owed ≡ₚ slot :: owed' ->
  wp (respond slot bytes) (fun _ s' => running n owed' s') (fun _ s' => stopped n s')
     (fun _ => False) s.
Proof.
  intros Hrun Hp. destruct (owed_slot _ _ _ _ _ Hrun Hp) as [Hlt Hi].
  destruct Hrun as (Hsize & Hio & Hacc).
  pose proof (accounted_owed _ _ _ _ Hacc Hp) as Hbut.
  assert (slot < length (instances (server s))) as Hs by by rewrite <- Hsize in Hlt.
  rewrite (with_slot_id slot _ s Hi). apply wp_bind, wp_instance; [done|].
  apply wp_bind, wp_attempt. apply (write_spec slot (server s) Hs bytes (kernel s)
    (fun a s' => wp (_ ← touch; _ ← listen slot; pure a) (fun _ s' => running n owed' s')
       (fun _ s' => stopped n s') (fun _ => False) s')).
  intros r k'. unfold with_slot. rewrite put_id by done.
  pose proof (answered_spec n slot owed' (mkServer (server s) k') (fun _ s' => running n owed' s')
    Hlt (conj Hsize Hio) Hbut (fun s' H => H)) as Hw.
  revert Hw. unfold wp, mbind, M_bind, bind.
  destruct (touch _) as [[[[]|e]| |] s1]; try done. by destruct (listen slot s1) as [[[[]|e]| |] s2].
Qed.

Lemma release_spec n slot owed owed' s :
  running n owed s -> owed ≡ₚ slot :: owed' ->
  wp (release slot) (fun _ s' => running n owed' s') (fun _ s' => stopped n s') (fun _ => False) s.
Proof.
  intros Hrun Hp. destruct (owed_slot _ _ _ _ _ Hrun Hp) as [Hlt Hi].
  destruct Hrun as (Hsize & Hio & Hacc). apply (answered_spec n slot owed'); try done.
  by eapply accounted_owed.
Qed.

Lemma wp_each_owed (f : nat -> M State ()) n d s (E : MaintenanceError -> State -> Prop) :
  (forall slot owed s', slot < n -> running n (slot :: owed) s' ->
     wp (f slot) (fun _ s'' => running n owed s'') E (fun _ => False) s') ->
  d <= n -> running n (seq d (n - d)) s ->
  wp (for_each f (seq d (n - d))) (fun _ s' => running n [] s') E (fun _ => False) s.
Proof.
  intros Hf. remember (n - d) as m eqn:Em. revert d s Em.
  induction m as [|m IH]; intros d s Em Hd Hr; cbn [seq for_each] in *; [by apply wp_pure|].
  apply wp_bind. eapply wp_mono; [by apply Hf; [lia|]| |done|done].
  intros [] s' Hr'. apply IH; [lia..|done].
Qed.

Lemma create_instance_spec name first bound s (Q : () -> State -> Prop)
    (E : MaintenanceError -> State -> Prop) :
  (forall k, Q tt (mkServer (with_instances (instances (server s) ++ [free]) (server s)) k)) ->
  (forall e k, E e (mkServer (server s) k)) ->
  wp (create_instance name first bound) Q E (fun _ => False) s.
Proof.
  intros HQ HE. apply wp_bind, wp_server_call. intros b k1 _. apply wp_bind, wp_lift; [|by intros].
  intros [] _. apply wp_bind, wp_server_call. intros b2 k2 _. apply wp_bind, wp_lift; [|by intros].
  intros [] _. apply wp_bind, wp_server_call. intros b3 k3 _. apply wp_bind, wp_lift; [|by intros].
  intros [] _. by apply wp_set_server.
Qed.

Lemma create_spec name bound rt wt s :
  wp (create name bound rt wt) (fun _ s' => running (N.to_nat (N.max bound 1)) [] s')
     (fun _ s' => stopped (size s') s') (fun _ => False) s.
Proof.
  set (n := N.to_nat (N.max bound 1)).
  apply wp_bind, wp_server_call. intros now k _. apply wp_bind, wp_set_server, wp_bind.
  pose (I := fun (d : list nat) (s' : State) =>
    instances (server s') = replicate (length d) free /\ ready (server s') = []).
  assert (forall m s', instances (server s') = replicate m free -> stopped (size s') s') as Hst.
  { intros m s' Hs. split; [done|]. intros j i Hj. rewrite Hs in Hj.
    apply lookup_replicate in Hj as [-> _]. by intros [=]. }
  eapply wp_mono; [apply (wp_for_each _ I (fun _ s' => stopped (size s') s') (fun _ => False))| |done|done].
  - by split.
  - intros d a rest s' _ [Hi Hr]. apply create_instance_spec.
    + intros k1. split; [|done]. cbn. by rewrite Hi, length_app, Nat.add_1_r, replicate_S_end.
    + intros e k1. by eapply Hst.
  - intros [] s' [Hi Hr]. rewrite length_seq in Hi. apply wp_bind, wp_gets.
    rewrite Hi, length_replicate. fold n.
    replace (seq 0 n) with (seq 0 (n - 0)) by by rewrite Nat.sub_0_r.
    apply wp_each_owed; [|lia|].
    + intros slot owed s1 Hlt Hrun. eapply wp_mono; [apply (listen_spec n slot owed)|..].
      * done.
      * by eapply running_stopped.
      * eapply accounted_owed; [apply Hrun|done].
      * by intros [] ? [? _].
      * intros e s2 [Hs2 ?]. by rewrite Hs2.
      * done.
    + split; [unfold size; by rewrite Hi, length_replicate|].
      assert (forall j i, instances (server s') !! j = Some i <-> i = free /\ j < n) as Hl.
      { intros j i. rewrite Hi, lookup_replicate. done. }
      split; [by intros j i [-> _]%Hl [=]|]. rewrite Nat.sub_0_r. unfold accounted, queued. rewrite Hr. cbn.
      split; [apply NoDup_seq|]. intros j. rewrite elem_of_seq. unfold pipe.
      destruct (instances (server s') !! j) as [i|] eqn:Ej.
      * apply Hl in Ej as [-> ?]. split; [done|lia].
      * split; [|done]. intros [_ Hj]. by rewrite (proj2 (Hl j free)) in Ej.
Qed.

Lemma next_event_spec n owed fuel idle_timeout s :
  running n owed s ->
  match next_event fuel idle_timeout s with
  | (Done (Ok e), s') => running n (owed_after (Some e) owed) s'
  | (Done (Err _), s') => stopped n s'
  | (Crashed, _) => False
  | (OutOfFuel, s') => running n owed s'
  end.
Proof.
  revert s. induction fuel as [|fuel IH]; intros s Hr; [done|]. cbn [next_event].
  pose proof (next_round_spec n owed idle_timeout s Hr) as Hw. revert Hw.
  unfold wp, mbind, M_bind, bind. destruct (next_round _ s) as [[[[e|]|e]| |] s']; try done. apply IH.
Qed.

(** Dropping the server never frees storage that the kernel still uses. *)
Lemma drop_server_spec n s :
  stopped n s -> exists s', drop_server s = (Done (Ok tt), s').
Proof.
  intros Hs.
  assert (wp drop_server (fun _ _ => True) (fun _ _ => False) (fun _ => False) s) as Hw.
  { apply wp_bind, wp_gets. pose (I := fun (_ : list nat) => stopped n).
    eapply wp_mono; [apply (wp_for_each _ I (fun _ _ => False) (fun _ => False))|done..].
    - done.
    - intros d slot rest s' Hl [Hsize Hio]. destruct Hs as [Hs _].
      assert (slot < size s') as Hlt.
      { assert (slot ∈ seq 0 (length (instances (server s)))) as Hin by (rewrite Hl; set_solver).
        rewrite Hsize, <- Hs. apply elem_of_seq in Hin. unfold size. lia. }
      destruct (lookup_lt_is_Some_2 _ _ Hlt) as [i Hi]. rewrite (with_slot_id slot i s' Hi).
      apply drop_instance_spec; [done|by eapply Hio|]. intros k'. split.
      + rewrite <- Hsize. unfold size, with_slot, put. cbn. by rewrite length_insert.
      + apply io_safe_put; [done|by intros [=]]. }
  revert Hw. unfold wp. destruct (drop_server s) as [[[[]|e]| |] s']; try done. by exists s'.
Qed.

(** ** Runs of the server *)

(** The service takes an event, or answers or releases a slot it owes an answer. *)
Inductive server_step (idle_timeout : N) : State * list nat -> State * list nat -> Prop :=
  | step_event fuel e s s' owed :
      next_event fuel idle_timeout s = (Done (Ok e), s') ->
      server_step idle_timeout (s, owed) (s', owed_after (Some e) owed)
  | step_respond slot bytes written s s' owed owed' :
      owed ≡ₚ slot :: owed' -> respond slot bytes s = (Done (Ok written), s') ->
      server_step idle_timeout (s, owed) (s', owed')
  | step_release slot s s' owed owed' :
      owed ≡ₚ slot :: owed' -> release slot s = (Done (Ok tt), s') ->
      server_step idle_timeout (s, owed) (s', owed').

Lemma server_steps_running n idle_timeout s owed s' owed' :
  rtc (server_step idle_timeout) (s, owed) (s', owed') -> running n owed s -> running n owed' s'.
Proof.
  remember (s, owed) as x eqn:Ex. remember (s', owed') as y eqn:Ey. intros Hsteps.
  revert s owed Ex. induction Hsteps as [x|x y z Hstep _ IH]; intros s0 owed0 -> Hr.
  { by injection Ey as -> ->. }
  inversion Hstep as [fuel e ? s1 ? He|slot bytes w ? s1 ? owed1 Hp He|slot ? s1 ? owed1 Hp He];
    subst; apply (IH eq_refl _ _ eq_refl).
  - pose proof (next_event_spec n owed0 fuel idle_timeout s0 Hr) as Hn. by rewrite He in Hn.
  - pose proof (respond_spec n slot owed0 owed1 bytes s0 Hr Hp) as Hw. unfold wp in Hw. by rewrite He in Hw.
  - pose proof (release_spec n slot owed0 owed1 s0 Hr Hp) as Hw. unfold wp in Hw. by rewrite He in Hw.
Qed.

(** From its creation on, however clients connect, send or fall silent, the
    server has all its instances, and the held ones are exactly those whose
    request waits in the queue or is owed an answer, each once: no connection is
    lost and none is served twice. *)
Theorem no_connection_is_lost name bound rt wt idle_timeout s0 s s' owed :
  create name bound rt wt s0 = (Done (Ok tt), s) ->
  rtc (server_step idle_timeout) (s, []) (s', owed) ->
  length (instances (server s')) = N.to_nat (N.max bound 1) /\
  NoDup (queued (server s') ++ owed) /\
  forall slot, slot ∈ queued (server s') ++ owed <-> pipe slot (server s') = true.
Proof.
  intros Hc Hsteps. pose proof (create_spec name bound rt wt s0) as Hw. unfold wp in Hw.
  rewrite Hc in Hw. by destruct (server_steps_running _ _ _ _ _ _ Hsteps Hw) as (? & _ & ? & ?).
Qed.

(** A call that does not use storage the kernel holds, after which, whatever it
    returned, the server can be dropped. *)
Definition sound_call {A} (m : M State A) (s : State) : Prop :=
  fst (m s) <> Crashed /\ fst (drop_server (snd (m s))) = Done (Ok tt).

Lemma wp_sound {A} n (m : M State A) (Q : A -> State -> Prop) s :
  wp m Q (fun _ => stopped n) (fun _ => False) s -> (forall a s', Q a s' -> stopped n s') ->
  sound_call m s.
Proof.
  unfold wp, sound_call. intros Hw HQ. destruct (m s) as [[[a|e]| |] s']; try done.
  - destruct (drop_server_spec n s' (HQ _ _ Hw)) as [s'' Hd]. cbn. by rewrite Hd.
  - destruct (drop_server_spec n s' Hw) as [s'' Hd]. cbn. by rewrite Hd.
Qed.

(** C11: No call of the server starts an operation on, or frees, an OVERLAPPED or
    a buffer that an earlier operation still uses: not the creation, not waiting
    for an event, not an answer or a release of a slot that is owed one; and after
    each of them, also after an error, dropping the server is safe. *)
Theorem kernel_storage_is_not_reused name bound rt wt idle_timeout s0 :
  sound_call (create name bound rt wt) s0 /\
  forall s s' owed, create name bound rt wt s0 = (Done (Ok tt), s) ->
    rtc (server_step idle_timeout) (s, []) (s', owed) ->
    (forall fuel, sound_call (next_event fuel idle_timeout) s') /\
    (forall slot bytes, slot ∈ owed -> sound_call (respond slot bytes) s' /\ sound_call (release slot) s').
Proof.
  pose proof (create_spec name bound rt wt s0) as Hw. split.
  { revert Hw. unfold wp, sound_call. destruct (create _ _ _ _ s0) as [[[[]|e]| |] s']; try done.
    - intros Hr%running_stopped. destruct (drop_server_spec _ s' Hr) as [? Hd]. cbn. by rewrite Hd.
    - intros Hr. destruct (drop_server_spec _ s' Hr) as [? Hd]. cbn. by rewrite Hd. }
  intros s s' owed Hc Hsteps. unfold wp in Hw. rewrite Hc in Hw.
  set (n := N.to_nat (N.max bound 1)) in Hw.
  pose proof (server_steps_running n _ _ _ _ _ Hsteps Hw) as Hr. split.
  - intros fuel. pose proof (next_event_spec n owed fuel idle_timeout s' Hr) as He. revert He.
    unfold sound_call. destruct (next_event _ _ s') as [[[e|e]| |] s'']; try done.
    all: intros He; destruct (drop_server_spec n s'') as [? Hd];
      [by first [done|eapply running_stopped]|]; cbn; by rewrite Hd.
  - intros slot bytes [owed' Hp]%elem_of_Permutation.
    split; eapply wp_sound; [exact (respond_spec n slot owed owed' bytes s' Hr Hp)| |
                             exact (release_spec n slot owed owed' s' Hr Hp)|];
      intros a s'' Ha; exact (running_stopped _ _ _ Ha).
Qed.

Lemma kernel_call_Done {A} (call : K -> A * K) s a s' :
  kernel_call call s = (Done (Ok a), s') ->
  call (kernel s) = (a, kernel s') /\ server s' = server s.
Proof. unfold kernel_call. destruct (call (kernel s)). by intros [= -> <-]. Qed.

Lemma not_busy p : busy p = false -> Forall (fun i => phase i = Listening) (instances p).
Proof.
  intros Hb. apply Forall_forall. intros i Hi. apply not_true_iff_false in Hb. apply dec_stable. intros Hp.
  apply Hb, existsb_exists. exists i. split; [by apply list_elem_of_In|]. by rewrite bool_decide_false.
Qed.

(** Where no instance reads, no read expires. *)
Lemma expire_reads_idle s s' :
  busy (server s) = false -> expire_reads s = (Done (Ok tt), s') -> server s' = server s.
Proof.
  intros Hb%not_busy Hx. apply bind_Done in Hx as (t & s1 & Ht%kernel_call_Done & Hx).
  destruct Ht as [_ Es]. apply bind_Done in Hx as (slots & s2 & Hg & Hx). injection Hg as <- <-.
  rewrite Es in Hx.
  assert (slots_where (expired t) 0 (instances (server s)) = []) as Hnil.
  { apply elem_of_nil_inv. intros j (i & _ & Hi & Hex)%elem_of_slots_where.
    apply list_elem_of_lookup_2 in Hi. rewrite Forall_forall in Hb. by rewrite (Hb i Hi) in Hex. }
  rewrite Hnil in Hx. by injection Hx as <-.
Qed.

Lemma idle_round idle_timeout s s' :
  next_round idle_timeout s = (Done (Ok (Some Idle)), s') ->
  ready (server s) = [] /\ busy (server s) = false /\ server s' = server s /\
  exists k, kernel s' = snd (pk_now k) /\ (last_activity (server s) + idle_timeout <= fst (pk_now k))%N.
Proof.
  intros Hround. apply bind_Done in Hround as (queue & s2 & Hq & Hround). injection Hq as <- <-.
  destruct (ready (server s)) as [|[slot m] rest] eqn:Er.
  2:{ apply bind_Done in Hround as (? & ? & _ & Hround). apply bind_Done in Hround as (? & ? & _ & [=]). }
  apply bind_Done in Hround as (now & s2 & Ha%kernel_call_Done & Hround). destruct Ha as [_ Hs2].
  apply bind_Done in Hround as (p & s3 & Hg & Hround). injection Hg as <- <-. rewrite Hs2 in Hround.
  apply bind_Done in Hround as (w & s3 & Hw%kernel_call_Done & Hround). destruct Hw as [_ Hs3].
  destruct (w =? WAIT_TIMEOUT)%N.
  2:{ destruct (w =? 0)%N; [discriminate Hround|]. destruct (w =? 1)%N; [discriminate Hround|].
      apply bind_Done in Hround as (? & ? & _ & Hround). apply bind_Done in Hround as (? & ? & _ & [=]). }
  apply bind_Done in Hround as ([] & s4 & Hx & Hround).
  destruct (busy (server s)) eqn:Eb; [discriminate Hround|].
  rewrite Hs2 in Hs3. apply expire_reads_idle in Hx; [|by rewrite Hs3]. rewrite Hs3 in Hx.
  apply bind_Done in Hround as (later & s5 & Hl%kernel_call_Done & Hround). destruct Hl as [Hl Hs5].
  apply bind_Done in Hround as (b & s6 & Hg & Hround). injection Hg as <- <-.
  destruct (N.leb_spec (last_activity (server s) + idle_timeout) later) as [Hle|]; [|discriminate Hround].
  destruct (negb _); [|discriminate Hround]. injection Hround as <-.
  split; [done|]. split; [done|]. split; [by rewrite Hs5|]. exists (kernel s4). by rewrite Hl.
Qed.

(** The server reports idleness only when no request is queued, every
    instance listens, and a clock reading is at least the idle timeout after the
    last activity. *)
Theorem idle_means_unused fuel idle_timeout s s' :
  next_event fuel idle_timeout s = (Done (Ok Idle), s') ->
  ready (server s') = [] /\ Forall (fun i => phase i = Listening) (instances (server s')) /\
  exists k, kernel s' = snd (pk_now k) /\
    (last_activity (server s') + idle_timeout <= fst (pk_now k))%N.
Proof.
  revert s. induction fuel as [|fuel IH]; intros s Hn; [done|]. cbn [next_event] in Hn.
  apply bind_Done in Hn as (e & s1 & Hround & Hn). destruct e as [e|]; [|by apply (IH s1)].
  injection Hn as -> ->. apply idle_round in Hround as (Hr & Hb%not_busy & Hs & Hk). by rewrite Hs.
Qed.
End all.
