(* ===== verification/Authorization.v ===== *)
(** * Authorization of decoded requests

    [CallerIdentity], [AuthorizedRequest] and [authorize_request] of
    src/src/windows.rs.  The caller's SID and elevation come from the
    impersonated token of the pipe client. *)

From S2P Require Import Prelude Errors Identifiers Json Roots RegistryScopes Protocol.

Record CallerIdentity := {
  sid : string;
  elevated_administrator : bool;
}.

Definition new_caller (s : string) (elevated : bool) : Result CallerIdentity :=
  _ ← ensure (valid_owner_sid s) RootUnauthorized "caller token did not contain a bounded SID";
  Ok {| sid := s; elevated_administrator := elevated |}.

Inductive AuthorizedRequest :=
  | AuthGetStatus
  | AuthGetRootStatus (root : RegisteredRoot)
  | AuthGetRegistryScopeStatus (scope : RegisteredRegistryScope)
  | AuthRegisterRoot (owner_sid : string)
  | AuthUnregisterRoot (root_id : string)
  | AuthRegisterRegistryScope (owner_sid : string)
  | AuthUnregisterRegistryScope (scope_id : string)
  | AuthApplyRegistrySet (scope : RegisteredRegistryScope)
  | AuthPrepareFileSet (root : RegisteredRoot)
  | AuthCommitJob (job_id : string)
  | AuthGetJobStatus (job_id : string).

Definition require_elevated_administrator (caller : CallerIdentity) : Result () :=
  ensure (elevated_administrator caller) RootUnauthorized
    "setup operation requires an elevated administrator token".

(** The active job is its identifier and the SID of its owner. *)
Definition authorize_owned_job (requested : string) (caller : CallerIdentity)
    (active_job : option (string * string)) : Result () :=
  match active_job with
  | Some (job_id, owner_sid) =>
      ensure (bool_decide (job_id = requested) && bool_decide (owner_sid = sid caller))
        RootUnauthorized "job is absent or belongs to another caller"
  | None => Err (new_error RootUnauthorized "job is absent or belongs to another caller")
  end.

Definition authorize_request (request : Request) (caller : CallerIdentity)
    (roots : RootRegistry) (scopes : RegistryScopeRegistry)
    (active_job : option (string * string)) : Result AuthorizedRequest :=
  match request with
  | GetStatus _ => Ok AuthGetStatus
  | GetRootStatus _ root_id =>
      root ← resolve_accessible roots root_id (sid caller);
      Ok (AuthGetRootStatus root)
  | GetRegistryScopeStatus _ scope_id =>
      scope ← resolve_owned scopes scope_id (sid caller);
      Ok (AuthGetRegistryScopeStatus scope)
  | RegisterRoot _ _ _ _ _ =>
      _ ← require_elevated_administrator caller;
      Ok (AuthRegisterRoot (sid caller))
  | UnregisterRoot _ root_id =>
      _ ← require_elevated_administrator caller;
      Ok (AuthUnregisterRoot root_id)
  | RegisterRegistryScope _ _ _ _ _ _ =>
      _ ← require_elevated_administrator caller;
      Ok (AuthRegisterRegistryScope (sid caller))
  | UnregisterRegistryScope _ scope_id =>
      _ ← require_elevated_administrator caller;
      Ok (AuthUnregisterRegistryScope scope_id)
  | ApplyRegistrySet _ scope_id _ =>
      scope ← resolve_owned scopes scope_id (sid caller);
      Ok (AuthApplyRegistrySet scope)
  | PrepareFileSet _ root_id _ _ =>
      root ← resolve_accessible roots root_id (sid caller);
      Ok (AuthPrepareFileSet root)
  | CommitJob _ job_id =>
      _ ← authorize_owned_job job_id caller active_job;
      Ok (AuthCommitJob job_id)
  | GetJobStatus _ job_id =>
      _ ← authorize_owned_job job_id caller active_job;
      Ok (AuthGetJobStatus job_id)
  end.

(** ** The access policy *)

Section policy.
Context (caller : CallerIdentity) (roots : RootRegistry) (scopes : RegistryScopeRegistry)
  (active_job : option (string * string)).

(** The caller sees the root: it is its own, or a library. *)
Definition sees_root (id : string) (root : RegisteredRoot) : Prop :=
  roots !! id = Some root /\ (root_kind root = Library \/ root_owner_sid root = sid caller).

Definition owns_scope (id : string) (scope : RegisteredRegistryScope) : Prop :=
  scopes !! id = Some scope /\ scope_owner_sid scope = sid caller.

Definition owns_job (id : string) : Prop := active_job = Some (id, sid caller).

(** What a request may be turned into. *)
Inductive granted : Request -> AuthorizedRequest -> Prop :=
  | grant_status m : granted (GetStatus m) AuthGetStatus
  | grant_root_status m id root :
      sees_root id root -> granted (GetRootStatus m id) (AuthGetRootStatus root)
  | grant_scope_status m id scope :
      owns_scope id scope ->
      granted (GetRegistryScopeStatus m id) (AuthGetRegistryScopeStatus scope)
  | grant_register m id product kind path :
      elevated_administrator caller = true ->
      granted (RegisterRoot m id product kind path) (AuthRegisterRoot (sid caller))
  | grant_unregister m id :
      elevated_administrator caller = true ->
      granted (UnregisterRoot m id) (AuthUnregisterRoot id)
  | grant_register_scope m id product v key allowed :
      elevated_administrator caller = true ->
      granted (RegisterRegistryScope m id product v key allowed)
        (AuthRegisterRegistryScope (sid caller))
  | grant_unregister_scope m id :
      elevated_administrator caller = true ->
      granted (UnregisterRegistryScope m id) (AuthUnregisterRegistryScope id)
  | grant_apply m id manifest scope :
      owns_scope id scope ->
      granted (ApplyRegistrySet m id manifest) (AuthApplyRegistrySet scope)
  | grant_prepare m id manifest staging root :
      sees_root id root ->
      granted (PrepareFileSet m id manifest staging) (AuthPrepareFileSet root)
  | grant_commit m id : owns_job id -> granted (CommitJob m id) (AuthCommitJob id)
  | grant_job_status m id : owns_job id -> granted (GetJobStatus m id) (AuthGetJobStatus id).

Lemma authorize_owned_job_iff id :
  authorize_owned_job id caller active_job = Ok tt <-> owns_job id.
Proof.
  unfold authorize_owned_job, owns_job. destruct active_job as [[job owner]|].
  - rewrite ensure_Ok, andb_true_iff, !bool_decide_eq_true. naive_solver.
  - done.
Qed.

Lemma require_elevated_iff :
  require_elevated_administrator caller = Ok tt <-> elevated_administrator caller = true.
Proof. apply ensure_Ok. Qed.

Lemma authorize_request_granted request a :
  authorize_request request caller roots scopes active_job = Ok a <-> granted request a.
Proof.
  split.
  - destruct request; cbn [authorize_request]; intros Ha; ok_inv; subst;
      repeat match goal with
      | H : resolve_accessible _ _ _ = Ok _ |- _ => apply resolve_accessible_iff in H
      | H : resolve_owned _ _ _ = Ok _ |- _ => apply resolve_owned_iff in H
      | H : require_elevated_administrator _ = Ok _ |- _ => apply require_elevated_iff in H
      | H : authorize_owned_job _ _ _ = Ok _ |- _ => apply authorize_owned_job_iff in H
      end; by constructor.
  - destruct 1; cbn [authorize_request];
      repeat match goal with
      | H : sees_root _ _ |- _ => apply resolve_accessible_iff in H; rewrite H; clear H
      | H : owns_scope _ _ |- _ => apply resolve_owned_iff in H; rewrite H; clear H
      | H : elevated_administrator _ = true |- _ =>
          apply require_elevated_iff in H; rewrite H; clear H
      | H : owns_job _ |- _ => apply authorize_owned_job_iff in H; rewrite H; clear H
      end; done.
Qed.
End policy.

(** C26: a request is authorized exactly when the access policy grants it: the
    caller sees the root it names, owns the scope or the active job it names,
    or, for registrations and removals, holds an elevated administrator token;
    a registration is bound to the SID of the token, whatever the request says. *)
Theorem authorize_request_iff request caller roots scopes job a :
  authorize_request request caller roots scopes job = Ok a <->
  granted caller roots scopes job request a.
Proof. apply authorize_request_granted. Qed.

(** ** Isolation of callers *)

(** Two states of the service look alike to a caller. *)
Record same_view (caller : CallerIdentity) (roots1 roots2 : RootRegistry)
    (scopes1 scopes2 : RegistryScopeRegistry) (job1 job2 : option (string * string)) : Prop := {
  view_roots id root : sees_root caller roots1 id root <-> sees_root caller roots2 id root;
  view_scopes id scope : owns_scope caller scopes1 id scope <-> owns_scope caller scopes2 id scope;
  view_job id : owns_job caller job1 id <-> owns_job caller job2 id;
}.

(** What a caller is authorized to do depends only on its own SID's part of
    the service's state: other users' protected roots, scopes and jobs can
    neither grant it a request nor change the one it is granted. *)
Theorem authorize_request_isolated request caller roots1 roots2 scopes1 scopes2 job1 job2 :
  same_view caller roots1 roots2 scopes1 scopes2 job1 job2 ->
  ok (authorize_request request caller roots1 scopes1 job1)
  = ok (authorize_request request caller roots2 scopes2 job2).
Proof.
  intros [Hr Hs Hj].
  assert (forall a, granted caller roots1 scopes1 job1 request a
            <-> granted caller roots2 scopes2 job2 request a) as Hg.
  { intros a. split; destruct 1; constructor; auto; by first [apply Hr|apply Hs|apply Hj]. }
  setoid_rewrite <- authorize_request_granted in Hg.
  destruct (authorize_request request caller roots1 scopes1 job1) as [a|e] eqn:E1; cbn.
  - by rewrite (proj1 (Hg a) eq_refl).
  - destruct (authorize_request request caller roots2 scopes2 job2) as [a|e'] eqn:E2; [|done].
    by discriminate (proj2 (Hg a) eq_refl).
Qed.

(** Another user's launcher root and active job are invisible to a caller. *)
Definition sample_caller : CallerIdentity :=
  {| sid := "S-1-5-21-1000"; elevated_administrator := false |}.

Definition foreign_root : RegisteredRoot :=
  {| root_id := "launcher"; root_product_id := "game"; root_kind := Launcher;
     canonical_path := "C:\Games"; identity := {| volume_serial := 1; file_id := [] |};
     root_owner_sid := "S-1-5-21-2000" |}.

Lemma authorize_request_isolated_witness :
  same_view sample_caller {[ "launcher" := foreign_root ]} ∅ ∅ ∅
    (Some ("game-7", "S-1-5-21-2000")) None
  /\ ok (authorize_request (GetRootStatus 1 "launcher") sample_caller
           {[ "launcher" := foreign_root ]} ∅ (Some ("game-7", "S-1-5-21-2000")))
     = ok (authorize_request (GetRootStatus 1 "launcher") sample_caller ∅ ∅ None).
Proof.
  assert (same_view sample_caller {[ "launcher" := foreign_root ]} ∅ ∅ ∅
            (Some ("game-7", "S-1-5-21-2000")) None) as Hv.
  { split; [|done|].
    - intros id root. unfold sees_root. split; intros [Hl Ha]; [|by rewrite lookup_empty in Hl].
      apply lookup_singleton_Some in Hl as [_ <-]. by destruct Ha.
    - intros id. unfold owns_job. by split. }
  split; [exact Hv|].
  by apply (authorize_request_isolated (GetRootStatus 1 "launcher") sample_caller
    {[ "launcher" := foreign_root ]} ∅ ∅ ∅ (Some ("game-7", "S-1-5-21-2000")) None).
Defined.
