(* ===== verification/Storage.v ===== *)
(** * The disk and the protected replacement of service files

    A model of the files of the service's data directory under faults, and over
    it [replace_service_file], [recover_service_file_replacement] and
    [read_service_file] of src/src/windows.rs and the [save] and [load] of
    src/src/roots.rs and src/src/registry_scopes.rs.

    A disk operation takes its fate from a list: it works, fails, or the machine
    stops before or after it; a failed or interrupted write leaves a prefix of
    its bytes, and data that was not flushed is lost the same way.  Renames and
    removals are atomic. *)

From S2P Require Import Prelude Errors Effects.

(** ** The model of the disk *)

Abbreviation Files := (gmap string (list byte)).

Inductive Fate :=
  | Works
  | Fails (k : nat)
  | StopsBefore (k : nat)
  | StopsAfter.

(** The operations still to come take their fates from the list; when it is
    empty they work. *)
Record Disk := mkDisk { files : Files; fates : list Fate }.

Definition next_fate (d : Disk) : Fate := default Works (head (fates d)).

(** [effect] is what the operation does when it works, [None] an error of the
    system; [partial k] is what a failed or interrupted operation leaves. *)
Definition io (effect : Files -> option Files) (partial : nat -> Files -> Files)
    (e : MaintenanceError) : M Disk () := fun d =>
  let rest := tail (fates d) in
  match next_fate d with
  | Works =>
      match effect (files d) with
      | Some fs => (Done (Ok tt), mkDisk fs rest)
      | None => (Done (Err e), mkDisk (files d) rest)
      end
  | Fails k => (Done (Err e), mkDisk (partial k (files d)) rest)
  | StopsBefore k => (Crashed, mkDisk (partial k (files d)) rest)
  | StopsAfter => (Crashed, mkDisk (default (files d) (effect (files d))) rest)
  end.

Definition unchanged (_ : nat) (fs : Files) : Files := fs.

(** [Path::exists]. *)
Definition path_exists (p : string) : M Disk bool :=
  gets (fun d => bool_decide (is_Some (files d !! p))).

(** [OpenOptions::create_new]: the file must not exist. *)
Definition create_new (p : string) : MaintenanceError -> M Disk () :=
  io (fun fs => match fs !! p with Some _ => None | None => Some (<[p := []]> fs) end) unchanged.

(** [OpenOptions::create (true).truncate (true)]. *)
Definition create_truncate (p : string) : MaintenanceError -> M Disk () :=
  io (fun fs => Some (<[p := []]> fs)) unchanged.

(** [write_all]: an interrupted write leaves a prefix. *)
Definition write_all (p : string) (bytes : list byte) : MaintenanceError -> M Disk () :=
  io (fun fs => Some (<[p := bytes]> fs)) (fun k fs => <[p := take k bytes]> fs).

(** [sync_all]: without it a crash may lose a suffix of what was written. *)
Definition sync_all (p : string) : MaintenanceError -> M Disk () :=
  io Some (fun k fs => alter (take k) p fs).

(** [fs::remove_file]. *)
Definition remove_file (p : string) : MaintenanceError -> M Disk () :=
  io (fun fs => match fs !! p with Some _ => Some (delete p fs) | None => None end) unchanged.

(** [fs::rename] replaces its target. *)
Definition rename (a b : string) : MaintenanceError -> M Disk () :=
  io (fun fs => match fs !! a with Some c => Some (<[b := c]> (delete a fs)) | None => None end)
     unchanged.

(** [Path::with_extension] on a file name. *)
Definition with_extension (p ext : string) : string :=
  match rsplit_once "." (as_bytes p) with
  | Some (c :: stem, _) => of_bytes (c :: stem) +:+ "." +:+ ext
  | _ => p +:+ "." +:+ ext
  end.

(** Opening and reading a whole file: an unreadable or oversized file gives the error. *)
Definition read_bounded (p : string) (maximum : N) : M Disk (option (list byte)) :=
  gets (fun d =>
    bytes ← files d !! p;
    if (N.of_nat (length bytes) <=? maximum)%N then Some bytes else None).

(** ** The protected replacement *)

Definition io_error (detail : string) : MaintenanceError := new_error TransactionIo detail.

(** The second half of [replace_service_file]: the flushed new file takes the
    place of the current one. *)
Definition activate_replacement (path : string) : M Disk () :=
  let temporary := with_extension path "new" in
  let backup := with_extension path "bak" in
  current ← path_exists path;
  _ ← (if (current : bool)
       then rename path backup (io_error "protected current file cannot be backed up")
       else pure tt);
  activated ← attempt (rename temporary path
                 (io_error "protected replacement cannot be activated"));
  match activated with
  | Err e =>
      saved ← path_exists backup;
      _ ← (if (saved : bool)
           then _ ← attempt (rename backup path e); pure tt else pure tt);
      fail (io_error "protected replacement cannot be activated")
  | Ok _ =>
      saved ← path_exists backup;
      if (saved : bool)
      then remove_file backup (io_error "protected backup cannot be cleaned") else pure tt
  end.

Definition replace_service_file (path : string) (bytes : list byte) : M Disk () :=
  let temporary := with_extension path "new" in
  let backup := with_extension path "bak" in
  stale_new ← path_exists temporary;
  stale_bak ← path_exists backup;
  _ ← lift (ensure (negb (stale_new || stale_bak)) TransactionConflict
        "stale protected replacement files require recovery");
  _ ← create_new temporary (io_error "protected replacement cannot be created");
  _ ← write_all temporary bytes (io_error "protected replacement cannot be written");
  _ ← sync_all temporary (io_error "protected replacement cannot be flushed");
  activate_replacement path.

Definition recover_service_file_replacement (path : string) : M Disk () :=
  let temporary := with_extension path "new" in
  let backup := with_extension path "bak" in
  current ← path_exists path;
  new ← path_exists temporary;
  old ← path_exists backup;
  match (current : bool), (new : bool), (old : bool) with
  | true, true, false =>
      remove_file temporary (io_error "stale protected replacement cannot be discarded")
  | false, true, true =>
      _ ← rename temporary path
            (io_error "protected replacement recovery cannot activate the new file");
      remove_file backup (io_error "protected replacement recovery cannot remove the backup")
  | true, false, true =>
      remove_file backup (io_error "protected replacement recovery cannot remove the backup")
  | false, false, true =>
      rename backup path (io_error "protected replacement recovery cannot restore the backup")
  | false, true, false =>
      rename temporary path
        (io_error "protected replacement recovery cannot activate the initial file")
  | true, true, true =>
      fail (new_error TransactionState "protected replacement state is ambiguous")
  | true, false, false | false, false, false => pure tt
  end.

Definition read_service_file (path : string) (maximum : N) : M Disk (list byte) :=
  found ← path_exists path;
  _ ← lift (ensure found TrustSignature "protected service trust file cannot be opened");
  bytes ← read_bounded path maximum;
  lift (ok_or bytes ManifestTooLarge "protected service trust file exceeds the bound").

(** ** Reasoning about the disk *)

(** From the files [fs], under any fates: [Q] when the code returns, [E] when it
    fails, [C] when the machine stops. *)
Definition runs {A} (m : M Disk A) (Q : A -> Files -> Prop) (E C : Files -> Prop)
    (fs : Files) : Prop :=
  forall ft, wp m (fun a d => Q a (files d)) (fun _ d => E (files d)) (fun d => C (files d))
                (mkDisk fs ft).

Lemma disk_eta d : mkDisk (files d) (fates d) = d.
Proof. by destruct d. Qed.

Section runs.
Context {A B : Type}.

Lemma runs_pure (a : A) (Q : A -> Files -> Prop) E C fs : Q a fs -> runs (pure a) Q E C fs.
Proof. by intros HQ ft. Qed.

Lemma runs_fail e (Q : A -> Files -> Prop) (E C : Files -> Prop) fs :
  E fs -> runs (fail e) Q E C fs.
Proof. by intros HE ft. Qed.

Lemma runs_bind (m : M Disk A) (k : A -> M Disk B) Q E C fs :
  runs m (fun a fs' => runs (k a) Q E C fs') E C fs -> runs (m ≫= k) Q E C fs.
Proof.
  intros Hm ft. apply wp_bind. eapply wp_mono; [exact (Hm ft)| |done|done].
  intros a d Hk. rewrite <- (disk_eta d). apply Hk.
Qed.

Lemma runs_attempt (m : M Disk A) Q (E C : Files -> Prop) fs :
  runs m (fun a => Q (Ok a)) (fun fs' => forall e, Q (Err e) fs') C fs ->
  runs (attempt m) Q E C fs.
Proof.
  intros Hm ft. apply wp_attempt. eapply wp_mono; [exact (Hm ft)|done| |done].
  intros e d HQ. apply HQ.
Qed.

Lemma runs_mono (m : M Disk A) (Q Q' : A -> Files -> Prop) (E E' C C' : Files -> Prop) fs :
  runs m Q E C fs -> (forall a fs', Q a fs' -> Q' a fs') -> (forall fs', E fs' -> E' fs') ->
  (forall fs', C fs' -> C' fs') -> runs m Q' E' C' fs.
Proof. intros Hm HQ HE HC ft. eapply wp_mono; [exact (Hm ft)|..]; cbn; eauto. Qed.

Lemma runs_lift (r : Result A) Q (E C : Files -> Prop) fs :
  (forall a, r = Ok a -> Q a fs) -> (forall e, r = Err e -> E fs) -> runs (lift r) Q E C fs.
Proof. intros HQ HE ft. apply wp_lift; eauto. Qed.

Lemma runs_gets (f : Disk -> A) (g : Files -> A) Q E C fs :
  (forall d, f d = g (files d)) -> Q (g fs) fs -> runs (gets f) Q E C fs.
Proof. intros Hf HQ ft. apply wp_gets. by rewrite Hf. Qed.
End runs.

Lemma runs_exists p (Q : bool -> Files -> Prop) E C fs :
  Q (bool_decide (is_Some (fs !! p))) fs -> runs (path_exists p) Q E C fs.
Proof. by intros HQ ft. Qed.

Lemma runs_read_bounded p maximum (Q : option (list byte) -> Files -> Prop) E C fs :
  Q (bytes ← fs !! p; if (N.of_nat (length bytes) <=? maximum)%N then Some bytes else None) fs ->
  runs (read_bounded p maximum) Q E C fs.
Proof. by intros HQ ft. Qed.

Lemma runs_if_exists p (m : M Disk ()) (Q : () -> Files -> Prop) E C fs :
  (is_Some (fs !! p) -> runs m Q E C fs) -> (fs !! p = None -> Q tt fs) ->
  runs (found ← path_exists p; if (found : bool) then m else pure tt) Q E C fs.
Proof.
  intros Hm Hn. apply runs_bind, runs_exists. case_bool_decide as Hp; [by apply Hm|].
  apply runs_pure, Hn. by apply eq_None_not_Some.
Qed.

Lemma runs_io effect partial e (Q : () -> Files -> Prop) (E C : Files -> Prop) fs fs' :
  effect fs = Some fs' -> Q tt fs' -> C fs' ->
  (forall k, E (partial k fs) /\ C (partial k fs)) ->
  runs (io effect partial e) Q E C fs.
Proof.
  intros He HQ HC Hp ft. unfold wp, io. cbn [files fates].
  destruct (next_fate _) as [|k|k|]; cbn [files]; rewrite ?He; try destruct (Hp k); auto.
Qed.

Lemma runs_rename a b e (Q : () -> Files -> Prop) (E C : Files -> Prop) fs c :
  fs !! a = Some c -> Q tt (<[b := c]> (delete a fs)) -> C (<[b := c]> (delete a fs)) ->
  E fs -> C fs -> runs (rename a b e) Q E C fs.
Proof. intros Ha ????. by eapply runs_io; [by rewrite Ha|..]. Qed.

Lemma runs_remove a e (Q : () -> Files -> Prop) (E C : Files -> Prop) fs c :
  fs !! a = Some c -> Q tt (delete a fs) -> C (delete a fs) -> E fs -> C fs ->
  runs (remove_file a e) Q E C fs.
Proof. intros Ha ????. by eapply runs_io; [by rewrite Ha|..]. Qed.

(** Without faults an operation does its effect. *)
Lemma io_works effect partial e fs fs' :
  effect fs = Some fs' -> io effect partial e (mkDisk fs []) = (Done (Ok tt), mkDisk fs' []).
Proof. intros He. unfold io. cbn. by rewrite He. Qed.

(** The file names of a replacement are three different names. *)
Definition slots_distinct (path : string) : Prop :=
  with_extension path "new" <> path /\ with_extension path "bak" <> path.

Lemma slots_new_bak path : with_extension path "new" <> with_extension path "bak".
Proof.
  unfold with_extension. intros E. apply (f_equal as_bytes) in E.
  repeat case_match; rewrite !as_bytes_app in E; by repeat apply app_inv_head in E.
Qed.

Section replacement.
Context (path : string) (Hdist : slots_distinct path).
#[local] Abbreviation temporary := (with_extension path "new").
#[local] Abbreviation backup := (with_extension path "bak").

(** The three files, and everything else. *)
Record slots (p t b : option (list byte)) (rest fs : Files) : Prop := {
  slot_path : fs !! path = p;
  slot_new : fs !! temporary = t;
  slot_bak : fs !! backup = b;
  slot_rest q : q <> path -> q <> temporary -> q <> backup -> fs !! q = rest !! q;
}.

(** Proves a [slots] of updated files from the [slots] of the files. *)
Ltac slots_solve :=
  destruct Hdist as [??]; pose proof (slots_new_bak path);
  repeat match goal with H : slots _ _ _ _ _ |- _ => destruct H end;
  split; intros; simplify_map_eq; auto.

Lemma slots_self fs :
  slots (fs !! path) (fs !! temporary) (fs !! backup) fs fs.
Proof. by split. Qed.

Lemma slots_write c p t b rest fs :
  slots p t b rest fs -> slots p (Some c) b rest (<[temporary := c]> fs).
Proof. intros. slots_solve. Qed.

Lemma slots_truncate k p c b rest fs :
  slots p (Some c) b rest fs -> slots p (Some (take k c)) b rest (alter (take k) temporary fs).
Proof. intros. slots_solve. Qed.

Lemma slots_path_to_bak c t b rest fs :
  slots (Some c) t b rest fs -> slots None t (Some c) rest (<[backup := c]> (delete path fs)).
Proof. intros. slots_solve. Qed.

Lemma slots_new_to_path c p b rest fs :
  slots p (Some c) b rest fs -> slots (Some c) None b rest (<[path := c]> (delete temporary fs)).
Proof. intros. slots_solve. Qed.

Lemma slots_bak_to_path c p t rest fs :
  slots p t (Some c) rest fs -> slots (Some c) t None rest (<[path := c]> (delete backup fs)).
Proof. intros. slots_solve. Qed.

Lemma slots_remove_bak p t b rest fs :
  slots p t b rest fs -> slots p t None rest (delete backup fs).
Proof. intros. slots_solve. Qed.

Lemma slots_remove_new p t b rest fs :
  slots p t b rest fs -> slots p None b rest (delete temporary fs).
Proof. intros. slots_solve. Qed.

(** ** Replacing a file *)

(** The states a replacement of [old] by [bytes] can be interrupted in; the
    last one only for a file that did not exist. *)
Inductive midway (old : option (list byte)) (bytes : list byte) (rest fs : Files) : Prop :=
  | mid_before : slots old None None rest fs -> midway old bytes rest fs
  | mid_torn c : c `prefix_of` bytes -> slots old (Some c) None rest fs ->
      midway old bytes rest fs
  | mid_moved o : old = Some o -> slots None (Some bytes) (Some o) rest fs ->
      midway old bytes rest fs
  | mid_active : slots (Some bytes) None old rest fs -> midway old bytes rest fs
  | mid_done : slots (Some bytes) None None rest fs -> midway old bytes rest fs
  | mid_promoted c : old = None -> c `prefix_of` bytes -> slots (Some c) None None rest fs ->
      midway old bytes rest fs.

Lemma take_prefix {A} k (l : list A) : take k l `prefix_of` l.
Proof. exists (drop k l). by rewrite take_drop. Qed.

(** After the current file was moved away, or when there was none. *)
Lemma activate_tail_spec old bytes rest fs :
  slots None (Some bytes) old rest fs ->
  runs (activated ← attempt (rename temporary path
          (io_error "protected replacement cannot be activated"));
        match activated with
        | Err e =>
            saved ← path_exists backup;
            _ ← (if (saved : bool)
                 then _ ← attempt (rename backup path e); pure tt else pure tt);
            fail (io_error "protected replacement cannot be activated")
        | Ok _ =>
            saved ← path_exists backup;
            if (saved : bool)
            then remove_file backup (io_error "protected backup cannot be cleaned") else pure tt
        end)
    (fun _ fs' => slots (Some bytes) None None rest fs')
    (midway old bytes rest) (midway old bytes rest) fs.
Proof.
  intros Hs.
  assert (midway old bytes rest fs) as Hmid.
  { destruct old as [o|]; [by eapply mid_moved|]. by eapply (mid_torn _ _ _ _ bytes). }
  pose proof (slots_new_to_path _ _ _ _ _ Hs) as Ha.
  apply runs_bind, runs_attempt. eapply runs_rename; [apply Hs| |by apply mid_active| |done].
  - apply runs_if_exists.
    + intros [o Ho]. pose proof (slots_remove_bak _ _ _ _ _ Ha) as Hd.
      eapply runs_remove; [exact Ho|done|by apply mid_done|by apply mid_active..].
    + intros Hn. assert (old = None) as -> by (destruct Ha; congruence). done.
  - intros e. apply runs_bind, runs_exists. case_bool_decide as Ho.
    + destruct Ho as [o Ho]. assert (old = Some o) as -> by (destruct Hs; congruence).
      pose proof (slots_bak_to_path _ _ _ _ _ Hs) as Hb.
      assert (midway (Some o) bytes rest (<[path := o]> (delete backup fs)))
        by (by eapply (mid_torn _ _ _ _ bytes)).
      apply runs_bind, runs_bind, runs_attempt.
      eapply runs_rename; [exact Ho|..|done]; [by apply runs_pure, runs_fail|done|].
      intros _. by apply runs_pure, runs_fail.
    + apply runs_bind, runs_pure. by apply runs_fail.
Qed.

Lemma activate_replacement_spec old bytes rest fs :
  slots old (Some bytes) None rest fs ->
  runs (activate_replacement path)
    (fun _ fs' => slots (Some bytes) None None rest fs')
    (midway old bytes rest) (midway old bytes rest) fs.
Proof.
  intros Hs. unfold activate_replacement. apply runs_bind, runs_exists.
  assert (midway old bytes rest fs) by (by eapply (mid_torn _ _ _ _ bytes)).
  apply runs_bind. case_bool_decide as Hp.
  - destruct Hp as [o Ho]. assert (old = Some o) as -> by (destruct Hs; congruence).
    pose proof (slots_path_to_bak _ _ _ _ _ Hs) as Hm.
    eapply runs_rename; [exact Ho| |by eapply mid_moved|done..].
    by apply (activate_tail_spec (Some o)).
  - apply runs_pure. apply (activate_tail_spec old).
    assert (old = None) as -> by (apply eq_None_not_Some in Hp; destruct Hs; congruence).
    done.
Qed.

(** A replacement that starts clean ends with the new bytes, or stops midway. *)
Lemma replace_service_file_spec old bytes rest fs :
  slots old None None rest fs ->
  runs (replace_service_file path bytes)
    (fun _ fs' => slots (Some bytes) None None rest fs')
    (midway old bytes rest) (midway old bytes rest) fs.
Proof.
  intros Hs. unfold replace_service_file.
  apply runs_bind, runs_exists, runs_bind, runs_exists.
  rewrite (slot_new _ _ _ _ _ Hs), (slot_bak _ _ _ _ _ Hs).
  apply runs_bind, runs_lift; [intros [] _|done].
  assert (forall c fs', c `prefix_of` bytes -> slots old (Some c) None rest fs' ->
            midway old bytes rest fs') as Htorn by (intros; by eapply mid_torn).
  pose proof (slots_write [] _ _ _ _ _ Hs) as H1.
  apply runs_bind. eapply runs_io; [by rewrite (slot_new _ _ _ _ _ Hs)| | |].
  2: { by apply (Htorn []); [apply prefix_nil|]. }
  2: { intros k. split; by apply mid_before. }
  revert H1. generalize (<[temporary := []]> fs). intros fs1 H1.
  assert (forall k, slots old (Some (take k bytes)) None rest (<[temporary := take k bytes]> fs1))
    as H2 by (intros k; by eapply slots_write).
  pose proof (slots_write bytes _ _ _ _ _ H1) as H3.
  apply runs_bind. eapply runs_io; [done| |by eapply Htorn|].
  2: { intros k. split; eapply Htorn; eauto using take_prefix. }
  revert H3. generalize (<[temporary := bytes]> fs1). intros fs2 H3.
  apply runs_bind. eapply runs_io; [done| |by eapply Htorn|].
  2: { intros k. split; eapply Htorn; eauto using take_prefix, slots_truncate. }
  by apply activate_replacement_spec.
Qed.

(** ** Recovering from an interrupted replacement *)

(** What a recovery may leave: the old bytes or the new ones; only a file that
    did not exist may come out absent or cut short. *)
Definition recovered_value (old : option (list byte)) (bytes : list byte)
    (v : option (list byte)) : Prop :=
  v = old \/ v = Some bytes \/ (old = None /\ exists c, c `prefix_of` bytes /\ v = Some c).

Ltac finished_with H := eexists; split; [exact H|eauto 6].

Lemma recover_spec old bytes rest fs :
  midway old bytes rest fs ->
  runs (recover_service_file_replacement path)
    (fun _ fs' => exists v, slots v None None rest fs' /\ recovered_value old bytes v)
    (midway old bytes rest) (midway old bytes rest) fs.
Proof.
  intros Hm. unfold recover_service_file_replacement.
  apply runs_bind, runs_exists, runs_bind, runs_exists, runs_bind, runs_exists.
  unfold recovered_value.
  destruct Hm as [Hs|c Hc Hs|o -> Hs|Hs|Hs|c -> Hc Hs];
    rewrite (slot_path _ _ _ _ _ Hs), (slot_new _ _ _ _ _ Hs), (slot_bak _ _ _ _ _ Hs).
  - destruct old as [o|]; cbn; apply runs_pure; by finished_with Hs.
  - destruct old as [o|]; cbn.
    + pose proof (slots_remove_new _ _ _ _ _ Hs) as Hd.
      eapply runs_remove; [apply Hs|by finished_with Hd|by apply mid_before|by eapply mid_torn..].
    + pose proof (slots_new_to_path _ _ _ _ _ Hs) as Hd.
      eapply runs_rename; [apply Hs|by finished_with Hd|by eapply mid_promoted|by eapply mid_torn..].
  - cbn. pose proof (slots_new_to_path _ _ _ _ _ Hs) as Hd.
    apply runs_bind. eapply runs_rename; [apply Hs| |by apply mid_active|by eapply mid_moved..].
    pose proof (slots_remove_bak _ _ _ _ _ Hd) as He.
    eapply runs_remove; [apply Hd|by finished_with He|by apply mid_done|by apply mid_active..].
  - destruct old as [o|]; cbn; [|apply runs_pure; by finished_with Hs].
    pose proof (slots_remove_bak _ _ _ _ _ Hs) as Hd.
    eapply runs_remove; [apply Hs|by finished_with Hd|by apply mid_done|by apply mid_active..].
  - cbn. apply runs_pure; by finished_with Hs.
  - cbn. apply runs_pure; by finished_with Hs.
Qed.

(** Without faults a recovery and a replacement succeed. *)
Ltac disk_run := cbv [mbind M_bind bind path_exists gets lift attempt pure]; cbn [files fates].

Lemma recover_works old bytes rest fs :
  midway old bytes rest fs ->
  exists fs', recover_service_file_replacement path (mkDisk fs []) = (Done (Ok tt), mkDisk fs' []).
Proof.
  intros Hm. unfold recover_service_file_replacement. disk_run.
  destruct Hm as [Hs|c Hc Hs|o -> Hs|Hs|Hs|c -> Hc Hs];
    rewrite (slot_path _ _ _ _ _ Hs), (slot_new _ _ _ _ _ Hs), (slot_bak _ _ _ _ _ Hs);
    try (destruct old as [o|]); cbn; try (by eexists).
  - by rewrite (slot_new _ _ _ _ _ Hs); eexists.
  - by rewrite (slot_new _ _ _ _ _ Hs); eexists.
  - rewrite (slot_new _ _ _ _ _ Hs). cbn.
    by rewrite (slot_bak _ _ _ _ _ (slots_new_to_path _ _ _ _ _ Hs)); eexists.
  - by rewrite (slot_bak _ _ _ _ _ Hs); eexists.
Qed.

(** Recoveries that failed or were interrupted, then one that returned. *)
Inductive recovered : Disk -> Disk -> Prop :=
  | recovered_now d d' :
      recover_service_file_replacement path d = (Done (Ok tt), d') -> recovered d d'
  | recovered_later d o d1 ft d' :
      recover_service_file_replacement path d = (o, d1) -> o <> Done (Ok tt) ->
      recovered (mkDisk (files d1) ft) d' -> recovered d d'.

Lemma runs_result {A} (m : M Disk A) Q E C d o d' :
  runs m Q E C (files d) -> m d = (o, d') ->
  match o with
  | Done (Ok a) => Q a (files d')
  | Done (Err _) => E (files d')
  | Crashed => C (files d')
  | OutOfFuel => False
  end.
Proof.
  intros Hr Hm. specialize (Hr (fates d)). rewrite disk_eta in Hr. unfold wp in Hr.
  rewrite Hm in Hr. by destruct o as [[]| |].
Qed.

Lemma recovered_spec old bytes rest d d' :
  midway old bytes rest (files d) -> recovered d d' ->
  exists v, slots v None None rest (files d') /\ recovered_value old bytes v.
Proof.
  intros Hm Hr. induction Hr as [d d' Hrec|d o d1 ft d' Hrec Ho Hr IH].
  - by apply (runs_result _ _ _ _ _ _ _ (recover_spec _ _ _ _ Hm) Hrec).
  - apply IH. pose proof (runs_result _ _ _ _ _ _ _ (recover_spec _ _ _ _ Hm) Hrec) as Hmid.
    by destruct o as [[[]|e]| |].
Qed.
End replacement.

(** ** Without failures, and with any content *)

Definition is_failure (f : Fate) : bool := match f with Fails _ => true | _ => false end.
Definition failures (l : list Fate) : nat := length (List.filter is_failure l).

Lemma failures_tail l : (failures (tail l) <= failures l)%nat.
Proof. destruct l as [|[] l]; unfold failures; cbn; lia. Qed.

Lemma failures_head_fails l k :
  default Works (head l) = Fails k -> (S (failures (tail l)) = failures l)%nat.
Proof. destruct l as [|f l]; cbn; [done|]. by intros ->. Qed.

(** Where no operation fails: the code returns, or the machine stops. *)
Definition surely {A} (m : M Disk A) (Q : A -> Files -> Prop) (C : Files -> Prop)
    (fs : Files) : Prop :=
  forall ft, failures ft = 0%nat ->
    wp m (fun a d => failures (fates d) = 0%nat /\ Q a (files d)) (fun _ _ => False)
      (fun d => C (files d)) (mkDisk fs ft).

Section surely.
Context {A B : Type}.

Lemma surely_pure (a : A) (Q : A -> Files -> Prop) C fs : Q a fs -> surely (pure a) Q C fs.
Proof. by intros HQ ft Hf. Qed.

Lemma surely_bind (m : M Disk A) (k : A -> M Disk B) Q C fs :
  surely m (fun a fs' => surely (k a) Q C fs') C fs -> surely (m ≫= k) Q C fs.
Proof.
  intros Hm ft Hf. apply wp_bind. eapply wp_mono; [exact (Hm ft Hf)| |done|done].
  cbv beta. intros a d [Hd Hk]. rewrite <- (disk_eta d). by apply Hk.
Qed.

Lemma surely_attempt (m : M Disk A) Q (C : Files -> Prop) fs :
  surely m (fun a => Q (Ok a)) C fs -> surely (attempt m) Q C fs.
Proof.
  intros Hm ft Hf. apply wp_attempt. by eapply wp_mono; [exact (Hm ft Hf)|..].
Qed.

Lemma surely_lift (a : A) r Q (C : Files -> Prop) fs :
  r = Ok a -> Q a fs -> surely (lift r) Q C fs.
Proof. intros -> HQ ft Hf. by apply wp_lift; [intros ? [= <-]|]. Qed.
End surely.

Lemma surely_exists p (Q : bool -> Files -> Prop) C fs :
  Q (bool_decide (is_Some (fs !! p))) fs -> surely (path_exists p) Q C fs.
Proof. by intros HQ ft Hf. Qed.

Lemma surely_io effect partial e (Q : () -> Files -> Prop) (C : Files -> Prop) fs fs' :
  effect fs = Some fs' -> Q tt fs' -> C fs' -> (forall k, C (partial k fs)) ->
  surely (io effect partial e) Q C fs.
Proof.
  intros He HQ HC Hp ft Hf. unfold wp, io, next_fate. cbn [files fates].
  pose proof (failures_tail ft).
  destruct (default Works (head ft)) as [|k|k|] eqn:E; cbn [files fates]; rewrite ?He; auto.
  - split; [cbn [fates]; lia|done].
  - apply failures_head_fails in E. lia.
Qed.

Section slots_again.
Context (path : string) (Hdist : slots_distinct path).
#[local] Abbreviation temporary := (with_extension path "new").
#[local] Abbreviation backup := (with_extension path "bak").

Lemma replace_service_file_surely old bytes rest fs :
  slots path old None None rest fs ->
  surely (replace_service_file path bytes)
    (fun _ fs' => slots path (Some bytes) None None rest fs') (midway path old bytes rest) fs.
Proof.
  intros Hs ft Hf.
  pose proof (replace_service_file_spec path Hdist old bytes rest fs Hs ft) as Hr.
  enough (surely (replace_service_file path bytes) (fun _ _ => True) (fun _ => True) fs) as H.
  { specialize (H ft Hf). revert Hr H. unfold wp.
    by destruct (replace_service_file path bytes (mkDisk fs ft)) as [[[|]| |] d]; [intros ? []|..]. }
  clear Hr ft Hf. unfold replace_service_file, activate_replacement.
  apply surely_bind, surely_exists, surely_bind, surely_exists.
  rewrite (slot_new _ _ _ _ _ _ Hs), (slot_bak _ _ _ _ _ _ Hs).
  apply surely_bind. eapply surely_lift; [done|]. cbv beta.
  apply surely_bind. eapply surely_io; [by rewrite (slot_new _ _ _ _ _ _ Hs)| |done..].
  apply surely_bind. eapply surely_io; [done| |done..].
  apply surely_bind. eapply surely_io; [done| |done..].
  assert (slots path old (Some bytes) None rest
            (<[temporary := bytes]> (<[temporary := []]> fs))) as H1.
  { apply (slots_write path Hdist bytes _ (Some [])). by apply (slots_write path Hdist [] _ None). }
  revert H1. generalize (<[temporary := bytes]> (<[temporary := []]> fs)). intros fs1 H1.
  apply surely_bind, surely_exists, surely_bind.
  assert (forall fs2, slots path None (Some bytes) old rest fs2 ->
    surely (activated ← attempt (rename temporary path
            (io_error "protected replacement cannot be activated"));
          match activated with
          | Err e =>
              saved ← path_exists backup;
              _ ← (if (saved : bool)
                   then _ ← attempt (rename backup path e); pure tt else pure tt);
              fail (io_error "protected replacement cannot be activated")
          | Ok _ =>
              saved ← path_exists backup;
              if (saved : bool)
              then remove_file backup (io_error "protected backup cannot be cleaned") else pure tt
          end) (fun _ _ => True) (fun _ => True) fs2) as Htail.
  { intros fs2 H2. apply surely_bind, surely_attempt.
    eapply surely_io; [by rewrite (slot_new _ _ _ _ _ _ H2)| |done..].
    apply surely_bind, surely_exists. case_bool_decide as Hb; [|by apply surely_pure].
    destruct Hb as [c Hc]. by eapply surely_io; [rewrite Hc|..]. }
  rewrite (slot_path _ _ _ _ _ _ H1). destruct old as [o|]; cbn.
  - eapply surely_io; [by rewrite (slot_path _ _ _ _ _ _ H1)| |done..].
    apply Htail. by eapply (slots_path_to_bak path Hdist).
  - apply surely_pure. by apply Htail.
Qed.

(** The three files hold nothing but bytes with a property. *)
Definition holds (P : list byte -> Prop) (fs : Files) : Prop :=
  forall q c, q ∈ [path; temporary; backup] -> fs !! q = Some c -> P c.

Lemma holds_delete P a fs : holds P fs -> holds P (delete a fs).
Proof. intros Hh q c Hq [_ Hc]%lookup_delete_Some. by eapply Hh. Qed.

Lemma holds_move P a b c fs :
  a ∈ [path; temporary; backup] -> fs !! a = Some c -> holds P fs ->
  holds P (<[b := c]> (delete a fs)).
Proof.
  intros Ha Hc Hh q d Hq Hd. destruct (decide (q = b)) as [->|Hne].
  - rewrite lookup_insert_eq in Hd. injection Hd as <-. by apply (Hh a).
  - rewrite lookup_insert_ne in Hd by done. by apply (holds_delete P a fs Hh q).
Qed.

(** A recovery moves and removes files only, and leaves no side file. *)
Lemma recover_holds P fs :
  holds P fs ->
  runs (recover_service_file_replacement path)
    (fun _ fs' => holds P fs' /\ fs' !! temporary = None /\ fs' !! backup = None)
    (holds P) (holds P) fs.
Proof.
  intros Hh. destruct Hdist as [Hn Hb]. pose proof (slots_new_bak path) as Hnb.
  unfold recover_service_file_replacement.
  apply runs_bind, runs_exists, runs_bind, runs_exists, runs_bind, runs_exists.
  destruct (fs !! path) as [p|] eqn:Ep, (fs !! temporary) as [t|] eqn:Et,
    (fs !! backup) as [k|] eqn:Ek; cbn; try (by apply runs_pure); try (by apply runs_fail).
  all: assert (holds P (delete temporary fs)) by (by apply holds_delete);
       assert (holds P (delete backup fs)) by (by apply holds_delete).
  - eapply runs_remove; [exact Et|split_and!; by simplify_map_eq|done..].
  - eapply runs_remove; [exact Ek|split_and!; by simplify_map_eq|done..].
  - assert (holds P (<[path := t]> (delete temporary fs)))
      by (apply holds_move; [set_solver|done..]).
    apply runs_bind. eapply runs_rename; [exact Et| |done..].
    eapply runs_remove; [by simplify_map_eq| |by apply holds_delete|done..].
    split_and!; [by apply holds_delete|by simplify_map_eq..].
  - assert (holds P (<[path := t]> (delete temporary fs)))
      by (apply holds_move; [set_solver|done..]).
    eapply runs_rename; [exact Et|split_and!; by simplify_map_eq|done..].
  - assert (holds P (<[path := k]> (delete backup fs)))
      by (apply holds_move; [set_solver|done..]).
    eapply runs_rename; [exact Ek|split_and!; by simplify_map_eq|done..].
Qed.

Lemma midway_holds (P : list byte -> Prop) old bytes rest fs :
  (forall c, c `prefix_of` bytes -> P c) -> (forall o, old = Some o -> P o) ->
  midway path old bytes rest fs -> holds P fs.
Proof.
  intros Hb Ho Hm q c Hq Hc. assert (P bytes) by (by apply Hb).
  destruct Hm as [Hs|d Hd Hs|o -> Hs|Hs|Hs|d -> Hd Hs]; destruct Hs as [E1 E2 E3 _];
    rewrite !elem_of_cons in Hq; destruct Hq as [->|[->|[->|Hq%not_elem_of_nil]]];
    try done; simplify_eq; auto.
Qed.
End slots_again.

(** Replacing a service file is atomic.  Start from a file with bytes [old]
    and no leftover of an earlier replacement; run the replacement under any
    faults, up to a crash at any operation, and then any number of recoveries,
    each failing or crashing, until one returns: the file holds exactly [old] or
    exactly the new bytes (the new ones if the replacement had returned), both
    side files are gone and no other file changed.  A recovery that meets no
    fault does return. *)
Theorem replacement_atomic path bytes fs old ft o d1 ft' d' :
  slots_distinct path ->
  fs !! path = Some old -> fs !! with_extension path "new" = None ->
  fs !! with_extension path "bak" = None ->
  replace_service_file path bytes (mkDisk fs ft) = (o, d1) ->
  (exists d2, recover_service_file_replacement path (mkDisk (files d1) []) = (Done (Ok tt), d2))
  /\ (recovered path (mkDisk (files d1) ft') d' ->
      (files d' = fs \/ files d' = <[path := bytes]> fs)
      /\ (o = Done (Ok tt) -> files d' = <[path := bytes]> fs)).
Proof.
  intros Hd Hp Hn Hb Hrep.
  assert (slots path (Some old) None None fs fs) as Hs by (by split).
  pose proof (runs_result _ _ _ _ (mkDisk fs ft) _ _
    (replace_service_file_spec path Hd _ bytes _ _ Hs) Hrep) as Ho.
  assert (midway path (Some old) bytes fs (files d1)) as Hm.
  { destruct o as [[[]|e]| |]; try done. by apply mid_done. }
  assert (forall v, slots path v None None fs (files d') ->
            files d' = match v with Some c => <[path := c]> fs | None => delete path fs end) as Heq.
  { intros v [Ev En Eb Er]. apply map_eq. intros q.
    destruct (decide (q = path)) as [->|Hqp]; [destruct v; simplify_map_eq; done|].
    assert (files d' !! q = fs !! q) as ->.
    { destruct (decide (q = with_extension path "new")) as [->|Hqn]; [congruence|].
      destruct (decide (q = with_extension path "bak")) as [->|Hqb]; [congruence|].
      by apply Er. }
    by destruct v; simplify_map_eq. }
  split.
  - destruct (recover_works path Hd _ _ _ _ Hm) as [fs' E]. by eexists.
  - intros Hr. destruct (recovered_spec path Hd _ bytes _ (mkDisk (files d1) ft') d' Hm Hr)
      as (v & Hv & Hval). split.
    + destruct Hval as [->|[->|[? _]]]; [left|right; by apply (Heq (Some bytes))|done].
      rewrite (Heq _ Hv). by apply insert_id.
    + intros ->. assert (slots path (Some bytes) None None fs (files d1)) as Hd1 by done.
      clear -Hd Hr Hd1 Heq Hp. apply (Heq (Some bytes)).
      assert (midway path (Some bytes) bytes fs (files d1)) as Hm by (by apply mid_before).
      destruct (recovered_spec path Hd _ bytes _ (mkDisk (files d1) ft') d' Hm Hr)
        as (v & Hv & [->|[->|[? _]]]); done.
Qed.

(** A crash between the two renames of a replacement. *)
Definition sample_file : string := "generations-v1.json".
Definition sample_files : Files := {[ sample_file := as_bytes "old" ]}.
Definition sample_crash : Disk :=
  mkDisk sample_files [Works; Works; Works; Works; StopsBefore 0].

Lemma replacement_atomic_witness :
  exists d', recovered sample_file
    (mkDisk (files (snd (replace_service_file sample_file (as_bytes "new!") sample_crash))) []) d'
  /\ (files d' = sample_files \/ files d' = <[sample_file := as_bytes "new!"]> sample_files).
Proof.
  assert (exists d', recover_service_file_replacement sample_file
    (mkDisk (files (snd (replace_service_file sample_file (as_bytes "new!") sample_crash))) [])
    = (Done (Ok tt), d')) as [d' Hrec] by (by eexists; vm_compute).
  exists d'. pose proof (recovered_now _ _ _ Hrec) as Hr. split; [exact Hr|].
  refine (proj1 (proj2 (replacement_atomic sample_file (as_bytes "new!") sample_files
    (as_bytes "old") (fates sample_crash) _ _ [] d' _ _ _ _ _) Hr)).
  - split; by vm_compute.
  - by vm_compute.
  - by vm_compute.
  - by vm_compute.
  - apply surjective_pairing.
Defined.

(** A file written for the first time is not protected: when the machine
    stops inside that write (or the write fails), the next recovery activates
    the bytes that reached the disk, an arbitrary prefix, as the file. *)
Theorem torn_first_write_activated path bytes k :
  slots_distinct path ->
  let d1 := snd (replace_service_file path bytes (mkDisk ∅ [Works; StopsBefore k])) in
  exists d', recovered path (mkDisk (files d1) []) d' /\ files d' = {[ path := take k bytes ]}.
Proof.
  intros [Hn Hb] d1. pose proof (slots_new_bak path) as Hnb.
  assert (files d1 = {[ with_extension path "new" := take k bytes ]}) as E.
  { unfold d1, replace_service_file. cbv [mbind M_bind bind path_exists gets lift].
    cbn. rewrite !lookup_empty. cbn. by rewrite insert_insert_eq. }
  eexists. split; [|shelve]. apply recovered_now. rewrite E.
  unfold recover_service_file_replacement. cbv [mbind M_bind bind path_exists gets].
  cbn [files fates].
  rewrite lookup_singleton_eq, !lookup_singleton_ne by done. cbn.
  rewrite lookup_singleton_eq. reflexivity.
  Unshelve. cbn. by rewrite delete_singleton_eq.
Qed.

Lemma torn_first_write_activated_witness :
  slots_distinct sample_file /\
  exists d', recovered sample_file
    (mkDisk (files (snd (replace_service_file sample_file (as_bytes "{json}")
                           (mkDisk ∅ [Works; StopsBefore 3])))) []) d'
  /\ files d' = {[ sample_file := as_bytes "{js" ]}.
Proof.
  assert (slots_distinct sample_file) as Hd by (split; by vm_compute).
  split; [exact Hd|]. exact (torn_first_write_activated sample_file (as_bytes "{json}") 3 Hd).
Defined.
