(* ===== verification/RegistryStorage.v ===== *)
(** * Saving and loading the two registries

    [RootRegistry::save]/[load] of src/src/roots.rs, the same code of
    src/src/registry_scopes.rs, and the start-up part of
    [recover_service_state] of src/src/windows.rs that reads them. *)

From S2P Require Import Prelude Errors Effects Json Storage Roots RegistryScopes RegistrySet.

(** Opening a file for writing and flushing it, when its data is already on
    the disk. *)
Definition reopen_and_sync (p : string) : MaintenanceError -> M Disk () :=
  io (fun fs => match fs !! p with Some _ => Some fs | None => None end) unchanged.

(** ** The two-rename save

    Both files have this code; they differ in the error of each step, [err]. *)

Section save.
Context (err : string -> MaintenanceError).

Definition commit_save (path : string) : M Disk () :=
  let temporary := with_extension path "new" in
  let backup := with_extension path "bak" in
  current ← path_exists path;
  _ ← (if (current : bool) then
         stale ← path_exists backup;
         _ ← (if (stale : bool)
              then remove_file backup (err "stale root registry backup cannot be removed")
              else pure tt);
         rename path backup (err "root registry backup rename failed")
       else pure tt);
  committed ← attempt (rename temporary path (err "root registry commit rename failed"));
  match committed with
  | Err e =>
      saved ← path_exists backup;
      _ ← (if (saved : bool) then _ ← attempt (rename backup path e); pure tt else pure tt);
      fail (err "root registry commit rename failed")
  | Ok _ =>
      saved ← path_exists backup;
      _ ← (if (saved : bool)
           then remove_file backup (err "root registry backup cleanup failed") else pure tt);
      reopen_and_sync path (err "root registry sync failed")
  end.

Definition save_bytes (path : string) (bytes : list byte) : M Disk () :=
  let temporary := with_extension path "new" in
  _ ← create_truncate temporary (err "root registry temp cannot open");
  _ ← write_all temporary bytes (err "root registry temp write failed");
  _ ← sync_all temporary (err "root registry temp sync failed");
  commit_save path.
End save.

Definition load_bytes (path : string) (maximum : N) (e : MaintenanceError) : M Disk (list byte) :=
  current ← read_bounded path maximum;
  match current with
  | Some bytes => pure bytes
  | None =>
      backup ← read_bounded (with_extension path "bak") maximum;
      match backup with Some bytes => pure bytes | None => fail e end
  end.

Section registries.
Context `{SerdeJson, UnicodeCase, !Reader RootRegistryDocument,
          !Reader RegistryScopeRegistryDocument}.

Definition save_roots (roots : RootRegistry) (path : string) : M Disk () :=
  bytes ← lift (encode_roots roots);
  save_bytes (new_error TransactionIo) path bytes.

Definition load_roots (path : string) : M Disk RootRegistry :=
  bytes ← load_bytes path MAX_ROOT_REGISTRY_BYTES
            (new_error RootInvalid "root registry and backup cannot be read");
  lift (decode_roots bytes).

Definition scope_io (_ : string) : MaintenanceError :=
  new_error RegistryIo "registry-scope state I/O failed".

Definition save_scopes (scopes : RegistryScopeRegistry) (path : string) : M Disk () :=
  bytes ← lift (encode_scopes scopes);
  save_bytes scope_io path bytes.

Definition load_scopes (path : string) : M Disk RegistryScopeRegistry :=
  bytes ← load_bytes path MAX_REGISTRY_SCOPE_REGISTRY_BYTES
            (new_error RegistryScopeInvalid "registry-scope registry and backup cannot be read");
  lift (decode_scopes bytes).

(** [recover_service_state]: a missing file means an empty registry. *)
Definition startup_roots (path : string) : M Disk RootRegistry :=
  found ← path_exists path;
  if (found : bool) then load_roots path else pure ∅.

Definition startup_scopes (path : string) : M Disk RegistryScopeRegistry :=
  found ← path_exists path;
  if (found : bool) then load_scopes path else pure ∅.
End registries.

(** ** Crash safety of save and load *)

Section crash.
Context (path : string) (Hdist : slots_distinct path).
#[local] Abbreviation temporary := (with_extension path "new").
#[local] Abbreviation backup := (with_extension path "bak").

(** The bytes [load] finds. *)
Definition loadable (bytes : list byte) (fs : Files) : Prop :=
  fs !! path = Some bytes \/ (fs !! path = None /\ fs !! backup = Some bytes).

Definition either (old bytes : list byte) (fs : Files) : Prop :=
  loadable old fs \/ loadable bytes fs.

Ltac dist := destruct Hdist as [??]; pose proof (slots_new_bak path).

Lemma runs_if (b : bool) (m : M Disk ()) (Q : () -> Files -> Prop) E C fs :
  (b = true -> runs m Q E C fs) -> (b = false -> Q tt fs) ->
  runs (if b then m else pure tt) Q E C fs.
Proof. destruct b; intros Hm Hp; [by apply Hm|by apply runs_pure, Hp]. Qed.

(** After the new bytes are at [path]. *)
Lemma remove_backup_spec err old bytes fs :
  fs !! path = Some bytes ->
  runs (saved ← path_exists backup;
        _ ← (if (saved : bool)
             then remove_file backup (err "root registry backup cleanup failed") else pure tt);
        reopen_and_sync path (err "root registry sync failed"))
    (fun _ => loadable bytes) (either old bytes) (either old bytes) fs.
Proof.
  dist. intros Hp. apply runs_bind, runs_exists, runs_bind.
  assert (forall fs', fs' !! path = Some bytes ->
            runs (reopen_and_sync path (err "root registry sync failed"))
              (fun _ => loadable bytes) (either old bytes) (either old bytes) fs') as Hsync.
  { intros fs' Hp'. eapply runs_io; [by rewrite Hp'|by left|by right; left|].
    intros k. split; right; by left. }
  case_bool_decide as Hb; [|by apply runs_pure, Hsync].
  destruct Hb as [c Hc]. eapply runs_remove; [exact Hc| | |by right; left..].
  - apply Hsync. by rewrite lookup_delete_ne.
  - right; left. by rewrite lookup_delete_ne.
Qed.

(** The commit, once the current file is out of the way. *)
Lemma commit_tail_spec err old bytes fs :
  fs !! temporary = Some bytes -> fs !! path = None -> fs !! backup = Some old ->
  runs (committed ← attempt (rename temporary path (err "root registry commit rename failed"));
        match committed with
        | Err e =>
            saved ← path_exists backup;
            _ ← (if (saved : bool)
                 then _ ← attempt (rename backup path e); pure tt else pure tt);
            fail (err "root registry commit rename failed")
        | Ok _ =>
            saved ← path_exists backup;
            _ ← (if (saved : bool)
                 then remove_file backup (err "root registry backup cleanup failed") else pure tt);
            reopen_and_sync path (err "root registry sync failed")
        end)
    (fun _ => loadable bytes) (either old bytes) (either old bytes) fs.
Proof.
  intros Ht Hp Hb. dist.
  assert (either old bytes fs) as He by (left; by right).
  apply runs_bind, runs_attempt. eapply runs_rename; [exact Ht| | | |exact He].
  - apply remove_backup_spec. by simplify_map_eq.
  - right; left. by simplify_map_eq.
  - intros e. apply runs_bind, runs_exists, runs_bind. rewrite Hb. cbn.
    apply runs_bind, runs_attempt.
    assert (either old bytes (<[path := old]> (delete backup fs)))
      by (left; left; by simplify_map_eq).
    eapply runs_rename; [exact Hb|by apply runs_pure, runs_fail|done| |exact He].
    intros _. by apply runs_pure, runs_fail.
Qed.

Lemma commit_save_spec err old bytes fs :
  loadable old fs -> fs !! temporary = Some bytes ->
  runs (commit_save err path)
    (fun _ => loadable bytes) (either old bytes) (either old bytes) fs.
Proof.
  intros Hl Ht. dist. unfold commit_save. apply runs_bind, runs_exists, runs_bind.
  assert (either old bytes fs) by by left.
  destruct Hl as [Hp|[Hp Hb]]; rewrite Hp; cbn; [|by apply runs_pure, commit_tail_spec].
  assert (forall fs', fs' !! path = Some old -> fs' !! temporary = Some bytes ->
            runs (rename path backup (err "root registry backup rename failed"))
              (fun _ fs2 => fs2 !! temporary = Some bytes /\ fs2 !! path = None
                            /\ fs2 !! backup = Some old)
              (either old bytes) (either old bytes) fs') as Hren.
  { intros fs' Hp' Ht'. eapply runs_rename; [exact Hp'|by simplify_map_eq| |by left; left..].
    left; right. by simplify_map_eq. }
  apply runs_mono with
    (Q := fun _ fs2 => fs2 !! temporary = Some bytes /\ fs2 !! path = None
                       /\ fs2 !! backup = Some old)
    (E := either old bytes) (C := either old bytes); [| |done..].
  - apply runs_bind, runs_exists, runs_bind. case_bool_decide as Hb.
    + destruct Hb as [c Hc]. eapply runs_remove; [exact Hc| | |done..].
      * apply Hren; by simplify_map_eq.
      * left; left. by simplify_map_eq.
    + by apply runs_pure, Hren.
  - intros [] fs2 (?&?&?). by apply commit_tail_spec.
Qed.

Lemma save_bytes_spec err old bytes fs :
  loadable old fs ->
  runs (save_bytes err path bytes)
    (fun _ => loadable bytes) (either old bytes) (either old bytes) fs.
Proof.
  intros Hl. dist. unfold save_bytes.
  assert (forall c fs', loadable old fs' -> loadable old (<[temporary := c]> fs')) as Hw.
  { intros c fs' [Hp|[Hp Hb]]; [left|right]; by simplify_map_eq. }
  assert (forall k fs', loadable old fs' -> loadable old (alter (take k) temporary fs')) as Ha.
  { intros k fs' [Hp|[Hp Hb]]; [left|right]; by rewrite ?lookup_alter_ne. }
  apply runs_bind. eapply runs_io; [done| |left; by apply Hw|by split; left].
  apply (Hw []) in Hl. revert Hl. generalize (<[temporary := []]> fs). intros fs1 Hl.
  apply runs_bind. eapply runs_io; [done| |left; by apply Hw|by split; left; apply Hw].
  apply runs_bind. eapply runs_io; [done| |left; by apply Hw|by split; left; apply Ha, Hw].
  apply commit_save_spec; [by apply Hw|by simplify_map_eq].
Qed.

Lemma load_bytes_loadable bytes maximum e fs ft :
  loadable bytes fs -> (N.of_nat (length bytes) <= maximum)%N ->
  load_bytes path maximum e (mkDisk fs ft) = (Done (Ok bytes), mkDisk fs ft).
Proof.
  intros Hl Hm%N.leb_le. unfold load_bytes, read_bounded.
  cbv [mbind M_bind bind gets pure]. cbn [files].
  destruct Hl as [Hp|[Hp Hb]]; rewrite Hp; cbn; [by rewrite Hm|].
  rewrite Hb. cbn. by rewrite Hm.
Qed.
End crash.

Section roots_on_disk.
Context `{SerdeJson, UnicodeCase, !Reader RootRegistryDocument,
          !Reader RegistryScopeRegistryDocument}.
Context `{!ReaderLaws RootRegistryDocument, !ReaderLaws RegistryScopeRegistryDocument}.

Lemma encode_roots_bound roots bytes :
  encode_roots roots = Ok bytes -> (N.of_nat (length bytes) <= MAX_ROOT_REGISTRY_BYTES)%N.
Proof. unfold encode_roots. intros He. ok_inv. bool_inv. by subst. Qed.

Lemma encode_scopes_bound scopes bytes :
  encode_scopes scopes = Ok bytes ->
  (N.of_nat (length bytes) <= MAX_REGISTRY_SCOPE_REGISTRY_BYTES)%N.
Proof. unfold encode_scopes. intros He. ok_inv. bool_inv. by subst. Qed.

Lemma load_roots_loadable path roots bytes fs ft :
  roots_wf roots -> encode_roots roots = Ok bytes -> loadable path bytes fs ->
  load_roots path (mkDisk fs ft) = (Done (Ok roots), mkDisk fs ft).
Proof.
  intros Hwf He Hl. unfold load_roots, mbind, M_bind, bind.
  rewrite (load_bytes_loadable path bytes) by (eauto using encode_roots_bound).
  unfold lift. by rewrite (decode_encode_roots roots bytes).
Qed.

Lemma load_scopes_loadable path scopes bytes fs ft :
  scopes_wf scopes -> encode_scopes scopes = Ok bytes -> loadable path bytes fs ->
  load_scopes path (mkDisk fs ft) = (Done (Ok scopes), mkDisk fs ft).
Proof.
  intros Hwf He Hl. unfold load_scopes, mbind, M_bind, bind.
  rewrite (load_bytes_loadable path bytes) by (eauto using encode_scopes_bound).
  unfold lift. by rewrite (decode_encode_scopes scopes bytes).
Qed.

Lemma save_outcome err path old bytes fs ft o d1 :
  slots_distinct path -> loadable path old fs ->
  save_bytes err path bytes (mkDisk fs ft) = (o, d1) ->
  loadable path bytes (files d1) \/ (loadable path old (files d1) /\ o <> Done (Ok tt)).
Proof.
  intros Hd Hl Hs.
  pose proof (runs_result _ _ _ _ (mkDisk fs ft) _ _
    (save_bytes_spec path Hd err old bytes fs Hl) Hs) as Ho.
  destruct o as [[[]|e]| |]; [by left| | |done]; destruct Ho; auto.
Qed.

(** [load] is safe against a crash of [save]: if the disk holds a registry
    and a save of another one meets any faults or stops anywhere, [load] then
    returns the old registry or the new one, and the new one if the save had
    returned. *)
Theorem save_load_roots_crash_safe path roots0 roots1 old new fs ft o d1 ft' :
  slots_distinct path -> roots_wf roots0 -> roots_wf roots1 ->
  encode_roots roots0 = Ok old -> encode_roots roots1 = Ok new -> loadable path old fs ->
  save_roots roots1 path (mkDisk fs ft) = (o, d1) ->
  exists roots, load_roots path (mkDisk (files d1) ft')
                = (Done (Ok roots), mkDisk (files d1) ft')
    /\ (roots = roots1 \/ (roots = roots0 /\ o <> Done (Ok tt))).
Proof.
  intros Hd W0 W1 E0 E1 Hl Hs. unfold save_roots in Hs. rewrite E1 in Hs.
  destruct (save_outcome (new_error TransactionIo) path old new fs ft o d1) as [Hn|[Ho Hne]];
    [done|done|exact Hs| |].
  - exists roots1. split; [by apply (load_roots_loadable path _ new)|by left].
  - exists roots0. split; [by apply (load_roots_loadable path _ old)|by right].
Qed.

(** The machine stops after the old file was renamed away. *)
Definition stop_between_renames : list Fate := [Works; Works; Works; StopsAfter].

(** Start-up is not: when the machine stops between the two renames of a
    save, the roots are only in the backup file; [load] would return them, but
    start-up sees no file and goes on with an empty registry, and the next save
    removes the backup, so every registration is lost. *)
Theorem startup_loses_interrupted_registry path roots0 roots1 roots2 old new next :
  slots_distinct path -> roots_wf roots0 ->
  encode_roots roots0 = Ok old -> encode_roots roots1 = Ok new ->
  encode_roots roots2 = Ok next ->
  let d1 := snd (save_roots roots1 path (mkDisk {[ path := old ]} stop_between_renames)) in
  fst (load_roots path (mkDisk (files d1) [])) = Done (Ok roots0)
  /\ startup_roots path (mkDisk (files d1) []) = (Done (Ok ∅), mkDisk (files d1) [])
  /\ save_roots roots2 path (mkDisk (files d1) []) = (Done (Ok tt), mkDisk {[ path := next ]} []).
Proof.
  intros [Hn Hb] W0 E0 E1 E2 d1. pose proof (slots_new_bak path) as Hnb.
  assert (files d1 = <[with_extension path "bak" := old]>
                       {[ with_extension path "new" := new ]}) as Ed.
  { unfold d1, save_roots. rewrite E1. unfold save_bytes, commit_save.
    cbv [mbind M_bind bind path_exists gets lift attempt pure]. cbn.
    simplify_map_eq. cbn. simplify_map_eq. apply map_eq. intros q.
    destruct (decide (q = path)), (decide (q = with_extension path "new")),
      (decide (q = with_extension path "bak")); subst; by simplify_map_eq. }
  assert (files d1 !! path = None) as Hp by (rewrite Ed; by simplify_map_eq).
  assert (files d1 !! with_extension path "bak" = Some old) as Ho
    by (rewrite Ed; by simplify_map_eq).
  split_and!.
  - rewrite (load_roots_loadable path roots0 old) by (try done; by right). done.
  - unfold startup_roots. cbv [mbind M_bind bind path_exists gets pure]. cbn [files].
    by rewrite Hp.
  - unfold save_roots. rewrite E2. unfold save_bytes, commit_save.
    cbv [mbind M_bind bind path_exists gets lift attempt pure]. cbn. rewrite Ed.
    simplify_map_eq. cbn. simplify_map_eq. cbn. simplify_map_eq.
    unfold reopen_and_sync, io. cbn. simplify_map_eq. do 2 f_equal.
    apply map_eq. intros q.
    destruct (decide (q = path)), (decide (q = with_extension path "new")),
      (decide (q = with_extension path "bak")); subst; by simplify_map_eq.
Qed.
End roots_on_disk.

