(* ===== verification/Generations.v ===== *)
(** * Accepted generations

    [GenerationRegistry] of src/src/windows.rs: the last accepted generation
    and digest of every root and registry scope, which a later manifest may
    neither go below nor contradict; its protected document, and its [load] and
    [save] over the disk of Storage. *)

From stdpp Require Import relations.
From S2P Require Import Prelude Errors Effects Identifiers Json FileSet Storage.

Definition GENERATION_REGISTRY_KIND : string := "7launcher-maintenance-generations-v1".
Definition GENERATION_REGISTRY_SCHEMA : N := 1.
Definition MAX_GENERATION_REGISTRY_BYTES : N := 1024 * 1024.

Record StoredGeneration := {
  sg_digest : string;
  sg_generation : N;
}.

Record GenerationRegistryDocument := {
  gd_kind : string;
  gd_roots : gmap string StoredGeneration;
  gd_schema : N;
}.

Abbreviation GenerationRegistry := (gmap string StoredGeneration).

Section encoding.
Context `{SerdeJson}.

Definition StoredGeneration_value (g : StoredGeneration) : Value :=
  Object [("digest", VString (sg_digest g));
          ("generation", VNumber (number_of_u64 (sg_generation g)))].

#[export] Instance GenerationRegistryDocument_encoder : Encoder GenerationRegistryDocument :=
  fun d => Some (Object [
    ("kind", VString (gd_kind d));
    ("roots", Object (prod_map id StoredGeneration_value <$> map_to_list (gd_roots d)));
    ("schema", VNumber (number_of_u64 (gd_schema d)))]).
End encoding.

(** ** Operations *)

Definition decode_generation (g : StoredGeneration) : Result GenerationRecord :=
  d ← decode_lower_hex 32 (sg_digest g) GenerationConflict;
  Ok {| generation := sg_generation g; digest := d |}.

Definition previous (generations : GenerationRegistry) (id : string)
    : Result (option GenerationRecord) :=
  match generations !! id with
  | Some g => r ← decode_generation g; Ok (Some r)
  | None => Ok None
  end.

Definition rolls_back (accepted record : GenerationRecord) : bool :=
  (generation record <? generation accepted)%N
  || ((generation record =? generation accepted)%N
      && negb (bool_decide (digest record = digest accepted))).

Definition accept (generations : GenerationRegistry) (id : string) (record : GenerationRecord)
    : Result GenerationRegistry :=
  _ ← ensure (valid_identifier id && negb (generation record =? 0)%N) GenerationConflict
        "accepted generation metadata is invalid";
  accepted ← previous generations id;
  _ ← ensure (match accepted with Some p => negb (rolls_back p record) | None => true end)
        GenerationConflict "accepted generation would roll back or conflict";
  Ok (<[id := {| sg_digest := encode_lower_hex (digest record);
                 sg_generation := generation record |}]> generations).

(** The check of every record of a document that was read. *)
Definition valid_stored_generation (id : string) (g : StoredGeneration) : bool :=
  valid_identifier id && negb (sg_generation g =? 0)%N
  && is_ok (decode_lower_hex 32 (sg_digest g) GenerationConflict).

Section document.
Context `{SerdeJson, !Reader GenerationRegistryDocument}.

Definition decode_generations (bytes : list byte) : Result GenerationRegistry :=
  document ← parse_canonical GenerationRegistryDocument bytes MAX_GENERATION_REGISTRY_BYTES;
  _ ← ensure (bool_decide (gd_kind document = GENERATION_REGISTRY_KIND)
              && (gd_schema document =? GENERATION_REGISTRY_SCHEMA)%N)
        TransactionState "generation registry schema is unsupported";
  _ ← ensure (forallb (fun kv => valid_stored_generation kv.1 kv.2)
                (map_to_list (gd_roots document)))
        TransactionState "generation registry contains an invalid record";
  Ok (gd_roots document).

Definition encode_generations (generations : GenerationRegistry) : Result (list byte) :=
  value ← ok_or (to_value {| gd_kind := GENERATION_REGISTRY_KIND; gd_roots := generations;
                             gd_schema := GENERATION_REGISTRY_SCHEMA |})
            TransactionState "generation registry cannot be encoded";
  bytes ← canonical_json value;
  _ ← ensure (N.of_nat (length bytes) <=? MAX_GENERATION_REGISTRY_BYTES)%N
        TransactionState "generation registry exceeds the bound";
  Ok bytes.

Definition load_generations (path : string) : M Disk GenerationRegistry :=
  _ ← recover_service_file_replacement path;
  found ← path_exists path;
  if (found : bool) then
    bytes ← read_bounded path MAX_GENERATION_REGISTRY_BYTES;
    bytes ← lift (ok_or bytes TransactionState "generation registry cannot be read");
    lift (decode_generations bytes)
  else pure ∅.

Definition save_generations (generations : GenerationRegistry) (path : string) : M Disk () :=
  bytes ← lift (encode_generations generations);
  replace_service_file path bytes.
End document.

(** ** Acceptance *)

(** Every record is one the service could have stored. *)
Definition generations_wf (generations : GenerationRegistry) : Prop :=
  map_Forall (fun id g => valid_stored_generation id g = true) generations.

Lemma generations_wf_empty : generations_wf ∅.
Proof. apply map_Forall_empty. Qed.

Lemma decode_generation_stored d n :
  length d = 32%nat ->
  decode_generation {| sg_digest := encode_lower_hex d; sg_generation := n |}
  = Ok {| generation := n; digest := d |}.
Proof. intros Hd. unfold decode_generation. cbn. by rewrite decode_lower_hex_encode. Qed.

Lemma previous_total generations id :
  generations_wf generations -> exists p, previous generations id = Ok p.
Proof.
  intros Hwf. unfold previous. destruct (generations !! id) as [g|] eqn:E; [|by eexists].
  apply Hwf in E. unfold valid_stored_generation in E. bool_inv.
  match goal with H : is_ok _ = true |- _ => apply is_ok_true in H as [d Hd] end.
  unfold decode_generation. rewrite Hd. by eexists.
Qed.

Lemma rolls_back_follows p r :
  rolls_back p r = false <-> generation_follows (Some p) r.
Proof.
  unfold rolls_back, generation_follows. rewrite orb_false_iff, andb_false_iff, negb_false_iff,
    bool_decide_eq_true, N.ltb_ge, N.eqb_neq. split.
  - intros [Hle Hor] q [= <-]. split; [done|]. intros E. by destruct Hor.
  - intros Hf. destruct (Hf p eq_refl) as [Hle Heq]. split; [done|].
    destruct (N.eq_dec (generation r) (generation p)); auto.
Qed.

Lemma accept_iff generations id r generations' :
  generations_wf generations ->
  accept generations id r = Ok generations' <->
  valid_identifier id = true /\ generation r <> 0%N /\
  (forall p, previous generations id = Ok p -> generation_follows p r) /\
  generations' = <[id := {| sg_digest := encode_lower_hex (digest r);
                            sg_generation := generation r |}]> generations.
Proof.
  intros Hwf. destruct (previous_total generations id Hwf) as [p Hp]. unfold accept.
  rewrite Hp. mred. split.
  - intros Ha. ok_inv. bool_inv. subst. split_and!; [done..| |done].
    intros q [= <-]. destruct p as [p|]; [|by intros ?]. apply rolls_back_follows. by bool_inv.
  - intros (Hid & Hg & Hf & ->). rewrite Hid, (proj2 (N.eqb_neq _ _) Hg). mred.
    destruct p as [p|]; [|done]. by rewrite (proj2 (rolls_back_follows p r) (Hf _ eq_refl)).
Qed.

(** Acceptances one after another. *)
Inductive accept_step : GenerationRegistry -> GenerationRegistry -> Prop :=
  | accepted_next generations id r generations' :
      length (digest r) = 32%nat -> accept generations id r = Ok generations' ->
      accept_step generations generations'.

Lemma accept_wf generations id r generations' :
  generations_wf generations -> length (digest r) = 32%nat ->
  accept generations id r = Ok generations' -> generations_wf generations'.
Proof.
  intros Hwf Hd (Hid & Hg & _ & ->)%accept_iff; [|done].
  apply map_Forall_insert_2; [|done]. unfold valid_stored_generation. cbn.
  rewrite Hid, (proj2 (N.eqb_neq _ _) Hg). unfold encode_lower_hex.
  by rewrite decode_lower_hex_encode.
Qed.

Lemma previous_accepted generations id r q :
  length (digest r) = 32%nat ->
  previous (<[id := {| sg_digest := encode_lower_hex (digest r);
                       sg_generation := generation r |}]> generations) q
  = if decide (q = id) then Ok (Some r) else previous generations q.
Proof.
  intros Hd. unfold previous. case_decide as Hq.
  - subst. rewrite lookup_insert_eq, decode_generation_stored by done. by destruct r.
  - by rewrite lookup_insert_ne.
Qed.

Lemma accept_steps_kept generations generations' id p :
  generations_wf generations -> rtc accept_step generations generations' ->
  previous generations id = Ok (Some p) ->
  generations_wf generations' /\
  exists p', previous generations' id = Ok (Some p')
    /\ (p' = p \/ (generation p < generation p')%N).
Proof.
  intros Hwf Hsteps. revert p Hwf.
  induction Hsteps as [g|g g1 g2 Hstep _ IH]; intros p Hwf Hp; [by eauto|].
  destruct Hstep as [g i r g1 Hd Ha].
  pose proof (accept_wf _ _ _ _ Hwf Hd Ha) as Hwf1.
  apply accept_iff in Ha as (_ & _ & Hf & ->); [|done].
  destruct (decide (id = i)) as [->|Hne].
  - destruct (IH r Hwf1) as (Hwf2 & p' & Hp' & Hle).
    { rewrite previous_accepted by done. by rewrite decide_True. }
    split; [done|]. exists p'. split; [done|].
    destruct (Hf _ Hp p eq_refl) as [Hge Heq], p as [n d], r as [m e]; cbn in *.
    destruct Hle as [->|Hlt]; cbn; [|right; lia].
    destruct (N.eq_dec m n) as [->|]; [left; by rewrite Heq|right; lia].
  - apply IH; [done|]. rewrite previous_accepted by done. by rewrite decide_False.
Qed.

(** A generation is never taken back: whatever is accepted afterwards, for
    whatever roots and scopes, the registry stays well formed, and a root keeps
    its accepted generation with its digest until a higher one replaces it. *)
Theorem generations_never_roll_back generations generations' id p :
  generations_wf generations -> rtc accept_step generations generations' ->
  previous generations id = Ok (Some p) ->
  generations_wf generations' /\
  exists p', previous generations' id = Ok (Some p')
    /\ (p' = p \/ (generation p < generation p')%N).
Proof. apply accept_steps_kept. Qed.

(** ** Saving and loading *)

Section saved.
Context `{SerdeJson, !Reader GenerationRegistryDocument, !ReaderLaws GenerationRegistryDocument}.

Lemma decode_encode_generations generations bytes :
  generations_wf generations -> encode_generations generations = Ok bytes ->
  decode_generations bytes = Ok generations.
Proof.
  intros Hwf He. unfold encode_generations in He. ok_inv. bool_inv. subst.
  unfold decode_generations. rewrite (parse_canonical_encoded _ _ _ _ _ Hx Hx0) by done.
  mred. cbn [gd_kind gd_schema gd_roots]. rewrite bool_decide_true by done. mred.
  replace (forallb _ _) with true; [done|]. symmetry. apply forallb_Forall, Forall_forall.
  intros [id g] Hin%elem_of_map_to_list. by apply Hwf.
Qed.

Lemma encode_generations_bound generations bytes :
  encode_generations generations = Ok bytes ->
  (N.of_nat (length bytes) <= MAX_GENERATION_REGISTRY_BYTES)%N.
Proof. unfold encode_generations. intros He. ok_inv. bool_inv. by subst. Qed.

(** The bytes of a saved registry, at the size the reader accepts. *)
Definition stored_as (generations : GenerationRegistry) (bytes : list byte) : Prop :=
  generations_wf generations /\ encode_generations generations = Ok bytes.

(** What a load does to an interrupted save, whatever faults it meets. *)
Lemma load_generations_spec path old new g0 g1 rest fs :
  slots_distinct path -> stored_as g0 old -> stored_as g1 new ->
  midway path (Some old) new rest fs ->
  runs (load_generations path)
    (fun g fs' => (g = g0 /\ slots path (Some old) None None rest fs')
                  \/ (g = g1 /\ slots path (Some new) None None rest fs'))
    (midway path (Some old) new rest) (midway path (Some old) new rest) fs.
Proof.
  intros Hd [Hw0 He0] [Hw1 He1] Hm. unfold load_generations. apply runs_bind.
  eapply runs_mono; [by apply (recover_spec path Hd (Some old))| |done|done].
  cbv beta. intros [] fs' (v & Hs & Hv).
  assert (exists g bytes, v = Some bytes /\ stored_as g bytes /\
            ((g = g0 /\ bytes = old) \/ (g = g1 /\ bytes = new))) as (g & b & -> & [Hw He] & Hg).
  { destruct Hv as [->|[->|[? _]]]; [|..|done].
    - exists g0, old. split; [done|]. split; [by split|by left].
    - exists g1, new. split; [done|]. split; [by split|by right]. }
  apply runs_bind, runs_exists. rewrite (slot_path _ _ _ _ _ _ Hs). cbn.
  apply runs_bind. apply runs_read_bounded. rewrite (slot_path _ _ _ _ _ _ Hs). cbn.
  rewrite (proj2 (N.leb_le _ _) (encode_generations_bound _ _ He)).
  apply runs_bind, runs_lift; [|done]. intros b' [= <-].
  apply runs_lift; rewrite (decode_encode_generations g b Hw He); [|done].
  intros g' [= <-]. destruct Hg as [[-> ->]|[-> ->]]; auto.
Qed.

(** Loads that failed or were cut short, then one that returned. *)
Inductive loaded (path : string) : Disk -> GenerationRegistry -> Disk -> Prop :=
  | loaded_now d g d' : load_generations path d = (Done (Ok g), d') -> loaded path d g d'
  | loaded_later d o d1 ft g d' :
      load_generations path d = (o, d1) -> (forall g, o <> Done (Ok g)) ->
      loaded path (mkDisk (files d1) ft) g d' -> loaded path d g d'.

Lemma loaded_spec path old new g0 g1 rest d g d' :
  slots_distinct path -> stored_as g0 old -> stored_as g1 new ->
  midway path (Some old) new rest (files d) -> loaded path d g d' ->
  (g = g0 /\ slots path (Some old) None None rest (files d'))
  \/ (g = g1 /\ slots path (Some new) None None rest (files d')).
Proof.
  intros Hd H0 H1 Hm Hl. induction Hl as [d g d' E|d o d1 ft g d' E Ho _ IH].
  - exact (runs_result _ _ _ _ _ _ _ (load_generations_spec _ _ _ _ _ _ _ Hd H0 H1 Hm) E).
  - apply IH. pose proof (runs_result _ _ _ _ _ _ _
      (load_generations_spec _ _ _ _ _ _ _ Hd H0 H1 Hm) E) as Hr.
    destruct o as [[g'|e]| |]; [by destruct (Ho g')|done..].
Qed.

(** C25: the accepted generations survive a crash.  Save a registry over another
    one under any faults, stopped anywhere, then load it any number of times,
    each load failing or being cut short too, until one returns: it returns the
    old registry or the new one, the new one if the save had returned; so no
    root's accepted generation is ever lost. *)
Theorem save_load_generations_crash_safe path g0 g1 old new fs ft o d1 ft' g d' :
  slots_distinct path -> stored_as g0 old -> stored_as g1 new ->
  fs !! path = Some old -> fs !! with_extension path "new" = None ->
  fs !! with_extension path "bak" = None ->
  save_generations g1 path (mkDisk fs ft) = (o, d1) ->
  loaded path (mkDisk (files d1) ft') g d' ->
  g = g1 \/ (g = g0 /\ o <> Done (Ok tt)).
Proof.
  intros Hd H0 H1 Hp Hn Hb Hs Hl.
  assert (slots path (Some old) None None fs fs) as Hslots by (by split).
  unfold save_generations in Hs. rewrite (proj2 H1) in Hs.
  pose proof (runs_result _ _ _ _ (mkDisk fs ft) _ _
    (replace_service_file_spec path Hd _ new _ _ Hslots) Hs) as Ho.
  assert (forall b g', stored_as g' b -> midway path (Some b) new fs (files d1) ->
            g = g' \/ g = g1) as Hend.
  { intros b g' Hg' Hm.
    destruct (loaded_spec path b new g' g1 fs (mkDisk (files d1) ft') g d') as [[-> _]|[-> _]];
      auto. }
  destruct o as [[[]|e]| |]; [|..|done]; cbv beta in Ho.
  - left. destruct (Hend new g1 H1) as [->| ->]; auto. by apply mid_before.
  - destruct (Hend old g0 H0 Ho) as [->| ->]; auto.
  - destruct (Hend old g0 H0 Ho) as [->| ->]; auto.
Qed.
End saved.
