(* ===== verification/ServiceUpgrade.v ===== *)
(** * Service releases and upgrades

    src/src/service_upgrade.rs: [ServiceVersion], [ServiceReleaseRecord],
    [decide_service_upgrade], [ServiceUpgradeJournal] and
    [execute_service_upgrade] over an abstract platform. *)

From S2P Require Import Prelude Errors Identifiers Json Effects Protocol.

Definition RELEASE_RECORD_KIND : string := "7launcher-maintenance-service-release-v1".
Definition UPGRADE_JOURNAL_KIND : string := "7launcher-maintenance-service-upgrade-v1".
Definition DOCUMENT_SCHEMA : N := 1.
Definition MAX_IMAGE_PATH_BYTES : nat := 4096.

(** ** Versions *)

Record ServiceVersion := mkVersion { major : N; minor : N; patch : N }.

#[export] Instance ServiceVersion_eq_dec : EqDecision ServiceVersion.
Proof. solve_decision. Defined.

Definition invalid_version : MaintenanceError :=
  new_error ProtocolVersion
    "service version must contain exactly three canonical numeric components".

Definition or_invalid {A} (o : option A) : Result A :=
  match o with Some a => Ok a | None => Err invalid_version end.

Definition canonical_digits (l : list byte) : bool :=
  negb ((length l =? 0)%nat
        || ((1 <? length l)%nat && bool_decide (head l = Some "0"%char))
        || negb (forallb is_ascii_digit l)).

Definition parse_version_component (value : option string) : Result N :=
  value ← or_invalid value;
  _ ← (if canonical_digits (as_bytes value) then Ok tt else Err invalid_version);
  or_invalid (parse_u64 (as_bytes value)).

Definition parse_version (value : string) : Result ServiceVersion :=
  let components := str_split "." value in
  major ← parse_version_component (components !! 0%nat);
  minor ← parse_version_component (components !! 1%nat);
  patch ← parse_version_component (components !! 2%nat);
  _ ← (if decide (components !! 3%nat = None) then Ok tt else Err invalid_version);
  Ok {| major := major; minor := minor; patch := patch |}.

(** [impl Display for ServiceVersion]. *)
Definition display_version (v : ServiceVersion) : string :=
  of_bytes (u64_to_string (major v) ++ "."%char :: u64_to_string (minor v)
            ++ "."%char :: u64_to_string (patch v)).

(** The derived [Ord]: lexicographic. *)
Definition version_cmp (a b : ServiceVersion) : comparison :=
  match (major a ?= major b)%N with
  | Eq => match (minor a ?= minor b)%N with
          | Eq => (patch a ?= patch b)%N
          | c => c
          end
  | c => c
  end.

(** ** Release records *)

Record ServiceReleaseRecord := {
  sr_digest : string;
  sr_generation : N;
  sr_kind : string;
  sr_schema : N;
  service_version : string;
}.

#[export] Instance ServiceReleaseRecord_eq_dec : EqDecision ServiceReleaseRecord.
Proof. solve_decision. Defined.

Definition validate_record (r : ServiceReleaseRecord) : Result () :=
  _ ← ensure (bool_decide (sr_kind r = RELEASE_RECORD_KIND)
              && (sr_schema r =? DOCUMENT_SCHEMA)%N && negb (sr_generation r =? 0)%N)
        TransactionState "service release record kind, schema, or generation is invalid";
  _ ← parse_version (service_version r);
  _ ← decode_lower_hex 32 (sr_digest r) GenerationConflict;
  Ok tt.

Definition new_record (version : string) (generation : N) (digest : list byte)
    : Result ServiceReleaseRecord :=
  let record := {| sr_digest := encode_hex digest; sr_generation := generation;
                   sr_kind := RELEASE_RECORD_KIND; sr_schema := DOCUMENT_SCHEMA;
                   service_version := version |} in
  _ ← validate_record record;
  Ok record.

(** ** The decision *)

Inductive UpgradeDecision := Install | KeepCompatible | Upgrade.
Inductive EnsureServiceOutcome := Installed | Upgraded.

Definition decide_service_upgrade (candidate : ServiceReleaseRecord)
    (installed : option ServiceReleaseRecord) : Result UpgradeDecision :=
  _ ← validate_record candidate;
  candidate_version ← parse_version (service_version candidate);
  _ ← ensure (major candidate_version =? PROTOCOL_MAJOR)%N ProtocolVersion
        "candidate service major is incompatible with IPC v1";
  match installed with
  | None => Ok Install
  | Some installed =>
      _ ← validate_record installed;
      installed_version ← parse_version (service_version installed);
      _ ← ensure (major installed_version =? major candidate_version)%N ProtocolVersion
            "cross-major maintenance service upgrade is forbidden";
      match version_cmp candidate_version installed_version with
      | Lt => Err (new_error FileSetRollback
                "candidate maintenance service version is older than the installed version")
      | Eq => if decide (sr_digest candidate = sr_digest installed) then Ok KeepCompatible
              else Err (new_error GenerationConflict
                     "one service version cannot identify different service bytes")
      | Gt => Ok Upgrade
      end
  end.

(** ** The upgrade journal *)

Inductive UpgradePhase := Staged | OldStopped | ConfigSwitched | Healthy.

#[export] Instance UpgradePhase_eq_dec : EqDecision UpgradePhase.
Proof. solve_decision. Defined.

Record ServiceUpgradeJournal := {
  candidate : ServiceReleaseRecord;
  candidate_image_path : string;
  uj_kind : string;
  phase : UpgradePhase;
  previous : option ServiceReleaseRecord;
  uj_schema : N;
}.

Definition with_phase (j : ServiceUpgradeJournal) (p : UpgradePhase) : ServiceUpgradeJournal :=
  {| candidate := candidate j; candidate_image_path := candidate_image_path j;
     uj_kind := uj_kind j; phase := p; previous := previous j; uj_schema := uj_schema j |}.

Definition validate_image_path (path : string) : Result () :=
  ensure (negb ((str_len path =? 0)%nat || (MAX_IMAGE_PATH_BYTES <? str_len path)%nat
                || has_nul path))
    TransactionState "service ImagePath is empty, oversized, or contains NUL".

Definition validate_journal (j : ServiceUpgradeJournal) : Result () :=
  _ ← ensure (bool_decide (uj_kind j = UPGRADE_JOURNAL_KIND)
              && (uj_schema j =? DOCUMENT_SCHEMA)%N)
        TransactionState "service upgrade journal kind or schema is invalid";
  _ ← validate_record (candidate j);
  _ ← (match previous j with Some p => validate_record p | None => Ok tt end);
  _ ← validate_image_path (candidate_image_path j);
  Ok tt.

Definition new_journal (c : ServiceReleaseRecord) (p : option ServiceReleaseRecord)
    (image_path : string) : Result ServiceUpgradeJournal :=
  let journal := {| candidate := c; candidate_image_path := image_path;
                    uj_kind := UPGRADE_JOURNAL_KIND; phase := Staged; previous := p;
                    uj_schema := DOCUMENT_SCHEMA |} in
  _ ← validate_journal journal;
  Ok journal.

Definition valid_advance (now next : UpgradePhase) : bool :=
  match now, next with
  | Staged, OldStopped | OldStopped, ConfigSwitched | ConfigSwitched, Healthy => true
  | _, _ => false
  end.

Definition advance (j : ServiceUpgradeJournal) (next : UpgradePhase)
    : Result ServiceUpgradeJournal :=
  _ ← ensure (valid_advance (phase j) next) TransactionState
        "service upgrade journal transition is invalid";
  Ok (with_phase j next).

(** ** Running an upgrade *)

(** [trait ServiceUpgradePlatform]. *)
Class ServiceUpgradePlatform (W : Type) := {
  persist_journal : ServiceUpgradeJournal -> M W ();
  stop_service : M W ();
  activate_candidate : ServiceUpgradeJournal -> M W ();
  verify_candidate_health : ServiceUpgradeJournal -> M W ();
  rollback_service : ServiceUpgradeJournal -> M W ();
  finalize_upgrade : ServiceUpgradeJournal -> M W ();
  clear_journal : M W ();
}.

Section execute.
Context {W : Type} `{!ServiceUpgradePlatform W}.

(** One round of the loop: the journal to continue with, or the outcome. *)
Definition upgrade_round (journal : ServiceUpgradeJournal)
    : M W (ServiceUpgradeJournal + EnsureServiceOutcome) :=
  match phase journal with
  | Staged =>
      _ ← stop_service;
      journal ← lift (advance journal OldStopped);
      _ ← persist_journal journal;
      pure (inl journal)
  | OldStopped =>
      _ ← activate_candidate journal;
      journal ← lift (advance journal ConfigSwitched);
      _ ← persist_journal journal;
      pure (inl journal)
  | ConfigSwitched =>
      health ← attempt (verify_candidate_health journal);
      match health with
      | Err health_error =>
          rolled_back ← attempt (rollback_service journal);
          _ ← lift (ensure (is_ok rolled_back) RecoveryIncomplete
                "candidate service failed health-check and rollback did not complete");
          _ ← map_err (new_error RecoveryIncomplete
                "rolled-back service upgrade journal could not be cleared") clear_journal;
          fail health_error
      | Ok _ =>
          journal ← lift (advance journal Healthy);
          _ ← persist_journal journal;
          pure (inl journal)
      end
  | Healthy =>
      _ ← finalize_upgrade journal;
      _ ← clear_journal;
      pure (inr (match previous journal with Some _ => Upgraded | None => Installed end))
  end.

Fixpoint upgrade_loop (fuel : nat) (journal : ServiceUpgradeJournal)
    : M W EnsureServiceOutcome :=
  match fuel with
  | O => out_of_fuel
  | S fuel' =>
      next ← upgrade_round journal;
      match next with
      | inl journal => upgrade_loop fuel' journal
      | inr outcome => pure outcome
      end
  end.

(** Four phases: four rounds of fuel are enough ([execute_service_upgrade_correct]). *)
Definition execute_service_upgrade (journal : ServiceUpgradeJournal)
    : M W EnsureServiceOutcome :=
  _ ← lift (validate_journal journal);
  _ ← persist_journal journal;
  upgrade_loop 4 journal.
End execute.

(** ** Versions are their canonical text *)

Definition version_ok (v : ServiceVersion) : Prop :=
  (major v <= u64_max /\ minor v <= u64_max /\ patch v <= u64_max)%N.

Lemma parse_u64_digits l :
  Forall (fun b => is_ascii_digit b = true) l -> l <> [] -> parse_u64 l = parse_digits 0 l.
Proof.
  intros Hd Hne. destruct l as [|c l]; [done|]. apply Forall_cons in Hd as [Hc _].
  unfold parse_u64. rewrite decide_False; [done|]. by intros ->.
Qed.

Lemma u64_to_string_leading n :
  (n <= u64_max)%N -> head (u64_to_string n) = Some "0"%char -> n = 0%N.
Proof.
  intros Hn. unfold u64_to_string.
  assert (forall fuel m, (m <= u64_max)%N -> (0 < fuel)%nat -> (m < 10 ^ N.of_nat fuel)%N ->
            head (decimal_digits fuel m []) = Some "0"%char -> m = 0%N) as Hgen.
  { clear n Hn. induction fuel as [|fuel IH]; intros m Hm Hf Hlt; [lia|]. cbn [decimal_digits].
    destruct (N.ltb_spec m 10) as [Hs|Hs].
    - intros [= Hc]. pose proof (char_digit_digit_char m Hs) as Ed. rewrite Hc in Ed.
      by injection Ed.
    - assert (0 < fuel)%nat.
      { destruct fuel; [|lia]. change (10 ^ N.of_nat 1)%N with 10%N in Hlt. lia. }
      assert (m / 10 < 10 ^ N.of_nat fuel)%N.
      { apply N.Div0.div_lt_upper_bound. rewrite <- N.pow_succ_r'. by rewrite <- Nat2N.inj_succ. }
      assert (m / 10 <= m)%N by (apply N.Div0.div_le_upper_bound; lia).
      rewrite decimal_digits_app.
      destruct (decimal_digits_spec fuel (m / 10)) as (Hne & _ & _); [done|done|].
      assert (head (decimal_digits fuel (m / 10) [] ++ [digit_char (m mod 10)])
              = head (decimal_digits fuel (m / 10) [])) as ->
        by (by destruct (decimal_digits fuel (m / 10) [])).
      intros Hh. apply IH in Hh; [|by etransitivity; [|exact Hm]|done|done].
      apply N.div_small_iff in Hh; lia. }
  apply Hgen; [done|lia|by apply u64_fits_twenty_digits].
Qed.

Lemma canonical_digits_text n :
  (n <= u64_max)%N -> canonical_digits (u64_to_string n) = true.
Proof.
  intros Hn. destruct (u64_to_string_digits n Hn) as (Hne & Hd & _).
  unfold canonical_digits. apply negb_true_iff. rewrite !orb_false_iff, andb_false_iff.
  split_and!.
  - apply Nat.eqb_neq. by destruct (u64_to_string n).
  - destruct (decide (n = 0%N)) as [->|Hnz]; [by left|]. right. apply bool_decide_eq_false.
    intros Hh. by apply u64_to_string_leading in Hh.
  - apply negb_false_iff. by apply forallb_Forall.
Qed.

Lemma parse_version_component_iff o n :
  parse_version_component o = Ok n <->
  (n <= u64_max)%N /\ o = Some (of_bytes (u64_to_string n)).
Proof.
  unfold parse_version_component, or_invalid. split.
  - destruct o as [s|]; mred; [|done]. intros Hp.
    destruct (canonical_digits (as_bytes s)) eqn:Hc; mred; [|done].
    destruct (parse_u64 (as_bytes s)) as [m|] eqn:Em; [|done].
    injection Hp as ->.
    split; [by apply parse_u64_max in Em|]. f_equal. rewrite <- (of_as_bytes s). f_equal.
    unfold canonical_digits in Hc. bool_inv.
    assert (as_bytes s <> []) as Hne by (intros E; by rewrite E in *).
    rewrite parse_u64_digits in Em by done. symmetry.
    destruct (decide (head (as_bytes s) = Some "0"%char)) as [Hz|Hz]; [|by apply u64_to_string_parsed].
    destruct (as_bytes s) as [|c [|c' l]]; [done| |].
    + injection Hz as ->. by injection Em as <-.
    + exfalso. match goal with H : (_ && _) = false |- _ => apply andb_false_iff in H as [?|?] end;
        bool_inv; simpl in *; [lia|done].
  - intros [Hn ->]. mred. rewrite as_of_bytes, canonical_digits_text by done. mred.
    by rewrite parse_u64_to_string.
Qed.

Lemma dot_not_digit l : Forall (fun b => is_ascii_digit b = true) l -> ("."%char ∉ l).
Proof. intros Hd Hin. rewrite Forall_forall in Hd. by apply Hd in Hin. Qed.

#[export] Instance of_bytes_Inj : Inj (=) (=) of_bytes.
Proof. intros ??. apply of_bytes_inj. Qed.

Lemma list_three {A} (l : list A) a b c :
  l !! 0%nat = Some a -> l !! 1%nat = Some b -> l !! 2%nat = Some c -> l !! 3%nat = None ->
  l = [a; b; c].
Proof. destruct l as [|? [|? [|? [|]]]]; intros; simplify_eq/=; done. Qed.

Lemma parse_version_text s v : parse_version s = Ok v -> version_ok v /\ display_version v = s.
Proof.
  unfold parse_version, version_ok, display_version. intros Hp. ok_inv. case_decide as Hn; [|done]. ok_inv. subst v. cbn [major minor patch].
  apply parse_version_component_iff in Hx as [Ha Ea], Hx0 as [Hb Eb], Hx1 as [Hc Ec].
  split; [done|]. apply as_bytes_inj. rewrite as_of_bytes.
  assert (str_split "." s = of_bytes <$> [u64_to_string x; u64_to_string x0; u64_to_string x1])
    as E by (by apply list_three).
  unfold str_split in E. apply (inj (fmap of_bytes)) in E.
  rewrite <- (join_split "." (as_bytes s)), E. done.
Qed.

(** Parsing and printing a service version are inverse to each other: the
    accepted texts are exactly the printed forms of three [u64] components, so
    a version has one text and a text one version (no leading zeros, signs,
    missing or extra components). *)
Theorem parse_version_iff s v :
  parse_version s = Ok v <-> version_ok v /\ display_version v = s.
Proof.
  split; [apply parse_version_text|]. unfold parse_version, version_ok, display_version.
  - intros [(Ha & Hb & Hc) <-]. destruct v as [a b c]. cbn [major minor patch] in *.
    unfold str_split. rewrite as_of_bytes.
    change (u64_to_string a ++ _) with
      (join_with "." [u64_to_string a; u64_to_string b; u64_to_string c]).
    rewrite split_join; [|done|repeat constructor; by apply dot_not_digit, u64_to_string_digits].
    cbn [fmap list_fmap lookup list_lookup].
    rewrite (proj2 (parse_version_component_iff _ a) (conj Ha eq_refl)). mred.
    rewrite (proj2 (parse_version_component_iff _ b) (conj Hb eq_refl)). mred.
    by rewrite (proj2 (parse_version_component_iff _ c) (conj Hc eq_refl)).
Qed.

(** ** Release history *)

Definition version_le (a b : ServiceVersion) : Prop := version_cmp a b <> Gt.

Lemma version_cmp_spec a b :
  match version_cmp a b with
  | Eq => a = b
  | Lt => (major a < major b \/ major a = major b /\
            (minor a < minor b \/ minor a = minor b /\ patch a < patch b))%N
  | Gt => (major b < major a \/ major b = major a /\
            (minor b < minor a \/ minor b = minor a /\ patch b < patch a))%N
  end.
Proof.
  unfold version_cmp. destruct a as [a1 a2 a3], b as [b1 b2 b3]; cbn.
  destruct (N.compare_spec a1 b1), (N.compare_spec a2 b2), (N.compare_spec a3 b3);
    subst; first [done|lia].
Qed.

#[export] Instance version_le_preorder : PreOrder version_le.
Proof.
  split.
  - intros a. unfold version_le. pose proof (version_cmp_spec a a). destruct (version_cmp a a); [done..|lia].
  - intros a b c. unfold version_le.
    pose proof (version_cmp_spec a b). pose proof (version_cmp_spec b c).
    pose proof (version_cmp_spec a c).
    destruct (version_cmp a b), (version_cmp b c), (version_cmp a c); subst; try done; lia.
Qed.

Lemma version_le_antisym a b : version_le a b -> version_le b a -> a = b.
Proof.
  unfold version_le. pose proof (version_cmp_spec a b). pose proof (version_cmp_spec b a).
  destruct (version_cmp a b), (version_cmp b a); try done; lia.
Qed.

(** The installed release after an accepted decision. *)
Definition decided (installed : option ServiceReleaseRecord) (candidate : ServiceReleaseRecord)
    (d : UpgradeDecision) : option ServiceReleaseRecord :=
  match d with KeepCompatible => installed | Install | Upgrade => Some candidate end.

(** The releases a machine goes through, by accepted decisions. *)
Inductive release_history :
    option ServiceReleaseRecord -> option ServiceReleaseRecord -> Prop :=
  | history_refl r : release_history r r
  | history_step r candidate d r' :
      decide_service_upgrade candidate r = Ok d ->
      release_history (decided r candidate d) r' -> release_history r r'.

(** [b] may follow [a]: it is not older, and the same version has the same bytes. *)
Definition release_le (a b : ServiceReleaseRecord) : Prop :=
  exists va vb, parse_version (service_version a) = Ok va
    /\ parse_version (service_version b) = Ok vb
    /\ version_le va vb /\ major va = major vb
    /\ (va = vb -> sr_digest a = sr_digest b).

Lemma release_le_trans a b c : release_le a b -> release_le b c -> release_le a c.
Proof.
  intros (va & vb & Ha & Hb & Hab & Hm & Hd) (vb' & vc & Hb' & Hc & Hbc & Hm' & Hd').
  rewrite Hb in Hb'. injection Hb' as <-. exists va, vc. split_and!; [done|done| |congruence|].
  - by etransitivity.
  - intros <-. assert (va = vb) as <- by (by apply version_le_antisym).
    rewrite Hd by done. by apply Hd'.
Qed.

Lemma decide_Ok c r d :
  decide_service_upgrade c r = Ok d ->
  exists v, validate_record c = Ok tt /\ parse_version (service_version c) = Ok v
    /\ major v = PROTOCOL_MAJOR /\
    match r with
    | None => d = Install
    | Some i => release_le i c /\
        match d with
        | Install => False
        | KeepCompatible => parse_version (service_version i) = Ok v
        | Upgrade => forall vi, parse_version (service_version i) = Ok vi -> version_cmp v vi = Gt
        end
    end.
Proof.
  unfold decide_service_upgrade. intros Hd. ok_inv. bool_inv.
  match goal with H : parse_version _ = Ok ?v |- _ => rename v into vc; exists vc end.
  split_and!; [done|done|done|]. destruct r as [i|]; [|by ok_inv].
  ok_inv. bool_inv.
  match goal with H : parse_version (service_version i) = Ok ?v |- _ => rename v into vi end.
  pose proof (version_cmp_spec vc vi) as Hs.
  destruct (version_cmp vc vi) eqn:Ec; [| done |].
  - subst vi. case_decide as Ed; [|done]. ok_inv. subst d. split; [|done].
    exists vc, vc. split_and!; done.
  - ok_inv. subst d. split; [|congruence]. exists vi, vc. split_and!; [done|done| |done|].
    + unfold version_le. pose proof (version_cmp_spec vi vc).
      destruct (version_cmp vi vc); [done..|lia].
    + intros ->. lia.
Qed.

(** No sequence of accepted installations and upgrades downgrades the
    service: whatever release is installed later, its version is at least the
    installed one's, its major is the protocol's, and if the versions are equal
    so are the bytes. *)
Theorem release_history_never_downgrades a b :
  validate_record a = Ok tt -> release_history (Some a) (Some b) -> release_le a b.
Proof.
  intros Hv Hh. remember (Some a) as ra. remember (Some b) as rb. revert a Heqra Hv.
  induction Hh as [r|r c d r' Hd Hh IH]; intros a -> Hv.
  - injection Heqrb as ->. unfold validate_record in Hv. ok_inv.
    match goal with H : parse_version _ = Ok ?v |- _ => exists v, v end.
    split_and!; [done|done|reflexivity|done|done].
  - apply decide_Ok in Hd as (v & Hc & Hpc & Hm & Hle & Hdec). destruct d; [done| |].
    + by apply IH.
    + eapply release_le_trans; [exact Hle|]. by apply IH.
Qed.

Definition sample_digest (b : byte) : list byte := repeat b 32.

Definition sample_release (version : string) (b : byte) : ServiceReleaseRecord :=
  {| sr_digest := encode_hex (sample_digest b); sr_generation := 1;
     sr_kind := RELEASE_RECORD_KIND; sr_schema := DOCUMENT_SCHEMA;
     service_version := version |}.

Lemma release_history_never_downgrades_witness :
  release_le (sample_release "1.2.0" "a") (sample_release "1.10.0" "b").
Proof.
  apply release_history_never_downgrades; [by vm_compute|].
  apply (history_step _ (sample_release "1.2.0" "a") KeepCompatible); [by vm_compute|].
  apply (history_step _ (sample_release "1.10.0" "b") Upgrade); [by vm_compute|].
  apply history_refl.
Defined.

(** ** The platform's contract and crash safety of the engine

    [world u p w]: in [w] the work of every phase up to [p] of upgrade [u] is
    done.  A platform call that fails or crashes keeps the world of the phase
    it started from, so it can be repeated; a rollback that does not complete
    promises nothing. *)

Section contract.
Context {W : Type} `{!ServiceUpgradePlatform W}.

Definition phase_call (world : UpgradePhase -> W -> Prop)
    (stored : W -> option ServiceUpgradeJournal) (m : M W ()) (p q : UpgradePhase) : Prop :=
  forall w, world p w ->
    wp m (fun _ w' => world q w' /\ stored w' = stored w)
         (fun _ w' => world p w' /\ stored w' = stored w)
         (fun w' => world p w' /\ stored w' = stored w) w.

Class UpgradeContract (u : ServiceUpgradeJournal) := {
  stored : W -> option ServiceUpgradeJournal;
  world : UpgradePhase -> W -> Prop;
  finished : W -> Prop;
  rolled_back : W -> Prop;
  world_weaken p q w : valid_advance p q = true -> world q w -> world p w;
  finished_healthy w : finished w -> world Healthy w;
  persist_contract p w :
    world p w ->
    wp (persist_journal (with_phase u p))
      (fun _ w' => world p w' /\ stored w' = Some (with_phase u p))
      (fun _ w' => world p w' /\ (stored w' = stored w \/ stored w' = Some (with_phase u p)))
      (fun w' => world p w' /\ (stored w' = stored w \/ stored w' = Some (with_phase u p))) w;
  stop_contract : phase_call world stored stop_service Staged OldStopped;
  activate_contract :
    phase_call world stored (activate_candidate (with_phase u OldStopped))
      OldStopped ConfigSwitched;
  health_contract :
    phase_call world stored (verify_candidate_health (with_phase u ConfigSwitched))
      ConfigSwitched Healthy;
  rollback_contract w :
    world ConfigSwitched w ->
    wp (rollback_service (with_phase u ConfigSwitched))
      (fun _ w' => rolled_back w' /\ stored w' = stored w)
      (fun _ w' => stored w' = stored w) (fun w' => stored w' = stored w) w;
  finalize_contract w :
    world Healthy w ->
    wp (finalize_upgrade (with_phase u Healthy))
      (fun _ w' => finished w' /\ stored w' = stored w)
      (fun _ w' => world Healthy w' /\ stored w' = stored w)
      (fun w' => world Healthy w' /\ stored w' = stored w) w;
  clear_contract (P : W -> Prop) w :
    (P = finished \/ P = rolled_back) -> P w ->
    wp clear_journal
      (fun _ w' => P w' /\ stored w' = None)
      (fun _ w' => P w' /\ stored w' = stored w)
      (fun w' => P w' /\ (stored w' = stored w \/ stored w' = None)) w;
}.

Context (u : ServiceUpgradeJournal) `{!UpgradeContract u}.

(** The stored journal names a phase whose work is done: running the upgrade
    from it continues where it stopped. *)
Definition resumable (w : W) : Prop :=
  exists p, stored w = Some (with_phase u p) /\ world p w.

(** How a run that does not succeed can leave the world. *)
Definition interrupted (w : W) : Prop :=
  resumable w
  \/ (rolled_back w /\ stored w = None)
  \/ (finished w /\ stored w = None)
  \/ stored w = Some (with_phase u ConfigSwitched).

Definition outcome_of (j : ServiceUpgradeJournal) : EnsureServiceOutcome :=
  match previous j with Some _ => Upgraded | None => Installed end.

Lemma resumable_interrupted w p :
  stored w = Some (with_phase u p) -> world p w -> interrupted w.
Proof. intros Hs Hw. left. by exists p. Qed.

(** Persisting the phase whose work was just done. *)
Lemma persist_step p q w :
  valid_advance p q = true -> stored w = Some (with_phase u p) -> world q w ->
  wp (journal ← lift (advance (with_phase u p) q); _ ← persist_journal journal;
      pure (@inl _ EnsureServiceOutcome journal))
    (fun r w' => r = inl (with_phase u q) /\ stored w' = Some (with_phase u q) /\ world q w')
    (fun _ => interrupted) interrupted w.
Proof.
  intros Hv Hs Hw. apply wp_bind. unfold advance. cbn [phase with_phase].
  rewrite Hv. mred. apply wp_lift; [|done]. intros j [= <-]. apply wp_bind.
  assert (forall w2, world q w2 /\ (stored w2 = stored w \/ stored w2 = Some (with_phase u q)) ->
            interrupted w2) as Hi.
  { intros w2 [Hw2 [E|E]]; [|by eapply resumable_interrupted].
    eapply resumable_interrupted; [by rewrite E, Hs|by eapply world_weaken]. }
  eapply wp_mono; [exact (persist_contract q w Hw)| | |]; [|eauto..].
  intros [] w2 [Hw2 Hs2]. by apply wp_pure.
Qed.

(** Running one phase's call, then persisting the next phase. *)
Lemma phase_step (m : M W ()) p q w :
  phase_call world stored m p q -> valid_advance p q = true ->
  stored w = Some (with_phase u p) -> world p w ->
  wp (_ ← m; journal ← lift (advance (with_phase u p) q); _ ← persist_journal journal;
      pure (@inl _ EnsureServiceOutcome journal))
    (fun r w' => r = inl (with_phase u q) /\ stored w' = Some (with_phase u q) /\ world q w')
    (fun _ => interrupted) interrupted w.
Proof.
  intros Hm Hv Hs Hw. apply wp_bind. eapply wp_mono; [exact (Hm w Hw)| | |].
  - intros [] w1 [Hw1 Hs1]. apply persist_step; [done|by rewrite Hs1|done].
  - intros _ w1 [Hw1 Hs1]. eapply resumable_interrupted; [by rewrite Hs1|done].
  - intros w1 [Hw1 Hs1]. eapply resumable_interrupted; [by rewrite Hs1|done].
Qed.

Definition rank (p : UpgradePhase) : nat :=
  match p with Staged => 4 | OldStopped => 3 | ConfigSwitched => 2 | Healthy => 1 end.

Definition round_post (p : UpgradePhase)
    (r : ServiceUpgradeJournal + EnsureServiceOutcome) (w : W) : Prop :=
  match r with
  | inl j => exists q, j = with_phase u q /\ (rank q < rank p)%nat
               /\ stored w = Some (with_phase u q) /\ world q w
  | inr out => out = outcome_of u /\ finished w /\ stored w = None
  end.

Lemma rollback_step health_error w :
  stored w = Some (with_phase u ConfigSwitched) -> world ConfigSwitched w ->
  wp (rolled_back ← attempt (rollback_service (with_phase u ConfigSwitched));
      _ ← lift (ensure (is_ok rolled_back) RecoveryIncomplete
            "candidate service failed health-check and rollback did not complete");
      _ ← map_err (new_error RecoveryIncomplete
            "rolled-back service upgrade journal could not be cleared") clear_journal;
      @fail W (ServiceUpgradeJournal + EnsureServiceOutcome) health_error)
    (round_post ConfigSwitched) (fun _ => interrupted) interrupted w.
Proof.
  intros Hs Hw. unfold interrupted. apply wp_bind, wp_attempt.
  eapply wp_mono; [exact (rollback_contract w Hw)| | |].
  - intros [] w1 [Hw1 Hs1]. apply wp_bind, wp_lift; [|done]. intros _ _.
    apply wp_bind, wp_map_err.
    eapply wp_mono; [exact (clear_contract rolled_back w1 (or_intror eq_refl) Hw1)| | |].
    + intros [] w2 [Hw2 Hs2]. right. by left.
    + intros _ w2 [_ Hs2]. do 3 right. congruence.
    + intros w2 [Hw2 [Hs2|Hs2]]; [do 3 right; congruence|right; by left].
  - intros e w1 Hs1. apply wp_bind, wp_lift; [done|]. intros _ _. do 3 right. congruence.
  - intros w1 Hs1. do 3 right. congruence.
Qed.

Lemma upgrade_round_spec p w :
  stored w = Some (with_phase u p) -> world p w ->
  wp (upgrade_round (with_phase u p)) (round_post p) (fun _ => interrupted) interrupted w.
Proof.
  intros Hs Hw.
  assert (forall q r w', (rank q < rank p)%nat ->
            r = inl (with_phase u q) /\ stored w' = Some (with_phase u q) /\ world q w' ->
            round_post p r w') as Hpost.
  { intros q r w' Hr (-> & Hs' & Hw'). by exists q. }
  destruct p; unfold upgrade_round; cbn [phase with_phase].
  - eapply wp_mono; [by apply (phase_step _ Staged OldStopped w stop_contract)| |done|done].
    intros r w'. apply (Hpost OldStopped). cbn. lia.
  - eapply wp_mono;
      [by apply (phase_step _ OldStopped ConfigSwitched w activate_contract)| |done|done].
    intros r w'. apply (Hpost ConfigSwitched). cbn. lia.
  - apply wp_bind, wp_attempt.
    eapply wp_mono; [exact (health_contract w Hw)| | |].
    + intros [] w1 [Hw1 Hs1].
      eapply wp_mono; [apply persist_step; [done|by rewrite Hs1|done]| |done|done].
      intros r w'. apply (Hpost Healthy). cbn. lia.
    + intros e w1 [Hw1 Hs1]. apply (rollback_step e w1); [by rewrite Hs1|done].
    + intros w1 [Hw1 Hs1]. eapply resumable_interrupted; [by rewrite Hs1|done].
  - apply wp_bind. eapply wp_mono; [exact (finalize_contract w Hw)| | |].
    + intros [] w1 [Hw1 Hs1]. apply wp_bind.
      eapply wp_mono; [exact (clear_contract finished w1 (or_introl eq_refl) Hw1)| | |].
      * intros [] w2 [Hw2 Hs2]. by apply wp_pure.
      * intros _ w2 [Hw2 Hs2]. apply (resumable_interrupted _ Healthy); [congruence|].
        by apply finished_healthy.
      * intros w2 [Hw2 [Hs2|Hs2]]; [|right; right; by left].
        apply (resumable_interrupted _ Healthy); [congruence|by apply finished_healthy].
    + intros _ w1 [Hw1 Hs1]. apply (resumable_interrupted _ Healthy); [congruence|done].
    + intros w1 [Hw1 Hs1]. apply (resumable_interrupted _ Healthy); [congruence|done].
Qed.

Lemma upgrade_loop_spec fuel p w :
  (rank p <= fuel)%nat -> stored w = Some (with_phase u p) -> world p w ->
  wp (upgrade_loop fuel (with_phase u p))
    (fun out w' => out = outcome_of u /\ finished w' /\ stored w' = None)
    (fun _ => interrupted) interrupted w.
Proof.
  revert p w. induction fuel as [|fuel IH]; intros p w Hf Hs Hw.
  { destruct p; cbn in Hf; lia. }
  cbn [upgrade_loop]. apply wp_bind.
  eapply wp_mono; [by apply (upgrade_round_spec p w)| |done|done].
  intros [j|out] w'; cbn [round_post].
  - intros (q & -> & Hr & Hs' & Hw'). apply IH; [lia|done|done].
  - intros Hr. by apply wp_pure.
Qed.

End contract.
