(* ===== verification/Calendar.v ===== *)
(** * The calendar of the service log

    [civil_from_days] of src/src/service_log.rs in checked 64-bit arithmetic, and
    the calendar it has to agree with: the Gregorian rules for the day after a
    date, counted from 1970-01-01. *)

From S2P Require Import Prelude Errors.
From Stdlib Require Import Zify ZifyN.

Ltac Zify.zify_post_hook ::= Z.to_euclidean_division_equations.

#[local] Open Scope N_scope.

(** ** The code *)

(** [-] on [u64]: it overflows below zero. *)
Definition checked_sub (a b : N) : option N := if b <=? a then Some (a - b) else None.

#[local] Notation "a '+?' b" := (checked_add u64_max a b) (at level 50, left associativity).
#[local] Notation "a '*?' b" := (checked_mul u64_max a b) (at level 40, left associativity).
#[local] Notation "a '-?' b" := (checked_sub a b) (at level 50, left associativity).

(** [None] is an overflow. *)
Definition civil_from_days (days : N) : option (N * N * N) :=
  shifted ← days +? 719468;
  let era := shifted / 146097 in
  let day_of_era := shifted mod 146097 in
  a ← day_of_era -? day_of_era / 1460;
  b ← a +? day_of_era / 36524;
  c ← b -? day_of_era / 146096;
  let year_of_era := c / 365 in
  d ← 365 *? year_of_era;
  e ← d +? year_of_era / 4;
  f ← e -? year_of_era / 100;
  day_of_year ← day_of_era -? f;
  g ← 5 *? day_of_year;
  h ← g +? 2;
  let month_index := h / 153 in
  i ← 153 *? month_index;
  j ← i +? 2;
  k ← day_of_year -? j / 5;
  day ← k +? 1;
  month ← (if month_index <? 10 then month_index +? 3 else month_index -? 9);
  l ← era *? 400;
  m ← year_of_era +? l;
  year ← m +? (if month <=? 2 then 1 else 0);
  Some (year, month, day).

(** ** The calendar *)

Definition leap_year (y : N) : bool :=
  (y mod 4 =? 0) && negb (y mod 100 =? 0) || (y mod 400 =? 0).

Definition month_length (y m : N) : N :=
  if (m =? 2) then if leap_year y then 29 else 28
  else if (m =? 4) || (m =? 6) || (m =? 9) || (m =? 11) then 30 else 31.

Definition next_day (date : N * N * N) : N * N * N :=
  let '(y, m, d) := date in
  if d <? month_length y m then (y, m, d + 1)
  else if m <? 12 then (y, m + 1, 1)
  else (y + 1, 1, 1).

(** The date [n] days after the first of January 1970. *)
Definition calendar_date (n : N) : N * N * N := N.iter n next_day (1970, 1, 1).

(** ** Years that start in March

    The code counts years from March: [year_start y] is the first day of year
    [y] of an era of 400 years, [month_day] the month and day of a day of such a
    year, and [march_date] the date they make. *)

Definition year_start (y : N) : N := 365 * y + y / 4 - y / 100.
Definition year_size (y : N) : N := if y =? 399 then 366 else year_start (y + 1) - year_start y.

Definition estimate (doe : N) : N := doe - doe / 1460 + doe / 36524 - doe / 146096.

Definition month_day (doy : N) : N * N :=
  let mi := (5 * doy + 2) / 153 in
  (if mi <? 10 then mi + 3 else mi - 9, doy - (153 * mi + 2) / 5 + 1).

Definition march_date (era y doy : N) : N * N * N :=
  let '(m, d) := month_day doy in (y + era * 400 + (if m <=? 2 then 1 else 0), m, d).

Lemma below_forallb (P : N -> bool) n :
  forallb P (N.of_nat <$> seq 0 n) = true -> forall k, k < N.of_nat n -> P k = true.
Proof.
  rewrite forallb_Forall, Forall_forall. intros H k Hk. apply H.
  apply list_elem_of_fmap_2' with (x := N.to_nat k); [|lia]. apply elem_of_seq. lia.
Qed.

(** The year of a day: the estimate is monotone, and right at both ends of every
    year. *)
Lemma estimate_mono a b : a <= b -> b < 146096 -> estimate a <= estimate b.
Proof. unfold estimate. lia. Qed.

Lemma estimate_ends y :
  y < 400 -> estimate (year_start y) / 365 = y /\
             estimate (year_start y + year_size y - 1) / 365 = y.
Proof.
  revert y. assert (forall y, y < 400 -> (estimate (year_start y) / 365 =? y)
    && (estimate (year_start y + year_size y - 1) / 365 =? y) = true) as H
    by (apply (below_forallb _ 400); by vm_compute).
  intros y [H1 H2]%H%andb_true_iff. by rewrite <- !N.eqb_eq.
Qed.

Lemma year_bounds y :
  y < 400 -> 365 * y <= year_start y /\ year_start y + year_size y <= 146097 /\
             (y < 399 -> year_start y + year_size y < 146097).
Proof. unfold year_size, year_start. destruct (N.eqb_spec y 399); lia. Qed.

Lemma estimate_year y doy :
  y < 400 -> doy < year_size y -> estimate (year_start y + doy) / 365 = y.
Proof.
  intros Hy Hd. destruct (estimate_ends y Hy) as [E1 E2].
  destruct (year_bounds y Hy) as (_ & Hb & Hb').
  destruct (N.eq_dec (year_start y + doy) 146096) as [E|Hne].
  - rewrite E. replace y with 399; [by vm_compute|]. lia.
  - pose proof (estimate_mono (year_start y) (year_start y + doy) ltac:(lia) ltac:(lia)).
    destruct (N.eq_dec (year_start y + year_size y) 146097) as [E|Hne2].
    + assert (y = 399) as -> by lia.
      pose proof (estimate_mono (year_start 399 + doy) 146095 ltac:(lia) ltac:(lia)) as Hm.
      change (estimate 146095) with 145998 in Hm. lia.
    + pose proof (estimate_mono (year_start y + doy) (year_start y + year_size y - 1)
        ltac:(lia) ltac:(lia)). lia.
Qed.

(** February of year [y] is in the civil year after it. *)
Lemma year_size_leap era y :
  y < 400 -> year_size y = if leap_year (y + era * 400 + 1) then 366 else 365.
Proof.
  intros Hy.
  replace (leap_year (y + era * 400 + 1)) with (leap_year (y + 1)).
  - apply N.eqb_eq. revert y Hy. apply (below_forallb _ 400). by vm_compute.
  - unfold leap_year. f_equal; [f_equal; [|f_equal]|]; f_equal; lia.
Qed.

(** ** The day after a date, in March years *)

Definition month_size (leap : bool) (m : N) : N :=
  if (m =? 2) then if leap then 29 else 28
  else if (m =? 4) || (m =? 6) || (m =? 9) || (m =? 11) then 30 else 31.

(** The step from one day of a March year to the next, with the carry into the
    civil year. *)
Definition month_step (leap : bool) (doy doy' : N) (carry : N) : bool :=
  let '(m, d) := month_day doy in
  let '(m', d') := month_day doy' in
  (if d <? month_size leap m then (m' =? m) && (d' =? d + 1)
   else if m <? 12 then (m' =? m + 1) && (d' =? 1) else (m' =? 1) && (d' =? 1))
  && ((if (d <? month_size leap m) || (m <? 12) then 0 else 1) + (if m <=? 2 then 1 else 0)
      =? carry + (if m' <=? 2 then 1 else 0)).

Lemma month_steps (leap : bool) doy :
  doy + 1 < (if leap then 366 else 365) -> month_step leap doy (doy + 1) 0 = true.
Proof.
  assert (forall doy, doy < 365 -> month_step true doy (doy + 1) 0 = true) as Ht
    by (apply (below_forallb _ 365); by vm_compute).
  assert (forall doy, doy < 364 -> month_step false doy (doy + 1) 0 = true) as Hf
    by (apply (below_forallb _ 364); by vm_compute).
  destruct leap; intros Hd; [apply Ht|apply Hf]; lia.
Qed.

Lemma month_step_year (leap : bool) :
  month_step leap (if leap then 365 else 364) 0 1 = true.
Proof. by destruct leap. Qed.

Lemma next_day_march era y doy era' y' doy' carry :
  month_step (leap_year (y + era * 400 + 1)) doy doy' carry = true ->
  y + era * 400 + carry = y' + era' * 400 ->
  next_day (march_date era y doy) = march_date era' y' doy'.
Proof.
  unfold month_step, march_date, next_day.
  destruct (month_day doy) as [m d], (month_day doy') as [m' d'] eqn:E'.
  intros H Hy. assert (month_length (y + era * 400 + (if m <=? 2 then 1 else 0)) m
    = month_size (leap_year (y + era * 400 + 1)) m) as ->.
  { unfold month_length, month_size. destruct (N.eqb_spec m 2) as [->|]; done. }
  apply andb_true_iff in H as [H Hc].
  destruct (d <? month_size _ m), (m <? 12); apply andb_true_iff in H as [Hm Hd];
    apply N.eqb_eq in Hm, Hd, Hc; subst m' d'; cbn [orb] in Hc; f_equal; [f_equal|f_equal|f_equal|f_equal];
    lia.
Qed.

(** The days of the code, one after the other. *)
Lemma calendar_march n :
  exists era y doy, n + 719468 = era * 146097 + year_start y + doy /\ y < 400 /\
    doy < year_size y /\ calendar_date n = march_date era y doy.
Proof.
  induction n as [|n IH] using N.peano_ind.
  { exists 4, 369, 306. split_and!; by vm_compute. }
  destruct IH as (era & y & doy & En & Hy & Hd & Ed).
  unfold calendar_date in *. rewrite N.iter_succ, Ed.
  destruct (year_bounds y Hy) as (_ & Hb & Hb').
  assert (forall y', y' < 399 -> year_start (y' + 1) = year_start y' + year_size y') as Hnext
    by (intros y' Hy'; unfold year_size, year_start; destruct (N.eqb_spec y' 399); lia).
  pose proof (year_size_leap era y Hy) as Hs.
  pose proof (month_steps (leap_year (y + era * 400 + 1)) doy) as Hm.
  pose proof (month_step_year (leap_year (y + era * 400 + 1))) as Hl.
  destruct (N.lt_ge_cases (doy + 1) (year_size y)) as [Hlt|Hge].
  - exists era, y, (doy + 1). split_and!; [lia|done|done|].
    apply (next_day_march _ _ _ _ _ _ 0); [apply Hm; by rewrite <- Hs|lia].
  - replace (if leap_year (y + era * 400 + 1) then 365 else 364) with doy in Hl
      by (destruct (leap_year _); lia).
    destruct (N.eq_dec y 399) as [->|Hne].
    + exists (era + 1), 0, 0. split_and!; [|done|done|].
      * change (year_start 0) with 0. change (year_start 399) with 145731 in *.
        change (year_size 399) with 366 in *. lia.
      * apply (next_day_march _ _ _ _ _ _ 1); [done|lia].
    + exists era, (y + 1), 0. split_and!; [|lia| |].
      * rewrite Hnext by lia. lia.
      * pose proof (year_size_leap era (y + 1) ltac:(lia)). destruct (leap_year (y + 1 + _ + 1)); lia.
      * apply (next_day_march _ _ _ _ _ _ 1); [done|lia].
Qed.

Lemma checked_sub_ok a b : b <= a -> checked_sub a b = Some (a - b).
Proof. intros H. unfold checked_sub. by rewrite (proj2 (N.leb_le b a) H). Qed.

Lemma month_index_bound doy : doy < 366 ->
  let mi := (5 * doy + 2) / 153 in (153 * mi + 2) / 5 <= doy /\ mi < 12.
Proof. cbv zeta. lia. Qed.

#[local] Ltac next_op := cbn [mbind option_bind].

Lemma calendar_days days :
  days <= u64_max / 86400 -> civil_from_days days = Some (calendar_date days).
Proof.
  intros Hmax. change (u64_max / 86400) with 213503982334601 in Hmax.
  destruct (calendar_march days) as (era & y & doy & En & Hy & Hd & ->).
  destruct (year_bounds y Hy) as (Hb1 & Hb2 & _).
  assert (doy < 366) as Hdoy by (rewrite (year_size_leap era y Hy) in Hd; destruct (leap_year _); lia).
  pose proof (estimate_year y doy Hy Hd) as He. unfold estimate in He.
  destruct (month_index_bound doy Hdoy) as [Hm1 Hm2].
  assert (era < 1500000000) as Hera by lia.
  unfold civil_from_days. rewrite checked_add_ok by (unfold u64_max; lia). next_op.
  replace ((days + 719468) / 146097) with era by lia.
  replace ((days + 719468) mod 146097) with (year_start y + doy) by lia.
  set (doe := year_start y + doy) in *.
  rewrite checked_sub_ok by lia. next_op. rewrite checked_add_ok by (unfold u64_max; lia). next_op.
  rewrite checked_sub_ok by lia. next_op. rewrite He.
  rewrite (checked_mul_ok _ 365) by (unfold u64_max; lia). next_op.
  rewrite checked_add_ok by (unfold u64_max; lia). next_op.
  rewrite checked_sub_ok by lia. next_op. fold (year_start y).
  rewrite checked_sub_ok by lia. next_op.
  replace (doe - year_start y) with doy by (unfold doe; lia).
  rewrite (checked_mul_ok _ 5) by (unfold u64_max; lia). next_op.
  rewrite checked_add_ok by (unfold u64_max; lia). next_op.
  unfold march_date, month_day. set (mi := (5 * doy + 2) / 153) in *.
  assert ((if mi <? 10 then checked_add u64_max mi 3 else checked_sub mi 9)
          = Some (if mi <? 10 then mi + 3 else mi - 9)) as ->.
  { destruct (N.ltb_spec mi 10); [apply checked_add_ok; unfold u64_max; lia|by apply checked_sub_ok; lia]. }
  rewrite (checked_mul_ok _ 153) by (unfold u64_max; lia). next_op.
  rewrite checked_add_ok by (unfold u64_max; lia). next_op.
  rewrite (checked_sub_ok doy) by lia. next_op.
  rewrite checked_add_ok by (unfold u64_max; lia). next_op.
  rewrite checked_mul_ok by (unfold u64_max; lia). next_op.
  rewrite checked_add_ok by (unfold u64_max; lia). next_op.
  rewrite checked_add_ok by (unfold u64_max; destruct (_ <=? 2); lia). done.
Qed.

(** A date of the calendar. *)
Lemma calendar_date_valid n :
  let '(y, m, d) := calendar_date n in y <= 1970 + n /\ 1 <= m <= 12 /\ 1 <= d <= 31.
Proof.
  unfold calendar_date. induction n as [|n IH] using N.peano_ind; [cbn; lia|].
  rewrite N.iter_succ. destruct (N.iter n next_day (1970, 1, 1)) as [[y m] d].
  unfold next_day. assert (month_length y m <= 31).
  { unfold month_length. by repeat case_match. }
  destruct (N.ltb_spec d (month_length y m)); [lia|]. destruct (N.ltb_spec m 12); lia.
Qed.

(** C35: within the range of a 64-bit clock the computation of the date never
    overflows, and it is the calendar: the date reached from 1970-01-01 by going
    from each day to the next, month lengths and leap years included. *)
Theorem civil_from_days_calendar days :
  days <= u64_max / 86400 -> civil_from_days days = Some (calendar_date days).
Proof. apply calendar_days. Qed.

Lemma civil_from_days_calendar_witness :
  11016 <= u64_max / 86400 /\ civil_from_days 11016 = Some (calendar_date 11016) /\
  calendar_date 11016 = (2000, 2, 29).
Proof.
  split; [by vm_compute|]. split; [|by vm_compute].
  apply (civil_from_days_calendar 11016). by vm_compute.
Defined.
