(* ===== verification/ServiceLog.v ===== *)
(** * The log of the service

    src/src/service_log.rs: the line of an event, which stays on one line
    whatever its texts are, and the log file with its one rotation, over the disk
    of Storage. *)

From stdpp Require Import relations.
From S2P Require Import Prelude Errors Effects Storage Calendar.

#[local] Abbreviation newline := (byte_of_N 10).

Definition SERVICE_LOG_FILE : string := "service-v1.log".
Definition ROTATED_SUFFIX : string := ".1".
Definition DEFAULT_MAX_BYTES : N := 256 * 1024.
Definition MAX_FIELD_CHARS : nat := 512.

Record ServiceLog := {
  sl_path : string;
  sl_max_bytes : N;
}.

(** ** Characters *)

(** A byte below 128 is a character of its own; a character of more bytes starts
    above 191 and goes on with bytes from 128 to 191. *)
Definition continues (b : byte) : bool := in_range 128 191 b.

(** [str::chars], as the bytes of each character. *)
Fixpoint chars (l : list byte) : list (list byte) :=
  match l with
  | [] => []
  | b :: l' =>
      match chars l' with
      | (c :: g) :: gs =>
          if continues c && (128 <=? N_of_ascii b)%N && (length g <? 3)%nat
          then (b :: c :: g) :: gs else [b] :: (c :: g) :: gs
      | gs => [b] :: gs
      end
  end.

(** [char::is_control]. *)
Definition is_control (c : list byte) : bool :=
  match c with
  | [b] => (N_of_ascii b <? 32)%N || (N_of_ascii b =? 127)%N
  | [b; d] => (N_of_ascii b =? 194)%N && in_range 128 159 d
  | _ => false
  end.

(** ** The line *)

Definition sanitize (field : string) : list byte :=
  concat ((fun c => if is_control c then [" "%char] else c)
            <$> take MAX_FIELD_CHARS (chars (as_bytes field))).

(** [{:0width}]. *)
Definition padded (width : nat) (n : N) : list byte :=
  let digits := u64_to_string n in replicate (width - length digits) "0"%char ++ digits.

(** [None] when the date overflows. *)
Definition format_line (unix_seconds : N) (event detail : string) : option (list byte) :=
  let days := (unix_seconds / 86400)%N in
  let time := (unix_seconds mod 86400)%N in
  '(year, month, day) ← civil_from_days days;
  Some (padded 4 year ++ "-"%char :: padded 2 month ++ "-"%char :: padded 2 day
    ++ "T"%char :: padded 2 (time / 3600) ++ ":"%char :: padded 2 (time mod 3600 / 60)
    ++ ":"%char :: padded 2 (time mod 60) ++ "Z"%char :: " "%char :: sanitize event
    ++ " "%char :: sanitize detail ++ [newline]).

(** ** The file *)

(** [Path::join] of a file name: a separator, unless the path ends with one or
    is a bare drive. *)
Definition join_name (directory name : string) : string :=
  if match last_byte directory with
     | Some b => path_sep b || (str_len directory =? 2)%nat && bool_decide (b = ":"%char)
     | None => true
     end
  then directory +:+ name else directory +:+ "\" +:+ name.

Definition with_limit (directory : string) (max_bytes : N) : ServiceLog :=
  {| sl_path := join_name directory SERVICE_LOG_FILE; sl_max_bytes := max_bytes |}.
Definition in_directory (directory : string) : ServiceLog :=
  with_limit directory DEFAULT_MAX_BYTES.

Definition rotated (log : ServiceLog) : string := sl_path log +:+ ROTATED_SUFFIX.

Definition log_io : MaintenanceError := io_error "the log cannot be written".

(** [OpenOptions::create (true).append (true)] and [write_all] at the end. *)
Definition open_append (p : string) : M Disk () :=
  io (fun fs => Some (<[p := default [] (fs !! p)]> fs)) unchanged log_io.
Definition append_all (p : string) (bytes : list byte) : M Disk () :=
  io (fun fs => Some (<[p := default [] (fs !! p) ++ bytes]> fs))
     (fun k fs => <[p := default [] (fs !! p) ++ take k bytes]> fs) log_io.

Definition append (log : ServiceLog) (line : list byte) : M Disk () :=
  current ← gets (fun d => N.of_nat (length (default [] (files d !! sl_path log))));
  _ ← (if (0 <? current)%N
          && (sl_max_bytes log <? saturating_add u64_max current (N.of_nat (length line)))%N
       then rename (sl_path log) (rotated log) log_io else pure tt);
  _ ← open_append (sl_path log);
  append_all (sl_path log) line.

(** The seconds are those of the clock. *)
Definition record (log : ServiceLog) (seconds : N) (event detail : string) : M Disk () :=
  match format_line seconds event detail with
  | Some line => _ ← attempt (append log line); pure tt
  | None => fun d => (Crashed, d)
  end.

Definition record_error (log : ServiceLog) (seconds : N) (event : string) (error : MaintenanceError)
    : M Disk () := record log seconds event (display_error error).

(** ** Characters again *)

Lemma chars_forall l :
  Forall (fun c => exists b g, c = b :: g /\ (length g <= 3)%nat
    /\ (g <> [] -> Forall (fun b => (128 <= N_of_ascii b)%N) c)) (chars l).
Proof.
  induction l as [|b l IH]; [constructor|]. cbn [chars].
  destruct (chars l) as [|[|c g] gs]; [by repeat econstructor|by inversion IH as [|?? (?&?&?&?)]|].
  inversion IH as [|?? Hc Hgs]; subst.
  destruct (continues c && (128 <=? N_of_ascii b)%N && (length g <? 3)%nat) eqn:E.
  - bool_inv. constructor; [|done]. exists b, (c :: g). split; [done|].
    rewrite ?Nat.ltb_lt, ?N.leb_le in *. split; [cbn; lia|]. intros _.
    destruct Hc as (? & ? & [= <- <-] & _ & Hg). constructor; [done|].
    destruct g; [|by apply Hg]. constructor; [|done].
    match goal with H : continues c = true |- _ => unfold continues, in_range in H; bool_inv end.
    by rewrite ?N.leb_le in *.
  - constructor; [|done].
    exists b, []. split_and!; [done|cbn; lia|done].
Qed.

(** A byte that can start or end nothing: not a control character. *)
Definition plain (b : byte) : Prop := (32 <= N_of_ascii b)%N /\ N_of_ascii b <> 127%N.

Lemma sanitize_plain field :
  Forall plain (sanitize field) /\ (length (sanitize field) <= 2048)%nat.
Proof.
  unfold sanitize. pose proof (chars_forall (as_bytes field)) as Hall.
  pose proof (length_take (chars (as_bytes field)) MAX_FIELD_CHARS) as Hlen.
  apply (Forall_take _ MAX_FIELD_CHARS) in Hall. revert Hlen.
  assert (forall cs, Forall (fun c => exists b g, c = b :: g /\ (length g <= 3)%nat
      /\ (g <> [] -> Forall (fun b => (128 <= N_of_ascii b)%N) c)) cs ->
    Forall plain (concat ((fun c => if is_control c then [" "%char] else c) <$> cs)) /\
    (length (concat ((fun c => if is_control c then [" "%char] else c) <$> cs)) <= 4 * length cs)%nat)
    as H; [|intros Hlen; destruct (H _ Hall); split; [done|unfold MAX_FIELD_CHARS in *; lia]].
  induction 1 as [|c cs (b & g & -> & Hg & Hb) _ [IH1 IH2]]; [by split; [constructor|cbn]|].
  cbn [fmap list_fmap concat length]. rewrite Forall_app, length_app.
  destruct (is_control (b :: g)) eqn:E; [split; [split; [by repeat constructor|done]|cbn; lia]|].
  split; [|cbn; lia]. split; [|done]. destruct g as [|d g].
  - cbn in E. apply orb_false_iff in E as [E1%N.ltb_ge E2%N.eqb_neq]. by repeat constructor.
  - eapply Forall_impl; [by apply Hb|]. cbv beta. unfold plain. lia.
Qed.

Lemma padded_plain width n :
  (n <= u64_max)%N -> (width <= 20)%nat ->
  Forall plain (padded width n) /\ (length (padded width n) <= 20)%nat.
Proof.
  intros Hn Hw. destruct (u64_to_string_digits n Hn) as (_ & Hd & Hl). unfold padded.
  rewrite Forall_app, length_app, length_replicate. split; [split|lia].
  - by apply Forall_replicate.
  - eapply Forall_impl; [exact Hd|]. cbv beta. unfold is_ascii_digit, in_range, plain.
    intros b Hb. bool_inv. rewrite ?N.leb_le in *. lia.
Qed.

Lemma Forall_plain_cons b l : plain b -> Forall plain l -> Forall plain (b :: l).
Proof. by constructor. Qed.

Lemma format_line_text unix_seconds event detail :
  (unix_seconds <= u64_max)%N ->
  exists text, format_line unix_seconds event detail = Some (text ++ [newline]) /\
    Forall plain text /\ (length text <= 4300)%nat.
Proof.
  intros Hs. unfold format_line.
  assert (unix_seconds / 86400 <= u64_max / 86400)%N as Hd by (unfold u64_max in *; lia).
  pose proof (calendar_date_valid (unix_seconds / 86400)) as Hv.
  rewrite (calendar_days _ Hd). cbn [mbind option_bind].
  destruct (calendar_date _) as [[year month] day]. destruct Hv as (Hy & Hm & Hday).
  set (time := (unix_seconds mod 86400)%N). assert (time < 86400)%N by (unfold time; lia).
  change (u64_max / 86400)%N with 213503982334601%N in Hd.
  destruct (padded_plain 4 year) as [P1 L1]; [unfold u64_max; lia..|].
  destruct (padded_plain 2 month) as [P2 L2]; [unfold u64_max; lia..|].
  destruct (padded_plain 2 day) as [P3 L3]; [unfold u64_max; lia..|].
  destruct (padded_plain 2 (time / 3600)) as [P4 L4]; [unfold u64_max; lia..|].
  destruct (padded_plain 2 (time mod 3600 / 60)) as [P5 L5]; [unfold u64_max; lia..|].
  destruct (padded_plain 2 (time mod 60)) as [P6 L6]; [unfold u64_max; lia..|].
  destruct (sanitize_plain event) as [P7 L7], (sanitize_plain detail) as [P8 L8].
  eexists (padded 4 year ++ "-"%char :: padded 2 month ++ "-"%char :: padded 2 day
    ++ "T"%char :: padded 2 (time / 3600) ++ ":"%char :: padded 2 (time mod 3600 / 60)
    ++ ":"%char :: padded 2 (time mod 60) ++ "Z"%char :: " "%char :: sanitize event
    ++ " "%char :: sanitize detail).
  split; [by repeat (rewrite <- app_assoc; cbn [app])|].
  split; [|repeat (rewrite length_app || cbn [length]); clearbody time; lia].
  repeat first [apply Forall_app_2; [assumption|] | apply Forall_plain_cons; [done|]].
  done.
Qed.

(** ** The bound of the log *)

Section bound.
Context (log : ServiceLog).
#[local] Abbreviation path := (sl_path log).
#[local] Abbreviation old := (rotated log).

Definition file_size (p : string) (fs : Files) : N := N.of_nat (length (default [] (fs !! p))).

Definition within_bound (fs : Files) : Prop :=
  (file_size path fs <= sl_max_bytes log)%N /\ (file_size old fs <= sl_max_bytes log)%N.

(** Nothing but the log and its rotation changed. *)
Definition apart (fs fs' : Files) : Prop :=
  forall q, q <> path -> q <> old -> fs' !! q = fs !! q.

(** A service writes an event, meeting any faults, and may stop while it does. *)
Inductive log_step : Files -> Files -> Prop :=
  | logged seconds event detail fs ft o d :
      (seconds <= u64_max)%N -> record log seconds event detail (mkDisk fs ft) = (o, d) ->
      log_step fs (files d).

Lemma rotated_ne : old <> path.
Proof.
  unfold rotated. intros E. apply (f_equal str_len) in E.
  rewrite <- !length_as_bytes, as_bytes_app, length_app in E. cbn in E. lia.
Qed.

Lemma apart_insert fs c : apart fs (<[path := c]> fs).
Proof. intros q Hq _. by rewrite lookup_insert_ne. Qed.

Lemma file_size_insert p c fs : file_size p (<[p := c]> fs) = N.of_nat (length c).
Proof. unfold file_size. by rewrite lookup_insert_eq. Qed.
Lemma file_size_insert_ne p q c fs : p <> q -> file_size p (<[q := c]> fs) = file_size p fs.
Proof. intros Hne. unfold file_size. by rewrite lookup_insert_ne. Qed.

Context (Hsmall : (4301 <= sl_max_bytes log)%N) (Hwide : (sl_max_bytes log < u64_max)%N).

(** Appending to a log that has room for the line. *)
Lemma runs_append_line fs0 fs line :
  within_bound fs -> apart fs0 fs ->
  (file_size path fs + N.of_nat (length line) <= sl_max_bytes log)%N ->
  let kept fs' := within_bound fs' /\ apart fs0 fs' in
  runs (_ ← open_append path; append_all path line) (fun _ => kept) kept kept fs.
Proof.
  intros [Hp Ho] Ha Hroom kept.
  assert (forall c, (N.of_nat (length c) <= sl_max_bytes log)%N -> kept (<[path := c]> fs)) as Hk.
  { intros c Hc. split; [split|].
    - by rewrite file_size_insert.
    - rewrite file_size_insert_ne by apply rotated_ne. done.
    - intros q Hq Hq'. rewrite (apart_insert fs c q Hq Hq'). by apply Ha. }
  assert (kept fs) as Hfs by done.
  unfold file_size in Hroom, Hp.
  apply runs_bind. eapply runs_io; [done| |by apply Hk|by split].
  assert (forall l, (length l <= length line)%nat ->
    kept (<[path := default [] (<[path := default [] (fs !! path)]> fs !! path) ++ l]>
            (<[path := default [] (fs !! path)]> fs))) as Hl.
  { intros l Hl. rewrite lookup_insert_eq, insert_insert_eq. cbn [default from_option id].
    apply Hk. rewrite length_app. lia. }
  eapply runs_io; [done|by apply Hl..|].
  intros k. split; apply Hl; rewrite length_take; lia.
Qed.

Lemma runs_append fs line :
  within_bound fs -> (length line <= 4301)%nat ->
  let kept fs' := within_bound fs' /\ apart fs fs' in
  runs (append log line) (fun _ => kept) kept kept fs.
Proof.
  intros Hb Hl kept. assert (kept fs) as Hfs by done. destruct Hb as [Hp Ho].
  unfold append. apply runs_bind. eapply (runs_gets _ (file_size path)); [done|].
  apply runs_bind.
  destruct ((0 <? file_size path fs)%N && _) eqn:E.
  - bool_inv. rewrite ?N.ltb_lt in *.
    assert (exists c, fs !! path = Some c) as [c Hc].
    { unfold file_size in *. destruct (fs !! path); [by eexists|]. cbn in *. lia. }
    assert (file_size path (delete path fs) = 0%N) as Hz
      by (unfold file_size; by rewrite lookup_delete_eq).
    assert (kept (<[old := c]> (delete path fs))) as Hk.
    { split; [split|].
      - rewrite file_size_insert_ne by (symmetry; apply rotated_ne). lia.
      - rewrite file_size_insert. unfold file_size in Hp. by rewrite Hc in Hp.
      - intros q Hq Hq'. rewrite lookup_insert_ne, lookup_delete_ne by done. done. }
    eapply runs_rename; [exact Hc| |done..].
    apply runs_append_line; [apply Hk..|].
    rewrite file_size_insert_ne by (symmetry; apply rotated_ne). lia.
  - apply runs_pure. apply runs_append_line; [done|done|].
    apply andb_false_iff in E as [E|E]; apply N.ltb_ge in E; [lia|].
    unfold saturating_add in E. lia.
Qed.

Lemma log_step_bound fs fs' : within_bound fs -> log_step fs fs' -> within_bound fs' /\ apart fs fs'.
Proof.
  intros Hb Hs. destruct Hs as [seconds event detail fs ft o d Hs Hr]. unfold record in Hr.
  destruct (format_line_text seconds event detail Hs) as (text & E & _ & Hl). rewrite E in Hr.
  assert (runs (_ ← attempt (append log (text ++ [newline])); pure tt)
    (fun _ fs' => within_bound fs' /\ apart fs fs') (fun fs' => within_bound fs' /\ apart fs fs')
    (fun fs' => within_bound fs' /\ apart fs fs') fs) as Hruns.
  { apply runs_bind, runs_attempt. eapply runs_mono; [apply runs_append; [done|]| | |].
    - rewrite length_app. cbn. lia.
    - intros [] fs1 Hk. by apply runs_pure.
    - intros fs1 Hk e. by apply runs_pure.
    - done. }
  pose proof (runs_result _ _ _ _ (mkDisk fs ft) o d Hruns Hr) as H. by destruct o as [[[]|]| |].
Qed.
End bound.

(** An event is one line of the log: for every time of a 64-bit clock and
    whatever the texts are, the line exists, ends with a newline, has no other
    newline and no control character, and has at most 4,300 bytes. *)
Theorem format_line_one_line unix_seconds event detail :
  (unix_seconds <= u64_max)%N ->
  exists text, format_line unix_seconds event detail = Some (text ++ [newline]) /\
    Forall plain text /\ (length text <= 4300)%nat.
Proof. apply format_line_text. Qed.

Lemma format_line_one_line_witness :
  format_line 951785999 "a" "b" <> None /\
  exists text, format_line 951785999 "a" "b" = Some (text ++ [newline]) /\
    Forall plain text /\ (length text <= 4300)%nat.
Proof.
  split; [by vm_compute|]. apply (format_line_one_line 951785999 "a" "b"). by vm_compute.
Defined.


(** A log with room for 200 bytes less than an event needs rotates. *)
Definition sample_log : ServiceLog := with_limit "C:\data" 5000.
Definition long_text : string := of_bytes (replicate 3000 "x"%char).
Definition sample_files : Files := {[ sl_path sample_log := replicate 4900 "y"%char ]}.

