(* ===== verification/Journal.v ===== *)
(** * The transaction journal

    The journal part of src/src/transaction.rs: [JournalState], [JournalEntry],
    [JournalHeader], [write_new_journal], [append_state], [read_journal] and its
    checks, as functions on the journal's bytes.  What an interrupted append
    leaves is the business of Transaction. *)

From S2P Require Import Prelude Errors Identifiers Json Roots FileSet Trust.

Definition JOURNAL_SCHEMA : N := 1.

Inductive JournalState := Prepared | Committing | Committed | RollingBack.

#[export] Instance JournalState_eq_dec : EqDecision JournalState.
Proof. solve_decision. Defined.

Inductive JournalAction := Replace | Remove.

#[export] Instance JournalAction_eq_dec : EqDecision JournalAction.
Proof. solve_decision. Defined.

Record TargetSnapshot := {
  ts_identity : DirectoryIdentity;
  last_write_time : N;
  ts_size : N;
}.

#[export] Instance TargetSnapshot_eq_dec : EqDecision TargetSnapshot.
Proof. solve_decision. Defined.

Record JournalEntry := {
  action : JournalAction;
  original : option TargetSnapshot;
  je_path : string;
  prepared_index : option N;
  transaction_index : N;
}.

Record JournalHeader := {
  entries : list JournalEntry;
  jh_generation : N;
  jh_job_id : string;
  manifest_digest : string;
  jh_root : RegisteredRoot;
  jh_schema : N;
}.

Record JournalStateRecord := { jr_state : JournalState }.

Section encoding.
Context `{SerdeJson}.

Definition state_name (s : JournalState) : string :=
  match s with
  | Prepared => "prepared" | Committing => "committing"
  | Committed => "committed" | RollingBack => "rolling_back"
  end.

Definition option_value {A} (f : A -> Value) (o : option A) : Value :=
  match o with Some a => f a | None => Null end.

Definition TargetSnapshot_value (t : TargetSnapshot) : Value :=
  Object [("identity", DirectoryIdentity_value (ts_identity t));
          ("lastWriteTime", VNumber (number_of_u64 (last_write_time t)));
          ("size", VNumber (number_of_u64 (ts_size t)))].

Definition JournalEntry_value (e : JournalEntry) : Value :=
  Object [("action", VString (match action e with Replace => "replace" | Remove => "remove" end));
          ("original", option_value TargetSnapshot_value (original e));
          ("path", VString (je_path e));
          ("preparedIndex", option_value (fun n => VNumber (number_of_u64 n)) (prepared_index e));
          ("transactionIndex", VNumber (number_of_u64 (transaction_index e)))].

#[export] Instance JournalHeader_encoder : Encoder JournalHeader := fun h =>
  Some (Object [("entries", Array (JournalEntry_value <$> entries h));
                ("generation", VNumber (number_of_u64 (jh_generation h)));
                ("jobId", VString (jh_job_id h));
                ("manifestDigest", VString (manifest_digest h));
                ("root", RegisteredRoot_value (jh_root h));
                ("schema", VNumber (number_of_u64 (jh_schema h)))]).

#[export] Instance JournalStateRecord_encoder : Encoder JournalStateRecord := fun r =>
  Some (Object [("state", VString (state_name (jr_state r)))]).
End encoding.

Definition newline : byte := byte_of_N 10.

(** ** Writing *)

Section writing.
Context `{SerdeJson}.

(** [write_journal_line]: the bytes it writes. *)
Definition journal_line {T} `{!Encoder T} (t : T) : Result (list byte) :=
  value ← ok_or (to_value t) TransactionState "journal record cannot be encoded";
  bytes ← canonical_json value;
  Ok (bytes ++ [newline]).

(** The bytes of [write_new_journal]. *)
Definition new_journal_bytes (header : JournalHeader) : Result (list byte) :=
  first ← journal_line header;
  second ← journal_line {| jr_state := Prepared |};
  Ok (first ++ second).

(** The bytes [append_state] adds. *)
Definition state_line (state : JournalState) : Result (list byte) :=
  journal_line {| jr_state := state |}.
End writing.

(** ** Checking *)

Definition journal_error (d : string) : MaintenanceError := new_error RecoveryIncomplete d.

Definition validate_state_transition (previous : option JournalState) (next : JournalState)
    : Result () :=
  match previous, next with
  | None, Prepared | Some Prepared, Committing | Some Committing, Committed
  | Some Committing, RollingBack => Ok tt
  | _, _ => Err (journal_error "transaction journal state transition is invalid")
  end.

Section header.
Context `{UnicodeCase}.

Record EntryKeys := {
  ek_paths : gset string;
  ek_transaction : gset N;
  ek_prepared : gset N;
}.

Definition check_entry (keys : EntryKeys) (e : JournalEntry) : Result EntryKeys :=
  _ ← validate_relative_path (je_path e);
  let folded := to_lowercase (je_path e) in
  _ ← (if negb (bool_decide (folded ∈ ek_paths keys))
          && negb (bool_decide (transaction_index e ∈ ek_transaction keys))
          && negb (bool_decide (action e = Replace /\ prepared_index e = None))
          && negb (bool_decide (action e = Remove /\ is_Some (prepared_index e)))
          && match prepared_index e with
             | Some i => negb (bool_decide (i ∈ ek_prepared keys))
             | None => true
             end
       then Ok tt
       else Err (journal_error "transaction journal entry is inconsistent"));
  Ok {| ek_paths := {[ folded ]} ∪ ek_paths keys;
        ek_transaction := {[ transaction_index e ]} ∪ ek_transaction keys;
        ek_prepared := match prepared_index e with
                       | Some i => {[ i ]} ∪ ek_prepared keys
                       | None => ek_prepared keys
                       end |}.

Definition validate_journal_header (h : JournalHeader) : Result () :=
  _ ← ensure ((jh_schema h =? JOURNAL_SCHEMA)%N
              && negb (length (entries h) =? 0)%nat
              && valid_internal_job_id (jh_job_id h)
              && is_ok (decode_lower_hex 32 (manifest_digest h) RecoveryIncomplete))
        RecoveryIncomplete "transaction journal header is unsupported";
  _ ← try_for check_entry {| ek_paths := ∅; ek_transaction := ∅; ek_prepared := ∅ |} (entries h);
  Ok tt.
End header.

(** ** Reading *)

Section reading.
Context `{SerdeJson, UnicodeCase, !Reader JournalHeader, !Reader JournalStateRecord}.

(** The state records; [terminated] tells that the journal ends with a line
    break, so that its last line is not cut short. *)
Fixpoint read_states (terminated : bool) (state : option JournalState)
    (lines : list (list byte)) : Result (option JournalState) :=
  match lines with
  | [] => Ok state
  | line :: lines' =>
      if (length line =? 0)%nat then read_states terminated state lines'
      else
        match parse_canonical JournalStateRecord line 128 with
        | Ok record =>
            _ ← validate_state_transition state (jr_state record);
            read_states terminated (Some (jr_state record)) lines'
        | Err _ =>
            if (length lines' =? 0)%nat && negb terminated then Ok state
            else Err (journal_error "transaction journal contains an invalid record")
        end
  end.

Definition read_journal (bytes : list byte) : Result (JournalHeader * JournalState) :=
  _ ← ensure (N.of_nat (length bytes) <=? MAX_MANIFEST_BYTES)%N RecoveryIncomplete
        "transaction journal exceeds the bound";
  let lines := split_on newline bytes in
  header_bytes ← (match lines with
                  | line :: _ =>
                      if (length line =? 0)%nat
                      then Err (journal_error "transaction journal has no header")
                      else Ok line
                  | [] => Err (journal_error "transaction journal has no header")
                  end);
  header ← parse_canonical JournalHeader header_bytes MAX_MANIFEST_BYTES;
  _ ← validate_journal_header header;
  state ← read_states (bool_decide (last bytes = Some newline)) None (tail lines);
  state ← ok_or state RecoveryIncomplete "journal has no durable state";
  Ok (header, state).
End reading.

(** ** What a valid header satisfies *)

Section header_wf.
Context `{UnicodeCase}.

Definition folded_path (e : JournalEntry) : string := to_lowercase (je_path e).

(** A replacement names its prepared file, a removal none. *)
Definition entry_ok (e : JournalEntry) : Prop :=
  validate_relative_path (je_path e) = Ok tt /\
  (action e = Replace <-> is_Some (prepared_index e)).

Record header_wf (h : JournalHeader) : Prop := {
  hw_schema : jh_schema h = JOURNAL_SCHEMA;
  hw_entries : entries h <> [];
  hw_job : valid_internal_job_id (jh_job_id h) = true;
  hw_digest : exists d, decode_lower_hex 32 (manifest_digest h) RecoveryIncomplete = Ok d;
  hw_ok : Forall entry_ok (entries h);
  hw_paths : NoDup (folded_path <$> entries h);
  hw_indexes : NoDup (transaction_index <$> entries h);
  hw_prepared : NoDup (omap prepared_index (entries h));
}.

Definition fresh_entry (keys : EntryKeys) (e : JournalEntry) : Prop :=
  (folded_path e ∉ ek_paths keys) /\ (transaction_index e ∉ ek_transaction keys)
  /\ (forall i, prepared_index e = Some i -> i ∉ ek_prepared keys).

Definition add_entry (keys : EntryKeys) (e : JournalEntry) : EntryKeys :=
  {| ek_paths := {[ folded_path e ]} ∪ ek_paths keys;
     ek_transaction := {[ transaction_index e ]} ∪ ek_transaction keys;
     ek_prepared := match prepared_index e with
                    | Some i => {[ i ]} ∪ ek_prepared keys
                    | None => ek_prepared keys
                    end |}.

Lemma check_entry_iff keys e keys' :
  check_entry keys e = Ok keys' <->
  entry_ok e /\ fresh_entry keys e /\ keys' = add_entry keys e.
Proof.
  unfold check_entry, entry_ok, fresh_entry. fold (folded_path e). split.
  - intros Hc. ok_inv.
    match goal with H : (if ?c then _ else _) = Ok _ |- _ => destruct c eqn:Hb end; [|done].
    ok_inv. subst keys'. bool_inv.
    split_and!; try done.
    + split; [destruct (prepared_index e); [by eexists|naive_solver]|].
      intros Hs. destruct (action e) eqn:Ea; [done|naive_solver].
    + intros i Hi. rewrite Hi in *. by bool_inv.
  - intros [[Hv Ha] [(Hp & Ht & Hi) ->]]. rewrite Hv. mred.
    rewrite (bool_decide_false (_ ∈ ek_paths keys)) by done.
    rewrite (bool_decide_false (_ ∈ ek_transaction keys)) by done.
    rewrite (bool_decide_false (action e = Replace /\ prepared_index e = None))
      by (intros [E1 E2]; apply Ha in E1 as [? E1]; congruence).
    rewrite (bool_decide_false (action e = Remove /\ is_Some (prepared_index e)))
      by (intros [E1 E2]; apply Ha in E2; congruence).
    unfold add_entry. cbn [negb andb]. destruct (prepared_index e) as [i|] eqn:Ei; [|done].
    by rewrite bool_decide_false by (by apply Hi).
Qed.

Lemma fresh_add keys e e' :
  fresh_entry (add_entry keys e) e' <->
  fresh_entry keys e' /\ folded_path e' <> folded_path e
  /\ transaction_index e' <> transaction_index e
  /\ (forall i, prepared_index e' = Some i -> prepared_index e <> Some i).
Proof.
  unfold fresh_entry, add_entry. cbn. destruct (prepared_index e) as [j|]; cbn.
  - split.
    + intros (Hp & Ht & Hi). split_and!; [set_solver..|].
      intros i Hi' [= ->]. apply (Hi i Hi'). set_solver.
    + intros ((Hp & Ht & Hi) & Hp' & Ht' & Hi'). split_and!; [set_solver..|].
      intros i Ei [E%elem_of_singleton|Hin]%elem_of_union; [|by apply (Hi i)].
      subst. by apply (Hi' j Ei).
  - set_solver.
Qed.

Lemma check_entries_iff l keys :
  (exists keys', try_for check_entry keys l = Ok keys') <->
  Forall entry_ok l /\ NoDup (folded_path <$> l) /\ NoDup (transaction_index <$> l)
  /\ NoDup (omap prepared_index l) /\ Forall (fresh_entry keys) l.
Proof.
  revert keys. induction l as [|e l IH]; intros keys; cbn [try_for].
  { split; [intros _; split_and!; constructor|eauto]. }
  transitivity (entry_ok e /\ fresh_entry keys e /\
                exists keys', try_for check_entry (add_entry keys e) l = Ok keys').
  { split.
    - intros [keys' Hk]. ok_inv. apply check_entry_iff in Hx as (? & ? & ->). eauto.
    - intros (He & Hf & keys' & Hk). exists keys'.
      by rewrite (proj2 (check_entry_iff keys e _) (conj He (conj Hf eq_refl))). }
  rewrite IH, !Forall_cons. cbn [fmap list_fmap omap list_omap]. rewrite !NoDup_cons.
  assert (Forall (fresh_entry (add_entry keys e)) l <->
          Forall (fresh_entry keys) l /\ (folded_path e ∉ folded_path <$> l)
          /\ (transaction_index e ∉ transaction_index <$> l)
          /\ forall i, prepared_index e = Some i -> i ∉ omap prepared_index l) as ->.
  { rewrite !Forall_forall. setoid_rewrite fresh_add. split.
    - intros Hall. split_and!.
      + intros e' He'. by apply Hall.
      + intros (e' & E & He')%list_elem_of_fmap. by apply Hall in He' as (_ & Hp & _).
      + intros (e' & E & He')%list_elem_of_fmap. by apply Hall in He' as (_ & _ & Ht & _).
      + intros i Hi (e' & He' & E)%list_elem_of_omap.
        apply Hall in He' as (_ & _ & _ & Hx). by apply (Hx i).
    - intros (Hf & Hp & Ht & Hi) e' He'. split_and!.
      + by apply Hf.
      + intros E. apply Hp. rewrite <- E. by apply list_elem_of_fmap_2.
      + intros E. apply Ht. rewrite <- E. by apply list_elem_of_fmap_2.
      + intros i E1 E2. apply (Hi i E2), list_elem_of_omap. by exists e'. }
  destruct (prepared_index e) as [i|].
  - rewrite NoDup_cons.
    assert ((forall i', Some i = Some i' -> i' ∉ omap prepared_index l)
            <-> i ∉ omap prepared_index l) as ->
      by (split; [by intros Hi; apply Hi|by intros Hi i' [= <-]]).
    tauto.
  - assert ((forall i', None = Some i' -> i' ∉ omap prepared_index l) <-> True) as -> by done.
    tauto.
Qed.

Lemma validate_journal_header_iff h : validate_journal_header h = Ok tt <-> header_wf h.
Proof.
  unfold validate_journal_header. split.
  - intros Hv. ok_inv. bool_inv.
    destruct (proj1 (check_entries_iff _ _) (ex_intro _ _ Hx0)) as (? & ? & ? & ? & _).
    split; try done.
    + by intros E; rewrite E in *.
    + match goal with H : is_ok _ = true |- _ => by apply is_ok_true in H end.
  - intros [-> Hne -> [d ->] Hok Hp Ht Hi]. rewrite N.eqb_refl.
    rewrite (proj2 (Nat.eqb_neq _ _)) by (by destruct (entries h)). mred.
    destruct (proj2 (check_entries_iff (entries h)
      {| ek_paths := ∅; ek_transaction := ∅; ek_prepared := ∅ |})) as [k ->]; [|done].
    split_and!; try done. apply Forall_forall. intros e _. repeat split; set_solver.
Qed.
End header_wf.

(** ** The text of the journal *)

(** The canonical text of a state record. *)
Definition state_text (s : JournalState) : list byte :=
  as_bytes "{" ++ quote :: as_bytes "state" ++ quote :: as_bytes ":"
  ++ quote :: as_bytes (state_name s) ++ quote :: as_bytes "}".

Definition state_bytes (s : JournalState) : list byte := state_text s ++ [newline].

(** A journal whose header text is [hb] and whose complete records are [ss]. *)
Definition journal_bytes (hb : list byte) (ss : list JournalState) : list byte :=
  hb ++ newline :: (ss ≫= state_bytes).

(** The state after the records [ss], when every transition is valid. *)
Fixpoint replay (state : option JournalState) (ss : list JournalState)
    : Result (option JournalState) :=
  match ss with
  | [] => Ok state
  | s :: ss' => _ ← validate_state_transition state s; replay (Some s) ss'
  end.

Lemma replay_app st ss1 ss2 :
  replay st (ss1 ++ ss2) = (st' ← replay st ss1; replay st' ss2).
Proof.
  revert st. induction ss1 as [|s ss1 IH]; intros st; [done|]. cbn.
  destruct (validate_state_transition st s) as [[]|]; [|done]. apply IH.
Qed.

Lemma validate_state_transition_iff st s :
  validate_state_transition st s = Ok tt <->
  (st = None /\ s = Prepared) \/ (st = Some Prepared /\ s = Committing)
  \/ (st = Some Committing /\ (s = Committed \/ s = RollingBack)).
Proof. destruct st as [[]|], s; cbn; naive_solver. Qed.

(** A valid journal is one of four. *)
Lemma replay_Some ss s :
  replay None ss = Ok (Some s) ->
  ss = match s with
       | Prepared => [Prepared]
       | Committing => [Prepared; Committing]
       | Committed => [Prepared; Committing; Committed]
       | RollingBack => [Prepared; Committing; RollingBack]
       end.
Proof.
  destruct ss as [|[] [|[] [|[] [|[] ss]]]]; cbn; intros Hr; by simplify_eq.
Qed.

(** Complete state texts are not prefixes of each other. *)
Lemma state_text_prefix s s' p :
  p `prefix_of` state_text s -> p = state_text s' -> s = s' /\ p = state_text s.
Proof.
  intros Hp ->. assert (forall a b, bool_decide (state_text b `prefix_of` state_text a) = bool_decide (a = b)) as Hd
    by (intros [] []; by vm_compute).
  assert (s = s') as <-; [|done].
  apply (bool_decide_unpack (s = s')). rewrite <- Hd. by apply bool_decide_pack.
Qed.

Lemma newline_state_text s : newline ∉ state_text s.
Proof. destruct s; by apply (bool_decide_unpack _). Qed.

Lemma state_text_length s : (0 < length (state_text s) <= 128)%nat.
Proof. destruct s; vm_compute; lia. Qed.

Section text.
Context `{SerdeJsonLaws}.

Lemma canonical_state s :
  canonical_json (Object [("state", VString (state_name s))]) = Ok (state_text s).
Proof.
  assert (sort_keys (object_keys [("state", VString (state_name s))]) = ["state"]) as Hk by done.
  unfold canonical_json. cbn [write_canonical]. rewrite Hk. cbn [List.map fmap list_fmap].
  unfold write_entry. cbn [get fst snd]. rewrite decide_True by done.
  rewrite (write_string_verbatim "state") by done.
  cbn [write_canonical]. rewrite (write_string_verbatim (state_name s)) by (by destruct s).
  by destruct s.
Qed.

Lemma state_line_bytes s : state_line s = Ok (state_bytes s).
Proof.
  unfold state_line, journal_line, to_value, JournalStateRecord_encoder. mred.
  rewrite canonical_state. done.
Qed.

Context `{UnicodeCase, !Reader JournalHeader, !Reader JournalStateRecord}.

(** A record parses exactly when its text is a state's. *)
Lemma parse_state_text line r :
  parse_canonical JournalStateRecord line 128 = Ok r -> line = state_text (jr_state r).
Proof.
  intros (_ & _ & v & [= <-] & Hc)%parse_canonical_Ok. rewrite canonical_state in Hc. congruence.
Qed.

Context `{!ReaderLaws JournalHeader, !ReaderLaws JournalStateRecord}.

Lemma parse_state s :
  parse_canonical JournalStateRecord (state_text s) 128 = Ok {| jr_state := s |}.
Proof.
  apply (parse_canonical_encoded _ _ (Object [("state", VString (state_name s))]));
    [done|apply canonical_state|].
  pose proof (state_text_length s). lia.
Qed.

(** ** Reading what was written *)

Lemma read_states_texts term st ss rest :
  read_states term st (List.map state_text ss ++ rest) =
  (st' ← replay st ss; read_states term st' rest).
Proof.
  revert st. induction ss as [|s ss IH]; intros st; [done|]. cbn [List.map app read_states replay].
  rewrite (proj2 (Nat.eqb_neq _ _)) by (pose proof (state_text_length s); lia).
  rewrite parse_state. mred. cbn [jr_state].
  destruct (validate_state_transition st s) as [[]|]; [|done]. mred. apply IH.
Qed.

Lemma split_journal hb ss p :
  newline ∉ hb -> 
  split_on newline (journal_bytes hb ss ++ p) =
  hb :: List.map state_text ss ++ split_on newline p.
Proof.
  intros Hh. unfold journal_bytes. rewrite <- app_assoc. cbn [app].
  rewrite split_on_app by done. f_equal.
  induction ss as [|s ss IH]; [done|]. cbn [mbind list_bind List.map app].
  unfold state_bytes at 1. rewrite <- !app_assoc. cbn [app].
  rewrite split_on_app by apply newline_state_text. f_equal. exact IH.
Qed.

(** A header that can be written and passes the checks of [read_journal]. *)
Record header_text (h : JournalHeader) (hb : list byte) : Prop := {
  ht_canonical : exists v, to_value h = Some v /\ canonical_json v = Ok hb;
  ht_valid : validate_journal_header h = Ok tt;
}.

Lemma header_one_line h hb : header_text h hb -> newline ∉ hb.
Proof. intros [(v & _ & Hc) _]. by eapply canonical_json_one_line. Qed.

Lemma header_not_empty h hb : header_text h hb -> hb <> [].
Proof.
  intros [(v & _ & Hc) _] ->. unfold canonical_json in Hc. rewrite write_canonical_print in Hc.
  by destruct (print_first_byte _ _ Hc) as (? & ? & ? & _).
Qed.

Lemma last_journal_bytes hb ss p :
  bool_decide (last (journal_bytes hb ss ++ p) = Some newline)
  = match p with [] => true | _ => bool_decide (last p = Some newline) end.
Proof.
  destruct p as [|c p].
  - rewrite app_nil_r. apply bool_decide_eq_true. unfold journal_bytes.
    destruct ss as [|s ss] using rev_ind; [apply last_snoc|].
    rewrite bind_app. cbn [mbind list_bind]. unfold state_bytes at 2.
    rewrite app_nil_r, !app_comm_cons, !app_assoc. apply last_snoc.
  - rewrite last_app. by destruct (last_is_Some (c :: p)) as [_ [x ->]].
Qed.

(** Reading a journal of complete records and a tail [p]. *)
Lemma read_journal_tail h hb ss p :
  header_text h hb ->
  (N.of_nat (length (journal_bytes hb ss ++ p)) <= MAX_MANIFEST_BYTES)%N ->
  read_journal (journal_bytes hb ss ++ p) =
  (st ← replay None ss;
   st ← read_states (match p with [] => true | _ => bool_decide (last p = Some newline) end)
          st (split_on newline p);
   st ← ok_or st RecoveryIncomplete "journal has no durable state";
   Ok (h, st)).
Proof.
  intros Hh Hl. unfold read_journal. rewrite (proj2 (N.leb_le _ _) Hl). mred.
  rewrite split_journal by (by eapply header_one_line).
  rewrite (proj2 (Nat.eqb_neq _ _)) by (apply header_not_empty in Hh; by destruct hb).
  mred. destruct Hh as [(v & Hv & Hc) Hval].
  rewrite (parse_canonical_encoded _ _ _ _ MAX_MANIFEST_BYTES Hv Hc).
  2: { etransitivity; [|exact Hl]. unfold journal_bytes. rewrite !length_app. lia. }
  mred. rewrite Hval. mred. cbn [tail].
  rewrite last_journal_bytes. rewrite read_states_texts.
  by destruct (replay None ss) as [st|].
Qed.
Lemma ends_newline p s :
  p `prefix_of` state_bytes s ->
  p = state_bytes s \/ p `prefix_of` state_text s.
Proof.
  intros [r Hr]. destruct r as [|c r] using rev_ind; [rewrite app_nil_r in Hr; by left|].
  right. exists r. unfold state_bytes in Hr. rewrite app_assoc in Hr.
  by apply app_inj_tail in Hr as [-> _].
Qed.

Lemma prefix_no_newline p s : p `prefix_of` state_text s -> newline ∉ p.
Proof.
  intros [r Hr] Hin. apply (newline_state_text s). rewrite Hr. apply elem_of_app. by left.
Qed.

(** A cut record: nothing, or an ignored tail, or the whole text. *)
Lemma read_states_torn p s st :
  p `prefix_of` state_text s ->
  read_states (match p with [] => true | _ => bool_decide (last p = Some newline) end) st
    (split_on newline p)
  = if decide (p = state_text s)
    then _ ← validate_state_transition st s; Ok (Some s) else Ok st.
Proof.
  intros Hp. pose proof (prefix_no_newline _ _ Hp) as Hn.
  rewrite split_on_no_sep by done. destruct p as [|c p].
  { cbn. rewrite decide_False; [done|]. by destruct s. }
  assert (bool_decide (last (c :: p) = Some newline) = false) as ->.
  { apply bool_decide_eq_false. intros Hl. apply Hn.
    apply last_Some_elem_of in Hl. done. }
  cbn [read_states length Nat.eqb]. case_decide as Hd.
  - rewrite Hd, parse_state. mred. cbn [jr_state]. by destruct (validate_state_transition st s).
  - destruct (parse_canonical JournalStateRecord (c :: p) 128) as [r|e] eqn:Er; [|done].
    apply parse_state_text in Er. destruct Hd.
    by destruct (state_text_prefix s (jr_state r) (c :: p) Hp Er).
Qed.

Lemma read_journal_bound bytes r :
  read_journal bytes = Ok r -> (N.of_nat (length bytes) <= MAX_MANIFEST_BYTES)%N.
Proof.
  unfold read_journal. by destruct (_ <=? MAX_MANIFEST_BYTES)%N eqn:El; [apply N.leb_le in El|].
Qed.

(** A journal of complete records and nothing else. *)
Lemma read_journal_replay h hb ss :
  header_text h hb ->
  (N.of_nat (length (journal_bytes hb ss)) <= MAX_MANIFEST_BYTES)%N ->
  read_journal (journal_bytes hb ss) =
  (st ← replay None ss;
   st ← ok_or st RecoveryIncomplete "journal has no durable state";
   Ok (h, st)).
Proof.
  intros Hh Hl. rewrite <- (app_nil_r (journal_bytes hb ss)) in *.
  rewrite (read_journal_tail h) by done. by destruct (replay None ss).
Qed.

(** A journal of complete records is read back as its header and last
    state, exactly when its records are a valid history; otherwise reading
    fails. *)
Theorem read_journal_complete h hb ss r :
  header_text h hb ->
  (N.of_nat (length (journal_bytes hb ss)) <= MAX_MANIFEST_BYTES)%N ->
  (read_journal (journal_bytes hb ss) = Ok r
   <-> exists s, r = (h, s) /\ replay None ss = Ok (Some s)).
Proof.
  intros Hh Hl. rewrite (read_journal_replay h) by done.
  destruct (replay None ss) as [[s|]|e]; mred; split.
  - intros [= <-]. eauto.
  - by intros (s' & -> & [= ->]).
  - done.
  - by intros (? & _ & [=]).
  - done.
  - by intros (? & _ & [=]).
Qed.

(** A crash inside an append is harmless to the history: whatever prefix of
    the new record reached the disk, the journal reads as the state before the
    append or the state after it, and as the state before whenever the record's
    text is incomplete. *)
Theorem read_journal_torn h hb ss s next p :
  header_text h hb -> replay None ss = Ok (Some s) ->
  validate_state_transition (Some s) next = Ok tt -> p `prefix_of` state_bytes next ->
  (N.of_nat (length (journal_bytes hb ss ++ p)) <= MAX_MANIFEST_BYTES)%N ->
  read_journal (journal_bytes hb ss ++ p) =
    Ok (h, if decide (state_text next `prefix_of` p) then next else s).
Proof.
  intros Hh Hr Hv Hp Hl. apply ends_newline in Hp as [->|Hp].
  - rewrite decide_True by (by exists [newline]).
    assert (journal_bytes hb ss ++ state_bytes next = journal_bytes hb (ss ++ [next])) as E.
    { unfold journal_bytes. rewrite bind_app. cbn [mbind list_bind]. rewrite app_nil_r.
      by rewrite <- app_assoc. }
    rewrite E in *. rewrite <- (app_nil_r (journal_bytes hb (ss ++ [next]))) in *.
    rewrite (read_journal_tail h) by done. rewrite replay_app, Hr. mred. cbn [replay].
    rewrite Hv. done.
  - rewrite (read_journal_tail h) by done. rewrite Hr. mred.
    rewrite (read_states_torn p next) by done.
    assert (p = state_text next <-> state_text next `prefix_of` p) as Hiff.
    { split; [by intros ->|]. intros Hq. by apply (anti_symm prefix). }
    case_decide as D1; case_decide as D2; try tauto; by rewrite ?Hv.
Qed.

(** The text of a record has one opening brace, its first byte. *)
Lemma state_text_brace s : exists t, state_text s = "{"%char :: t /\ "{"%char ∉ t.
Proof. destruct s; eexists; (split; [reflexivity|]); by apply (bool_decide_unpack _). Qed.

(** No record is something followed by the start of a record. *)
Lemma brace_not_record g s k r :
  g <> [] -> (0 < k)%nat -> g ++ take k (state_text s) <> state_text r.
Proof.
  intros Hg Hk E. destruct g as [|c g]; [done|].
  destruct (state_text_brace s) as (t & Et & _), (state_text_brace r) as (t' & Et' & Hn).
  rewrite Et, Et' in E. destruct k as [|k]; [lia|]. cbn in E. injection E as _ E.
  apply Hn. rewrite <- E. apply elem_of_app. right. by left.
Qed.

(** A record appended after an unterminated line makes the journal unreadable. *)
Lemma append_unreadable h hb ss g s later :
  header_text h hb -> newline ∉ g -> g <> [] ->
  exists e, read_journal (journal_bytes hb ss ++ g ++ state_bytes s ++ later) = Err e.
Proof.
  intros Hh Hn Hne.
  destruct (read_journal _) as [r|e] eqn:E; [exfalso|by eexists].
  apply read_journal_bound in E as Hl.
  rewrite (read_journal_tail h) in E by done. ok_inv.
  revert Hx0. match goal with |- read_states ?t _ _ = _ -> _ => generalize t end.
  intros term Hx0.
  assert ((g ++ state_bytes s ++ later) = ((g ++ state_text s) ++ newline :: later)) as Eq.
  { unfold state_bytes. by rewrite <- !app_assoc. }
  rewrite Eq, split_on_app in Hx0.
  2: { rewrite not_elem_of_app. split; [done|apply newline_state_text]. }
  cbn [read_states] in Hx0.
  rewrite (proj2 (Nat.eqb_neq _ _)) in Hx0 by (by destruct g).
  destruct (parse_canonical JournalStateRecord (g ++ state_text s) 128) as [r'|e'] eqn:Er.
  - apply parse_state_text in Er.
    pose proof (brace_not_record g s (length (state_text s)) (jr_state r') Hne) as Hb.
    rewrite firstn_all in Hb. apply Hb; [apply state_text_length|exact Er].
  - pose proof (split_on_not_nil newline later). by destruct (split_on newline later).
Qed.

(** A record appended after a cut record makes the journal unreadable for
    good: no later append repairs it, and every recovery of the job fails. *)
Theorem append_after_torn_unreadable h hb ss p s1 s2 later :
  header_text h hb -> p `prefix_of` state_text s1 -> p <> [] ->
  exists e, read_journal (journal_bytes hb ss ++ p ++ state_bytes s2 ++ later) = Err e.
Proof.
  intros Hh Hp Hne. eapply append_unreadable; [done| |done]. by eapply prefix_no_newline.
Qed.

(** ** Journals as recovery meets them *)

(** Bytes that end the journal and are ignored: no line break, no record. *)
Definition garbage (g : list byte) : Prop :=
  (newline ∉ g) /\ forall r, g <> state_text r.

(** If the journal can be read at all, it is [h] in state [s]. *)
Definition reads_as (h : JournalHeader) (s : JournalState) (bytes : list byte) : Prop :=
  forall r, read_journal bytes = Ok r -> r = (h, s).

Lemma reads_as_garbage h hb ss s g :
  header_text h hb -> replay None ss = Ok (Some s) -> garbage g ->
  reads_as h s (journal_bytes hb ss ++ g).
Proof.
  intros Hh Hr [Hn Hg] r E. apply read_journal_bound in E as Hl.
  rewrite (read_journal_tail h) in E by done. rewrite Hr in E. revert E. mred.
  rewrite split_on_no_sep by done.
  destruct g as [|c g]; [by intros [= <-]|].
  rewrite (bool_decide_false (last (c :: g) = Some newline))
    by (by intros Hl'%last_Some_elem_of).
  cbn [read_states length Nat.eqb].
  destruct (parse_canonical JournalStateRecord (c :: g) 128) as [r'|e'] eqn:Er.
  - apply parse_state_text in Er. by destruct (Hg (jr_state r')).
  - by intros [= <-].
Qed.

Lemma reads_as_text h hb ss s :
  header_text h hb -> reads_as h s (journal_bytes hb ss ++ state_text s).
Proof.
  intros Hh r E. apply read_journal_bound in E as Hl.
  rewrite (read_journal_tail h) in E by done. revert E.
  destruct (replay None ss) as [st|]; mred; [|done].
  rewrite (read_states_torn (state_text s) s) by done. rewrite decide_True by done.
  destruct (validate_state_transition st s) as [[]|]; mred; [by intros [= <-]|done].
Qed.

Lemma journal_bytes_snoc hb ss s :
  journal_bytes hb ss ++ state_bytes s = journal_bytes hb (ss ++ [s]).
Proof.
  unfold journal_bytes. rewrite bind_app. cbn [mbind list_bind]. rewrite app_nil_r.
  by rewrite <- app_assoc.
Qed.

Lemma garbage_nil : garbage [].
Proof. split; [apply not_elem_of_nil|]. intros []; done. Qed.

(** A cut record after ignored bytes is ignored, unless it is a whole record. *)
Lemma garbage_cut g s k :
  garbage g -> (k <= length (state_text s))%nat ->
  garbage (g ++ take k (state_text s)) \/ (g = [] /\ take k (state_text s) = state_text s).
Proof.
  intros [Hn Hg] Hk.
  assert (newline ∉ g ++ take k (state_text s)) as Hn'.
  { rewrite not_elem_of_app. split; [done|]. intros Hin. apply (newline_state_text s).
    rewrite <- (take_drop k (state_text s)). apply elem_of_app. by left. }
  destruct g as [|c g].
  - destruct (decide (take k (state_text s) = state_text s)) as [E|E]; [by right|left].
    split; [done|]. intros r Er. cbn in Er.
    destruct (state_text_prefix s r (take k (state_text s))) as [_ E']; [|done|done].
    exists (drop k (state_text s)). by rewrite take_drop.
  - left. split; [done|]. intros r. destruct k as [|k].
    + rewrite take_0, app_nil_r. apply Hg.
    + apply brace_not_record; [done|lia].
Qed.

(** A crash while the journal is created blocks the job: as long as the
    text of the first state record is not complete on the disk, the journal
    file exists and reading it fails. *)
Theorem torn_new_journal_unreadable h hb p r :
  header_text h hb -> p ++ r = journal_bytes hb [] ++ state_text Prepared -> r <> [] ->
  exists e, read_journal p = Err e.
Proof.
  intros Hh Hp Hr. destruct (read_journal p) as [x|e] eqn:E; [exfalso|by eexists].
  apply read_journal_bound in E as Hl.
  assert (p `prefix_of` hb \/
          exists t, p = journal_bytes hb [] ++ t /\ t ++ r = state_text Prepared) as Hcases.
  { unfold journal_bytes in Hp |- *. cbn [mbind list_bind] in *. rewrite <- app_assoc in Hp.
    apply app_eq_inv in Hp as [([|c k] & -> & Hk)|(k & -> & _)].
    - left. by rewrite app_nil_r.
    - right. injection Hk as <- Hk. exists k. by rewrite <- app_assoc.
    - left. by exists k. }
  destruct Hcases as [Hpre|(t & -> & Ht)].
  - assert (newline ∉ p) as Hn.
    { intros Hin. apply (header_one_line _ _ Hh). destruct Hpre as [k ->].
      apply elem_of_app. by left. }
    unfold read_journal in E. rewrite (split_on_no_sep _ _ Hn) in E.
    cbn [tail read_states] in E. ok_inv. by simplify_eq.
  - rewrite (read_journal_tail h) in E by done. ok_inv. cbn in Hx. ok_inv. subst.
    assert (t `prefix_of` state_text Prepared) as Htp by by exists r.
    rewrite (read_states_torn t Prepared) in Hx0 by done.
    rewrite decide_False in Hx0.
    { ok_inv. by subst. }
    intros ->. apply Hr. apply (app_inv_head (state_text Prepared)). by rewrite app_nil_r.
Qed.
End text.
