(* ===== verification/WindowsRegistry.v ===== *)
(** * The keys and values of the Windows registry

    The registry of the local machine under faults, and the functions of
    src/src/windows.rs that open a scope's key component by component, take
    snapshots of values, write values and restore them.  A call returns its Win32
    status; a key is named by its view and its components, compared by the
    system without letter case. *)

From stdpp Require Import countable.
From S2P Require Import Prelude Errors Effects Json Storage RegistrySet RegistryScopes Generations.

(** ** The model *)

(** The name under which the system finds a key or a value. *)
Class RegistryNames := registry_name : string -> string.

Record StoredRegistryValue := {
  srv_data : list byte;
  srv_value_type : N;
}.

#[export] Instance StoredRegistryValue_eq_dec : EqDecision StoredRegistryValue.
Proof. solve_decision. Defined.

#[export] Instance RegistryView_countable : Countable RegistryView.
Proof.
  refine (inj_countable' (fun v => match v with Registry32 => true | Registry64 => false end)
    (fun b : bool => if b then Registry32 else Registry64) _). by intros [].
Defined.

(** An open key: a view of the registry and a path below HKEY_LOCAL_MACHINE. *)
Abbreviation KeyPath := (RegistryView * list string)%type.
Abbreviation Values := (gmap string StoredRegistryValue).

#[export] Instance KeyPath_eq_dec : EqDecision KeyPath := _.
#[export] Instance KeyPath_countable : Countable KeyPath := _.
Abbreviation Keys := (@gmap KeyPath KeyPath_eq_dec KeyPath_countable Values).

(** [COMMITTING], [STOP_REQUESTED] and the stop event of the service. *)
Record Flags := {
  committing : bool;
  stop_requested : bool;
  stop_event : bool;
}.

(** What a registry transaction works on: the files of the data directory, the
    registry, the generations in memory and the flags of the service.  Calls of
    the registry have fates of their own. *)
Record RegistryWorld := mkRegistryWorld {
  rw_disk : Disk;
  rw_keys : Keys;
  rw_key_fates : list Fate;
  rw_generations : GenerationRegistry;
  rw_flags : Flags;
}.

Definition set_disk (w : RegistryWorld) (d : Disk) : RegistryWorld :=
  mkRegistryWorld d (rw_keys w) (rw_key_fates w) (rw_generations w) (rw_flags w).
Definition set_keys (w : RegistryWorld) (k : Keys) : RegistryWorld :=
  mkRegistryWorld (rw_disk w) k (rw_key_fates w) (rw_generations w) (rw_flags w).
Definition set_key_fates (w : RegistryWorld) (f : list Fate) : RegistryWorld :=
  mkRegistryWorld (rw_disk w) (rw_keys w) f (rw_generations w) (rw_flags w).
Definition set_generations (g : GenerationRegistry) (w : RegistryWorld) : RegistryWorld :=
  mkRegistryWorld (rw_disk w) (rw_keys w) (rw_key_fates w) g (rw_flags w).
Definition set_flags (f : Flags) (w : RegistryWorld) : RegistryWorld :=
  mkRegistryWorld (rw_disk w) (rw_keys w) (rw_key_fates w) (rw_generations w) f.

(** An operation on the files. *)
Definition on_disk {A} (m : M Disk A) : M RegistryWorld A := fun w =>
  let '(o, d) := m (rw_disk w) in (o, set_disk w d).

Definition ERROR_SUCCESS : N := 0.
Definition ERROR_FILE_NOT_FOUND : N := 2.
Definition ERROR_ACCESS_DENIED : N := 5.
Definition ERROR_MORE_DATA : N := 234.
Definition ERROR_KEY_DELETED : N := 1018.

Definition REG_SZ : N := 1.
Definition REG_BINARY : N := 3.
Definition REG_DWORD : N := 4.
Definition REG_LINK : N := 6.

(** A call of the registry.  A failed call changes nothing and has a status that
    is neither success nor not-found. *)
Definition reg_call {A} (effect : Keys -> N * option A * Keys) : M RegistryWorld (N * option A) :=
  fun w =>
  let w1 := set_key_fates w (tail (rw_key_fates w)) in
  let '(status, a, keys) := effect (rw_keys w) in
  match default Works (head (rw_key_fates w)) with
  | Works => (Done (Ok (status, a)), set_keys w1 keys)
  | Fails k => (Done (Ok (ERROR_ACCESS_DENIED + N.of_nat k, None)%N), w1)
  | StopsBefore _ => (Crashed, w1)
  | StopsAfter => (Crashed, set_keys w1 keys)
  end.

Section calls.
Context `{RegistryNames}.

Definition with_values {A} (key : KeyPath) (f : Values -> N * option A * Values) (keys : Keys)
    : N * option A * Keys :=
  match keys !! key with
  | None => (ERROR_KEY_DELETED, None, keys)
  | Some values => let '(status, a, values') := f values in (status, a, <[key := values']> keys)
  end.

(** [RegOpenKeyExW] and [RegCreateKeyExW] of one component. *)
Definition RegOpenKey (key : KeyPath) : M RegistryWorld (N * option ()) :=
  reg_call (fun keys =>
    (if bool_decide (is_Some (keys !! key)) then ERROR_SUCCESS else ERROR_FILE_NOT_FOUND,
     None, keys)).

Definition RegCreateKey (key : KeyPath) : M RegistryWorld (N * option ()) :=
  reg_call (fun keys =>
    (ERROR_SUCCESS, None, match keys !! key with Some _ => keys | None => <[key := ∅]> keys end)).

(** [RegQueryValueExW]: the type, the size and the bytes of a value. *)
Definition RegQueryValue (key : KeyPath) (name : string)
    : M RegistryWorld (N * option StoredRegistryValue) :=
  reg_call (with_values key (fun values =>
    match values !! registry_name name with
    | None => (ERROR_FILE_NOT_FOUND, None, values)
    | Some v => (ERROR_SUCCESS, Some v, values)
    end)).

(** The same with a buffer of [size] bytes. *)
Definition RegQueryValueData (key : KeyPath) (name : string) (size : nat)
    : M RegistryWorld (N * option StoredRegistryValue) :=
  reg_call (with_values key (fun values =>
    match values !! registry_name name with
    | None => (ERROR_FILE_NOT_FOUND, None, values)
    | Some v => if (length (srv_data v) <=? size)%nat then (ERROR_SUCCESS, Some v, values)
                else (ERROR_MORE_DATA, None, values)
    end)).

Definition RegSetValue (key : KeyPath) (name : string) (v : StoredRegistryValue)
    : M RegistryWorld (N * option ()) :=
  reg_call (with_values key (fun values =>
    (ERROR_SUCCESS, None, <[registry_name name := v]> values))).

Definition RegDeleteValue (key : KeyPath) (name : string) : M RegistryWorld (N * option ()) :=
  reg_call (with_values key (fun values =>
    match values !! registry_name name with
    | None => (ERROR_FILE_NOT_FOUND, None, values)
    | Some _ => (ERROR_SUCCESS, None, delete (registry_name name) values)
    end)).

(** ** Opening the key of a scope *)

Definition registry_key_is_link (key : KeyPath) : M RegistryWorld bool :=
  '(status, v) ← RegQueryValue key "SymbolicLinkValue";
  if (status =? ERROR_FILE_NOT_FOUND)%N then pure false
  else if negb (status =? ERROR_SUCCESS)%N then
    fail (with_platform_status RegistryIo "registry key link state cannot be read" status)
  else pure (bool_decide (srv_value_type <$> v = Some REG_LINK)).

(** The loop of [open_registry_path] below the key [parent]; [on_status] is the
    error its caller makes of a Win32 status. *)
Fixpoint open_registry_components (on_status : N -> MaintenanceError) (create : bool)
    (parent : KeyPath) (components : list string) : M RegistryWorld KeyPath :=
  match components with
  | [] => pure parent
  | c :: components' =>
      let child := (parent.1, parent.2 ++ [registry_name c]) in
      '(status, _) ← (if create then RegCreateKey child else RegOpenKey child);
      _ ← (if negb (status =? ERROR_SUCCESS)%N then fail (on_status status) else pure tt);
      link ← registry_key_is_link child;
      _ ← (if (link : bool)
           then fail (new_error RegistryScopeUnauthorized
                        "registry scope path contains a symbolic link")
           else pure tt);
      open_registry_components on_status create child components'
  end.

Definition open_registry_path (on_status : N -> MaintenanceError) (subkey : string)
    (v : RegistryView) (create : bool) : M RegistryWorld KeyPath :=
  open_registry_components on_status create (v, []) (key_components subkey).

Definition create_registry_scope_key (scope : RegisteredRegistryScope) : M RegistryWorld KeyPath :=
  _ ← lift (ensure (bool_decide (head (key_components (subkey scope)) = Some "SOFTWARE")
                    && bool_decide (key_sep ∈ as_bytes (subkey scope)))
        RegistryScopeInvalid "registry scope is outside HKLM SOFTWARE");
  open_registry_path (with_platform_status RegistryScopeUnauthorized
    "LocalSystem cannot create or open a bounded HKLM registry-scope component")
    (subkey scope) (view scope) true.

Definition open_registry_scope_key (scope : RegisteredRegistryScope) : M RegistryWorld KeyPath :=
  open_registry_path (with_platform_status RegistryScopeInvalid
    "registered HKLM scope cannot be opened by the service") (subkey scope) (view scope) false.

(** ** Values *)

Definition MAX_REGISTRY_VALUE_BYTES : nat := 64 * 1024.

Definition registry_value_snapshot (key : KeyPath) (name : string)
    : M RegistryWorld (option StoredRegistryValue) :=
  '(status, found) ← RegQueryValue key name;
  if (status =? ERROR_FILE_NOT_FOUND)%N then pure None
  else
    _ ← lift (ensure (status =? ERROR_SUCCESS)%N RegistryIo
          "registry value metadata cannot be queried");
    let size := default 0%nat (length ∘ srv_data <$> found) in
    _ ← lift (ensure (size <=? MAX_REGISTRY_VALUE_BYTES)%nat RegistrySetLimit
          "existing registry value exceeds the rollback bound");
    '(status, v) ← RegQueryValueData key name size;
    _ ← lift (ensure (status =? ERROR_SUCCESS)%N RegistryIo
          "registry value changed while it was being snapshotted");
    pure v.

(** [str::encode_utf16] of UTF-8 text, as little-endian bytes. *)
Definition le16 (n : N) : list byte := [byte_of_N (n mod 256); byte_of_N (n / 256)].

Definition utf16_units (c : N) : list byte :=
  if (c <? 65536)%N then le16 c
  else le16 (55296 + (c - 65536) / 1024) ++ le16 (56320 + (c - 65536) mod 1024).

Fixpoint utf8_chars (l : list byte) : list N :=
  let bits n b := (N_of_ascii b mod n)%N in
  match l with
  | [] => []
  | a :: l1 =>
      if (N_of_ascii a <? 128)%N then N_of_ascii a :: utf8_chars l1
      else match l1 with
      | [] => []
      | b :: l2 =>
          if (N_of_ascii a <? 224)%N then (bits 32 a * 64 + bits 64 b)%N :: utf8_chars l2
          else match l2 with
          | [] => []
          | c :: l3 =>
              if (N_of_ascii a <? 240)%N
              then (bits 16 a * 4096 + bits 64 b * 64 + bits 64 c)%N :: utf8_chars l3
              else match l3 with
              | [] => []
              | d :: l4 => (bits 8 a * 262144 + bits 64 b * 4096 + bits 64 c * 64 + bits 64 d)%N
                             :: utf8_chars l4
              end
          end
      end
  end.

Definition encode_utf16 (s : string) : list byte := utf8_chars (as_bytes s) ≫= utf16_units.

(** [u32::to_le_bytes]. *)
Definition le32 (n : N) : list byte := le16 (n mod 65536) ++ le16 (n / 65536 mod 65536).

Context `{Base64}.

Definition encoded_registry_value (v : RegistryValue) : Result StoredRegistryValue :=
  match v with
  | RvString _ data =>
      Ok {| srv_data := encode_utf16 data ++ le16 0; srv_value_type := REG_SZ |}
  | RvDword _ data => Ok {| srv_data := le32 data; srv_value_type := REG_DWORD |}
  | RvBinary _ data =>
      bytes ← decode_registry_binary data;
      Ok {| srv_data := bytes; srv_value_type := REG_BINARY |}
  end.

Definition set_registry_value (key : KeyPath) (v : RegistryValue) : M RegistryWorld () :=
  encoded ← lift (encoded_registry_value v);
  '(status, _) ← RegSetValue key (value_name v) encoded;
  lift (ensure (status =? ERROR_SUCCESS)%N RegistryIo "registry value cannot be written").
End calls.
