(* ===== verification/RegistryTransaction.v ===== *)
(** * The registry transaction

    src/src/windows.rs: the protected journal of a registry mutation with the
    values it replaces, its validation and recovery, and
    [apply_registry_set_transaction], which writes the values of a verified
    registry set and accepts its generation, all or nothing. *)

From S2P Require Import Prelude Errors Effects Identifiers Json Storage RegistrySet RegistryScopes.
From S2P Require Import Journal Generations WindowsRegistry.

Definition REGISTRY_TRANSACTION_KIND : string := "7launcher-registry-transaction-v1".
Definition REGISTRY_TRANSACTION_SCHEMA : N := 1.
Definition MAX_REGISTRY_SNAPSHOT_BYTES : N := 1024 * 1024.
Definition MAX_REGISTRY_TRANSACTION_BYTES : N := 4 * 1024 * 1024.

(** Files of the data directory, named in [recover_service_state]. *)
Definition registry_transaction_path : string := "registry-transaction-v1.json".
Definition registry_generation_path : string := "registry-generations-v1.json".

Inductive RegistryTransactionPhase := PhasePrepared | PhaseCommitted.

#[export] Instance RegistryTransactionPhase_eq_dec : EqDecision RegistryTransactionPhase.
Proof. solve_decision. Defined.

Record RegistryTransactionValue := {
  rtv_name : string;
  rtv_previous : option StoredRegistryValue;
}.

Record RegistryTransactionJournal := {
  rt_kind : string;
  rt_phase : RegistryTransactionPhase;
  rt_schema : N;
  rt_scope_id : string;
  rt_subkey : string;
  rt_values : list RegistryTransactionValue;
  rt_view : RegistryView;
}.

Section encoding.
Context `{SerdeJson}.

Definition StoredRegistryValue_value (v : StoredRegistryValue) : Value :=
  Object [("data", Array ((fun b => VNumber (number_of_u64 (N_of_ascii b))) <$> srv_data v));
          ("valueType", VNumber (number_of_u64 (srv_value_type v)))].

Definition RegistryTransactionValue_value (v : RegistryTransactionValue) : Value :=
  Object [("name", VString (rtv_name v));
          ("previous", option_value StoredRegistryValue_value (rtv_previous v))].

Definition phase_name (p : RegistryTransactionPhase) : string :=
  match p with PhasePrepared => "prepared" | PhaseCommitted => "committed" end.

#[export] Instance RegistryTransactionJournal_encoder : Encoder RegistryTransactionJournal :=
  fun j => Some (Object [
    ("kind", VString (rt_kind j));
    ("phase", VString (phase_name (rt_phase j)));
    ("schema", VNumber (number_of_u64 (rt_schema j)));
    ("scopeId", VString (rt_scope_id j));
    ("subkey", VString (rt_subkey j));
    ("values", Array (RegistryTransactionValue_value <$> rt_values j));
    ("view", RegistryView_value (rt_view j))]).
End encoding.

(** ** Operations *)

Section operations.
Context `{RegistryNames, SerdeJson}.

(** Writes the previous values back, the last one first; a value that did not
    exist is deleted, and a value that is already gone is fine. *)
Definition restore_registry_value (key : KeyPath) (v : RegistryTransactionValue)
    : M RegistryWorld () :=
  '(status, _) ← match rtv_previous v with
                 | Some stored => RegSetValue key (rtv_name v) stored
                 | None => RegDeleteValue key (rtv_name v)
                 end;
  lift (ensure (bool_decide (rtv_previous v = None) && (status =? ERROR_FILE_NOT_FOUND)%N
                || (status =? ERROR_SUCCESS)%N)
    RecoveryIncomplete "registry transaction rollback did not complete").

Definition restore_registry_values (key : KeyPath) (values : list RegistryTransactionValue)
    : M RegistryWorld () :=
  for_each (restore_registry_value key) (rev values).

(** The size of the snapshots so far, with one more. *)
Definition add_snapshot (total : N) (previous : option StoredRegistryValue) : Result N :=
  match previous with
  | None => Ok total
  | Some v =>
      total ← ok_or (checked_add usize_max total (N.of_nat (length (srv_data v)))) RegistrySetLimit
                "registry rollback snapshot size overflowed";
      _ ← ensure (total <=? MAX_REGISTRY_SNAPSHOT_BYTES)%N RegistrySetLimit
            "registry rollback snapshots exceed the bound";
      Ok total
  end.

Fixpoint snapshot_values (key : KeyPath) (total : N) (values : list RegistryValue)
    : M RegistryWorld (list RegistryTransactionValue) :=
  match values with
  | [] => pure []
  | v :: values' =>
      previous ← registry_value_snapshot key (value_name v);
      total ← lift (add_snapshot total previous);
      rest ← snapshot_values key total values';
      pure ({| rtv_name := value_name v; rtv_previous := previous |} :: rest)
  end.

Definition create_registry_transaction (scope : RegisteredRegistryScope)
    (values : list RegistryValue) : M RegistryWorld (KeyPath * RegistryTransactionJournal) :=
  key ← open_registry_scope_key scope;
  snapshots ← snapshot_values key 0 values;
  pure (key, {| rt_kind := REGISTRY_TRANSACTION_KIND; rt_phase := PhasePrepared;
                rt_schema := REGISTRY_TRANSACTION_SCHEMA; rt_scope_id := scope_id scope;
                rt_subkey := subkey scope; rt_values := snapshots; rt_view := view scope |}).

(** One value of the loop of [validate_registry_transaction]. *)
Definition check_transaction_value (scope : RegisteredRegistryScope) (total : N)
    (v : RegistryTransactionValue) : Result N :=
  _ ← ensure (existsb (fun a => eq_ignore_ascii_case (av_name a) (rtv_name v))
                (allowed_values scope))
        RecoveryIncomplete "registry transaction contains an unregistered value";
  match rtv_previous v with
  | None => Ok total
  | Some p =>
      total ← ok_or (checked_add usize_max total (N.of_nat (length (srv_data p)))) RegistrySetLimit
                "registry rollback snapshot size overflowed";
      _ ← ensure ((length (srv_data p) <=? MAX_REGISTRY_VALUE_BYTES)%nat
                  && (total <=? MAX_REGISTRY_SNAPSHOT_BYTES)%N) RegistrySetLimit
            "registry rollback snapshots exceed the bound";
      Ok total
  end.

Definition validate_registry_transaction (journal : RegistryTransactionJournal)
    (scopes : RegistryScopeRegistry) : Result RegisteredRegistryScope :=
  _ ← ensure (bool_decide (rt_kind journal = REGISTRY_TRANSACTION_KIND)
              && (rt_schema journal =? REGISTRY_TRANSACTION_SCHEMA)%N
              && negb (length (rt_values journal) =? 0)%nat
              && (length (rt_values journal) <=? MAX_REGISTRY_ENTRIES)%nat)
        RecoveryIncomplete "registry transaction journal schema or count is invalid";
  _ ← validate_registry_subkey (rt_subkey journal);
  scope ← resolve_registered scopes (rt_scope_id journal);
  _ ← ensure (bool_decide (subkey scope = rt_subkey journal)
              && bool_decide (view scope = rt_view journal))
        RecoveryIncomplete "registry transaction no longer matches its registered scope";
  _ ← try_for (check_transaction_value scope) 0%N (rt_values journal);
  Ok scope.

(** ** The journal on the disk *)

Definition encode_registry_transaction (journal : RegistryTransactionJournal)
    : Result (list byte) :=
  value ← ok_or (to_value journal) RecoveryIncomplete
            "registry transaction journal cannot be encoded";
  bytes ← canonical_json value;
  _ ← ensure (N.of_nat (length bytes) <=? MAX_REGISTRY_TRANSACTION_BYTES)%N RegistrySetLimit
        "registry transaction journal exceeds the bound";
  Ok bytes.

Definition write_registry_transaction (path : string) (journal : RegistryTransactionJournal)
    : M Disk () :=
  bytes ← lift (encode_registry_transaction journal);
  replace_service_file path bytes.

Definition remove_registry_transaction (path : string) : M Disk () :=
  found ← path_exists path;
  if (found : bool)
  then remove_file path
         (new_error RecoveryIncomplete "registry transaction journal cannot be removed")
  else pure tt.

Context `{!Reader RegistryTransactionJournal}.

(** What [recover_registry_transaction] does with the journal it read. *)
Definition replay_registry_transaction (bytes : list byte) (scopes : RegistryScopeRegistry)
    : M RegistryWorld () :=
  journal ← lift (parse_canonical RegistryTransactionJournal bytes MAX_REGISTRY_TRANSACTION_BYTES);
  scope ← lift (validate_registry_transaction journal scopes);
  if bool_decide (rt_phase journal = PhasePrepared) then
    key ← open_registry_scope_key scope;
    restore_registry_values key (rt_values journal)
  else pure tt.

Definition recover_registry_transaction (path : string) (scopes : RegistryScopeRegistry)
    : M RegistryWorld () :=
  _ ← on_disk (recover_service_file_replacement path);
  found ← on_disk (path_exists path);
  if (found : bool) then
    bytes ← on_disk (read_bounded path MAX_REGISTRY_TRANSACTION_BYTES);
    bytes ← lift (ok_or bytes RecoveryIncomplete "registry transaction journal cannot be read");
    _ ← replay_registry_transaction bytes scopes;
    on_disk (remove_registry_transaction path)
  else pure tt.

(** ** Applying a registry set *)

(** The life of a [CommitActivity] around a computation: dropping it clears
    [COMMITTING] and forwards a stop that was requested meanwhile. *)
Definition begin_commit (f : Flags) : Flags :=
  {| committing := true; stop_requested := stop_requested f; stop_event := stop_event f |}.
Definition drop_commit_activity (f : Flags) : Flags :=
  {| committing := false; stop_requested := stop_requested f;
     stop_event := stop_event f || stop_requested f |}.

Definition during_commit {A} (m : M RegistryWorld A) : M RegistryWorld A :=
  _ ← modify (fun w => set_flags (begin_commit (rw_flags w)) w);
  result ← attempt m;
  _ ← modify (fun w => set_flags (drop_commit_activity (rw_flags w)) w);
  lift result.

Context `{!Reader GenerationRegistryDocument, Base64}.

(** The three steps back after the values were written: each one is tried. *)
Definition undo_registry_transaction (key : KeyPath) (journal : RegistryTransactionJournal)
    (generations : GenerationRegistry) : M RegistryWorld bool :=
  _ ← modify (set_generations generations);
  generation_restored ← attempt (on_disk (save_generations generations registry_generation_path));
  values_restored ← attempt (restore_registry_values key (rt_values journal));
  journal_removed ← attempt (on_disk (remove_registry_transaction registry_transaction_path));
  pure (is_ok generation_restored && is_ok values_restored && is_ok journal_removed).

(** The loop over the values of the set. *)
Fixpoint write_registry_values (key : KeyPath) (journal : RegistryTransactionJournal)
    (values : list RegistryValue) : M RegistryWorld () :=
  match values with
  | [] => pure tt
  | v :: values' =>
      result ← attempt (set_registry_value key v);
      match result with
      | Ok _ => write_registry_values key journal values'
      | Err error =>
          undone ← attempt (_ ← restore_registry_values key (rt_values journal);
                            on_disk (remove_registry_transaction registry_transaction_path));
          match undone with
          | Ok _ => fail error
          | Err _ => fail (new_error RecoveryIncomplete
                             "failed registry mutation could not be rolled back")
          end
      end
  end.

(** [journal.phase = Committed]. *)
Definition committed_journal (j : RegistryTransactionJournal) : RegistryTransactionJournal :=
  {| rt_kind := rt_kind j; rt_phase := PhaseCommitted; rt_schema := rt_schema j;
     rt_scope_id := rt_scope_id j; rt_subkey := rt_subkey j; rt_values := rt_values j;
     rt_view := rt_view j |}.

Definition accept_and_save (scope : RegisteredRegistryScope) (record : GenerationRecord)
    : M RegistryWorld () :=
  generations ← gets rw_generations;
  generations ← lift (accept generations (scope_id scope) record);
  _ ← modify (set_generations generations);
  on_disk (save_generations generations registry_generation_path).

Definition apply_registry_set_transaction (scope : RegisteredRegistryScope)
    (manifest : VerifiedRegistrySet) : M RegistryWorld (nat * N) :=
  let values := rs_values (registry_set manifest) in
  '(key, journal) ← create_registry_transaction scope values;
  _ ← on_disk (write_registry_transaction registry_transaction_path journal);
  during_commit (
    _ ← write_registry_values key journal values;
    previous_generations ← gets rw_generations;
    generation_result ← attempt (accept_and_save scope
      {| generation := rs_generation (registry_set manifest); digest := vrs_digest manifest |});
    match generation_result with
    | Err error =>
        undone ← undo_registry_transaction key journal previous_generations;
        if (undone : bool) then fail error
        else fail (new_error RecoveryIncomplete
                     "registry generation persistence could not be rolled back")
    | Ok _ =>
        marked ← attempt (on_disk (write_registry_transaction registry_transaction_path
                                     (committed_journal journal)));
        match marked with
        | Err _ =>
            undone ← undo_registry_transaction key journal previous_generations;
            if (undone : bool)
            then fail (new_error RegistryIo "registry commit marker cannot be persisted")
            else fail (new_error RecoveryIncomplete
                         "registry commit marker failure could not be rolled back")
        | Ok _ =>
            _ ← on_disk (remove_registry_transaction registry_transaction_path);
            pure (length values, rs_generation (registry_set manifest))
        end
    end).
End operations.
