(* ===== verification/Readers.v ===== *)
(** * Concrete readers of the program's documents

    One decoder per document type, following the serde attributes of the type;
    they meet [ReaderLaws].  They instantiate the
    readers the components are parameters of. *)

From stdpp Require Import sorting.
From S2P Require Import Prelude Errors Identifiers Json JsonReader Trust FileSet.
From S2P Require Import RegistrySet Roots RegistryScopes Generations Journal WindowsRegistry.
From S2P Require Import RegistryTransaction.

Definition decode_byte (v : Value) : option byte := byte_of_N <$> as_number v.

Definition decode_root_kind (v : Value) : option RootKind :=
  s ← as_string v;
  if decide (s = "launcher") then Some Launcher
  else if decide (s = "game") then Some Game
  else if decide (s = "library") then Some Library else None.

Definition decode_identity (v : Value) : option DirectoryIdentity :=
  serial ← field as_number "volumeSerial" v;
  id ← field (fun a => items ← as_array a; mapM decode_byte items) "fileId" v;
  Some {| volume_serial := serial; file_id := id |}.

Definition decode_root (v : Value) : option RegisteredRoot :=
  id ← field as_string "rootId" v;
  product ← field as_string "productId" v;
  kind ← field decode_root_kind "rootKind" v;
  path ← field as_string "canonicalPath" v;
  ident ← field decode_identity "identity" v;
  owner ← field as_string "ownerSid" v;
  Some {| root_id := id; root_product_id := product; root_kind := kind;
          canonical_path := path; identity := ident; root_owner_sid := owner |}.

Definition decode_roots_document (v : Value) : option RootRegistryDocument :=
  kind ← field as_string "kind" v;
  roots ← field (fun a => items ← as_array a; mapM decode_root items) "roots" v;
  schema ← field as_number "schema" v;
  Some {| rd_kind := kind; rd_roots := roots; rd_schema := schema |}.

#[export] Instance roots_reader : Reader RootRegistryDocument := reader_of decode_roots_document.

Definition decode_kind (v : Value) : option RegistryValueKind :=
  s ← as_string v;
  if decide (s = "string") then Some KString
  else if decide (s = "dword") then Some KDword
  else if decide (s = "binary") then Some KBinary else None.

Definition decode_allowed (v : Value) : option AllowedRegistryValue :=
  name ← field as_string "name" v;
  kind ← field decode_kind "type" v;
  Some {| av_name := name; av_value_type := kind |}.

Definition decode_view (v : Value) : option RegistryView :=
  s ← as_string v;
  if decide (s = "registry32") then Some Registry32
  else if decide (s = "registry64") then Some Registry64 else None.

Definition decode_scope (v : Value) : option RegisteredRegistryScope :=
  allowed ← field (fun a => items ← as_array a; mapM decode_allowed items) "allowedValues" v;
  owner ← field as_string "ownerSid" v;
  product ← field as_string "productId" v;
  id ← field as_string "scopeId" v;
  key ← field as_string "subkey" v;
  vw ← field decode_view "view" v;
  Some {| allowed_values := allowed; scope_owner_sid := owner; scope_product_id := product;
          scope_id := id; subkey := key; view := vw |}.

Definition decode_scopes_document (v : Value) : option RegistryScopeRegistryDocument :=
  kind ← field as_string "kind" v;
  schema ← field as_number "schema" v;
  scopes ← field (fun a => items ← as_array a; mapM decode_scope items) "scopes" v;
  Some {| sd_kind := kind; sd_schema := schema; sd_scopes := scopes |}.

#[export] Instance scopes_reader : Reader RegistryScopeRegistryDocument :=
  reader_of decode_scopes_document.

(** ** The laws *)

Lemma normalize_string s : normalize (VString s) = VString s.
Proof. done. Qed.

Lemma normalize_number (n : N) : normalize (VNumber (number_of_u64 n)) = VNumber n.
Proof. done. Qed.

Lemma normalize_array l : normalize (Array l) = Array (List.map normalize l).
Proof. done. Qed.

(** Reads every field of a normalized literal object. *)
Ltac read_fields :=
  repeat (erewrite field_normalize; [|reflexivity];
          rewrite ?normalize_string, ?normalize_number, ?normalize_array);
  cbn [as_string as_number as_array mbind option_bind].

Lemma decode_bytes_normalize l :
  mapM decode_byte (List.map normalize
    ((fun b => VNumber (number_of_u64 (N_of_ascii b))) <$> l)) = Some l.
Proof.
  apply mapM_normalize, Forall_forall. intros b _. unfold decode_byte. cbn.
  unfold byte_of_N. by rewrite ascii_N_embedding.
Qed.

Lemma decode_identity_normalize d :
  decode_identity (normalize (DirectoryIdentity_value d)) = Some d.
Proof.
  unfold decode_identity, DirectoryIdentity_value. read_fields.
  rewrite decode_bytes_normalize. by destruct d.
Qed.

Lemma decode_root_normalize r : decode_root (normalize (RegisteredRoot_value r)) = Some r.
Proof.
  unfold decode_root, RegisteredRoot_value. read_fields.
  assert (decode_root_kind (normalize (RootKind_value (root_kind r))) = Some (root_kind r)) as ->
    by (by destruct (root_kind r)).
  cbn [mbind option_bind]. read_fields.
  rewrite decode_identity_normalize. cbn [mbind option_bind]. read_fields. by destruct r.
Qed.

#[export] Instance roots_reader_laws : ReaderLaws RootRegistryDocument.
Proof.
  apply reader_of_laws. intros d v bytes [= <-] _. unfold decode_roots_document. read_fields.
  rewrite mapM_normalize by (apply Forall_forall; intros; apply decode_root_normalize).
  cbn [mbind option_bind]. read_fields. by destruct d.
Qed.

Lemma decode_allowed_normalize a :
  decode_allowed (normalize (AllowedRegistryValue_value a)) = Some a.
Proof.
  unfold decode_allowed, AllowedRegistryValue_value. read_fields. by destruct a as [? []].
Qed.

Lemma decode_scope_normalize s :
  decode_scope (normalize (RegisteredRegistryScope_value s)) = Some s.
Proof.
  unfold decode_scope, RegisteredRegistryScope_value. read_fields.
  rewrite mapM_normalize by (apply Forall_forall; intros; apply decode_allowed_normalize).
  cbn [mbind option_bind]. read_fields. by destruct s as [?????[]].
Qed.

#[export] Instance scopes_reader_laws : ReaderLaws RegistryScopeRegistryDocument.
Proof.
  apply reader_of_laws. intros d v bytes [= <-] _. unfold decode_scopes_document. read_fields.
  rewrite mapM_normalize by (apply Forall_forall; intros; apply decode_scope_normalize).
  by destruct d.
Qed.

(** ** Signed documents *)

Definition decode_strings (v : Value) : option (list string) :=
  items ← as_array v; mapM as_string items.

Lemma decode_strings_normalize l : decode_strings (normalize (strings_value l)) = Some l.
Proof.
  unfold decode_strings, strings_value. rewrite normalize_array. cbn [as_array mbind option_bind].
  by apply mapM_normalize, Forall_forall.
Qed.

Definition decode_key (v : Value) : option ReleaseKey :=
  id ← field as_string "keyId" v;
  key ← field as_string "publicKey" v;
  Some {| rk_key_id := id; rk_public_key := key |}.

Lemma decode_key_normalize k : decode_key (normalize (ReleaseKey_value k)) = Some k.
Proof. unfold decode_key, ReleaseKey_value. read_fields. by destruct k. Qed.

Definition decode_keyring (v : Value) : option Keyring :=
  thumbprints ← field decode_strings "authenticodeSignerThumbprints" v;
  kind ← field as_string "kind" v;
  keys ← field (fun a => items ← as_array a; mapM decode_key items) "releaseKeys" v;
  schema ← field as_number "schema" v;
  signature ← field as_string "signature" v;
  version ← field as_number "version" v;
  Some {| authenticode_signer_thumbprints := thumbprints; kr_kind := kind; release_keys := keys;
          kr_schema := schema; kr_signature := signature; kr_version := version |}.

#[export] Instance keyring_reader : Reader Keyring := reader_of decode_keyring.

Lemma decode_keyring_normalize d v : to_value d = Some v -> decode_keyring (normalize v) = Some d.
Proof.
  intros [= <-]. unfold decode_keyring. read_fields.
  rewrite decode_strings_normalize. cbn [mbind option_bind]. read_fields.
  rewrite mapM_normalize by (apply Forall_forall; intros; apply decode_key_normalize).
  cbn [mbind option_bind]. read_fields. by destruct d.
Qed.

#[export] Instance keyring_reader_laws : ReaderLaws Keyring.
Proof. apply reader_of_laws. intros d v bytes Hv _. by apply decode_keyring_normalize. Qed.

Definition decode_entry (v : Value) : option FileEntry :=
  path ← field as_string "path" v;
  hash ← field as_string "sha256" v;
  size ← field as_number "size" v;
  Some {| fe_path := path; fe_sha256 := hash; fe_size := size |}.

Lemma decode_entry_normalize e : decode_entry (normalize (FileEntry_value e)) = Some e.
Proof. unfold decode_entry, FileEntry_value. read_fields. by destruct e. Qed.

Definition decode_file_set (v : Value) : option FileSet :=
  files ← field (fun a => items ← as_array a; mapM decode_entry items) "files" v;
  gen ← field as_number "generation" v;
  key ← field as_string "keyId" v;
  kind ← field as_string "kind" v;
  product ← field as_string "productId" v;
  removals ← field decode_strings "removeFiles" v;
  schema ← field as_number "schema" v;
  signature ← field as_string "signature" v;
  Some {| fs_files := files; fs_generation := gen; fs_key_id := key; fs_kind := kind;
          fs_product_id := product; fs_remove_files := removals; fs_schema := schema;
          fs_signature := signature |}.

#[export] Instance file_set_reader : Reader FileSet := reader_of decode_file_set.

Lemma decode_file_set_normalize d v : to_value d = Some v -> decode_file_set (normalize v) = Some d.
Proof.
  intros [= <-]. unfold decode_file_set. read_fields.
  rewrite mapM_normalize by (apply Forall_forall; intros; apply decode_entry_normalize).
  cbn [mbind option_bind]. read_fields.
  rewrite decode_strings_normalize. cbn [mbind option_bind]. read_fields. by destruct d.
Qed.

#[export] Instance file_set_reader_laws : ReaderLaws FileSet.
Proof. apply reader_of_laws. intros d v bytes Hv _. by apply decode_file_set_normalize. Qed.

Definition decode_value (v : Value) : option RegistryValue :=
  kind ← field as_string "type" v;
  name ← field as_string "name" v;
  if decide (kind = "string") then RvString name <$> field as_string "data" v
  else if decide (kind = "dword") then RvDword name <$> field as_number "data" v
  else if decide (kind = "binary") then RvBinary name <$> field as_string "data" v else None.

Lemma decode_value_normalize w : decode_value (normalize (RegistryValue_value w)) = Some w.
Proof. destruct w; unfold decode_value, RegistryValue_value; read_fields; cbn; by read_fields. Qed.

Definition decode_registry_set (v : Value) : option RegistrySet :=
  gen ← field as_number "generation" v;
  key ← field as_string "keyId" v;
  kind ← field as_string "kind" v;
  product ← field as_string "productId" v;
  schema ← field as_number "schema" v;
  scope ← field as_string "scopeId" v;
  signature ← field as_string "signature" v;
  values ← field (fun a => items ← as_array a; mapM decode_value items) "values" v;
  Some {| rs_generation := gen; rs_key_id := key; rs_kind := kind; rs_product_id := product;
          rs_schema := schema; rs_scope_id := scope; rs_signature := signature;
          rs_values := values |}.

#[export] Instance registry_set_reader : Reader RegistrySet := reader_of decode_registry_set.

#[export] Instance registry_set_reader_laws : ReaderLaws RegistrySet.
Proof.
  apply reader_of_laws. intros d v bytes [= <-] _. unfold decode_registry_set. read_fields.
  rewrite mapM_normalize by (apply Forall_forall; intros; apply decode_value_normalize).
  cbn [mbind option_bind]. by destruct d.
Qed.

(** ** The transaction journal *)

Definition decode_option {A} (decode : Value -> option A) (v : Value) : option (option A) :=
  match v with Null => Some None | _ => Some <$> decode v end.

Definition decode_snapshot (v : Value) : option TargetSnapshot :=
  ident ← field decode_identity "identity" v;
  time ← field as_number "lastWriteTime" v;
  size ← field as_number "size" v;
  Some {| ts_identity := ident; last_write_time := time; ts_size := size |}.

Lemma decode_snapshot_normalize t :
  decode_snapshot (normalize (TargetSnapshot_value t)) = Some t.
Proof.
  unfold decode_snapshot, TargetSnapshot_value. read_fields.
  rewrite decode_identity_normalize. cbn [mbind option_bind]. read_fields. by destruct t.
Qed.

Lemma decode_option_normalize {A} (encode : A -> Value) decode o :
  (forall a, decode (normalize (encode a)) = Some a /\ normalize (encode a) <> Null) ->
  decode_option decode (normalize (option_value encode o)) = Some o.
Proof.
  intros He. destruct o as [a|]; [|done]. destruct (He a) as [Hd Hn]. cbn. unfold decode_option.
  rewrite Hd. by destruct (normalize (encode a)).
Qed.

Definition decode_action (v : Value) : option JournalAction :=
  s ← as_string v;
  if decide (s = "replace") then Some Replace
  else if decide (s = "remove") then Some Remove else None.

Definition decode_journal_entry (v : Value) : option JournalEntry :=
  act ← field decode_action "action" v;
  orig ← field (decode_option decode_snapshot) "original" v;
  path ← field as_string "path" v;
  pidx ← field (decode_option as_number) "preparedIndex" v;
  tidx ← field as_number "transactionIndex" v;
  Some {| action := act; original := orig; je_path := path; prepared_index := pidx;
          transaction_index := tidx |}.

Lemma decode_journal_entry_normalize e :
  decode_journal_entry (normalize (JournalEntry_value e)) = Some e.
Proof.
  unfold decode_journal_entry, JournalEntry_value. read_fields.
  assert (forall s : string, decode_action (VString s) =
    if decide (s = "replace") then Some Replace
    else if decide (s = "remove") then Some Remove else None) as -> by done.
  assert ((if decide (match action e with Replace => "replace" | Remove => "remove" end = "replace")
           then Some Replace
           else if decide (match action e with Replace => "replace" | Remove => "remove" end = "remove")
           then Some Remove else None) = Some (action e)) as -> by (by destruct (action e)).
  cbn [mbind option_bind]. read_fields.
  rewrite (decode_option_normalize TargetSnapshot_value)
    by (intros; split; [apply decode_snapshot_normalize|done]).
  cbn [mbind option_bind]. read_fields.
  rewrite (decode_option_normalize (fun n => VNumber (number_of_u64 n))) by done.
  cbn [mbind option_bind]. read_fields. by destruct e.
Qed.

Definition decode_header (v : Value) : option JournalHeader :=
  es ← field (fun a => items ← as_array a; mapM decode_journal_entry items) "entries" v;
  gen ← field as_number "generation" v;
  job ← field as_string "jobId" v;
  dig ← field as_string "manifestDigest" v;
  root ← field decode_root "root" v;
  schema ← field as_number "schema" v;
  Some {| entries := es; jh_generation := gen; jh_job_id := job; manifest_digest := dig;
          jh_root := root; jh_schema := schema |}.

#[export] Instance header_reader : Reader JournalHeader := reader_of decode_header.

#[export] Instance header_reader_laws : ReaderLaws JournalHeader.
Proof.
  apply reader_of_laws. intros d v bytes [= <-] _. unfold decode_header. read_fields.
  rewrite mapM_normalize by (apply Forall_forall; intros; apply decode_journal_entry_normalize).
  cbn [mbind option_bind]. read_fields.
  rewrite decode_root_normalize. cbn [mbind option_bind]. read_fields. by destruct d.
Qed.

Definition decode_state_record (v : Value) : option JournalStateRecord :=
  s ← field as_string "state" v;
  if decide (s = "prepared") then Some {| jr_state := Prepared |}
  else if decide (s = "committing") then Some {| jr_state := Committing |}
  else if decide (s = "committed") then Some {| jr_state := Committed |}
  else if decide (s = "rolling_back") then Some {| jr_state := RollingBack |} else None.

#[export] Instance state_reader : Reader JournalStateRecord := reader_of decode_state_record.

#[export] Instance state_reader_laws : ReaderLaws JournalStateRecord.
Proof. apply reader_of_laws. by intros [[]] v bytes [= <-] _. Qed.

(** ** The documents of the registry transaction and the generations *)

Definition decode_stored_value (v : Value) : option StoredRegistryValue :=
  data ← field (fun a => items ← as_array a; mapM decode_byte items) "data" v;
  kind ← field as_number "valueType" v;
  Some {| srv_data := data; srv_value_type := kind |}.

Lemma decode_stored_value_normalize v :
  decode_stored_value (normalize (StoredRegistryValue_value v)) = Some v.
Proof.
  unfold decode_stored_value, StoredRegistryValue_value. read_fields.
  rewrite decode_bytes_normalize. cbn [mbind option_bind]. read_fields. by destruct v.
Qed.

Definition decode_transaction_value (v : Value) : option RegistryTransactionValue :=
  name ← field as_string "name" v;
  prev ← field (decode_option decode_stored_value) "previous" v;
  Some {| rtv_name := name; rtv_previous := prev |}.

Lemma decode_transaction_value_normalize v :
  decode_transaction_value (normalize (RegistryTransactionValue_value v)) = Some v.
Proof.
  unfold decode_transaction_value, RegistryTransactionValue_value. read_fields.
  rewrite (decode_option_normalize StoredRegistryValue_value)
    by (intros; split; [apply decode_stored_value_normalize|done]).
  by destruct v.
Qed.

Definition decode_phase (v : Value) : option RegistryTransactionPhase :=
  s ← as_string v;
  if decide (s = "prepared") then Some PhasePrepared
  else if decide (s = "committed") then Some PhaseCommitted else None.

Definition decode_transaction (v : Value) : option RegistryTransactionJournal :=
  kind ← field as_string "kind" v;
  phase ← field decode_phase "phase" v;
  schema ← field as_number "schema" v;
  id ← field as_string "scopeId" v;
  key ← field as_string "subkey" v;
  values ← field (fun a => items ← as_array a; mapM decode_transaction_value items) "values" v;
  vw ← field decode_view "view" v;
  Some {| rt_kind := kind; rt_phase := phase; rt_schema := schema; rt_scope_id := id;
          rt_subkey := key; rt_values := values; rt_view := vw |}.

#[export] Instance transaction_reader : Reader RegistryTransactionJournal :=
  reader_of decode_transaction.

#[export] Instance transaction_reader_laws : ReaderLaws RegistryTransactionJournal.
Proof.
  apply reader_of_laws. intros d v bytes [= <-] _. unfold decode_transaction. read_fields.
  assert (decode_phase (VString (phase_name (rt_phase d))) = Some (rt_phase d)) as ->
    by (by destruct (rt_phase d)).
  cbn [mbind option_bind]. read_fields.
  rewrite mapM_normalize by (apply Forall_forall; intros; apply decode_transaction_value_normalize).
  cbn [mbind option_bind]. read_fields. by destruct d as [??????[]].
Qed.

(** ** A map in an object *)

Definition decode_entries {A} (decode : Value -> option A) (v : Value) : option (gmap string A) :=
  es ← as_object v;
  list_to_map <$> mapM (fun kv => (kv.1,.) <$> decode kv.2) es.

Lemma get_map_to_list {A} (m : gmap string A) k :
  get k (map_to_list m) = m !! k.
Proof.
  assert (forall l : list (string * A), get k l = list_to_map (M := gmap string A) l !! k) as Hl.
  { induction l as [|[q a] l IH]; cbn; [done|].
    case_decide as Hq; [by subst; rewrite lookup_insert_eq|]. by rewrite lookup_insert_ne. }
  by rewrite Hl, list_to_map_to_list.
Qed.

Lemma decode_entries_normalize {A} (encode : A -> Value) decode (m : gmap string A) :
  (forall a, decode (normalize (encode a)) = Some a) ->
  decode_entries decode (normalize (Object (prod_map id encode <$> map_to_list m))) = Some m.
Proof.
  intros Hd. unfold decode_entries. cbn [normalize as_object mbind option_bind].
  change (prod_map id encode <$> map_to_list m) with
    (List.map (fun kv => (fst kv, encode (snd kv))) (map_to_list m)).
  rewrite object_keys_map.
  assert (forall k, get k (List.map (fun kv => (fst kv, normalize (snd kv)))
      (List.map (fun kv => (fst kv, encode (snd kv))) (map_to_list m)))
      = normalize ∘ encode <$> m !! k) as Hget.
  { intros k. rewrite !get_map, get_map_to_list. by destruct (m !! k). }
  set (keys := sort_keys (object_keys (map_to_list m))).
  assert (forall ks, mapM (fun kv => (kv.1,.) <$> decode kv.2)
      (omap (fun k => (k,.) <$> get k (List.map (fun kv => (fst kv, normalize (snd kv)))
        (List.map (fun kv => (fst kv, encode (snd kv))) (map_to_list m)))) ks)
      = Some (omap (fun k => (k,.) <$> m !! k) ks)) as Hks.
  { induction ks as [|k ks IH]; cbn; [done|]. rewrite Hget.
    destruct (m !! k) as [a|]; cbn; [|exact IH]. rewrite Hd. cbn. by rewrite IH. }
  rewrite Hks. cbn. f_equal. apply map_eq. intros k.
  assert (forall ks, list_to_map (M := gmap string A) (omap (fun k => (k,.) <$> m !! k) ks) !! k
            = if decide (k ∈ ks) then m !! k else None) as Hl.
  { induction ks as [|q ks IH]; cbn; [by rewrite lookup_empty|].
    destruct (m !! q) as [a|] eqn:Eq; cbn.
    - destruct (decide (k = q)) as [->|Hne].
      + rewrite lookup_insert_eq, decide_True by (by left). done.
      + rewrite lookup_insert_ne, IH by done.
        by repeat case_decide; set_solver.
    - rewrite IH. destruct (decide (k = q)) as [->|Hne]; repeat case_decide; set_solver. }
  rewrite Hl. case_decide as Hk; [done|]. symmetry. apply eq_None_not_Some. intros [a Ha].
  apply Hk. unfold keys, sort_keys. rewrite merge_sort_Permutation. unfold object_keys.
  apply list_elem_of_fmap_2' with (x := (k, a)); [by apply elem_of_map_to_list|done].
Qed.

Definition decode_generation_record (v : Value) : option StoredGeneration :=
  d ← field as_string "digest" v;
  n ← field as_number "generation" v;
  Some {| sg_digest := d; sg_generation := n |}.

Definition decode_generation_document (v : Value) : option GenerationRegistryDocument :=
  kind ← field as_string "kind" v;
  roots ← field (decode_entries decode_generation_record) "roots" v;
  schema ← field as_number "schema" v;
  Some {| gd_kind := kind; gd_roots := roots; gd_schema := schema |}.

#[export] Instance generation_reader : Reader GenerationRegistryDocument :=
  reader_of decode_generation_document.

#[export] Instance generation_reader_laws : ReaderLaws GenerationRegistryDocument.
Proof.
  apply reader_of_laws. intros d v bytes [= <-] _. unfold decode_generation_document. read_fields.
  rewrite (decode_entries_normalize StoredGeneration_value).
  - cbn [mbind option_bind]. read_fields. by destruct d.
  - intros [dg n]. unfold decode_generation_record, StoredGeneration_value. by read_fields.
Qed.
