(* ===== verification/RegistryAtomicity.v ===== *)
(** * Atomicity of the registry transaction

    Proof rules for computations over the registry and the files, what opening,
    restoring and replaying do under any faults, and the recovery of an
    interrupted [apply_registry_set_transaction]. *)

From S2P Require Import Prelude Errors Effects Identifiers Json Storage RegistrySet RegistryScopes.
From S2P Require Import Journal Generations WindowsRegistry RegistryTransaction.

(** ** Proof rules *)

(** From the files [fs] and the keys [ks], under any fates. *)
Definition rruns {A} (m : M RegistryWorld A) (Q : A -> Files -> Keys -> Prop)
    (E C : Files -> Keys -> Prop) (fs : Files) (ks : Keys) : Prop :=
  forall w, files (rw_disk w) = fs -> rw_keys w = ks ->
    wp m (fun a w' => Q a (files (rw_disk w')) (rw_keys w'))
      (fun _ w' => E (files (rw_disk w')) (rw_keys w'))
      (fun w' => C (files (rw_disk w')) (rw_keys w')) w.

Section rules.
Context {A B : Type}.
Implicit Types (E C : Files -> Keys -> Prop).

Lemma rruns_pure (a : A) (Q : A -> Files -> Keys -> Prop) E C fs ks :
  Q a fs ks -> rruns (pure a) Q E C fs ks.
Proof. intros HQ w <- <-. done. Qed.

Lemma rruns_fail (e : MaintenanceError) (Q : A -> Files -> Keys -> Prop) E C fs ks :
  E fs ks -> rruns (fail e) Q E C fs ks.
Proof. intros HQ w <- <-. done. Qed.

Lemma rruns_bind (m : M RegistryWorld A) (k : A -> M RegistryWorld B) Q E C fs ks :
  rruns m (fun a fs' ks' => rruns (k a) Q E C fs' ks') E C fs ks -> rruns (m ≫= k) Q E C fs ks.
Proof.
  intros Hm w Hf Hk. apply wp_bind. eapply wp_mono; [exact (Hm w Hf Hk)| |done|done].
  cbv beta. intros a w' Hr. by apply Hr.
Qed.

Lemma rruns_mono (m : M RegistryWorld A) Q Q' E E' C C' fs ks :
  rruns m Q E C fs ks -> (forall a fs' ks', Q a fs' ks' -> Q' a fs' ks') ->
  (forall fs' ks', E fs' ks' -> E' fs' ks') -> (forall fs' ks', C fs' ks' -> C' fs' ks') ->
  rruns m Q' E' C' fs ks.
Proof. intros Hm HQ HE HC w Hf Hk. eapply wp_mono; [exact (Hm w Hf Hk)|..]; cbv beta; auto. Qed.

Lemma rruns_lift (r : Result A) (Q : A -> Files -> Keys -> Prop) E C fs ks :
  (forall a, r = Ok a -> Q a fs ks) -> (forall e, r = Err e -> E fs ks) ->
  rruns (lift r) Q E C fs ks.
Proof. intros HQ HE w <- <-. apply wp_lift; eauto. Qed.

Lemma wp_on_disk (m : M Disk A) (Q : A -> RegistryWorld -> Prop)
    (E : MaintenanceError -> RegistryWorld -> Prop) (C : RegistryWorld -> Prop) w :
  wp m (fun a d => Q a (set_disk w d)) (fun e d => E e (set_disk w d))
    (fun d => C (set_disk w d)) (rw_disk w) ->
  wp (on_disk m) Q E C w.
Proof. unfold wp, on_disk. by destruct (m (rw_disk w)) as [[[|]| |] d]. Qed.

Lemma rruns_disk (m : M Disk A) (Q : A -> Files -> Keys -> Prop) E C fs ks :
  runs m (fun a fs' => Q a fs' ks) (fun fs' => E fs' ks) (fun fs' => C fs' ks) fs ->
  rruns (on_disk m) Q E C fs ks.
Proof.
  intros Hm w <- <-. apply wp_on_disk. specialize (Hm (fates (rw_disk w))).
  by rewrite disk_eta in Hm.
Qed.

Lemma rruns_call (effect : Keys -> N * option A * Keys) (Q : N * option A -> Files -> Keys -> Prop)
    E C fs ks s a ks' :
  effect ks = (s, a, ks') -> Q (s, a) fs ks' -> C fs ks' -> C fs ks ->
  (forall k, Q (ERROR_ACCESS_DENIED + N.of_nat k, None)%N fs ks) ->
  rruns (reg_call effect) Q E C fs ks.
Proof.
  intros He HQ HC HC' Hk w <- <-. unfold wp, reg_call. rewrite He.
  destruct (default Works (head (rw_key_fates w))); cbn; auto.
Qed.
End rules.

Lemma access_denied_status k :
  (ERROR_ACCESS_DENIED + N.of_nat k =? ERROR_SUCCESS)%N = false
  /\ (ERROR_ACCESS_DENIED + N.of_nat k =? ERROR_FILE_NOT_FOUND)%N = false.
Proof. rewrite !N.eqb_neq. unfold ERROR_ACCESS_DENIED, ERROR_SUCCESS, ERROR_FILE_NOT_FOUND. lia. Qed.

(** ** Opening a key *)

Section keys.
Context `{RegistryNames}.

Definition scope_key (sub : string) (v : RegistryView) : KeyPath :=
  (v, registry_name <$> key_components sub).

Lemma query_effect key name ks :
  exists s a, with_values key (fun values => match values !! registry_name name with
      | None => (ERROR_FILE_NOT_FOUND, None, values)
      | Some v => (ERROR_SUCCESS, Some v, values)
      end) ks = (s, a, ks).
Proof.
  unfold with_values. destruct (ks !! key) as [vs|] eqn:Ek; [|by do 2 eexists].
  destruct (vs !! registry_name name); do 2 eexists; by rewrite insert_id.
Qed.

Lemma rruns_is_link key (Q : bool -> Files -> Keys -> Prop) (E C : Files -> Keys -> Prop) fs ks :
  (forall link, Q link fs ks) -> E fs ks -> C fs ks ->
  rruns (registry_key_is_link key) Q E C fs ks.
Proof.
  intros HQ HE HC. unfold registry_key_is_link. apply rruns_bind.
  destruct (query_effect key "SymbolicLinkValue" ks) as (s & a & Heff).
  eapply rruns_call; [exact Heff| |exact HC|exact HC|].
  - cbv beta iota. destruct (s =? ERROR_FILE_NOT_FOUND)%N; [by apply rruns_pure|].
    destruct (negb _); [by apply rruns_fail|by apply rruns_pure].
  - intros k. cbv beta iota. destruct (access_denied_status k) as [-> ->]. by apply rruns_fail.
Qed.

(** Opening changes nothing; the key it returns is the one that was named. *)
Lemma rruns_open_components on_status parent components (Q : KeyPath -> Files -> Keys -> Prop)
    (E C : Files -> Keys -> Prop) fs ks :
  Q (parent.1, parent.2 ++ (registry_name <$> components)) fs ks -> E fs ks -> C fs ks ->
  rruns (open_registry_components on_status false parent components) Q E C fs ks.
Proof.
  intros HQ HE HC. revert parent HQ.
  induction components as [|c cs IH]; intros [v p] HQ; cbn [open_registry_components].
  { apply rruns_pure. cbn in HQ. by rewrite app_nil_r in HQ. }
  cbn [fst snd] in *. apply rruns_bind.
  eapply (rruns_mono _ (fun _ fs' ks' => fs' = fs /\ ks' = ks) _ E E C C);
    [by eapply rruns_call|intros [s u] ? ? [-> ->]|done..].
  apply rruns_bind. destruct (negb _); [by apply rruns_fail|].
  apply rruns_pure, rruns_bind, rruns_is_link; [intros link|done..].
  apply rruns_bind. destruct link; [by apply rruns_fail|]. apply rruns_pure, IH.
  cbn [fst snd]. by rewrite <- app_assoc.
Qed.

Lemma rruns_open scope (Q : KeyPath -> Files -> Keys -> Prop) (E C : Files -> Keys -> Prop) fs ks :
  Q (scope_key (subkey scope) (view scope)) fs ks -> E fs ks -> C fs ks ->
  rruns (open_registry_scope_key scope) Q E C fs ks.
Proof. intros. by apply rruns_open_components. Qed.
End keys.

(** ** Restoring the previous values *)

Section restoring.
Context `{RegistryNames}.
Context (key : KeyPath) (ks0 : Keys) (vs0 : Values) (vals : list RegistryTransactionValue).
Context (Hkey : ks0 !! key = Some vs0).
Context (Hprev : forall v, v ∈ vals -> rtv_previous v = vs0 !! registry_name (rtv_name v)).

Definition value_names : list string := (fun v => registry_name (rtv_name v)) <$> vals.

(** The key differs from the original in journaled values only, and not in
    those of [ns]. *)
Definition mix (ns : list string) (ks : Keys) : Prop :=
  exists vs, ks = <[key := vs]> ks0 /\
    forall n, n ∉ value_names \/ n ∈ ns -> vs !! n = vs0 !! n.

Lemma mix_subset ns ns' ks : ns ⊆ ns' -> mix ns' ks -> mix ns ks.
Proof. intros Hs (vs & -> & Hn). exists vs. split; [done|]. intros n [?|?]; auto. Qed.

Lemma mix_original ns : mix ns ks0.
Proof. exists vs0. by rewrite insert_id. Qed.

Lemma mix_all ns ks : value_names ⊆ ns -> mix ns ks -> ks = ks0.
Proof.
  intros Hs (vs & -> & Hn). replace vs with vs0; [by rewrite insert_id|].
  apply map_eq. intros n. symmetry. apply Hn.
  destruct (decide (n ∈ value_names)); [right; by apply Hs|by left].
Qed.

Lemma mix_write ns ks v w :
  v ∈ vals -> mix ns ks ->
  exists vs, ks !! key = Some vs /\ mix [] (<[key := <[registry_name (rtv_name v) := w]> vs]> ks).
Proof.
  intros Hv (vs & -> & Hn). exists vs. rewrite lookup_insert_eq. split; [done|].
  eexists. rewrite insert_insert_eq. split; [done|]. intros n [Hnn|Hin]; [|by apply not_elem_of_nil in Hin].
  rewrite lookup_insert_ne; [by apply Hn; left|].
  intros <-. apply Hnn. unfold value_names. by apply list_elem_of_fmap_2 with (f := fun v => registry_name (rtv_name v)).
Qed.

Lemma rruns_restore_value v ns fs ks :
  v ∈ vals -> mix ns ks ->
  rruns (restore_registry_value key v)
    (fun _ fs' ks' => fs' = fs /\ mix (registry_name (rtv_name v) :: ns) ks')
    (fun fs' ks' => fs' = fs /\ mix ns ks') (fun fs' ks' => fs' = fs /\ mix ns ks') fs ks.
Proof.
  intros Hv Hm. pose proof (Hprev v Hv) as Hp. unfold restore_registry_value.
  set (n := registry_name (rtv_name v)) in *.
  assert (forall ks', mix (n :: ns) ks' -> mix ns ks') as Hsub
    by (intros ks'; apply mix_subset; set_solver).
  assert (forall vs', (forall m, m ∉ value_names \/ m ∈ ns -> vs' !! m = vs0 !! m) ->
            vs' !! n = vs0 !! n -> mix (n :: ns) (<[key := vs']> ks)) as Hstep.
  { intros vs' Ho Hn. destruct Hm as (vs & -> & _). exists vs'. rewrite insert_insert_eq.
    split; [done|]. intros m [Hm|[->|Hm]%elem_of_cons]; auto. }
  assert (exists vs, ks !! key = Some vs /\
            forall m, m ∉ value_names \/ m ∈ ns -> vs !! m = vs0 !! m) as (vs & Ek & Ho)
    by (destruct Hm as (vs & -> & Ho); exists vs; by rewrite lookup_insert_eq).
  assert (forall o : option StoredRegistryValue, o = vs0 !! n ->
    mix (n :: ns) (<[key := partial_alter (fun _ => o) n vs]> ks)) as Hmix.
  { intros o ->. apply Hstep; [|by rewrite lookup_partial_alter_eq].
    intros m Hmn. destruct (decide (m = n)) as [->|Hne]; [by rewrite lookup_partial_alter_eq|].
    rewrite lookup_partial_alter_ne by done. auto. }
  apply rruns_bind. destruct (rtv_previous v) as [stored|] eqn:Epr.
  - eapply rruns_call; [unfold with_values; rewrite Ek; reflexivity|..].
    + apply rruns_lift; [intros [] _|done]. split; [done|]. by apply (Hmix (Some stored)).
    + split; [done|]. by apply Hsub, (Hmix (Some stored)).
    + done.
    + intros k. cbv beta iota. apply rruns_lift; [|done]. intros [] Hk.
      apply ensure_Ok in Hk. rewrite (proj1 (access_denied_status k)) in Hk. done.
  - destruct (vs !! n) as [x|] eqn:En.
    + eapply rruns_call; [unfold with_values; rewrite Ek; cbv beta; fold n; rewrite En; reflexivity|..].
      * apply rruns_lift; [intros [] _|done]. split; [done|]. by apply (Hmix None).
      * split; [done|]. by apply Hsub, (Hmix None).
      * done.
      * intros k. cbv beta iota. apply rruns_lift; [|done]. intros [] Hk.
        apply ensure_Ok in Hk. destruct (access_denied_status k) as [E1 E2].
        by rewrite E1, E2, andb_false_r in Hk.
    + eapply rruns_call; [unfold with_values; rewrite Ek; cbv beta; fold n; rewrite En; reflexivity|..];
        rewrite ?insert_id by done.
      * apply rruns_lift; [intros [] _|done]. split; [done|].
        rewrite <- (insert_id ks key vs) by done. apply Hstep; [done|congruence].
      * done.
      * done.
      * intros k. cbv beta iota. apply rruns_lift; [|done]. intros [] Hk.
        apply ensure_Ok in Hk. destruct (access_denied_status k) as [E1 E2].
        by rewrite E1, E2, andb_false_r in Hk.
Qed.

Lemma rruns_restore_list l ns fs ks :
  (forall v, v ∈ l -> v ∈ vals) -> mix ns ks ->
  rruns (for_each (restore_registry_value key) l)
    (fun _ fs' ks' => fs' = fs /\ mix (((fun v => registry_name (rtv_name v)) <$> l) ++ ns) ks')
    (fun fs' ks' => fs' = fs /\ mix ns ks') (fun fs' ks' => fs' = fs /\ mix ns ks') fs ks.
Proof.
  revert ns ks. induction l as [|v l IH]; intros ns ks Hl Hm; cbn [for_each]; [by apply rruns_pure|].
  apply rruns_bind.
  eapply rruns_mono; [apply (rruns_restore_value v ns); [apply Hl; by left|done]| |done|done].
  intros [] fs' ks' [-> Hm']. cbv beta.
  eapply rruns_mono; [apply (IH (registry_name (rtv_name v) :: ns));
    [intros w Hw; apply Hl; by right|exact Hm']|..].
  - intros [] fs' ks2 [-> Hm2]. split; [done|]. eapply mix_subset; [|exact Hm2].
    cbn. set_solver.
  - intros fs' ks2 [-> Hm2]. split; [done|]. eapply mix_subset; [|exact Hm2]. set_solver.
  - intros fs' ks2 [-> Hm2]. split; [done|]. eapply mix_subset; [|exact Hm2]. set_solver.
Qed.

(** Restoring gives the original key back, and loses nothing when it stops. *)
Lemma rruns_restore ns fs ks :
  mix ns ks ->
  rruns (restore_registry_values key vals) (fun _ fs' ks' => fs' = fs /\ ks' = ks0)
    (fun fs' ks' => fs' = fs /\ mix ns ks') (fun fs' ks' => fs' = fs /\ mix ns ks') fs ks.
Proof.
  intros Hm. eapply rruns_mono; [apply (rruns_restore_list (rev vals) ns);
    [intros v Hv; apply list_elem_of_In, in_rev; by apply list_elem_of_In|done]| |done|done].
  intros [] fs' ks' [-> Hm']. split; [done|]. eapply mix_all; [|exact Hm'].
  intros n (v & -> & Hv)%list_elem_of_fmap. apply elem_of_app. left.
  apply list_elem_of_fmap_2 with (f := fun v => registry_name (rtv_name v)).
  apply list_elem_of_In. apply -> in_rev. by apply list_elem_of_In.
Qed.
End restoring.

(** ** Replaying and recovering a transaction *)

Section transaction.
Context `{RegistryNames, SerdeJsonLaws, !Reader RegistryTransactionJournal,
          !ReaderLaws RegistryTransactionJournal}.

(** The journal of a set of values over the values of the key. *)
Definition registry_journal (scope : RegisteredRegistryScope) (vs0 : Values)
    (values : list RegistryValue) : RegistryTransactionJournal :=
  {| rt_kind := REGISTRY_TRANSACTION_KIND; rt_phase := PhasePrepared;
     rt_schema := REGISTRY_TRANSACTION_SCHEMA; rt_scope_id := scope_id scope;
     rt_subkey := subkey scope;
     rt_values := (fun v => {| rtv_name := value_name v;
                               rtv_previous := vs0 !! registry_name (value_name v) |}) <$> values;
     rt_view := view scope |}.

#[local] Abbreviation tx := registry_transaction_path.
#[local] Abbreviation tx_new := (with_extension tx "new").
#[local] Abbreviation tx_bak := (with_extension tx "bak").

Lemma tx_distinct : slots_distinct tx.
Proof. split; by vm_compute. Qed.

(** No trace of a transaction. *)
Definition gone (fs : Files) : Prop :=
  fs !! tx = None /\ fs !! tx_new = None /\ fs !! tx_bak = None.

Context (scope : RegisteredRegistryScope) (values : list RegistryValue).
Context (ks0 kn : Keys) (vs0 : Values) (pbytes cbytes gbytes : list byte).
#[local] Abbreviation key := (scope_key (subkey scope) (view scope)).
#[local] Abbreviation journal := (registry_journal scope vs0 values).
#[local] Abbreviation mixed := (mix key ks0 vs0 (rt_values journal)).
Context (Hkey : ks0 !! key = Some vs0) (Hkn : mixed [] kn).
Context (Hp : encode_registry_transaction journal = Ok pbytes).
Context (Hc : encode_registry_transaction (committed_journal journal) = Ok cbytes).

Lemma journal_previous v :
  v ∈ rt_values journal -> rtv_previous v = vs0 !! registry_name (rtv_name v).
Proof. cbn. by intros (w & -> & _)%list_elem_of_fmap. Qed.

Lemma parse_registry_transaction j bytes :
  encode_registry_transaction j = Ok bytes ->
  parse_canonical RegistryTransactionJournal bytes MAX_REGISTRY_TRANSACTION_BYTES = Ok j.
Proof.
  unfold encode_registry_transaction. intros He. ok_inv. bool_inv. subst.
  by eapply parse_canonical_encoded.
Qed.

(** A cut journal is not read as any journal. *)
Lemma parse_registry_transaction_cut j j' bytes c :
  encode_registry_transaction j = Ok bytes -> c `prefix_of` bytes ->
  parse_canonical RegistryTransactionJournal c MAX_REGISTRY_TRANSACTION_BYTES = Ok j' ->
  c = bytes.
Proof.
  unfold encode_registry_transaction. intros He Hpre Hpar. ok_inv. subst.
  cbn in Hx. injection Hx as <-. by eapply parse_canonical_prefix.
Qed.

Lemma rruns_replay_committed scopes fs ks :
  rruns (replay_registry_transaction cbytes scopes)
    (fun _ fs' ks' => fs' = fs /\ ks' = ks) (fun fs' ks' => fs' = fs /\ ks' = ks)
    (fun fs' ks' => fs' = fs /\ ks' = ks) fs ks.
Proof.
  unfold replay_registry_transaction.
  rewrite (parse_registry_transaction (committed_journal journal) cbytes Hc).
  apply rruns_bind, rruns_lift; [|done]. intros j' [= <-].
  apply rruns_bind, rruns_lift; [|done]. intros scope' Hval. by apply rruns_pure.
Qed.

Lemma rruns_replay_prepared scopes ns fs ks :
  mixed ns ks ->
  rruns (replay_registry_transaction pbytes scopes)
    (fun _ fs' ks' => fs' = fs /\ ks' = ks0)
    (fun fs' ks' => fs' = fs /\ mixed ns ks') (fun fs' ks' => fs' = fs /\ mixed ns ks') fs ks.
Proof.
  intros Hm. unfold replay_registry_transaction.
  rewrite (parse_registry_transaction journal pbytes Hp).
  apply rruns_bind, rruns_lift; [|done]. intros j' [= <-].
  apply rruns_bind, rruns_lift; [|done]. intros scope' Hval.
  rewrite bool_decide_true by done.
  assert (scope_key (subkey scope') (view scope') = key) as Ek.
  { unfold validate_registry_transaction in Hval. ok_inv. bool_inv. subst. cbn in *. congruence. }
  apply rruns_bind, rruns_open; [|done..]. rewrite Ek.
  apply (rruns_restore key ks0 vs0 (rt_values journal) Hkey journal_previous ns fs ks Hm).
Qed.

(** Bytes that may be found of the journal when the values are untouched. *)
Definition cut_journal (c : list byte) : Prop := c `prefix_of` pbytes \/ c `prefix_of` cbytes.

(** The states a transaction can be found in. *)
Definition untouched (fs : Files) (ks : Keys) : Prop := holds tx cut_journal fs /\ ks = ks0.
Definition half_written (fs : Files) (ks : Keys) : Prop :=
  slots tx (Some pbytes) None None fs fs /\ mixed [] ks.
Definition marking (fs : Files) (ks : Keys) : Prop :=
  exists rest, rest !! registry_generation_path = Some gbytes
    /\ midway tx (Some pbytes) cbytes rest fs /\ ks = kn.
Definition applied (fs : Files) (ks : Keys) : Prop :=
  gone fs /\ ks = kn /\ fs !! registry_generation_path = Some gbytes.

Lemma cut_refl : cut_journal pbytes /\ cut_journal cbytes.
Proof. split; [by left|by right]. Qed.

Lemma slots_refl path p t b rest fs :
  slots path p t b rest fs -> slots path p t b fs fs.
Proof. intros []. by split. Qed.

Lemma remove_transaction_spec b rest fs :
  slots tx (Some b) None None rest fs ->
  runs (remove_registry_transaction tx)
    (fun _ fs' => slots tx None None None rest fs')
    (slots tx (Some b) None None rest)
    (fun fs' => slots tx (Some b) None None rest fs' \/ slots tx None None None rest fs') fs.
Proof.
  intros Hs. unfold remove_registry_transaction.
  apply runs_bind, runs_exists. rewrite (slot_path _ _ _ _ _ _ Hs). cbn.
  assert (slots tx None None None rest (delete tx fs)) as Hd.
  { destruct tx_distinct as [??], Hs. split; intros; simplify_map_eq; auto. }
  eapply runs_remove; [by apply (slot_path _ _ _ _ _ _ Hs)|done|by right|done|by left].
Qed.

Lemma slots_untouched p rest fs :
  slots tx p None None rest fs -> (forall c, p = Some c -> cut_journal c) ->
  holds tx cut_journal fs.
Proof.
  intros [E1 E2 E3 _] Hcut q c Hq Hq'.
  rewrite !elem_of_cons in Hq. destruct Hq as [->|[->|[->|Hq%not_elem_of_nil]]]; try done;
    [apply Hcut|..]; congruence.
Qed.

Lemma replay_untouched c scopes fs :
  cut_journal c ->
  rruns (replay_registry_transaction c scopes)
    (fun _ fs' ks' => fs' = fs /\ ks' = ks0) (fun fs' ks' => fs' = fs /\ ks' = ks0)
    (fun fs' ks' => fs' = fs /\ ks' = ks0) fs ks0.
Proof.
  intros Hcut.
  destruct (parse_canonical RegistryTransactionJournal c MAX_REGISTRY_TRANSACTION_BYTES) as [j|e] eqn:Ep.
  - destruct Hcut as [Hpre|Hpre].
    + rewrite (parse_registry_transaction_cut journal j pbytes c) by done.
      assert (forall fs' ks', fs' = fs /\ mixed (value_names (rt_values journal)) ks' ->
                fs' = fs /\ ks' = ks0) as Hall
        by (intros ? ? [-> Hm]; split; [done|by eapply mix_all]).
      eapply rruns_mono; [by apply rruns_replay_prepared, mix_original|done|exact Hall..].
    + rewrite (parse_registry_transaction_cut (committed_journal journal) j cbytes c) by done.
      apply rruns_replay_committed.
  - unfold replay_registry_transaction. rewrite Ep.
    apply rruns_bind, rruns_lift; [done|]. intros e' _. done.
Qed.

Lemma recover_untouched scopes fs ks :
  untouched fs ks ->
  rruns (recover_registry_transaction tx scopes)
    (fun _ fs' ks' => gone fs' /\ ks' = ks0) untouched untouched fs ks.
Proof.
  intros [Hh ->]. unfold recover_registry_transaction. apply rruns_bind, rruns_disk.
  eapply runs_mono; [apply (recover_holds tx tx_distinct cut_journal fs Hh)| |by split..].
  intros [] fs' (Hh' & Hn & Hb). cbv beta.
  apply rruns_bind, rruns_disk, runs_exists.
  destruct (fs' !! tx) as [c|] eqn:Ec; cbn; [|apply rruns_pure; by unfold gone].
  apply rruns_bind, rruns_disk, runs_read_bounded. rewrite Ec. cbn.
  apply rruns_bind, rruns_lift; [|by split]. intros bytes Hb'. case_match; [|done].
  injection Hb' as <-.
  assert (cut_journal c) as Hcut by (apply (Hh' tx); [set_solver|done]).
  apply rruns_bind. eapply rruns_mono; [by apply replay_untouched| | |].
  - intros [] fs2 ks2 [-> ->]. apply rruns_disk.
    assert (slots tx (Some c) None None fs' fs') as Hs by (by split).
    eapply runs_mono; [apply (remove_transaction_spec c fs' fs' Hs)| | |].
    + intros [] fs2 []. by split.
    + intros fs2 Hs2. split; [|done]. apply (slots_untouched _ _ _ Hs2). by intros ? [= <-].
    + intros fs2 [Hs2|Hs2]; (split; [|done]); apply (slots_untouched _ _ _ Hs2); [|done].
      by intros ? [= <-].
  - intros fs2 ks2 [-> ->]. by split.
  - intros fs2 ks2 [-> ->]. by split.
Qed.

(** Nothing is pending in the files: their recovery does nothing. *)
Lemma recover_clean path fs v :
  fs !! path = v -> fs !! with_extension path "new" = None ->
  fs !! with_extension path "bak" = None ->
  runs (recover_service_file_replacement path) (fun _ fs' => fs' = fs) (fun _ => False)
    (fun _ => False) fs.
Proof.
  intros Hv Hn Hb. unfold recover_service_file_replacement.
  apply runs_bind, runs_exists, runs_bind, runs_exists, runs_bind, runs_exists.
  rewrite Hn, Hb, Hv. by destruct v; apply runs_pure.
Qed.

(** A transaction that was not marked is rolled back. *)
Definition rolled_back_state (fs : Files) (ks : Keys) : Prop :=
  half_written fs ks \/ untouched fs ks.

Lemma removing_untouched b fs' :
  slots tx (Some b) None None fs' fs' -> cut_journal b ->
  runs (remove_registry_transaction tx) (fun _ fs2 => gone fs2)
    (fun fs2 => untouched fs2 ks0) (fun fs2 => untouched fs2 ks0) fs'.
Proof.
  intros Hs Hcut. eapply runs_mono; [apply (remove_transaction_spec b fs' fs' Hs)| | |].
  - by intros [] fs2 [].
  - intros fs2 Hs2. split; [|done]. apply (slots_untouched _ _ _ Hs2). by intros ? [= <-].
  - intros fs2 [Hs2|Hs2]; (split; [|done]); apply (slots_untouched _ _ _ Hs2); [|done].
    by intros ? [= <-].
Qed.

(** From a clean prepared journal, after the file recovery. *)
Lemma replay_and_remove_prepared scopes fs ks :
  half_written fs ks ->
  rruns (_ ← replay_registry_transaction pbytes scopes;
         on_disk (remove_registry_transaction tx))
    (fun _ fs' ks' => gone fs' /\ ks' = ks0) rolled_back_state rolled_back_state fs ks.
Proof.
  intros [Hs Hm]. apply rruns_bind.
  eapply rruns_mono; [by apply (rruns_replay_prepared scopes [] fs ks)| | |].
  - intros [] fs2 ks2 [-> ->]. cbn. apply rruns_disk.
    eapply runs_mono; [apply (removing_untouched pbytes fs Hs); by left| | |]; cbv beta; auto.
    + intros fs2 Hu. by right.
    + intros fs2 Hu. by right.
  - intros fs2 ks2 [-> Hm2]. by left.
  - intros fs2 ks2 [-> Hm2]. by left.
Qed.

(** The part of a recovery after the files are in place. *)
Definition resume (scopes : RegistryScopeRegistry) : M RegistryWorld () :=
  found ← on_disk (path_exists tx);
  if (found : bool) then
    bytes ← on_disk (read_bounded tx MAX_REGISTRY_TRANSACTION_BYTES);
    bytes ← lift (ok_or bytes RecoveryIncomplete "registry transaction journal cannot be read");
    _ ← replay_registry_transaction bytes scopes;
    on_disk (remove_registry_transaction tx)
  else pure tt.

Lemma encode_registry_transaction_bound j bytes :
  encode_registry_transaction j = Ok bytes ->
  (N.of_nat (length bytes) <= MAX_REGISTRY_TRANSACTION_BYTES)%N.
Proof. unfold encode_registry_transaction. intros He. ok_inv. bool_inv. by subst. Qed.

Lemma rruns_resume scopes j b (Q : () -> Files -> Keys -> Prop) (E C : Files -> Keys -> Prop) fs ks :
  fs !! tx = Some b -> encode_registry_transaction j = Ok b ->
  rruns (_ ← replay_registry_transaction b scopes; on_disk (remove_registry_transaction tx))
    Q E C fs ks ->
  rruns (resume scopes) Q E C fs ks.
Proof.
  intros Hb He Hr. unfold resume. apply rruns_bind, rruns_disk, runs_exists. rewrite Hb. cbn.
  apply rruns_bind, rruns_disk, runs_read_bounded. rewrite Hb. cbn.
  rewrite (proj2 (N.leb_le _ _) (encode_registry_transaction_bound _ _ He)).
  apply rruns_bind, rruns_lift; [|done]. by intros b' [= <-].
Qed.

Lemma recover_rolled_back scopes fs ks :
  rolled_back_state fs ks ->
  rruns (recover_registry_transaction tx scopes)
    (fun _ fs' ks' => gone fs' /\ ks' = ks0) rolled_back_state rolled_back_state fs ks.
Proof.
  intros [[Hs Hm]|Hu].
  - unfold recover_registry_transaction. apply rruns_bind, rruns_disk.
    eapply runs_mono; [apply (recover_clean tx fs (Some pbytes)); apply Hs| |done..].
    intros [] fs' ->. apply (rruns_resume scopes journal pbytes); [apply Hs|done|].
    by apply replay_and_remove_prepared.
  - eapply rruns_mono; [by apply recover_untouched|done| |]; intros; by right.
Qed.

(** A marked transaction that is found complete stays applied. *)
Definition marked_state (fs : Files) (ks : Keys) : Prop :=
  rolled_back_state fs ks \/ marking fs ks \/ applied fs ks.

Definition settled_state (fs : Files) (ks : Keys) : Prop :=
  gone fs /\ (ks = ks0 \/ (ks = kn /\ fs !! registry_generation_path = Some gbytes)).

Lemma generation_outside p t b rest fs :
  slots tx p t b rest fs ->
  fs !! registry_generation_path = rest !! registry_generation_path.
Proof. intros []. apply slot_rest; by vm_compute. Qed.

Lemma recover_applied scopes fs ks :
  applied fs ks ->
  rruns (recover_registry_transaction tx scopes) (fun _ => applied) applied applied fs ks.
Proof.
  intros ((Eg & En & Eb) & -> & Hg). unfold recover_registry_transaction.
  apply rruns_bind, rruns_disk.
  eapply runs_mono; [by apply (recover_clean tx fs None)| |done..].
  intros [] fs' ->. apply rruns_bind, rruns_disk, runs_exists. rewrite Eg. cbn.
  by apply rruns_pure.
Qed.

Lemma recover_marking scopes fs ks :
  marking fs ks ->
  rruns (recover_registry_transaction tx scopes)
    (fun _ => settled_state) marked_state marked_state fs ks.
Proof.
  intros (rest & Hg & Hmid & ->). unfold recover_registry_transaction.
  assert (forall fs', midway tx (Some pbytes) cbytes rest fs' -> marked_state fs' kn) as Hback
    by (intros fs' Hm'; right; left; by exists rest).
  apply rruns_bind, rruns_disk.
  eapply runs_mono; [apply (recover_spec tx tx_distinct (Some pbytes) cbytes rest fs Hmid)| |done|done].
  intros [] fs' (v & Hs & Hv). destruct Hv as [->|[->|[? _]]]; [..|done].
  - eapply rruns_mono; [apply (rruns_resume scopes journal pbytes)| | |].
    + apply Hs.
    + done.
    + apply replay_and_remove_prepared. split; [by eapply slots_refl|done].
    + intros [] fs2 ks2 [Hgone ->]. split; [done|by left].
    + intros; by left.
    + intros; by left.
  - assert (slots tx (Some cbytes) None None rest fs') as Hmark by done.
    assert (fs' !! registry_generation_path = Some gbytes) as Hg'
      by (by rewrite (generation_outside _ _ _ _ _ Hs)).
    apply (rruns_resume scopes (committed_journal journal) cbytes); [apply Hs|done|].
    apply rruns_bind.
    eapply rruns_mono; [apply (rruns_replay_committed scopes fs' kn)| | |].
    + intros [] fs2 ks2 [-> ->]. apply rruns_disk.
      eapply runs_mono; [apply (remove_transaction_spec cbytes rest fs' Hs)| | |].
      * intros [] fs2 Hs2. split; [by destruct Hs2|]. right.
        by rewrite (generation_outside _ _ _ _ _ Hs2).
      * intros fs2 Hs2. by apply Hback, mid_done.
      * intros fs2 [Hs2|Hs2]; [by apply Hback, mid_done|]. right; right.
        split; [by destruct Hs2|]. by rewrite (generation_outside _ _ _ _ _ Hs2).
    + intros fs2 ks2 [-> ->]. by apply Hback, mid_done.
    + intros fs2 ks2 [-> ->]. by apply Hback, mid_done.
Qed.

Lemma recover_marked scopes fs ks :
  marked_state fs ks ->
  rruns (recover_registry_transaction tx scopes)
    (fun _ => settled_state) marked_state marked_state fs ks.
Proof.
  intros [Hr|[Hm|Ha]].
  - eapply rruns_mono; [by apply recover_rolled_back| | |].
    + intros [] fs2 ks2 [? ->]. split; [done|by left].
    + intros; by left.
    + intros; by left.
  - by apply recover_marking.
  - eapply rruns_mono; [by apply recover_applied| | |]; [|by right; right..].
    intros [] fs2 ks2 (? & ? & ?). split; [done|by right].
Qed.
End transaction.
