(* ===== verification/RegistryApply.v ===== *)
(** * Applying a registry set

    What [apply_registry_set_transaction] does when no file operation fails and
    at most one call of the registry does, with a crash possible at any step:
    its result and the state it leaves, for the recovery of RegistryAtomicity. *)

From S2P Require Import Prelude Errors Effects Identifiers Json Storage RegistrySet RegistryScopes.
From S2P Require Import Journal Generations WindowsRegistry RegistryTransaction RegistryAtomicity.

(** ** Proof rules *)

(** At most [n] calls of the registry are still to fail, and no file operation. *)
Record at_state (n : nat) (fs : Files) (ks : Keys) (g : GenerationRegistry) (w : RegistryWorld)
    : Prop := {
  as_files : files (rw_disk w) = fs;
  as_fates : failures (fates (rw_disk w)) = 0%nat;
  as_keys : rw_keys w = ks;
  as_key_fates : (failures (rw_key_fates w) <= n)%nat;
  as_generations : rw_generations w = g;
}.

Definition asteps {A} (n : nat) (m : M RegistryWorld A)
    (Q : A -> nat -> Files -> Keys -> GenerationRegistry -> Prop)
    (E : MaintenanceError -> nat -> Files -> Keys -> GenerationRegistry -> Prop)
    (C : Files -> Keys -> Prop) (fs : Files) (ks : Keys) (g : GenerationRegistry) : Prop :=
  forall w, at_state n fs ks g w ->
    wp m (fun a w' => exists n' fs' ks' g', at_state n' fs' ks' g' w' /\ Q a n' fs' ks' g')
      (fun e w' => exists n' fs' ks' g', at_state n' fs' ks' g' w' /\ E e n' fs' ks' g')
      (fun w' => C (files (rw_disk w')) (rw_keys w')) w.

Section rules.
Context {A B : Type}.
Implicit Types (Q : A -> nat -> Files -> Keys -> GenerationRegistry -> Prop).
Implicit Types (E : MaintenanceError -> nat -> Files -> Keys -> GenerationRegistry -> Prop).
Implicit Types (C : Files -> Keys -> Prop) (g : GenerationRegistry).

Lemma asteps_pure n (a : A) Q E C fs ks g : Q a n fs ks g -> asteps n (pure a) Q E C fs ks g.
Proof. intros HQ w Hw. by exists n, fs, ks, g. Qed.

Lemma asteps_fail n (e : MaintenanceError) Q E C fs ks g :
  E e n fs ks g -> asteps n (fail e) Q E C fs ks g.
Proof. intros HE w Hw. by exists n, fs, ks, g. Qed.

Lemma asteps_lift n (r : Result A) Q E C fs ks g :
  (forall a, r = Ok a -> Q a n fs ks g) -> (forall e, r = Err e -> E e n fs ks g) ->
  asteps n (lift r) Q E C fs ks g.
Proof.
  intros HQ HE w Hw. apply wp_lift; intros x Hx; exists n, fs, ks, g; auto.
Qed.

Lemma asteps_bind n (m : M RegistryWorld A) (k : A -> M RegistryWorld B)
    (Q : B -> nat -> Files -> Keys -> GenerationRegistry -> Prop) E C fs ks g :
  asteps n m (fun a n' fs' ks' g' => asteps n' (k a) Q E C fs' ks' g') E C fs ks g ->
  asteps n (m ≫= k) Q E C fs ks g.
Proof.
  intros Hm w Hw. apply wp_bind. eapply wp_mono; [exact (Hm w Hw)| |done|done].
  cbv beta. intros a w' (n' & fs' & ks' & g' & Hw' & Hk). by apply Hk.
Qed.

Lemma asteps_mono n (m : M RegistryWorld A) Q Q' E E' C C' fs ks g :
  asteps n m Q E C fs ks g -> (forall a n' fs' ks' g', Q a n' fs' ks' g' -> Q' a n' fs' ks' g') ->
  (forall e n' fs' ks' g', E e n' fs' ks' g' -> E' e n' fs' ks' g') ->
  (forall fs' ks', C fs' ks' -> C' fs' ks') -> asteps n m Q' E' C' fs ks g.
Proof.
  intros Hm HQ HE HC w Hw. eapply wp_mono; [exact (Hm w Hw)|..]; cbv beta; [| |auto].
  - intros a w' (n' & fs' & ks' & g' & Hw' & Hk). exists n', fs', ks', g'. auto.
  - intros a w' (n' & fs' & ks' & g' & Hw' & Hk). exists n', fs', ks', g'. auto.
Qed.

Lemma asteps_attempt n (m : M RegistryWorld A)
    (Q : Result A -> nat -> Files -> Keys -> GenerationRegistry -> Prop) E C fs ks g :
  asteps n m (fun a => Q (Ok a)) (fun e => Q (Err e)) C fs ks g ->
  asteps n (attempt m) Q E C fs ks g.
Proof. intros Hm w Hw. apply wp_attempt. exact (Hm w Hw). Qed.

(** File operations go through. *)
Lemma asteps_disk n (m : M Disk A) Q E C fs ks g :
  surely m (fun a fs' => Q a n fs' ks g) (fun fs' => C fs' ks) fs ->
  asteps n (on_disk m) Q E C fs ks g.
Proof.
  intros Hm w [Ef Ea Ek En Eg]. apply wp_on_disk. specialize (Hm _ Ea).
  rewrite <- Ef, disk_eta in Hm. eapply wp_mono; [exact Hm| |done|]; cbv beta.
  - intros a d [Hd HQ]. exists n, (files d), ks, g. split; [by split|done].
  - intros d HC. cbn. by rewrite Ek.
Qed.

Lemma asteps_call n (effect : Keys -> N * option A * Keys)
    (Q : N * option A -> nat -> Files -> Keys -> GenerationRegistry -> Prop)
    E C fs ks g s a ks' :
  effect ks = (s, a, ks') -> Q (s, a) n fs ks' g -> C fs ks -> C fs ks' ->
  (forall n' k, n = S n' -> Q (ERROR_ACCESS_DENIED + N.of_nat k, None)%N n' fs ks g) ->
  asteps n (reg_call effect) Q E C fs ks g.
Proof.
  intros He HQ HC HC' Hk w [Ef Ea Ek En Eg]. unfold wp, reg_call. rewrite Ek, He.
  pose proof (failures_tail (rw_key_fates w)).
  destruct (default Works (head (rw_key_fates w))) as [|k|k|] eqn:Eh; cbn.
  - exists n, fs, ks', g. split; [|done].
    split; try done. cbn [rw_key_fates set_keys set_key_fates]. lia.
  - apply failures_head_fails in Eh. destruct n as [|n]; [lia|].
    exists n, fs, ks, g. split; [|by apply Hk].
    split; try done. cbn [rw_key_fates set_keys set_key_fates]. lia.
  - by rewrite Ef, Ek.
  - by rewrite Ef.
Qed.

Lemma asteps_generations n (Q : GenerationRegistry -> nat -> Files -> Keys -> GenerationRegistry -> Prop)
    E C fs ks g :
  Q g n fs ks g -> asteps n (gets rw_generations) Q E C fs ks g.
Proof.
  intros HQ w Hw. apply wp_gets. rewrite (as_generations _ _ _ _ _ Hw). by exists n, fs, ks, g.
Qed.

Lemma asteps_set_generations n g' (Q : () -> nat -> Files -> Keys -> GenerationRegistry -> Prop)
    E C fs ks g :
  Q tt n fs ks g' -> asteps n (modify (set_generations g')) Q E C fs ks g.
Proof. intros HQ w []. exists n, fs, ks, g'. split; [by split|done]. Qed.

Lemma asteps_during n (m : M RegistryWorld A) Q E C fs ks g :
  asteps n m Q E C fs ks g -> asteps n (during_commit m) Q E C fs ks g.
Proof.
  intros Hm w Hw. unfold during_commit. apply wp_bind.
  unfold wp at 1, modify at 1. apply wp_bind, wp_attempt.
  assert (at_state n fs ks g (set_flags (begin_commit (rw_flags w)) w)) as Hw1
    by (by destruct Hw; split).
  eapply wp_mono; [exact (Hm _ Hw1)|..]; cbv beta; [| |done].
  - intros a w' (n' & fs' & ks' & g' & Hw' & HQ). exists n', fs', ks', g'.
    split; [by destruct Hw'; split|done].
  - intros e w' (n' & fs' & ks' & g' & Hw' & HQ). exists n', fs', ks', g'.
    split; [by destruct Hw'; split|done].
Qed.
End rules.

(** What holds of the files and keys by RegistryAtomicity, and what the fates allow. *)
Lemma asteps_conj {A} n (m : M RegistryWorld A)
    (Q1 : A -> nat -> Files -> Keys -> GenerationRegistry -> Prop)
    (E1 : MaintenanceError -> nat -> Files -> Keys -> GenerationRegistry -> Prop)
    C1 (Q2 : A -> Files -> Keys -> Prop) E2 C2 fs ks g :
  asteps n m Q1 E1 C1 fs ks g -> rruns m Q2 E2 C2 fs ks ->
  asteps n m (fun a n' fs' ks' g' => Q1 a n' fs' ks' g' /\ Q2 a fs' ks')
    (fun e n' fs' ks' g' => E1 e n' fs' ks' g' /\ E2 fs' ks')
    (fun fs' ks' => C1 fs' ks' /\ C2 fs' ks') fs ks g.
Proof.
  intros H1 H2 w Hw. specialize (H1 w Hw). destruct Hw as [Ef Ea Ek En Eg].
  specialize (H2 w Ef Ek). revert H1 H2. unfold wp.
  destruct (m w) as [[[a|e]| |] w']; [| |done|done].
  - intros (n' & fs' & ks' & g' & Hw' & HQ) H2. exists n', fs', ks', g'.
    destruct Hw' as [<- ? <- ? ?]. by split; [split|].
  - intros (n' & fs' & ks' & g' & Hw' & HQ) H2. exists n', fs', ks', g'.
    destruct Hw' as [<- ? <- ? ?]. by split; [split|].
Qed.

Section reading.
Context `{RegistryNames}.
Implicit Types (Q : KeyPath -> nat -> Files -> Keys -> GenerationRegistry -> Prop).
Implicit Types (E : MaintenanceError -> nat -> Files -> Keys -> GenerationRegistry -> Prop).

(** A failed call shows in its status. *)
Ltac denied k := let H1 := fresh in let H2 := fresh in
  destruct (access_denied_status k) as [H1 H2]; rewrite ?H1, ?H2.

Lemma asteps_is_link n key (Q : bool -> nat -> Files -> Keys -> GenerationRegistry -> Prop) E
    (C : Files -> Keys -> Prop) fs ks g :
  (forall link, Q link n fs ks g) -> (forall e n', E e n' fs ks g) -> C fs ks ->
  asteps n (registry_key_is_link key) Q E C fs ks g.
Proof.
  intros HQ HE HC. unfold registry_key_is_link. apply asteps_bind.
  destruct (query_effect key "SymbolicLinkValue" ks) as (s & a & Heff).
  eapply asteps_call; [exact Heff| |done|done|].
  - cbv beta iota. destruct (s =? ERROR_FILE_NOT_FOUND)%N; [by apply asteps_pure|].
    destruct (negb _); [by apply asteps_fail|by apply asteps_pure].
  - intros n' k _. cbv beta iota. denied k. by apply asteps_fail.
Qed.

Lemma asteps_open_components n on_status parent components Q E (C : Files -> Keys -> Prop) fs ks g :
  Q (parent.1, parent.2 ++ (registry_name <$> components)) n fs ks g ->
  (forall e n', E e n' fs ks g) -> C fs ks ->
  asteps n (open_registry_components on_status false parent components) Q E C fs ks g.
Proof.
  intros HQ HE HC. revert parent HQ.
  induction components as [|c cs IH]; intros [v p] HQ; cbn [open_registry_components].
  { apply asteps_pure. cbn in HQ. by rewrite app_nil_r in HQ. }
  cbn [fst snd] in *. apply asteps_bind. unfold RegOpenKey.
  eapply asteps_call; [reflexivity| |done|done|].
  - cbv beta iota. apply asteps_bind. destruct (negb _); [by apply asteps_fail|].
    apply asteps_pure, asteps_bind, asteps_is_link; [intros link|done..].
    apply asteps_bind. destruct link; [by apply asteps_fail|]. apply asteps_pure, IH.
    cbn [fst snd]. by rewrite <- app_assoc.
  - intros n' k _. cbv beta iota. denied k. apply asteps_bind. by apply asteps_fail.
Qed.

Lemma asteps_query n key name vs
    (Q : N * option StoredRegistryValue -> nat -> Files -> Keys -> GenerationRegistry -> Prop) E
    (C : Files -> Keys -> Prop) fs ks g :
  ks !! key = Some vs ->
  Q (match vs !! registry_name name with
     | None => (ERROR_FILE_NOT_FOUND, None) | Some v => (ERROR_SUCCESS, Some v) end) n fs ks g ->
  (forall n' k, Q (ERROR_ACCESS_DENIED + N.of_nat k, None)%N n' fs ks g) -> C fs ks ->
  asteps n (RegQueryValue key name) Q E C fs ks g.
Proof.
  intros Hk HQ HF HC. unfold RegQueryValue. destruct (vs !! registry_name name) as [v|] eqn:Ev.
  - eapply asteps_call; [unfold with_values; rewrite Hk, Ev, insert_id by done; reflexivity|..]; auto.
  - eapply asteps_call; [unfold with_values; rewrite Hk, Ev, insert_id by done; reflexivity|..]; auto.
Qed.

Lemma asteps_query_data n key name vs v
    (Q : N * option StoredRegistryValue -> nat -> Files -> Keys -> GenerationRegistry -> Prop) E
    (C : Files -> Keys -> Prop) fs ks g :
  ks !! key = Some vs -> vs !! registry_name name = Some v ->
  Q (ERROR_SUCCESS, Some v) n fs ks g ->
  (forall n' k, Q (ERROR_ACCESS_DENIED + N.of_nat k, None)%N n' fs ks g) -> C fs ks ->
  asteps n (RegQueryValueData key name (length (srv_data v))) Q E C fs ks g.
Proof.
  intros Hk Hv HQ HF HC. unfold RegQueryValueData.
  eapply asteps_call; [unfold with_values; rewrite Hk, Hv, Nat.leb_refl, insert_id by done;
    reflexivity|..]; auto.
Qed.

Lemma asteps_snapshot n key name vs
    (Q : option StoredRegistryValue -> nat -> Files -> Keys -> GenerationRegistry -> Prop) E
    (C : Files -> Keys -> Prop) fs ks g :
  ks !! key = Some vs -> Q (vs !! registry_name name) n fs ks g ->
  (forall e n', E e n' fs ks g) -> C fs ks ->
  asteps n (registry_value_snapshot key name) Q E C fs ks g.
Proof.
  intros Hk HQ HE HC. unfold registry_value_snapshot. apply asteps_bind.
  eapply asteps_query; [exact Hk| | |done].
  2: { intros n' k. cbv beta iota. denied k. apply asteps_bind, asteps_lift; done. }
  destruct (vs !! registry_name name) as [v|] eqn:Ev; cbv beta iota; [|by apply asteps_pure].
  apply asteps_bind, asteps_lift; [intros [] _|done].
  apply asteps_bind, asteps_lift; [intros [] _|done].
  apply asteps_bind. eapply (asteps_query_data _ _ _ vs v); [done|done| | |done].
  - apply asteps_bind, asteps_lift; [intros [] _|done]. by apply asteps_pure.
  - intros n' k. cbv beta iota. denied k. apply asteps_bind, asteps_lift; done.
Qed.

Lemma asteps_snapshots n key total values vs
    (Q : list RegistryTransactionValue -> nat -> Files -> Keys -> GenerationRegistry -> Prop) E
    (C : Files -> Keys -> Prop) fs ks g :
  ks !! key = Some vs ->
  Q ((fun v => {| rtv_name := value_name v;
                  rtv_previous := vs !! registry_name (value_name v) |}) <$> values) n fs ks g ->
  (forall e n', E e n' fs ks g) -> C fs ks ->
  asteps n (snapshot_values key total values) Q E C fs ks g.
Proof.
  intros Hk HQ HE HC. revert total Q HQ.
  induction values as [|v values IH]; intros total Q HQ; cbn [snapshot_values];
    [by apply asteps_pure|].
  apply asteps_bind. eapply asteps_snapshot; [exact Hk| |done..].
  apply asteps_bind, asteps_lift; [intros total' _|done].
  apply asteps_bind, IH. by apply asteps_pure.
Qed.

(** Preparing a transaction reads the scope's key and changes nothing. *)
Lemma asteps_create n scope values vs
    (Q : KeyPath * RegistryTransactionJournal -> nat -> Files -> Keys -> GenerationRegistry -> Prop)
    E (C : Files -> Keys -> Prop) fs ks g :
  ks !! scope_key (subkey scope) (view scope) = Some vs ->
  Q (scope_key (subkey scope) (view scope), registry_journal scope vs values) n fs ks g ->
  (forall e n', E e n' fs ks g) -> C fs ks ->
  asteps n (create_registry_transaction scope values) Q E C fs ks g.
Proof.
  intros Hk HQ HE HC. unfold create_registry_transaction.
  apply asteps_bind, asteps_open_components; [|done..].
  apply asteps_bind. eapply asteps_snapshots; [exact Hk| |done..]. by apply asteps_pure.
Qed.

(** How a rollback uses up the fates. *)
Lemma asteps_restore_value n key v fs ks g :
  is_Some (ks !! key) ->
  asteps n (restore_registry_value key v)
    (fun _ n' _ ks' g' => n' = n /\ g' = g /\ is_Some (ks' !! key))
    (fun _ n' _ _ g' => n = S n' /\ g' = g) (fun _ _ => True) fs ks g.
Proof.
  intros [vs Hk]. unfold restore_registry_value. apply asteps_bind.
  assert (forall vs', is_Some (<[key := vs']> ks !! key)) as Hins
    by (intros; rewrite lookup_insert_eq; by eexists).
  assert (forall n' k, n = S n' -> asteps n' (lift (ensure
      (bool_decide (rtv_previous v = None)
       && (ERROR_ACCESS_DENIED + N.of_nat k =? ERROR_FILE_NOT_FOUND)%N
       || (ERROR_ACCESS_DENIED + N.of_nat k =? ERROR_SUCCESS)%N) RecoveryIncomplete
      "registry transaction rollback did not complete"))
      (fun _ n' _ ks' g' => n' = n /\ g' = g /\ is_Some (ks' !! key))
      (fun _ n' _ _ g' => n = S n' /\ g' = g) (fun _ _ => True) fs ks g) as Hdenied.
  { intros n' k ->. denied k. rewrite andb_false_r. by apply asteps_lift. }
  destruct (rtv_previous v) as [stored|]; [|destruct (vs !! registry_name (rtv_name v)) eqn:Ev].
  - eapply asteps_call; [unfold with_values; rewrite Hk; reflexivity| |done|done|done].
    apply asteps_lift; [|done]. intros [] _. auto.
  - eapply asteps_call; [unfold with_values; rewrite Hk, Ev; reflexivity| |done|done|done].
    apply asteps_lift; [|done]. intros [] _. auto.
  - eapply asteps_call; [unfold with_values; rewrite Hk, Ev; reflexivity| |done|done|done].
    apply asteps_lift; [|done]. intros [] _. auto.
Qed.

Lemma asteps_restore_list n key l fs ks g :
  is_Some (ks !! key) ->
  asteps n (for_each (restore_registry_value key) l)
    (fun _ n' _ ks' g' => n' = n /\ g' = g /\ is_Some (ks' !! key))
    (fun _ n' _ _ g' => n = S n' /\ g' = g) (fun _ _ => True) fs ks g.
Proof.
  revert fs ks. induction l as [|v l IH]; intros fs ks Hk; cbn [for_each];
    [by apply asteps_pure|].
  apply asteps_bind. eapply asteps_mono; [by apply asteps_restore_value| |done|done].
  cbv beta. intros [] n' fs' ks' g' (-> & -> & Hk'). by apply IH.
Qed.
End reading.

(** ** The transaction *)

Lemma midway_outside path old bytes rest fs q :
  midway path old bytes rest fs ->
  q <> path -> q <> with_extension path "new" -> q <> with_extension path "bak" ->
  fs !! q = rest !! q.
Proof. intros Hm. by destruct Hm as [[]|? _ []|? _ []|[]|[]|? _ _ []]; auto. Qed.

Section applying.
Context `{RegistryNames, SerdeJsonLaws, Base64, !Reader RegistryTransactionJournal,
          !ReaderLaws RegistryTransactionJournal, !Reader GenerationRegistryDocument}.

#[local] Abbreviation tx := registry_transaction_path.

(** The values of the key after a registry set was written over [vs]. *)
Definition write_value (vs : Values) (v : RegistryValue) : Values :=
  match encoded_registry_value v with
  | Ok stored => <[registry_name (value_name v) := stored]> vs
  | Err _ => vs
  end.

Definition written (values : list RegistryValue) (vs : Values) : Values :=
  foldl write_value vs values.

Context (scope : RegisteredRegistryScope) (manifest : VerifiedRegistrySet).
#[local] Abbreviation values := (rs_values (registry_set manifest)).
#[local] Abbreviation key := (scope_key (subkey scope) (view scope)).
#[local] Abbreviation record :=
  {| generation := rs_generation (registry_set manifest); digest := vrs_digest manifest |}.
Context (ks0 : Keys) (vs0 : Values) (pbytes cbytes gbytes : list byte).
Context (g g1 : GenerationRegistry).
#[local] Abbreviation journal := (registry_journal scope vs0 values).
#[local] Abbreviation kn := (<[key := written values vs0]> ks0).
#[local] Abbreviation rolled_back :=
  (rolled_back_state scope values ks0 vs0 pbytes cbytes).
#[local] Abbreviation half := (half_written scope values ks0 vs0 pbytes).
Context (Hkey : ks0 !! key = Some vs0).
Context (Hp : encode_registry_transaction journal = Ok pbytes).
Context (Hc : encode_registry_transaction (committed_journal journal) = Ok cbytes).

Lemma written_outside done n :
  done ⊆ values -> n ∉ value_names (rt_values journal) -> written done vs0 !! n = vs0 !! n.
Proof.
  intros Hsub Hn. unfold written.
  enough (forall vs, foldl write_value vs done !! n = vs !! n) as Hall by apply Hall.
  induction done as [|v done IH]; intros vs; cbn; [done|].
  rewrite IH by set_solver. unfold write_value.
  destruct (encoded_registry_value v) as [s|]; [|done]. rewrite lookup_insert_ne; [done|].
  intros <-. apply Hn. unfold value_names. cbn. rewrite <- list_fmap_compose.
  apply list_elem_of_fmap_2 with (f := fun v => registry_name (value_name v)). set_solver.
Qed.

Lemma written_mixed done :
  done ⊆ values ->
  mix key ks0 vs0 (rt_values journal) [] (<[key := written done vs0]> ks0).
Proof.
  intros Hsub. eexists. split; [done|]. intros n [Hn|Hn]; [by apply written_outside|].
  by apply not_elem_of_nil in Hn.
Qed.

Lemma remove_transaction_surely b rest fs :
  slots tx (Some b) None None rest fs ->
  surely (remove_registry_transaction tx) (fun _ fs' => slots tx None None None rest fs')
    (fun fs' => slots tx (Some b) None None rest fs' \/ slots tx None None None rest fs') fs.
Proof.
  intros Hs. unfold remove_registry_transaction.
  apply surely_bind, surely_exists. rewrite (slot_path _ _ _ _ _ _ Hs). cbn.
  assert (slots tx None None None rest (delete tx fs)) as Hd.
  { destruct tx_distinct as [??], Hs. split; intros; simplify_map_eq; auto. }
  eapply surely_io; [by rewrite (slot_path _ _ _ _ _ _ Hs)|done|by right|by left].
Qed.

Lemma removed_untouched p fs :
  slots tx p None None fs fs -> p = None \/ p = Some pbytes -> rolled_back fs ks0.
Proof.
  intros Hs Hpb. right. split; [|done].
  apply (slots_untouched pbytes cbytes p fs fs Hs).
  intros c ->. left. by destruct Hpb as [|[= ->]].
Qed.

(** The journal is removed once the values are back. *)
Lemma asteps_remove_journal n (Q : () -> nat -> Files -> Keys -> GenerationRegistry -> Prop) E fs :
  slots tx (Some pbytes) None None fs fs ->
  (forall fs', rolled_back fs' ks0 -> Q tt n fs' ks0 g) ->
  asteps n (on_disk (remove_registry_transaction tx)) Q E rolled_back fs ks0 g.
Proof.
  intros Hs HQ. apply asteps_disk.
  intros ft Hft. eapply wp_mono; [apply (remove_transaction_surely pbytes fs fs Hs ft Hft)| |done|].
  - cbv beta. intros [] d [Hd Hsl]. split; [done|]. apply HQ. eapply removed_untouched; [|by left].
    by eapply slots_refl.
  - cbv beta. intros d [Hsl|Hsl]; apply slots_refl in Hsl;
      (eapply removed_untouched; [exact Hsl|]); [by right|by left].
Qed.

(** A failed write is undone, or left to the recovery. *)
Lemma asteps_undo_write n error fs ks :
  half fs ks ->
  asteps n (undone ← attempt (_ ← restore_registry_values key (rt_values journal);
                              on_disk (remove_registry_transaction tx));
            match undone with
            | Ok _ => fail error
            | Err _ => fail (new_error RecoveryIncomplete
                               "failed registry mutation could not be rolled back")
            end)
    (fun (_ : ()) _ _ _ _ => False) (fun _ _ fs' ks' g' => rolled_back fs' ks' /\ g' = g)
    rolled_back fs ks g.
Proof.
  intros [Hs Hm]. apply asteps_bind, asteps_attempt, asteps_bind.
  assert (is_Some (ks !! key)) as Hk
    by (destruct Hm as (vs & -> & _); rewrite lookup_insert_eq; by eexists).
  eapply asteps_mono.
  - apply asteps_conj; [by apply asteps_restore_list|].
    apply (rruns_restore key ks0 vs0 (rt_values journal) Hkey
      (journal_previous scope values vs0) [] fs ks Hm).
  - cbv beta. intros [] n' fs' ks' g' [(-> & -> & _) [-> ->]].
    apply asteps_remove_journal; [done|]. intros fs2 Hr. by apply asteps_fail.
  - cbv beta. intros e n' fs' ks' g' [[_ ->] [-> Hm']]. apply asteps_fail. split; [|done].
    by left.
  - cbv beta. intros fs' ks' [_ [-> Hm']]. by left.
Qed.

Lemma asteps_write_values done rest fs :
  values = done ++ rest -> slots tx (Some pbytes) None None fs fs ->
  asteps 1 (write_registry_values key journal rest)
    (fun _ n' fs' ks' g' => n' = 1%nat /\ fs' = fs /\ ks' = kn /\ g' = g)
    (fun _ _ fs' ks' g' => rolled_back fs' ks' /\ g' = g) rolled_back
    fs (<[key := written done vs0]> ks0) g.
Proof.
  revert done. induction rest as [|v rest IH]; intros done Ev Hs; cbn [write_registry_values].
  { apply asteps_pure. rewrite app_nil_r in Ev. by rewrite Ev. }
  assert (done ⊆ values /\ done ++ [v] ⊆ values) as [Hsub Hsub1] by (rewrite Ev; set_solver).
  assert (half fs (<[key := written done vs0]> ks0)) as Hhalf by (split; [done|by apply written_mixed]).
  assert (half fs (<[key := written (done ++ [v]) vs0]> ks0)) as Hhalf1
    by (split; [done|by apply written_mixed]).
  assert (forall n error, asteps n (undone ← attempt (_ ← restore_registry_values key
                                               (rt_values journal);
                              on_disk (remove_registry_transaction tx));
            match undone with
            | Ok _ => fail error
            | Err _ => fail (new_error RecoveryIncomplete
                               "failed registry mutation could not be rolled back")
            end)
    (fun (_ : ()) n' fs' ks' g' => n' = 1%nat /\ fs' = fs /\ ks' = kn /\ g' = g)
    (fun _ _ fs' ks' g' => rolled_back fs' ks' /\ g' = g)
    rolled_back fs (<[key := written done vs0]> ks0) g) as Hundo.
  { intros n error. eapply asteps_mono; [by apply asteps_undo_write|done..]. }
  apply asteps_bind, asteps_attempt. unfold set_registry_value.
  apply asteps_bind, asteps_lift; [intros stored Est|intros e _; apply Hundo].
  apply asteps_bind. unfold RegSetValue.
  eapply asteps_call; [unfold with_values; rewrite lookup_insert_eq; reflexivity| |by left| |].
  - cbv beta iota. apply asteps_lift; [intros [] _|done]. rewrite insert_insert_eq.
    replace (<[registry_name (value_name v) := stored]> (written done vs0))
      with (written (done ++ [v]) vs0).
    + apply IH; [by rewrite <- app_assoc|done].
    + unfold written. rewrite foldl_app. cbn. unfold write_value at 1. by rewrite Est.
  - left. rewrite insert_insert_eq.
    replace (<[registry_name (value_name v) := stored]> (written done vs0))
      with (written (done ++ [v]) vs0); [done|].
    unfold written. rewrite foldl_app. cbn. unfold write_value at 1. by rewrite Est.
  - intros n' k _. cbv beta iota. apply asteps_lift; [|intros e _; apply Hundo].
    intros [] Hk%ensure_Ok. by rewrite (proj1 (access_denied_status k)) in Hk.
Qed.

Context (Haccept : accept g (scope_id scope) record = Ok g1).
Context (Hsave : encode_generations g1 = Ok gbytes).
#[local] Abbreviation gen := registry_generation_path.
#[local] Abbreviation gen_new := (with_extension gen "new").
#[local] Abbreviation gen_bak := (with_extension gen "bak").
#[local] Abbreviation marked :=
  (marked_state scope values ks0 kn vs0 pbytes cbytes gbytes).
#[local] Abbreviation applied := (applied kn gbytes).

Lemma gen_distinct : slots_distinct gen.
Proof. split; by vm_compute. Qed.

Lemma slots_carried p t b fs fs' :
  slots tx p t b fs fs -> (forall q, q ∈ [tx; with_extension tx "new"; with_extension tx "bak"] ->
    fs' !! q = fs !! q) -> slots tx p t b fs' fs'.
Proof.
  intros [E1 E2 E3 _] Hq. split; rewrite ?Hq; try done; by rewrite !elem_of_cons; auto.
Qed.

(** The generation is saved next to the journal. *)
Lemma asteps_accept_and_save n
    (Q : () -> nat -> Files -> Keys -> GenerationRegistry -> Prop) E fs :
  slots tx (Some pbytes) None None fs fs -> fs !! gen_new = None -> fs !! gen_bak = None ->
  (forall fs', slots tx (Some pbytes) None None fs' fs' -> fs' !! gen = Some gbytes ->
     Q tt n fs' kn g1) ->
  asteps n (accept_and_save scope record) Q E rolled_back fs kn g.
Proof.
  intros Hs Hn Hb HQ. unfold accept_and_save.
  apply asteps_bind, asteps_generations, asteps_bind, asteps_lift; rewrite Haccept; [|done].
  intros g' [= <-]. apply asteps_bind, asteps_set_generations, asteps_disk.
  assert (slots gen (fs !! gen) None None fs fs) as Hg by (by split).
  unfold save_generations. rewrite Hsave.
  assert (forall q, q ∈ [tx; with_extension tx "new"; with_extension tx "bak"] ->
            q <> gen /\ q <> gen_new /\ q <> gen_bak) as Hne.
  { intros q. rewrite !elem_of_cons. intros [->|[->|[->|Hq%not_elem_of_nil]]]; [..|done];
      split_and!; by vm_compute. }
  apply surely_bind. eapply surely_lift; [done|].
  intros ft Hft. eapply wp_mono;
    [apply (replace_service_file_surely gen gen_distinct _ gbytes fs fs Hg ft Hft)| |done|].
  - cbv beta. intros [] d [Hd Hsl]. split; [done|]. apply HQ; [|apply Hsl].
    eapply slots_carried; [exact Hs|]. intros q (? & ? & ?)%Hne. by apply Hsl.
  - cbv beta. intros d Hm. left. split; [|apply written_mixed; done].
    eapply slots_carried; [exact Hs|]. intros q (? & ? & ?)%Hne.
    by apply (midway_outside _ _ _ _ _ _ Hm).
Qed.

Lemma asteps_mark n (Q : () -> nat -> Files -> Keys -> GenerationRegistry -> Prop) E fs :
  slots tx (Some pbytes) None None fs fs -> fs !! gen = Some gbytes ->
  (forall fs', slots tx (Some cbytes) None None fs fs' -> Q tt n fs' kn g1) ->
  asteps n (on_disk (write_registry_transaction tx (committed_journal journal))) Q E
    marked fs kn g1.
Proof.
  intros Hs Hg HQ. apply asteps_disk. unfold write_registry_transaction. rewrite Hc.
  apply surely_bind. eapply surely_lift; [done|]. intros ft Hft.
  eapply wp_mono;
    [apply (replace_service_file_surely tx tx_distinct _ cbytes fs fs Hs ft Hft)| |done|].
  - cbv beta. intros [] d [Hd Hsl]. split; [done|]. by apply HQ.
  - cbv beta. intros d Hm. right; left. by exists fs.
Qed.

(** The transaction from its journal to its result. *)
Lemma asteps_commit fs :
  slots tx (Some pbytes) None None fs fs -> fs !! gen_new = None -> fs !! gen_bak = None ->
  asteps 1 (_ ← write_registry_values key journal values;
    previous_generations ← gets rw_generations;
    generation_result ← attempt (accept_and_save scope record);
    match generation_result with
    | Err error =>
        undone ← undo_registry_transaction key journal previous_generations;
        if (undone : bool) then fail error
        else fail (new_error RecoveryIncomplete
                     "registry generation persistence could not be rolled back")
    | Ok _ =>
        marked ← attempt (on_disk (write_registry_transaction tx (committed_journal journal)));
        match marked with
        | Err _ =>
            undone ← undo_registry_transaction key journal previous_generations;
            if (undone : bool)
            then fail (new_error RegistryIo "registry commit marker cannot be persisted")
            else fail (new_error RecoveryIncomplete
                         "registry commit marker failure could not be rolled back")
        | Ok _ =>
            _ ← on_disk (remove_registry_transaction tx);
            pure (length values, rs_generation (registry_set manifest))
        end
    end)
    (fun r _ fs' ks' g' => r = (length values, rs_generation (registry_set manifest))
       /\ applied fs' ks' /\ g' = g1)
    (fun _ _ fs' ks' g' => rolled_back fs' ks' /\ g' = g) marked fs ks0 g.
Proof.
  intros Hs Hn Hb. apply asteps_bind.
  pose proof (asteps_write_values [] values fs eq_refl Hs) as Hw.
  replace (<[key := written [] vs0]> ks0) with ks0 in Hw by (symmetry; by apply insert_id).
  eapply asteps_mono; [exact Hw| |done|by left].
  cbv beta. intros [] n' fs' ks' g' (-> & -> & -> & ->).
  apply asteps_bind, asteps_generations, asteps_bind, asteps_attempt.
  eapply asteps_mono; [apply (asteps_accept_and_save 1 (fun _ n fs' ks' g' =>
      n = 1%nat /\ slots tx (Some pbytes) None None fs' fs' /\ fs' !! gen = Some gbytes
      /\ ks' = kn /\ g' = g1) (fun _ _ _ _ _ => False) fs Hs Hn Hb)| |done|by left].
  { intros fs' Hs' Hg'. done. }
  cbv beta. intros [] n' fs1 ks' g' (-> & Hs1 & Hg1 & -> & ->).
  apply asteps_bind, asteps_attempt.
  apply asteps_mark; [done..|]. intros fs2 Hs2.
  apply asteps_bind, asteps_disk. intros ft Hft.
  assert (fs1 !! gen = Some gbytes -> forall p t b fs3, slots tx p t b fs1 fs3 ->
            fs3 !! gen = Some gbytes) as Hgen
    by (intros Hg ???? Hsl; by rewrite (generation_outside _ _ _ _ _ Hsl)).
  eapply wp_mono; [apply (remove_transaction_surely cbytes fs1 fs2 Hs2 ft Hft)| |done|].
  - cbv beta. intros [] d [Hd Hsl]. split; [done|]. apply asteps_pure. split_and!; [done| |done].
    split; [by destruct Hsl|]. eauto.
  - cbv beta. intros d [Hsl|Hsl].
    + right; left. exists fs1. split_and!; [done|by apply mid_done|done].
    + right; right. split; [by destruct Hsl|]. eauto.
Qed.

Lemma asteps_apply fs :
  gone fs -> fs !! gen_new = None -> fs !! gen_bak = None ->
  asteps 1 (apply_registry_set_transaction scope manifest)
    (fun r _ fs' ks' g' => r = (length values, rs_generation (registry_set manifest))
       /\ applied fs' ks' /\ g' = g1)
    (fun _ _ fs' ks' g' => rolled_back fs' ks' /\ g' = g) marked fs ks0 g.
Proof.
  intros (Gp & Gn & Gb) Hn Hb. assert (slots tx None None None fs fs) as Hs by (by split).
  assert (rolled_back fs ks0) as Hr by (eapply removed_untouched; [exact Hs|by left]).
  unfold apply_registry_set_transaction. apply asteps_bind.
  eapply asteps_create; [exact Hkey| |done|by left]. cbv beta iota.
  apply asteps_bind, asteps_disk. unfold write_registry_transaction. rewrite Hp.
  apply surely_bind. eapply surely_lift; [done|]. intros ft Hft.
  eapply wp_mono;
    [apply (replace_service_file_surely tx tx_distinct _ pbytes fs fs Hs ft Hft)| |done|].
  - cbv beta. intros [] d [Hd Hsl]. split; [done|]. apply asteps_during.
    apply asteps_commit; [by eapply slots_refl|..].
    + rewrite <- Hn. apply Hsl; by vm_compute.
    + rewrite <- Hb. apply Hsl; by vm_compute.
  - cbv beta. intros d Hm. left; right. split; [|done].
    apply (midway_holds tx _ None pbytes fs); [intros c Hpre; by left|done|exact Hm].
Qed.
End applying.

(** ** The main theorem *)

Section atomic.
Context `{RegistryNames, SerdeJsonLaws, Base64, !Reader RegistryTransactionJournal,
          !ReaderLaws RegistryTransactionJournal, !Reader GenerationRegistryDocument}.

(** The service is started again: the files and the registry are what was left. *)
Definition restarted (w w' : RegistryWorld) : Prop :=
  files (rw_disk w') = files (rw_disk w) /\ rw_keys w' = rw_keys w.

(** Recoveries that failed or were cut short, then one that returned. *)
Inductive registry_recovers (scopes : RegistryScopeRegistry)
    : RegistryWorld -> RegistryWorld -> Prop :=
  | registry_recovers_now w w' :
      recover_registry_transaction registry_transaction_path scopes w = (Done (Ok tt), w') ->
      registry_recovers scopes w w'
  | registry_recovers_later w o w1 w2 w' :
      recover_registry_transaction registry_transaction_path scopes w = (o, w1) ->
      o <> Done (Ok tt) -> restarted w1 w2 -> registry_recovers scopes w2 w' ->
      registry_recovers scopes w w'.

Lemma registry_recovers_spec scopes (Inv : Files -> Keys -> Prop) (Fin : Files -> Keys -> Prop)
    w w' :
  (forall fs ks, Inv fs ks -> rruns (recover_registry_transaction registry_transaction_path scopes)
                               (fun _ => Fin) Inv Inv fs ks) ->
  Inv (files (rw_disk w)) (rw_keys w) -> registry_recovers scopes w w' ->
  Fin (files (rw_disk w')) (rw_keys w').
Proof.
  intros Hspec Hi Hr. induction Hr as [w w' E|w o w1 w2 w' E Ho [Hf Hk] _ IH];
    pose proof (Hspec _ _ Hi w eq_refl eq_refl) as Hwp; unfold wp in Hwp; rewrite E in Hwp; [done|].
  apply IH. rewrite Hf, Hk. by destruct o as [[[]|e]| |].
Qed.

(** A registry set can be applied: no transaction is pending, the scope's key
    exists and the documents fit their bounds. *)
Record applicable (scope : RegisteredRegistryScope) (manifest : VerifiedRegistrySet)
    (vs0 : Values) (g1 : GenerationRegistry) (gbytes : list byte) (w : RegistryWorld) : Prop := {
  ap_idle : gone (files (rw_disk w));
  ap_generation_new : files (rw_disk w) !! with_extension registry_generation_path "new" = None;
  ap_generation_bak : files (rw_disk w) !! with_extension registry_generation_path "bak" = None;
  ap_key : rw_keys w !! scope_key (subkey scope) (view scope) = Some vs0;
  ap_accepted : accept (rw_generations w) (scope_id scope)
    {| generation := rs_generation (registry_set manifest); digest := vrs_digest manifest |} = Ok g1;
  ap_saved : encode_generations g1 = Ok gbytes;
  ap_journal : forall p, p = PhasePrepared \/ p = PhaseCommitted ->
    is_ok (encode_registry_transaction
      (let j := registry_journal scope vs0 (rs_values (registry_set manifest)) in
       match p with PhasePrepared => j | PhaseCommitted => committed_journal j end)) = true;
}.

End atomic.
