(* ===== verification/RegistryFaults.v ===== *)
(** * What the registry transaction does not survive

    A journal whose first write was cut is activated by the file recovery and
    then refused, at every start of the service; and a rollback that fails drops
    the journal that a later recovery would need. *)

From S2P Require Import Prelude Errors Effects Identifiers Json Storage RegistrySet RegistryScopes.
From S2P Require Import Journal Generations WindowsRegistry RegistryTransaction RegistryAtomicity.
From S2P Require Import RegistryApply.

Section stuck.
Context `{RegistryNames, SerdeJsonLaws, !Reader RegistryTransactionJournal}.
#[local] Abbreviation tx := registry_transaction_path.

(** The only trace of the transaction is a cut journal. *)
Definition stuck (c : list byte) (fs : Files) : Prop :=
  slots tx (Some c) None None fs fs \/ slots tx None (Some c) None fs fs.

Lemma recover_stuck j bytes c scopes fs ks :
  encode_registry_transaction j = Ok bytes -> c `prefix_of` bytes -> c <> bytes ->
  stuck c fs ->
  rruns (recover_registry_transaction tx scopes) (fun _ _ _ => False)
    (fun fs' _ => stuck c fs') (fun fs' _ => stuck c fs') fs ks.
Proof.
  intros He Hpre Hne Hst. unfold recover_registry_transaction.
  assert (forall fs', slots tx (Some c) None None fs' fs' ->
    rruns (found ← on_disk (path_exists tx);
      if (found : bool) then
        bytes ← on_disk (read_bounded tx MAX_REGISTRY_TRANSACTION_BYTES);
        bytes ← lift (ok_or bytes RecoveryIncomplete "registry transaction journal cannot be read");
        _ ← replay_registry_transaction bytes scopes;
        on_disk (remove_registry_transaction tx)
      else pure tt) (fun _ _ _ => False)
      (fun fs' _ => stuck c fs') (fun fs' _ => stuck c fs') fs' ks) as Hrest.
  { intros fs' Hs. apply rruns_bind, rruns_disk, runs_exists.
    rewrite (slot_path _ _ _ _ _ _ Hs). cbn.
    apply rruns_bind, rruns_disk, runs_read_bounded. rewrite (slot_path _ _ _ _ _ _ Hs). cbn.
    apply rruns_bind, rruns_lift; [|intros; by left]. intros b Hb. case_match; [|done].
    injection Hb as <-. unfold replay_registry_transaction.
    apply rruns_bind, rruns_bind, rruns_lift; [|intros; by left].
    intros j' Hj'. exfalso. apply Hne. by eapply parse_registry_transaction_cut. }
  apply rruns_bind, rruns_disk. destruct Hst as [Hs|Hs].
  - eapply runs_mono; [apply (recover_clean tx fs (Some c)); apply Hs| |done..].
    cbv beta. intros [] fs' ->. by apply Hrest.
  - assert (slots tx (Some c) None None fs (<[tx := c]> (delete (with_extension tx "new") fs))) as Hm
      by (by apply (slots_new_to_path tx tx_distinct c None None)).
    apply slots_refl in Hm.
    unfold recover_service_file_replacement.
    apply runs_bind, runs_exists, runs_bind, runs_exists, runs_bind, runs_exists.
    rewrite (slot_path _ _ _ _ _ _ Hs), (slot_new _ _ _ _ _ _ Hs), (slot_bak _ _ _ _ _ _ Hs).
    cbn. eapply runs_rename; [apply Hs|by apply Hrest|by left|by right..].
Qed.

(** No recovery ever returns. *)
Lemma stuck_forever j bytes c scopes w w' :
  encode_registry_transaction j = Ok bytes -> c `prefix_of` bytes -> c <> bytes ->
  stuck c (files (rw_disk w)) -> ~ registry_recovers scopes w w'.
Proof.
  intros He Hpre Hne Hst Hr.
  apply (registry_recovers_spec scopes (fun fs _ => stuck c fs) (fun _ _ => False) w w'); [|done..].
  intros fs ks Hs. by eapply recover_stuck.
Qed.

Context `{Base64, !Reader GenerationRegistryDocument}.

(** C39: a crash while the journal of a registry set is written for the first
    time stops the service for good: nothing of the registry was touched yet,
    but the file recovery puts the cut journal in place, its text is refused,
    and no later start-up gets past it. *)
Theorem torn_registry_journal_never_recovers scope manifest key j bytes k w w0 :
  create_registry_transaction scope (rs_values (registry_set manifest)) w
    = (Done (Ok (key, j)), w0) ->
  encode_registry_transaction j = Ok bytes -> (k < length bytes)%nat ->
  gone (files (rw_disk w0)) -> fates (rw_disk w0) = [Works; StopsBefore k] ->
  exists w1, apply_registry_set_transaction scope manifest w = (Crashed, w1) /\
    rw_keys w1 = rw_keys w0 /\
    forall scopes w2 w', restarted w1 w2 -> ~ registry_recovers scopes w2 w'.
Proof.
  intros Hcr He Hk (Gp & Gn & Gb) Hf.
  set (fs := <[with_extension tx "new" := take k bytes]> (files (rw_disk w0))).
  exists (set_disk w0 (mkDisk fs [])). split_and!; [|done|].
  - unfold apply_registry_set_transaction, mbind, M_bind, bind. rewrite Hcr.
    unfold on_disk, write_registry_transaction, mbind, M_bind, bind, lift. rewrite He.
    destruct w0 as [[fs0 ft] ks kf g fl]. cbn in Gp, Gn, Gb, Hf, fs. subst ft.
    unfold replace_service_file, path_exists, gets, mbind, M_bind, bind, lift.
    cbn -[encode_registry_transaction]. rewrite Gn, Gb. cbn. by rewrite insert_insert_eq.
  - intros scopes w2 w' [Hrf _].
    apply (stuck_forever j bytes (take k bytes)); [done|apply prefix_take| |].
    + intros E. apply (f_equal length) in E. rewrite length_take in E. lia.
    + right. rewrite Hrf. cbn. unfold fs. destruct tx_distinct as [? ?].
      pose proof (slots_new_bak tx). split; try done; by simplify_map_eq.
Qed.

(** ** A rollback that fails *)

#[local] Abbreviation gen := registry_generation_path.

(** The generations are saved next to the journal, or refused. *)
Lemma save_generations_beside g t fs ft :
  slots tx t None None fs fs -> fs !! with_extension gen "new" = None ->
  fs !! with_extension gen "bak" = None -> failures ft = 0%nat ->
  let beside d := failures (fates d) = 0%nat /\ slots tx t None None (files d) (files d) in
  wp (save_generations g gen) (fun _ => beside) (fun _ => beside) (fun _ => True) (mkDisk fs ft).
Proof.
  intros Hs Hn Hb Hft beside. unfold save_generations.
  apply wp_bind, wp_lift; [intros bytes _|by intros e _].
  assert (slots gen (fs !! gen) None None fs fs) as Hg by (by split).
  eapply wp_mono; [exact (replace_service_file_surely gen gen_distinct _ bytes fs fs Hg ft Hft)| |done..].
  cbv beta. intros [] d [Hd Hsl]. split; [done|]. eapply slots_carried; [exact Hs|].
  intros q. rewrite !elem_of_cons.
  intros [->|[->|[->|Hq%not_elem_of_nil]]]; [..|done]; apply Hsl; by vm_compute.
Qed.

(** The first call of a restore fails: nothing is restored. *)
Lemma restore_denied key values k w (Q : Result () -> RegistryWorld -> Prop) :
  values <> [] -> head (rw_key_fates w) = Some (Fails k) ->
  Q (Err (new_error RecoveryIncomplete "registry transaction rollback did not complete"))
    (set_key_fates w (tail (rw_key_fates w))) ->
  wp (attempt (restore_registry_values key values)) Q (fun _ _ => False) (fun _ => True) w.
Proof.
  intros Hne Hk HQ. apply wp_attempt. unfold restore_registry_values.
  destruct (rev values) as [|v l] eqn:Er.
  { apply (f_equal (@length _)) in Er. rewrite length_rev in Er. by destruct values. }
  cbn [for_each]. apply wp_bind. unfold restore_registry_value. apply wp_bind.
  destruct (access_denied_status k) as [Hk0 Hk2].
  assert (forall effect, wp (reg_call effect) (fun (r : N * option ()) w' =>
    r.1 = (ERROR_ACCESS_DENIED + N.of_nat k)%N /\ w' = set_key_fates w (tail (rw_key_fates w)))
    (fun _ _ => False) (fun _ => True) w) as Hcall.
  { intros effect. unfold wp, reg_call. rewrite Hk. cbn. by destruct (effect _) as [[??]?]. }
  destruct (rtv_previous v); (eapply wp_mono; [apply Hcall| |done..]); cbv beta;
    intros [st0 a] w' [E ->]; cbn [fst] in E; subst st0; apply wp_lift; try intros e;
    unfold ensure; rewrite Hk0, Hk2, andb_false_r; cbn; by intros [= <-].
Qed.

Lemma undo_denied key j generations b k w :
  rt_values j <> [] -> slots tx (Some b) None None (files (rw_disk w)) (files (rw_disk w)) ->
  files (rw_disk w) !! with_extension gen "new" = None ->
  files (rw_disk w) !! with_extension gen "bak" = None ->
  failures (fates (rw_disk w)) = 0%nat -> head (rw_key_fates w) = Some (Fails k) ->
  wp (undo_registry_transaction key j generations)
    (fun undone w' => undone = false /\ gone (files (rw_disk w')) /\ rw_keys w' = rw_keys w)
    (fun _ _ => False) (fun _ => True) w.
Proof.
  intros Hne Hs Hn Hb Hf Hk. unfold undo_registry_transaction.
  apply wp_bind. unfold wp at 1, modify at 1. apply wp_bind, wp_attempt, wp_on_disk.
  assert (forall r d, failures (fates d) = 0%nat -> slots tx (Some b) None None (files d) (files d) ->
    wp (values_restored ← attempt (restore_registry_values key (rt_values j));
        journal_removed ← attempt (on_disk (remove_registry_transaction tx));
        pure (is_ok (A := ()) r && is_ok values_restored && is_ok journal_removed))
    (fun undone w' => undone = false /\ gone (files (rw_disk w')) /\ rw_keys w' = rw_keys w)
    (fun _ _ => False) (fun _ => True) (set_disk (set_generations generations w) d)) as Hrest.
  { intros r d Hd Hsl. apply wp_bind. eapply (restore_denied _ _ k); [done|done|].
    apply wp_bind, wp_attempt, wp_on_disk. cbn [rw_disk set_key_fates set_disk].
    rewrite <- (disk_eta d). cbn [files fates].
    eapply wp_mono; [exact (remove_transaction_surely b _ _ Hsl _ Hd)| |done..].
    cbv beta. intros [] d' [_ Hgone]. apply wp_pure. rewrite andb_false_r.
    split; [done|]. split; [|done]. by destruct Hgone. }
  rewrite <- (disk_eta (rw_disk (set_generations generations w))).
  eapply wp_mono; [by apply (save_generations_beside generations (Some b))|..]; [| |done]; cbv beta;
    [intros [] d [Hd Hsl]|intros e d [Hd Hsl]]; by apply Hrest.
Qed.

Lemma recovery_finds_nothing scopes w w' :
  gone (files (rw_disk w)) -> registry_recovers scopes w w' -> rw_keys w' = rw_keys w.
Proof.
  intros Hg Hr. refine (proj2 (registry_recovers_spec scopes
    (fun fs ks => gone fs /\ ks = rw_keys w) (fun fs ks => gone fs /\ ks = rw_keys w) w w' _ _ Hr));
    [|done].
  intros fs ks [(Gp & Gn & Gb) ->]. unfold recover_registry_transaction.
  apply rruns_bind, rruns_disk.
  eapply runs_mono; [by apply (recover_clean tx fs None)| |done..].
  cbv beta. intros [] fs' ->. apply rruns_bind, rruns_disk, runs_exists. rewrite Gp. by apply rruns_pure.
Qed.

(** C40: a rollback that cannot restore the values drops the journal all the
    same: it reports that the recovery is incomplete, the registry keeps what
    the set had written, and no later recovery changes it. *)
Theorem failed_rollback_drops_journal key j generations b k w o w1 :
  rt_values j <> [] -> slots tx (Some b) None None (files (rw_disk w)) (files (rw_disk w)) ->
  files (rw_disk w) !! with_extension gen "new" = None ->
  files (rw_disk w) !! with_extension gen "bak" = None ->
  failures (fates (rw_disk w)) = 0%nat -> head (rw_key_fates w) = Some (Fails k) ->
  undo_registry_transaction key j generations w = (o, w1) -> o <> Crashed ->
  o = Done (Ok false) /\ rw_keys w1 = rw_keys w /\
  forall scopes w2 w', restarted w1 w2 -> registry_recovers scopes w2 w' ->
    rw_keys w' = rw_keys w.
Proof.
  intros Hne Hs Hn Hb Hf Hk Hu Ho.
  pose proof (undo_denied key j generations b k w Hne Hs Hn Hb Hf Hk) as Hwp.
  unfold wp in Hwp. rewrite Hu in Hwp. destruct o as [[u|e]| |]; try done.
  destruct Hwp as (-> & Hg & Hkeys). split; [done|]. split; [done|].
  intros scopes w2 w' [Hrf Hrk] Hr. rewrite <- Hkeys, <- Hrk.
  apply (recovery_finds_nothing scopes); [by rewrite Hrf|done].
Qed.
End stuck.
