(* ===== verification/Transaction.v ===== *)
(** * The transaction engine

    src/src/transaction.rs: preparing, committing and recovering a file set over
    the platform interface [TransactionPlatform].  The world of the engine is
    the registered roots, the private job directories of the service, the
    handles a platform keeps open and the fates of the operations still to come;
    the journal has fates of its own. *)

From S2P Require Import Prelude Errors Effects Identifiers Json Trust FileSet Roots Journal.
From S2P Require Import Storage.

(** ** The world *)

Record File := {
  f_snapshot : TargetSnapshot;
  f_data : list byte;
}.

(** What a job keeps in the reserved directory of a root, by index. *)
Record Reserved := {
  rs_prepared : gmap N File;
  rs_backup : gmap N File;
}.

(** A directory tree: regular files by the system's key of their relative path,
    directories and reparse points by their components, and the reserved
    directories of the jobs, by job identifier. *)
Record RootDir := {
  rd_identity : DirectoryIdentity;
  rd_files : gmap string File;
  rd_dirs : gset (list string);
  rd_links : gset (list string);
  rd_reserved : gmap string Reserved;
}.

(** A private job directory: the journal and the verified payloads. *)
Record JobDir := {
  jd_journal : option (list byte);
  jd_payload : gmap N (list byte);
}.

Record World := mkWorld {
  w_roots : gmap string RootDir;
  w_jobs : gmap string JobDir;
  w_fates : list Fate;
  w_journal_fates : list Fate;
  (** the target handles a platform keeps open: the identifier of the root, the
      root's tree and the path *)
  w_handles : gset (string * string * string);
}.

Definition set_roots (w : World) (r : gmap string RootDir) : World :=
  mkWorld r (w_jobs w) (w_fates w) (w_journal_fates w) (w_handles w).
Definition set_jobs (w : World) (j : gmap string JobDir) : World :=
  mkWorld (w_roots w) j (w_fates w) (w_journal_fates w) (w_handles w).
Definition set_fates (w : World) (f : list Fate) : World :=
  mkWorld (w_roots w) (w_jobs w) f (w_journal_fates w) (w_handles w).
Definition set_journal_fates (w : World) (f : list Fate) : World :=
  mkWorld (w_roots w) (w_jobs w) (w_fates w) f (w_handles w).
Definition set_handles (w : World) (h : gset (string * string * string)) : World :=
  mkWorld (w_roots w) (w_jobs w) (w_fates w) (w_journal_fates w) h.

Definition transaction_io : MaintenanceError :=
  new_error TransactionIo "transaction filesystem operation failed".

(** An atomic change; [None] is an error of the system. *)
Definition tx_io (effect : World -> option World) (e : MaintenanceError) : M World () := fun w =>
  let w1 := set_fates w (tail (w_fates w)) in
  match default Works (head (w_fates w)) with
  | Works => match effect w1 with Some w2 => (Done (Ok tt), w2) | None => (Done (Err e), w1) end
  | Fails _ => (Done (Err e), w1)
  | StopsBefore _ => (Crashed, w1)
  | StopsAfter => (Crashed, default w1 (effect w1))
  end.

(** A query of the file system. *)
Definition tx_read {A} (f : World -> Result A) (e : MaintenanceError) : M World A := fun w =>
  let w1 := set_fates w (tail (w_fates w)) in
  match default Works (head (w_fates w)) with
  | Works => (Done (f w1), w1)
  | Fails _ => (Done (Err e), w1)
  | StopsBefore _ | StopsAfter => (Crashed, w1)
  end.

(** A write that may stop after a prefix. *)
Definition tx_write (effect : nat -> World -> option World) (total : nat) (e : MaintenanceError)
    : M World () := fun w =>
  let w1 := set_fates w (tail (w_fates w)) in
  match default Works (head (w_fates w)) with
  | Works =>
      match effect total w1 with Some w2 => (Done (Ok tt), w2) | None => (Done (Err e), w1) end
  | Fails k => (Done (Err e), default w1 (effect k w1))
  | StopsBefore k => (Crashed, default w1 (effect k w1))
  | StopsAfter => (Crashed, default w1 (effect total w1))
  end.

(** ** The platform interface *)

Record MutationEvent := {
  me_before : bool;
  me_kind : string;
  me_path : option string;
}.

(** A reader: the chunks it delivers, [None] for a failed read. *)
Abbreviation Chunks := (list (option (list byte))).

(** The chunks [read] delivers of a file, through a buffer of 64 KiB. *)
Definition BUFFER_BYTES : nat := 64 * 1024.

Fixpoint chunks_of (fuel : nat) (data : list byte) : list (list byte) :=
  match fuel, data with
  | S fuel', _ :: _ => take BUFFER_BYTES data :: chunks_of fuel' (drop BUFFER_BYTES data)
  | _, _ => []
  end.

Definition file_chunks (data : list byte) : Chunks := Some <$> chunks_of (length data) data.

(** [trait TransactionPlatform], with [trait MutationFaultInjector]. *)
Class TransactionPlatform := {
  uses_atomic_replacement : bool;
  atomic_replace_target :
    RegisteredRoot -> string -> N -> string -> option TargetSnapshot -> M World bool;
  atomic_restore_backup : RegisteredRoot -> string -> N -> string -> M World bool;
  verify_root_identity : RegisteredRoot -> M World ();
  root_is_missing : RegisteredRoot -> M World bool;
  available_space : string -> M World N;
  same_volume : string -> string -> M World bool;
  open_staging_payload : string -> string -> M World Chunks;
  inspect_target : RegisteredRoot -> string -> M World (option TargetSnapshot);
  prepare_target_payload : RegisteredRoot -> string -> N -> M World Chunks -> FileEntry -> M World ();
  rename_target_to_backup :
    RegisteredRoot -> string -> N -> string -> TargetSnapshot -> M World ();
  rename_prepared_to_target : RegisteredRoot -> string -> N -> string -> M World ();
  backup_exists : RegisteredRoot -> string -> N -> M World bool;
  delete_target : RegisteredRoot -> string -> M World ();
  restore_backup : RegisteredRoot -> string -> N -> string -> M World ();
  cleanup_job : RegisteredRoot -> string -> M World ();
  checkpoint : MutationEvent -> M World ();
}.

(** ** Journal and private directory *)

Section private.
Context `{SerdeJson}.

(** Appends bytes to the journal; an interrupted append leaves a prefix. *)
Definition journal_append (job : string) (bytes : list byte) : M World () := fun w =>
  let w1 := set_journal_fates w (tail (w_journal_fates w)) in
  let appended k :=
    d ← w_jobs w !! job; b ← jd_journal d;
    Some (set_jobs w1 (<[job := {| jd_journal := Some (b ++ take k bytes);
                                   jd_payload := jd_payload d |}]> (w_jobs w))) in
  match default Works (head (w_journal_fates w)) with
  | Works =>
      match appended (length bytes) with
      | Some w2 => (Done (Ok tt), w2)
      | None => (Done (Err transaction_io), w1)
      end
  | Fails k => (Done (Err transaction_io), default w1 (appended k))
  | StopsBefore k => (Crashed, default w1 (appended k))
  | StopsAfter => (Crashed, default w1 (appended (length bytes)))
  end.

Definition append_state (job : string) (state : JournalState) : M World () :=
  line ← lift (state_line state);
  journal_append job line.

(** [create_new], then the header and the first state, then the flush. *)
Definition write_new_journal (job : string) (header : JournalHeader) : M World () :=
  bytes ← lift (new_journal_bytes header);
  _ ← tx_io (fun w =>
        d ← w_jobs w !! job;
        match jd_journal d with
        | Some _ => None
        | None => Some (set_jobs w (<[job := {| jd_journal := Some [];
                                                jd_payload := jd_payload d |}]> (w_jobs w)))
        end) transaction_io;
  journal_append job bytes.

(** [fs::create_dir] of the job directory and of its payload directory. *)
Definition create_job_directory (job : string) : M World () :=
  tx_io (fun w =>
    match w_jobs w !! job with
    | Some _ => None
    | None => Some (set_jobs w (<[job := {| jd_journal := None; jd_payload := ∅ |}]> (w_jobs w)))
    end) (new_error TransactionConflict "a transaction with this manifest already exists").

(** [fs::remove_dir_all] of a private job directory: the journal first. *)
Definition remove_job_directory (job : string) : M World () :=
  _ ← tx_io (fun w => d ← w_jobs w !! job;
        Some (set_jobs w (<[job := {| jd_journal := None; jd_payload := jd_payload d |}]>
                            (w_jobs w)))) transaction_io;
  tx_io (fun w => Some (set_jobs w (delete job (w_jobs w)))) transaction_io.
End private.

(** ** Verified copies *)

Section copying.
Context `{Crypto}.

(** The loop of [copy_reader_verified]: [total] bytes were read and hashed so
    far; [write] appends to the destination. *)
Fixpoint copy_chunks (write : list byte -> M World ()) (size : N) (total : N)
    (hashed : list byte) (chunks : Chunks) : M World (N * list byte) :=
  match chunks with
  | [] => pure (total, hashed)
  | None :: _ => fail (new_error StagingInvalid "staging payload read failed")
  | Some chunk :: chunks' =>
      if (length chunk =? 0)%nat then pure (total, hashed)
      else
        total ← lift (ok_or (checked_add u64_max total (N.of_nat (length chunk)))
                  StagingInvalid "staging payload size overflowed");
        _ ← lift (ensure (total <=? size)%N StagingInvalid
              "staging payload is larger than the signed size");
        _ ← write chunk;
        copy_chunks write size total (hashed ++ chunk) chunks'
  end.

(** [create] makes the new destination file, [flush] flushes it. *)
Definition copy_reader_verified (source : Chunks) (create : M World ())
    (write : list byte -> M World ()) (flush : M World ()) (expected : FileEntry)
    : M World () :=
  _ ← create;
  '(total, hashed) ← copy_chunks write (fe_size expected) 0 [] source;
  digest ← lift (if (total =? fe_size expected)%N
                 then decode_lower_hex 32 (fe_sha256 expected) FileSetHash else Ok []);
  _ ← lift (ensure ((total =? fe_size expected)%N && bool_decide (sha256 hashed = digest))
        StagingInvalid "staging payload size or SHA-256 does not match the file set");
  flush.
End copying.

(** The payload [index] of a job's private directory as a destination. *)
Definition create_payload (job : string) (index : N) : M World () :=
  tx_io (fun w => d ← w_jobs w !! job;
    match jd_payload d !! index with
    | Some _ => None
    | None => Some (set_jobs w (<[job := {| jd_journal := jd_journal d;
                                            jd_payload := <[index := []]> (jd_payload d) |}]>
                                 (w_jobs w)))
    end) transaction_io.

Definition write_payload (job : string) (index : N) (bytes : list byte) : M World () :=
  tx_write (fun k w => d ← w_jobs w !! job; c ← jd_payload d !! index;
    Some (set_jobs w (<[job := {| jd_journal := jd_journal d;
                                  jd_payload := <[index := c ++ take k bytes]> (jd_payload d) |}]>
                       (w_jobs w)))) (length bytes) transaction_io.

(** Flushing files that are thrown away unless the job is prepared. *)
Definition flush_file : M World () := tx_io Some transaction_io.

(** ** The engine *)

Record CommitResult := {
  cr_job_id : string;
  cr_generation : N;
  cleanup_pending : bool;
}.

Record RecoveryResult := {
  discarded_prepared_jobs : list string;
  rolled_back_jobs : list string;
  committed_jobs : list string;
}.

(** A prepared job: its header; the paths of its directory and journal follow
    from the job identifier. *)
Abbreviation PreparedJob := JournalHeader.

Section engine.
Context `{SerdeJson, UnicodeCase, Crypto, TransactionPlatform}.

Definition run_mutation (kind : string) (path : option string) (operation : M World ())
    : M World () :=
  _ ← checkpoint {| me_before := true; me_kind := kind; me_path := path |};
  _ ← operation;
  checkpoint {| me_before := false; me_kind := kind; me_path := path |}.

(** [target_exists]: the provided method of the trait. *)
Definition target_exists (root : RegisteredRoot) (path : string) : M World bool :=
  target ← inspect_target root path;
  pure (bool_decide (is_Some target)).

(** *** Preparing *)

Definition ensure_available_space (data_directory : string) (root : RegisteredRoot)
    (required : N) : M World () :=
  same ← same_volume data_directory (canonical_path root);
  private_required ← lift (if (same : bool)
                           then ok_or (checked_mul u64_max required 2) InsufficientSpace
                                  "same-volume staging requirement overflowed"
                           else Ok required);
  space ← available_space data_directory;
  enough ← (if (space <? private_required)%N then pure false
            else if (same : bool) then pure true
            else root_space ← available_space (canonical_path root);
                 pure (negb (root_space <? required)%N));
  lift (ensure enough InsufficientSpace
    "private staging or registered root has insufficient free space").

Definition declared_size (files : list FileEntry) : option N :=
  foldl (fun total e => t ← total; checked_add u64_max t (fe_size e)) (Some 0%N) files.

(** [u32::try_from]. *)
Definition to_u32 (n : nat) : option N :=
  if (N.of_nat n <=? u32_max)%N then Some (N.of_nat n) else None.

(** The journal entries of the files, then of the removals, from an index on. *)
Fixpoint replace_entries (root : RegisteredRoot) (index : nat) (files : list FileEntry)
    : M World (list JournalEntry) :=
  match files with
  | [] => pure []
  | e :: files' =>
      i ← lift (ok_or (to_u32 index) TransactionState "prepared index overflowed");
      target ← inspect_target root (fe_path e);
      rest ← replace_entries root (S index) files';
      pure ({| action := Replace; original := target; je_path := fe_path e;
               prepared_index := Some i; transaction_index := i |} :: rest)
  end.

Fixpoint remove_entries (root : RegisteredRoot) (index : nat) (paths : list string)
    : M World (list JournalEntry) :=
  match paths with
  | [] => pure []
  | p :: paths' =>
      i ← lift (ok_or (to_u32 index) TransactionState "transaction index overflowed");
      target ← inspect_target root p;
      rest ← remove_entries root (S index) paths';
      pure ({| action := Remove; original := target; je_path := p;
               prepared_index := None; transaction_index := i |} :: rest)
  end.

(** Opening a private payload for reading. *)
Definition open_payload (job : string) (index : N) : M World Chunks :=
  tx_read (fun w =>
    data ← ok_or (d ← w_jobs w !! job; jd_payload d !! index) TransactionIo
             "transaction filesystem operation failed";
    Ok (file_chunks data)) transaction_io.

Definition prepare_job_contents (manifest : VerifiedFileSet) (root : RegisteredRoot)
    (staging job : string) : M World JournalHeader :=
  let files := fs_files (file_set manifest) in
  let removals := fs_remove_files (file_set manifest) in
  _ ← for_each (fun '(index, e) =>
        source ← open_staging_payload staging (fe_path e);
        copy_reader_verified source (create_payload job index) (write_payload job index)
          flush_file e) (imap (fun i e => (N.of_nat i, e)) files);
  replaced ← replace_entries root 0 files;
  removed ← remove_entries root (length files) removals;
  let header := {| entries := replaced ++ removed;
                   jh_generation := fs_generation (file_set manifest);
                   jh_job_id := job; manifest_digest := encode_hex (vfs_digest manifest);
                   jh_root := root; jh_schema := JOURNAL_SCHEMA |} in
  _ ← write_new_journal job header;
  _ ← for_each (fun '(index, e) =>
        i ← lift (ok_or (to_u32 index) TransactionState "prepared index overflowed");
        prepare_target_payload root job i (open_payload job i) e)
        (imap (fun i e => (i, e)) files);
  pure header.

Definition prepare_file_set (data_directory : string) (manifest : VerifiedFileSet)
    (root : RegisteredRoot) (staging : string) : M World PreparedJob :=
  _ ← verify_root_identity root;
  _ ← lift (ensure (bool_decide (fs_product_id (file_set manifest) = root_product_id root))
        ProductMismatch "verified file set belongs to another registered product");
  _ ← lift (ensure (path_is_absolute staging) StagingInvalid
        "staging directory must be absolute");
  size ← lift (ok_or (declared_size (fs_files (file_set manifest))) InsufficientSpace
           "declared payload size overflowed");
  _ ← ensure_available_space data_directory root size;
  let job := format_job_id (root_id root) (fs_generation (file_set manifest))
               (vfs_digest manifest) in
  _ ← create_job_directory job;
  result ← attempt (prepare_job_contents manifest root staging job);
  match result with
  | Ok header => pure header
  | Err error => _ ← attempt (cleanup_job root job); fail error
  end.

(** *** Committing *)

Definition verify_original_snapshots (prepared : PreparedJob) : M World () :=
  for_each (fun e =>
    current ← inspect_target (jh_root prepared) (je_path e);
    lift (ensure (bool_decide (current = original e)) RootIdentity
      "target identity changed between prepare and commit")) (entries prepared).

Definition apply_entry (prepared : PreparedJob) (e : JournalEntry) : M World () :=
  let root := jh_root prepared in
  let job := jh_job_id prepared in
  if bool_decide (action e = Replace) && uses_atomic_replacement then
    run_mutation "AtomicReplaceTarget" (Some (je_path e))
      (done ← atomic_replace_target root job (transaction_index e) (je_path e) (original e);
       lift (ensure done TransactionState "atomic replacement platform refused its operation"))
  else
    _ ← match original e with
        | Some snapshot =>
            run_mutation "RenameTargetToBackup" (Some (je_path e))
              (rename_target_to_backup root job (transaction_index e) (je_path e) snapshot)
        | None => pure tt
        end;
    if bool_decide (action e = Replace) then
      index ← lift (ok_or (prepared_index e) TransactionState
                "replacement journal entry has no prepared index");
      run_mutation "RenamePreparedToTarget" (Some (je_path e))
        (rename_prepared_to_target root job index (je_path e))
    else pure tt.

Definition apply_entries (prepared : PreparedJob) : M World () :=
  for_each (apply_entry prepared) (entries prepared).

Definition rollback_entry (prepared : PreparedJob) (e : JournalEntry) : M World () :=
  let root := jh_root prepared in
  let job := jh_job_id prepared in
  let index := transaction_index e in
  has_backup ← (if bool_decide (is_Some (original e)) then backup_exists root job index
                else pure false);
  if (has_backup : bool) then
    if uses_atomic_replacement then
      run_mutation "AtomicRestoreBackup" (Some (je_path e))
        (done ← atomic_restore_backup root job index (je_path e);
         lift (ensure done TransactionState "atomic rollback platform refused its operation"))
    else
      found ← target_exists root (je_path e);
      _ ← (if (found : bool)
           then run_mutation "DeleteTarget" (Some (je_path e)) (delete_target root (je_path e))
           else pure tt);
      run_mutation "RestoreBackup" (Some (je_path e))
        (restore_backup root job index (je_path e))
  else if bool_decide (original e = None) then
    found ← target_exists root (je_path e);
    if (found : bool)
    then run_mutation "DeleteTarget" (Some (je_path e)) (delete_target root (je_path e))
    else pure tt
  else pure tt.

Definition rollback_entries (prepared : PreparedJob) : M World () :=
  _ ← verify_root_identity (jh_root prepared);
  for_each (rollback_entry prepared) (rev (entries prepared)).

Definition cleanup_prepared_job (prepared : PreparedJob) : M World () :=
  run_mutation "CleanupJob" None (cleanup_job (jh_root prepared) (jh_job_id prepared)).

(** The rollback of a commit: [None] when it is complete. *)
Definition roll_back_commit (prepared : PreparedJob) (detail : string) : M World () :=
  let incomplete := new_error RecoveryIncomplete detail in
  _ ← attempt (append_state (jh_job_id prepared) RollingBack);
  rolled_back ← attempt (rollback_entries prepared);
  match rolled_back with
  | Err _ => fail incomplete
  | Ok _ =>
      cleaned ← attempt (cleanup_prepared_job prepared);
      match cleaned with Err _ => fail incomplete | Ok _ => pure tt end
  end.

Definition commit_file_set (prepared : PreparedJob) : M World CommitResult :=
  _ ← verify_root_identity (jh_root prepared);
  _ ← verify_original_snapshots prepared;
  _ ← append_state (jh_job_id prepared) Committing;
  applied ← attempt (apply_entries prepared);
  match applied with
  | Err commit_error =>
      _ ← roll_back_commit prepared "commit failed and rollback must be resumed by recovery";
      fail commit_error
  | Ok _ =>
      committed ← attempt (append_state (jh_job_id prepared) Committed);
      match committed with
      | Err _ =>
          _ ← roll_back_commit prepared
                "journal commit failed and rollback must be resumed by recovery";
          fail (new_error TransactionIo "committed journal state could not be persisted")
      | Ok _ =>
          cleaned ← attempt (cleanup_prepared_job prepared);
          pure {| cr_job_id := jh_job_id prepared; cr_generation := jh_generation prepared;
                  cleanup_pending := is_err cleaned |}
      end
  end.

(** *** Recovering *)

Context `{!Reader JournalHeader, !Reader JournalStateRecord}.

Definition no_recovery : RecoveryResult :=
  {| discarded_prepared_jobs := []; rolled_back_jobs := []; committed_jobs := [] |}.
Definition discard (r : RecoveryResult) (job : string) : RecoveryResult :=
  {| discarded_prepared_jobs := discarded_prepared_jobs r ++ [job];
     rolled_back_jobs := rolled_back_jobs r; committed_jobs := committed_jobs r |}.
Definition roll_back (r : RecoveryResult) (job : string) : RecoveryResult :=
  {| discarded_prepared_jobs := discarded_prepared_jobs r;
     rolled_back_jobs := rolled_back_jobs r ++ [job]; committed_jobs := committed_jobs r |}.
Definition commit (r : RecoveryResult) (job : string) : RecoveryResult :=
  {| discarded_prepared_jobs := discarded_prepared_jobs r;
     rolled_back_jobs := rolled_back_jobs r; committed_jobs := committed_jobs r ++ [job] |}.

(** [cleanup_private_prepared_job]: the root is gone, only the private directory is left. *)
Definition cleanup_private_prepared_job (prepared : PreparedJob) : M World () :=
  run_mutation "CleanupJob" None
    (found ← tx_read (fun w => Ok (bool_decide (is_Some (w_jobs w !! jh_job_id prepared))))
               transaction_io;
     if (found : bool) then remove_job_directory (jh_job_id prepared) else pure tt).

Definition recover_prepared (result : RecoveryResult) (prepared : PreparedJob)
    (state : JournalState) : M World RecoveryResult :=
  let job := jh_job_id prepared in
  match state with
  | Prepared =>
      _ ← cleanup_prepared_job prepared;
      pure (discard result job)
  | Committing | RollingBack =>
      _ ← (if bool_decide (state = Committing) then append_state job RollingBack else pure tt);
      _ ← rollback_entries prepared;
      _ ← cleanup_prepared_job prepared;
      pure (roll_back result job)
  | Committed =>
      _ ← cleanup_prepared_job prepared;
      pure (commit result job)
  end.

(** One directory of the loop of [recover_incomplete_with_policy]. *)
Definition recover_job (result : RecoveryResult) (directory : string)
    : M World RecoveryResult :=
  journal ← tx_read (fun w => Ok (d ← w_jobs w !! directory; jd_journal d)) transaction_io;
  match journal with
  | None =>
      _ ← remove_job_directory directory;
      pure (discard result directory)
  | Some bytes =>
      '(prepared, state) ← lift (read_journal bytes);
      _ ← lift (ensure (bool_decide (directory = jh_job_id prepared)) RecoveryIncomplete
            "transaction directory does not match journal job ID");
      identity ← attempt (verify_root_identity (jh_root prepared));
      match identity with
      | Err identity_error =>
          missing ← (if bool_decide (state = Prepared) then root_is_missing (jh_root prepared)
                     else pure false);
          if (missing : bool) then
            _ ← cleanup_private_prepared_job prepared;
            pure (discard result (jh_job_id prepared))
          else fail identity_error
      | Ok _ => recover_prepared result prepared state
      end
  end.

Fixpoint recover_jobs (result : RecoveryResult) (directories : list string)
    : M World RecoveryResult :=
  match directories with
  | [] => pure result
  | d :: directories' =>
      result ← recover_job result d;
      recover_jobs result directories'
  end.

(** The directories in the order of their names. *)
Definition recover_incomplete : M World RecoveryResult :=
  directories ← tx_read (fun w => Ok (sort_keys (map_to_list (w_jobs w)).*1)) transaction_io;
  recover_jobs no_recovery directories.
End engine.
