(* ===== verification/LocalPlatform.v ===== *)
(** * The local transaction platform

    [LocalTransactionPlatform] of src/src/transaction.rs, the provided methods
    of the trait: the [local_*] functions and the checks they share, over the
    directory trees of Transaction.  Which names the file system takes for the
    same file, and what it records for a new file, are operations of classes. *)

From S2P Require Import Prelude Errors Effects Identifiers Json Trust FileSet Roots Journal.
From S2P Require Import Storage Transaction.

Definition RESERVED_ROOT_DIRECTORY : string := ".7launcher-maintenance".

(** The file system's key of a relative path: two paths name the same file
    exactly when their keys are equal (the comparison ignores case). *)
Class FileNames := fs_key : string -> string.

(** The metadata the file system gives to a new file. *)
Class NewFiles := new_snapshot : World -> list byte -> TargetSnapshot.

Section local.
Context `{UnicodeCase, Crypto, FileNames, NewFiles}.

Definition root_dir (w : World) (root : RegisteredRoot) : option RootDir :=
  w_roots w !! canonical_path root.

(** A change of the tree of a root. *)
Definition update_root (root : RegisteredRoot) (f : RootDir -> option RootDir) (w : World)
    : option World :=
  d ← root_dir w root; d' ← f d;
  Some (set_roots w (<[canonical_path root := d']> (w_roots w))).

Definition with_files (d : RootDir) (files : gmap string File) : RootDir :=
  {| rd_identity := rd_identity d; rd_files := files; rd_dirs := rd_dirs d;
     rd_links := rd_links d; rd_reserved := rd_reserved d |}.
Definition with_dirs (d : RootDir) (dirs : gset (list string)) : RootDir :=
  {| rd_identity := rd_identity d; rd_files := rd_files d; rd_dirs := dirs;
     rd_links := rd_links d; rd_reserved := rd_reserved d |}.
Definition with_reserved (d : RootDir) (r : gmap string Reserved) : RootDir :=
  {| rd_identity := rd_identity d; rd_files := rd_files d; rd_dirs := rd_dirs d;
     rd_links := rd_links d; rd_reserved := r |}.

(** The prefixes of a list of components, the shortest first. *)
Definition prefixes (components : list string) : list (list string) :=
  (fun n => take n components) <$> seq 1 (length components).

Definition path_of (components : list string) : string :=
  of_bytes (join_with "/" (as_bytes <$> components)).

(** [checked_descendant]: no component of the path may be a reparse point. *)
Definition checked_descendant (d : option RootDir) (path : string) (c : ErrorCode)
    : Result () :=
  _ ← validate_relative_path path;
  match d with
  | None => Ok tt
  | Some d =>
      ensure (negb (existsb (fun p => bool_decide (p ∈ rd_links d))
                      (prefixes (path_components path))))
        c "path traversal encountered a reparse point"
  end.

(** [validate_regular_file_metadata] at a path that is not a reparse point. *)
Definition validate_regular_file (d : RootDir) (path : string) (c : ErrorCode) : Result () :=
  ensure (negb (bool_decide (path_components path ∈ rd_dirs d)))
    c "file is not a safe single-link regular file".

Definition local_verify_root_identity (root : RegisteredRoot) : M World () :=
  tx_read (fun w =>
    d ← ok_or (root_dir w root) RootIdentity "registered root cannot be reopened";
    _ ← ensure (negb (bool_decide ([] ∈ rd_links d))) RootIdentity
          "registered root canonical path changed";
    ensure (bool_decide (rd_identity d = identity root)) RootIdentity
      "registered root identity or reparse status changed")
    (new_error RootIdentity "registered root metadata is unavailable").

(** A query whose errors count as a negative answer. *)
Definition tx_query (f : World -> bool) : M World bool :=
  answer ← attempt (tx_read (fun w => Ok (f w)) transaction_io);
  pure (match answer with Ok b => b | Err _ => false end).

(** [Path::exists]; as in Storage it answers truthfully. *)
Definition tx_exists (f : World -> bool) : M World bool := gets f.

Definition local_root_is_missing (root : RegisteredRoot) : M World bool :=
  tx_query (fun w => bool_decide (root_dir w root = None)).

Definition local_open_staging_payload (staging path : string) : M World Chunks :=
  _ ← lift (validate_relative_path path);
  tx_read (fun w =>
    d ← ok_or (w_roots w !! staging) StagingInvalid "staging directory cannot be canonicalized";
    _ ← ensure (negb (bool_decide ([] ∈ rd_links d))) StagingInvalid
          "directory is not a safe non-reparse directory";
    _ ← checked_descendant (Some d) path StagingInvalid;
    _ ← validate_regular_file d path StagingInvalid;
    file ← ok_or (rd_files d !! fs_key path) StagingInvalid "staging payload does not exist";
    Ok (file_chunks (f_data file)))
    (new_error StagingInvalid "staging payload cannot be opened").

Definition local_inspect_target (root : RegisteredRoot) (path : string)
    : M World (option TargetSnapshot) :=
  _ ← lift (validate_relative_path path);
  tx_read (fun w =>
    _ ← checked_descendant (root_dir w root) path RootIdentity;
    match root_dir w root with
    | None => Ok None
    | Some d =>
        match rd_files d !! fs_key path with
        | Some file => Ok (Some (f_snapshot file))
        | None => _ ← validate_regular_file d path RootIdentity; Ok None
        end
    end) (new_error RootIdentity "target metadata cannot be inspected").

(** *** Directories *)

Inductive DirectoryState := IsDirectory | IsMissing | IsUnsafe.

Definition directory_state (d : option RootDir) (components : list string) : DirectoryState :=
  match d with
  | None => IsMissing
  | Some d =>
      if bool_decide (components ∈ rd_links d)
         || bool_decide (is_Some (rd_files d !! fs_key (path_of components))) then IsUnsafe
      else if bool_decide (components ∈ rd_dirs d) then IsDirectory else IsMissing
  end.

Definition create_directory (root : RegisteredRoot) (components : list string) : M World () :=
  tx_io (update_root root (fun d => Some (with_dirs d ({[ components ]} ∪ rd_dirs d))))
    transaction_io.

Definition ensure_directory (root : RegisteredRoot) (unsafe : MaintenanceError)
    (components : list string) : M World () :=
  state ← tx_read (fun w => Ok (directory_state (root_dir w root) components))
            (new_error RootIdentity "target parent cannot be inspected");
  match state with
  | IsDirectory => pure tt
  | IsUnsafe => fail unsafe
  | IsMissing => create_directory root components
  end.

Definition ensure_target_parent (root : RegisteredRoot) (path : string) : M World () :=
  _ ← lift (validate_relative_path path);
  for_each (ensure_directory root
      (new_error RootIdentity "target parent contains an unsafe component"))
    (prefixes (removelast (path_components path))).

Definition job_components (job : string) : list string := [RESERVED_ROOT_DIRECTORY; "jobs"; job].

Definition empty_reserved : Reserved := {| rs_prepared := ∅; rs_backup := ∅ |}.

(** [ensure_reserved_leaf_directory]. *)
Definition ensure_reserved_leaf_directory (root : RegisteredRoot) (job leaf : string)
    : M World () :=
  _ ← lift (ensure (valid_internal_job_id job && bool_decide (leaf ∈ ["prepared"; "backup"]))
        TransactionState "reserved transaction path is invalid");
  _ ← for_each (ensure_directory root
          (new_error RootIdentity "reserved transaction path contains an unsafe component"))
        (prefixes (job_components job ++ [leaf]));
  tx_io (update_root root (fun d =>
    match rd_reserved d !! job with
    | Some _ => Some d
    | None => Some (with_reserved d (<[job := empty_reserved]> (rd_reserved d)))
    end)) transaction_io.

(** [validate_reserved_job_directory]. *)
Definition validate_reserved_job_directory (root : RegisteredRoot) (job : string)
    : M World () :=
  _ ← lift (ensure (valid_internal_job_id job) RecoveryIncomplete
        "transaction job ID is invalid");
  tx_read (fun w =>
    match root_dir w root with
    | None => Ok tt
    | Some d =>
        ensure (negb (existsb (fun p => bool_decide (p ∈ rd_links d))
                        (prefixes (job_components job))))
          RootIdentity "reserved transaction directory is not safe"
    end) (new_error RootIdentity "reserved transaction directory cannot be inspected").

(** *** Files *)

Definition reserved_of (d : RootDir) (job : string) : Reserved :=
  default empty_reserved (rd_reserved d !! job).

Definition set_prepared (d : RootDir) (job : string) (m : gmap N File) : RootDir :=
  with_reserved d (<[job := {| rs_prepared := m; rs_backup := rs_backup (reserved_of d job) |}]>
                     (rd_reserved d)).
Definition set_backup (d : RootDir) (job : string) (m : gmap N File) : RootDir :=
  with_reserved d (<[job := {| rs_prepared := rs_prepared (reserved_of d job); rs_backup := m |}]>
                     (rd_reserved d)).

Definition create_prepared (root : RegisteredRoot) (job : string) (index : N) : M World () :=
  tx_io (fun w => update_root root (fun d =>
    let prepared := rs_prepared (reserved_of d job) in
    match prepared !! index with
    | Some _ => None
    | None => Some (set_prepared d job
                (<[index := {| f_snapshot := new_snapshot w []; f_data := [] |}]> prepared))
    end) w) transaction_io.

Definition write_prepared (root : RegisteredRoot) (job : string) (index : N)
    (bytes : list byte) : M World () :=
  tx_write (fun k w => update_root root (fun d =>
    let prepared := rs_prepared (reserved_of d job) in
    f ← prepared !! index;
    let data := f_data f ++ take k bytes in
    Some (set_prepared d job
      (<[index := {| f_snapshot := new_snapshot w data; f_data := data |}]> prepared))) w)
    (length bytes) transaction_io.

Definition local_prepare_target_payload (root : RegisteredRoot) (job : string) (index : N)
    (open_payload : M World Chunks) (expected : FileEntry) : M World () :=
  _ ← ensure_reserved_leaf_directory root job "prepared";
  source ← open_payload;
  copy_reader_verified source (create_prepared root job index) (write_prepared root job index)
    flush_file expected.

Definition local_rename_target_to_backup (root : RegisteredRoot) (job : string) (index : N)
    (path : string) (expected : TargetSnapshot) : M World () :=
  current ← local_inspect_target root path;
  _ ← lift (ensure (bool_decide (current = Some expected)) RootIdentity
        "target identity changed before backup rename");
  _ ← ensure_reserved_leaf_directory root job "backup";
  present ← tx_exists (fun w => bool_decide (is_Some
               (d ← root_dir w root; rs_backup (reserved_of d job) !! index)));
  _ ← lift (ensure (negb present) TransactionConflict "transaction backup already exists");
  tx_io (update_root root (fun d =>
    f ← rd_files d !! fs_key path;
    Some (set_backup (with_files d (delete (fs_key path) (rd_files d))) job
            (<[index := f]> (rs_backup (reserved_of d job)))))) transaction_io.

(** A rename of a reserved file to the target. *)
Definition local_rename_prepared_to_target (root : RegisteredRoot) (job : string) (index : N)
    (path : string) : M World () :=
  current ← local_inspect_target root path;
  _ ← lift (ensure (bool_decide (current = None)) TransactionConflict
        "target exists before prepared rename");
  _ ← tx_read (fun w => ok_or (d ← root_dir w root; rs_prepared (reserved_of d job) !! index)
        TransactionIo "transaction filesystem operation failed") transaction_io;
  _ ← ensure_target_parent root path;
  tx_io (update_root root (fun d =>
    f ← rs_prepared (reserved_of d job) !! index;
    Some (set_prepared (with_files d (<[fs_key path := f]> (rd_files d))) job
            (delete index (rs_prepared (reserved_of d job)))))) transaction_io.

Definition local_backup_exists (root : RegisteredRoot) (job : string) (index : N)
    : M World bool :=
  _ ← validate_reserved_job_directory root job;
  tx_read (fun w => Ok (bool_decide (is_Some
    (d ← root_dir w root; rs_backup (reserved_of d job) !! index))))
    (new_error TransactionIo "transaction backup cannot be inspected").

Definition local_delete_target (root : RegisteredRoot) (path : string) : M World () :=
  current ← local_inspect_target root path;
  match current with
  | None => pure tt
  | Some _ =>
      tx_io (update_root root (fun d =>
        Some (with_files d (delete (fs_key path) (rd_files d)))))
        (new_error TransactionIo "transaction target delete failed")
  end.

Definition local_restore_backup (root : RegisteredRoot) (job : string) (index : N)
    (path : string) : M World () :=
  current ← local_inspect_target root path;
  _ ← lift (ensure (bool_decide (current = None)) TransactionConflict
        "target exists before backup restore");
  _ ← tx_read (fun w => ok_or (d ← root_dir w root; rs_backup (reserved_of d job) !! index)
        TransactionIo "transaction filesystem operation failed") transaction_io;
  _ ← ensure_target_parent root path;
  tx_io (update_root root (fun d =>
    f ← rs_backup (reserved_of d job) !! index;
    Some (set_backup (with_files d (<[fs_key path := f]> (rd_files d))) job
            (delete index (rs_backup (reserved_of d job)))))) transaction_io.

(** [fs::remove_dir_all] of the reserved directory: file by file, then the directory. *)
Definition remove_reserved (root : RegisteredRoot) (job : string) : M World () :=
  files ← tx_read (fun w => Ok (match root_dir w root with
            | Some d => ((map_to_list (rs_backup (reserved_of d job))).*1,
                         (map_to_list (rs_prepared (reserved_of d job))).*1)
            | None => ([], [])
            end)) transaction_io;
  _ ← for_each (fun i => tx_io (update_root root (fun d =>
          Some (set_backup d job (delete i (rs_backup (reserved_of d job)))))) transaction_io)
        files.1;
  _ ← for_each (fun i => tx_io (update_root root (fun d =>
          Some (set_prepared d job (delete i (rs_prepared (reserved_of d job)))))) transaction_io)
        files.2;
  tx_io (update_root root (fun d =>
    Some (with_dirs (with_reserved d (delete job (rd_reserved d)))
            (filter (fun c => ¬ job_components job `prefix_of` c) (rd_dirs d))))) transaction_io.

Definition local_cleanup_job (root : RegisteredRoot) (job : string) : M World () :=
  reserved ← tx_exists (fun w => bool_decide (is_Some
               (d ← root_dir w root; rd_reserved d !! job)));
  _ ← (if (reserved : bool) then
         _ ← validate_reserved_job_directory root job;
         remove_reserved root job
       else pure tt);
  private ← tx_exists (fun w => bool_decide (is_Some (w_jobs w !! job)));
  if (private : bool) then remove_job_directory job else pure tt.

Definition LocalTransactionPlatform : TransactionPlatform := {|
  uses_atomic_replacement := false;
  atomic_replace_target _ _ _ _ _ := pure false;
  atomic_restore_backup _ _ _ _ := pure false;
  verify_root_identity := local_verify_root_identity;
  root_is_missing := local_root_is_missing;
  available_space _ := pure u64_max;
  same_volume _ _ := pure true;
  open_staging_payload := local_open_staging_payload;
  inspect_target := local_inspect_target;
  prepare_target_payload := local_prepare_target_payload;
  rename_target_to_backup := local_rename_target_to_backup;
  rename_prepared_to_target := local_rename_prepared_to_target;
  backup_exists := local_backup_exists;
  delete_target := local_delete_target;
  restore_backup := local_restore_backup;
  cleanup_job := local_cleanup_job;
  checkpoint _ := pure tt;
|}.
End local.
