(* ===== verification/Contract.v ===== *)
(** * What a transaction platform promises

    The contract of [TransactionPlatform] for one job: what each operation does
    to the files of the root and to the job's reserved files, when it works,
    fails or is interrupted.  The engine's theorems are proved against it
    (Atomicity); LocalPlatformProof discharges it. *)

From S2P Require Import Prelude Errors Effects Identifiers Json Trust FileSet Roots Journal.
From S2P Require Import Storage Transaction LocalPlatform.

(** Paths whose keys are equal have the same lower-case text, so the paths of a
    valid journal, which differ in lower case, name different files. *)
Class FileNamesLaws `{UnicodeCase, FileNames} :=
  fs_key_lowercase p q : fs_key p = fs_key q -> to_lowercase p = to_lowercase q.

(** ASCII names that differ in more than case are different files. *)
Lemma apart_lowercase `{UnicodeCaseLaws, !FileNames, !FileNamesLaws} p q :
  is_ascii p = true -> is_ascii q = true -> to_ascii_lowercase p <> to_ascii_lowercase q ->
  fs_key p <> fs_key q.
Proof. intros Hp Hq Hne E%fs_key_lowercase. by rewrite !to_lowercase_ascii in E. Qed.

(** The part of the world a job works on. *)
Record JobView := mkView {
  v_files : gmap string File;
  v_backup : gmap N File;
  v_prepared : gmap N File;
}.

Section view.
Context (root : RegisteredRoot) (job : string).

Definition view (w : World) : JobView :=
  match w_roots w !! canonical_path root with
  | Some d =>
      let r := default empty_reserved (rd_reserved d !! job) in
      mkView (rd_files d) (rs_backup r) (rs_prepared r)
  | None => mkView ∅ ∅ ∅
  end.

(** Everything else: the private jobs, the journal's fates, other roots. *)
Definition frame (w w' : World) : Prop :=
  w_jobs w' = w_jobs w /\ w_journal_fates w' = w_journal_fates w
  /\ forall cp, cp <> canonical_path root -> w_roots w' !! cp = w_roots w !! cp.

#[export] Instance frame_preorder : PreOrder frame.
Proof.
  split; [by intros w|]. intros a b c (J1 & F1 & R1) (J2 & F2 & R2).
  split_and!; [congruence..|]. intros cp Hcp. by rewrite R2, R1.
Qed.

(** A query that changes nothing. *)
Definition reads {A} (m : M World A) (Q : A -> JobView -> Prop) : Prop :=
  forall w, wp m (fun a w' => frame w w' /\ view w' = view w /\ Q a (view w))
                 (fun _ w' => frame w w' /\ view w' = view w)
                 (fun w' => frame w w' /\ view w' = view w) w.

(** A change that happens completely or not at all. *)
Definition mutates (m : M World ()) (Q : JobView -> JobView -> Prop) : Prop :=
  forall w, wp m (fun _ w' => frame w w' /\ Q (view w) (view w'))
                 (fun _ w' => frame w w' /\ view w' = view w)
                 (fun w' => frame w w' /\ (view w' = view w \/ Q (view w) (view w'))) w.

(** A change that can stop half-way: [P] holds of what it leaves then. *)
Definition replaces (m : M World bool) (Q P : JobView -> JobView -> Prop) : Prop :=
  forall w, wp m (fun b w' => frame w w' /\ b = true /\ Q (view w) (view w'))
                 (fun _ w' => frame w w' /\ P (view w) (view w'))
                 (fun w' => frame w w' /\ P (view w) (view w')) w.
End view.

Section effects.
Context `{FileNames}.

(** The target goes to the backup [index]. *)
Definition backed_up (index : N) (path : string) (expected : TargetSnapshot)
    (v v' : JobView) : Prop :=
  exists f, v_files v !! fs_key path = Some f /\ f_snapshot f = expected
    /\ v' = mkView (delete (fs_key path) (v_files v)) (<[index := f]> (v_backup v)) (v_prepared v).

(** The prepared file [index] becomes the target, which was absent. *)
Definition installed (index : N) (path : string) (v v' : JobView) : Prop :=
  exists f, v_prepared v !! index = Some f /\ v_files v !! fs_key path = None
    /\ v' = mkView (<[fs_key path := f]> (v_files v)) (v_backup v) (delete index (v_prepared v)).

Definition deleted (path : string) (v v' : JobView) : Prop :=
  v' = mkView (delete (fs_key path) (v_files v)) (v_backup v) (v_prepared v).

(** The backup [index] becomes the target again. *)
Definition restored_from (index : N) (path : string) (v v' : JobView) : Prop :=
  exists f, v_backup v !! index = Some f /\ v_files v !! fs_key path = None
    /\ v' = mkView (<[fs_key path := f]> (v_files v)) (delete index (v_backup v)) (v_prepared v).

(** The target, if there was one, goes to the backup [index], and the prepared
    file [index] becomes the target. *)
Definition swapped (index : N) (path : string) (original : option TargetSnapshot)
    (v v' : JobView) : Prop :=
  exists f, v_prepared v !! index = Some f /\ f_snapshot <$> v_files v !! fs_key path = original
    /\ v' = mkView (<[fs_key path := f]> (v_files v))
              (match v_files v !! fs_key path with
               | Some g => <[index := g]> (v_backup v)
               | None => v_backup v
               end) (delete index (v_prepared v)).

(** Half of it: the target is in the backup, and nothing took its place. *)
Definition moved_aside (index : N) (path : string) (v v' : JobView) : Prop :=
  exists g, v_files v !! fs_key path = Some g
    /\ v' = mkView (delete (fs_key path) (v_files v)) (<[index := g]> (v_backup v)) (v_prepared v).

Definition partly_swapped (index : N) (path : string) (original : option TargetSnapshot)
    (v v' : JobView) : Prop :=
  v' = v \/ moved_aside index path v v' \/ swapped index path original v v'.

(** The backup [index] takes the place of the target, whatever is there. *)
Definition put_back (index : N) (path : string) (v v' : JobView) : Prop :=
  exists f, v_backup v !! index = Some f
    /\ v' = mkView (<[fs_key path := f]> (v_files v)) (delete index (v_backup v)) (v_prepared v).

(** Half of it: the target is gone. *)
Definition partly_put_back (index : N) (path : string) (v v' : JobView) : Prop :=
  v' = v \/ deleted path v v' \/ put_back index path v v'.

(** What a cleanup leaves of the private directory when it stops. *)
Inductive private_left (job : string) (w w' : World) : Prop :=
  | left_whole : w_jobs w' = w_jobs w -> private_left job w w'
  | left_no_journal d : w_jobs w !! job = Some d ->
      w_jobs w' = <[job := {| jd_journal := None; jd_payload := jd_payload d |}]> (w_jobs w) ->
      private_left job w w'
  | left_nothing : w_jobs w' = delete job (w_jobs w) -> private_left job w w'.

(** A cleanup touches no target and no other root or job. *)
Definition cleanup_frame (root : RegisteredRoot) (job : string) (w w' : World) : Prop :=
  v_files (view root job w') = v_files (view root job w)
  /\ v_backup (view root job w') ⊆ v_backup (view root job w)
  /\ w_journal_fates w' = w_journal_fates w
  /\ forall cp, cp <> canonical_path root -> w_roots w' !! cp = w_roots w !! cp.

(** Removing a private directory is a cleanup. *)
Lemma remove_job_directory_spec (root : RegisteredRoot) (job : string) w :
  wp (remove_job_directory job)
    (fun _ w' => cleanup_frame root job w w' /\ w_jobs w' = delete job (w_jobs w))
    (fun _ w' => cleanup_frame root job w w' /\ private_left job w w')
    (fun w' => cleanup_frame root job w w' /\ private_left job w w') w.
Proof.
  assert (forall jobs fates, cleanup_frame root job w
            (mkWorld (w_roots w) jobs fates (w_journal_fates w) (w_handles w))) as Hf.
  { intros jobs fates. split; [done|]. split; [|by split]. done. }
  unfold remove_job_directory.
  set (removed := fun d => <[job := {| jd_journal := None; jd_payload := jd_payload d |}]> (w_jobs w)).
  (* the second step, from the directory without its journal *)
  assert (forall d fates, w_jobs w !! job = Some d ->
    wp (tx_io (fun w => Some (set_jobs w (delete job (w_jobs w)))) transaction_io)
      (fun _ w' => cleanup_frame root job w w' /\ w_jobs w' = delete job (w_jobs w))
      (fun _ w' => cleanup_frame root job w w' /\ private_left job w w')
      (fun w' => cleanup_frame root job w w' /\ private_left job w w')
      (mkWorld (w_roots w) (removed d) fates (w_journal_fates w) (w_handles w))) as Hsecond.
  { intros d fates Hd.
    assert (delete job (removed d) = delete job (w_jobs w)) as Ed by apply delete_insert_eq.
    assert (forall fates, cleanup_frame root job w
       (mkWorld (w_roots w) (removed d) fates (w_journal_fates w) (w_handles w)) /\
       private_left job w (mkWorld (w_roots w) (removed d) fates (w_journal_fates w) (w_handles w))) as Hhalf
      by (intros fs; split; [apply Hf|by eapply left_no_journal]).
    unfold wp, tx_io, set_fates, set_jobs. cbn.
    destruct (default Works (head fates)); cbn; rewrite ?Ed; try apply Hhalf.
    - split; [apply Hf|done].
    - split; [apply Hf|by apply left_nothing]. }
  apply wp_bind. unfold wp at 1, tx_io at 1, set_fates. cbn.
  assert (forall fates, cleanup_frame root job w
    (mkWorld (w_roots w) (w_jobs w) fates (w_journal_fates w) (w_handles w)) /\
    private_left job w (mkWorld (w_roots w) (w_jobs w) fates (w_journal_fates w) (w_handles w))) as Hwhole
    by (intros fs; split; [apply Hf|by apply left_whole]).
  destruct (default Works (head (w_fates w))); cbn; try apply Hwhole;
    destruct (w_jobs w !! job) as [d|] eqn:Hd; cbn; try apply Hwhole.
  - by apply (Hsecond d).
  - split; [apply Hf|by eapply left_no_journal].
Qed.

(** The contract for the job [job] of [root].  A platform replaces a target by two
    renames or, where it says so, by one operation of the system. *)
Class PlatformContract `{!TransactionPlatform} (root : RegisteredRoot) (job : string) := {
  pc_identity : reads root job (verify_root_identity root) (fun _ _ => True);
  pc_missing : reads root job (root_is_missing root) (fun _ _ => True);
  pc_checkpoint e : reads root job (checkpoint e) (fun _ _ => True);
  pc_inspect path : reads root job (inspect_target root path)
    (fun t v => t = f_snapshot <$> v_files v !! fs_key path);
  pc_backup_exists index : reads root job (backup_exists root job index)
    (fun b v => b = bool_decide (is_Some (v_backup v !! index)));
  pc_rename_target index path expected :
    mutates root job (rename_target_to_backup root job index path expected)
      (backed_up index path expected);
  pc_rename_prepared index path :
    mutates root job (rename_prepared_to_target root job index path) (installed index path);
  pc_delete path : mutates root job (delete_target root path) (deleted path);
  pc_restore index path :
    mutates root job (restore_backup root job index path) (restored_from index path);
  pc_replace index path original : uses_atomic_replacement = true ->
    replaces root job (atomic_replace_target root job index path original)
      (swapped index path original) (partly_swapped index path original);
  pc_put_back index path : uses_atomic_replacement = true ->
    replaces root job (atomic_restore_backup root job index path)
      (put_back index path) (partly_put_back index path);
  pc_cleanup w :
    wp (cleanup_job root job)
      (fun _ w' => cleanup_frame root job w w' /\ w_jobs w' = delete job (w_jobs w))
      (fun _ w' => cleanup_frame root job w w' /\ private_left job w w')
      (fun w' => cleanup_frame root job w w' /\ private_left job w w') w;
}.
End effects.
