(* ===== verification/Wire.v ===== *)
(** * Messages on the wire

    The compact text [serde_json::to_vec] writes, the requests as the client
    writes them ([#[derive (Serialize)]] of [Request], src/src/protocol.rs) and the
    bound of the answers ([respond] of src/src/windows.rs). *)

From S2P Require Import Prelude Errors Identifiers Json RegistrySet Roots RegistryScopes Protocol.

Section wire.
Context `{SerdeJson}.

Fixpoint with_commas (items : list (option (list byte))) : option (list byte) :=
  match items with
  | [] => Some []
  | [item] => item
  | item :: items' =>
      bytes ← item;
      rest ← with_commas items';
      Some (bytes ++ ","%char :: rest)
  end.

(** The entries of an object come in the order of the map. *)
Fixpoint to_vec (value : Value) : option (list byte) :=
  match value with
  | Null => Some (as_bytes "null")
  | VBool true => Some (as_bytes "true")
  | VBool false => Some (as_bytes "false")
  | VNumber n => Some (number_to_string n)
  | VString s => write_string s
  | Array items =>
      body ← with_commas (List.map to_vec items);
      Some ("["%char :: body ++ ["]"%char])
  | Object entries =>
      body ← with_commas (List.map (fun e => match e with
                            | (key, v) => k ← write_string key; b ← to_vec v; Some (k ++ ":"%char :: b)
                            end) entries);
      Some ("{"%char :: body ++ ["}"%char])
  end.

(** [Value::get] of a key. *)
Definition entry (key : string) (v : Value) : option Value :=
  match v with Object entries => get key entries | _ => None end.

Definition value_str (v : Value) : option string :=
  match v with VString s => Some s | _ => None end.
Definition value_u64 (v : Value) : option N :=
  match v with VNumber n => as_u64 n | _ => None end.
Definition value_bool (v : Value) : option bool :=
  match v with VBool b => Some b | _ => None end.
Definition value_array (v : Value) : option (list Value) :=
  match v with Array items => Some items | _ => None end.

(** [response.get (key).and_then (Value::as_str)], and the like. *)
Definition text_of (key : string) (v : Value) : option string := entry key v ≫= value_str.

(** ** Requests *)

Definition number (n : N) : Value := VNumber (number_of_u64 n).

Definition tagged (command : string) (major : N) (fields : list (string * Value)) : Value :=
  Object (("command", VString command) :: ("protocolMajor", number major) :: fields).

Definition Request_value (request : Request) : Value :=
  match request with
  | GetStatus m => tagged "GetStatus" m []
  | GetRootStatus m id => tagged "GetRootStatus" m [("rootId", VString id)]
  | GetRegistryScopeStatus m id => tagged "GetRegistryScopeStatus" m [("scopeId", VString id)]
  | RegisterRoot m id product kind path =>
      tagged "RegisterRoot" m [("rootId", VString id); ("productId", VString product);
                               ("rootKind", RootKind_value kind); ("path", VString path)]
  | UnregisterRoot m id => tagged "UnregisterRoot" m [("rootId", VString id)]
  | RegisterRegistryScope m id product v key allowed =>
      tagged "RegisterRegistryScope" m
        [("scopeId", VString id); ("productId", VString product); ("view", RegistryView_value v);
         ("subkey", VString key);
         ("allowedValues", Array (AllowedRegistryValue_value <$> allowed))]
  | UnregisterRegistryScope m id => tagged "UnregisterRegistryScope" m [("scopeId", VString id)]
  | ApplyRegistrySet m id manifest =>
      tagged "ApplyRegistrySet" m [("scopeId", VString id); ("manifestPath", VString manifest)]
  | PrepareFileSet m id manifest staging =>
      tagged "PrepareFileSet" m [("rootId", VString id); ("manifestPath", VString manifest);
                                 ("stagingPath", VString staging)]
  | CommitJob m id => tagged "CommitJob" m [("jobId", VString id)]
  | GetJobStatus m id => tagged "GetJobStatus" m [("jobId", VString id)]
  end.
End wire.
