(* ===== verification/Impersonation.v ===== *)
(** * Work done as the caller

    The functions of src/src/windows.rs that act under the token of the pipe
    client: they open a root, a manifest or the staged payloads as the caller and
    return the identity they saw.  What Windows answers during one request is a
    record of results; the checks around the answers are the code's. *)

From S2P Require Import Prelude Errors Effects Identifiers Json Trust FileSet RegistrySet Roots.
From S2P Require Import RegistryScopes Protocol Authorization Storage Generations WindowsRegistry.

(** What Windows answers to the calls made for one client. *)
Record Client := {
  (** the token of the connected pipe, read when a request arrives *)
  c_caller : Result CallerIdentity;
  (** the token of the thread when the client is impersonated again *)
  c_impersonated : Result CallerIdentity;
  c_reverted : Result ();
  (** opening a directory safely as the caller, for a shared library with the
      grant to its users: its canonical path and its identity *)
  c_directory : bool -> string -> Result (string * DirectoryIdentity);
  (** opening and reading a regular file as the caller *)
  c_file : string -> Result (list byte);
  (** opening the staging directory and one payload in it *)
  c_staging : string -> Result string;
  c_payload : string -> string -> Result ();
  (** the SHA-1 and SHA-256 thumbprints of a payload's verified signer *)
  c_signer : string -> Result (string * string);
}.

Definition caller_identity_from_connected_pipe (c : Client) : Result CallerIdentity :=
  caller ← c_caller c;
  _ ← c_reverted c;
  Ok caller.

Definition root_is_shared_library (kind : RootKind) : bool := bool_decide (kind = Library).

Definition registered_root_as_caller (c : Client) (root_id product_id : string) (kind : RootKind)
    (path : string) : Result (CallerIdentity * RegisteredRoot) :=
  caller ← c_impersonated c;
  _ ← ensure (elevated_administrator caller) RootUnauthorized
        "root registration requires an elevated administrator token";
  '(canonical, ident) ← c_directory c (root_is_shared_library kind) path;
  root ← from_canonical_identity root_id product_id kind canonical ident (sid caller);
  _ ← c_reverted c;
  Ok (caller, root).

Definition read_manifest_as_caller (c : Client) (manifest_path : string) (maximum : N)
    : Result (CallerIdentity * list byte) :=
  caller ← c_impersonated c;
  bytes ← c_file c manifest_path;
  _ ← ensure (N.of_nat (length bytes) <=? maximum)%N ManifestTooLarge
        "signed manifest exceeds the configured bound";
  _ ← c_reverted c;
  Ok (caller, bytes).

Definition registered_registry_scope_as_caller `{UnicodeCase, RegistryNames} (c : Client)
    (scope_id product_id : string) (v : RegistryView) (subkey : string)
    (allowed_values : list AllowedRegistryValue)
    : M RegistryWorld (CallerIdentity * RegisteredRegistryScope) :=
  caller ← lift (c_impersonated c);
  _ ← lift (ensure (elevated_administrator caller) RegistryScopeUnauthorized
        "registry-scope registration requires an elevated administrator token");
  scope ← lift (new_scope scope_id product_id v subkey allowed_values (sid caller));
  _ ← lift (c_reverted c);
  _ ← create_registry_scope_key scope;
  _ ← open_registry_scope_key scope;
  pure (caller, scope).

(** ** Staged payloads *)

(** Each payload is opened; what the platform reads from the handles later is
    the business of the transaction platform. *)
Definition preopen_staging_as_caller (c : Client) (staging_root : string)
    (files : list FileEntry) : Result CallerIdentity :=
  caller ← c_impersonated c;
  canonical_staging ← c_staging c staging_root;
  _ ← try_for (fun _ e => c_payload c canonical_staging (fe_path e)) tt files;
  _ ← c_reverted c;
  Ok caller.

(** [Path::extension] of a relative path, compared with ["exe"]. *)
Definition is_exe (path : string) : bool :=
  match rsplit_once "." (as_bytes (List.last (path_components path) "")) with
  | Some (_ :: _, extension) => eq_ignore_ascii_case (of_bytes extension) "exe"
  | _ => false
  end.

Definition signer_thumbprint_allowed (sha1 sha256 : string) (allowed : list string) : bool :=
  existsb (fun thumbprint => bool_decide (thumbprint = sha1) || bool_decide (thumbprint = sha256))
    allowed.

Definition verify_authenticode_signer (signer : Result (string * string)) (allowed : list string)
    : Result () :=
  _ ← ensure (negb (length allowed =? 0)%nat) TrustSignature
        "launcher executable signer allowlist is empty";
  '(sha1, sha256) ← signer;
  ensure (signer_thumbprint_allowed sha1 sha256 allowed) TrustSignature
    "executable signer is not in the signed allowlist".

Definition verify_launcher_payloads (c : Client) (files : list FileEntry) (allowed : list string)
    : Result () :=
  try_for (fun _ e => verify_authenticode_signer (c_signer c (fe_path e)) allowed) tt
    (List.filter (fun e => is_exe (fe_path e)) files).
