(* ===== verification/Service.v ===== *)
(** * The service: its state, its requests and its event loop

    [ServiceState], [recover_service_state], [process_request] with the active
    job, and the loop [serve_requests] with its two worker threads, of
    src/src/windows.rs.  A worker's run is one step of the machine between the
    events of the loop; its result arrives through a channel. *)

From S2P Require Import Prelude Errors Effects Identifiers Json Trust FileSet RegistrySet Roots.
From S2P Require Import RegistryScopes Protocol Authorization Storage RegistryStorage Generations.
From S2P Require Import WindowsRegistry RegistryTransaction Journal Transaction Wire Impersonation.

(** [env!("CARGO_PKG_VERSION")], from src/Cargo.toml. *)
Definition CARGO_PKG_VERSION : string := "1.0.3".

(** The files of the data directory. *)
Definition registry_path : string := "roots-v1.json".
Definition generation_path : string := "generations-v1.json".
Definition registry_scope_path : string := "registry-scopes-v1.json".
Definition keyring_path : string := "keyring-v1.json".

(** ** State *)

(** A bounded channel of one message, and the worker that holds its sender. *)
Inductive Channel (W A : Type) :=
  | Running (work : W)
  | Sent (result : Result A)
  | Disconnected.
Arguments Running {_ _} _.
Arguments Sent {_ _} _.
Arguments Disconnected {_ _}.

Inductive ActiveJobState :=
  | JobPrepared (prepared : PreparedJob)
  | JobCommitting (receiver : Channel PreparedJob CommitResult)
  | JobCompleted (cleanup_pending : bool) (error : option ErrorCode) (generation : option N)
      (state : string).

Record ActiveJob := {
  aj_job_id : string;
  aj_owner_sid : string;
  aj_state : ActiveJobState;
}.

Record PrepareWork := {
  pw_manifest : VerifiedFileSet;
  pw_root : RegisteredRoot;
  pw_staging_path : string;
  pw_owner_sid : string;
  pw_thumbprints : list string;
}.

Record PreparedOutcome := {
  po_prepared : PreparedJob;
  po_root_id : string;
  po_record : GenerationRecord;
  po_owner_sid : string;
}.

(** The pipe instance of the request stays held: the worker impersonates
    through it. *)
Record PrepareInFlight := {
  pf_slot : nat;
  pf_receiver : Channel (Client * PrepareWork) PreparedOutcome;
}.

(** The registry transaction works on the data directory, the registry, the
    accepted registry generations and the flags of the process; jobs and roots
    are the world of the transaction engine. [s_ending] counts the commit workers
    that sent their result and still hold their [CommitActivity]. *)
Record Service := mkService {
  s_registry : RegistryWorld;
  s_tree : World;
  s_roots : RootRegistry;
  s_scopes : RegistryScopeRegistry;
  s_generations : GenerationRegistry;
  s_active : option ActiveJob;
  s_preparing : option PrepareInFlight;
  s_ending : nat;
}.

Definition with_registry (r : RegistryWorld) (s : Service) : Service :=
  mkService r (s_tree s) (s_roots s) (s_scopes s) (s_generations s) (s_active s)
    (s_preparing s) (s_ending s).
Definition with_tree (t : World) (s : Service) : Service :=
  mkService (s_registry s) t (s_roots s) (s_scopes s) (s_generations s) (s_active s)
    (s_preparing s) (s_ending s).
Definition with_roots (r : RootRegistry) (s : Service) : Service :=
  mkService (s_registry s) (s_tree s) r (s_scopes s) (s_generations s) (s_active s)
    (s_preparing s) (s_ending s).
Definition with_scopes (r : RegistryScopeRegistry) (s : Service) : Service :=
  mkService (s_registry s) (s_tree s) (s_roots s) r (s_generations s) (s_active s)
    (s_preparing s) (s_ending s).
Definition with_generations (g : GenerationRegistry) (s : Service) : Service :=
  mkService (s_registry s) (s_tree s) (s_roots s) (s_scopes s) g (s_active s)
    (s_preparing s) (s_ending s).
Definition with_active (a : option ActiveJob) (s : Service) : Service :=
  mkService (s_registry s) (s_tree s) (s_roots s) (s_scopes s) (s_generations s) a
    (s_preparing s) (s_ending s).
Definition with_preparing (p : option PrepareInFlight) (s : Service) : Service :=
  mkService (s_registry s) (s_tree s) (s_roots s) (s_scopes s) (s_generations s) (s_active s)
    p (s_ending s).
Definition with_ending (n : nat) (s : Service) : Service :=
  mkService (s_registry s) (s_tree s) (s_roots s) (s_scopes s) (s_generations s) (s_active s)
    (s_preparing s) n.

Definition on_registry {A} (m : M RegistryWorld A) : M Service A := fun s =>
  let '(o, r) := m (s_registry s) in (o, with_registry r s).
Definition on_files {A} (m : M Disk A) : M Service A := on_registry (on_disk m).
Definition on_tree {A} (m : M World A) : M Service A := fun s =>
  let '(o, t) := m (s_tree s) in (o, with_tree t s).

Definition flags (s : Service) : Flags := rw_flags (s_registry s).
Definition with_flags (f : Flags) (s : Service) : Service :=
  with_registry (set_flags f (s_registry s)) s.
Definition set_committing (b : bool) (f : Flags) : Flags :=
  {| committing := b; stop_requested := stop_requested f; stop_event := stop_event f |}.

(** ** Requests by kind *)

Inductive RequestKind := Query (name : string) | Mutation (name : string).

Definition request_kind (request : Request) : RequestKind :=
  match request with
  | GetStatus _ => Query "status"
  | GetRootStatus _ _ => Query "root-status"
  | GetRegistryScopeStatus _ _ => Query "registry-scope-status"
  | GetJobStatus _ _ => Query "job-status"
  | RegisterRoot _ _ _ _ _ => Mutation "register-root"
  | UnregisterRoot _ _ => Mutation "unregister-root"
  | RegisterRegistryScope _ _ _ _ _ _ => Mutation "register-registry-scope"
  | UnregisterRegistryScope _ _ => Mutation "unregister-registry-scope"
  | ApplyRegistrySet _ _ _ => Mutation "apply-registry-set"
  | PrepareFileSet _ _ _ _ => Mutation "prepare"
  | CommitJob _ _ => Mutation "commit"
  end.

Definition is_mutation (request : Request) : bool :=
  match request_kind request with Mutation _ => true | Query _ => false end.

(** ** The active job *)

(** The completed state that the result of a commit becomes. *)
Definition completed_of (result : Result CommitResult) : ActiveJobState :=
  match result with
  | Ok r => JobCompleted (cleanup_pending r) None (Some (cr_generation r)) "committed"
  | Err e => JobCompleted false (Some (code e)) None
               (if bool_decide (code e = RecoveryIncomplete) then "failed" else "rolledBack")
  end.

Definition refresh_job (active : ActiveJob) : ActiveJob :=
  match aj_state active with
  | JobCommitting (Sent result) =>
      {| aj_job_id := aj_job_id active; aj_owner_sid := aj_owner_sid active;
         aj_state := completed_of result |}
  | JobCommitting Disconnected =>
      {| aj_job_id := aj_job_id active; aj_owner_sid := aj_owner_sid active;
         aj_state := JobCompleted false (Some RecoveryIncomplete) None "failed" |}
  | _ => active
  end.

Definition refresh_active_job : M Service () :=
  modify (fun s => with_active (refresh_job <$> s_active s) s).

(** A completed job makes room for the next transaction. *)
Definition discard_completed : M Service () :=
  modify (fun s => match aj_state <$> s_active s with
                   | Some (JobCompleted _ _ _ _) => with_active None s
                   | _ => s
                   end).

(** ** Responses *)

Section responses.
Context `{SerdeJson}.

Definition protocol_entry : string * Value := ("protocolMajor", number PROTOCOL_MAJOR).
Definition capabilities : string * Value :=
  ("capabilities", Array [VString "file-set-v1"; VString "registry-set-v1"]).

Definition status_response (scope_count root_count : nat) : Value :=
  Object [capabilities; ("ok", VBool true); protocol_entry;
          ("registeredRegistryScopeCount", number (N.of_nat scope_count));
          ("registeredRootCount", number (N.of_nat root_count));
          ("serviceVersion", VString CARGO_PKG_VERSION)].

Definition root_status_response (id : string) (root : RegisteredRoot) : Value :=
  Object [capabilities; ("ok", VBool true); protocol_entry;
          ("registeredRoot", Object [
             ("path", VString (canonical_path root));
             ("productId", VString (root_product_id root));
             ("rootId", VString id);
             ("rootKind", RootKind_value (root_kind root))]);
          ("serviceVersion", VString CARGO_PKG_VERSION)].

Definition scope_status_response (id : string) (scope : RegisteredRegistryScope) : Value :=
  Object [capabilities; ("ok", VBool true); protocol_entry;
          ("registeredRegistryScope", Object [
             ("allowedValues", Array (AllowedRegistryValue_value <$> allowed_values scope));
             ("hive", VString "localMachine");
             ("productId", VString (scope_product_id scope));
             ("scopeId", VString id);
             ("subkey", VString (subkey scope));
             ("view", RegistryView_value (view scope))]);
          ("serviceVersion", VString CARGO_PKG_VERSION)].

Definition root_response (id : string) : Value :=
  Object [("ok", VBool true); protocol_entry; ("rootId", VString id)].
Definition scope_response (id : string) : Value :=
  Object [("ok", VBool true); protocol_entry; ("scopeId", VString id)].

Definition prepared_response (job_id : string) : Value :=
  Object [("jobId", VString job_id); ("ok", VBool true); protocol_entry;
          ("state", VString "prepared")].

Definition pending_response (job_id state : string) : Value :=
  Object [("completedOperations", number 0); ("jobId", VString job_id); ("ok", VBool true);
          protocol_entry; ("state", VString state); ("totalOperations", number 1)].

Definition completed_response (job_id : string) (cleanup_pending : bool)
    (error : option ErrorCode) (generation : option N) (state : string) : Value :=
  Object [("cleanupPending", VBool cleanup_pending); ("completedOperations", number 1);
          ("error", option_value (fun c => VString (as_str c)) error);
          ("generation", option_value number generation);
          ("jobId", VString job_id); ("ok", VBool true); protocol_entry;
          ("state", VString state); ("totalOperations", number 1)].

Definition applied_response (applied : nat) (generation : N) (scope : string) : Value :=
  Object [("appliedValues", number (N.of_nat applied)); ("generation", number generation);
          ("ok", VBool true); protocol_entry; ("scopeId", VString scope);
          ("state", VString "committed")].

Definition maintenance_error_response (error : MaintenanceError) : Value :=
  Object [("detail", VString (detail error)); ("error", VString (as_str (code error)));
          ("ok", VBool false); protocol_entry;
          ("win32Status", option_value number (platform_status error))].

Definition job_response (job_id : string) (state : ActiveJobState) : Value :=
  match state with
  | JobPrepared _ => pending_response job_id "prepared"
  | JobCommitting _ => pending_response job_id "committing"
  | JobCompleted c e g st => completed_response job_id c e g st
  end.

Definition job_status_response (job_id : string) : M Service Value :=
  _ ← refresh_active_job;
  active ← gets s_active;
  active ← lift (ok_or active TransactionState "maintenance job is no longer available");
  pure (job_response job_id (aj_state active)).
End responses.

(** Result of request processing on the service thread. *)
Inductive Dispatch `{SerdeJson} :=
  | Respond (value : Value)
  | Prepare (work : PrepareWork).

Section requests.
Context `{SerdeJson, UnicodeCase, Crypto, Base64, RegistryNames, TransactionPlatform}.
Context `{!Reader RootRegistryDocument, !Reader RegistryScopeRegistryDocument,
          !Reader GenerationRegistryDocument, !Reader RegistryTransactionJournal,
          !Reader Keyring, !Reader FileSet, !Reader RegistrySet, !Reader Request}.
Context (data_directory : string).

(** [TransactionPolicy::new]; the protected data directory exists. *)
Definition transaction_policy : Result () :=
  ensure (path_is_absolute data_directory) TransactionState
    "service data directory must be absolute".

(** ** The prepare worker *)

Definition run_prepare (c : Client) (work : PrepareWork) : M World PreparedOutcome :=
  let files := fs_files (file_set (pw_manifest work)) in
  staging_caller ← lift (preopen_staging_as_caller c (pw_staging_path work) files);
  _ ← lift (ensure (bool_decide (sid staging_caller = pw_owner_sid work)) RootUnauthorized
        "caller token changed while opening staging handles");
  _ ← (if bool_decide (root_kind (pw_root work) = Launcher)
       then lift (verify_launcher_payloads c files (pw_thumbprints work)) else pure tt);
  _ ← lift transaction_policy;
  prepared ← prepare_file_set data_directory (pw_manifest work) (pw_root work)
               (pw_staging_path work);
  pure {| po_prepared := prepared; po_root_id := root_id (pw_root work);
          po_record := {| generation := fs_generation (file_set (pw_manifest work));
                          digest := vfs_digest (pw_manifest work) |};
          po_owner_sid := pw_owner_sid work |}.

Definition finish_prepare (outcome : PreparedOutcome) : M Service Value :=
  let job_id := jh_job_id (po_prepared outcome) in
  generations ← gets s_generations;
  generations ← lift (accept generations (po_root_id outcome) (po_record outcome));
  _ ← modify (with_generations generations);
  _ ← on_files (save_generations generations generation_path);
  _ ← modify (with_active (Some {| aj_job_id := job_id; aj_owner_sid := po_owner_sid outcome;
                                   aj_state := JobPrepared (po_prepared outcome) |}));
  pure (prepared_response job_id).

(** ** Start-up *)

Context `{!Reader JournalHeader, !Reader JournalStateRecord}.

(** The generations of the jobs that the recovery found committed. *)
Definition accept_recovered (generations : GenerationRegistry) (jobs : list string)
    : Result GenerationRegistry :=
  try_for (fun g job_id => match generation_from_job_id job_id with
                           | Some (root_id, record) => accept g root_id record
                           | None => Ok g
                           end) generations jobs.

Definition recovered_generation (jobs : list string) : bool :=
  existsb (fun job_id => bool_decide (is_Some (generation_from_job_id job_id))) jobs.

(** The memory and the flags of a process that starts. *)
Definition started (roots : RootRegistry) (scopes : RegistryScopeRegistry)
    (generations registry_generations : GenerationRegistry) (s : Service) : Service :=
  {| s_registry := set_generations registry_generations (set_flags
       {| committing := false; stop_requested := false; stop_event := false |} (s_registry s));
     s_tree := s_tree s; s_roots := roots; s_scopes := scopes; s_generations := generations;
     s_active := None; s_preparing := None; s_ending := 0 |}.

Definition recover_service_state : M Service () :=
  roots ← on_files (startup_roots registry_path);
  generations ← on_files (load_generations generation_path);
  scopes ← on_files (startup_scopes registry_scope_path);
  registry_generations ← on_files (load_generations registry_generation_path);
  _ ← on_registry (recover_registry_transaction registry_transaction_path scopes);
  _ ← lift transaction_policy;
  recovery ← on_tree recover_incomplete;
  generations ← lift (accept_recovered generations (committed_jobs recovery));
  _ ← (if recovered_generation (committed_jobs recovery)
       then on_files (save_generations generations generation_path) else pure tt);
  modify (started roots scopes generations registry_generations).

(** ** One request *)

Definition service_stopping (s : Service) : bool := stop_requested (flags s).

Definition apply_registry_set_request (c : Client) (caller : CallerIdentity)
    (scope : RegisteredRegistryScope) (manifest_path : string) : M Service Value :=
  _ ← discard_completed;
  busy ← gets (fun s => bool_decide (is_Some (s_active s)) || service_stopping s);
  _ ← lift (ensure (negb busy) ServiceBusy
        "registry mutation cannot overlap another maintenance transaction");
  '(manifest_caller, manifest_bytes) ←
    lift (read_manifest_as_caller c manifest_path MAX_REGISTRY_SET_BYTES);
  _ ← lift (ensure (bool_decide (sid manifest_caller = sid caller)) RegistryScopeUnauthorized
        "caller token changed while opening the registry manifest");
  keyring_bytes ← on_files (read_service_file keyring_path MAX_MANIFEST_BYTES);
  keyring ← lift (verify_keyring keyring_bytes KeyringAcceptance_default);
  generations ← gets (fun s => rw_generations (s_registry s));
  accepted ← lift (previous generations (scope_id scope));
  manifest ← lift (verify_registry_set manifest_bytes keyring
    {| rsa_allowed_values := allowed_values scope;
       rsa_expected_product_id := scope_product_id scope;
       rsa_expected_scope_id := scope_id scope; rsa_previous := accepted |});
  '(applied, generation) ← on_registry (apply_registry_set_transaction scope manifest);
  pure (applied_response applied generation (scope_id scope)).

Definition prepare_file_set_request (c : Client) (caller : CallerIdentity)
    (root : RegisteredRoot) (manifest_path staging_path : string) : M Service PrepareWork :=
  _ ← discard_completed;
  active ← gets s_active;
  _ ← lift (ensure (bool_decide (active = None)) TransactionConflict
        "only one maintenance job may be active");
  '(manifest_caller, manifest_bytes) ←
    lift (read_manifest_as_caller c manifest_path MAX_MANIFEST_BYTES);
  _ ← lift (ensure (bool_decide (sid manifest_caller = sid caller)) RootUnauthorized
        "caller token changed while opening the manifest");
  keyring_bytes ← on_files (read_service_file keyring_path MAX_MANIFEST_BYTES);
  kr ← lift (verify_keyring keyring_bytes KeyringAcceptance_default);
  generations ← gets s_generations;
  accepted ← lift (previous generations (root_id root));
  manifest ← lift (verify_file_set manifest_bytes kr
    {| fsa_expected_product_id := root_product_id root; fsa_previous := accepted |});
  pure {| pw_manifest := manifest; pw_root := root; pw_staging_path := staging_path;
          pw_owner_sid := sid caller;
          pw_thumbprints := authenticode_signer_thumbprints (keyring kr) |}.

Definition register_root_request (c : Client) (owner_sid root_id product_id : string)
    (kind : RootKind) (path : string) : M Service Value :=
  '(verified_caller, root) ← lift (registered_root_as_caller c root_id product_id kind path);
  _ ← lift (ensure (bool_decide (sid verified_caller = owner_sid)) RootUnauthorized
        "caller token changed during root registration");
  roots ← gets s_roots;
  roots ← lift (register roots root);
  _ ← on_files (save_roots roots registry_path);
  _ ← modify (with_roots roots);
  pure (root_response root_id).

Definition unregister_root_request (caller : CallerIdentity) (id authorized_id : string)
    : M Service Value :=
  _ ← lift (ensure (bool_decide (id = authorized_id)) RootUnauthorized
        "authorized root ID changed");
  roots ← gets s_roots;
  '(_, roots) ← lift (unregister roots id (sid caller));
  _ ← on_files (save_roots roots registry_path);
  _ ← modify (with_roots roots);
  pure (root_response id).

Definition register_scope_request (c : Client) (owner_sid id product_id : string)
    (v : RegistryView) (key : string) (allowed : list AllowedRegistryValue) : M Service Value :=
  '(verified_caller, scope) ←
    on_registry (registered_registry_scope_as_caller c id product_id v key allowed);
  _ ← lift (ensure (bool_decide (sid verified_caller = owner_sid)) RegistryScopeUnauthorized
        "caller token changed during registry-scope registration");
  scopes ← gets s_scopes;
  scopes ← lift (register_scope scopes scope);
  _ ← on_files (save_scopes scopes registry_scope_path);
  _ ← modify (with_scopes scopes);
  pure (scope_response id).

Definition unregister_scope_request (caller : CallerIdentity) (id authorized_id : string)
    : M Service Value :=
  _ ← lift (ensure (bool_decide (id = authorized_id)) RegistryScopeUnauthorized
        "authorized registry scope ID changed");
  scopes ← gets s_scopes;
  '(_, scopes) ← lift (unregister_scope scopes id (sid caller));
  _ ← on_files (save_scopes scopes registry_scope_path);
  _ ← modify (with_scopes scopes);
  pure (scope_response id).

Definition with_job_state (active : ActiveJob) (state : ActiveJobState) : ActiveJob :=
  {| aj_job_id := aj_job_id active; aj_owner_sid := aj_owner_sid active; aj_state := state |}.

(** [spawned]: the thread of the commit worker could be started.  When it could
    not, the prepared job is taken back from it. *)
Definition commit_job_request (spawned : bool) (id authorized_id : string) : M Service Value :=
  stopping ← gets service_stopping;
  _ ← lift (ensure (bool_decide (id = authorized_id) && negb stopping) TransactionState
        "commit cannot start after a stop request");
  active ← gets s_active;
  active ← lift (ok_or active TransactionState "maintenance job is no longer available");
  match aj_state active with
  | JobPrepared prepared =>
      _ ← modify (fun s => with_flags (set_committing true (flags s)) s);
      if spawned then
        _ ← modify (with_active (Some (with_job_state active (JobCommitting (Running prepared)))));
        pure (pending_response id "committing")
      else
        _ ← modify (fun s => with_flags (set_committing false (flags s)) s);
        _ ← modify (with_active (Some (with_job_state active (JobPrepared prepared))));
        fail (new_error TransactionState "commit worker cannot be started")
  | _ => fail (new_error TransactionState "maintenance job is not prepared")
  end.

Definition mismatch : MaintenanceError :=
  new_error ProtocolInvalid "request and authorization decision did not match".

Definition respond_with (m : M Service Value) : M Service Dispatch :=
  v ← m; pure (Respond v).

Definition process_request (c : Client) (spawned : bool) (request : Request)
    : M Service Dispatch :=
  preparing ← gets (fun s => bool_decide (is_Some (s_preparing s)));
  _ ← lift (ensure (negb (preparing && is_mutation request)) ServiceBusy
        "another maintenance job is being prepared");
  _ ← refresh_active_job;
  caller ← lift (caller_identity_from_connected_pipe c);
  active_owner ← gets (fun s => (fun j => (aj_job_id j, aj_owner_sid j)) <$> s_active s);
  roots ← gets s_roots;
  scopes ← gets s_scopes;
  authorization ← lift (authorize_request request caller roots scopes active_owner);
  match request, authorization with
  | GetStatus _, AuthGetStatus =>
      pure (Respond (status_response (owned_scope_count scopes (sid caller))
                                     (accessible_root_count roots (sid caller))))
  | GetRootStatus _ id, AuthGetRootStatus root => pure (Respond (root_status_response id root))
  | GetRegistryScopeStatus _ id, AuthGetRegistryScopeStatus scope =>
      pure (Respond (scope_status_response id scope))
  | RegisterRoot _ id product kind path, AuthRegisterRoot owner =>
      respond_with (register_root_request c owner id product kind path)
  | UnregisterRoot _ id, AuthUnregisterRoot authorized =>
      respond_with (unregister_root_request caller id authorized)
  | RegisterRegistryScope _ id product v key allowed, AuthRegisterRegistryScope owner =>
      respond_with (register_scope_request c owner id product v key allowed)
  | UnregisterRegistryScope _ id, AuthUnregisterRegistryScope authorized =>
      respond_with (unregister_scope_request caller id authorized)
  | ApplyRegistrySet _ _ manifest_path, AuthApplyRegistrySet scope =>
      respond_with (apply_registry_set_request c caller scope manifest_path)
  | PrepareFileSet _ _ manifest_path staging_path, AuthPrepareFileSet root =>
      work ← prepare_file_set_request c caller root manifest_path staging_path;
      pure (Prepare work)
  | CommitJob _ id, AuthCommitJob authorized =>
      respond_with (commit_job_request spawned id authorized)
  | GetJobStatus _ id, AuthGetJobStatus authorized =>
      if bool_decide (id = authorized) then respond_with (job_status_response id)
      else fail mismatch
  | _, _ => fail mismatch
  end.

(** ** The event loop *)

Inductive PipeEvent :=
  | PipeRequest (slot : nat) (c : Client) (message : Result (list byte))
  | PipeWake
  | PipeStop
  | PipeIdle.

(** What one round of the loop does: go on without an answer, answer a slot, or
    leave the loop. *)
Inductive Round :=
  | Continue
  | Answer (slot : nat) (kind : RequestKind) (response : Result Value)
  | Break.

(** The check at the top of the loop. *)
Definition may_stop (s : Service) : bool :=
  stop_requested (flags s) && negb (committing (flags s)) && bool_decide (s_preparing s = None).

(** [Wake]: the prepare worker may have sent its outcome. *)
Definition serve_wake : M Service Round :=
  in_flight ← gets s_preparing;
  match in_flight with
  | None => pure Continue
  | Some f =>
      match pf_receiver f with
      | Running _ => pure Continue
      | Sent outcome =>
          _ ← modify (with_preparing None);
          response ← attempt (outcome ← lift outcome; finish_prepare outcome);
          pure (Answer (pf_slot f) (Mutation "prepare") response)
      | Disconnected =>
          _ ← modify (with_preparing None);
          pure (Answer (pf_slot f) (Mutation "prepare")
                  (Err (new_error TransactionState "prepare worker ended without a result")))
      end
  end.

Definition serve_request (spawned : bool) (slot : nat) (c : Client) (message : Result (list byte))
    : M Service Round :=
  let request := bytes ← message; decode_request bytes in
  let kind := match request with Ok r => request_kind r | Err _ => Query "invalid" end in
  dispatch ← attempt (request ← lift request; process_request c spawned request);
  match dispatch with
  | Ok (Respond value) => pure (Answer slot kind (Ok value))
  | Ok (Prepare work) =>
      if spawned then
        _ ← modify (with_preparing (Some {| pf_slot := slot; pf_receiver := Running (c, work) |}));
        pure Continue
      else pure (Answer slot kind (Err (new_error TransactionState
                                          "prepare worker cannot be started")))
  | Err error => pure (Answer slot kind (Err error))
  end.

(** One round of [serve_requests]. *)
Definition serve_round (spawned : bool) (e : PipeEvent) : M Service Round :=
  stopping ← gets may_stop;
  if (stopping : bool) then pure Break
  else match e with
  | PipeStop => pure Break
  | PipeIdle =>
      busy ← gets (fun s => committing (flags s) || bool_decide (is_Some (s_preparing s)));
      pure (if (busy : bool) then Continue else Break)
  | PipeWake => serve_wake
  | PipeRequest slot c message => serve_request spawned slot c message
  end.

(** [respond]: the value that goes to the client. *)
Definition response_value (response : Result Value) : Value :=
  match response with Ok v => v | Err e => maintenance_error_response e end.

(** ** The other threads *)

(** The prepare worker runs and sends its outcome. *)
Definition prepare_worker : M Service () :=
  in_flight ← gets s_preparing;
  match in_flight with
  | Some {| pf_slot := slot; pf_receiver := Running (c, work) |} =>
      outcome ← attempt (on_tree (run_prepare c work));
      modify (with_preparing (Some {| pf_slot := slot; pf_receiver := Sent outcome |}))
  | _ => pure tt
  end.

(** The commit worker runs and sends its result; it still holds its activity. *)
Definition commit_worker : M Service () :=
  active ← gets s_active;
  match active with
  | Some {| aj_job_id := id; aj_owner_sid := owner; aj_state := JobCommitting (Running prepared) |} =>
      result ← attempt (on_tree (commit_file_set prepared));
      modify (fun s => with_ending (S (s_ending s)) (with_active
        (Some {| aj_job_id := id; aj_owner_sid := owner; aj_state := JobCommitting (Sent result) |}) s))
  | _ => pure tt
  end.

(** A commit worker that sent its result drops its [CommitActivity], which it does
    after the channel: the loop may see the result first. *)
Definition commit_worker_ends : M Service () :=
  modify (fun s => match s_ending s with
                   | O => s
                   | S n => with_ending n (with_flags (drop_commit_activity (flags s)) s)
                   end).

(** [service_control_handler] for a stop. *)
Definition service_control_stop : M Service () :=
  modify (fun s => with_flags {| committing := committing (flags s); stop_requested := true;
    stop_event := stop_event (flags s) || negb (committing (flags s)) |} s).
End requests.
