(* ===== verification/Frames.v ===== *)
(** * What a computation leaves alone

    [keeps f m]: whatever the outcome of [m], the part [f] of the state is what
    it was.  The rules follow the structure of the code and are a hint database;
    the primitives of the disk and of the registry are leaves. *)

From S2P Require Import Prelude Errors Effects Storage WindowsRegistry.

Definition keeps {S X A} (f : S -> X) (m : M S A) : Prop := forall s, f (snd (m s)) = f s.

Create HintDb keeps.

Section rules.
Context {S X : Type} (f : S -> X).

Lemma keeps_pure {A} (a : A) : keeps f (pure a).
Proof. by intros s. Qed.
Lemma keeps_fail {A} e : keeps f (fail (A := A) e).
Proof. by intros s. Qed.
Lemma keeps_lift {A} (r : Result A) : keeps f (lift r).
Proof. by intros s. Qed.
Lemma keeps_gets {A} (g : S -> A) : keeps f (gets g).
Proof. by intros s. Qed.
Lemma keeps_crash {A} : keeps f (crash (A := A)).
Proof. by intros s. Qed.

Lemma keeps_modify g : (forall s, f (g s) = f s) -> keeps f (modify g).
Proof. intros H s. apply H. Qed.

Lemma keeps_bind {A B} (m : M S A) (k : A -> M S B) :
  keeps f m -> (forall a, keeps f (k a)) -> keeps f (m ≫= k).
Proof.
  intros Hm Hk s. specialize (Hm s). unfold mbind, M_bind, bind.
  destruct (m s) as [[[a|e]| |] s']; cbn in *; [by rewrite Hk|done..].
Qed.

Lemma keeps_attempt {A} (m : M S A) : keeps f m -> keeps f (attempt m).
Proof. intros Hm s. specialize (Hm s). unfold attempt. by destruct (m s) as [[| |] s']. Qed.

Lemma keeps_map_err {A} e (m : M S A) : keeps f m -> keeps f (map_err e m).
Proof. intros Hm s. specialize (Hm s). unfold map_err. by destruct (m s) as [[[]| |] s']. Qed.

Lemma keeps_for_each {A} (g : A -> M S ()) l : (forall a, keeps f (g a)) -> keeps f (for_each g l).
Proof.
  intros Hg. induction l as [|a l IH]; [apply keeps_pure|].
  cbn [for_each]. by apply keeps_bind.
Qed.
End rules.

#[export] Hint Resolve keeps_pure keeps_fail keeps_lift keeps_gets keeps_crash keeps_attempt
  keeps_map_err keeps_for_each : keeps.

(** Walks through a computation: sequences, branches and the hints. *)
Ltac keeps :=
  repeat first
    [ progress eauto 1 with keeps nocore
    | apply keeps_bind; [|intro]
    | apply keeps_attempt
    | apply keeps_for_each; intro
    | apply keeps_modify; by intro
    | match goal with |- keeps _ (match ?x with _ => _ end) => destruct x end
    | match goal with |- keeps _ (let '(_, _) := ?x in _) => destruct x end ].

(** ** Runs that may stop anywhere *)

(** [Q] holds when the code returns, [E] however else it ends. *)
Definition partial {S A} (m : M S A) (Q : A -> S -> Prop) (E : S -> Prop) (s : S) : Prop :=
  match m s with
  | (Done (Ok a), s') => Q a s'
  | (_, s') => E s'
  end.

Section partial.
Context {S : Type}.

Lemma partial_pure {A} (a : A) Q E (s : S) : Q a s -> partial (pure a) Q E s.
Proof. done. Qed.

Lemma partial_bind {A B} (m : M S A) (k : A -> M S B) Q E s :
  partial m (fun a s' => partial (k a) Q E s') E s -> partial (m ≫= k) Q E s.
Proof. unfold partial, mbind, M_bind, bind. by destruct (m s) as [[[a|e]| |] s']. Qed.

Lemma partial_mono {A} (m : M S A) (Q Q' : A -> S -> Prop) (E E' : S -> Prop) s :
  partial m Q E s -> (forall a s', Q a s' -> Q' a s') -> (forall s', E s' -> E' s') ->
  partial m Q' E' s.
Proof. unfold partial. destruct (m s) as [[[a|e]| |] s']; eauto. Qed.

Lemma partial_lift {A} (r : Result A) Q (E : S -> Prop) s :
  (forall a, r = Ok a -> Q a s) -> E s -> partial (lift r) Q E s.
Proof. unfold partial, lift. destruct r; auto. Qed.

Lemma partial_gets {A} (g : S -> A) Q E s : Q (g s) s -> partial (gets g) Q E s.
Proof. done. Qed.

Lemma partial_modify g Q (E : S -> Prop) s : Q tt (g s) -> partial (modify g) Q E s.
Proof. done. Qed.

Lemma partial_attempt {A} (m : M S A) (Q : Result A -> S -> Prop) (E : S -> Prop) s :
  partial m (fun a => Q (Ok a)) (fun s' => (forall e, Q (Err e) s') /\ E s') s ->
  partial (attempt m) Q E s.
Proof.
  unfold partial, attempt. destruct (m s) as [[[a|e]| |] s']; [done|intros [HQ _]; apply HQ|by intros []..].
Qed.

Lemma partial_map_err {A} e (m : M S A) Q (E : S -> Prop) s :
  partial m Q E s -> partial (map_err e m) Q E s.
Proof. unfold partial, map_err. by destruct (m s) as [[[a|e']| |] s']. Qed.

Lemma partial_keeps {X A} (f : S -> X) (m : M S A) (Q : A -> S -> Prop) (E : S -> Prop) s :
  keeps f m -> (forall a s', f s' = f s -> Q a s') -> (forall s', f s' = f s -> E s') ->
  partial m Q E s.
Proof.
  intros Hm HQ HE. specialize (Hm s). unfold partial.
  destruct (m s) as [[[a|e]| |] s']; cbn in *; auto.
Qed.
End partial.

(** The registry's own calls and the files keep the flags and the generations. *)
Section registry.
Context {X : Type} (f : RegistryWorld -> X).

Lemma keeps_on_disk {A} (m : M Disk A) : (forall w d, f (set_disk w d) = f w) -> keeps f (on_disk m).
Proof. intros Hf w. unfold on_disk. destruct (m (rw_disk w)) as [o d]. apply Hf. Qed.

Lemma keeps_reg_call {A} (effect : Keys -> N * option A * Keys) :
  (forall w k, f (set_keys w k) = f w) -> (forall w l, f (set_key_fates w l) = f w) ->
  keeps f (reg_call effect).
Proof.
  intros Hk Hl w. unfold reg_call. destruct (effect (rw_keys w)) as [[status a] keys].
  destruct (default Works _); cbn [snd]; by rewrite ?Hk, Hl.
Qed.
End registry.

Section flags.
Context `{RegistryNames}.

Lemma keeps_flags_disk {A} (m : M Disk A) : keeps rw_flags (on_disk m).
Proof. by apply keeps_on_disk. Qed.
Lemma keeps_flags_call {A} (effect : Keys -> N * option A * Keys) : keeps rw_flags (reg_call effect).
Proof. by apply keeps_reg_call. Qed.
Lemma keeps_generations_disk {A} (m : M Disk A) : keeps rw_generations (on_disk m).
Proof. by apply keeps_on_disk. Qed.
Lemma keeps_generations_call {A} (effect : Keys -> N * option A * Keys) :
  keeps rw_generations (reg_call effect).
Proof. by apply keeps_reg_call. Qed.
End flags.

#[export] Hint Resolve keeps_flags_disk keeps_flags_call keeps_generations_disk
  keeps_generations_call : keeps.

Section opening.
Context `{RegistryNames}.
Context {X : Type} (f : RegistryWorld -> X).
Context (Hcall : forall A (effect : Keys -> N * option A * Keys), keeps f (reg_call effect)).
#[local] Hint Resolve Hcall : keeps.

Lemma keeps_open_components on_status create parent components :
  keeps f (open_registry_components on_status create parent components).
Proof.
  revert parent. induction components as [|c components IH]; intros parent;
    cbn [open_registry_components]; [keeps|].
  unfold RegCreateKey, RegOpenKey, registry_key_is_link, RegQueryValue. keeps.
Qed.
End opening.
