(* ===== verification/ServiceJobs.v ===== *)
(** * The job of the service

    The abstract life of the one maintenance job, and the theorem that the
    service refines it: whatever requests, workers and stops come in whatever
    order, each step of the service is a step of this machine or leaves it where
    it is, and what a status request answers is its state. *)

From S2P Require Import Prelude Errors Effects Identifiers Json Trust FileSet RegistrySet Roots.
From S2P Require Import RegistryScopes Protocol Authorization Storage RegistryStorage Generations.
From S2P Require Import WindowsRegistry RegistryTransaction Journal Transaction Wire Impersonation.
From S2P Require Import Service Frames.

(** ** The specification *)

Inductive Job :=
  | JIdle
  | JPreparing (owner : string)
  | JReady (id owner : string)
  | JCommitting (id owner : string)
  | JFinished (id owner state : string).

(** A job starts on its owner's request; it is committed on a request of its
    owner that names it, once; its end is one of three; a finished job stays
    until the next transaction. *)
Inductive JobEvent := ByCaller (caller_sid : string) (r : Request) | ByWorker | ByWake.

Definition starts_transaction (r : Request) : Prop :=
  match r with PrepareFileSet _ _ _ _ | ApplyRegistrySet _ _ _ => True | _ => False end.

Inductive job_step : JobEvent -> Job -> Job -> Prop :=
  | job_prepare owner m root manifest staging j :
      j = JIdle \/ (exists id o state, j = JFinished id o state) ->
      job_step (ByCaller owner (PrepareFileSet m root manifest staging)) j (JPreparing owner)
  | job_forget caller r id o state :
      starts_transaction r -> job_step (ByCaller caller r) (JFinished id o state) JIdle
  | job_prepared id owner : job_step ByWake (JPreparing owner) (JReady id owner)
  | job_refused owner : job_step ByWake (JPreparing owner) JIdle
  | job_commit m id owner :
      job_step (ByCaller owner (CommitJob m id)) (JReady id owner) (JCommitting id owner)
  | job_end id owner state :
      state ∈ ["committed"; "rolledBack"; "failed"] ->
      job_step ByWorker (JCommitting id owner) (JFinished id owner state).

(** ** The machine of the service *)

Inductive ServiceEvent :=
  | Served (e : PipeEvent)
  | PrepareRan
  | CommitRan
  | CommitEnded
  | StopControl.

Section machine.
Context `{SerdeJson, UnicodeCase, Crypto, Base64, RegistryNames, TransactionPlatform}.
Context `{!Reader RootRegistryDocument, !Reader RegistryScopeRegistryDocument,
          !Reader GenerationRegistryDocument, !Reader RegistryTransactionJournal,
          !Reader Keyring, !Reader FileSet, !Reader RegistrySet, !Reader Request}.
Context (data_directory : string).

(** A round of the loop with its result, a worker, or the control handler.  The
    loop sees the stop event only when it is set. *)
Inductive service_step : ServiceEvent -> Service -> Service -> Prop :=
  | step_round spawned e r s s' :
      (e = PipeStop -> stop_event (flags s) = true) ->
      serve_round spawned e s = (Done (Ok r), s') -> service_step (Served e) s s'
  | step_prepare_worker s s' :
      prepare_worker data_directory s = (Done (Ok tt), s') -> service_step PrepareRan s s'
  | step_commit_worker s s' :
      commit_worker s = (Done (Ok tt), s') -> service_step CommitRan s s'
  | step_commit_ends s s' :
      commit_worker_ends s = (Done (Ok tt), s') -> service_step CommitEnded s s'
  | step_stop s s' :
      service_control_stop s = (Done (Ok tt), s') -> service_step StopControl s s'.

(** The event of the job machine that an event of the service stands for. *)
Inductive stands_for : ServiceEvent -> JobEvent -> Prop :=
  | stands_request slot c message caller bytes r :
      c_caller c = Ok caller -> message = Ok bytes -> decode_request bytes = Ok r ->
      stands_for (Served (PipeRequest slot c message)) (ByCaller (sid caller) r)
  | stands_wake : stands_for (Served PipeWake) ByWake
  | stands_worker : stands_for CommitRan ByWorker.

(** ** The correspondence *)

Definition is_active (s : Service) (id owner : string) (P : ActiveJobState -> Prop) : Prop :=
  s_preparing s = None /\
  exists a, s_active s = Some a /\ aj_job_id a = id /\ aj_owner_sid a = owner /\ P (aj_state a).

Definition ends_as (state : string) (st : ActiveJobState) : Prop :=
  state ∈ ["committed"; "rolledBack"; "failed"] /\
  match st with
  | JobCompleted _ _ _ st => st = state
  | JobCommitting (Sent result) =>
      match completed_of result with JobCompleted _ _ _ st => st = state | _ => False end
  | JobCommitting Disconnected => state = "failed"
  | _ => False
  end.

Definition corresponds (s : Service) (j : Job) : Prop :=
  match j with
  | JIdle => s_preparing s = None /\ s_active s = None
  | JPreparing owner =>
      s_active s = None /\
      exists f, s_preparing s = Some f /\
        match pf_receiver f with
        | Running (_, work) => pw_owner_sid work = owner
        | Sent (Ok outcome) => po_owner_sid outcome = owner
        | _ => True
        end
  | JReady id owner => is_active s id owner (fun st => exists p, st = JobPrepared p)
  | JCommitting id owner => is_active s id owner (fun st => exists p, st = JobCommitting (Running p))
  | JFinished id owner state => is_active s id owner (ends_as state)
  end.

(** The part of the state the job machine is about. *)
Definition job_part (s : Service) := (s_active s, s_preparing s).

Lemma corresponds_part s s' j : job_part s' = job_part s -> corresponds s j -> corresponds s' j.
Proof. intros [= E1 E2]. unfold corresponds, is_active. by rewrite E1, E2. Qed.

Lemma completed_state result :
  exists st, st ∈ ["committed"; "rolledBack"; "failed"] /\
    match completed_of result with JobCompleted _ _ _ st' => st' = st | _ => False end.
Proof.
  destruct result as [r|e]; cbn; [exists "committed"; split; [set_solver|done]|].
  case_bool_decide; [exists "failed"|exists "rolledBack"]; split; try done; set_solver.
Qed.

Lemma ends_refresh state a : ends_as state (aj_state a) -> ends_as state (aj_state (refresh_job a)).
Proof.
  intros [Hin Hs]. split; [done|]. unfold refresh_job.
  destruct (aj_state a) as [p|[w|[r|e]|]|c e g st] eqn:E; rewrite ?E; done.
Qed.

Lemma corresponds_refresh s j :
  corresponds s j -> corresponds (with_active (refresh_job <$> s_active s) s) j.
Proof.
  unfold corresponds, is_active. cbn [s_active s_preparing with_active].
  destruct j as [|owner|id owner|id owner|id owner state].
  - intros [-> ->]. done.
  - intros [-> ?]. done.
  - intros (-> & a & -> & <- & <- & p & Hp). split; [done|]. exists a.
    cbn. unfold refresh_job. rewrite Hp. by eauto 10.
  - intros (-> & a & -> & <- & <- & p & Hp). split; [done|]. exists a.
    cbn. unfold refresh_job. rewrite Hp. by eauto 10.
  - intros (-> & a & -> & <- & <- & Hs). split; [done|]. exists (refresh_job a).
    split_and!; [done| | |by apply ends_refresh];
      unfold refresh_job; by destruct (aj_state a) as [|[]|].
Qed.

(** ** What leaves the job alone *)

Lemma keeps_job_registry {A} (m : M RegistryWorld A) : keeps job_part (on_registry m).
Proof. intros s. unfold on_registry. by destruct (m (s_registry s)). Qed.
Lemma keeps_job_tree {A} (m : M World A) : keeps job_part (on_tree m).
Proof. intros s. unfold on_tree. by destruct (m (s_tree s)). Qed.
Lemma keeps_job_files {A} (m : M Disk A) : keeps job_part (on_files m).
Proof. apply keeps_job_registry. Qed.
#[local] Hint Resolve keeps_job_registry keeps_job_tree keeps_job_files : keeps.

Lemma keeps_job_register_root c owner id product kind path :
  keeps job_part (register_root_request c owner id product kind path).
Proof. unfold register_root_request. keeps. Qed.
Lemma keeps_job_unregister_root caller id authorized :
  keeps job_part (unregister_root_request caller id authorized).
Proof. unfold unregister_root_request. keeps. Qed.
Lemma keeps_job_register_scope c owner id product v key allowed :
  keeps job_part (register_scope_request c owner id product v key allowed).
Proof. unfold register_scope_request. keeps. Qed.
Lemma keeps_job_unregister_scope caller id authorized :
  keeps job_part (unregister_scope_request caller id authorized).
Proof. unfold unregister_scope_request. keeps. Qed.

#[local] Hint Resolve keeps_job_register_root keeps_job_unregister_root keeps_job_register_scope
  keeps_job_unregister_scope : keeps.

(** ** One request *)

Lemma corresponds_discard s j :
  corresponds s j -> s_preparing s = None ->
  partial discard_completed (fun _ s' => s_preparing s' = None /\
      (corresponds s' j \/ (corresponds s' JIdle /\ exists id o st, j = JFinished id o st)))
    (fun _ => False) s.
Proof.
  intros Hc Hp. unfold discard_completed. apply partial_modify.
  destruct (s_active s) as [a|] eqn:Ea; [|by auto].
  cbn. destruct (aj_state a) as [p|r|c e g st] eqn:Es; [by auto..|].
  split; [done|]. right. split; [done|].
  destruct j as [|owner|id owner|id owner|id owner state]; cbn in Hc; [..|by eauto];
    unfold is_active in Hc; naive_solver congruence.
Qed.

(** Where a request of [caller] may leave the machine that was in [j]. *)
Definition moved (caller : string) (r : Request) (j : Job) (s' : Service) : Prop :=
  exists j', corresponds s' j' /\ (j' = j \/ job_step (ByCaller caller r) j j').

Lemma moved_same caller r j s' : corresponds s' j -> moved caller r j s'.
Proof. intros Hc. exists j. auto. Qed.

Lemma moved_discard caller r j s' :
  starts_transaction r ->
  corresponds s' j \/ (corresponds s' JIdle /\ exists id o st, j = JFinished id o st) ->
  moved caller r j s'.
Proof.
  intros Hr [Hc|[Hc (id & o & st & ->)]]; [by apply moved_same|].
  exists JIdle. split; [done|]. right. by constructor.
Qed.

(** A step that leaves the job part alone leaves the correspondence alone. *)
Lemma partial_stays {A} (m : M Service A) (Q : A -> Service -> Prop) (E : Service -> Prop)
    (P : Service -> Prop) s :
  keeps job_part m -> (forall s s', job_part s' = job_part s -> P s -> P s') -> P s ->
  (forall a s', P s' -> Q a s') -> (forall s', P s' -> E s') -> partial m Q E s.
Proof. intros Hm Hp Hs HQ HE. eapply partial_keeps; [exact Hm|eauto..]. Qed.

Lemma moved_part caller r j s s' : job_part s' = job_part s -> moved caller r j s -> moved caller r j s'.
Proof. intros E (j' & Hc & Hj). exists j'. split; [by eapply corresponds_part|done]. Qed.

Lemma apply_request_moves c caller scope path m id manifest s j :
  corresponds s j -> s_preparing s = None ->
  partial (apply_registry_set_request c caller scope path)
    (fun _ => moved (sid caller) (ApplyRegistrySet m id manifest) j)
    (moved (sid caller) (ApplyRegistrySet m id manifest) j) s.
Proof.
  intros Hc Hp. unfold apply_registry_set_request. apply partial_bind.
  eapply partial_mono; [by apply (corresponds_discard s j)| |done].
  cbv beta. intros [] s1 [Hp1 Hd1].
  eapply (partial_stays _ _ _ (moved (sid caller) (ApplyRegistrySet m id manifest) j));
    [keeps|apply moved_part|by apply moved_discard|done|done].
Qed.

Lemma prepare_request_moves c caller root path staging m id manifest s j :
  corresponds s j -> s_preparing s = None ->
  partial (prepare_file_set_request c caller root path staging)
    (fun work s' => corresponds s' JIdle /\ pw_owner_sid work = sid caller /\
       (j = JIdle \/ exists id o st, j = JFinished id o st))
    (moved (sid caller) (PrepareFileSet m id manifest staging) j) s.
Proof.
  intros Hc Hp. unfold prepare_file_set_request. apply partial_bind.
  eapply partial_mono; [by apply (corresponds_discard s j)| |done].
  cbv beta. intros [] s1 [Hp1 Hd1].
  assert (moved (sid caller) (PrepareFileSet m id manifest staging) j s1) as Hm
    by (by apply moved_discard).
  apply partial_bind, partial_gets, partial_bind, partial_lift; [intros [] Ha|done].
  apply ensure_Ok in Ha. case_bool_decide as Ha'; [|done]. clear Ha.
  assert (j = JIdle \/ exists id o st, j = JFinished id o st) as Hj.
  { destruct Hd1 as [Hc1|[_ Hj]]; [|by right].
    destruct j as [|owner|id' owner|id' owner|id' owner state]; cbn in Hc1; unfold is_active in Hc1;
      eauto; naive_solver congruence. }
  assert (corresponds s1 JIdle) as Hi by done.
  assert (partial (
      '(manifest_caller, manifest_bytes) ← lift (read_manifest_as_caller c path MAX_MANIFEST_BYTES);
      _ ← lift (ensure (bool_decide (sid manifest_caller = sid caller)) RootUnauthorized
            "caller token changed while opening the manifest");
      keyring_bytes ← on_files (read_service_file keyring_path MAX_MANIFEST_BYTES);
      kr ← lift (verify_keyring keyring_bytes KeyringAcceptance_default);
      generations ← gets s_generations;
      accepted ← lift (previous generations (root_id root));
      manifest ← lift (verify_file_set manifest_bytes kr
        {| fsa_expected_product_id := root_product_id root; fsa_previous := accepted |});
      pure {| pw_manifest := manifest; pw_root := root; pw_staging_path := staging;
              pw_owner_sid := sid caller;
              pw_thumbprints := authenticode_signer_thumbprints (keyring kr) |})
    (fun work s' => pw_owner_sid work = sid caller /\ job_part s' = job_part s1)
    (fun s' => job_part s' = job_part s1) s1) as Hrest.
  { apply partial_bind, partial_lift; [intros [mc mb] _|done].
    apply partial_bind, partial_lift; [intros [] _|done].
    apply partial_bind. eapply (partial_keeps job_part); [by keeps| |done]. intros kb s2 E2.
    apply partial_bind, partial_lift; [intros kr _|done].
    apply partial_bind, partial_gets.
    apply partial_bind, partial_lift; [intros accepted _|done].
    by apply partial_bind, partial_lift; [intros manifest0 _|]. }
  eapply partial_mono; [exact Hrest| |]; cbv beta.
  - intros work s2 [Ho E2]. split; [by eapply corresponds_part|done].
  - intros s2 E2. by eapply moved_part.
Qed.

Lemma corresponds_prepared s j a p :
  corresponds s j -> s_active s = Some a -> aj_state a = JobPrepared p ->
  j = JReady (aj_job_id a) (aj_owner_sid a).
Proof.
  intros Hc Ha Hp.
  destruct j as [|o|id o|id o|id o state]; cbn in Hc; unfold is_active in Hc; [destruct Hc; congruence..| | |].
  - destruct Hc as (_ & a' & Ha' & <- & <- & _). congruence.
  - destruct Hc as (_ & a' & Ha' & _ & _ & p' & Hp'). congruence.
  - destruct Hc as (_ & a' & Ha' & _ & _ & _ & Hs'). rewrite Ha' in Ha. injection Ha as ->.
    by rewrite Hp in Hs'.
Qed.

(** The commit of a job that its owner asked for. *)
Lemma commit_request_moves spawned owner m id s j :
  corresponds s j -> s_preparing s = None ->
  (exists a, s_active s = Some a /\ aj_job_id a = id /\ aj_owner_sid a = owner) ->
  partial (commit_job_request spawned id id)
    (fun _ => moved owner (CommitJob m id) j) (moved owner (CommitJob m id) j) s.
Proof.
  intros Hc Hp (a & Ha & Hid & Ho). unfold commit_job_request.
  apply partial_bind, partial_gets, partial_bind, partial_lift; [intros [] _|by apply moved_same].
  apply partial_bind, partial_gets. rewrite Ha. cbn [ok_or].
  apply partial_bind, partial_lift; [intros ? [= <-]|by apply moved_same].
  destruct (aj_state a) as [p|r|c e g st] eqn:Es; [|by apply moved_same..].
  assert (j = JReady id owner) as -> by (rewrite <- Hid, <- Ho; by eapply corresponds_prepared).
  apply partial_bind, partial_modify. destruct spawned.
  - apply partial_bind, partial_modify, partial_pure.
    exists (JCommitting id owner). split; [|right; constructor].
    split; [done|]. eexists. by eauto 10.
  - apply partial_bind, partial_modify, partial_bind, partial_modify.
    apply moved_same. split; [done|]. eexists. by eauto 10.
Qed.

Lemma job_status_moves id s j :
  corresponds s j ->
  partial (job_status_response id) (fun _ s' => corresponds s' j) (fun s' => corresponds s' j) s.
Proof.
  intros Hc. unfold job_status_response. apply partial_bind, partial_modify.
  pose proof (corresponds_refresh s j Hc) as Hr.
  apply partial_bind, partial_gets. by apply partial_bind, partial_lift; [intros|].
Qed.

(** A job that is being prepared answers no mutation. *)
Lemma authorized_job_owner request caller roots scopes job id a :
  (exists m, request = CommitJob m id) \/ (exists m, request = GetJobStatus m id) ->
  authorize_request request caller roots scopes job = Ok a -> job = Some (id, sid caller).
Proof.
  intros [[m ->]|[m ->]] Ha; apply authorize_request_granted in Ha; inversion Ha; done.
Qed.

Definition answered (c : Client) (r : Request) (j : Job) (s' : Service) : Prop :=
  corresponds s' j \/ exists caller, c_caller c = Ok caller /\ moved (sid caller) r j s'.

Definition dispatched (c : Client) (r : Request) (j : Job) (d : Dispatch) (s' : Service) : Prop :=
  match d with
  | Respond _ => answered c r j s'
  | Prepare work => exists caller m root manifest staging,
      c_caller c = Ok caller /\ r = PrepareFileSet m root manifest staging /\
      corresponds s' JIdle /\ pw_owner_sid work = sid caller /\
      (j = JIdle \/ exists id o st, j = JFinished id o st)
  end.

Lemma process_request_moves c spawned r s j :
  corresponds s j ->
  partial (process_request c spawned r)
    (dispatched c r j) (answered c r j) s.
Proof.
  intros Hc0. unfold process_request.
  apply partial_bind, partial_gets, partial_bind, partial_lift; [intros [] Hb%ensure_Ok|by left].
  apply partial_bind, partial_modify.
  pose proof (corresponds_refresh s j Hc0) as Hc.
  assert (s_preparing s = None \/ is_mutation r = false) as Hprep.
  { destruct (s_preparing s); [right|by left]. cbn in Hb. by apply negb_true_iff in Hb. }
  set (s1 := with_active (refresh_job <$> s_active s) s) in *.
  assert (s_preparing s1 = None \/ is_mutation r = false) as Hprep1 by done.
  clearbody s1. clear Hb Hc0 Hprep s.
  apply partial_bind, partial_lift; [intros caller Hcaller|by left].
  assert (c_caller c = Ok caller) as Hcc.
  { unfold caller_identity_from_connected_pipe in Hcaller. ok_inv. congruence. }
  apply partial_bind, partial_gets, partial_bind, partial_gets, partial_bind, partial_gets.
  apply partial_bind, partial_lift; [intros auth Hauth|by left].
  assert (forall m : M Service Value, keeps job_part m ->
    partial (respond_with m) (dispatched c r j) (answered c r j) s1)
    as Hkeeps.
  { intros m Hm. apply partial_bind. eapply (partial_keeps job_part); [done|..];
      intros; left; by eapply corresponds_part. }
  assert (forall m : M Service Value,
    partial m (fun _ => moved (sid caller) r j) (moved (sid caller) r j) s1 ->
    partial (respond_with m) (dispatched c r j) (answered c r j) s1)
    as Hmoves.
  { intros m Hm. apply partial_bind. eapply partial_mono; [exact Hm|..]; cbv beta.
    - intros v s' Hs'. right. by eauto.
    - intros s' Hs'. right. by eauto. }
  apply authorize_request_granted in Hauth.
  destruct r; destruct auth; try (by left); inversion Hauth; subst;
    try (apply Hkeeps; auto with keeps; fail).
  - apply Hmoves. apply apply_request_moves; [done|]. by destruct Hprep1 as [?|[=]].
  - apply partial_bind.
    eapply partial_mono; [eapply prepare_request_moves; [done|by destruct Hprep1 as [?|[=]]]| |]; cbv beta.
    + intros work s' (Hi & Ho & Hj). apply partial_pure.
      do 5 eexists. split_and!; [exact Hcc|done|done|done|done].
    + intros s' Hm. right. exists caller. split; [exact Hcc|exact Hm].
  - apply Hmoves. apply commit_request_moves; [done|by destruct Hprep1 as [?|[=]]|].
    match goal with H : owns_job _ _ _ |- _ => unfold owns_job in H end.
    destruct (s_active s1) as [a|]; [|done]. exists a. cbn in *. naive_solver.
  - rewrite bool_decide_eq_true_2 by done. apply partial_bind.
    eapply partial_mono; [by apply job_status_moves| |]; cbv beta; intros; by left.
Qed.

(** ** The loop and the workers *)

Definition refined (e : ServiceEvent) (j : Job) (s' : Service) : Prop :=
  exists j', corresponds s' j' /\ (j' = j \/ exists ev, stands_for e ev /\ job_step ev j j').

Lemma refined_same e j s' : corresponds s' j -> refined e j s'.
Proof. intros Hc. exists j. auto. Qed.

Lemma serve_request_moves spawned slot c message s j :
  corresponds s j ->
  partial (serve_request spawned slot c message)
    (fun _ => refined (Served (PipeRequest slot c message)) j)
    (refined (Served (PipeRequest slot c message)) j) s.
Proof.
  intros Hc. unfold serve_request.
  assert (forall r s', (bytes ← message; decode_request bytes) = Ok r -> answered c r j s' ->
            refined (Served (PipeRequest slot c message)) j s') as Hans.
  { intros r s' Hr [Hs|(caller & Hcc & j' & Hj & [->|Hstep])]; [by apply refined_same..|].
    exists j'. split; [done|]. right. eexists. split; [|exact Hstep].
    apply bind_Ok in Hr as (bytes & Hm & Hd). by econstructor. }
  apply partial_bind, partial_attempt, partial_bind.
  apply partial_lift; [intros r Hr|by split; [intros e|]; apply refined_same].
  eapply partial_mono; [by apply process_request_moves| |]; cbv beta.
  - intros [v|work] s1 Hs1; cbn in Hs1; [by eapply Hans|].
    destruct Hs1 as (caller & m & root & manifest & staging & Hcc & -> & [Hp Ha] & Ho & Hj).
    assert (forall j', job_step (ByCaller (sid caller) (PrepareFileSet m root manifest staging)) j j' ->
      exists ev, stands_for (Served (PipeRequest slot c message)) ev /\ job_step ev j j') as Hev.
    { intros j' Hj'. eexists. split; [|exact Hj'].
      apply bind_Ok in Hr as (bytes & Hm & Hd). by econstructor. }
    destruct spawned.
    + apply partial_bind, partial_modify, partial_pure. exists (JPreparing (sid caller)).
      split; [|right; apply Hev; by constructor]. split; [done|]. by eexists.
    + apply partial_pure. exists JIdle. split; [done|].
      destruct Hj as [->|(id & o & st & ->)]; [by left|right]. apply Hev. by constructor.
  - intros s1 Hs1. split; [intros e|]; by eapply Hans.
Qed.

Lemma finish_prepare_moves outcome s :
  s_preparing s = None -> s_active s = None ->
  partial (finish_prepare outcome)
    (fun _ s' => exists id, corresponds s' (JReady id (po_owner_sid outcome)))
    (fun s' => corresponds s' JIdle) s.
Proof.
  intros Hp Ha. unfold finish_prepare.
  apply partial_bind, partial_gets, partial_bind, partial_lift; [intros g _|done].
  apply partial_bind, partial_modify, partial_bind.
  eapply (partial_keeps job_part); [apply keeps_job_files|..].
  - intros [] s' E. apply partial_bind, partial_modify, partial_pure.
    exists (jh_job_id (po_prepared outcome)). injection E as _ E.
    split; [cbn; congruence|]. eexists. by eauto 10.
  - intros s' E. injection E as E1 E2. split; congruence.
Qed.

Lemma serve_wake_moves s j :
  corresponds s j ->
  partial serve_wake (fun _ => refined (Served PipeWake) j) (refined (Served PipeWake) j) s.
Proof.
  intros Hc. unfold serve_wake. apply partial_bind, partial_gets.
  destruct (s_preparing s) as [f|] eqn:Ef; [|by apply partial_pure, refined_same].
  destruct j as [|owner|id owner|id owner|id owner state]; cbn in Hc; unfold is_active in Hc;
    try (destruct Hc; congruence).
  destruct Hc as (Ha & f' & Ef' & Hf). rewrite Ef in Ef'. injection Ef' as <-.
  assert (refined (Served PipeWake) (JPreparing owner) (with_preparing None s)) as Hidle.
  { exists JIdle. split; [done|]. right. eexists. split; constructor. }
  destruct (pf_receiver f) as [[c work]|[outcome|e]|] eqn:Er.
  - apply partial_pure, refined_same. split; [done|]. exists f. by rewrite Er.
  - apply partial_bind, partial_modify, partial_bind, partial_attempt.
    apply partial_bind, partial_lift; [intros o [= <-]|done].
    eapply partial_mono; [by apply finish_prepare_moves| |]; cbv beta.
    + intros v s' [id Hid]. apply partial_pure. exists (JReady id owner). rewrite <- Hf.
      split; [done|]. right. eexists. split; constructor.
    + intros s' Hs'. assert (refined (Served PipeWake) (JPreparing owner) s').
      { exists JIdle. split; [done|]. right. eexists. split; constructor. }
      by split.
  - apply partial_bind, partial_modify, partial_bind, partial_attempt.
    apply partial_bind, partial_lift; [done|]. by split.
  - by apply partial_bind, partial_modify, partial_pure.
Qed.

Lemma run_prepare_owner c work w :
  partial (run_prepare data_directory c work)
    (fun outcome _ => po_owner_sid outcome = pw_owner_sid work) (fun _ => True) w.
Proof.
  assert (forall (m : M World PreparedJob) k, (forall p w', partial (k p)
      (fun outcome _ => po_owner_sid outcome = pw_owner_sid work) (fun _ => True) w') ->
    forall w', partial (m ≫= k) (fun outcome _ => po_owner_sid outcome = pw_owner_sid work)
      (fun _ => True) w') as Hbind.
  { intros m k Hk w'. apply partial_bind. unfold partial at 1.
    destruct (m w') as [[[p|e]| |] w1]; [apply Hk|done..]. }
  unfold run_prepare. apply partial_bind, partial_lift; [intros caller _|done].
  apply partial_bind, partial_lift; [intros [] _|done].
  assert (partial (_ ← lift (transaction_policy data_directory);
    prepared ← prepare_file_set data_directory (pw_manifest work) (pw_root work) (pw_staging_path work);
    pure {| po_prepared := prepared; po_root_id := root_id (pw_root work);
          po_record := {| generation := fs_generation (file_set (pw_manifest work));
                          digest := vfs_digest (pw_manifest work) |};
          po_owner_sid := pw_owner_sid work |})
    (fun outcome _ => po_owner_sid outcome = pw_owner_sid work) (fun _ => True) w) as Hrest.
  { apply partial_bind, partial_lift; [intros [] _|done]. apply Hbind. intros p w'. done. }
  apply partial_bind. destruct (bool_decide _); [|by apply partial_pure].
  apply partial_lift; [by intros []|done].
Qed.

(** C3: the service refines the machine of its job.  A job is prepared only on
    the request of the caller that then owns it, and committed only on its
    owner's request that names it, once; it then ends as committed, rolled back
    or failed and stays so until the next transaction; no other request, worker,
    wake-up or stop, in whatever order they come, moves it. *)
Theorem service_refines_job_machine e s s' j :
  corresponds s j -> service_step e s s' ->
  exists j', corresponds s' j' /\ (j' = j \/ exists ev, stands_for e ev /\ job_step ev j j').
Proof.
  intros Hc Hs. change (refined e j s').
  destruct Hs as [spawned e r s s' _ Hr|s s' Hr|s s' Hr|s s' Hr|s s' Hr].
  - assert (partial (serve_round spawned e) (fun _ => refined (Served e) j) (refined (Served e) j) s)
      as Hp.
    { unfold serve_round. apply partial_bind, partial_gets.
      destruct (may_stop s); [by apply partial_pure, refined_same|].
      destruct e as [slot c message| | |];
        [by apply serve_request_moves|by apply serve_wake_moves|by apply partial_pure, refined_same|].
      by apply partial_bind, partial_gets, partial_pure, refined_same. }
    unfold partial in Hp. by rewrite Hr in Hp.
  - revert Hr. unfold prepare_worker, mbind, M_bind, bind, gets.
    destruct (s_preparing s) as [[slot [[c work]|r|]]|] eqn:Ep;
      try (intros [= <-]; by apply refined_same).
    destruct j as [|owner|id owner|id owner|id owner state]; cbn in Hc; unfold is_active in Hc;
      try (destruct Hc; congruence).
    destruct Hc as (Ha & f & Ef & Hf). rewrite Ep in Ef. injection Ef as <-. cbn in Hf.
    pose proof (run_prepare_owner c work (s_tree s)) as Ho. unfold attempt, on_tree, partial in *.
    destruct (run_prepare data_directory c work (s_tree s)) as [[[o|er]| |] t]; intros [= <-];
      apply refined_same; (split; [done|]); eexists; (split; [done|]); cbn; congruence.
  - revert Hr. unfold commit_worker, mbind, M_bind, bind, gets.
    destruct (s_active s) as [[id owner [p|[p|r|]|]]|] eqn:Ea;
      try (intros [= <-]; by apply refined_same).
    assert (j = JCommitting id owner /\ s_preparing s = None) as [-> Hp].
    { destruct j as [|o|id' o|id' o|id' o state]; cbn in Hc; unfold is_active in Hc;
        [destruct Hc; congruence..| | |].
      - destruct Hc as (_ & a' & Ha' & _ & _ & p' & Hp'). rewrite Ea in Ha'. by injection Ha' as <-.
      - destruct Hc as (Hp & a' & Ha' & <- & <- & _). rewrite Ea in Ha'. by injection Ha' as <-.
      - destruct Hc as (_ & a' & Ha' & _ & _ & _ & Hst). rewrite Ea in Ha'. by injection Ha' as <-. }
    unfold attempt, on_tree. destruct (commit_file_set p (s_tree s)) as [[r| |] t]; intros [= <-].
    destruct (completed_state r) as (st & Hst & Hr).
    exists (JFinished id owner st). split; [|right; eexists; split; by constructor].
    split; [done|]. eexists. split_and!; [done..|]. by split.
  - revert Hr. unfold commit_worker_ends, modify. intros [= <-]. apply refined_same.
    destruct (s_ending s); [done|]. by eapply corresponds_part.
  - revert Hr. unfold service_control_stop, modify. intros [= <-]. apply refined_same.
    by eapply corresponds_part.
Qed.

(** ** What a status request answers *)

Definition job_shows (j : Job) : option (string * string * string) :=
  match j with
  | JReady id owner => Some (id, owner, "prepared")
  | JCommitting id owner => Some (id, owner, "committing")
  | JFinished id owner state => Some (id, owner, state)
  | JIdle | JPreparing _ => None
  end.

Definition shows_job (id state : string) (response : Result Value) : Prop :=
  exists v, response = Ok v /\ entry "jobId" v = Some (VString id)
    /\ entry "state" v = Some (VString state).

Lemma corresponds_shows s j :
  corresponds s j -> (fun a => (aj_job_id a, aj_owner_sid a)) <$> s_active s = fst <$> job_shows j.
Proof.
  destruct j as [|o|id o|id o|id o state]; cbn; unfold is_active.
  - by intros [_ ->].
  - by intros [-> _].
  - by intros (_ & a & -> & <- & <- & _).
  - by intros (_ & a & -> & <- & <- & _).
  - by intros (_ & a & -> & <- & <- & _).
Qed.

Lemma refreshed_shows s j a :
  corresponds s j -> s_active s = Some a ->
  exists state, job_shows j = Some (aj_job_id a, aj_owner_sid a, state) /\
    shows_job (aj_job_id a) state (Ok (job_response (aj_job_id a) (aj_state (refresh_job a)))).
Proof.
  intros Hc Ha. destruct j as [|o|id o|id o|id o state]; cbn in Hc; unfold is_active in Hc;
    [destruct Hc; congruence..| | |]; destruct Hc as (_ & a' & Ha' & <- & <- & Hst);
    rewrite Ha' in Ha; injection Ha as ->; (eexists; split; [done|]); unfold refresh_job.
  - destruct Hst as [p Hp]. rewrite !Hp. by eexists; split_and!.
  - destruct Hst as [p Hp]. rewrite !Hp. by eexists; split_and!.
  - destruct Hst as [_ Hst]. destruct (aj_state a) as [p|[w|[r|e]|]|c e g st] eqn:E;
      rewrite ?E; try done; cbn in Hst; subst; rewrite ?E; by eexists; split_and!.
Qed.

Lemma refresh_idempotent a : refresh_job (refresh_job a) = refresh_job a.
Proof.
  unfold refresh_job. destruct a as [id o [p|[w|[r|e]|]|c e g st]]; cbn; try done.
Qed.

(** What the request does once the caller is known. *)
Definition status_run (id : string) (caller : CallerIdentity) (s : Service)
    : Outcome Dispatch * Service :=
  let s1 := with_active (refresh_job <$> s_active s) s in
  match authorize_owned_job id caller
          ((fun j => (aj_job_id j, aj_owner_sid j)) <$> s_active s1) with
  | Err e => (Done (Err e), s1)
  | Ok _ => respond_with (job_status_response id) s1
  end.

Lemma process_status c spawned caller m id s :
  c_caller c = Ok caller -> c_reverted c = Ok tt ->
  process_request c spawned (GetJobStatus m id) s = status_run id caller s.
Proof.
  intros Hcc Hcr. unfold process_request, status_run, caller_identity_from_connected_pipe.
  rewrite Hcc, Hcr. cbv [mbind M_bind bind gets lift modify refresh_active_job]. cbn [is_mutation request_kind].
  rewrite andb_false_r. cbn.
  destruct (authorize_owned_job id caller _); cbn; [|done]. by rewrite bool_decide_eq_true_2.
Qed.

Lemma status_run_shows id caller s j :
  corresponds s j ->
  exists dispatch s', status_run id caller s = (Done dispatch, s') /\ corresponds s' j /\
    match job_shows j with
    | Some (id', owner, state) =>
        if decide (id = id' /\ owner = sid caller)
        then exists v, dispatch = Ok (Respond v) /\ shows_job id state (Ok v)
        else exists e, dispatch = Err e /\ code e = RootUnauthorized
    | None => exists e, dispatch = Err e /\ code e = RootUnauthorized
    end.
Proof.
  intros Hc. pose proof (corresponds_refresh s j Hc) as Hc1. unfold status_run.
  set (s1 := with_active (refresh_job <$> s_active s) s) in *.
  assert (refresh_job <$> s_active s1 = s_active s1) as Hidem.
  { cbn. destruct (s_active s); [cbn; by rewrite refresh_idempotent|done]. }
  clearbody s1. pose proof (corresponds_shows s1 j Hc1) as Hshow.
  destruct (s_active s1) as [a|] eqn:Ea; cbn [fmap option_fmap option_map authorize_owned_job].
  - destruct (refreshed_shows s1 j a Hc1 Ea) as (state & Hj & v & [= <-] & Hid & Hst). rewrite Hj.
    cbv beta iota.
    destruct (bool_decide (aj_job_id a = id) && bool_decide (aj_owner_sid a = sid caller)) eqn:Eb.
    + apply andb_true_iff in Eb as [<-%bool_decide_eq_true Ho%bool_decide_eq_true].
      cbn.
      unfold respond_with, job_status_response, refresh_active_job, mbind, M_bind, bind, modify, gets, lift.
      cbn. rewrite Ea. cbn. eexists _, _. split; [done|]. split.
      * eapply corresponds_part; [|exact Hc1]. unfold job_part. cbn. rewrite Ea. cbn.
        injection Hidem as Hr. by rewrite Hr.
      * rewrite decide_True by done. eexists. split; [done|]. by eexists.
    + cbn. eexists _, _. split; [done|]. split; [done|].
      rewrite decide_False; [by eexists|].
      intros [Hi Ho]. by rewrite !bool_decide_eq_true_2 in Eb by done.
  - cbn. eexists _, _. split; [done|]. split; [done|].
    destruct (job_shows j) as [[[id' o] st]|]; [done|]. by eexists.
Qed.

(** C6: a status request tells its owner the truth: it answers with the state of
    the job machine, to the owner of the job it names and to nobody else, and
    leaves the machine where it is. *)
Theorem job_status_truthful spawned slot c caller bytes m id s j r s' :
  corresponds s j -> c_caller c = Ok caller -> c_reverted c = Ok tt ->
  decode_request bytes = Ok (GetJobStatus m id) -> may_stop s = false ->
  serve_round spawned (PipeRequest slot c (Ok bytes)) s = (Done (Ok r), s') ->
  corresponds s' j /\
  exists response, r = Answer slot (Query "job-status") response /\
    match job_shows j with
    | Some (id', owner, state) =>
        if decide (id = id' /\ owner = sid caller) then shows_job id state response
        else exists e, response = Err e /\ code e = RootUnauthorized
    | None => exists e, response = Err e /\ code e = RootUnauthorized
    end.
Proof.
  intros Hc Hcc Hcr Hd Hstop. unfold serve_round, serve_request.
  cbv [mbind M_bind bind gets attempt lift]. rewrite Hstop. cbn [mbind Result_bind]. rewrite Hd.
  rewrite (process_status c spawned caller) by done.
  destruct (status_run_shows id caller s j Hc) as (d & s1 & -> & Hc1 & Hd1).
  destruct (job_shows j) as [[[id' o] st]|]; [case_decide|];
    [destruct Hd1 as (v & -> & Hv)|destruct Hd1 as (e & -> & He)..];
    intros [= <- <-]; (split; [done|]); eexists; (split; [done|]); by eauto.
Qed.
End machine.
