(* ===== verification/ServiceLife.v ===== *)
(** * The stop and the start of the service

    When the loop of the service ends while a commit worker is at work: never,
    as long as every worker drops its [CommitActivity] before the loop sees its
    result; a worker that is late takes the protection from the next commit.
    What [recover_service_state] leaves: nothing active, no journal of a registry
    set, and the generation of every job that the recovery found committed. *)

From stdpp Require Import relations.
From S2P Require Import Prelude Errors Effects Identifiers Json Trust FileSet RegistrySet Roots.
From S2P Require Import RegistryScopes Protocol Authorization Storage RegistryStorage.
From S2P Require Import Generations Journal WindowsRegistry RegistryTransaction Transaction.
From S2P Require Import Wire Impersonation Service Frames ServiceJobs.

(** ** The flags of the process *)

(** The stop event is set only after a stop was requested. *)
Definition event_after_request (f : Flags) : bool := implb (stop_event f) (stop_requested f).
Definition registry_event (w : RegistryWorld) : bool := event_after_request (rw_flags w).

Lemma keeps_registry_event {A} (m : M RegistryWorld A) : keeps rw_flags m -> keeps registry_event m.
Proof. intros Hm w. unfold registry_event. by rewrite Hm. Qed.

Section machine.
Context `{SerdeJson, UnicodeCase, Crypto, Base64, RegistryNames, TransactionPlatform}.
Context `{!Reader RootRegistryDocument, !Reader RegistryScopeRegistryDocument,
          !Reader GenerationRegistryDocument, !Reader RegistryTransactionJournal,
          !Reader Keyring, !Reader FileSet, !Reader RegistrySet, !Reader Request}.
Context (data_directory : string).

Lemma keeps_flags_open scope : keeps rw_flags (open_registry_scope_key scope).
Proof. apply keeps_open_components. intros; apply keeps_flags_call. Qed.
Lemma keeps_flags_create scope : keeps rw_flags (create_registry_scope_key scope).
Proof.
  unfold create_registry_scope_key. apply keeps_bind; [keeps|intros _].
  apply keeps_open_components. intros; apply keeps_flags_call.
Qed.
Lemma keeps_flags_restore key values : keeps rw_flags (restore_registry_values key values).
Proof.
  unfold restore_registry_values, restore_registry_value, RegSetValue, RegDeleteValue. keeps.
Qed.
#[local] Hint Resolve keeps_flags_open keeps_flags_create keeps_flags_restore : keeps.

Lemma keeps_flags_scope c id product v key allowed :
  keeps rw_flags (registered_registry_scope_as_caller c id product v key allowed).
Proof. unfold registered_registry_scope_as_caller. keeps. Qed.

Lemma keeps_flags_snapshots key total values : keeps rw_flags (snapshot_values key total values).
Proof.
  revert total. induction values as [|v values IH]; intros total; cbn [snapshot_values]; [keeps|].
  unfold registry_value_snapshot, RegQueryValue, RegQueryValueData. keeps.
Qed.

Lemma keeps_flags_write key journal values : keeps rw_flags (write_registry_values key journal values).
Proof.
  induction values as [|v values IH]; cbn [write_registry_values]; [keeps|].
  unfold set_registry_value, RegSetValue. keeps.
Qed.
#[local] Hint Resolve keeps_flags_snapshots keeps_flags_write : keeps.

Lemma keeps_flags_undo key journal generations :
  keeps rw_flags (undo_registry_transaction key journal generations).
Proof. unfold undo_registry_transaction. keeps. Qed.
Lemma keeps_flags_accept scope record : keeps rw_flags (accept_and_save scope record).
Proof. unfold accept_and_save. keeps. Qed.
#[local] Hint Resolve keeps_flags_undo keeps_flags_accept : keeps.

(** The activity of a registry set forwards a stop that was requested meanwhile. *)
Lemma keeps_event_during {A} (m : M RegistryWorld A) :
  keeps rw_flags m -> keeps registry_event (during_commit m).
Proof.
  intros Hm. unfold during_commit. apply keeps_bind; [by apply keeps_modify|intros _].
  apply keeps_bind; [by apply keeps_attempt, keeps_registry_event|intros r].
  apply keeps_bind; [|intros _; keeps]. apply keeps_modify. intros w.
  unfold registry_event, event_after_request. cbn. by destruct (stop_event _), (stop_requested _).
Qed.

Lemma keeps_event_apply scope manifest : keeps registry_event (apply_registry_set_transaction scope manifest).
Proof.
  unfold apply_registry_set_transaction. apply keeps_bind.
  - apply keeps_registry_event. unfold create_registry_transaction. keeps.
  - intros [key journal]. apply keeps_bind; [apply keeps_registry_event; keeps|intros _].
    apply keeps_event_during. keeps.
Qed.

(** ** The invariant of the loop *)

(** A commit worker is at work. *)
Definition committing_now (s : Service) : Prop :=
  exists a p, s_active s = Some a /\ aj_state a = JobCommitting (Running p).

Record guarded (s : Service) : Prop := {
  g_commit : committing_now s -> committing (flags s) = true;
  g_event : event_after_request (flags s) = true;
  g_free : stop_event (flags s) = true -> ~ committing_now s;
  g_ended : s_ending s = 0%nat;
}.

Definition guard_part (s : Service) := (flags s, s_active s, s_ending s).

Lemma guarded_part s s' : guard_part s' = guard_part s -> guarded s -> guarded s'.
Proof.
  intros [= E1 E2 E3] [Hc He Hf Hn]. unfold committing_now in *.
  split; unfold committing_now; rewrite ?E1, ?E2, ?E3; done.
Qed.

(** A state without a worker, whose event follows its request. *)
Lemma guarded_free s :
  ~ committing_now s -> event_after_request (flags s) = true -> s_ending s = 0%nat -> guarded s.
Proof. intros Hn He Hz. by split. Qed.

Lemma keeps_guard_registry {A} (m : M RegistryWorld A) :
  keeps rw_flags m -> keeps guard_part (on_registry m).
Proof.
  intros Hm s. specialize (Hm (s_registry s)). unfold on_registry, guard_part, flags.
  destruct (m (s_registry s)). cbn in *. by rewrite Hm.
Qed.
Lemma keeps_guard_files {A} (m : M Disk A) : keeps guard_part (on_files m).
Proof. apply keeps_guard_registry, keeps_flags_disk. Qed.
Lemma keeps_guard_tree {A} (m : M World A) : keeps guard_part (on_tree m).
Proof. intros s. unfold on_tree. by destruct (m (s_tree s)). Qed.
Lemma keeps_guard_scope c id product v key allowed :
  keeps guard_part (on_registry (registered_registry_scope_as_caller c id product v key allowed)).
Proof. apply keeps_guard_registry, keeps_flags_scope. Qed.
#[local] Hint Resolve keeps_guard_files keeps_guard_tree keeps_guard_scope : keeps.

Definition safe {A} (m : M Service A) (s : Service) : Prop := partial m (fun _ => guarded) guarded s.

Lemma safe_keeps {A} (m : M Service A) s : keeps guard_part m -> guarded s -> safe m s.
Proof. intros Hm Hs. eapply partial_keeps; [exact Hm|..]; intros; by eapply guarded_part. Qed.

Lemma refresh_idle a : ~ (exists p, aj_state a = JobCommitting (Running p)) ->
  ~ (exists p, aj_state (refresh_job a) = JobCommitting (Running p)).
Proof.
  unfold refresh_job. destruct a as [id o [p|[w|[r|e]|]|c e g st]]; cbn; try done; intros _ [p Hp];
    try done; by case_bool_decide.
Qed.

Lemma guarded_refresh s : guarded s -> guarded (with_active (refresh_job <$> s_active s) s).
Proof.
  intros [Hc He Hf Hn].
  assert (committing_now (with_active (refresh_job <$> s_active s) s) -> committing_now s) as Hback.
  { intros (a & p & Ha & Hp). cbn in Ha. apply fmap_Some in Ha as (a0 & Ha0 & ->).
    exists a0, p. split; [done|]. revert Hp. unfold refresh_job.
    destruct a0 as [id o [q|[w|[r|e]|]|c e g st]]; cbn; try done; by case_bool_decide. }
  split; [intros Hx; by apply Hc, Hback|done|intros Hx Hy; by apply (Hf Hx), Hback|done].
Qed.

(** After the completed job is dropped and nothing is active, no worker runs. *)
Lemma safe_discard s :
  guarded s -> partial discard_completed (fun _ s' => guarded s') (fun _ => False) s.
Proof.
  intros Hg. unfold discard_completed. apply partial_modify.
  destruct (s_active s) as [a|] eqn:Ea; [|done]. cbn.
  destruct (aj_state a) eqn:Es; [done..|]. destruct Hg as [Hc He Hf Hn].
  apply guarded_free; [|done|done]. by intros (? & ? & ? & ?).
Qed.

Lemma safe_apply c caller scope path s :
  guarded s -> safe (apply_registry_set_request c caller scope path) s.
Proof.
  intros Hg. unfold apply_registry_set_request, safe. apply partial_bind.
  eapply partial_mono; [by apply safe_discard| |done]. cbv beta. intros [] s1 Hg1.
  apply partial_bind, partial_gets, partial_bind, partial_lift; [intros [] Hb%ensure_Ok|done].
  apply negb_true_iff, orb_false_iff in Hb as [Ha%bool_decide_eq_false _].
  apply eq_None_not_Some in Ha.
  apply partial_bind, partial_lift; [intros [mc mb] _|done].
  apply partial_bind, partial_lift; [intros [] _|done].
  apply partial_bind. eapply (partial_keeps guard_part);
    [by keeps| |intros; by eapply guarded_part]. intros kb s2 E2.
  assert (guarded s2) as Hg2 by (by eapply guarded_part).
  assert (s_active s2 = None) as Ha2 by (injection E2 as _ -> _; done).
  apply partial_bind, partial_lift; [intros kr _|done].
  apply partial_bind, partial_gets, partial_bind, partial_lift; [intros accepted _|done].
  apply partial_bind, partial_lift; [intros manifest _|done].
  pose proof (keeps_event_apply scope manifest (s_registry s2)) as Hev.
  assert (forall r, registry_event r = registry_event (s_registry s2) ->
            guarded (with_registry r s2)) as Hr.
  { intros r Er. destruct Hg2 as [_ He _ Hn]. change (registry_event (s_registry s2) = true) in He.
    apply guarded_free; [|by rewrite <- Er in He|done].
    intros (a & p & Hx & _). cbn in Hx. congruence. }
  apply partial_bind. unfold on_registry, partial.
  destruct (apply_registry_set_transaction scope manifest (s_registry s2)) as [[[[n g]|e]| |] r];
    by apply Hr.
Qed.

Lemma safe_prepare c caller root path staging s :
  guarded s -> safe (prepare_file_set_request c caller root path staging) s.
Proof.
  intros Hg. unfold prepare_file_set_request, safe. apply partial_bind.
  eapply partial_mono; [by apply safe_discard| |done]. cbv beta. intros [] s1 Hg1.
  apply safe_keeps; [keeps|done].
Qed.

Lemma safe_commit spawned id authorized s :
  guarded s -> safe (commit_job_request spawned id authorized) s.
Proof.
  intros Hg. unfold commit_job_request, safe.
  apply partial_bind, partial_gets, partial_bind, partial_lift; [intros [] Hb%ensure_Ok|done].
  apply andb_true_iff in Hb as [_ Hstop%negb_true_iff].
  apply partial_bind, partial_gets, partial_bind, partial_lift; [intros a Ha|done].
  destruct (aj_state a) as [p|r|x e g st] eqn:Es; [|done..].
  destruct Hg as [Hc He Hf Hn].
  assert (stop_event (flags s) = false) as Hse.
  { unfold event_after_request, service_stopping in *. rewrite Hstop in He.
    by destruct (stop_event (flags s)). }
  apply partial_bind, partial_modify. destruct spawned.
  - apply partial_bind, partial_modify, partial_pure. split; [done|done| |done].
    intros Hx. exfalso. change (stop_event (flags s) = true) in Hx. congruence.
  - apply partial_bind, partial_modify, partial_bind, partial_modify.
    apply guarded_free; [|done|done]. intros (a' & p' & [= <-] & Hp'). done.
Qed.

Lemma safe_process c spawned r s : guarded s -> safe (process_request c spawned r) s.
Proof.
  intros Hg0. unfold process_request, safe.
  apply partial_bind, partial_gets, partial_bind, partial_lift; [intros [] _|done].
  apply partial_bind, partial_modify. pose proof (guarded_refresh s Hg0) as Hg.
  set (s1 := with_active (refresh_job <$> s_active s) s) in *. clearbody s1.
  apply partial_bind, partial_lift; [intros caller _|done].
  apply partial_bind, partial_gets, partial_bind, partial_gets, partial_bind, partial_gets.
  apply partial_bind, partial_lift; [intros auth _|done].
  assert (forall m : M Service Value, safe m s1 -> safe (respond_with m) s1) as Hresp.
  { intros m Hm. apply partial_bind. by eapply partial_mono; [exact Hm|..]. }
  destruct r; destruct auth; try done.
  - apply Hresp, safe_keeps; [unfold register_root_request; keeps|done].
  - apply Hresp, safe_keeps; [unfold unregister_root_request; keeps|done].
  - apply Hresp, safe_keeps; [unfold register_scope_request; keeps|done].
  - apply Hresp, safe_keeps; [unfold unregister_scope_request; keeps|done].
  - by apply Hresp, safe_apply.
  - apply partial_bind. eapply partial_mono; [by apply safe_prepare|done..].
  - by apply Hresp, safe_commit.
  - destruct (bool_decide _); [|done]. apply Hresp. unfold job_status_response, safe.
    apply partial_bind, partial_modify. pose proof (guarded_refresh s1 Hg) as Hg2.
    by apply partial_bind, partial_gets, partial_bind, partial_lift.
Qed.

(** ** The steps of the machine *)

Lemma safe_round spawned e s : guarded s -> safe (serve_round spawned e) s.
Proof.
  intros Hg. unfold serve_round, safe. apply partial_bind, partial_gets.
  destruct (may_stop s); [done|]. destruct e as [slot c message| | |]; [| |done|done].
  - unfold serve_request. apply partial_bind, partial_attempt, partial_bind.
    apply partial_lift; [intros r _|by split].
    eapply partial_mono; [by apply safe_process| |]; cbv beta; [|by split].
    intros [v|work] s1 Hg1; [done|]. destruct spawned; [|done].
    apply partial_bind, partial_modify, partial_pure. by apply (guarded_part s1).
  - unfold serve_wake. apply partial_bind, partial_gets.
    assert (guarded (with_preparing None s)) as Hnone by (by apply (guarded_part s)).
    destruct (s_preparing s) as [f|]; [|done].
    destruct (pf_receiver f) as [w|outcome|]; [done| |by apply partial_bind, partial_modify, partial_pure].
    apply partial_bind, partial_modify, partial_bind, partial_attempt, partial_bind.
    assert (forall s2, guarded s2 -> (forall e : MaintenanceError, partial (pure (Answer (pf_slot f)
      (Mutation "prepare") (Err e))) (fun _ => guarded) guarded s2) /\ guarded s2) as Hsplit
      by (by intros s2 Hg2; split; [intros er; apply partial_pure|]).
    apply partial_lift; [intros o _|by apply Hsplit].
    unfold finish_prepare. apply partial_bind, partial_gets.
    apply partial_bind, partial_lift; [intros g _|by apply Hsplit].
    apply partial_bind, partial_modify, partial_bind.
    eapply (partial_keeps guard_part); [apply keeps_guard_files|..].
    + intros [] s2 E2. apply partial_bind, partial_modify, partial_pure.
      destruct Hg as [Hc He Hf Hn]. injection E2 as E1 E2 E3. apply guarded_free.
      * by intros (a & p & [= <-] & Hp).
      * unfold flags in *. cbn. by rewrite E1.
      * cbn. by rewrite E3.
    + intros s2 E2. apply Hsplit. by apply (guarded_part (with_preparing None s)), (guarded_part s).
Qed.

(** The machine in which a worker that sends its result drops its activity before
    the loop goes on. *)
Inductive calm_step : Service -> Service -> Prop :=
  | calm_round spawned e r s s' :
      (e = PipeStop -> stop_event (flags s) = true) ->
      serve_round spawned e s = (Done (Ok r), s') -> calm_step s s'
  | calm_prepare s s' :
      prepare_worker data_directory s = (Done (Ok tt), s') -> calm_step s s'
  | calm_commit s s1 s' :
      commit_worker s = (Done (Ok tt), s1) -> commit_worker_ends s1 = (Done (Ok tt), s') ->
      calm_step s s'
  | calm_stop s s' : service_control_stop s = (Done (Ok tt), s') -> calm_step s s'.

Lemma calm_step_guarded s s' : guarded s -> calm_step s s' -> guarded s'.
Proof.
  intros Hg Hs. destruct Hs as [spawned e r s s' _ Hr|s s' Hr|s s1 s' Hw Hd|s s' Hr].
  - pose proof (safe_round spawned e s Hg) as Hp. unfold safe, partial in Hp. by rewrite Hr in Hp.
  - revert Hr. unfold prepare_worker, mbind, M_bind, bind, gets.
    destruct (s_preparing s) as [[slot [[c work]|r|]]|]; try (by intros [= <-]).
    unfold attempt, on_tree. destruct (run_prepare data_directory c work (s_tree s)) as [[r| |] t];
      intros [= <-]; by apply (guarded_part s).
  - revert Hw Hd. unfold commit_worker, commit_worker_ends, mbind, M_bind, bind, gets, modify.
    assert (s = s1 -> s_ending s = 0%nat -> (Done (Ok tt), match s_ending s1 with
       | O => s1 | S n => with_ending n (with_flags (drop_commit_activity (flags s1)) s1) end)
       = (Done (Ok tt), s') -> guarded s') as Hnone by (intros <- ->; by intros [= <-]).
    pose proof (g_ended s Hg) as Hz.
    destruct (s_active s) as [[id owner [p|[p|r|]|x e g st]]|] eqn:Ea;
      try (intros [= <-] Hs'; by apply Hnone).
    unfold attempt, on_tree. destruct (commit_file_set p (s_tree s)) as [[r| |] t]; intros [= <-].
    cbn. intros [= <-]. destruct Hg as [Hc He Hf Hn]. apply guarded_free.
    + by intros (a & q & [= <-] & Hq).
    + unfold event_after_request, flags in *. cbn.
      by destruct (stop_event _), (stop_requested _).
    + done.
  - revert Hr. unfold service_control_stop, modify. intros [= <-]. destruct Hg as [Hc He Hf Hn].
    split; [done| | |done].
    + unfold event_after_request. cbn. by destruct (stop_event _ || _).
    + cbn. intros Hx Hnow. apply orb_true_iff in Hx as [Hx|Hx]; [by apply (Hf Hx)|].
      apply negb_true_iff in Hx. assert (committing (flags s) = true) by (by apply Hc). congruence.
Qed.


(** A worker that is late with the drop of its activity takes the protection
    from the next commit: the drop marks the process as not committing, a stop
    then sets the stop event at once, and the next round of the loop ends the
    service while the other commit worker is at work. *)
Theorem late_activity_ends_the_loop s s1 s2 spawned e :
  committing_now s -> s_preparing s = None -> s_ending s <> 0%nat ->
  commit_worker_ends s = (Done (Ok tt), s1) -> service_control_stop s1 = (Done (Ok tt), s2) ->
  serve_round spawned e s2 = (Done (Ok Break), s2) /\ committing_now s2.
Proof.
  intros Hnow Hp Hn. unfold commit_worker_ends, service_control_stop, modify.
  destruct (s_ending s) as [|n]; [done|]. intros [= <-] [= <-]. split; [|done].
  unfold serve_round, may_stop, mbind, M_bind, bind, gets. cbn. rewrite Hp. done.
Qed.
End machine.

(** A root's accepted generation is [record] or a later one. *)
Definition has_accepted (g : GenerationRegistry) (id : string) (record : GenerationRecord) : Prop :=
  exists p, previous g id = Ok (Some p) /\ (p = record \/ (generation record < generation p)%N).

Lemma has_accepted_kept g g' id record :
  generations_wf g -> rtc accept_step g g' -> has_accepted g id record -> has_accepted g' id record.
Proof.
  intros Hwf Hs (p & Hp & Hle). destruct (accept_steps_kept g g' id p Hwf Hs Hp) as (_ & p' & Hp' & Hle').
  exists p'. split; [done|]. destruct Hle as [->|Hlt], Hle' as [->|Hlt']; auto. right. lia.
Qed.

Lemma accept_has_accepted g id record g' :
  generations_wf g -> length (digest record) = 32%nat -> accept g id record = Ok g' ->
  has_accepted g' id record.
Proof.
  intros Hwf Hd (_ & _ & _ & ->)%accept_iff; [|done].
  exists record. split; [|by left]. rewrite previous_accepted by done. by rewrite decide_True.
Qed.

Lemma accept_recovered_kept generations jobs generations' :
  generations_wf generations -> accept_recovered generations jobs = Ok generations' ->
  generations_wf generations' /\ rtc accept_step generations generations' /\
  forall job id record, job ∈ jobs -> generation_from_job_id job = Some (id, record) ->
    has_accepted generations' id record.
Proof.
  unfold accept_recovered. revert generations. induction jobs as [|job jobs IH]; intros g Hwf Ha.
  { injection Ha as ->. split; [done|]. split; [done|]. by intros ??? Hj%not_elem_of_nil. }
  cbn [try_for] in Ha. apply bind_Ok in Ha as (g1 & Hg1 & Ha).
  destruct (generation_from_job_id job) as [[id record]|] eqn:E.
  - destruct (generation_from_job_id_inv _ _ _ E) as (_ & _ & _ & Hd).
    destruct (IH g1) as (Hwf' & Hs & Hall); [by eapply accept_wf|done|].
    split; [done|]. split; [eapply rtc_l; [exact (accepted_next _ _ _ _ Hd Hg1)|done]|].
    intros j i r [->|Hj]%elem_of_cons Hr; [|by eapply Hall].
    rewrite E in Hr. injection Hr as <- <-.
    eapply has_accepted_kept; [exact (accept_wf _ _ _ _ Hwf Hd Hg1)|exact Hs|].
    exact (accept_has_accepted _ _ _ _ Hwf Hd Hg1).
  - injection Hg1 as <-. destruct (IH g Hwf Ha) as (Hwf' & Hs & Hall).
    split; [done|]. split; [done|]. intros j i r [->|Hj]%elem_of_cons Hr; [congruence|by eapply Hall].
Qed.

Section start.
Context `{SerdeJson, UnicodeCase, Crypto, Base64, RegistryNames, TransactionPlatform}.
Context `{!Reader RootRegistryDocument, !Reader RegistryScopeRegistryDocument,
          !Reader GenerationRegistryDocument, !Reader RegistryTransactionJournal,
          !Reader JournalHeader, !Reader JournalStateRecord}.
Context (data_directory : string).

Lemma decode_generations_wf bytes g : decode_generations bytes = Ok g -> generations_wf g.
Proof.
  intros Hd. unfold decode_generations in Hd. ok_inv. subst.
  match goal with H : forallb _ _ = true |- _ => rewrite forallb_Forall, Forall_forall in H; rename H into Hall end.
  intros id r Hr. apply elem_of_map_to_list in Hr. exact (Hall (id, r) Hr).
Qed.

Lemma load_generations_wf path d g d' : load_generations path d = (Done (Ok g), d') -> generations_wf g.
Proof.
  intros Hl. apply bind_Done in Hl as (u & d1 & _ & Hl). apply bind_Done in Hl as (found & d2 & _ & Hl).
  destruct found; [|injection Hl as <- _; apply generations_wf_empty].
  apply bind_Done in Hl as (bytes & d3 & _ & Hl). apply bind_Done in Hl as (bs & d4 & _ & Hl).
  unfold lift in Hl. destruct (decode_generations bs) eqn:E; [|done].
  injection Hl as <- _. by eapply decode_generations_wf.
Qed.

Lemma lift_Done {S A} (r : Result A) (s : S) a s' : lift r s = (Done (Ok a), s') -> r = Ok a /\ s' = s.
Proof. unfold lift. by intros [= -> ->]. Qed.

Lemma on_registry_tree {A} (m : M RegistryWorld A) s a s' :
  on_registry m s = (Done (Ok a), s') -> s_tree s' = s_tree s.
Proof. unfold on_registry. destruct (m (s_registry s)). by intros [= _ <-]. Qed.

Lemma on_tree_Done {A} (m : M World A) s a s' :
  on_tree m s = (Done (Ok a), s') -> m (s_tree s) = (Done (Ok a), s_tree s').
Proof. unfold on_tree. destruct (m (s_tree s)). by intros [= -> <-]. Qed.

Lemma on_files_Done {A} (m : M Disk A) s a s' :
  on_files m s = (Done (Ok a), s') ->
  exists d', m (rw_disk (s_registry s)) = (Done (Ok a), d').
Proof.
  unfold on_files, on_registry, on_disk. destruct (m (rw_disk (s_registry s))) as [o d].
  intros [= -> _]. by exists d.
Qed.

(** C5: a start of the service that returns has finished what was interrupted:
    it starts with no job, with well-formed generations, and every job that the
    recovery of the file transactions found committed has its generation, or a
    later one of the same root, among the accepted ones. *)
Theorem startup_records_commits s s' :
  recover_service_state data_directory s = (Done (Ok tt), s') ->
  corresponds s' JIdle /\ guarded s' /\
  generations_wf (s_generations s') /\ generations_wf (rw_generations (s_registry s')) /\
  exists recovery, recover_incomplete (s_tree s) = (Done (Ok recovery), s_tree s') /\
    forall job id record, job ∈ committed_jobs recovery ->
      generation_from_job_id job = Some (id, record) -> has_accepted (s_generations s') id record.
Proof.
  intros Hr. apply bind_Done in Hr as (roots & s1 & Hr1 & Hr).
  apply bind_Done in Hr as (generations & s2 & Hr2 & Hr).
  apply bind_Done in Hr as (scopes & s3 & Hr3 & Hr).
  apply bind_Done in Hr as (registry_generations & s4 & Hr4 & Hr).
  apply bind_Done in Hr as (u5 & s5 & Hr5 & Hr).
  apply bind_Done in Hr as (u6 & s6 & Hr6 & Hr).
  apply bind_Done in Hr as (recovery & s7 & Hr7 & Hr).
  apply bind_Done in Hr as (generations' & s8 & Hr8 & Hr).
  apply bind_Done in Hr as (u9 & s9 & Hr9 & Hr).
  injection Hr as <-.
  apply lift_Done in Hr6 as [_ ->]. apply lift_Done in Hr8 as [Ha ->].
  apply on_tree_Done in Hr7.
  assert (s_tree s9 = s_tree s7) as E9.
  { destruct (recovered_generation _); [by eapply on_registry_tree|by inversion Hr9]. }
  rewrite (on_registry_tree _ _ _ _ Hr5), (on_registry_tree _ _ _ _ Hr4), (on_registry_tree _ _ _ _ Hr3),
    (on_registry_tree _ _ _ _ Hr2), (on_registry_tree _ _ _ _ Hr1), <- E9 in Hr7.
  apply on_files_Done in Hr2 as (d2 & ?%load_generations_wf). apply on_files_Done in Hr4 as (d4 & ?%load_generations_wf).
  destruct (accept_recovered_kept generations (committed_jobs recovery) generations') as (Hwf & _ & Hall); [done..|].
  split; [done|]. split; [apply guarded_free; [by intros (? & ? & ? & _)|done..]|].
  split; [done|]. split; [done|]. by exists recovery.
Qed.
End start.
