(* ===== verification/ServiceState.v ===== *)
(** * The state of the service stays well-formed

    The registries in memory: keyed by the identifiers of their entries, every
    entry valid, never more entries than allowed, and accepted generations that
    can be decoded; from the start of the process through every request, worker
    and round of the loop. *)

From stdpp Require Import relations.
From S2P Require Import Prelude Errors Effects Identifiers Json Trust FileSet RegistrySet Roots.
From S2P Require Import RegistryScopes Protocol Authorization Storage RegistryStorage Generations.
From S2P Require Import WindowsRegistry RegistryTransaction Journal Transaction Wire Impersonation.
From S2P Require Import Service Frames ServiceJobs ServiceLife.

Section machine.
Context `{SerdeJson, UnicodeCase, Crypto, Base64, RegistryNames, TransactionPlatform}.
Context `{!Reader RootRegistryDocument, !Reader RegistryScopeRegistryDocument,
          !Reader GenerationRegistryDocument, !Reader RegistryTransactionJournal,
          !Reader Keyring, !Reader FileSet, !Reader RegistrySet, !Reader Request,
          !Reader JournalHeader, !Reader JournalStateRecord}.
Context (data_directory : string).
(** A SHA-256 digest has 32 bytes. *)
Context (sha256_length : forall bytes, length (sha256 bytes) = 32%nat).

(** ** Generations of registry sets *)

Definition registry_wf (w : RegistryWorld) : Prop := generations_wf (rw_generations w).

Definition stays_wf {A} (m : M RegistryWorld A) : Prop :=
  forall w, registry_wf w -> partial m (fun _ => registry_wf) registry_wf w.

Lemma stays_wf_keeps {A} (m : M RegistryWorld A) : keeps rw_generations m -> stays_wf m.
Proof.
  intros Hm w Hw.
  eapply (partial_keeps rw_generations); [exact Hm|..]; unfold registry_wf;
    [intros a w' E|intros w' E]; by rewrite E.
Qed.

Lemma stays_wf_bind {A B} (m : M RegistryWorld A) (k : A -> M RegistryWorld B) :
  stays_wf m -> (forall a, stays_wf (k a)) -> stays_wf (m ≫= k).
Proof.
  intros Hm Hk w Hw. apply partial_bind. eapply partial_mono; [by apply Hm|..]; [|done].
  intros a w' Hw'. by apply Hk.
Qed.

Lemma stays_wf_attempt {A} (m : M RegistryWorld A) : stays_wf m -> stays_wf (attempt m).
Proof.
  intros Hm w Hw. apply partial_attempt. eapply partial_mono; [by apply Hm|done|]. by split.
Qed.

Lemma keeps_generations_open scope : keeps rw_generations (open_registry_scope_key scope).
Proof. apply keeps_open_components. intros; apply keeps_generations_call. Qed.
Lemma keeps_generations_create scope : keeps rw_generations (create_registry_scope_key scope).
Proof.
  unfold create_registry_scope_key. apply keeps_bind; [keeps|intros _].
  apply keeps_open_components. intros; apply keeps_generations_call.
Qed.
Lemma keeps_generations_restore key values : keeps rw_generations (restore_registry_values key values).
Proof.
  unfold restore_registry_values, restore_registry_value, RegSetValue, RegDeleteValue. keeps.
Qed.
Lemma keeps_generations_snapshots key total values :
  keeps rw_generations (snapshot_values key total values).
Proof.
  revert total. induction values as [|v values IH]; intros total; cbn [snapshot_values]; [keeps|].
  unfold registry_value_snapshot, RegQueryValue, RegQueryValueData. keeps.
Qed.
#[local] Hint Resolve keeps_generations_open keeps_generations_create keeps_generations_restore
  keeps_generations_snapshots : keeps.

Lemma stays_wf_undo key journal generations :
  generations_wf generations -> stays_wf (undo_registry_transaction key journal generations).
Proof.
  intros Hg. unfold undo_registry_transaction. apply stays_wf_bind.
  - intros w _. by apply partial_modify.
  - intros []. apply stays_wf_keeps. keeps.
Qed.

Lemma stays_wf_write key journal values : stays_wf (write_registry_values key journal values).
Proof.
  induction values as [|v values IH]; cbn [write_registry_values]; [by apply stays_wf_keeps; keeps|].
  apply stays_wf_bind; [apply stays_wf_keeps; unfold set_registry_value, RegSetValue; keeps|].
  intros [[]|e]; [exact IH|]. apply stays_wf_keeps. keeps.
Qed.

Lemma stays_wf_accept scope record :
  length (digest record) = 32%nat -> stays_wf (accept_and_save scope record).
Proof.
  intros Hd w Hw. unfold accept_and_save. apply partial_bind, partial_gets.
  apply partial_bind, partial_lift; [|done]. intros g Hg.
  apply partial_bind, partial_modify. apply stays_wf_keeps; [keeps|].
  unfold registry_wf in *. exact (accept_wf _ _ _ _ Hw Hd Hg).
Qed.

Lemma stays_wf_during {A} (m : M RegistryWorld A) : stays_wf m -> stays_wf (during_commit m).
Proof.
  intros Hm. unfold during_commit. apply stays_wf_bind; [by apply stays_wf_keeps, keeps_modify|].
  intros []. apply stays_wf_bind; [by apply stays_wf_attempt|]. intros r.
  apply stays_wf_bind; [by apply stays_wf_keeps, keeps_modify|]. intros []. by apply stays_wf_keeps; keeps.
Qed.

Lemma stays_wf_apply scope manifest :
  length (vrs_digest manifest) = 32%nat -> stays_wf (apply_registry_set_transaction scope manifest).
Proof.
  intros Hd. unfold apply_registry_set_transaction.
  apply stays_wf_bind; [apply stays_wf_keeps; unfold create_registry_transaction; keeps|].
  intros [key journal]. apply stays_wf_bind; [apply stays_wf_keeps; keeps|intros []].
  apply stays_wf_during, stays_wf_bind; [apply stays_wf_write|intros []].
  intros w Hw. apply partial_bind, partial_gets. pose proof Hw as Hg. unfold registry_wf in Hg.
  set (g := rw_generations w) in *. clearbody g. revert w Hw.
  apply stays_wf_bind; [by apply stays_wf_attempt, stays_wf_accept|].
  intros [[]|e]; (apply stays_wf_bind;
    [first [by apply stays_wf_undo|apply stays_wf_keeps; keeps]|]); intros b.
  - destruct b as [[]|e]; apply stays_wf_bind;
      [apply stays_wf_keeps; keeps|intros []; apply stays_wf_keeps; keeps
      |by apply stays_wf_undo|intros [|]; apply stays_wf_keeps; keeps].
  - destruct b; apply stays_wf_keeps; keeps.
Qed.

(** ** The whole state *)

(** The generation that a prepare worker will have accepted can be stored. *)
Definition receiver_wf (r : Channel (Client * PrepareWork) PreparedOutcome) : Prop :=
  match r with
  | Running (_, work) => length (vfs_digest (pw_manifest work)) = 32%nat
  | Sent (Ok outcome) => length (digest (po_record outcome)) = 32%nat
  | _ => True
  end.

Record service_wf (s : Service) : Prop := {
  wf_roots : roots_wf (s_roots s);
  wf_scopes : scopes_wf (s_scopes s);
  wf_generations : generations_wf (s_generations s);
  wf_registry : registry_wf (s_registry s);
  wf_preparing : forall f, s_preparing s = Some f -> receiver_wf (pf_receiver f);
}.

Definition wf_part (s : Service) :=
  (s_roots s, s_scopes s, s_generations s, rw_generations (s_registry s), s_preparing s).

Lemma service_wf_part s s' : wf_part s' = wf_part s -> service_wf s -> service_wf s'.
Proof.
  unfold wf_part. intros [= E1 E2 E3 E4 E5] [Hr Hs Hg Hw Hp].
  split; unfold registry_wf in *; by rewrite ?E1, ?E2, ?E3, ?E4, ?E5.
Qed.

Definition typed {A} (m : M Service A) (s : Service) : Prop :=
  partial m (fun _ => service_wf) service_wf s.

Lemma typed_keeps {A} (m : M Service A) s : keeps wf_part m -> service_wf s -> typed m s.
Proof. intros Hm Hs. eapply partial_keeps; [exact Hm|..]; intros; by eapply service_wf_part. Qed.

Lemma keeps_wf_files {A} (m : M Disk A) : keeps wf_part (on_files m).
Proof.
  intros s. unfold on_files, on_registry, on_disk. by destruct (m (rw_disk (s_registry s))).
Qed.
Lemma keeps_wf_tree {A} (m : M World A) : keeps wf_part (on_tree m).
Proof. intros s. unfold on_tree. by destruct (m (s_tree s)). Qed.
Lemma keeps_wf_scope c id product v key allowed :
  keeps wf_part (on_registry (registered_registry_scope_as_caller c id product v key allowed)).
Proof.
  intros s. unfold on_registry.
  assert (keeps rw_generations (registered_registry_scope_as_caller c id product v key allowed)) as Hk
    by (unfold registered_registry_scope_as_caller; keeps).
  specialize (Hk (s_registry s)). unfold wf_part.
  destruct (registered_registry_scope_as_caller c id product v key allowed (s_registry s)).
  cbn in *. by rewrite Hk.
Qed.
#[local] Hint Resolve keeps_wf_files keeps_wf_tree keeps_wf_scope : keeps.

(** Past a part of the code that leaves the well-formed state as it is. *)
Lemma typed_past {A} (m : M Service A) (Q : A -> Service -> Prop) s :
  keeps wf_part m -> service_wf s -> (forall a s', service_wf s' -> Q a s') ->
  partial m Q service_wf s.
Proof.
  intros Hm Hs HQ. eapply (partial_keeps wf_part); [exact Hm|..]; intros; [apply HQ|];
    by eapply service_wf_part.
Qed.
(** The result of a check does not matter for the state. *)
Ltac past_check := apply partial_bind, partial_lift; [intros ?x ?Hx|done].

Lemma typed_register_root c owner id product kind path s :
  service_wf s -> typed (register_root_request c owner id product kind path) s.
Proof.
  intros Hs. unfold register_root_request, typed. past_check. destruct x as [verified root].
  past_check. apply partial_bind, partial_gets. past_check.
  apply partial_bind, typed_past; [keeps|done|]. intros [] s1 Hs1.
  apply partial_bind, partial_modify, partial_pure. destruct Hs1. split; try done.
  eapply register_wf; [apply (wf_roots s Hs)|eassumption].
Qed.

Lemma typed_unregister_root caller id authorized s :
  service_wf s -> typed (unregister_root_request caller id authorized) s.
Proof.
  intros Hs. unfold unregister_root_request, typed. past_check.
  apply partial_bind, partial_gets. past_check. destruct x0 as [root roots].
  apply partial_bind, typed_past; [keeps|done|]. intros [] s1 Hs1.
  apply partial_bind, partial_modify, partial_pure. destruct Hs1. split; try done.
  eapply unregister_wf; [apply (wf_roots s Hs)|eassumption].
Qed.

Lemma typed_register_scope c owner id product v key allowed s :
  service_wf s -> typed (register_scope_request c owner id product v key allowed) s.
Proof.
  intros Hs. unfold register_scope_request, typed.
  apply partial_bind, typed_past; [keeps|done|]. intros [verified scope] s0 Hs0.
  past_check. apply partial_bind, partial_gets. past_check.
  apply partial_bind, typed_past; [keeps|done|]. intros [] s1 Hs1.
  apply partial_bind, partial_modify, partial_pure. destruct Hs1. split; try done.
  eapply scope_step_wf; [apply (wf_scopes s0 Hs0)|by constructor].
Qed.

Lemma typed_unregister_scope caller id authorized s :
  service_wf s -> typed (unregister_scope_request caller id authorized) s.
Proof.
  intros Hs. unfold unregister_scope_request, typed. past_check.
  apply partial_bind, partial_gets. past_check. destruct x0 as [scope scopes].
  apply partial_bind, typed_past; [keeps|done|]. intros [] s1 Hs1.
  apply partial_bind, partial_modify, partial_pure. destruct Hs1. split; try done.
  eapply scope_step_wf; [apply (wf_scopes s Hs)|by econstructor].
Qed.

Lemma keeps_wf_discard : keeps wf_part discard_completed.
Proof. apply keeps_modify. intros s. destruct (aj_state <$> s_active s) as [[]|]; done. Qed.

Lemma verified_set_digest bytes kr acceptance v :
  verify_registry_set bytes kr acceptance = Ok v -> length (vrs_digest v) = 32%nat.
Proof. unfold verify_registry_set. intros Hv. ok_inv. subst. apply sha256_length. Qed.

Lemma verified_file_set_digest bytes kr acceptance v :
  verify_file_set bytes kr acceptance = Ok v -> length (vfs_digest v) = 32%nat.
Proof. unfold verify_file_set. intros Hv. ok_inv. subst. apply sha256_length. Qed.

Lemma typed_apply c caller scope path s :
  service_wf s -> typed (apply_registry_set_request c caller scope path) s.
Proof.
  intros Hs. unfold apply_registry_set_request, typed.
  apply partial_bind, typed_past; [apply keeps_wf_discard|done|]. intros [] s1 Hs1.
  apply partial_bind, partial_gets. past_check. past_check. destruct x0 as [mc mb]. past_check.
  apply partial_bind, typed_past; [keeps|done|]. intros kb s2 Hs2.
  past_check. apply partial_bind, partial_gets. past_check. past_check.
  match goal with Hm : verify_registry_set _ _ _ = Ok _ |- _ => apply verified_set_digest in Hm end.
  apply partial_bind. unfold on_registry, partial.
  pose proof (stays_wf_apply scope x3 ltac:(assumption) (s_registry s2) (wf_registry s2 Hs2)) as Hr.
  unfold partial in Hr.
  destruct (apply_registry_set_transaction scope x3 (s_registry s2)) as [[[[n g]|e]| |] r];
    destruct Hs2; by split.
Qed.

Lemma typed_prepare c caller root path staging s :
  service_wf s ->
  partial (prepare_file_set_request c caller root path staging)
    (fun work s' => service_wf s' /\ length (vfs_digest (pw_manifest work)) = 32%nat) service_wf s.
Proof.
  intros Hs. unfold prepare_file_set_request.
  apply partial_bind, typed_past; [apply keeps_wf_discard|done|]. intros [] s1 Hs1.
  apply partial_bind, partial_gets. past_check. past_check. destruct x0 as [mc mb]. past_check.
  apply partial_bind, typed_past; [keeps|done|]. intros kb s2 Hs2.
  past_check. apply partial_bind, partial_gets. past_check. past_check.
  apply partial_pure. split; [done|]. cbn. by eapply verified_file_set_digest.
Qed.
Lemma keeps_wf_commit spawned id authorized : keeps wf_part (commit_job_request spawned id authorized).
Proof. unfold commit_job_request. keeps. Qed.

Lemma keeps_wf_status id : keeps wf_part (job_status_response id).
Proof. unfold job_status_response, refresh_active_job. keeps. Qed.

(** A request, and the work that it leaves for the prepare worker. *)
Definition dispatch_wf (d : Dispatch) : Prop :=
  match d with
  | Respond _ => True
  | Prepare work => length (vfs_digest (pw_manifest work)) = 32%nat
  end.

Lemma typed_respond (m : M Service Value) s :
  typed m s -> partial (respond_with m) (fun d s' => service_wf s' /\ dispatch_wf d) service_wf s.
Proof.
  intros Hm. apply partial_bind. eapply partial_mono; [exact Hm|..]; [|done].
  intros v s' Hs'. by apply partial_pure.
Qed.

Lemma typed_process c spawned r s :
  service_wf s ->
  partial (process_request c spawned r) (fun d s' => service_wf s' /\ dispatch_wf d) service_wf s.
Proof.
  intros Hs0. unfold process_request. apply partial_bind, partial_gets. past_check.
  apply partial_bind, typed_past; [apply keeps_modify; done|done|]. intros [] s1 Hs1.
  past_check. apply partial_bind, partial_gets, partial_bind, partial_gets, partial_bind, partial_gets.
  apply partial_bind, partial_lift; [intros auth _|done].
  destruct r; destruct auth; try done; try (by apply partial_pure; split); try (apply typed_respond).
  - by apply typed_register_root.
  - by apply typed_unregister_root.
  - by apply typed_register_scope.
  - by apply typed_unregister_scope.
  - by apply typed_apply.
  - apply partial_bind. eapply partial_mono; [by apply typed_prepare|..]; [|done].
    intros work s2 [Hs2 Hd]. by apply partial_pure.
  - by apply typed_keeps; [apply keeps_wf_commit|].
  - destruct (bool_decide (job_id = _)); [|exact Hs1].
    by apply typed_respond, typed_keeps; [apply keeps_wf_status|].
Qed.

(** ** The steps *)

Lemma typed_wake s : service_wf s -> typed serve_wake s.
Proof.
  intros Hs. unfold serve_wake, typed. apply partial_bind, partial_gets.
  destruct (s_preparing s) as [f|] eqn:Ef; [|by apply partial_pure].
  pose proof (wf_preparing s Hs f Ef) as Hf.
  assert (service_wf (with_preparing None s)) as Hnone by (destruct Hs; by split).
  destruct (pf_receiver f) as [w|outcome|]; [by apply partial_pure| |by apply partial_bind, partial_modify].
  apply partial_bind, partial_modify, partial_bind, partial_attempt, partial_bind.
  assert (forall s2, service_wf s2 -> (forall e : MaintenanceError, partial (pure (Answer (pf_slot f)
    (Mutation "prepare") (Err e))) (fun _ => service_wf) service_wf s2) /\ service_wf s2) as Hsplit
    by (intros s2 Hs2; split; [intros e; by apply partial_pure|done]).
  apply partial_lift; [intros o ->|by apply Hsplit].
  unfold finish_prepare. apply partial_bind, partial_gets.
  apply partial_bind, partial_lift; [intros g Hg|by apply Hsplit].
  apply partial_bind, partial_modify.
  assert (service_wf (with_generations g (with_preparing None s))) as Hs2.
  { destruct Hnone. split; try done. by eapply accept_wf; [exact (wf_generations s Hs)|exact Hf|]. }
  apply partial_bind. eapply (partial_keeps wf_part); [apply keeps_wf_files|..].
  - intros [] s3 E3. apply partial_bind, partial_modify, partial_pure, partial_pure.
    pose proof (service_wf_part _ _ E3 Hs2) as []. by split.
  - intros s3 E3. apply Hsplit. by eapply service_wf_part.
Qed.

Lemma typed_round spawned e s : service_wf s -> typed (serve_round spawned e) s.
Proof.
  intros Hs. unfold serve_round, typed. apply partial_bind, partial_gets.
  destruct (may_stop s); [done|]. destruct e as [slot c message| | |]; [|by apply typed_wake|done|done].
  unfold serve_request. apply partial_bind, partial_attempt, partial_bind.
  apply partial_lift; [intros r _|by split].
  eapply partial_mono; [by apply typed_process|..]; cbv beta; [|by split].
  intros [v|work] s1 [Hs1 Hd]; [done|]. destruct spawned; [|done].
  apply partial_bind, partial_modify, partial_pure. destruct Hs1. split; try done. by intros f [= <-].
Qed.

(** The record of the outcome is the one of the work. *)
Lemma run_prepare_digest c work w :
  length (vfs_digest (pw_manifest work)) = 32%nat ->
  partial (run_prepare data_directory c work)
    (fun o _ => length (digest (po_record o)) = 32%nat) (fun _ => True) w.
Proof.
  intros Hd. unfold run_prepare.
  assert (forall A (m : M World A) (Q : A -> World -> Prop) w', (forall a w2, Q a w2) ->
    partial m Q (fun _ => True) w') as Hany.
  { intros A m Q w' HQ. unfold partial. by destruct (m w') as [[[a|e]| |] w2]. }
  do 3 (apply partial_bind, Hany; intros ? ?). by do 2 (apply partial_bind, Hany; intros ? ?).
Qed.

Lemma step_wf e s s' : service_wf s -> service_step data_directory e s s' -> service_wf s'.
Proof.
  intros Hs Hstep. destruct Hstep as [spawned e r s s' _ Hr|s s' Hr|s s' Hr|s s' Hr|s s' Hr].
  - pose proof (typed_round spawned e s Hs) as Hp. unfold typed, partial in Hp. by rewrite Hr in Hp.
  - revert Hr. unfold prepare_worker, mbind, M_bind, bind, gets.
    destruct (s_preparing s) as [[slot [[c work]|r|]]|] eqn:Ef; try (by intros [= <-]).
    pose proof (wf_preparing s Hs _ Ef) as Hd.
    pose proof (run_prepare_digest c work (s_tree s) Hd) as Ho. unfold attempt, on_tree, partial in *.
    destruct (run_prepare data_directory c work (s_tree s)) as [[r| |] t]; intros [= <-].
    destruct Hs. split; try done. intros f [= <-]. by destruct r.
  - revert Hr. unfold commit_worker, mbind, M_bind, bind, gets.
    destruct (s_active s) as [[id o [p|[p|r|]|x g st]]|]; try (by intros [= <-]).
    unfold attempt, on_tree. destruct (commit_file_set p (s_tree s)) as [[r| |] t]; intros [= <-].
    destruct Hs. by split.
  - injection Hr as <-. destruct Hs. destruct (s_ending s); by split.
  - injection Hr as <-. destruct Hs. by split.
Qed.
(** ** The start *)

Lemma startup_roots_wf path d roots d' :
  startup_roots path d = (Done (Ok roots), d') -> roots_wf roots.
Proof.
  intros Hr. apply bind_Done in Hr as ([] & d1 & _ & Hr).
  - apply bind_Done in Hr as (bytes & d2 & _ & [Hd _]%lift_Done). by eapply decode_roots_wf.
  - injection Hr as <- _. apply roots_wf_empty.
Qed.

Lemma startup_scopes_wf path d scopes d' :
  startup_scopes path d = (Done (Ok scopes), d') -> scopes_wf scopes.
Proof.
  intros Hr. apply bind_Done in Hr as ([] & d1 & _ & Hr).
  - apply bind_Done in Hr as (bytes & d2 & _ & [Hd _]%lift_Done). by eapply decode_scopes_wf.
  - injection Hr as <- _. apply scopes_wf_empty.
Qed.

Lemma startup_wf s s' :
  recover_service_state data_directory s = (Done (Ok tt), s') -> service_wf s'.
Proof.
  intros Hr. apply bind_Done in Hr as (roots & s1 & (d1 & Hr1)%on_files_Done & Hr).
  apply bind_Done in Hr as (generations & s2 & (d2 & Hr2)%on_files_Done & Hr).
  apply bind_Done in Hr as (scopes & s3 & (d3 & Hr3)%on_files_Done & Hr).
  apply bind_Done in Hr as (registry_generations & s4 & (d4 & Hr4)%on_files_Done & Hr).
  apply bind_Done in Hr as (u5 & s5 & _ & Hr). apply bind_Done in Hr as (u6 & s6 & _ & Hr).
  apply bind_Done in Hr as (recovery & s7 & _ & Hr).
  apply bind_Done in Hr as (generations' & s8 & [Ha _]%lift_Done & Hr).
  apply bind_Done in Hr as (u9 & s9 & _ & Hr). injection Hr as <-.
  apply load_generations_wf in Hr2, Hr4. split; cbn.
  - by eapply startup_roots_wf.
  - by eapply startup_scopes_wf.
  - exact (proj1 (accept_recovered_kept _ _ _ Hr2 Ha)).
  - exact Hr4.
  - done.
Qed.

(** C31: the state of the service stays well-formed: from a start that returns on,
    through requests, workers, rounds and stops in any order, every registered
    root and registry scope is stored under its own identifier and valid, there
    are never more of them than allowed, and every accepted generation can be
    read back. *)
Theorem service_stays_well_formed s0 s1 s :
  recover_service_state data_directory s0 = (Done (Ok tt), s1) ->
  rtc (fun a b => exists e, service_step data_directory e a b) s1 s ->
  roots_wf (s_roots s) /\ scopes_wf (s_scopes s) /\ generations_wf (s_generations s) /\
  generations_wf (rw_generations (s_registry s)).
Proof.
  intros Hstart%startup_wf Hsteps. assert (service_wf s) as [].
  { induction Hsteps as [|a b c [e He] _ IH]; [done|]. apply IH. by eapply step_wf. }
  done.
Qed.
End machine.
