(* ===== verification/ServiceLoop.v ===== *)
(** * The loop around the requests

    [serve_requests] with what it does around a request: the line of the log and
    the answer on the wire ([mutation_summary], [respond]), the service that could
    not load its state ([serve_startup_failure]); src/src/windows.rs.  The workers
    and the control handler come between the rounds. *)

From stdpp Require Import relations.
From S2P Require Import Prelude Errors Effects Identifiers Json Trust FileSet RegistrySet Roots.
From S2P Require Import RegistryScopes Protocol Authorization Storage RegistryStorage Generations.
From S2P Require Import WindowsRegistry RegistryTransaction Journal Transaction Wire Impersonation.
From S2P Require Import ServiceLog Service Frames ServiceJobs ServiceLife ServiceState.

Section loop.
Context `{SerdeJson, UnicodeCase, Crypto, Base64, RegistryNames, TransactionPlatform}.
Context `{!Reader RootRegistryDocument, !Reader RegistryScopeRegistryDocument,
          !Reader GenerationRegistryDocument, !Reader RegistryTransactionJournal,
          !Reader Keyring, !Reader FileSet, !Reader RegistrySet, !Reader Request}.
Context (data_directory : string) (log : ServiceLog).

(** ** Answers *)

Definition summary_keys : list string := ["rootId"; "scopeId"; "jobId"; "state"; "generation"].

(** [None] where formatting panics. *)
Fixpoint summary_parts (keys : list string) (response : Value) : option (list string) :=
  match keys with
  | [] => Some []
  | key :: keys' =>
      rest ← summary_parts keys' response;
      match entry key response with
      | Some value => text ← to_vec value; Some ((key +:+ "=" +:+ of_bytes text) :: rest)
      | None => Some rest
      end
  end.

Definition mutation_summary (response : Value) : option string :=
  of_bytes ∘ join_with " "%char <$> (fmap as_bytes <$> summary_parts summary_keys response).

(** The line that an answer leaves in the log. *)
Definition log_answer (seconds : N) (kind : RequestKind) (response : Result Value) : M Service () :=
  match response, kind with
  | Err error, (Query name | Mutation name) =>
      on_files (record_error log seconds (name +:+ "-failed") error)
  | Ok value, Mutation name =>
      match mutation_summary value with
      | Some summary => on_files (record log seconds name summary)
      | None => crash
      end
  | Ok _, Query _ => pure tt
  end.

(** The bytes that [respond] sends; [None]: the connection is dropped. *)
Definition respond (response : Result Value) : option (list byte) :=
  encoded ← to_vec (response_value response);
  if (length encoded <=? MAX_IPC_MESSAGE_BYTES)%nat then Some encoded else None.

(** ** One round, and all of them *)

Inductive LoopStep :=
  | Goes (answered : option (nat * option (list byte)))
  | Ends.

(** [delivered]: the server of the pipe took the answer; the loop ends otherwise. *)
Definition serve_iteration (spawned delivered : bool) (seconds : N) (e : PipeEvent)
    : M Service LoopStep :=
  r ← serve_round spawned e;
  match r with
  | Continue => pure (Goes None)
  | Break => pure Ends
  | Answer slot kind response =>
      _ ← log_answer seconds kind response;
      pure (if delivered then Goes (Some (slot, respond response)) else Ends)
  end.

(** What happens to the process: a round of the loop, or another thread. *)
Inductive ProcessEvent :=
  | Round_ (spawned delivered : bool) (seconds : N) (e : PipeEvent)
  | PrepareWorker
  | CommitWorker
  | CommitWorkerEnds
  | StopRequested.

(** The answers of a run, up to the end of the loop or of the events. *)
Fixpoint serve_requests (events : list ProcessEvent) : M Service (list (nat * option (list byte))) :=
  match events with
  | [] => pure []
  | Round_ spawned delivered seconds e :: events' =>
      step ← serve_iteration spawned delivered seconds e;
      match step with
      | Ends => pure []
      | Goes answered =>
          rest ← serve_requests events';
          pure (option_list answered ++ rest)
      end
  | PrepareWorker :: events' => _ ← prepare_worker data_directory; serve_requests events'
  | CommitWorker :: events' => _ ← commit_worker; serve_requests events'
  | CommitWorkerEnds :: events' => _ ← commit_worker_ends; serve_requests events'
  | StopRequested :: events' => _ ← service_control_stop; serve_requests events'
  end.

(** [serve_startup_failure]: every request gets the reason. *)
Fixpoint serve_startup_failure (error : MaintenanceError) (events : list PipeEvent)
    : list (nat * option (list byte)) :=
  match events with
  | [] => []
  | PipeRequest slot _ _ :: events' => (slot, respond (Err error)) :: serve_startup_failure error events'
  | PipeWake :: events' => serve_startup_failure error events'
  | PipeStop :: _ | PipeIdle :: _ => []
  end.

(** ** The log does not touch the service *)

(** Everything but the files. *)
Definition but_files (s : Service) :=
  (wf_part s, job_part s, guard_part s, s_tree s, rw_keys (s_registry s)).

Lemma keeps_log seconds kind response : keeps but_files (log_answer seconds kind response).
Proof.
  assert (forall A (m : M Disk A), keeps but_files (on_files m)) as Hf.
  { intros A m s. unfold on_files, on_registry, on_disk. by destruct (m (rw_disk (s_registry s))). }
  unfold log_answer. destruct response as [v|e], kind as [name|name]; [keeps| |apply Hf..].
  destruct (mutation_summary v); [apply Hf|keeps].
Qed.

(** A round with its log and answer is a step of the service, but for the files
    that the log writes, and what it sends fits into a message. *)
Lemma iteration_steps spawned delivered seconds e s step s' :
  (e = PipeStop -> stop_event (flags s) = true) ->
  serve_iteration spawned delivered seconds e s = (Done (Ok step), s') ->
  exists s1, service_step data_directory (Served e) s s1 /\ but_files s' = but_files s1 /\
    forall slot bytes, step = Goes (Some (slot, Some bytes)) ->
      (length bytes <= MAX_IPC_MESSAGE_BYTES)%nat.
Proof.
  intros He Hi. apply bind_Done in Hi as (r & s1 & Hr & Hi). exists s1.
  split; [by eapply step_round|]. destruct r as [|slot kind response|].
  - injection Hi as <- <-. split; [reflexivity|]. intros ? ? [=].
  - apply bind_Done in Hi as ([] & s2 & Hl & Hi). injection Hi as <- <-.
    pose proof (keeps_log seconds kind response s1) as Hk. rewrite Hl in Hk. split; [exact Hk|].
    intros slot' bytes Hb. destruct delivered; [|discriminate Hb]. injection Hb as -> Hb.
    unfold respond in Hb.
    destruct (to_vec _) as [encoded|]; [|discriminate Hb].
    unfold mbind, option_bind in Hb.
    destruct (Nat.leb_spec (length encoded) MAX_IPC_MESSAGE_BYTES) as [Hl'|]; [|discriminate Hb].
    injection Hb as <-. exact Hl'.
  - injection Hi as <- <-. split; [reflexivity|]. intros ? ? [=].
Qed.
End loop.
