(* ===== verification/PipeLoop.v ===== *)
(** * The service on its pipe

    The loop of [serve_requests] (src/src/windows.rs) with the server of the pipe
    that delivers its events and takes its answers: one round waits for an event,
    serves it and sends the answer.  Every request that the service takes from the
    pipe gets one answer; until then its instance is held. *)

From stdpp Require Import relations.
From S2P Require Import PipeServer PipeSafety.
From S2P Require Import Prelude Errors Effects Identifiers Json Trust FileSet RegistrySet Roots.
From S2P Require Import RegistryScopes Protocol Authorization Storage RegistryStorage Generations.
From S2P Require Import ServiceLog Journal WindowsRegistry RegistryTransaction Transaction Wire.
From S2P Require Import Impersonation Service Frames ServiceJobs ServiceLife.
From S2P Require Import ServiceState ServiceLoop.

Definition SERVICE_IDLE_TIMEOUT_MS : N := 30000.

Section loop.
Context `{SerdeJson, UnicodeCase, Crypto, Base64, RegistryNames, TransactionPlatform}.
Context `{!Reader RootRegistryDocument, !Reader RegistryScopeRegistryDocument,
          !Reader GenerationRegistryDocument, !Reader RegistryTransactionJournal,
          !Reader Keyring, !Reader FileSet, !Reader RegistrySet, !Reader Request}.
Context {K : Type} `{!PipeKernel K}.
Context (data_directory : string) (log : ServiceLog).

Record Loop := mkLoop { l_service : Service; l_pipe : ServerState K }.

Definition on_service {A} (m : M Service A) : M Loop A := fun s =>
  let '(o, s') := m (l_service s) in (o, mkLoop s' (l_pipe s)).
Definition on_pipe {A} (m : M (ServerState K) A) : M Loop A := fun s =>
  let '(o, p) := m (l_pipe s) in (o, mkLoop (l_service s) p).

(** [start_pipe_server], without the report to the service manager. *)
Definition start_pipe_server : M (ServerState K) () :=
  create PIPE_NAME SERVICE_PIPE_INSTANCES PIPE_READ_TIMEOUT PIPE_WRITE_TIMEOUT.

(** [respond]: a client that disconnected or stopped reading only loses its own
    answer, one whose answer has no bounded text loses its connection. *)
Definition send_answer (slot : nat) (bytes : option (list byte)) : M (ServerState K) () :=
  match bytes with
  | Some encoded => _ ← PipeServer.respond slot encoded; pure tt
  | None => release slot
  end.

(** The event for the service; [c] is the client that the instance's handle
    impersonates. *)
Definition event_for (c : Client) (e : PipeServer.PipeEvent) : PipeEvent :=
  match e with
  | RequestOf slot message => PipeRequest slot c message
  | Wake => PipeWake
  | Stop => PipeStop
  | Idle => PipeIdle
  end.

(** What a round did: whether the loop goes on, the slot whose request it took and
    the slot it answered. *)
Record RoundTrace := { goes_on : bool; received : option nat; answered_slot : option nat }.

Definition requested (e : PipeServer.PipeEvent) : option nat :=
  match e with RequestOf slot _ => Some slot | _ => None end.

Definition instance_not_held : MaintenanceError :=
  new_error TransactionState "pipe instance of the request is not held".

(** One round of the loop; [fuel] is that of the wait for an event.  An error
    leaves the loop. *)
Definition pipe_round (fuel : nat) (spawned : bool) (seconds : N) (c : Client) : M Loop RoundTrace :=
  stopping ← on_service (gets may_stop);
  if (stopping : bool) then pure {| goes_on := false; received := None; answered_slot := None |}
  else
    e ← on_pipe (next_event fuel SERVICE_IDLE_TIMEOUT_MS);
    held ← on_pipe (gets (fun p => match e with RequestOf slot _ => pipe slot (server p) | _ => true end));
    _ ← lift (if (held : bool) then Ok tt else Err instance_not_held);
    step ← on_service (serve_iteration log spawned true seconds (event_for c e));
    match step with
    | Ends => pure {| goes_on := false; received := requested e; answered_slot := None |}
    | Goes None => pure {| goes_on := true; received := requested e; answered_slot := None |}
    | Goes (Some (slot, bytes)) =>
        _ ← on_pipe (send_answer slot bytes);
        pure {| goes_on := true; received := requested e; answered_slot := Some slot |}
    end.

(** Another thread of the process. *)
Definition other_thread (e : ProcessEvent) : option (M Service ()) :=
  match e with
  | Round_ _ _ _ _ => None
  | PrepareWorker => Some (prepare_worker data_directory)
  | CommitWorker => Some commit_worker
  | CommitWorkerEnds => Some commit_worker_ends
  | StopRequested => Some service_control_stop
  end.

(** A run of the process with the slots received and answered so far. *)
Inductive loop_step : Loop * list nat * list nat -> Loop * list nat * list nat -> Prop :=
  | loop_round fuel spawned seconds c t s s' took gave :
      pipe_round fuel spawned seconds c s = (Done (Ok t), s') -> goes_on t = true ->
      loop_step (s, took, gave) (s', option_list (received t) ++ took,
                                 option_list (answered_slot t) ++ gave)
  | loop_thread e m s s' took gave :
      other_thread e = Some m -> on_service m s = (Done (Ok tt), s') ->
      loop_step (s, took, gave) (s', took, gave).

(** ** The request that is being prepared *)

(** The slot that the prepare worker's outcome will answer. *)
Definition outstanding (s : Service) : list nat := option_list (pf_slot <$> s_preparing s).

Lemma keeps_preparing_registry {A} (m : M RegistryWorld A) : keeps s_preparing (on_registry m).
Proof. intros s. unfold on_registry. by destruct (m (s_registry s)). Qed.
Lemma keeps_preparing_tree {A} (m : M World A) : keeps s_preparing (on_tree m).
Proof. intros s. unfold on_tree. by destruct (m (s_tree s)). Qed.
Lemma keeps_preparing_files {A} (m : M Disk A) : keeps s_preparing (on_files m).
Proof. apply keeps_preparing_registry. Qed.
Lemma keeps_preparing_discard : keeps s_preparing discard_completed.
Proof. apply keeps_modify. intros s. by destruct (aj_state <$> s_active s) as [[]|]. Qed.
#[local] Hint Resolve keeps_preparing_registry keeps_preparing_tree keeps_preparing_files
  keeps_preparing_discard : keeps.

Lemma keeps_preparing_process c spawned r : keeps s_preparing (process_request c spawned r).
Proof.
  unfold process_request, refresh_active_job, respond_with, register_root_request,
    unregister_root_request, register_scope_request, unregister_scope_request,
    apply_registry_set_request, prepare_file_set_request, commit_job_request,
    job_status_response, refresh_active_job.
  keeps.
Qed.

Lemma partial_any {S A} (m : M S A) s : partial m (fun _ _ => True) (fun _ => True) s.
Proof. unfold partial. by destruct (m s) as [[[]| |] ?]. Qed.

Lemma process_prepares c spawned r s :
  partial (process_request c spawned r)
    (fun d _ => match d with Prepare _ => s_preparing s = None | Respond _ => True end)
    (fun _ => True) s.
Proof.
  unfold process_request.
  apply partial_bind, partial_gets, partial_bind, partial_lift; [intros [] Hb%ensure_Ok|done].
  assert (s_preparing s = None \/ is_mutation r = false) as Hprep.
  { destruct (s_preparing s); [right|by left]. cbn in Hb. by apply negb_true_iff in Hb. }
  apply partial_bind, partial_modify, partial_bind, partial_lift; [intros caller _|done].
  apply partial_bind, partial_gets, partial_bind, partial_gets, partial_bind, partial_gets.
  apply partial_bind, partial_lift; [intros auth _|done].
  assert (forall m s', partial (respond_with m)
    (fun d _ => match d with Prepare _ => s_preparing s = None | Respond _ => True end)
    (fun _ => True) s') as Hrespond.
  { intros m s'. apply partial_bind. eapply partial_mono; [apply partial_any|done..]. }
  destruct r, auth; try done; try apply Hrespond.
  - apply partial_bind. eapply partial_mono; [apply partial_any| |done].
    intros work s' _. apply partial_pure. by destruct Hprep as [?|[=]].
  - destruct (bool_decide (_ = _)); [apply Hrespond|done].
Qed.

(** What becomes of the request that is being prepared in a round, and which slot
    the round answers. *)
Definition balanced (e : PipeServer.PipeEvent) (gave : option nat) (before after : list nat) : Prop :=
  option_list (requested e) ++ before ≡ₚ option_list gave ++ after.

Lemma serve_request_balanced spawned slot c message s r s' :
  serve_request spawned slot c message s = (Done (Ok r), s') ->
  match r with
  | Continue => s_preparing s = None /\ outstanding s' = [slot]
  | Answer slot' _ _ => slot' = slot /\ s_preparing s' = s_preparing s
  | Break => False
  end.
Proof.
  unfold serve_request. intros Hr. apply bind_Done in Hr as (dispatch & s1 & Hd & Hr).
  assert (s_preparing s1 = s_preparing s /\
          match dispatch with Ok (Prepare _) => s_preparing s = None | _ => True end) as [Hk Hp].
  { revert Hd. unfold attempt, mbind at 1, M_bind, bind, lift.
    destruct (bytes ← message; decode_request bytes) as [request|e]; [|by intros [= <- <-]].
    pose proof (keeps_preparing_process c spawned request s) as Hk.
    pose proof (process_prepares c spawned request s) as Hp. revert Hp. unfold partial.
    destruct (process_request c spawned request s) as [[[[v|work]|e]| |] s2];
      intros Hp [= <- <-]; split; done. }
  destruct dispatch as [[v|work]|e].
  - by injection Hr as <- <-.
  - destruct spawned; [|by injection Hr as <- <-].
    apply bind_Done in Hr as ([] & s2 & Hm & Hr). injection Hm as <-. by injection Hr as <- <-.
  - by injection Hr as <- <-.
Qed.

Lemma keeps_finish_prepare outcome : keeps s_preparing (finish_prepare outcome).
Proof. unfold finish_prepare. keeps. Qed.

Lemma serve_wake_balanced s r s' :
  serve_wake s = (Done (Ok r), s') ->
  match r with
  | Continue => s_preparing s' = s_preparing s
  | Answer slot _ _ => outstanding s = [slot] /\ outstanding s' = []
  | Break => False
  end.
Proof.
  unfold serve_wake. intros Hr. apply bind_Done in Hr as (f & s1 & Hg & Hr). injection Hg as <- <-.
  unfold outstanding. destruct (s_preparing s) as [f|] eqn:Ef; [|by injection Hr as <- <-].
  destruct (pf_receiver f) as [w|outcome|]; [by injection Hr as <- <-| |].
  - apply bind_Done in Hr as ([] & s2 & Hm & Hr). injection Hm as <-.
    apply bind_Done in Hr as (response & s3 & Ha & Hr). injection Hr as <- <-. split; [done|].
    assert (keeps s_preparing (attempt (outcome ← lift outcome; finish_prepare outcome))) as Hk.
    { apply keeps_attempt, keeps_bind; [apply keeps_lift|apply keeps_finish_prepare]. }
    specialize (Hk (with_preparing None s)). rewrite Ha in Hk. cbn in Hk. by rewrite Hk.
  - apply bind_Done in Hr as ([] & s2 & Hm & Hr). injection Hm as <-. by injection Hr as <- <-.
Qed.

Lemma iteration_balanced spawned seconds c e s step s' :
  may_stop s = false ->
  serve_iteration log spawned true seconds (event_for c e) s = (Done (Ok step), s') ->
  match step with
  | Goes gave => balanced e (fst <$> gave) (outstanding s) (outstanding s')
  | Ends => True
  end.
Proof.
  intros Hstop Hi. apply bind_Done in Hi as (r & s1 & Hr & Hi).
  assert (match r with
          | Continue => balanced e None (outstanding s) (outstanding s1)
          | Answer slot _ _ => balanced e (Some slot) (outstanding s) (outstanding s1)
          | Break => True
          end) as Hb.
  { apply bind_Done in Hr as (b & s2 & Hg & Hr). injection Hg as <- <-. rewrite Hstop in Hr.
    destruct e as [slot message| | |]; cbn [event_for] in Hr.
    - apply serve_request_balanced in Hr. unfold balanced, outstanding in *. cbn.
      destruct r as [|slot' kind response|]; [|destruct Hr as [-> ->]|]; [|done|done].
      destruct Hr as [-> ->]. done.
    - by injection Hr as <- <-.
    - apply serve_wake_balanced in Hr. unfold balanced, outstanding in *. cbn.
      destruct r as [|slot kind response|]; [by rewrite Hr| |done].
      destruct Hr as [-> ->]. done.
    - apply bind_Done in Hr as (b & s2 & Hg & Hr). injection Hg as <- <-.
      by destruct (committing _ || _); injection Hr as <- <-. }
  destruct r as [|slot kind response|].
  - by injection Hi as <- <-.
  - apply bind_Done in Hi as ([] & s2 & Hl & Hi). injection Hi as <- <-. cbn.
    pose proof (keeps_log log seconds kind response s1) as Hk. rewrite Hl in Hk. cbn in Hk.
    injection Hk as E1. unfold outstanding.
    assert (s_preparing s2 = s_preparing s1) as -> by congruence. done.
  - by injection Hi as <- <-.
Qed.

Lemma other_thread_slots e m s s' :
  other_thread e = Some m -> m s = (Done (Ok tt), s') -> outstanding s' = outstanding s.
Proof.
  destruct e as [| | | |]; intros [= <-]; unfold outstanding.
  - unfold prepare_worker, mbind, M_bind, bind, gets.
    destruct (s_preparing s) as [[slot [[c work]|r|]]|] eqn:Ep;
      try (intros [= <-]; by rewrite Ep).
    unfold attempt, on_tree. destruct (run_prepare data_directory c work (s_tree s)) as [[r| |] t];
      by intros [= <-].
  - unfold commit_worker, mbind, M_bind, bind, gets.
    destruct (s_active s) as [[id owner [p|[p|r|]|x e g st]]|]; try (by intros [= <-]).
    unfold attempt, on_tree. destruct (commit_file_set p (s_tree s)) as [[r| |] t]; by intros [= <-].
  - intros [= <-]. by destruct (s_ending s).
  - by intros [= <-].
Qed.

Context `{!PipeKernelLaws K}.

Lemma send_answer_spec n slot bytes owed p p' :
  running n (slot :: owed) p -> send_answer slot bytes p = (Done (Ok tt), p') -> running n owed p'.
Proof.
  intros Hr. destruct bytes as [encoded|]; cbn [send_answer].
  - intros Hs. apply bind_Done in Hs as (w & p1 & Hs & Hp). injection Hp as <-.
    pose proof (respond_spec n slot _ owed encoded p Hr (Permutation_refl _)) as Hw.
    unfold wp in Hw. by rewrite Hs in Hw.
  - intros Hs. pose proof (release_spec n slot _ owed p Hr (Permutation_refl _)) as Hw.
    unfold wp in Hw. by rewrite Hs in Hw.
Qed.

(** The pipe owes an answer to the request that is being prepared, and to no other. *)
Definition in_step (n : nat) (s : Loop) : Prop := running n (outstanding (l_service s)) (l_pipe s).

Lemma on_service_Done {A} (m : M Service A) s a s' :
  on_service m s = (Done (Ok a), s') ->
  m (l_service s) = (Done (Ok a), l_service s') /\ l_pipe s' = l_pipe s.
Proof. unfold on_service. destruct (m (l_service s)). by intros [= -> <-]. Qed.

Lemma on_pipe_Done {A} (m : M (ServerState K) A) s a s' :
  on_pipe m s = (Done (Ok a), s') ->
  m (l_pipe s) = (Done (Ok a), l_pipe s') /\ l_service s' = l_service s.
Proof. unfold on_pipe. destruct (m (l_pipe s)). by intros [= -> <-]. Qed.

Lemma pipe_round_in_step n fuel spawned seconds c s t s' :
  in_step n s -> pipe_round fuel spawned seconds c s = (Done (Ok t), s') -> goes_on t = true ->
  in_step n s' /\
  option_list (received t) ++ outstanding (l_service s) ≡ₚ
    option_list (answered_slot t) ++ outstanding (l_service s').
Proof.
  unfold in_step. intros Hin Hround Hgo.
  apply bind_Done in Hround as (stopping & s1 & Hg & Hround). injection Hg as <- <-.
  destruct (may_stop (l_service s)) eqn:Hstop; [by injection Hround as <- <-|].
  apply bind_Done in Hround as (e & s2 & He & Hround). apply on_pipe_Done in He as [He Es2].
  pose proof (next_event_spec n _ fuel SERVICE_IDLE_TIMEOUT_MS _ Hin) as Hev. cbn [l_pipe] in *.
  rewrite He in Hev. change (l_pipe (mkLoop _ _)) with (l_pipe s) in *.
  apply bind_Done in Hround as (held & s3 & Hg & Hround). apply on_pipe_Done in Hg as [Hg Es3].
  injection Hg as _ Ep3.
  apply bind_Done in Hround as ([] & s4 & Hl & Hround). injection Hl as _ <-.
  apply bind_Done in Hround as (step & s5 & Hi & Hround). apply on_service_Done in Hi as [Hi Ep5].
  rewrite Es3, Es2 in Hi. apply iteration_balanced in Hi; [|exact Hstop].
  assert (running n (option_list (requested e) ++ outstanding (l_service s)) (l_pipe s5)) as Hrun.
  { rewrite Ep5, <- Ep3. by destruct e. }
  destruct step as [[[slot bytes]|]|]; cbn in Hi.
  - apply bind_Done in Hround as ([] & s6 & Hs & Hround). apply on_pipe_Done in Hs as [Hs Es6].
    injection Hround as <- <-. cbn. rewrite Es6. split; [|exact Hi].
    eapply send_answer_spec; [|exact Hs]. by eapply running_permutation.
  - injection Hround as <- <-. split; [|exact Hi]. by eapply running_permutation.
  - by injection Hround as <- <-.
Qed.

Lemma loop_steps_in_step n s0 took0 gave0 s took gave :
  rtc loop_step (s0, took0, gave0) (s, took, gave) ->
  in_step n s0 -> took0 ≡ₚ gave0 ++ outstanding (l_service s0) ->
  in_step n s /\ took ≡ₚ gave ++ outstanding (l_service s).
Proof.
  remember (s0, took0, gave0) as x eqn:Ex. remember (s, took, gave) as y eqn:Ey. intros Hsteps.
  revert s0 took0 gave0 Ex. induction Hsteps as [x|x y z Hstep _ IH]; intros s0 took0 gave0 -> Hin Hb.
  { by injection Ey as -> -> ->. }
  inversion Hstep as [fuel spawned seconds c t ? s1 ? ? Hr Hgo|e m ? s1 ? ? He Hm]; subst;
    apply (IH eq_refl _ _ _ eq_refl).
  - by eapply pipe_round_in_step.
  - destruct (pipe_round_in_step _ _ _ _ _ _ _ _ Hin Hr Hgo) as [_ Hp].
    rewrite Hb, (app_assoc _ gave0), (Permutation_app_comm _ gave0), <- app_assoc, Hp.
    by rewrite !app_assoc, (Permutation_app_comm gave0).
  - apply on_service_Done in Hm as [Hm Ep]. unfold in_step.
    by rewrite (other_thread_slots _ _ _ _ He Hm), Ep.
  - apply on_service_Done in Hm as [Hm _]. by rewrite (other_thread_slots _ _ _ _ He Hm).
Qed.

(** C10: Whatever clients send and whenever the workers and the service manager
    come in between, every request that the service has taken from its pipe has
    been answered once, but for the one that is being prepared, whose slot is kept
    for it; the instances held are those of this request and of the queue; and the
    instance of a request that is delivered is held, so that the client that is
    impersonated is the one that sent it. *)
Theorem every_request_is_answered_once p0 p svc s took gave :
  start_pipe_server p0 = (Done (Ok tt), p) -> s_preparing svc = None ->
  rtc loop_step (mkLoop svc p, [], []) (s, took, gave) ->
  took ≡ₚ gave ++ outstanding (l_service s) /\
  (forall slot, pipe slot (server (l_pipe s)) = true <->
     slot ∈ queued (server (l_pipe s)) ++ outstanding (l_service s)) /\
  (forall fuel slot message p',
     next_event fuel SERVICE_IDLE_TIMEOUT_MS (l_pipe s) = (Done (Ok (RequestOf slot message)), p') ->
     pipe slot (server p') = true).
Proof.
  intros Hstart Hnone Hsteps.
  pose proof (create_spec PIPE_NAME SERVICE_PIPE_INSTANCES PIPE_READ_TIMEOUT PIPE_WRITE_TIMEOUT p0) as Hw.
  unfold wp in Hw. unfold start_pipe_server in Hstart. rewrite Hstart in Hw.
  destruct (loop_steps_in_step (N.to_nat (N.max SERVICE_PIPE_INSTANCES 1)) _ _ _ _ _ _ Hsteps)
    as [Hin Hb].
  { unfold in_step, outstanding. cbn. rewrite Hnone. exact Hw. }
  { unfold outstanding. cbn. by rewrite Hnone. }
  split; [done|]. split.
  - intros slot. destruct Hin as (_ & _ & _ & Hj). by rewrite Hj.
  - intros fuel slot message p' He.
    pose proof (next_event_spec _ _ fuel SERVICE_IDLE_TIMEOUT_MS _ Hin) as Hev. rewrite He in Hev.
    destruct Hev as (_ & _ & _ & Hj). apply Hj. cbn. set_solver.
Qed.
End loop.
