(* ===== verification/WindowsPath.v ===== *)
(** * Windows paths

    [std::path] on Windows, as far as the program uses it: the prefix of a path,
    its components, file name, extension and parent. *)

From S2P Require Import Prelude.

(** ** Prefixes *)

Inductive Prefix :=
  | Verbatim (name : list byte)
  | VerbatimUNC (server share : list byte)
  | VerbatimDisk (drive : byte)
  | DeviceNS (name : list byte)
  | UNC (server share : list byte)
  | DiskPrefix (drive : byte).

#[export] Instance Prefix_eq_dec : EqDecision Prefix.
Proof. solve_decision. Defined.

Definition is_verbatim (p : Prefix) : bool :=
  match p with Verbatim _ | VerbatimUNC _ _ | VerbatimDisk _ => true | _ => false end.

(** The length of a server and its share. *)
Definition share_length (server share : list byte) : nat :=
  length server + match share with [] => 0 | _ :: _ => S (length share) end.

Definition prefix_length (p : Prefix) : nat :=
  match p with
  | Verbatim x => 4 + length x
  | VerbatimUNC x y => 8 + share_length x y
  | VerbatimDisk _ => 6
  | DeviceNS x => 4 + length x
  | UNC x y => 2 + share_length x y
  | DiskPrefix _ => 2
  end.

Definition verbatim_sep (b : byte) : bool := bool_decide (b = "\"%char).

(** Up to the first separator, and what follows it. *)
Fixpoint upto (sep : byte -> bool) (l : list byte) : list byte * list byte :=
  match l with
  | [] => ([], [])
  | c :: l' => if sep c then ([], l') else let '(a, r) := upto sep l' in (c :: a, r)
  end.

Definition parse_drive (l : list byte) : option byte :=
  match l with
  | d :: c :: _ =>
      if (is_ascii_lowercase d || is_ascii_uppercase d) && bool_decide (c = ":"%char)
      then Some (to_ascii_upper d) else None
  | _ => None
  end.

Definition parse_drive_exact (l : list byte) : option byte :=
  if match l with _ :: _ :: c :: _ => path_sep c | _ => true end then parse_drive l else None.

(** After [\\?\]. *)
Definition parse_verbatim (l : list byte) : Prefix :=
  match l with
  | "U"%char :: "N"%char :: "C"%char :: s :: rest =>
      if path_sep s then
        let '(server, rest) := upto verbatim_sep rest in
        VerbatimUNC server (fst (upto verbatim_sep rest))
      else Verbatim (fst (upto verbatim_sep l))
  | _ => match parse_drive_exact l with
         | Some drive => VerbatimDisk drive
         | None => Verbatim (fst (upto verbatim_sep l))
         end
  end.

Definition parse_unc (l : list byte) : option Prefix :=
  let '(server, rest) := upto path_sep l in
  let share := fst (upto path_sep rest) in
  match server, share with
  | _ :: _, _ :: _ => Some (UNC server share)
  | _, _ => None
  end.

Definition parse_prefix (l : list byte) : option Prefix :=
  match l with
  | a :: b :: rest =>
      if path_sep a && path_sep b then
        match rest with
        | "?"%char :: c :: rest' =>
            if verbatim_sep a && verbatim_sep b && verbatim_sep c then Some (parse_verbatim rest')
            else parse_unc rest
        | "."%char :: c :: rest' =>
            if path_sep c then Some (DeviceNS (fst (upto path_sep rest'))) else parse_unc rest
        | _ => parse_unc rest
        end
      else DiskPrefix <$> parse_drive l
  | _ => None
  end.

(** ** Components *)

Inductive Component :=
  | PrefixComponent (p : Prefix)
  | RootDirComponent
  | CurDir
  | ParentDir
  | Normal (name : list byte).

#[export] Instance Component_eq_dec : EqDecision Component.
Proof. solve_decision. Defined.

Fixpoint segments (sep : byte -> bool) (l : list byte) : list (list byte) :=
  match l with
  | [] => [[]]
  | c :: l' =>
      if sep c then [] :: segments sep l'
      else match segments sep l' with
           | [] => [[c]]
           | s :: ss => (c :: s) :: ss
           end
  end.

Definition verbatim_path (p : option Prefix) : bool :=
  match p with Some q => is_verbatim q | None => false end.

(** [parse_single_component]. *)
Definition parse_single_component (verbatim : bool) (name : list byte) : option Component :=
  if decide (name = []) then None
  else if decide (name = ["."%char]) then (if verbatim then Some CurDir else None)
  else if decide (name = ["."%char; "."%char]) then Some ParentDir
  else Some (Normal name).

(** A drive has a root only where the path shows one; the other prefixes that
    are not verbatim imply it. *)
Definition implicit_root (p : option Prefix) : bool :=
  match p with
  | Some (DeviceNS _ | UNC _ _) => true
  | _ => false
  end.

Definition components (path : string) : list Component :=
  let l := as_bytes path in
  let p := parse_prefix l in
  let rest := match p with Some q => drop (prefix_length q) l | None => l end in
  let verbatim := verbatim_path p in
  let sep := if verbatim then verbatim_sep else path_sep in
  let physical := match rest with c :: _ => path_sep c | [] => false end in
  let body := if physical then tail rest else rest in
  let leading_dot := negb physical && negb (implicit_root p) && negb verbatim
                     && bool_decide (head (segments sep body) = Some ["."%char]) in
  match p with Some q => [PrefixComponent q] | None => [] end
  ++ (if physical || implicit_root p then [RootDirComponent] else [])
  ++ (if leading_dot then [CurDir] else [])
  ++ omap (parse_single_component verbatim) (segments sep body).

Definition file_name (path : string) : option (list byte) :=
  match last (components path) with Some (Normal name) => Some name | _ => None end.

(** [Path::extension]. *)
Definition extension (path : string) : option string :=
  name ← file_name path;
  match rsplit_once "." name with
  | Some (_ :: _, after) => Some (of_bytes after)
  | _ => None
  end.

(** [Path::parent], as the components that decide its equality. *)
Definition parent (path : string) : option (list Component) :=
  match last (components path) with
  | Some (Normal _ | CurDir | ParentDir) => Some (removelast (components path))
  | _ => None
  end.
