(* ===== verification/Client.v ===== *)
(** * The client

    The commands of src/src/bin/client.rs that talk to the service, with
    [call_shared_service] of src/src/windows.rs: the request and its answer, the
    compatibility of an installed service, and the hand-over of a Launcher update
    (wait for the Launcher's end, commit, wait for the job, restart).

    The client's errors are texts.  What Windows does is a class: the service and
    its pipe, the clock, the Launcher's process.  A run keeps the trace of what it
    asked and did. *)

From stdpp Require Import relations.
From S2P Require Import Prelude Errors Effects Identifiers Json Trust FileSet RegistrySet Roots.
From S2P Require Import RegistryScopes Protocol ServiceUpgrade Wire WindowsPath.

(** [CARGO_PKG_VERSION], from src/Cargo.toml. *)
Definition client_version : string := "1.0.3".

(** ** Results with a text as the error *)

Inductive Reply (A : Type) := Good (a : A) | Bad (message : string).
Arguments Good {_} _.
Arguments Bad {_} _.

(** ** The machine *)

(** The times are those of [Instant] in milliseconds. *)
Class ClientMachine (W : Type) := {
  (** starts the service if needed, opens its pipe and checks whose it is *)
  open_service : W -> Result () * W;
  (** one message there and one back *)
  transact : list byte -> W -> Result (list byte) * W;
  now : W -> N;
  sleep : N -> W -> W;
  (** [LauncherProcess]: opened by its identifier; a wait says whether it ended *)
  launcher_open : N -> W -> Result () * W;
  launcher_wait : N -> N -> W -> Result bool * W;
  (** opens and sets the event of that name *)
  set_event : string -> W -> Result () * W;
  (** [symlink_metadata]: whether it is a regular file *)
  regular_file : string -> W -> option bool;
  spawn : string -> W -> bool * W;
}.

(** What the clock and the waits promise: time does not go back, a sleep lasts at
    least its duration, and so does a wait that ran out. *)
Class ClockLaws (W : Type) `{ClientMachine W} := {
  sleep_lasts d w : (now w + d <= now (sleep d w))%N;
  wait_lasts p d w w' :
    launcher_wait p d w = (Ok false, w') -> (d < u32_max)%N -> (now w + d <= now w')%N;
  open_service_later w : (now w <= now (snd (open_service w)))%N;
  transact_later bytes w : (now w <= now (snd (transact bytes w)))%N;
}.

(** ** The client's computations *)

Section monad.
Context `{SerdeJson}.

Inductive Action :=
  | Called (request : Request) (answer : Reply Value)
  | Ready
  | Exited
  | Restarted (path : string)
  | Printed (text : list byte).

Record ClientState (W : Type) := mkClient { c_world : W; c_trace : list Action }.
Arguments mkClient {_} _ _.
Arguments c_world {_} _.
Arguments c_trace {_} _.

(** [None]: it does not return. *)
Definition C (W A : Type) : Type := ClientState W -> option (Reply A * ClientState W).

#[export] Instance C_ret W : MRet (C W) := fun A a s => Some (Good a, s).
#[export] Instance C_bind W : MBind (C W) := fun A B k m s =>
  '(r, s') ← m s;
  match r with Good a => k a s' | Bad e => Some (Bad e, s') end.

Definition reply {W A} (r : Reply A) : C W A := fun s => Some (r, s).
Definition bad {W A} (message : string) : C W A := reply (Bad message).
Definition check {W} (b : bool) (message : string) : C W () :=
  if b then mret tt else bad message.
Definition does_not_return {W A} : C W A := fun _ => None.
(** [match] on a result. *)
Definition outcome {W A} (m : C W A) : C W (Reply A) := fun s =>
  '(r, s') ← m s; Some (Good r, s').
Definition note {W} (a : Action) : C W () := fun s =>
  Some (Good tt, mkClient (c_world s) (c_trace s ++ [a])).

(** An operation of the machine, its error shown as a text. *)
Definition machine {W A} (f : W -> Result A * W) : C W A := fun s =>
  let '(r, w) := f (c_world s) in
  Some (match r with Ok a => Good a | Err e => Bad (display_error e) end,
        mkClient w (c_trace s)).
Definition reads {W A} (f : W -> A) : C W A := fun s => Some (Good (f (c_world s)), s).
End monad.
Arguments mkClient {_ _} _ _.
Arguments c_world {_ _} _.
Arguments c_trace {_ _} _.

(** ** One call of the service *)

Section client.
Context {W : Type}.
Context `{SerdeJson, !ClientMachine W, !Reader Value}.

Definition encode_request (request : Request) : Result (list byte) :=
  encoded ← ok_or (to_vec (Request_value request)) ProtocolInvalid
    "typed IPC request cannot be encoded";
  _ ← ensure (length encoded <=? MAX_IPC_MESSAGE_BYTES)%nat ProtocolTooLarge
        "typed IPC request exceeds the message bound";
  Ok encoded.

Definition decode_response (bytes : list byte) : Result Value :=
  response ← ok_or (from_slice bytes) ProtocolInvalid "IPC response is not JSON";
  _ ← ensure (bool_decide (entry "protocolMajor" response ≫= value_u64 = Some PROTOCOL_MAJOR))
        ProtocolVersion "shared service returned an incompatible protocol major";
  Ok response.

Definition call_shared_service (request : Request) : C W Value :=
  _ ← machine open_service;
  encoded ← machine (fun w => (encode_request request, w));
  bytes ← machine (transact encoded);
  machine (fun w => (decode_response bytes, w)).

Definition service_rejection_diagnostic (response : Value) : string :=
  let diagnostic := default "E_PROTOCOL_INVALID" (text_of "error" response) in
  let diagnostic :=
    match text_of "detail" response with
    | Some detail => if decide (detail = "") then diagnostic
                     else diagnostic +:+ ": " +:+ detail
    | None => diagnostic
    end in
  match entry "win32Status" response ≫= value_u64 with
  | Some status => diagnostic +:+ " (Win32 status " +:+ of_bytes (u64_to_string status) +:+ ")"
  | None => diagnostic
  end.

Definition call_checked (request : Request) : C W Value :=
  r ← outcome (
    response ← call_shared_service request;
    _ ← check (bool_decide (entry "ok" response ≫= value_bool = Some true))
          ("maintenance service rejected the request: " +:+ service_rejection_diagnostic response);
    mret response);
  _ ← note (Called request r);
  reply r.

Definition print_response (response : Value) : C W () :=
  match to_vec response with
  | Some text => note (Printed text)
  | None => bad "maintenance response cannot be printed"
  end.

(** ** Compatibility *)

Definition has_capability (capabilities : list Value) (required : string) : bool :=
  existsb (fun c => bool_decide (value_str c = Some required)) capabilities.

Definition text_result {A} (r : Result A) : Reply A :=
  match r with Ok a => Good a | Err e => Bad (display_error e) end.

Definition ensure_service_compatible (response : Value) : C W () :=
  _ ← check (bool_decide (entry "protocolMajor" response ≫= value_u64 = Some 1%N))
        "maintenance service protocol is incompatible";
  installed ← reply (match text_of "serviceVersion" response with
                     | Some v => Good v
                     | None => Bad "maintenance service version is missing"
                     end);
  installed ← reply (text_result (parse_version installed));
  required ← reply (text_result (parse_version client_version));
  _ ← check (negb (bool_decide (version_cmp installed required = Lt)))
        "maintenance service install or upgrade is required";
  capabilities ← reply (match entry "capabilities" response ≫= value_array with
                        | Some items => Good items
                        | None => Bad "maintenance service capabilities are missing"
                        end);
  _ ← check (has_capability capabilities "file-set-v1")
        "maintenance service capability is missing: file-set-v1";
  check (has_capability capabilities "registry-set-v1")
    "maintenance service capability is missing: registry-set-v1".

Definition service_compatible : C W () :=
  response ← call_checked (GetStatus 1);
  _ ← ensure_service_compatible response;
  print_response response.

(** ** The end of a job *)

(** What one answer decides; [None]: wait and ask again. *)
Definition judge (commit_response_failed : bool) (response : Reply Value) : option (Reply Value) :=
  match response with
  | Bad _ => None
  | Good value =>
      if decide (text_of "error" value = Some "E_RECOVERY_INCOMPLETE") then
        Some (Bad "maintenance recovery is incomplete; Launcher restart withheld")
      else
        let state := text_of "state" value in
        if decide (state = Some "committed" \/ state = Some "rolledBack") then Some response
        else if decide (state = Some "prepared" /\ commit_response_failed = true) then Some response
        else if decide (state = Some "prepared" \/ state = Some "committing") then None
        else if decide (state = Some "failed") then
          Some (Bad "maintenance job failed; Launcher restart withheld")
        else Some (Bad "maintenance service returned an invalid job state")
  end.

Definition deadline_message (response : Reply Value) : string :=
  "maintenance completion deadline exceeded; Launcher restart withheld: " +:+
  match response with Bad e => e | Good _ => "job did not reach a safe terminal state" end.

(** [wait_for_job_completion_with]; [fuel] bounds the rounds. *)
Fixpoint wait_for_job_completion_with (fuel : nat) (commit_response_failed : bool)
    (response : Reply Value) (poll : C W Value) (wait : C W bool) : C W Value :=
  match judge commit_response_failed response with
  | Some decided => reply decided
  | None =>
      match fuel with
      | O => does_not_return
      | S fuel' =>
          more ← wait;
          if (more : bool) then
            response ← outcome poll;
            wait_for_job_completion_with fuel' commit_response_failed response poll wait
          else bad (deadline_message response)
      end
  end.

Definition COMPLETION_DEADLINE : N := 120000.
Definition POLL_DELAY : N := 100.

Definition completion_wait (started : N) : C W bool :=
  elapsed ← reads (fun w => now w - started)%N;
  if (COMPLETION_DEADLINE <=? elapsed)%N then mret false
  else fun s => Some (Good true, mkClient (sleep POLL_DELAY (c_world s)) (c_trace s)).

(** Each round but the first comes after a delay: 1,200 delays reach the deadline. *)
Definition completion_fuel : nat := 1201.

Definition is_bad {A} (r : Reply A) : bool := match r with Bad _ => true | Good _ => false end.

Definition wait_for_job_completion (job_id : string) (response : Reply Value) : C W Value :=
  started ← reads now;
  wait_for_job_completion_with completion_fuel (is_bad response) response
    (call_checked (GetJobStatus 1 job_id)) (completion_wait started).

(** A lost Commit response is ambiguous: the job is inspected, Commit is never
    sent twice. *)
Definition commit_after_launcher_exit (job_id : string) : C W Value :=
  response ← outcome (call_checked (CommitJob 1 job_id));
  wait_for_job_completion job_id response.

(** ** The hand-over *)

Definition validate_restart_executable (path : string) : C W () :=
  _ ← check (path_is_absolute path && bool_decide (extension path = Some "exe"))
        "registered Launcher restart path must be an absolute .exe path";
  found ← reads (regular_file path);
  match found with
  | None => bad "registered Launcher restart path does not exist"
  | Some regular => check regular "registered Launcher restart path is not a regular file"
  end.

(** The parent of an absolute path to an executable exists. *)
Definition restart_launcher (restart : string) : C W () :=
  started ← (fun s => let '(b, w) := spawn restart (c_world s) in
                      Some (Good b, mkClient w (c_trace s)));
  _ ← check started "registered Launcher could not be restarted";
  note (Restarted restart).

Definition signal_launcher_ready (event : string) : C W () :=
  _ ← machine (fun w => (ensure (negb (bool_decide (event = "") || has_nul event)) TransactionState
                           "Launcher readiness event name is invalid", w));
  _ ← machine (set_event event);
  note Ready.

Definition SHUTDOWN_DEADLINE : N := 120000.
Definition SHUTDOWN_SLICE : N := 5000.

(** Keeps the prepared job alive while the Launcher ends. *)
Fixpoint wait_for_shutdown (fuel : nat) (pid : N) (status_request : Request) (started : N)
    : C W () :=
  ended ← machine (launcher_wait pid SHUTDOWN_SLICE);
  if (ended : bool) then note Exited
  else
    elapsed ← reads (fun w => now w - started)%N;
    if (SHUTDOWN_DEADLINE <=? elapsed)%N then
      bad "Launcher did not exit before the handoff deadline"
    else
      _ ← outcome (call_checked status_request);
      match fuel with
      | O => does_not_return
      | S fuel' => wait_for_shutdown fuel' pid status_request started
      end.

(** Each wait that ran out took a slice: 24 of them reach the deadline. *)
Definition shutdown_fuel : nat := 23.

Definition wait_commit_restart (pid : N) (job_id restart : string) (ready_event : option string)
    : C W () :=
  _ ← validate_restart_executable restart;
  _ ← machine (launcher_open pid);
  let status_request := GetJobStatus 1 job_id in
  first ← call_checked status_request;
  _ ← check (bool_decide (text_of "state" first = Some "prepared"))
        "maintenance job is not prepared for handoff";
  _ ← match ready_event with Some event => signal_launcher_ready event | None => mret tt end;
  shutdown_started ← reads now;
  _ ← wait_for_shutdown shutdown_fuel pid status_request shutdown_started;
  status ← outcome (call_checked status_request);
  match status with
  | Bad error =>
      _ ← restart_launcher restart;
      bad ("maintenance unavailable before commit; old Launcher restarted: " +:+ error)
  | Good value =>
      response ← (if decide (text_of "state" value = Some "prepared")
                  then commit_after_launcher_exit job_id
                  else wait_for_job_completion job_id status);
      _ ← restart_launcher restart;
      _ ← check (bool_decide (text_of "state" response = Some "committed"))
            ("maintenance update did not commit; original Launcher restarted: " +:+
             default "E_TRANSACTION_STATE" (text_of "error" response));
      print_response response
  end.
End client.
