(* ===== verification/PipeClient.v ===== *)
(** * The client's end of the pipe

    How the client reaches the service: [start_shared_service],
    [open_verified_client] (src/src/windows_pipe.rs) with its retries, one message
    there and one back, and the handles of the Launcher's process
    (src/src/windows.rs).  They implement the interface [ClientMachine] of Client
    over the calls of Windows; the calls that matter for the identity of the server
    are kept in a trace. *)

From S2P Require Import PipeServer.
From S2P Require Import Prelude Errors Effects Identifiers Json Trust FileSet RegistrySet Roots.
From S2P Require Import RegistryScopes Protocol ServiceUpgrade Wire WindowsPath Client.

(** Durations in milliseconds. *)
Definition PIPE_READY_TIMEOUT : N := 30 * 1000.
Definition PIPE_RESPONSE_TIMEOUT : N := 30 * 1000.
Definition PIPE_READY_WAIT_SLICE : N := 250.
Definition PIPE_READY_RETRY_DELAY : N := 50.

(** The constants of winerror.h and winsvc.h. *)
Definition ALREADY_RUNNING : N := 1056.
Definition RUNNING : N := 4.

(** ** Windows *)

Class ClientSystem (W : Type) := {
  cs_now : W -> N;
  cs_sleep : N -> W -> W;
  cs_open_manager : W -> bool * W;
  cs_open_service : W -> bool * W;
  cs_start_service : W -> N * W;
  (** the state of the service and its process *)
  cs_query_status : W -> option (N * N) * W;
  cs_wait_pipe : N -> W -> bool * W;
  cs_open_pipe : W -> bool * W;
  cs_server_process : W -> option N * W;
  cs_message_mode : W -> bool * W;
  cs_create_event : W -> Opened * W;
  cs_transact : list byte -> W -> N * W;
  cs_wait : N -> W -> N * W;
  cs_cancel : W -> bool * W;
  (** [GetOverlappedResult], waiting or not *)
  cs_result : bool -> W -> (N * N) * W;
  (** the buffer of the answer *)
  cs_response : W -> list byte;
  cs_open_process : N -> W -> Opened * W;
  cs_wait_process : N -> N -> W -> N * W;
  cs_open_event : string -> W -> Opened * W;
  cs_set_event : W -> bool * W;
  cs_regular_file : string -> W -> option bool;
  cs_spawn : string -> W -> bool * W;
}.

(** What the trace keeps: the process that the service manager names, the opening
    of the pipe, the process of the server at its other end, and the message. *)
Inductive PipeCall :=
  | AskedService (pid : option N)
  | OpenedPipe (opened : bool)
  | AskedServer (pid : option N)
  | Sent (message : list byte).

(** [foreign]: another process served the pipe; [sending]: the kernel uses the
    OVERLAPPED and the buffers of the message. *)
Record ClientWorld (W : Type) := mkClientWorld {
  cw_system : W;
  cw_trace : list PipeCall;
  cw_foreign : bool;
  cw_sending : bool;
}.
Arguments mkClientWorld {_} _ _ _ _.
Arguments cw_system {_} _.
Arguments cw_trace {_} _.
Arguments cw_foreign {_} _.
Arguments cw_sending {_} _.

Section client.
Context {W : Type} `{!ClientSystem W}.

Abbreviation State := (ClientWorld W).

Definition sys {A} (call : W -> A * W) : M State A := fun s =>
  let '(a, w) := call (cw_system s) in
  (Done (Ok a), mkClientWorld w (cw_trace s) (cw_foreign s) (cw_sending s)).

Definition noted (c : PipeCall) : M State () := modify (fun s =>
  mkClientWorld (cw_system s) (cw_trace s ++ [c]) (cw_foreign s) (cw_sending s)).
Definition set_foreign (b : bool) : M State () := modify (fun s =>
  mkClientWorld (cw_system s) (cw_trace s) b (cw_sending s)).
Definition set_sending (b : bool) : M State () := modify (fun s =>
  mkClientWorld (cw_system s) (cw_trace s) (cw_foreign s) b).

Definition time : M State N := gets (fun s => cs_now (cw_system s)).
Definition sleep_for (d : N) : M State () := modify (fun s =>
  mkClientWorld (cs_sleep d (cw_system s)) (cw_trace s) (cw_foreign s) (cw_sending s)).

Definition require (call : W -> bool * W) (c : ErrorCode) (detail : string) : M State () :=
  good ← sys call; lift (ensure good c detail).

(** A handle, with the error of the call and of [KernelHandle::new]. *)
Definition handle (call : W -> Opened * W) (failed invalid : MaintenanceError) : M State () :=
  opened ← sys call; lift (kernel_handle opened failed invalid).

(** ** The service *)

Definition open_and_start_shared_service : M State () :=
  _ ← require cs_open_manager RootUnauthorized
        "service control manager cannot be opened by the client";
  _ ← require cs_open_service ProtocolVersion "shared maintenance service is not installed";
  status ← sys cs_start_service;
  lift (ensure ((status =? 0)%N || (status =? ALREADY_RUNNING)%N) TransactionIo
          "shared maintenance service could not be started").

Definition start_shared_service : M State () := open_and_start_shared_service.

Definition running_process (status : option (N * N)) : option N :=
  '(state, pid) ← status;
  if ((state =? RUNNING) && negb (pid =? 0))%N then Some pid else None.

Definition running_service_process_id : M State (option N) :=
  status ← sys cs_query_status;
  let pid := running_process status in
  _ ← noted (AskedService pid);
  pure pid.

(** ** Its pipe *)

(** [wait_for_pipe_ready_with]; [fuel] bounds the attempts after the first one. *)
Fixpoint wait_for_pipe_ready_with {T} (fuel : nat) (started timeout : N)
    (try_open : N -> M State (option T)) : M State (option T) :=
  now ← time;
  let elapsed := (now - started)%N in
  if (timeout <=? elapsed)%N then pure None
  else
    let wait_slice := N.min (timeout - elapsed) PIPE_READY_WAIT_SLICE in
    opened ← try_open (N.max (N.min wait_slice u32_max) 1);
    match opened with
    | Some pipe => pure (Some pipe)
    | None =>
        later ← time;
        let remaining := (timeout - (later - started))%N in
        if (remaining =? 0)%N then pure None
        else
          _ ← sleep_for (N.min remaining PIPE_READY_RETRY_DELAY);
          match fuel with
          | O => out_of_fuel
          | S fuel' => wait_for_pipe_ready_with fuel' started timeout try_open
          end
    end.

(** An attempt of [open_verified_client]. *)
Definition try_open (wait_milliseconds : N) : M State (option ()) :=
  there ← sys (cs_wait_pipe wait_milliseconds);
  if negb there then pure None
  else
    expected ← running_service_process_id;
    match expected with
    | None => pure None
    | Some expected =>
        opened ← sys cs_open_pipe;
        _ ← noted (OpenedPipe opened);
        if negb opened then pure None
        else
          actual ← sys cs_server_process;
          _ ← noted (AskedServer actual);
          match actual with
          | None => pure None
          | Some actual =>
              if (actual =? expected)%N then pure (Some tt)
              else _ ← set_foreign true; pure None
          end
    end.

(** Each sleep but the last takes 50 ms: 600 of them reach the timeout. *)
Definition ready_fuel : nat := 601.

Definition open_verified_client (timeout : N) : M State () :=
  _ ← set_foreign false;
  started ← time;
  opened ← wait_for_pipe_ready_with ready_fuel started timeout try_open;
  match opened with
  | Some pipe => pure pipe
  | None =>
      foreign ← gets cw_foreign;
      fail (new_error TransactionIo
              (if (foreign : bool) then "shared maintenance pipe is served by another process"
               else "shared maintenance pipe did not become ready"))
  end.

(** ** One message and its answer *)

Definition overlapped_result (wait : bool) : M State (N * N) :=
  r ← sys (cs_result wait);
  _ ← (if wait || negb (fst r =? ERROR_IO_INCOMPLETE)%N then set_sending false else pure tt);
  pure r.

(** The OVERLAPPED, the event and the buffers go out of scope. *)
Definition drop_message : M State () :=
  busy ← gets cw_sending;
  if (busy : bool) then crash else pure tt.

Definition exchange (request : list byte) (timeout : N) : M State (list byte) :=
  _ ← set_sending false;
  _ ← require cs_message_mode ProtocolInvalid "typed IPC pipe cannot enter message-read mode";
  event ← sys cs_create_event;
  _ ← lift (create_event event);
  _ ← noted (Sent request);
  status ← sys (cs_transact request);
  _ ← set_sending (status =? ERROR_IO_PENDING)%N;
  '(status, read) ←
    (if (status =? 0)%N then overlapped_result false
     else if (status =? ERROR_IO_PENDING)%N then
       wait ← sys (cs_wait (N.min timeout (u32_max - 1)));
       if (wait =? 0)%N then overlapped_result false
       else
         _ ← sys cs_cancel;
         _ ← overlapped_result true;
         fail (new_error TransactionIo
                 (if (wait =? WAIT_TIMEOUT)%N then "typed IPC response timed out"
                  else "typed IPC response wait failed"))
     else pure (status, 0%N));
  _ ← lift (if (status =? 0)%N then Ok tt
            else if (status =? ERROR_MORE_DATA)%N
            then Err (new_error ProtocolTooLarge "typed IPC response exceeds the message bound")
            else Err (new_error TransactionIo
                        "typed IPC transaction did not return one bounded response"));
  gets (fun s => take (N.to_nat read) (cs_response (cw_system s))).

(** [transact_pipe_message_with_timeout]: what was in scope is dropped at every end. *)
Definition transact_pipe_message_with_timeout (request : list byte) (timeout : N) : M State (list byte) :=
  _ ← lift (ensure (N.of_nat (length request) <=? u32_max)%N ProtocolTooLarge
        "typed IPC request size overflowed");
  response ← attempt (exchange request timeout);
  _ ← drop_message;
  lift response.

Definition transact_pipe_message (request : list byte) : M State (list byte) :=
  transact_pipe_message_with_timeout request PIPE_RESPONSE_TIMEOUT.

(** ** The Launcher *)

Definition open_launcher (pid : N) : M State () :=
  handle (cs_open_process pid)
    (new_error TransactionState "Launcher process cannot be opened for synchronization")
    (new_error TransactionState "Launcher synchronization handle is invalid").

Definition wait_launcher (pid timeout : N) : M State bool :=
  wait ← sys (cs_wait_process pid (N.min timeout (u32_max - 1)));
  lift (if (wait =? 0)%N then Ok true
        else if (wait =? WAIT_TIMEOUT)%N then Ok false
        else Err (new_error TransactionState "Launcher process synchronization failed")).

(** [signal_launcher_ready], after the check of the name. *)
Definition set_ready_event (name : string) : M State () :=
  _ ← handle (cs_open_event name)
        (new_error TransactionState "Launcher readiness event cannot be opened")
        (new_error TransactionState "Launcher readiness event handle is invalid");
  require cs_set_event TransactionState "Launcher readiness event cannot be signaled".

(** [wait_for_process_exit]: the waits are not bounded, [fuel] is that of the model. *)
Fixpoint wait_until_exit (fuel : nat) (pid : N) : M State () :=
  match fuel with
  | O => out_of_fuel
  | S fuel' =>
      ended ← wait_launcher pid 30000;
      if (ended : bool) then pure tt else wait_until_exit fuel' pid
  end.

Definition wait_for_process_exit (fuel : nat) (pid : N) : M State () :=
  _ ← open_launcher pid; wait_until_exit fuel pid.

(** ** The interface of the client *)

(** The result of a call; the other ends do not happen ([open_pipe_returns],
    [transact_returns]). *)
Definition returns {A} (m : M State A) (s : State) : Result A * State :=
  match m s with
  | (Done r, s') => (r, s')
  | (_, s') => (Err (new_error TransactionIo "the client has stopped"), s')
  end.

Definition open_pipe : M State () :=
  _ ← open_and_start_shared_service; open_verified_client PIPE_READY_TIMEOUT.

#[export] Instance windows_client : ClientMachine State := {
  open_service := returns open_pipe;
  transact bytes := returns (transact_pipe_message bytes);
  now s := cs_now (cw_system s);
  sleep d s := snd (sleep_for d s);
  launcher_open pid := returns (open_launcher pid);
  launcher_wait pid timeout := returns (wait_launcher pid timeout);
  set_event name := returns (set_ready_event name);
  regular_file path s := cs_regular_file path (cw_system s);
  spawn path s := let '(b, w) := cs_spawn path (cw_system s) in
    (b, mkClientWorld w (cw_trace s) (cw_foreign s) (cw_sending s));
}.
End client.

(** ** What Windows promises *)

(** Time does not go back, a sleep and a wait that runs out last at least their
    duration; [cs_ended]: the operation on the pipe has ended. *)
Class ClientSystemLaws (W : Type) `{!ClientSystem W} := {
  cs_sleep_lasts d w : (cs_now w + d <= cs_now (cs_sleep d w))%N;
  cs_wait_process_lasts p d w w' :
    cs_wait_process p d w = (WAIT_TIMEOUT, w') -> (cs_now w + d <= cs_now w')%N;
  cs_open_manager_later w : (cs_now w <= cs_now (snd (cs_open_manager w)))%N;
  cs_open_service_later w : (cs_now w <= cs_now (snd (cs_open_service w)))%N;
  cs_start_service_later w : (cs_now w <= cs_now (snd (cs_start_service w)))%N;
  cs_query_status_later w : (cs_now w <= cs_now (snd (cs_query_status w)))%N;
  cs_wait_pipe_later d w : (cs_now w <= cs_now (snd (cs_wait_pipe d w)))%N;
  cs_open_pipe_later w : (cs_now w <= cs_now (snd (cs_open_pipe w)))%N;
  cs_server_process_later w : (cs_now w <= cs_now (snd (cs_server_process w)))%N;
  cs_message_mode_later w : (cs_now w <= cs_now (snd (cs_message_mode w)))%N;
  cs_create_event_later w : (cs_now w <= cs_now (snd (cs_create_event w)))%N;
  cs_transact_later bytes w : (cs_now w <= cs_now (snd (cs_transact bytes w)))%N;
  cs_wait_later d w : (cs_now w <= cs_now (snd (cs_wait d w)))%N;
  cs_cancel_later w : (cs_now w <= cs_now (snd (cs_cancel w)))%N;
  cs_result_later b w : (cs_now w <= cs_now (snd (cs_result b w)))%N;
  cs_ended : W -> Prop;
  cs_transact_ended bytes w w' : cs_transact bytes w = (0%N, w') -> cs_ended w';
  cs_wait_ended d w w' : cs_wait d w = (0%N, w') -> cs_ended w';
  cs_result_ended w r w' : cs_result false w = (r, w') -> cs_ended w -> fst r <> ERROR_IO_INCOMPLETE;
}.

Create HintDb later.
#[export] Hint Resolve cs_open_manager_later cs_open_service_later cs_start_service_later
  cs_query_status_later cs_wait_pipe_later cs_open_pipe_later cs_server_process_later
  cs_message_mode_later cs_create_event_later cs_transact_later cs_wait_later cs_cancel_later
  cs_result_later : later.

Section laws.
Context {W : Type} `{!ClientSystem W, !ClientSystemLaws W}.

Abbreviation State := (ClientWorld W).

Implicit Types (s : State) (t : list PipeCall).

(** From [s0] the trace went on with [t], nothing was left under way, and time did
    not go back. *)
Definition advanced s0 t s : Prop :=
  cw_trace s = cw_trace s0 ++ t /\ cw_sending s = cw_sending s0 /\
  (cs_now (cw_system s0) <= cs_now (cw_system s))%N.

Lemma advanced_refl s : advanced s [] s.
Proof. split; [by rewrite app_nil_r|done]. Qed.

Lemma advanced_trans s0 t1 s1 t2 s2 :
  advanced s0 t1 s1 -> advanced s1 t2 s2 -> advanced s0 (t1 ++ t2) s2.
Proof. intros (E1 & B1 & L1) (E2 & B2 & L2). split; [by rewrite E2, E1, app_assoc|split; [congruence|lia]]. Qed.

(** The code comes to an end without undefined behaviour; [Q] of what it adds to
    the trace when it returns, [E] when it fails. *)
Definition adds {A} (m : M State A) (Q : A -> list PipeCall -> State -> Prop)
    (E : list PipeCall -> Prop) (s : State) : Prop :=
  wp m (fun a s' => exists t, advanced s t s' /\ Q a t s') (fun _ s' => exists t, advanced s t s' /\ E t)
     (fun _ => False) s.

Section adds.
Context {A : Type} (Q : A -> list PipeCall -> State -> Prop) (E : list PipeCall -> Prop).

Lemma adds_pure a s : Q a [] s -> adds (pure a) Q E s.
Proof. intros HQ. exists []. split; [apply advanced_refl|done]. Qed.

Lemma adds_fail e s : E [] -> adds (fail e) Q E s.
Proof. intros HE. exists []. split; [apply advanced_refl|done]. Qed.

Lemma adds_lift r s : (forall a, r = Ok a -> Q a [] s) -> E [] -> adds (lift r) Q E s.
Proof. intros HQ HE. destruct r; [by apply adds_pure, HQ|by apply adds_fail]. Qed.

Lemma adds_gets (f : State -> A) s : Q (f s) [] s -> adds (gets f) Q E s.
Proof. apply (adds_pure (f s)). Qed.

Lemma adds_bind {B} (m : M State B) (k : B -> M State A) s :
  adds m (fun b t1 s1 => adds (k b) (fun a t2 => Q a (t1 ++ t2)) (fun t2 => E (t1 ++ t2)) s1) E s ->
  adds (m ≫= k) Q E s.
Proof.
  intros Hm. apply wp_bind. eapply wp_mono; [exact Hm| |done|done]. cbv beta.
  intros b s1 (t1 & H1 & Hk). eapply wp_mono; [exact Hk| | |done]; cbv beta.
  - intros a s2 (t2 & H2 & HQ). exists (t1 ++ t2). split; [by eapply advanced_trans|done].
  - intros e s2 (t2 & H2 & HE). exists (t1 ++ t2). split; [by eapply advanced_trans|done].
Qed.

Lemma adds_mono (Q' : A -> list PipeCall -> State -> Prop) (E' : list PipeCall -> Prop) (m : M State A) s :
  adds m Q' E' s -> (forall a t s', advanced s t s' -> Q' a t s' -> Q a t s') ->
  (forall t, E' t -> E t) -> adds m Q E s.
Proof.
  intros Hm HQ HE. eapply wp_mono; [exact Hm| | |done]; cbv beta.
  - intros a s' (t & Ha & H). eauto.
  - intros e s' (t & Ha & H). eauto.
Qed.

Lemma adds_sys (call : W -> A * W) s :
  (forall w, cs_now w <= cs_now (snd (call w)))%N ->
  (forall a w, call (cw_system s) = (a, w) ->
     Q a [] (mkClientWorld w (cw_trace s) (cw_foreign s) (cw_sending s))) ->
  adds (sys call) Q E s.
Proof.
  intros Hl HQ. specialize (Hl (cw_system s)). unfold adds, wp, sys.
  destruct (call (cw_system s)) as [a w]. exists [].
  split; [split; [by rewrite app_nil_r|done]|by apply HQ].
Qed.
End adds.

Lemma adds_noted c s (Q : () -> list PipeCall -> State -> Prop) E :
  (forall s', Q tt [c] s') -> adds (noted c) Q E s.
Proof. intros HQ. exists [c]. split; [done|apply HQ]. Qed.

Lemma adds_set_foreign b s (Q : () -> list PipeCall -> State -> Prop) E :
  (forall s', Q tt [] s') -> adds (set_foreign b) Q E s.
Proof. intros HQ. exists []. split; [split; [by cbn; rewrite app_nil_r|done]|apply HQ]. Qed.

Lemma adds_require call c detail s (Q : () -> list PipeCall -> State -> Prop) (E : list PipeCall -> Prop) :
  (forall w, cs_now w <= cs_now (snd (call w)))%N -> (forall s', Q tt [] s') -> E [] ->
  adds (require call c detail) Q E s.
Proof.
  intros Hl HQ HE. apply adds_bind, adds_sys; [done|]. intros b w _.
  apply adds_lift; [intros [] _; apply HQ|done].
Qed.

(** ** The server is the one that the service manager names *)

(** The last calls compared the two processes and found them equal. *)
Definition verified t : Prop :=
  exists before pid, t = before ++ [AskedService (Some pid); OpenedPipe true; AskedServer (Some pid)].

Definition silent t : Prop := forall message, Sent message ∉ t.

Lemma silent_app t1 t2 : silent t1 -> silent t2 -> silent (t1 ++ t2).
Proof. intros H1 H2 m [H|H]%elem_of_app; [by eapply H1|by eapply H2]. Qed.

Lemma verified_app t1 t2 : verified t2 -> verified (t1 ++ t2).
Proof. intros (b & pid & ->). exists (t1 ++ b), pid. by rewrite app_assoc. Qed.

Ltac is_silent := intros ? Hin; repeat (apply elem_of_cons in Hin as [[=]|Hin]); by apply elem_of_nil in Hin.

Lemma try_open_spec ms s :
  adds (try_open ms) (fun r t _ => silent t /\ (r = Some tt -> verified t)) silent s.
Proof.
  apply adds_bind, adds_sys; [auto with later|]. intros there w _.
  destruct there; cbn [negb]; [|apply adds_pure; split; [is_silent|done]].
  apply adds_bind. unfold running_service_process_id. apply adds_bind, adds_sys; [auto with later|].
  intros status w1 _. apply adds_bind, adds_noted. intros s2. apply adds_pure.
  destruct (running_process status) as [expected|]; [|apply adds_pure; split; [is_silent|done]].
  apply adds_bind, adds_sys; [auto with later|]. intros opened w2 _.
  apply adds_bind, adds_noted. intros s3.
  destruct opened; cbn [negb]; [|apply adds_pure; split; [is_silent|done]].
  apply adds_bind, adds_sys; [auto with later|]. intros actual w3 _.
  apply adds_bind, adds_noted. intros s4.
  destruct actual as [actual|]; [|apply adds_pure; split; [is_silent|done]].
  destruct (N.eqb_spec actual expected) as [->|].
  - apply adds_pure. split; [is_silent|]. intros _. by exists [], expected.
  - apply adds_bind, adds_set_foreign. intros s5. apply adds_pure. split; [is_silent|done].
Qed.

Lemma wait_for_pipe_ready_spec fuel started timeout s :
  (timeout <= (cs_now (cw_system s) - started) + PIPE_READY_RETRY_DELAY * N.of_nat fuel)%N ->
  (started <= cs_now (cw_system s))%N ->
  adds (wait_for_pipe_ready_with fuel started timeout try_open)
    (fun r t _ => silent t /\ (r = Some tt -> verified t)) silent s.
Proof.
  revert s. induction fuel as [|fuel IH]; intros s Hf Hs; cbn [wait_for_pipe_ready_with];
    apply adds_bind, adds_gets;
    (destruct (N.leb_spec timeout (cs_now (cw_system s) - started)) as [Hle|Hlt];
      [apply adds_pure; split; [is_silent|done]|]).
  { unfold PIPE_READY_RETRY_DELAY in Hf. lia. }
  apply adds_bind. eapply adds_mono; [apply try_open_spec| |done].
  intros r t1 s1 (_ & _ & L1) [Hsil Hver]. destruct r as [[]|].
  { apply adds_pure. rewrite app_nil_r. by split; [|intros _; apply Hver]. }
  apply adds_bind, adds_gets. cbn [app].
  destruct (N.eqb_spec (timeout - (cs_now (cw_system s1) - started)) 0) as [|Hne].
  { apply adds_pure. rewrite !app_nil_r. by split. }
  apply adds_bind. set (d := N.min _ PIPE_READY_RETRY_DELAY).
  pose proof (cs_sleep_lasts d (cw_system s1)) as Hd.
  exists []. split; [split; [by cbn; rewrite app_nil_r|split; [done|cbn; lia]]|].
  eapply adds_mono; [apply IH| |].
  - cbn. unfold d, PIPE_READY_RETRY_DELAY in *. lia.
  - cbn. lia.
  - intros r t2 s2 _ [Hs2 Hv2]. cbn [app]. split; [by apply silent_app|].
    intros Hr. by apply verified_app, Hv2.
  - intros t2 Hs2. by apply silent_app.
Qed.

Lemma open_pipe_spec s :
  adds open_pipe (fun _ t _ => silent t /\ verified t) silent s.
Proof.
  apply adds_bind. unfold open_and_start_shared_service.
  apply adds_bind, adds_require; [auto with later|intros s1|is_silent].
  apply adds_bind, adds_require; [auto with later|intros s2|is_silent].
  apply adds_bind, adds_sys; [auto with later|]. intros status w _.
  apply adds_lift; [intros [] _|is_silent]. cbn [app].
  apply adds_bind, adds_set_foreign. intros s3. apply adds_bind, adds_gets.
  apply adds_bind. eapply adds_mono; [apply wait_for_pipe_ready_spec| |].
  - unfold PIPE_READY_TIMEOUT, PIPE_READY_RETRY_DELAY, ready_fuel. lia.
  - done.
  - intros r t s4 _ [Hsil Hver]. destruct r as [[]|].
    + apply adds_pure. rewrite app_nil_r. by split; [|apply Hver].
    + apply adds_bind, adds_gets, adds_fail. by rewrite !app_nil_r.
  - done.
Qed.

(** ** The message *)

(** [s] comes after [s0]: the message may have been sent, and nothing is in flight. *)
Definition exchanged (request : list byte) s0 s : Prop :=
  (cw_trace s = cw_trace s0 \/ cw_trace s = cw_trace s0 ++ [Sent request]) /\
  cw_sending s = false /\ (cs_now (cw_system s0) <= cs_now (cw_system s))%N.

Lemma wp_sys {A} (call : W -> A * W) (Q : A -> State -> Prop) E C s :
  (forall w, cs_now w <= cs_now (snd (call w)))%N ->
  (forall a w, call (cw_system s) = (a, w) -> (cs_now (cw_system s) <= cs_now w)%N ->
     Q a (mkClientWorld w (cw_trace s) (cw_foreign s) (cw_sending s))) ->
  wp (sys call) Q E C s.
Proof.
  intros Hl HQ. specialize (Hl (cw_system s)). unfold wp, sys.
  destruct (call (cw_system s)) as [a w]. by apply HQ.
Qed.

Lemma wp_modify f (Q : () -> State -> Prop) E C s : Q tt (f s) -> wp (modify f) Q E C s.
Proof. done. Qed.

(** The result of the operation that has ended or is waited for. *)
Lemma overlapped_result_spec request wait s0 s (Q : N * N -> State -> Prop) E C :
  wait = true \/ cs_ended (cw_system s) ->
  (cw_trace s = cw_trace s0 ++ [Sent request]) -> (cs_now (cw_system s0) <= cs_now (cw_system s))%N ->
  (forall r s', exchanged request s0 s' -> Q r s') ->
  wp (overlapped_result wait) Q E C s.
Proof.
  intros Hw Ht Hn HQ. apply wp_bind, wp_sys; [auto with later|]. intros r w Hr Hl. apply wp_bind.
  assert (wait || negb (fst r =? ERROR_IO_INCOMPLETE)%N = true) as ->.
  { destruct Hw as [->|He]; [done|]. destruct wait; [done|].
    pose proof (cs_result_ended _ _ _ Hr He). by apply negb_true_iff, N.eqb_neq. }
  apply wp_pure, HQ. split; [right; exact Ht|]. split; [done|]. cbn. lia.
Qed.

Lemma exchange_spec request timeout s :
  wp (exchange request timeout) (fun _ s' => exchanged request s s') (fun _ s' => exchanged request s s')
    (fun _ => False) s.
Proof.
  apply wp_bind, wp_modify, wp_bind, wp_bind, wp_sys; [auto with later|]. intros b w1 _ L1. cbn in L1.
  assert (forall w, (cs_now (cw_system s) <= cs_now w)%N ->
    exchanged request s (mkClientWorld w (cw_trace s) (cw_foreign s) false)) as Hno.
  { intros w Hw. split; [by left|]. by split. }
  apply wp_lift; [intros _ _|intros e _; by apply Hno].
  apply wp_bind, wp_sys; [auto with later|]. intros o w2 _ L2. cbn in L2.
  apply wp_bind, wp_lift; [intros _ _|intros e _; apply Hno; lia].
  apply wp_bind, wp_modify, wp_bind, wp_sys; [auto with later|]. intros st w3 Hst L3. cbn in L3.
  apply wp_bind, wp_modify, wp_bind.
  set (Q := fun (r : N * N) s' => exchanged request s s').
  eapply (wp_mono _ Q _ (fun _ s' => exchanged request s s') _ (fun _ => False)); [| |done|done].
  - destruct (N.eqb_spec st 0) as [->|Hne].
    + apply (overlapped_result_spec request _ s); [right; by eapply cs_transact_ended|done|cbn; lia|done].
    + destruct (N.eqb_spec st ERROR_IO_PENDING) as [->|Hnp].
      * apply wp_bind, wp_sys; [auto with later|]. intros wt w4 Hwt L4. cbn in L4.
        destruct (N.eqb_spec wt 0) as [->|].
        { apply (overlapped_result_spec request _ s); [right; by eapply cs_wait_ended|done|cbn; lia|done]. }
        apply wp_bind, wp_sys; [auto with later|]. intros c w5 _ L5. cbn in L5. apply wp_bind.
        apply (overlapped_result_spec request _ s); [by left|done|cbn; lia|done].
      * apply wp_pure. split; [by right|]. split; [done|]. cbn. lia.
  - intros [status n] s' Hs'. apply wp_bind. destruct (status =? 0)%N; [exact Hs'|].
    destruct (status =? ERROR_MORE_DATA)%N; exact Hs'.
Qed.

Lemma transact_spec request s :
  wp (transact_pipe_message request)
    (fun _ s' => exchanged request s s') (fun _ s' => s' = s \/ exchanged request s s') (fun _ => False) s.
Proof.
  apply wp_bind, wp_lift; [intros [] _|by left]. apply wp_bind, wp_attempt.
  assert (forall (r : Result (list byte)) s', exchanged request s s' ->
    wp (_ ← drop_message; lift r) (fun _ s' => exchanged request s s')
      (fun _ s' => s' = s \/ exchanged request s s') (fun _ => False) s') as Hend.
  { intros r s' Hs'. unfold drop_message. apply wp_bind, wp_bind, wp_gets. destruct Hs' as (Ht & Hf & Hl).
    rewrite Hf. apply wp_pure, wp_lift; intros; [|right]; by split. }
  eapply wp_mono; [apply exchange_spec| | |done]; cbv beta; intros; by apply Hend.
Qed.

(** ** The interface *)

Lemma returns_wp {A} (m : M State A) (P : Result A -> State -> Prop) s :
  wp m (fun a => P (Ok a)) (fun e => P (Err e)) (fun _ => False) s ->
  (exists r s', m s = (Done r, s')) /\ P (fst (returns m s)) (snd (returns m s)).
Proof. unfold wp, returns. destruct (m s) as [[[a|e]| |] s']; try done; intros HP; split; eauto. Qed.

Lemma open_pipe_returns s :
  (exists r s', open_pipe s = (Done r, s')) /\
  exists t, advanced s t (snd (returns open_pipe s)) /\ silent t /\
    (fst (returns open_pipe s) = Ok tt -> verified t).
Proof.
  pose proof (open_pipe_spec s) as Ho. unfold adds in Ho.
  apply (returns_wp _ (fun r s' => exists t, advanced s t s' /\ silent t /\ (r = Ok tt -> verified t))).
  eapply wp_mono; [exact Ho| | |done]; cbv beta.
  - intros [] s' (t & Ha & Hs & Hv). by exists t.
  - intros e s' (t & Ha & Hs). exists t. split; [done|]. split; [done|]. by intros [=].
Qed.

Lemma transact_returns request s :
  (exists r s', transact_pipe_message request s = (Done r, s')) /\
  let s' := snd (returns (transact_pipe_message request) s) in s' = s \/ exchanged request s s'.
Proof.
  apply (returns_wp _ (fun _ s' => s' = s \/ exchanged request s s')).
  eapply wp_mono; [apply transact_spec| | |done]; cbv beta; intros; [by right|done].
Qed.

#[export] Instance windows_clock : ClockLaws State.
Proof.
  split.
  - intros d w. apply cs_sleep_lasts.
  - intros p d w w'. cbn. unfold returns, wait_launcher, mbind, M_bind, bind, sys.
    destruct (cs_wait_process p (N.min d (u32_max - 1)) (cw_system w)) as [st w1] eqn:Ew. cbn.
    destruct (N.eqb_spec st 0) as [->|]; [by intros [=]|].
    destruct (N.eqb_spec st WAIT_TIMEOUT) as [->|]; [|by intros [=]].
    intros [= <-] Hd. rewrite N.min_l in Ew by lia. by apply cs_wait_process_lasts in Ew.
  - intros w. by destruct (open_pipe_returns w) as (_ & t & (_ & _ & L) & _).
  - intros bytes w. destruct (transact_returns bytes w) as [_ [E|(_ & _ & L)]]; [|exact L].
    cbn. by rewrite E.
Qed.

Context `{SerdeJson, !Reader Value}.

(** C12: Opening the pipe and exchanging a message always come to an end without
    undefined behaviour.  A call of the service sends at most one message, the
    encoded request, and only right after it asked the service manager for the
    service's process, opened the pipe and found that process at its other end:
    another process that took the name of the pipe never receives a request. *)
Theorem message_goes_to_the_service request (s : ClientState State) :
  (exists r w, open_pipe (c_world s) = (Done r, w)) /\
  (forall bytes, exists r w, transact_pipe_message bytes (c_world s) = (Done r, w)) /\
  exists r (s' : ClientState State) t, call_shared_service request s = Some (r, s') /\
    cw_trace (c_world s') = cw_trace (c_world s) ++ t /\
    forall before message after, t = before ++ Sent message :: after ->
      verified before /\ after = [] /\ encode_request request = Ok message.
Proof.
  split; [apply open_pipe_returns|]. split; [intros bytes; apply transact_returns|].
  destruct (open_pipe_returns (c_world s)) as (_ & t & (Et & _ & _) & Hsil & Hver).
  assert (forall before message after, t = before ++ Sent message :: after -> False) as Hno.
  { intros b m a ->. apply (Hsil m). set_solver. }
  unfold call_shared_service, mbind, C_bind, mbind, option_bind, machine. cbn [open_service windows_client].
  destruct (returns open_pipe (c_world s)) as [[[]|e] w]; cbn in *.
  2:{ eexists _, _, t. split; [done|]. split; [done|]. intros b m a E. by destruct (Hno b m a E). }
  destruct (encode_request request) as [encoded|e] eqn:Ee.
  2:{ eexists _, _, t. split; [done|]. split; [done|]. intros b m a E. by destruct (Hno b m a E). }
  cbn. destruct (transact_returns encoded w) as [_ Hx].
  assert (exists t2, cw_trace (snd (returns (transact_pipe_message encoded) w)) = cw_trace w ++ t2 /\
            (t2 = [] \/ t2 = [Sent encoded])) as (t2 & Et2 & Ht2).
  { destruct Hx as [->|[[E|E] _]]; [exists []|exists []|exists [Sent encoded]]; rewrite ?app_nil_r; auto. }
  assert (cw_trace (snd (returns (transact_pipe_message encoded) w)) = cw_trace (c_world s) ++ (t ++ t2))
    as Eall by by rewrite Et2, Et, app_assoc.
  assert (forall before message after, t ++ t2 = before ++ Sent message :: after ->
    verified before /\ after = [] /\ Ok encoded = Ok message) as Hsent.
  { intros b m a E. destruct Ht2 as [->| ->].
    - rewrite app_nil_r in E. by destruct (Hno b m a E).
    - destruct (decide (a = [])) as [->|Hne].
      + apply app_inj_tail in E as [<- [= ->]]. split; [by apply Hver|done].
      + destruct (exists_last Hne) as (a' & x & ->). exfalso.
        rewrite app_comm_cons, app_assoc in E. apply app_inj_tail in E as [E _]. by eapply Hno. }
  destruct (returns (transact_pipe_message encoded) w) as [[bytes|e] w']; cbn in *;
    eexists _, _, (t ++ t2); done.
Qed.
End laws.
