(* ===== verification/Handover.v ===== *)
(** * The hand-over of a Launcher update is safe and ends

    The protocol that the helper keeps, as an automaton over what it asks and
    does: Commit is sent once, after the Launcher's end and only for a job that
    was seen prepared; the Launcher is started again once, and only when the files
    of its root are known to be whole. *)

From stdpp Require Import relations.
From S2P Require Import Prelude Errors Effects Identifiers Json Trust FileSet RegistrySet Roots.
From S2P Require Import RegistryScopes Protocol ServiceUpgrade Wire WindowsPath Client.

(** ** The protocol *)

#[export] Instance Request_eq_dec : EqDecision Request.
Proof. solve_decision. Defined.

Section protocol.
Context `{SerdeJson}.
Context (job restart : string).

(** The phases: the Launcher may run; it has ended and no Commit was sent, with
    the last answer since; Commit was sent, [failed] when it got no answer, with
    the last answer; the Launcher was started again. *)
Inductive Phase :=
  | LauncherRuns
  | Gone (last : option (Reply Value))
  | CommitSent (failed : bool) (last : Reply Value)
  | Over.

(** The answer shows that no file of the root is half-way. *)
Definition shows_whole (failed : bool) (answer : Reply Value) : bool :=
  match answer with
  | Bad _ => false
  | Good v =>
      negb (bool_decide (text_of "error" v = Some "E_RECOVERY_INCOMPLETE"))
      && (bool_decide (text_of "state" v = Some "committed")
          || bool_decide (text_of "state" v = Some "rolledBack")
          || failed && bool_decide (text_of "state" v = Some "prepared"))
  end.

Definition shows_prepared (answer : Reply Value) : bool :=
  match answer with
  | Good v => bool_decide (text_of "state" v = Some "prepared")
  | Bad _ => false
  end.

Definition status_call (r : Request) : bool := bool_decide (r = GetJobStatus 1 job).
Definition commit_call (r : Request) : bool := bool_decide (r = CommitJob 1 job).

Definition allowed (p : Phase) (a : Action) : option Phase :=
  match p, a with
  | LauncherRuns, Ready => Some LauncherRuns
  | LauncherRuns, Called r _ => if status_call r then Some LauncherRuns else None
  | LauncherRuns, Exited => Some (Gone None)
  | Gone last, Called r answer =>
      if status_call r then Some (Gone (Some answer))
      else if commit_call r && match last with Some l => shows_prepared l | None => false end
      then Some (CommitSent (is_bad answer) answer) else None
  | Gone last, Restarted path =>
      if bool_decide (path = restart)
         && match last with Some l => is_bad l || shows_whole false l | None => false end
      then Some Over else None
  | CommitSent failed last, Called r answer =>
      if status_call r then Some (CommitSent failed answer) else None
  | CommitSent failed last, Restarted path =>
      if bool_decide (path = restart) && shows_whole failed last then Some Over else None
  | Over, Printed _ => Some Over
  | _, _ => None
  end.

Fixpoint replay (p : Phase) (t : list Action) : option Phase :=
  match t with
  | [] => Some p
  | a :: t' => p' ← allowed p a; replay p' t'
  end.

Lemma trace_replay_app p t1 t2 : replay p (t1 ++ t2) = replay p t1 ≫= fun p' => replay p' t2.
Proof.
  revert p. induction t1 as [|a t1 IH]; intros p; [done|]. cbn.
  destruct (allowed p a) as [p'|]; [apply IH|done].
Qed.

Lemma trace_replay_snoc p t a p' : replay p t = Some p' -> replay p (t ++ [a]) = allowed p' a.
Proof. intros E. rewrite trace_replay_app, E. cbn. by destruct (allowed p' a). Qed.
End protocol.

(** ** Runs that return *)

(** The computation returns, and [Q] holds of what it returns. *)
Definition yields {W A} `{SerdeJson} (m : C W A) (Q : Reply A -> ClientState W -> Prop)
    (s : ClientState W) : Prop :=
  match m s with Some (r, s') => Q r s' | None => False end.

Section yields.
Context {W : Type} `{SerdeJson}.

Lemma yields_mono {A} (m : C W A) (Q Q' : Reply A -> ClientState W -> Prop) s :
  yields m Q s -> (forall r s', Q r s' -> Q' r s') -> yields m Q' s.
Proof. unfold yields. destruct (m s) as [[r s']|]; eauto. Qed.

Lemma yields_bind {A B} (m : C W A) (k : A -> C W B) Q s :
  yields m (fun r s' => match r with
                        | Good a => yields (k a) Q s'
                        | Bad e => Q (Bad e) s'
                        end) s ->
  yields (m ≫= k) Q s.
Proof. unfold yields, mbind, C_bind. by destruct (m s) as [[[a|e] s']|]. Qed.

Lemma yields_outcome {A} (m : C W A) (Q : Reply (Reply A) -> ClientState W -> Prop) s :
  yields m (fun r => Q (Good r)) s -> yields (outcome m) Q s.
Proof. unfold yields, outcome. by destruct (m s) as [[r s']|]. Qed.

Lemma yields_reply {A} (r : Reply A) (Q : Reply A -> ClientState W -> Prop) s :
  Q r s -> yields (reply r) Q s.
Proof. done. Qed.

Lemma yields_check b e (Q : Reply () -> ClientState W -> Prop) s :
  (b = true -> Q (Good tt) s) -> Q (Bad e) s -> yields (check b e) Q s.
Proof. intros Ht Hf. destruct b; [by apply Ht|exact Hf]. Qed.

Lemma yields_reads {A} (f : W -> A) (Q : Reply A -> ClientState W -> Prop) s :
  Q (Good (f (c_world s))) s -> yields (reads f) Q s.
Proof. done. Qed.

Lemma yields_machine {A} (f : W -> Result A * W) (Q : Reply A -> ClientState W -> Prop) s :
  (forall r, (forall a, r = Good a -> fst (f (c_world s)) = Ok a) ->
     Q r (mkClient (snd (f (c_world s))) (c_trace s))) ->
  yields (machine f) Q s.
Proof.
  intros HQ. unfold yields, machine. destruct (f (c_world s)) as [[a|e] w]; apply HQ; cbn; congruence.
Qed.

Lemma yields_note a (Q : Reply () -> ClientState W -> Prop) s :
  Q (Good tt) (mkClient (c_world s) (c_trace s ++ [a])) -> yields (note a) Q s.
Proof. done. Qed.
End yields.

Section handover.
Context {W : Type}.
Context `{SerdeJson, !ClientMachine W, !Reader Value, !ClockLaws W}.
Context (job restart : string).

Implicit Types (s : ClientState W) (t : list Action).

(** The run went on from [s0] with the actions [t], and time did not go back. *)
Definition went s0 t s : Prop :=
  c_trace s = c_trace s0 ++ t /\ (now (c_world s0) <= now (c_world s))%N.

Lemma went_refl s : went s [] s.
Proof. split; [by rewrite app_nil_r|done]. Qed.

Lemma went_trans s0 t1 s1 t2 s2 : went s0 t1 s1 -> went s1 t2 s2 -> went s0 (t1 ++ t2) s2.
Proof. intros [E1 L1] [E2 L2]. split; [by rewrite E2, E1, app_assoc|lia]. Qed.

Lemma call_shared_service_spec r s : yields (call_shared_service r) (fun _ => went s []) s.
Proof.
  unfold call_shared_service. apply yields_bind, yields_machine. intros r1 _.
  set (s1 := mkClient _ _). assert (went s [] s1) as H1.
  { split; [by rewrite app_nil_r|apply open_service_later]. }
  clearbody s1. destruct r1; [|done].
  apply yields_bind, yields_machine. intros r2 _. cbn [snd].
  destruct s1 as [w1 t1]. destruct r2 as [encoded|]; [|done].
  apply yields_bind, yields_machine. intros r3 _. cbn [c_world c_trace].
  set (s2 := mkClient _ _). assert (went s [] s2) as H2.
  { destruct H1 as [E1 L1]. split; [done|]. cbn. pose proof (transact_later encoded w1). cbn in *. lia. }
  clearbody s2. destruct r3; [|done]. apply yields_machine. intros r4 _. by destruct s2.
Qed.

Lemma call_checked_spec r s :
  yields (call_checked r) (fun answer => went s [Called r answer]) s.
Proof.
  unfold call_checked. apply yields_bind, yields_outcome, yields_bind.
  assert (forall answer s1, went s [] s1 ->
    yields (_ ← note (Called r answer); reply answer) (fun answer => went s [Called r answer]) s1) as Hend.
  { intros answer s1 H1. apply yields_bind, yields_note, yields_reply.
    apply (went_trans s [] s1 [_]); [done|]. by split. }
  eapply yields_mono; [apply call_shared_service_spec|]. cbv beta.
  intros [v|e] s1 H1; [|by apply Hend].
  apply yields_bind, yields_check; [intros _|]; by apply Hend.
Qed.

(** ** The wait for the end of the job *)

Definition polled t : Prop :=
  Forall (fun a => exists answer, a = Called (GetJobStatus 1 job) answer) t.

(** The last answer after [response] and the calls of [t]. *)
Definition last_answer (response : Reply Value) t : Reply Value :=
  match last t with Some (Called _ answer) => answer | _ => response end.

(** The time that is left is covered by the fuel. *)
Definition covered (started : N) (rounds : nat) s : Prop :=
  (COMPLETION_DEADLINE <= (now (c_world s) - started) + POLL_DELAY * N.of_nat rounds)%N /\
  (started <= now (c_world s))%N.

Lemma judge_whole failed response answer :
  judge failed response = Some (Good answer) -> response = Good answer /\ shows_whole failed response = true.
Proof.
  unfold judge, shows_whole. destruct response as [v|e]; [|done].
  destruct (decide (text_of "error" v = _)) as [|He]; [done|]. rewrite bool_decide_eq_false_2 by done.
  destruct (decide (_ \/ _)) as [Hs|]; [intros [= ->]; split; [done|]|].
  { by destruct Hs as [-> | ->]. }
  destruct (decide (_ /\ _)) as [[-> ->]|]; [intros [= ->]; split; [done|]|].
  { by rewrite ?orb_true_r. }
  by repeat destruct (decide _).
Qed.

Lemma completion_wait_spec started s :
  yields (completion_wait started) (fun r s' => went s [] s' /\
    (r = Good false \/
     (now (c_world s) - started < COMPLETION_DEADLINE)%N /\
     (now (c_world s) + POLL_DELAY <= now (c_world s'))%N /\ r = Good true)) s.
Proof.
  unfold completion_wait. apply yields_bind, yields_reads.
  destruct (COMPLETION_DEADLINE <=? now (c_world s) - started)%N eqn:Ed.
  { apply yields_reply. split; [apply went_refl|by left]. }
  apply N.leb_gt in Ed. pose proof (sleep_lasts POLL_DELAY (c_world s)) as Hl.
  unfold yields. split; [split; [by rewrite app_nil_r|cbn; lia]|right]. done.
Qed.

Lemma polled_cons answer t : polled t -> polled (Called (GetJobStatus 1 job) answer :: t).
Proof. intros Ht. constructor; [by eexists|done]. Qed.

Lemma last_answer_cons response answer t :
  polled t -> last_answer response (Called (GetJobStatus 1 job) answer :: t) = last_answer answer t.
Proof.
  unfold last_answer. intros Ht. destruct t as [|a t]; [done|]. cbn [last].
  destruct (last (a :: t)) as [a'|] eqn:E; [|by apply last_None in E].
  apply last_Some_elem_of in E. unfold polled in Ht. rewrite Forall_forall in Ht.
  by destruct (Ht a' E) as [answer' ->].
Qed.

Lemma completion_spec rounds failed started response s :
  covered started rounds s ->
  yields (wait_for_job_completion_with (S rounds) failed response
            (call_checked (GetJobStatus 1 job)) (completion_wait started))
    (fun r s' => exists t, went s t s' /\ polled t /\ forall v, r = Good v ->
       last_answer response t = Good v /\ shows_whole failed (Good v) = true) s.
Proof.
  revert response s. induction rounds as [|rounds IH]; intros response s [Hc Hs];
    cbn [wait_for_job_completion_with];
    (destruct (judge failed response) as [decided|] eqn:Ej;
      [apply yields_reply; exists []; split; [apply went_refl|]; split; [by constructor|];
       intros v ->; by apply judge_whole in Ej as [-> Hw]|]);
    apply yields_bind; (eapply yields_mono; [apply completion_wait_spec|]); cbv beta;
    intros r s1 [H1 [->|(Hd & Hl & ->)]];
    try (exists []; split; [done|]; split; [by constructor|done]).
  { exfalso. unfold POLL_DELAY in *. lia. }
  apply yields_bind, yields_outcome. eapply yields_mono; [apply call_checked_spec|].
  cbv beta. intros answer s2 H2. eapply yields_mono; [apply IH|].
  { destruct H2 as [_ Ht]. unfold covered, POLL_DELAY in *. lia. }
  cbv beta. intros r s3 (t & H3 & Hp & Hr). exists (Called (GetJobStatus 1 job) answer :: t).
  split; [|split; [by apply polled_cons|by rewrite last_answer_cons]].
  apply (went_trans s [] s1 _ s3 H1), (went_trans s1 [_] s2 t s3 H2 H3).
Qed.

Lemma wait_for_completion_spec response s :
  yields (wait_for_job_completion job response)
    (fun r s' => exists t, went s t s' /\ polled t /\ forall v, r = Good v ->
       last_answer response t = Good v /\ shows_whole (is_bad response) (Good v) = true) s.
Proof.
  unfold wait_for_job_completion. apply yields_bind, yields_reads, completion_spec.
  split; [|lia]. unfold POLL_DELAY, COMPLETION_DEADLINE. lia.
Qed.

(** ** The wait for the end of the Launcher *)

(** The Launcher's process ended, or its time ran out. *)
Lemma launcher_wait_spec pid d s :
  (d < u32_max)%N ->
  yields (machine (launcher_wait pid d)) (fun r s' => c_trace s' = c_trace s /\
    (r = Good false -> (now (c_world s) + d <= now (c_world s'))%N)) s.
Proof.
  intros Hd. apply yields_machine. intros r Hr. split; [done|]. intros ->. cbn.
  apply (wait_lasts pid d (c_world s)); [|done].
  rewrite <- (Hr false eq_refl). apply surjective_pairing.
Qed.

Lemma wait_for_shutdown_spec fuel pid started s :
  (SHUTDOWN_DEADLINE <= (now (c_world s) - started) + SHUTDOWN_SLICE * N.of_nat (S fuel))%N ->
  (started <= now (c_world s))%N ->
  yields (wait_for_shutdown fuel pid (GetJobStatus 1 job) started)
    (fun r s' => exists t, polled t /\
       ((is_bad r = true /\ c_trace s' = c_trace s ++ t) \/
        c_trace s' = c_trace s ++ t ++ [Exited])) s.
Proof.
  assert (polled []) as Hnil by constructor.
  revert s. induction fuel as [|fuel IH]; intros s Hc Hs; cbn [wait_for_shutdown];
    apply yields_bind; (eapply yields_mono; [by apply launcher_wait_spec|]); cbv beta;
    (intros [[]|e] s1 [E1 Hl];
      [apply yields_note; exists []; split; [done|]; right; cbn; by rewrite E1| |
       exists []; split; [done|]; left; by rewrite app_nil_r]);
    specialize (Hl eq_refl); apply yields_bind, yields_reads;
    (destruct (SHUTDOWN_DEADLINE <=? now (c_world s1) - started)%N eqn:Ed;
      [apply yields_reply; exists []; split; [done|]; left; by rewrite app_nil_r|apply N.leb_gt in Ed]).
  { exfalso. unfold SHUTDOWN_SLICE in *. lia. }
  apply yields_bind, yields_outcome. eapply yields_mono; [apply call_checked_spec|].
  cbv beta. intros answer s2 [E2 L2].
  eapply yields_mono; [apply IH; unfold SHUTDOWN_SLICE in *; lia|]. cbv beta.
  intros r s3 (t & Ht & Hr). exists (Called (GetJobStatus 1 job) answer :: t).
  split; [by apply polled_cons|]. rewrite E2, E1 in Hr.
  destruct Hr as [[Hb ->]| ->]; [left; split; [done|]|right]; by rewrite <- app_assoc.
Qed.
(** ** The phases *)

Definition kept (s : ClientState W) : Prop :=
  is_Some (replay job restart LauncherRuns (c_trace s)).

Definition in_phase (p : Phase) (s : ClientState W) : Prop :=
  replay job restart LauncherRuns (c_trace s) = Some p.

Lemma in_phase_kept p s : in_phase p s -> kept s.
Proof. intros E. by exists p. Qed.

Lemma in_phase_next p a p' s s' :
  in_phase p s -> c_trace s' = c_trace s ++ [a] -> allowed job restart p a = Some p' -> in_phase p' s'.
Proof. unfold in_phase. intros E -> Ha. by rewrite (trace_replay_snoc _ _ _ _ _ _ E). Qed.

Lemma in_phase_app p t s s' p' :
  in_phase p s -> c_trace s' = c_trace s ++ t -> replay job restart p t = Some p' -> in_phase p' s'.
Proof. unfold in_phase. intros E -> Ht. by rewrite trace_replay_app, E. Qed.

Lemma status_call_own : status_call job (GetJobStatus 1 job) = true.
Proof. by apply bool_decide_eq_true. Qed.

Lemma replay_polled_runs t : polled t -> replay job restart LauncherRuns t = Some LauncherRuns.
Proof.
  induction 1 as [|a t [answer ->] _ IH]; [done|]. cbn. by rewrite status_call_own.
Qed.

Lemma replay_polled_gone t last : polled t ->
  replay job restart (Gone (Some last)) t = Some (Gone (Some (last_answer last t))).
Proof.
  intros Ht. revert last. induction Ht as [|a t [answer ->] Ht IH]; intros last; [done|].
  cbn. rewrite status_call_own. cbn. rewrite IH. by rewrite last_answer_cons.
Qed.

Lemma replay_polled_sent t failed last : polled t ->
  replay job restart (CommitSent failed last) t = Some (CommitSent failed (last_answer last t)).
Proof.
  intros Ht. revert last. induction Ht as [|a t [answer ->] Ht IH]; intros last; [done|].
  cbn. rewrite status_call_own. cbn. rewrite IH. by rewrite last_answer_cons.
Qed.

(** What the helper does when it starts the Launcher again in a phase that allows it. *)
Lemma restart_launcher_spec p s :
  in_phase p s -> allowed job restart p (Restarted restart) = Some Over ->
  yields (restart_launcher restart)
    (fun r s' => kept s' /\ (r = Good tt -> in_phase Over s')) s.
Proof.
  intros Hp Ha. unfold restart_launcher. apply yields_bind. unfold yields at 1.
  destruct (spawn restart (c_world s)) as [started w]. cbn [c_world c_trace].
  apply yields_bind, yields_check; intros.
  - apply yields_note. assert (in_phase Over (mkClient w (c_trace s ++ [Restarted restart]))) as Ho
      by (by eapply in_phase_next).
    split; [by eapply in_phase_kept|done].
  - split; [|done]. by apply (in_phase_kept p).
Qed.

Lemma print_response_spec v s : in_phase Over s -> yields (print_response v) (fun _ => kept) s.
Proof.
  intros Ho. unfold print_response. destruct (to_vec v) as [text|].
  - apply yields_note, (in_phase_kept Over). by eapply in_phase_next.
  - by apply yields_reply, (in_phase_kept Over).
Qed.

(** What follows the last decision: start the Launcher, tell the outcome. *)
Lemma finish_spec p response s :
  in_phase p s -> allowed job restart p (Restarted restart) = Some Over ->
  yields (_ ← restart_launcher restart;
          _ ← check (bool_decide (text_of "state" response = Some "committed"))
                ("maintenance update did not commit; original Launcher restarted: " +:+
                 default "E_TRANSACTION_STATE" (text_of "error" response));
          print_response response) (fun _ => kept) s.
Proof.
  intros Hp Ha. apply yields_bind. eapply yields_mono; [by apply (restart_launcher_spec p)|].
  cbv beta. intros [[]|e] s1 [Hk Ho]; [|done]. specialize (Ho eq_refl).
  apply yields_bind, yields_check; [intros _; by apply print_response_spec|done].
Qed.
(** A call moves the phase as the automaton says. *)
Lemma call_in_phase p r s :
  in_phase p s -> (forall answer, is_Some (allowed job restart p (Called r answer))) ->
  yields (call_checked r)
    (fun answer s' => exists p', allowed job restart p (Called r answer) = Some p' /\ in_phase p' s') s.
Proof.
  intros Hp Ha. eapply yields_mono; [apply call_checked_spec|]. cbv beta.
  intros answer s' [E _]. destruct (Ha answer) as [p' Hp']. exists p'. split; [done|].
  by eapply in_phase_next.
Qed.

(** Reading what the machine is like, or a check of it, does not move the phase. *)
Lemma machine_in_phase {A} (f : W -> Result A * W) p s :
  in_phase p s -> yields (machine f) (fun _ => in_phase p) s.
Proof. intros Hp. by apply yields_machine. Qed.

Lemma validate_restart_spec path p s :
  in_phase p s -> yields (validate_restart_executable path) (fun _ => in_phase p) s.
Proof.
  intros Hp. unfold validate_restart_executable. apply yields_bind, yields_check; [intros _|done].
  apply yields_bind, yields_reads. destruct (regular_file path (c_world s)); [|done].
  by apply yields_check.
Qed.

Lemma signal_launcher_spec event s :
  in_phase LauncherRuns s ->
  yields (signal_launcher_ready event) (fun _ => in_phase LauncherRuns) s.
Proof.
  intros Hp. unfold signal_launcher_ready. apply yields_bind.
  eapply yields_mono; [by apply machine_in_phase|]. cbv beta. intros [u|e] s1 H1; [|done].
  apply yields_bind. eapply yields_mono; [by apply machine_in_phase|]. cbv beta.
  intros [v|e] s2 H2; [|done]. apply yields_note. by eapply in_phase_next.
Qed.

(** The end of the wait for a job, in the phase that the wait leaves. *)
Lemma wait_in_phase p response s :
  in_phase p s ->
  p = Gone (Some response) /\ is_bad response = false \/ p = CommitSent (is_bad response) response ->
  yields (wait_for_job_completion job response)
    (fun r s' => kept s' /\ forall v, r = Good v ->
       exists p', in_phase p' s' /\ allowed job restart p' (Restarted restart) = Some Over) s.
Proof.
  intros Hp Hcase. eapply yields_mono; [apply wait_for_completion_spec|]. cbv beta.
  intros r s' (t & [E _] & Ht & Hr). destruct Hcase as [[-> Hb]| ->].
  - pose proof (in_phase_app _ _ _ _ _ Hp E (replay_polled_gone t response Ht)) as Hp'.
    split; [by eapply in_phase_kept|]. intros v [Hl Hw]%Hr. eexists; split; [done|].
    rewrite Hl. cbn. rewrite Hb in Hw. cbn in Hw. by rewrite bool_decide_eq_true_2, Hw.
  - pose proof (in_phase_app _ _ _ _ _ Hp E (replay_polled_sent t _ response Ht)) as Hp'.
    split; [by eapply in_phase_kept|]. intros v [Hl Hw]%Hr. eexists; split; [done|].
    rewrite Hl. cbn. cbn in Hw. by rewrite bool_decide_eq_true_2, Hw.
Qed.

Lemma commit_in_phase last s :
  in_phase (Gone (Some last)) s -> shows_prepared last = true ->
  yields (commit_after_launcher_exit job)
    (fun r s' => kept s' /\ forall v, r = Good v ->
       exists p', in_phase p' s' /\ allowed job restart p' (Restarted restart) = Some Over) s.
Proof.
  intros Hp Hl. unfold commit_after_launcher_exit.
  assert (forall answer, allowed job restart (Gone (Some last)) (Called (CommitJob 1 job) answer)
            = Some (CommitSent (is_bad answer) answer)) as Ha.
  { intros answer. cbn. unfold status_call, commit_call. rewrite bool_decide_eq_false_2 by done.
    by rewrite bool_decide_eq_true_2, Hl. }
  apply yields_bind, yields_outcome. eapply yields_mono; [apply (call_in_phase _ _ _ Hp)|].
  { intros answer. by rewrite Ha. }
  cbv beta. intros answer s1 (p' & Hp' & H1). rewrite Ha in Hp'. injection Hp' as <-.
  by eapply wait_in_phase; [|right].
Qed.

Lemma after_exit_spec s :
  in_phase (Gone None) s ->
  yields (status ← outcome (call_checked (GetJobStatus 1 job));
          match status with
          | Bad error =>
              _ ← restart_launcher restart;
              bad ("maintenance unavailable before commit; old Launcher restarted: " +:+ error)
          | Good value =>
              response ← (if decide (text_of "state" value = Some "prepared")
                          then commit_after_launcher_exit job
                          else wait_for_job_completion job status);
              _ ← restart_launcher restart;
              _ ← check (bool_decide (text_of "state" response = Some "committed"))
                    ("maintenance update did not commit; original Launcher restarted: " +:+
                     default "E_TRANSACTION_STATE" (text_of "error" response));
              print_response response
          end) (fun _ => kept) s.
Proof.
  intros Hp.
  assert (forall answer, allowed job restart (Gone None) (Called (GetJobStatus 1 job) answer)
            = Some (Gone (Some answer))) as Ha by (intros answer; cbn; by rewrite status_call_own).
  apply yields_bind, yields_outcome. eapply yields_mono; [apply (call_in_phase _ _ _ Hp)|].
  { intros answer. by rewrite Ha. }
  cbv beta. intros answer s1 (p' & Hp' & H1). rewrite Ha in Hp'. injection Hp' as <-.
  destruct answer as [value|error].
  - apply yields_bind. eapply (yields_mono _ (fun r s' => kept s' /\ forall v, r = Good v ->
      exists p', in_phase p' s' /\ allowed job restart p' (Restarted restart) = Some Over)).
    + destruct (decide _) as [Hs|Hs].
      * eapply commit_in_phase; [done|]. cbn. by rewrite Hs.
      * by eapply wait_in_phase; [|left].
    + cbv beta. intros [v|e] s2 [Hk Hr]; [|done]. destruct (Hr v eq_refl) as (p' & H2 & Ha').
      by apply (finish_spec p').
  - apply yields_bind. eapply yields_mono; [apply (restart_launcher_spec _ _ H1)|].
    { cbn. by rewrite bool_decide_eq_true_2. }
    cbv beta. by intros [[]|e] s2 [Hk _].
Qed.

Lemma wait_commit_restart_spec pid ready s :
  in_phase LauncherRuns s ->
  yields (wait_commit_restart pid job restart ready) (fun _ => kept) s.
Proof.
  intros Hp. unfold wait_commit_restart.
  apply yields_bind. eapply yields_mono; [by apply validate_restart_spec|]. cbv beta.
  intros [u|e] s1 H1; [|by eapply in_phase_kept].
  apply yields_bind. eapply yields_mono; [by apply machine_in_phase|]. cbv beta.
  intros [u'|e] s2 H2; [|by eapply in_phase_kept].
  assert (forall answer, allowed job restart LauncherRuns (Called (GetJobStatus 1 job) answer)
            = Some LauncherRuns) as Ha by (intros answer; cbn; by rewrite status_call_own).
  apply yields_bind. eapply yields_mono; [apply (call_in_phase _ _ _ H2)|].
  { intros answer. by rewrite Ha. }
  cbv beta. intros first s3 (p' & Hp' & H3). rewrite Ha in Hp'. injection Hp' as <-.
  destruct first as [v|e]; [|by eapply in_phase_kept].
  apply yields_bind, yields_check; [intros _|by eapply in_phase_kept].
  apply yields_bind. eapply (yields_mono _ (fun _ => in_phase LauncherRuns)).
  { destruct ready; [by apply signal_launcher_spec|done]. }
  cbv beta. intros [u''|e] s4 H4; [|by eapply in_phase_kept].
  apply yields_bind, yields_reads, yields_bind.
  eapply yields_mono; [apply wait_for_shutdown_spec|].
  { unfold SHUTDOWN_DEADLINE, SHUTDOWN_SLICE, shutdown_fuel. lia. }
  { lia. }
  cbv beta. intros r s5 (t & Ht & Hr).
  pose proof (replay_polled_runs t Ht) as Hrun.
  destruct r as [[]|e], Hr as [[Hb E]|E]; try done.
  - apply after_exit_spec. eapply in_phase_app; [done|exact E|]. by rewrite trace_replay_app, Hrun.
  - eapply in_phase_kept, in_phase_app; [done|exact E|done].
  - eapply in_phase_kept, in_phase_app; [done|exact E|]. by rewrite trace_replay_app, Hrun.
Qed.
End handover.

(** ** What the protocol means *)

Section meaning.
Context `{SerdeJson}.
Context (job restart : string).

Definition answer_of (a : Action) : option (Reply Value) :=
  match a with Called _ answer => Some answer | _ => None end.
Definition last_call (t : list Action) : option (Reply Value) := last (omap answer_of t).
Definition commit_answer (a : Action) : option (Reply Value) :=
  match a with
  | Called r answer => if decide (r = CommitJob 1 job) then Some answer else None
  | _ => None
  end.
(** The answers to the Commits that were sent. *)
Definition commits (t : list Action) : list (Reply Value) := omap commit_answer t.

(** What a trace that reaches a phase has in it. *)
Definition phase_means (p : Phase) (t : list Action) : Prop :=
  match p with
  | LauncherRuns => commits t = []
  | Gone answer => Exited ∈ t /\ commits t = [] /\ forall l, answer = Some l -> last_call t = Some l
  | CommitSent failed answer =>
      Exited ∈ t /\ last_call t = Some answer /\ exists c, commits t = [c] /\ is_bad c = failed
  | Over => Exited ∈ t /\ (length (commits t) <= 1)%nat
  end.

Lemma commits_snoc t a : commits (t ++ [a]) = commits t ++ option_list (commit_answer a).
Proof. unfold commits. by rewrite omap_app. Qed.

Lemma last_call_snoc t a :
  last_call (t ++ [a]) = match answer_of a with Some l => Some l | None => last_call t end.
Proof.
  unfold last_call. rewrite omap_app. cbn. destruct (answer_of a); [by rewrite last_snoc|].
  by rewrite app_nil_r.
Qed.

Lemma status_not_commit r answer :
  status_call job r = true -> commit_answer (Called r answer) = None.
Proof. unfold status_call. intros ->%bool_decide_eq_true. cbn. by rewrite decide_False. Qed.

Lemma commit_is_commit r answer :
  commit_call job r = true -> commit_answer (Called r answer) = Some answer.
Proof. unfold commit_call. intros ->%bool_decide_eq_true. cbn. by rewrite decide_True. Qed.

Lemma allowed_means p a p' t :
  phase_means p t -> allowed job restart p a = Some p' -> phase_means p' (t ++ [a]).
Proof.
  assert (forall x, x ∈ t -> x ∈ t ++ [a]) as Hmono by (intros x Hx; apply elem_of_app; by left).
  assert (a ∈ t ++ [a]) as Hnew by (apply elem_of_app; right; by apply list_elem_of_singleton).
  destruct p as [|last|failed last|]; cbn [phase_means].
  - intros Hc. destruct a as [r answer| | |path|text]; cbn; try done.
    + destruct (status_call job r) eqn:E; [intros [= <-]|done]. cbn.
      by rewrite commits_snoc, Hc, status_not_commit.
    + intros [= <-]. cbn. by rewrite commits_snoc, Hc.
    + intros [= <-]. cbn. by rewrite commits_snoc, Hc.
  - intros (He & Hc & Hl). destruct a as [r answer| | |path|text]; cbn; try done.
    + destruct (status_call job r) eqn:E.
      { intros [= <-]. cbn. split; [by apply Hmono|]. rewrite last_call_snoc.
        split; [by rewrite commits_snoc, Hc, status_not_commit|by intros l [= <-]]. }
      destruct (commit_call job r && _) eqn:E2; [intros [= <-]|done].
      apply andb_true_iff in E2 as [E2 _]. cbn. split; [by apply Hmono|].
      split; [by rewrite last_call_snoc|]. exists answer. by rewrite commits_snoc, Hc, commit_is_commit.
    + destruct (_ && _); [intros [= <-]|done]. cbn.
      split; [by apply Hmono|]. rewrite commits_snoc, Hc. cbn. lia.
  - intros (He & Hl & c & Hc & Hf). destruct a as [r answer| | |path|text]; cbn; try done.
    + destruct (status_call job r) eqn:E; [intros [= <-]|done]. cbn.
      split; [by apply Hmono|]. split; [by rewrite last_call_snoc|]. exists c.
      by rewrite commits_snoc, Hc, status_not_commit.
    + destruct (_ && _); [intros [= <-]|done]. cbn. split; [by apply Hmono|].
      rewrite commits_snoc, Hc. cbn. lia.
  - intros [He Hc]. destruct a as [r answer| | |path|text]; cbn; try done.
    intros [= <-]. cbn. split; [by apply Hmono|]. rewrite commits_snoc. cbn. by rewrite app_nil_r.
Qed.

Lemma replay_means t p : replay job restart LauncherRuns t = Some p -> phase_means p t.
Proof.
  revert p. induction t as [|a t IH] using rev_ind; intros p.
  - by intros [= <-].
  - rewrite trace_replay_app. destruct (replay job restart LauncherRuns t) as [p0|] eqn:E; [|done].
    cbn. destruct (allowed job restart p0 a) as [p1|] eqn:Ea; [|done]. intros [= <-].
    by eapply allowed_means; [apply IH|].
Qed.

(** At most one Commit in a trace that the protocol allows. *)
Lemma replay_commits t p :
  replay job restart LauncherRuns t = Some p -> (length (commits t) <= 1)%nat.
Proof.
  intros Hm%replay_means. destruct p; cbn in Hm.
  - rewrite Hm. cbn. lia.
  - destruct Hm as (_ & -> & _). cbn. lia.
  - destruct Hm as (_ & _ & c & -> & _). cbn. lia.
  - apply Hm.
Qed.

(** When the Launcher is started again, it has ended, and the last answer shows
    the files whole, or no Commit was sent and the service did not answer. *)
Lemma replay_restart t1 path t2 p :
  replay job restart LauncherRuns (t1 ++ Restarted path :: t2) = Some p ->
  path = restart /\ Exited ∈ t1 /\ Forall (fun a => exists text, a = Printed text) t2 /\
  exists answer, last_call t1 = Some answer /\
    match commits t1 with
    | [] => is_bad answer = true \/ shows_whole false answer = true
    | c :: _ => shows_whole (is_bad c) answer = true
    end.
Proof.
  rewrite trace_replay_app. destruct (replay job restart LauncherRuns t1) as [p1|] eqn:E; [|done].
  apply replay_means in E. cbn.
  assert (forall t, is_Some (replay job restart Over t) ->
    Forall (fun a => exists text, a = Printed text) t) as Hover.
  { induction t as [|a t IH]; [by constructor|]. intros [q Hq]. cbn in Hq.
    destruct a; try done. constructor; [by eexists|]. apply IH. by exists q. }
  destruct p1 as [|[last|]|failed last|]; try done; cbn; [|by rewrite andb_false_r|].
  - destruct (bool_decide (path = restart)) eqn:Ep; [|done]. apply bool_decide_eq_true in Ep.
    destruct (is_bad last || shows_whole false last) eqn:Ew; [|done]. cbn. intros Hr.
    destruct E as (He & Hc & Hl). split; [done|]. split; [done|].
    split; [apply Hover; by exists p|]. exists last. split; [by apply Hl|]. rewrite Hc.
    by apply orb_true_iff in Ew.
  - destruct (bool_decide (path = restart)) eqn:Ep; [|done]. apply bool_decide_eq_true in Ep.
    destruct (shows_whole failed last) eqn:Ew; [|done]. cbn. intros Hr.
    destruct E as (He & Hl & c & Hc & Hf). split; [done|]. split; [done|].
    split; [apply Hover; by exists p|]. exists last. split; [done|]. by rewrite Hc, Hf.
Qed.
End meaning.

Section theorems.
Context {W : Type}.
Context `{SerdeJson, !ClientMachine W, !Reader Value, !ClockLaws W}.

(** C29: the hand-over ends: whatever the service answers and however long the
    Launcher runs, the helper comes to an end; its two waits are over after their
    deadlines. *)
Theorem handover_terminates pid job restart ready (w : W) :
  exists r s, wait_commit_restart pid job restart ready (mkClient w []) = Some (r, s).
Proof.
  pose proof (wait_commit_restart_spec job restart pid ready (mkClient w []) eq_refl) as Hy.
  unfold yields in Hy. destruct (wait_commit_restart _ _ _ _ _) as [[r s]|]; [by eauto|done].
Qed.

(** C28: the hand-over is safe: every run keeps the protocol.  Commit is sent at
    most once, and only for a job last seen prepared after the Launcher's end; the
    Launcher is started again at most once, after its end, and only when no Commit
    was sent and the service is gone, or the last answer shows every file whole:
    committed, rolled back, or prepared still after a Commit without an answer,
    and no incomplete recovery. *)
Theorem handover_safe pid job restart ready (w : W) r s :
  wait_commit_restart pid job restart ready (mkClient w []) = Some (r, s) ->
  is_Some (replay job restart LauncherRuns (c_trace s)) /\
  (length (commits job (c_trace s)) <= 1)%nat /\
  forall before path after, c_trace s = before ++ Restarted path :: after ->
    path = restart /\ Exited ∈ before /\ Forall (fun a => exists text, a = Printed text) after /\
    exists answer, last_call before = Some answer /\
      match commits job before with
      | [] => is_bad answer = true \/ shows_whole false answer = true
      | commit :: _ => shows_whole (is_bad commit) answer = true
      end.
Proof.
  intros Hr. pose proof (wait_commit_restart_spec job restart pid ready (mkClient w []) eq_refl) as Hy.
  unfold yields in Hy. rewrite Hr in Hy. split; [exact Hy|]. destruct Hy as [p Hp].
  split; [by eapply replay_commits|]. intros before path after E. rewrite E in Hp.
  by eapply replay_restart.
Qed.
End theorems.
