(* ===== verification/CommandLine.v ===== *)
(** * The command line of the client

    [run] of src/src/bin/client.rs up to the command that it carries out: the
    arguments, their checks in the order of the code, and the request that a
    command sends.  An argument is its [OsString]: on Windows a text in which
    unpaired surrogates may occur, as bytes.  The last part is the command that
    unpacks the setup of the service. *)

From S2P Require Import Prelude Errors Effects Storage Identifiers Json Trust FileSet RegistrySet.
From S2P Require Import Roots RegistryScopes Protocol ServiceUpgrade Wire WindowsPath Client.

(** ** Arguments *)

(** A surrogate: 237 and a byte above 159. *)
Fixpoint has_surrogate (l : list byte) : bool :=
  match l with
  | a :: (b :: _) as l' => ((N_of_ascii a =? 237) && (160 <=? N_of_ascii b))%N || has_surrogate l'
  | _ => false
  end.

(** [OsString::into_string]. *)
Definition into_string (s : string) : option string :=
  if has_surrogate (as_bytes s) then None else Some s.

(** The arguments that are left, and a value or the text of an error. *)
Definition Parse (A : Type) : Type := list string -> Reply (A * list string).

#[export] Instance Parse_ret : MRet Parse := fun A a args => Good (a, args).
#[export] Instance Parse_bind : MBind Parse := fun A B k p args =>
  match p args with
  | Good (a, args') => k a args'
  | Bad e => Bad e
  end.

Definition refuse {A} (message : string) : Parse A := fun _ => Bad message.

Definition usage : string :=
  "usage: Se7enServiceManager <status|root-status|registry-scope-status|register-root|unregister-root|register-registry-scope|unregister-registry-scope|apply-registry-set|prepare|commit|job-status|wait-commit-restart|ensure-service|service-compatible|unpack-service-setup|verify-service-setup|verify-service-bundle|uninstall-service> ...".

Definition newline_text : string := of_bytes [byte_of_N 10].

Definition next_argument : Parse (option string) := fun args =>
  match args with
  | [] => Good (None, [])
  | a :: args' => Good (Some a, args')
  end.

Definition required (label : string) : Parse string :=
  a ← next_argument;
  match a with
  | Some s => mret s
  | None => refuse ("missing " +:+ label +:+ newline_text +:+ usage)
  end.

Definition required_text (label : string) : Parse string :=
  a ← required label;
  match into_string a with
  | Some s => mret s
  | None => refuse (label +:+ " must be Unicode")
  end.

Definition required_path (label : string) : Parse string :=
  path ← required label;
  if path_is_absolute path then mret path else refuse (label +:+ " must be absolute").

Definition ensure_finished : Parse () :=
  a ← next_argument;
  match a with
  | Some _ => refuse ("unexpected extra argument" +:+ newline_text +:+ usage)
  | None => mret tt
  end.

Definition path_to_text (path : string) : Parse string :=
  match into_string path with Some s => mret s | None => refuse "path must be Unicode" end.

(** [str::parse::<u32>]. *)
Definition parse_u32 (s : string) : option N :=
  n ← parse_u64 (as_bytes s); if (n <=? u32_max)%N then Some n else None.

Definition required_pid : Parse N :=
  text ← required_text "Launcher PID";
  match parse_u32 text with
  | Some n => mret n
  | None => refuse "Launcher PID must be an unsigned integer"
  end.

(** ** Commands *)

Inductive ClientCommand :=
  | Send (request : Request)
  | WaitCommitRestart (pid : N) (job_id restart : string) (ready_event : option string)
  | DirectUpdatePlan (restart manifest keyring : string)
  | DirectUpdateRestart (pid : N) (restart manifest keyring staging event : string)
  | DirectUpdateRecover (restart keyring : string)
  | EnsureService (bundle_root manifest keyring : string)
  | ServiceCompatible
  | VerifyServiceSetup (setup : string)
  | VerifyServiceBundle (bundle_root manifest keyring : string)
  | UnpackServiceSetup (package setup : string)
  | UninstallService (interactive : bool).

Definition parse_register_root : Parse Request :=
  root_id ← required_text "root ID";
  product_id ← required_text "product ID";
  kind ← required_text "root kind";
  root_kind ← (if decide (kind = "launcher") then mret Launcher
               else if decide (kind = "game") then mret Game
               else if decide (kind = "library") then mret Library
               else refuse "root kind must be launcher, game, or library");
  path ← required_path "root path";
  _ ← ensure_finished;
  path ← path_to_text path;
  mret (RegisterRoot 1 root_id product_id root_kind path).

(** The pairs of a name and a type, as long as there are arguments. *)
Fixpoint parse_allowed_values (fuel : nat) : Parse (list AllowedRegistryValue) :=
  match fuel with
  | O => mret []
  | S fuel' =>
      a ← next_argument;
      match a with
      | None => mret []
      | Some name =>
          name ← (match into_string name with
                  | Some s => mret s
                  | None => refuse "registry value name must be Unicode"
                  end);
          type ← required_text "registry value type";
          value_type ← (if decide (type = "string") then mret KString
                        else if decide (type = "dword") then mret KDword
                        else if decide (type = "binary") then mret KBinary
                        else refuse "registry value type must be string, dword, or binary");
          rest ← parse_allowed_values fuel';
          mret ({| av_name := name; av_value_type := value_type |} :: rest)
      end
  end.

(** The list of arguments bounds the pairs. *)
Definition parse_register_scope : Parse Request :=
  scope_id ← required_text "registry scope ID";
  product_id ← required_text "product ID";
  name ← required_text "registry view";
  view ← (if decide (name = "registry32") then mret Registry32
          else if decide (name = "registry64") then mret Registry64
          else refuse "registry view must be registry32 or registry64");
  subkey ← required_text "HKLM SOFTWARE subkey";
  allowed_values ← (fun args => parse_allowed_values (length args) args);
  match allowed_values with
  | [] => refuse "registry scope requires at least one name/type pair"
  | _ :: _ => mret (RegisterRegistryScope 1 scope_id product_id view subkey allowed_values)
  end.

(** Commands with one identifier. *)
Definition parse_identified (label : string) (request : string -> Request) : Parse Request :=
  id ← required_text label;
  _ ← ensure_finished;
  mret (request id).

Definition parse_apply : Parse Request :=
  scope_id ← required_text "registry scope ID";
  path ← required_path "RegistrySet manifest path";
  manifest_path ← path_to_text path;
  _ ← ensure_finished;
  mret (ApplyRegistrySet 1 scope_id manifest_path).

Definition parse_prepare : Parse Request :=
  root_id ← required_text "root ID";
  path ← required_path "manifest path";
  manifest_path ← path_to_text path;
  staging ← required_path "staging path";
  staging_path ← path_to_text staging;
  _ ← ensure_finished;
  mret (PrepareFileSet 1 root_id manifest_path staging_path).

Definition parse_wait_commit_restart : Parse ClientCommand :=
  pid ← required_pid;
  job_id ← required_text "job ID";
  restart ← required_path "registered Launcher path";
  a ← next_argument;
  ready_event ← (match a with
                 | None => mret None
                 | Some s => match into_string s with
                             | Some event => mret (Some event)
                             | None => refuse "ready event must be Unicode"
                             end
                 end);
  _ ← ensure_finished;
  mret (WaitCommitRestart pid job_id restart ready_event).

Definition parse_direct_update_plan : Parse ClientCommand :=
  restart ← required_path "Launcher path";
  manifest ← required_path "Launcher FileSet manifest";
  keyring ← required_path "signed keyring";
  _ ← ensure_finished;
  mret (DirectUpdatePlan restart manifest keyring).

Definition parse_direct_update_restart : Parse ClientCommand :=
  pid ← required_pid;
  restart ← required_path "Launcher path";
  manifest ← required_path "Launcher FileSet manifest";
  keyring ← required_path "signed keyring";
  staging ← required_path "Launcher staging directory";
  event ← required_text "ready event";
  _ ← ensure_finished;
  mret (DirectUpdateRestart pid restart manifest keyring staging event).

Definition parse_direct_update_recover : Parse ClientCommand :=
  restart ← required_path "Launcher path";
  keyring ← required_path "signed keyring";
  _ ← ensure_finished;
  mret (DirectUpdateRecover restart keyring).

Definition parse_bundle (command : string -> string -> string -> ClientCommand)
    : Parse ClientCommand :=
  bundle_root ← required_path "service bundle directory";
  manifest ← required_path "service FileSet manifest";
  keyring ← required_path "signed keyring";
  _ ← ensure_finished;
  mret (command bundle_root manifest keyring).

Definition parse_unpack : Parse ClientCommand :=
  package ← required_path "service setup package path";
  setup ← required_path "service setup output path";
  _ ← ensure_finished;
  mret (UnpackServiceSetup package setup).

Definition parse_uninstall : Parse ClientCommand :=
  modifier ← next_argument;
  interactive ← (match modifier with
                 | None => mret false
                 | Some s => if decide (s = "--interactive") then mret true
                             else refuse "uninstall-service accepts only --interactive"
                 end);
  _ ← ensure_finished;
  mret (UninstallService interactive).

Definition sending (p : Parse Request) : Parse ClientCommand := request ← p; mret (Send request).

(** The command a word stands for; [status] takes no note of further arguments. *)
Definition parse_named (name : string) : Parse ClientCommand :=
  if decide (name = "status") then mret (Send (GetStatus 1))
  else if decide (name = "root-status") then sending (parse_identified "root ID" (GetRootStatus 1))
  else if decide (name = "registry-scope-status") then
    sending (parse_identified "registry scope ID" (GetRegistryScopeStatus 1))
  else if decide (name = "register-root") then sending parse_register_root
  else if decide (name = "unregister-root") then
    sending (parse_identified "root ID" (UnregisterRoot 1))
  else if decide (name = "register-registry-scope") then sending parse_register_scope
  else if decide (name = "unregister-registry-scope") then
    sending (parse_identified "registry scope ID" (UnregisterRegistryScope 1))
  else if decide (name = "apply-registry-set") then sending parse_apply
  else if decide (name = "prepare") then sending parse_prepare
  else if decide (name = "commit") then sending (parse_identified "job ID" (CommitJob 1))
  else if decide (name = "job-status") then sending (parse_identified "job ID" (GetJobStatus 1))
  else if decide (name = "wait-commit-restart") then parse_wait_commit_restart
  else if decide (name = "direct-update-plan") then parse_direct_update_plan
  else if decide (name = "direct-update-restart") then parse_direct_update_restart
  else if decide (name = "direct-update-recover") then parse_direct_update_recover
  else if decide (name = "ensure-service") then parse_bundle EnsureService
  else if decide (name = "service-compatible") then (_ ← ensure_finished; mret ServiceCompatible)
  else if decide (name = "verify-service-setup") then
    (setup ← required_path "service setup path"; _ ← ensure_finished; mret (VerifyServiceSetup setup))
  else if decide (name = "verify-service-bundle") then parse_bundle VerifyServiceBundle
  else if decide (name = "unpack-service-setup") then parse_unpack
  else if decide (name = "uninstall-service") then parse_uninstall
  else refuse usage.

Definition parse_command (args : list string) : Reply ClientCommand :=
  match (command ← required "command";
         match into_string command with
         | Some name => parse_named name
         | None => refuse usage
         end) args with
  | Good (command, _) => Good command
  | Bad e => Bad e
  end.

(** The commands about the service that the model follows to their end. *)
Definition run_command {W} `{SerdeJson, !ClientMachine W, !Reader Value} (c : ClientCommand)
    : option (C W ()) :=
  match c with
  | Send request => Some (response ← call_checked request; print_response response)
  | WaitCommitRestart pid job_id restart ready_event =>
      Some (wait_commit_restart pid job_id restart ready_event)
  | ServiceCompatible => Some service_compatible
  | _ => None
  end.

(** ** The round trip of a request *)

Definition kind_name (k : RootKind) : string :=
  match k with Launcher => "launcher" | Game => "game" | Library => "library" end.
Definition view_name (v : RegistryView) : string :=
  match v with Registry32 => "registry32" | Registry64 => "registry64" end.
Definition type_name (k : RegistryValueKind) : string :=
  match k with KString => "string" | KDword => "dword" | KBinary => "binary" end.

Definition command_line (r : Request) : list string :=
  match r with
  | GetStatus _ => ["status"]
  | GetRootStatus _ id => ["root-status"; id]
  | GetRegistryScopeStatus _ id => ["registry-scope-status"; id]
  | RegisterRoot _ id product kind path => ["register-root"; id; product; kind_name kind; path]
  | UnregisterRoot _ id => ["unregister-root"; id]
  | RegisterRegistryScope _ id product v key allowed =>
      ["register-registry-scope"; id; product; view_name v; key]
      ++ concat ((fun a => [av_name a; type_name (av_value_type a)]) <$> allowed)
  | UnregisterRegistryScope _ id => ["unregister-registry-scope"; id]
  | ApplyRegistrySet _ id path => ["apply-registry-set"; id; path]
  | PrepareFileSet _ id path staging => ["prepare"; id; path; staging]
  | CommitJob _ id => ["commit"; id]
  | GetJobStatus _ id => ["job-status"; id]
  end.

Definition unicode (s : string) : Prop := has_surrogate (as_bytes s) = false.

(** What the command line can express: texts, absolute paths, and a scope with a value. *)
Definition expressible (r : Request) : Prop :=
  protocol_major r = 1%N /\
  Forall unicode (command_line r) /\
  match r with
  | RegisterRoot _ _ _ _ path | ApplyRegistrySet _ _ path => path_is_absolute path = true
  | PrepareFileSet _ _ path staging => path_is_absolute path = true /\ path_is_absolute staging = true
  | RegisterRegistryScope _ _ _ _ _ allowed => allowed <> []
  | _ => True
  end.

Lemma into_unicode s : unicode s -> into_string s = Some s.
Proof. unfold unicode, into_string. by intros ->. Qed.

Lemma required_text_unicode label s args : unicode s -> required_text label (s :: args) = Good (s, args).
Proof.
  intros Hs. unfold required_text, required, next_argument, mbind, Parse_bind, mret, Parse_ret.
  cbv beta iota. by rewrite into_unicode.
Qed.

Lemma required_path_absolute label s args :
  path_is_absolute s = true -> required_path label (s :: args) = Good (s, args).
Proof.
  intros Hs. unfold required_path, required, next_argument, mbind, Parse_bind, mret, Parse_ret.
  cbv beta iota. by rewrite Hs.
Qed.

Lemma bind_parsed {A B} (p : Parse A) (k : A -> Parse B) a args args' :
  p args = Good (a, args') -> (p ≫= k) args = k a args'.
Proof. intros E. unfold mbind, Parse_bind. by rewrite E. Qed.

Lemma path_to_text_unicode s args : unicode s -> path_to_text s args = Good (s, args).
Proof. intros Hs. unfold path_to_text. by rewrite into_unicode. Qed.

Lemma parse_allowed_line allowed fuel :
  Forall unicode (concat ((fun a => [av_name a; type_name (av_value_type a)]) <$> allowed)) ->
  (length allowed <= fuel)%nat ->
  parse_allowed_values fuel (concat ((fun a => [av_name a; type_name (av_value_type a)]) <$> allowed))
  = Good (allowed, []).
Proof.
  revert fuel. induction allowed as [|[name type] allowed IH]; intros fuel Hu Hf.
  - by destruct fuel.
  - destruct fuel as [|fuel]; [cbn in Hf; lia|]. cbn in Hu, Hf.
    apply Forall_cons in Hu as [Hn Hu]. apply Forall_cons in Hu as [Ht Hu].
    cbn [parse_allowed_values concat fmap list_fmap app av_name av_value_type].
    erewrite bind_parsed by done. cbv beta iota. rewrite into_unicode by done.
    erewrite bind_parsed by done. erewrite bind_parsed by (by apply required_text_unicode).
    erewrite (bind_parsed _ _ type) by (by destruct type).
    erewrite bind_parsed by (apply IH; [done|lia]). done.
Qed.

Lemma parse_identified_line label request id :
  unicode id -> parse_identified label request [id] = Good (request id, []).
Proof.
  intros Hu. unfold parse_identified. by erewrite bind_parsed by (by apply required_text_unicode).
Qed.

Lemma sending_line (p : Parse Request) r args : p args = Good (r, []) -> sending p args = Good (Send r, []).
Proof. intros E. unfold sending. by erewrite bind_parsed by exact E. Qed.

Lemma parse_command_line name args c rest :
  unicode name -> parse_named name args = Good (c, rest) -> parse_command (name :: args) = Good c.
Proof.
  intros Hn E. unfold parse_command. erewrite bind_parsed by done. cbv beta iota.
  by rewrite into_unicode, E.
Qed.

Lemma parse_register_root_line id product kind path :
  unicode id -> unicode product -> unicode path -> path_is_absolute path = true ->
  parse_register_root [id; product; kind_name kind; path]
  = Good (RegisterRoot 1 id product kind path, []).
Proof.
  intros. unfold parse_register_root. do 2 erewrite bind_parsed by (by apply required_text_unicode).
  erewrite bind_parsed by (apply required_text_unicode; by destruct kind).
  erewrite (bind_parsed _ _ kind) by (by destruct kind).
  erewrite bind_parsed by (by apply required_path_absolute). erewrite bind_parsed by done.
  by erewrite bind_parsed by (by apply path_to_text_unicode).
Qed.

Lemma parse_register_scope_line id product view key allowed :
  unicode id -> unicode product -> unicode key -> allowed <> [] ->
  Forall unicode (concat ((fun a => [av_name a; type_name (av_value_type a)]) <$> allowed)) ->
  parse_register_scope (id :: product :: view_name view :: key
    :: concat ((fun a => [av_name a; type_name (av_value_type a)]) <$> allowed))
  = Good (RegisterRegistryScope 1 id product view key allowed, []).
Proof.
  intros. unfold parse_register_scope. do 2 erewrite bind_parsed by (by apply required_text_unicode).
  erewrite bind_parsed by (apply required_text_unicode; by destruct view).
  erewrite (bind_parsed _ _ view) by (by destruct view).
  erewrite bind_parsed by (by apply required_text_unicode).
  erewrite bind_parsed.
  2: { apply parse_allowed_line; [done|]. clear. induction allowed; cbn; lia. }
  by destruct allowed.
Qed.

(** C33: every request has its command line: the client, called with the words of a
    request, sends exactly that request. *)
Theorem command_line_sends r : expressible r -> parse_command (command_line r) = Good (Send r).
Proof.
  intros (Hm & Hu & Hr). destruct r; cbn in Hm; subst; cbn [command_line app] in *;
    repeat match goal with H : Forall unicode (_ :: _) |- _ => apply Forall_cons in H as [? H] end;
    eapply parse_command_line; try done.
  - apply (sending_line (parse_identified _ _)). by apply parse_identified_line.
  - apply (sending_line (parse_identified _ _)). by apply parse_identified_line.
  - apply (sending_line parse_register_root). by apply parse_register_root_line.
  - apply (sending_line (parse_identified _ _)). by apply parse_identified_line.
  - apply (sending_line parse_register_scope). by apply parse_register_scope_line.
  - apply (sending_line (parse_identified _ _)). by apply parse_identified_line.
  - apply (sending_line parse_apply). unfold parse_apply.
    erewrite bind_parsed by (by apply required_text_unicode).
    erewrite bind_parsed by (by apply required_path_absolute).
    by erewrite bind_parsed by (by apply path_to_text_unicode).
  - destruct Hr as [Hr1 Hr2]. apply (sending_line parse_prepare). unfold parse_prepare.
    erewrite bind_parsed by (by apply required_text_unicode).
    erewrite bind_parsed by (by apply required_path_absolute).
    erewrite bind_parsed by (by apply path_to_text_unicode).
    erewrite bind_parsed by (by apply required_path_absolute).
    by erewrite bind_parsed by (by apply path_to_text_unicode).
  - apply (sending_line (parse_identified _ _)). by apply parse_identified_line.
  - apply (sending_line (parse_identified _ _)). by apply parse_identified_line.
Qed.

Lemma command_line_sends_witness :
  parse_command ["prepare"; "game-1"; "C:\m.json"; "C:\staging"]
  = Good (Send (PrepareFileSet 1 "game-1" "C:\m.json" "C:\staging")).
Proof.
  apply (command_line_sends (PrepareFileSet 1 "game-1" "C:\m.json" "C:\staging")).
  split; [reflexivity|]. split; [repeat constructor|split; reflexivity].
Defined.

(** ** Unpacking the setup of the service

    [unpack_service_setup_package]: the package and its output lie in one directory,
    the state is that [Disk] with its files by their names in lower case.  The LZMA
    decoder is a parameter.  An error is its text, as the detail. *)

Definition SERVICE_SETUP_PACKAGE_NAME : string := "se7en-service-setup.exe.lzma".
Definition SERVICE_SETUP_NAME : string := "se7en-service-setup.exe".
Definition SERVICE_SETUP_TEMP_NAME : string := "se7en-service-setup.exe.unpacking".
Definition MAX_PACKED_SETUP_BYTES : N := 32 * 1024 * 1024.
Definition MAX_UNPACKED_SETUP_BYTES : N := 64 * 1024 * 1024.
Definition MAX_LZMA_DICTIONARY_BYTES : N := 64 * 1024 * 1024.

(** [lzma_decompress_with_options]: from the limit of its memory, the bytes that could
    be read and whether they are all, the pieces that it writes and whether it ends well. *)
Class LzmaDecoder := lzma_decompress : N -> list byte -> bool -> list (list byte) * bool.

Definition text_error (message : string) : MaintenanceError := new_error ProtocolInvalid message.

Definition is_normal (c : Component) : bool := match c with Normal _ => true | _ => false end.

Definition is_normalized_absolute_path (path : string) : bool :=
  match components path with
  | PrefixComponent _ :: RootDirComponent :: rest => forallb is_normal rest
  | _ => false
  end.

(** [file_name] as a text, compared without the case of its ASCII letters. *)
Definition named (path name : string) : bool :=
  match file_name path ≫= (fun n => into_string (of_bytes n)) with
  | Some n => eq_ignore_ascii_case n name
  | None => false
  end.

Definition validate_service_setup_package_paths (package setup : string) : Result () :=
  _ ← (if is_normalized_absolute_path package && is_normalized_absolute_path setup then Ok tt
       else Err (text_error "service setup package paths must be absolute and normalized"));
  if negb (named package SERVICE_SETUP_PACKAGE_NAME) || negb (named setup SERVICE_SETUP_NAME)
     || negb (bool_decide (parent package = parent setup))
  then Err (text_error "service setup package paths are not canonical") else Ok tt.

(** What an entry of a directory is that is not a regular file. *)
Inductive Irregular := Directory | Link.

Section unpack.
(** Those of the directory at the start. *)
Context `{LzmaDecoder} (irregular : string -> option Irregular).

(** [symlink_metadata]: whether it is a regular file, and its size. *)
Definition symlink_metadata (name : string) : M Disk (option (bool * N)) :=
  seen ← attempt (io Some unchanged (text_error "the metadata cannot be read"));
  match seen with
  | Err _ => pure None
  | Ok _ => gets (fun d =>
      match irregular name with
      | Some _ => Some (false, 0%N)
      | None => (fun c => (true, N.of_nat (length c))) <$> files d !! name
      end)
  end.

Definition open_file (name message : string) : M Disk () :=
  io (fun fs => if fs !! name is Some _ then Some fs else None) unchanged (text_error message).

(** [create_new], and a rename that replaces its target unless it is a directory. *)
Definition create_output (name message : string) : M Disk () :=
  if irregular name is Some _ then fail (text_error message) else create_new name (text_error message).

Definition rename_over (a b message : string) : M Disk () :=
  if irregular b is Some Directory then fail (text_error message)
  else rename a b (text_error message).

(** The bytes the decoder can read, and whether none failed. *)
Definition read_input (name : string) : M Disk (list byte * bool) := fun d =>
  let bytes := default [] (files d !! name) in
  let d' := mkDisk (files d) (tail (fates d)) in
  match next_fate d with
  | Works => (Done (Ok (bytes, true)), d')
  | Fails k => (Done (Ok (take k bytes, false)), d')
  | StopsBefore _ | StopsAfter => (Crashed, d')
  end.

(** [write_all] at the end of the file: a failed or interrupted one leaves a prefix. *)
Definition append_file (name : string) (bytes : list byte) : M Disk () :=
  io (fun fs => Some (alter (fun c => c ++ bytes) name fs))
     (fun k fs => alter (fun c => c ++ take k bytes) name fs)
     (text_error "the decompressed service setup cannot be written").

(** [BoundedWriter]: a piece beyond the limit is refused; [written] counts the bytes. *)
Definition bounded_write (name : string) (maximum written : N) (piece : list byte) : M Disk N :=
  if (maximum - written <? N.of_nat (length piece))%N
  then fail (text_error "decompressed service setup exceeds the size limit")
  else _ ← append_file name piece; pure (written + N.of_nat (length piece))%N.

Fixpoint write_pieces (name : string) (maximum written : N) (pieces : list (list byte)) : M Disk N :=
  match pieces with
  | [] => pure written
  | piece :: pieces' =>
      written' ← bounded_write name maximum written piece;
      write_pieces name maximum written' pieces'
  end.

Definition decompress (package temporary : string) : M Disk N :=
  '(bytes, complete) ← read_input package;
  let '(pieces, valid) := lzma_decompress MAX_LZMA_DICTIONARY_BYTES bytes complete in
  written ← write_pieces temporary MAX_UNPACKED_SETUP_BYTES 0 pieces;
  if (valid : bool) then pure written else fail (text_error "invalid data").

(** The closure that [unpack_service_setup_package] runs before it cleans up. *)
Definition write_service_setup (package setup temporary : string) : M Disk () :=
  _ ← open_file package "service setup package cannot be opened";
  _ ← create_output temporary "temporary service setup output cannot be created";
  written ← map_err (text_error "service setup package is not valid LZMA data")
              (decompress package temporary);
  _ ← io Some unchanged (text_error "decompressed service setup cannot be flushed");
  _ ← sync_all temporary (text_error "decompressed service setup cannot be synchronized");
  _ ← (if (written =? 0)%N then fail (text_error "decompressed service setup is empty") else pure tt);
  rename_over temporary setup "decompressed service setup cannot be activated".

(** The entry of a path in the directory; [temporary] is that of [with_file_name]. *)
Definition directory_entry (path : string) : string :=
  to_ascii_lowercase (of_bytes (default [] (file_name path))).

Definition unpack_service_setup_package (package setup : string) : M Disk () :=
  _ ← lift (validate_service_setup_package_paths package setup);
  let temporary := to_ascii_lowercase SERVICE_SETUP_TEMP_NAME in
  metadata ← symlink_metadata (directory_entry package);
  '(regular, size) ← lift (match metadata with
                           | Some m => Ok m
                           | None => Err (text_error "service setup package does not exist")
                           end);
  _ ← (if (regular : bool) then pure tt
       else fail (text_error "service setup package is not a regular file"));
  _ ← (if ((size =? 0) || (MAX_PACKED_SETUP_BYTES <? size))%N
       then fail (text_error "service setup package size is invalid") else pure tt);
  output ← symlink_metadata (directory_entry setup);
  _ ← (if output is Some _ then fail (text_error "service setup output already exists") else pure tt);
  stale ← symlink_metadata temporary;
  _ ← (if stale is Some _
       then fail (text_error "temporary service setup output already exists") else pure tt);
  result ← attempt (write_service_setup (directory_entry package) (directory_entry setup) temporary);
  match result with
  | Ok _ => pure tt
  | Err e => _ ← attempt (remove_file temporary e); fail e
  end.

(** *** Complete or not at all *)

#[local] Abbreviation temporary := (to_ascii_lowercase SERVICE_SETUP_TEMP_NAME).
#[local] Abbreviation package_entry := (to_ascii_lowercase SERVICE_SETUP_PACKAGE_NAME).
#[local] Abbreviation setup_entry := (to_ascii_lowercase SERVICE_SETUP_NAME).

(** The same files but for the temporary one. *)
Definition but_temporary (fs fs' : Files) : Prop := delete temporary fs' = delete temporary fs.

(** The pieces that the decoder makes of the package, whole or as far as it was read. *)
Definition unpacked (fs : Files) (setup : list byte) : Prop :=
  exists package bytes complete pieces,
    fs !! package_entry = Some package /\ bytes `prefix_of` package /\
    (complete = true -> bytes = package) /\
    lzma_decompress MAX_LZMA_DICTIONARY_BYTES bytes complete = (pieces, true) /\
    setup = concat pieces /\
    (0 < N.of_nat (length setup) <= MAX_UNPACKED_SETUP_BYTES)%N.

Definition setup_installed (fs fs' : Files) : Prop :=
  exists setup, unpacked fs setup /\ fs' = <[setup_entry := setup]> (delete temporary fs).

Definition unpack_interrupted (fs fs' : Files) : Prop := but_temporary fs fs' \/ setup_installed fs fs'.

Lemma but_insert fs c : but_temporary fs (<[temporary := c]> fs).
Proof. apply delete_insert_eq. Qed.

Lemma validate_paths_Ok package setup u :
  validate_service_setup_package_paths package setup = Ok u ->
  directory_entry package = package_entry /\ directory_entry setup = setup_entry.
Proof.
  unfold validate_service_setup_package_paths. destruct (_ && _); [|done].
  cbn [mbind Result_bind]. destruct (_ || _) eqn:E; [done|intros _]. apply orb_false_iff in E as [E _].
  apply orb_false_iff in E as [Hp Hs].
  assert (Hn : forall path name,
    named path name = true -> directory_entry path = to_ascii_lowercase name).
  { intros path name. unfold named, directory_entry. destruct (file_name path) as [n|]; [|done]. cbn.
    unfold into_string. destruct (has_surrogate _); [done|]. unfold eq_ignore_ascii_case.
    intros Hn. by apply bool_decide_eq_true in Hn. }
  by split; apply Hn, negb_false_iff.
Qed.

Lemma bind_ok {S A B} (m : M S A) (k : A -> M S B) s a s1 :
  m s = (Done (Ok a), s1) -> (m ≫= k) s = k a s1.
Proof. intros E. unfold mbind, M_bind, bind. by rewrite E. Qed.

Lemma runs_map_err {A} e (m : M Disk A) Q (E C : Files -> Prop) fs :
  runs m Q E C fs -> runs (map_err e m) Q E C fs.
Proof. intros Hm ft. apply wp_map_err, Hm. Qed.

Lemma runs_metadata name (Q : option (bool * N) -> Files -> Prop) E C fs :
  (forall m, (forall n, m = Some (true, n) -> is_Some (fs !! name)) -> Q m fs) -> C fs ->
  runs (symlink_metadata name) Q E C fs.
Proof.
  intros HQ HC. apply runs_bind, runs_attempt.
  eapply runs_io; [done| |done|]; cbn beta.
  - intros ft. apply wp_gets, HQ. cbn [files]. intros n. destruct (irregular name); [done|].
    by destruct (fs !! name).
  - split; [|done]. intros e. by apply runs_pure, HQ.
Qed.

Lemma runs_read_input name (Q : list byte * bool -> Files -> Prop) E C fs package :
  fs !! name = Some package ->
  (forall bytes complete, bytes `prefix_of` package -> (complete = true -> bytes = package) ->
   Q (bytes, complete) fs) -> C fs -> runs (read_input name) Q E C fs.
Proof.
  intros Hn HQ HC ft. unfold wp, read_input. cbn [files fates]. rewrite Hn. cbn [default].
  destruct (next_fate _); cbn; try done; apply HQ; try done.
  exists (drop k package). by rewrite take_drop.
Qed.

Lemma alter_insert_temporary (f : list byte -> list byte) (c : list byte) (fs : Files) :
  alter f temporary (<[temporary := c]> fs) = <[temporary := f c]> fs.
Proof. by rewrite alter_insert_eq. Qed.

(** The temporary file grows by the pieces, within the limit. *)
Lemma runs_pieces maximum pieces c fs :
  (N.of_nat (length c) <= maximum)%N ->
  runs (write_pieces temporary maximum (N.of_nat (length c)) pieces)
    (fun written fs' => fs' = <[temporary := c ++ concat pieces]> fs /\
       written = N.of_nat (length (c ++ concat pieces)) /\ (written <= maximum)%N)
    (fun fs' => exists c', fs' = <[temporary := c']> fs)
    (fun fs' => exists c', fs' = <[temporary := c']> fs)
    (<[temporary := c]> fs).
Proof.
  revert c. induction pieces as [|piece pieces IH]; intros c Hc; cbn [write_pieces concat].
  - apply runs_pure. by rewrite app_nil_r.
  - apply runs_bind. unfold bounded_write.
    destruct (N.ltb_spec (maximum - N.of_nat (length c)) (N.of_nat (length piece))) as [_|Hl].
    { apply runs_fail. by exists c. }
    apply runs_bind.
    eapply runs_io; [done| | |]; rewrite ?alter_insert_temporary; [|by eexists|].
    2: { intros k. rewrite alter_insert_temporary. by split; eexists. }
    apply runs_pure. rewrite <- Nat2N.inj_add, <- length_app, app_assoc. apply IH.
    rewrite length_app. lia.
Qed.

Lemma runs_decompress package fs :
  fs !! package_entry = Some package ->
  runs (decompress package_entry temporary)
    (fun written fs' => exists bytes complete pieces,
       fs' = <[temporary := concat pieces]> fs /\ written = N.of_nat (length (concat pieces)) /\
       bytes `prefix_of` package /\ (complete = true -> bytes = package) /\
       lzma_decompress MAX_LZMA_DICTIONARY_BYTES bytes complete = (pieces, true) /\
       (written <= MAX_UNPACKED_SETUP_BYTES)%N)
    (fun fs' => exists c, fs' = <[temporary := c]> fs)
    (fun fs' => exists c, fs' = <[temporary := c]> fs)
    (<[temporary := []]> fs).
Proof.
  intros Hp. apply runs_bind.
  eapply runs_read_input; [by rewrite lookup_insert_ne| |by eexists].
  intros bytes complete Hb Hc. cbv beta iota.
  destruct (lzma_decompress _ _ _) as [pieces valid] eqn:El. apply runs_bind.
  eapply runs_mono; [apply (runs_pieces _ _ [])| |done|done].
  { by vm_compute. }
  intros written fs' (-> & -> & Hw). destruct valid; [|apply runs_fail; by eexists].
  apply runs_pure. by exists bytes, complete, pieces.
Qed.

Lemma runs_cleanup e (Q : () -> Files -> Prop) (E C : Files -> Prop) fs fs' :
  but_temporary fs fs' ->
  (forall fs', but_temporary fs fs' -> Q tt fs' /\ E fs' /\ C fs') ->
  runs (remove_file temporary e) Q E C fs'.
Proof.
  intros Hb HQ ft. unfold wp, remove_file, io. cbn [files fates].
  assert (Hd : but_temporary fs (delete temporary fs')).
  { unfold but_temporary. by rewrite delete_delete_eq. }
  destruct (HQ _ Hb) as (?&?&?), (HQ _ Hd) as (?&?&?).
  by destruct (next_fate _), (fs' !! temporary).
Qed.

Lemma runs_write_setup package fs :
  fs !! package_entry = Some package ->
  runs (write_service_setup package_entry setup_entry temporary)
    (fun _ => setup_installed fs) (but_temporary fs) (unpack_interrupted fs) fs.
Proof.
  intros Hp. apply runs_bind. eapply runs_io; [by rewrite Hp| |by left|by repeat constructor].
  apply runs_bind. unfold create_output. destruct (irregular _); [by apply runs_fail|].
  destruct (fs !! temporary) eqn:Ht.
  { intros ft. unfold wp, create_new, io. cbn [files fates]. rewrite Ht.
    by destruct (next_fate _); try left. }
  eapply runs_io; [by rewrite Ht| |by left; apply but_insert|by repeat constructor].
  apply runs_bind, runs_map_err.
  eapply runs_mono; [by apply runs_decompress| |by intros ? [c ->]; apply but_insert
                    |by intros ? [c ->]; left; apply but_insert].
  intros written fs' (bytes & complete & pieces & -> & -> & Hb & Hc & El & Hw). cbv beta.
  apply runs_bind. eapply runs_io; [done| |by left; apply but_insert|split; [|left]; apply but_insert].
  apply runs_bind. eapply runs_io; [done| |by left; apply but_insert|].
  2: { intros k. rewrite alter_insert_temporary. split; [|left]; apply but_insert. }
  apply runs_bind. destruct (N.eqb_spec (N.of_nat (length (concat pieces))) 0) as [|Hne].
  { by apply runs_fail, but_insert. }
  apply runs_pure. unfold rename_over.
  assert (Hi : setup_installed fs (<[setup_entry := concat pieces]> (delete temporary
                 (<[temporary := concat pieces]> fs)))).
  { exists (concat pieces). rewrite delete_insert_eq. split; [|done].
    exists package, bytes, complete, pieces. repeat split; try done. lia. }
  assert (Hr : forall e, runs (rename temporary setup_entry e) (fun _ => setup_installed fs)
                 (but_temporary fs) (unpack_interrupted fs) (<[temporary := concat pieces]> fs)).
  { intros e. eapply runs_rename; [by apply lookup_insert_eq|done|by right|by apply but_insert|].
    by left; apply but_insert. }
  destruct (irregular setup_entry) as [[]|]; try apply Hr. by apply runs_fail, but_insert.
Qed.

Lemma pieces_written maximum pieces c fs :
  (N.of_nat (length (c ++ concat pieces)) <= maximum)%N ->
  write_pieces temporary maximum (N.of_nat (length c)) pieces (mkDisk (<[temporary := c]> fs) [])
  = (Done (Ok (N.of_nat (length (c ++ concat pieces)))),
     mkDisk (<[temporary := c ++ concat pieces]> fs) []).
Proof.
  revert c. induction pieces as [|piece pieces IH]; intros c Hc; cbn [write_pieces concat] in *.
  - by rewrite app_nil_r.
  - rewrite !app_assoc in *. unfold bounded_write.
    destruct (N.ltb_spec (maximum - N.of_nat (length c)) (N.of_nat (length piece))) as [Hl|_].
    { rewrite !length_app in Hc. lia. }
    rewrite <- (IH (c ++ piece)) by done. erewrite bind_ok.
    2: { erewrite bind_ok by (by apply io_works). done. }
    by rewrite alter_insert_temporary, length_app, Nat2N.inj_add.
Qed.

(** A package that is there and small enough, no output, and a decoding within the limit. *)
Definition sound (fs : Files) (pieces : list (list byte)) : Prop :=
  exists package,
    fs !! package_entry = Some package /\ fs !! setup_entry = None /\ fs !! temporary = None /\
    irregular package_entry = None /\ irregular setup_entry = None /\ irregular temporary = None /\
    (0 < N.of_nat (length package) <= MAX_PACKED_SETUP_BYTES)%N /\
    lzma_decompress MAX_LZMA_DICTIONARY_BYTES package true = (pieces, true) /\
    (0 < N.of_nat (length (concat pieces)) <= MAX_UNPACKED_SETUP_BYTES)%N.

Lemma setup_written fs pieces :
  sound fs pieces ->
  write_service_setup package_entry setup_entry temporary (mkDisk fs [])
  = (Done (Ok tt), mkDisk (<[setup_entry := concat pieces]> fs) []).
Proof.
  intros (content & Hp & Hs & Ht & Ip & Is & It & Hsize & El & Hout).
  unfold write_service_setup, create_output, rename_over. rewrite It, Is.
  erewrite bind_ok by (apply io_works; by rewrite Hp).
  erewrite bind_ok by (apply io_works; by rewrite Ht).
  erewrite bind_ok.
  2: { unfold map_err, decompress. erewrite bind_ok.
       2: { unfold read_input. cbn [files]. by rewrite lookup_insert_ne, Hp. }
       cbv beta iota. cbn [default from_option id]. rewrite El. erewrite bind_ok; [done|].
       apply (pieces_written _ _ []). cbn [app]. lia. }
  do 2 erewrite bind_ok by (by apply io_works).
  cbn [app]. destruct (N.eqb_spec (N.of_nat (length (concat pieces))) 0); [lia|].
  erewrite bind_ok by done. apply io_works. 
  by rewrite lookup_insert_eq, delete_insert_id.
Qed.

Lemma sound_unpacks package setup fs pieces :
  validate_service_setup_package_paths package setup = Ok tt -> sound fs pieces ->
  unpack_service_setup_package package setup (mkDisk fs [])
  = (Done (Ok tt), mkDisk (<[setup_entry := concat pieces]> fs) []).
Proof.
  intros Hv (content & Hp & Hs & Ht & Ip & Is & It & Hsize & El & Hout).
  destruct (validate_paths_Ok _ _ _ Hv) as [Ep Es].
  assert (Hm : forall name, irregular name = None ->
    symlink_metadata name (mkDisk fs [])
    = (Done (Ok ((fun c => (true, N.of_nat (length c))) <$> fs !! name)), mkDisk fs [])).
  { intros name Hi. unfold symlink_metadata. erewrite bind_ok by done. cbv beta iota.
    unfold gets. cbn [files]. by rewrite Hi. }
  unfold unpack_service_setup_package. rewrite Hv, Ep, Es.
  erewrite bind_ok by done. erewrite bind_ok by (by apply Hm).
  rewrite Hp. cbn [fmap option_fmap option_map]. erewrite bind_ok by done. cbv beta iota.
  erewrite bind_ok by done.
  destruct (N.eqb_spec (N.of_nat (length content)) 0), (N.ltb_spec MAX_PACKED_SETUP_BYTES
    (N.of_nat (length content))); try lia. cbn [orb].
  do 2 (erewrite bind_ok by first [by apply Hm|done]). rewrite Hs. cbn [fmap option_fmap option_map].
  do 2 (erewrite bind_ok by first [by apply Hm|done]). rewrite Ht. cbn [fmap option_fmap option_map].
  erewrite bind_ok by done.
  rewrite (bind_ok _ _ _ (Ok tt) (mkDisk (<[setup_entry := concat pieces]> fs) [])).
  { done. }
  unfold attempt. rewrite (setup_written fs pieces); [done|]. by exists content.
Qed.

(** C32: whatever fails while a package is unpacked and wherever the machine stops, the
    output is the whole decoding of the package, within the limit, or all is as before but
    for a temporary file: the former when the code returns, the latter when it reports an
    error.  Without faults a sound package is unpacked. *)
Theorem setup_is_unpacked_whole package setup fs :
  runs (unpack_service_setup_package package setup)
    (fun _ => setup_installed fs) (but_temporary fs) (unpack_interrupted fs) fs /\
  (forall pieces,
     validate_service_setup_package_paths package setup = Ok tt -> sound fs pieces ->
     unpack_service_setup_package package setup (mkDisk fs [])
     = (Done (Ok tt), mkDisk (<[setup_entry := concat pieces]> fs) [])).
Proof.
  split; [|intros pieces; apply sound_unpacks].
  apply runs_bind, runs_lift; [|done]. intros u Hu.
  destruct (validate_paths_Ok _ _ _ Hu) as [-> ->]. apply runs_bind.
  apply runs_metadata; [|by left]. intros m Hm. apply runs_bind, runs_lift; [|done].
  intros [regular size] Em. destruct m as [?|]; [injection Em as ->|done]. apply runs_bind.
  destruct regular; [|by apply runs_fail].
  destruct (Hm size) as [content Hp]; [done|]. apply runs_pure, runs_bind.
  destruct (_ || _); [by apply runs_fail|]. apply runs_pure, runs_bind.
  apply runs_metadata; [|by left]. intros output _. apply runs_bind.
  destruct output; [by apply runs_fail|]. apply runs_pure, runs_bind.
  apply runs_metadata; [|by left]. intros stale _. apply runs_bind.
  destruct stale; [by apply runs_fail|]. apply runs_pure, runs_bind, runs_attempt.
  eapply runs_mono; [by eapply runs_write_setup| | |done].
  - intros [] fs' Hi. by apply runs_pure.
  - intros fs' Hb e. apply runs_bind, runs_attempt. eapply runs_cleanup; [done|].
    intros fs2 Hb2. split; [by apply runs_fail|]. split; [intros e'; by apply runs_fail|by left].
Qed.
End unpack.

(** The checks of the paths in the tests of src/src/bin/client.rs. *)
Definition fixture_package : string := "C:\Temp\se7en-service-setup.exe.lzma".
Definition fixture_setup : string := "C:\Temp\SE7EN-service-setup.exe".

Example package_paths_canonical :
  validate_service_setup_package_paths fixture_package fixture_setup = Ok tt /\
  validate_service_setup_package_paths fixture_package "C:\Other\se7en-service-setup.exe"
  = Err (text_error "service setup package paths are not canonical") /\
  validate_service_setup_package_paths "C:\Temp\payload.lzma" fixture_setup
  = Err (text_error "service setup package paths are not canonical") /\
  validate_service_setup_package_paths "C:\Temp\..\Other\se7en-service-setup.exe.lzma"
    "C:\Temp\..\Other\se7en-service-setup.exe"
  = Err (text_error "service setup package paths must be absolute and normalized").
Proof. repeat split; vm_compute; reflexivity. Qed.

(** A decoder of stored data, in two pieces. *)
Definition stored_decoder : LzmaDecoder := fun _ bytes complete =>
  ([take 3 bytes; drop 3 bytes], complete).

Definition fixture_files : Files :=
  {[ to_ascii_lowercase SERVICE_SETUP_PACKAGE_NAME := as_bytes "signed setup fixture" ]}.

Example bounded_writer_rejects_excess_output :
  fst (write_pieces "out" 4 0 [as_bytes "four"; as_bytes "!"] (mkDisk {["out" := []]} []))
  = Done (Err (text_error "decompressed service setup exceeds the size limit")).
Proof. vm_compute. reflexivity. Qed.

(** The package is unpacked; when its first write fails, nothing is left. *)
Lemma setup_is_unpacked_whole_witness :
  files (snd (@unpack_service_setup_package stored_decoder (fun _ => None)
    fixture_package fixture_setup (mkDisk fixture_files [])))
    !! to_ascii_lowercase SERVICE_SETUP_NAME = Some (as_bytes "signed setup fixture") /\
  but_temporary fixture_files (files (snd (@unpack_service_setup_package stored_decoder (fun _ => None)
    fixture_package fixture_setup
    (mkDisk fixture_files [Works; Works; Works; Works; Works; Works; Fails 2])))).
Proof.
  split.
  - destruct (@setup_is_unpacked_whole stored_decoder (fun _ => None) fixture_package fixture_setup
      fixture_files) as [_ Hs].
    rewrite (Hs [take 3 (as_bytes "signed setup fixture"); drop 3 (as_bytes "signed setup fixture")]).
    + vm_compute. reflexivity.
    + vm_compute. reflexivity.
    + exists (as_bytes "signed setup fixture"). repeat split; vm_compute; done.
  - destruct (@setup_is_unpacked_whole stored_decoder (fun _ => None) fixture_package fixture_setup
      fixture_files) as [Hr _].
    specialize (Hr [Works; Works; Works; Works; Works; Works; Fails 2]). unfold wp in Hr.
    destruct (unpack_service_setup_package _ _ _ _) as [[[]| |] d] eqn:E; try done.
Defined.
