(* ===== verification/Model.v ===== *)
(** * Concrete collaborators

    Instances of the classes that stand for code outside the repository: letter
    case on ASCII text, base64, a hash and a signature scheme that are correct
    and not secure, the names and the metadata of a file system.  The witnesses
    of the theorems compute with them; no theorem depends on them. *)

From S2P Require Import Prelude Errors Identifiers Json Trust FileSet RegistrySet Roots Journal.
From S2P Require Import Storage Transaction LocalPlatform Contract.

(** ** Letter case *)

#[export] Instance ascii_case : UnicodeCase := to_ascii_lowercase.

#[export] Instance ascii_case_laws : UnicodeCaseLaws.
Proof. by intros s _. Qed.

(** ** Base64, the standard alphabet with padding *)

Definition base64_alphabet : list byte :=
  as_bytes "ABCDEFGHIJKLMNOPQRSTUVWXYZabcdefghijklmnopqrstuvwxyz0123456789+/".

Definition base64_char (n : N) : byte := default zero (base64_alphabet !! N.to_nat n).
Definition base64_value (c : byte) : option N :=
  N.of_nat ∘ fst <$> list_find (fun d => d = c) base64_alphabet.

Fixpoint base64_encode_bytes (l : list byte) : list byte :=
  match l with
  | a :: b :: c :: l' =>
      let n := (N_of_ascii a * 65536 + N_of_ascii b * 256 + N_of_ascii c)%N in
      base64_char (n / 262144) :: base64_char (n / 4096 mod 64) :: base64_char (n / 64 mod 64)
        :: base64_char (n mod 64) :: base64_encode_bytes l'
  | [a; b] =>
      let n := (N_of_ascii a * 65536 + N_of_ascii b * 256)%N in
      [base64_char (n / 262144); base64_char (n / 4096 mod 64); base64_char (n / 64 mod 64); "="%char]
  | [a] =>
      let n := (N_of_ascii a * 65536)%N in
      [base64_char (n / 262144); base64_char (n / 4096 mod 64); "="%char; "="%char]
  | [] => []
  end.

Fixpoint base64_decode_bytes (l : list byte) : option (list byte) :=
  match l with
  | [] => Some []
  | a :: b :: c :: d :: l' =>
      x ← base64_value a; y ← base64_value b;
      if decide (c = "="%char /\ d = "="%char /\ l' = []) then
        Some [byte_of_N (x * 4 + y / 16)]
      else
        z ← base64_value c;
        if decide (d = "="%char /\ l' = []) then
          Some [byte_of_N (x * 4 + y / 16); byte_of_N ((y mod 16) * 16 + z / 4)]
        else
          t ← base64_value d; rest ← base64_decode_bytes l';
          Some (byte_of_N (x * 4 + y / 16) :: byte_of_N ((y mod 16) * 16 + z / 4)
                  :: byte_of_N ((z mod 4) * 64 + t) :: rest)
  | _ => None
  end.

#[export] Instance model_base64 : Base64 := {|
  base64_encode l := of_bytes (base64_encode_bytes l);
  base64_decode s := base64_decode_bytes (as_bytes s);
|}.

(** ** Hash and signatures *)

(** A checksum of 32 bytes: every byte goes into the next of 32 accumulators. *)
Definition add_byte (acc : list N) (b : byte) : list N :=
  match acc with
  | [] => []
  | a :: acc' => acc' ++ [((a * 31 + N_of_ascii b + 1) mod 256)%N]
  end.

Definition model_sha256 (l : list byte) : list byte :=
  byte_of_N <$> fold_left add_byte l (replicate 32 0%N).

(** A key is its bytes; the signature of a message is the key and the hash. *)
#[export] Instance model_crypto : Crypto := {|
  VerifyingKey := list byte;
  sha256 := model_sha256;
  verifying_key_from_bytes l := if (length l =? 32)%nat then Some l else None;
  verify_strict key message signature := bool_decide (signature = key ++ model_sha256 message);
|}.

(** ** A file system *)

(** Names compare without regard to letter case. *)
#[export] Instance model_names : FileNames := to_ascii_lowercase.

#[export] Instance model_names_laws : FileNamesLaws.
Proof. by intros p q E. Qed.

(** A new file of the system, told by its size. *)
#[export] Instance model_new_files : NewFiles := fun _ data =>
  {| ts_identity := {| volume_serial := 1; file_id := [] |};
     last_write_time := 0; ts_size := N.of_nat (length data) |}.
