(* ===== verification/TrustScenarios.v ===== *)
(** * Scenarios of the signed documents

    A keyring, a file set and a registry set signed with the model's keys: the
    theorems of Trust, FileSet and RegistrySet at concrete inputs. *)

From S2P Require Import Prelude Errors Identifiers Json JsonReader Trust FileSet.
From S2P Require Import RegistrySet Roots RegistryScopes Readers Model.

(** ** Signing *)

Definition canonical_bytes (v : Value) : list byte :=
  match canonical_json v with Ok bytes => bytes | Err _ => [] end.

(** The signature of a payload with a key, in hexadecimal. *)
Definition sign (key : list byte) (domain : list byte) (payload : Value) : string :=
  encode_hex (key ++ model_sha256 (signing_message domain (canonical_bytes payload))).

Definition document {T} `{!Encoder T} (t : T) : list byte :=
  match to_value t with Some v => canonical_bytes v | None => [] end.

(** ** A keyring *)

Definition release_key_bytes : list byte := replicate 32 "k"%char.

Definition sample_keyring (version : N) (signature : string) : Keyring :=
  {| authenticode_signer_thumbprints := ["0123456789abcdef0123456789abcdef01234567"];
     kr_kind := KEYRING_KIND;
     release_keys := [{| rk_key_id := "release-1"; rk_public_key := encode_hex release_key_bytes |}];
     kr_schema := KEYRING_SCHEMA; kr_signature := signature; kr_version := version |}.

Definition signed_keyring (version : N) : Keyring :=
  sample_keyring version
    (sign OFFLINE_ROOT_PUBLIC_KEY KEYRING_SIGNING_DOMAIN (keyring_payload (sample_keyring version ""))).

Definition verified_keyring (version : N) : VerifiedKeyring :=
  {| keyring := signed_keyring version;
     vk_digest := sha256 (document (signed_keyring version)) |}.

Lemma verified_keyring_wf version :
  validate_keyring_shape (signed_keyring version) = Ok tt ->
  keyring_wf (keyring (verified_keyring version)).
Proof. apply validate_keyring_shape_iff. Qed.

(** Two keyrings that differ in their signature only have the same payload. *)
Lemma keyring_payload_binds_witness :
  canonical_json (keyring_payload (signed_keyring 3)) =
    Ok (canonical_bytes (keyring_payload (sample_keyring 3 ""))) /\
  keyring_signed_eq (signed_keyring 3) (sample_keyring 3 "").
Proof.
  split; [by vm_compute|].
  apply (keyring_payload_binds _ _ (canonical_bytes (keyring_payload (sample_keyring 3 ""))));
    by vm_compute.
Defined.

(** Version 3 is installed, then version 5. *)
Lemma keyring_install_monotone_witness :
  rtc keyring_install (Some (document (signed_keyring 3))) (Some (document (signed_keyring 5))) /\
  exists b1 v1, Some (document (signed_keyring 5)) = Some b1 /\
    verify_keyring b1 KeyringAcceptance_default = Ok v1 /\ (3 <= kr_version (keyring v1))%N.
Proof.
  assert (rtc keyring_install (Some (document (signed_keyring 3)))
            (Some (document (signed_keyring 5)))) as Hi.
  { apply rtc_once, (Keyring_installed _ _ (verified_keyring 5)). by vm_compute. }
  split; [exact Hi|].
  destruct (keyring_install_monotone _ (verified_keyring 3) _ Hi ltac:(by vm_compute))
    as (b1 & v1 & E & Hv & Hle & _).
  exists b1, v1. split; [exact E|]. split; [exact Hv|]. exact Hle.
Defined.

(** ** A file set *)

Definition sample_file_set (signature : string) : FileSet :=
  {| fs_files := [{| fe_path := "bin/app.exe"; fe_sha256 := encode_hex (model_sha256 (as_bytes "app"));
                     fe_size := 3 |}];
     fs_generation := 7; fs_key_id := "release-1"; fs_kind := FILE_SET_KIND;
     fs_product_id := "launcher"; fs_remove_files := ["bin/old.dll"];
     fs_schema := FILE_SET_SCHEMA; fs_signature := signature |}.

Definition signed_file_set : FileSet :=
  sample_file_set
    (sign release_key_bytes FILE_SET_SIGNING_DOMAIN (file_set_payload (sample_file_set ""))).

Definition verified_file_set : VerifiedFileSet :=
  {| file_set := signed_file_set; vfs_digest := sha256 (document signed_file_set) |}.

Definition sample_acceptance : FileSetAcceptance :=
  {| fsa_expected_product_id := "launcher"; fsa_previous := None |}.

Lemma file_set_payload_binds_witness :
  canonical_json (file_set_payload signed_file_set) =
    Ok (canonical_bytes (file_set_payload (sample_file_set ""))) /\
  file_set_signed_eq signed_file_set (sample_file_set "").
Proof.
  split; [by vm_compute|].
  apply (file_set_payload_binds _ _ (canonical_bytes (file_set_payload (sample_file_set ""))));
    by vm_compute.
Defined.

(** The signed file set is accepted, so it has all the properties of the theorem. *)
Lemma verify_file_set_iff_witness :
  keyring_wf (keyring (verified_keyring 3)) /\
  verify_file_set (document signed_file_set) (verified_keyring 3) sample_acceptance
    = Ok verified_file_set /\
  file_set_wf signed_file_set "launcher" /\ file_set_signed signed_file_set (signed_keyring 3).
Proof.
  assert (keyring_wf (keyring (verified_keyring 3))) as Hwf
    by (apply verified_keyring_wf; by vm_compute).
  assert (verify_file_set (document signed_file_set) (verified_keyring 3) sample_acceptance
            = Ok verified_file_set) as Hv by (by vm_compute).
  split; [exact Hwf|]. split; [exact Hv|].
  pose proof (proj1 (verify_file_set_iff (document signed_file_set) (verified_keyring 3)
    sample_acceptance verified_file_set Hwf) Hv) as (_ & _ & _ & _ & _ & Hfs & Hsig & _).
  split; [exact Hfs|exact Hsig].
Defined.

(** ** A registry set *)

Definition sample_allowed : list AllowedRegistryValue :=
  [{| av_name := "InstallPath"; av_value_type := KString |};
   {| av_name := "Blob"; av_value_type := KBinary |}].

Definition sample_registry_set (signature : string) : RegistrySet :=
  {| rs_generation := 2; rs_key_id := "release-1"; rs_kind := REGISTRY_SET_KIND;
     rs_product_id := "launcher"; rs_schema := REGISTRY_SET_SCHEMA; rs_scope_id := "scope-1";
     rs_signature := signature;
     rs_values := [RvString "installpath" "x"; RvBinary "Blob" "AQI="] |}.

Definition signed_registry_set : RegistrySet :=
  sample_registry_set
    (sign release_key_bytes REGISTRY_SET_SIGNING_DOMAIN (registry_set_payload (sample_registry_set ""))).

Definition verified_registry_set : VerifiedRegistrySet :=
  {| vrs_digest := sha256 (document signed_registry_set); registry_set := signed_registry_set |}.

Definition sample_registry_acceptance : RegistrySetAcceptance :=
  {| rsa_allowed_values := sample_allowed; rsa_expected_product_id := "launcher";
     rsa_expected_scope_id := "scope-1"; rsa_previous := None |}.

Lemma registry_set_payload_binds_witness :
  canonical_json (registry_set_payload signed_registry_set) =
    Ok (canonical_bytes (registry_set_payload (sample_registry_set ""))) /\
  registry_set_signed_eq signed_registry_set (sample_registry_set "").
Proof.
  split; [by vm_compute|].
  apply (registry_set_payload_binds _ _
    (canonical_bytes (registry_set_payload (sample_registry_set "")))); by vm_compute.
Defined.

Lemma verify_registry_set_iff_witness :
  keyring_wf (keyring (verified_keyring 3)) /\
  verify_registry_set (document signed_registry_set) (verified_keyring 3) sample_registry_acceptance
    = Ok verified_registry_set /\
  registry_set_wf signed_registry_set sample_registry_acceptance /\
  registry_set_signed signed_registry_set (signed_keyring 3).
Proof.
  assert (keyring_wf (keyring (verified_keyring 3))) as Hwf
    by (apply verified_keyring_wf; by vm_compute).
  assert (verify_registry_set (document signed_registry_set) (verified_keyring 3)
            sample_registry_acceptance = Ok verified_registry_set) as Hv by (by vm_compute).
  split; [exact Hwf|]. split; [exact Hv|].
  pose proof (proj1 (verify_registry_set_iff (document signed_registry_set) (verified_keyring 3)
    sample_registry_acceptance verified_registry_set Hwf) Hv) as (_ & _ & _ & _ & _ & Hrs & Hsig & _).
  split; [exact Hrs|exact Hsig].
Defined.

Lemma registry_set_values_safe_witness :
  validate_allowed_registry_values sample_allowed = Ok tt /\
  validate_registry_set signed_registry_set sample_registry_acceptance = Ok tt /\
  executes_programs "installpath" = false.
Proof.
  split; [by vm_compute|]. split; [by vm_compute|].
  refine (proj1 (registry_set_values_safe signed_registry_set sample_registry_acceptance
    (RvString "installpath" "x") _ _ _)).
  - by vm_compute.
  - by vm_compute.
  - by left.
Defined.
