(* ===== verification/RegistryScenarios.v ===== *)
(** * Scenarios of the registries

    The theorems of Roots, RegistryScopes and RegistryStorage at concrete
    registries and disks. *)

From S2P Require Import Prelude Errors Effects Identifiers Json JsonReader Trust.
From S2P Require Import RegistrySet Roots RegistryScopes Readers Storage RegistryStorage Model.
From S2P Require Import TrustScenarios.

Definition sample_root (id : string) (kind : RootKind) (owner : string) : RegisteredRoot :=
  {| root_id := id; root_product_id := "launcher"; root_kind := kind;
     canonical_path := "C:\Games"; identity := {| volume_serial := 7; file_id := as_bytes "id" |};
     root_owner_sid := owner |}.

Definition game_root : RegisteredRoot := sample_root "game-1" Game "S-1-5-21-1".
Definition library_root : RegisteredRoot := sample_root "lib-1" Library "S-1-5-21-1".

Definition one_root : RootRegistry := {[ "game-1" := game_root ]}.
Definition two_roots : RootRegistry := <["lib-1" := library_root]> one_root.

Lemma one_root_steps : root_steps ∅ [Registered game_root] one_root.
Proof. eapply steps_cons; [apply step_register|apply steps_nil]. by vm_compute. Qed.

(** Another user adds a library and removes it again: the game root stays. *)
Lemma root_registry_protected_witness :
  root_steps ∅ [Registered game_root] one_root /\
  root_steps one_root [Registered library_root; Unregistered "lib-1" "S-1-5-21-2"] one_root /\
  one_root !! "game-1" = Some game_root.
Proof.
  pose proof one_root_steps as H1.
  assert (root_steps one_root [Registered library_root; Unregistered "lib-1" "S-1-5-21-2"] one_root)
    as H2.
  { eapply (steps_cons _ _ two_roots); [apply step_register; by vm_compute|].
    eapply (steps_cons _ _ one_root); [|apply steps_nil].
    apply (step_unregister _ _ _ library_root). by vm_compute. }
  split; [exact H1|]. split; [exact H2|].
  refine (proj2 (root_registry_protected one_root _ _ one_root "game-1" game_root H1 H2) _ _ _).
  - by vm_compute.
  - done.
  - rewrite !not_elem_of_cons. split; [done|]. split; [done|]. apply not_elem_of_nil.
Defined.

(** ** Scopes *)

Definition sample_scope : RegisteredRegistryScope :=
  {| allowed_values := sample_allowed; scope_owner_sid := "S-1-5-21-1";
     scope_product_id := "launcher"; scope_id := "scope-1";
     subkey := "SOFTWARE\Publisher\Product"; view := Registry64 |}.

Lemma scope_step_protected_witness :
  scopes_wf {[ "scope-1" := sample_scope ]} /\
  scope_step {[ "scope-1" := sample_scope ]} (ScopeUnregistered "scope-1" "S-1-5-21-1") ∅ /\
  scopes_wf ∅.
Proof.
  assert (scopes_wf {[ "scope-1" := sample_scope ]}) as Hwf.
  { eapply scope_step_wf; [apply scopes_wf_empty|].
    apply (scope_step_register _ sample_scope). by vm_compute. }
  assert (scope_step {[ "scope-1" := sample_scope ]}
            (ScopeUnregistered "scope-1" "S-1-5-21-1") ∅) as Hs.
  { apply (scope_step_unregister _ _ _ sample_scope). by vm_compute. }
  split; [exact Hwf|]. split; [exact Hs|].
  exact (proj1 (scope_step_protected _ _ _ Hwf Hs)).
Defined.

(** ** Saving *)

Definition roots_path : string := "C:\data\roots.json".

Lemma roots_path_slots : slots_distinct roots_path.
Proof. split; by vm_compute. Qed.

Definition encoded (roots : RootRegistry) : list byte :=
  match encode_roots roots with Ok bytes => bytes | Err _ => [] end.

Lemma one_root_wf : roots_wf one_root.
Proof.
  eapply root_step_wf; [apply roots_wf_empty|].
  apply (step_register _ game_root). by vm_compute.
Qed.

Lemma two_roots_wf : roots_wf two_roots.
Proof.
  eapply root_step_wf; [apply one_root_wf|].
  apply (step_register _ library_root). by vm_compute.
Qed.

(** The save stops between its renames: loading finds the old registry. *)
Lemma save_load_roots_crash_safe_witness :
  let disk := mkDisk {[ roots_path := encoded one_root ]} stop_between_renames in
  let d1 := snd (save_roots two_roots roots_path disk) in
  exists roots, load_roots roots_path (mkDisk (files d1) [])
                = (Done (Ok roots), mkDisk (files d1) [])
    /\ (roots = two_roots \/ (roots = one_root /\ Crashed <> Done (Ok tt))).
Proof.
  intros disk d1.
  refine (save_load_roots_crash_safe roots_path one_root two_roots (encoded one_root)
    (encoded two_roots) {[ roots_path := encoded one_root ]} stop_between_renames Crashed d1 []
    roots_path_slots one_root_wf two_roots_wf _ _ _ _).
  - by vm_compute.
  - by vm_compute.
  - left. apply lookup_singleton_eq.
  - by vm_compute.
Defined.

Lemma startup_loses_interrupted_registry_witness :
  let d1 := snd (save_roots two_roots roots_path
                   (mkDisk {[ roots_path := encoded one_root ]} stop_between_renames)) in
  fst (load_roots roots_path (mkDisk (files d1) [])) = Done (Ok one_root)
  /\ startup_roots roots_path (mkDisk (files d1) []) = (Done (Ok ∅), mkDisk (files d1) []).
Proof.
  epose proof (startup_loses_interrupted_registry roots_path one_root two_roots ∅
    (encoded one_root) (encoded two_roots) (encoded ∅) roots_path_slots one_root_wf _ _ _) as Hlost.
  split; [exact (proj1 Hlost)|exact (proj1 (proj2 Hlost))].
  Unshelve.
  - by vm_compute.
  - by vm_compute.
  - by vm_compute.
Defined.
