(* ===== verification/Atomicity.v ===== *)
(** * Atomicity of a transaction

    Against the contract of a platform: a commit, whatever fails or stops in it,
    followed by recoveries until one returns, leaves the files of the root all
    as they were or all as the manifest says. *)

From S2P Require Import Prelude Errors Effects Identifiers Json Trust FileSet Roots Journal.
From S2P Require Import Storage Transaction LocalPlatform Contract.

(** ** Stepping through an operation *)

Section steps.
Context (root : RegisteredRoot) (job : string).
#[local] Abbreviation frame := (frame root).
#[local] Abbreviation view := (view root job).

(** [Q] on the view when the code returns, [R] when it fails or stops. *)
Definition steps (m : M World ()) (Q R : JobView -> Prop) (w : World) : Prop :=
  wp m (fun _ w' => frame w w' /\ Q (view w')) (fun _ w' => frame w w' /\ R (view w'))
       (fun w' => frame w w' /\ R (view w')) w.

Lemma steps_mono m (Q Q' R R' : JobView -> Prop) w :
  steps m Q R w -> (forall v, Q v -> Q' v) -> (forall v, R v -> R' v) -> steps m Q' R' w.
Proof. intros Hm HQ HR. eapply wp_mono; [exact Hm|naive_solver..]. Qed.

Lemma steps_pure (Q R : JobView -> Prop) w : Q (view w) -> steps (pure tt) Q R w.
Proof. intros HQ. apply wp_pure. by split. Qed.

Lemma steps_bind {A} (m : M World A) (k : A -> M World ()) (Q1 : A -> JobView -> Prop)
    (Q R : JobView -> Prop) w :
  wp m (fun a w' => frame w w' /\ Q1 a (view w')) (fun _ w' => frame w w' /\ R (view w'))
       (fun w' => frame w w' /\ R (view w')) w ->
  (forall a w', frame w w' -> Q1 a (view w') -> steps (k a) Q R w') ->
  steps (m ≫= k) Q R w.
Proof.
  intros Hm Hk. apply wp_bind. eapply wp_mono; [exact Hm| |done|done].
  intros a w1 [Hf HQ]. eapply wp_mono; [exact (Hk a w1 Hf HQ)|..]; cbn; intros;
    destruct_and?; (split; [by etransitivity|done]).
Qed.

Lemma steps_seq (m k : M World ()) (Q1 Q R : JobView -> Prop) w :
  steps m Q1 R w ->
  (forall w', frame w w' -> Q1 (view w') -> steps k Q R w') ->
  steps (_ ← m; k) Q R w.
Proof. intros Hm Hk. apply (steps_bind m _ (fun _ => Q1)); [exact Hm|]. intros []. apply Hk. Qed.

(** A query, then the rest. *)
Lemma steps_reads {A} (m : M World A) (Qr : A -> JobView -> Prop) (k : A -> M World ())
    (Q R : JobView -> Prop) w :
  reads root job m Qr -> R (view w) ->
  (forall a w', frame w w' -> view w' = view w -> Qr a (view w) -> steps (k a) Q R w') ->
  steps (m ≫= k) Q R w.
Proof.
  intros Hm HR Hk. apply (steps_bind m k (fun a v => v = view w /\ Qr a (view w))).
  - eapply wp_mono; [exact (Hm w)|..]; cbn; [naive_solver|..]; intros; destruct_and?;
      (split; [done|congruence]).
  - intros a w' Hf [Hv HQ]. by apply Hk.
Qed.

Lemma steps_mutates m (Qm : JobView -> JobView -> Prop) (Q R : JobView -> Prop) w :
  mutates root job m Qm -> R (view w) ->
  (forall v', Qm (view w) v' -> Q v' /\ R v') -> steps m Q R w.
Proof.
  intros Hm HR HQ. eapply wp_mono; [exact (Hm w)|..]; cbn.
  - intros _ w' [Hf Hq]. split; [done|by apply HQ].
  - intros _ w' [Hf ->]. done.
  - intros w' [Hf [->|Hq]]; [done|]. split; [done|by apply HQ].
Qed.

Lemma steps_for_each {A} (f : A -> M World ()) (I : list A -> JobView -> Prop)
    (R : JobView -> Prop) l w :
  I [] (view w) ->
  (forall done a rest w', l = done ++ a :: rest -> I done (view w') ->
     steps (f a) (I (done ++ [a])) R w') ->
  steps (for_each f l) (I l) R w.
Proof.
  intros Hi Hstep.
  apply (wp_for_each f (fun d w' => frame w w' /\ I d (view w'))); [by split|].
  intros d a rest w' El [Hf Hd].
  eapply wp_mono; [by eapply Hstep|..]; cbn; intros; destruct_and?;
    (split; [by etransitivity|done]).
Qed.

Context `{TransactionPlatform, FileNames, !PlatformContract root job}.

(** A mutation between its checkpoints, either of which may fail. *)
Lemma steps_checkpoints kind path m (Q R : JobView -> Prop) w :
  R (view w) ->
  (forall w1, view w1 = view w -> steps m (fun v => Q v /\ R v) R w1) ->
  steps (run_mutation kind path m) Q R w.
Proof.
  intros HR Hm. eapply steps_reads; [apply pc_checkpoint|done|].
  intros _ w1 _ Ev _. apply (steps_bind _ _ (fun _ v => Q v /\ R v)); [by apply Hm|].
  intros _ w2 _ [HQ2 HR2]. eapply wp_mono; [apply pc_checkpoint|..]; cbn;
    intros; destruct_and?; (split; [done|congruence]).
Qed.

Lemma steps_run_mutation kind path m (Qm : JobView -> JobView -> Prop) (Q R : JobView -> Prop) w :
  mutates root job m Qm -> R (view w) ->
  (forall v', Qm (view w) v' -> Q v' /\ R v') -> steps (run_mutation kind path m) Q R w.
Proof.
  intros Hm HR HQ. apply steps_checkpoints; [done|]. intros w1 Ev. rewrite <- Ev in HR, HQ.
  by eapply steps_mutates; [exact Hm|done|]; intros v' Hv'; destruct (HQ v' Hv').
Qed.

(** The operation of an atomic platform, which says that it was done. *)
Lemma steps_replaces kind path detail (m : M World bool) (Qm Pm : JobView -> JobView -> Prop)
    (Q R : JobView -> Prop) w :
  replaces root job m Qm Pm -> R (view w) ->
  (forall v', Qm (view w) v' -> Q v' /\ R v') -> (forall v', Pm (view w) v' -> R v') ->
  steps (run_mutation kind path (done ← m; lift (ensure done TransactionState detail))) Q R w.
Proof.
  intros Hm HR HQ HP. apply steps_checkpoints; [done|]. intros w1 Ev. rewrite <- Ev in HR, HQ, HP.
  apply (steps_bind _ _ (fun b v => b = true /\ Q v /\ R v)).
  - eapply wp_mono; [exact (Hm w1)|..]; cbn.
    + intros b w' (Hf & -> & Hq). split; [done|]. split; [done|by apply HQ].
    + intros _ w' [Hf Hp]. split; [done|by apply HP].
    + intros w' [Hf Hp]. split; [done|by apply HP].
  - intros b w2 _ [-> Hqr]. apply wp_lift; [by split|done].
Qed.
End steps.

(** ** Files of a job *)

Section files.
Context `{SerdeJson, UnicodeCase, Crypto, TransactionPlatform, !FileNames, !FileNamesLaws}.
Context (h : JournalHeader) (Hwf : header_wf h).
#[local] Abbreviation root := (jh_root h).
#[local] Abbreviation job := (jh_job_id h).
#[local] Abbreviation view := (view root job).
Context `{!PlatformContract root job}.
(** The view when the commit starts. *)
Context (v0 : JobView).

Definition key (e : JournalEntry) : string := fs_key (je_path e).

(** The target had the recorded snapshot, and what replaces it is prepared. *)
Record committable : Prop := {
  co_original e : e ∈ entries h -> f_snapshot <$> v_files v0 !! key e = original e;
  co_backup : v_backup v0 = ∅;
  (** one operation uses one index for the prepared file and for the backup *)
  co_indices : uses_atomic_replacement = true -> forall e, e ∈ entries h ->
    action e = Replace -> prepared_index e = Some (transaction_index e);
}.

(** The file the manifest puts at an entry's path. *)
Definition new_file (e : JournalEntry) : option File :=
  match action e with
  | Replace => i ← prepared_index e; v_prepared v0 !! i
  | Remove => None
  end.

Definition outside (v : JobView) : Prop :=
  forall k, (forall e, e ∈ entries h -> key e <> k) -> v_files v !! k = v_files v0 !! k.

(** A target holds what the manifest says. *)
Definition applied (v : JobView) (e : JournalEntry) : Prop :=
  v_files v !! key e = new_file e /\ (action e = Replace -> is_Some (new_file e)).

(** All targets are as before; all targets are as the manifest says. *)
Definition all_old (v : JobView) : Prop := v_files v = v_files v0.
Definition all_new (v : JobView) : Prop :=
  outside v /\ forall e, e ∈ entries h -> applied v e.

(** The old file, if there was one, is in the entry's backup. *)
Definition kept (v : JobView) (e : JournalEntry) : Prop :=
  is_Some (original e) -> v_backup v !! transaction_index e = v_files v0 !! key e.

(** Nothing was done for the entry. *)
Definition untouched (v : JobView) (e : JournalEntry) : Prop :=
  v_files v !! key e = v_files v0 !! key e /\ v_backup v !! transaction_index e = None.

Definition pending (v : JobView) (e : JournalEntry) : Prop :=
  untouched v e /\ forall i, prepared_index e = Some i -> v_prepared v !! i = v_prepared v0 !! i.

(** Every entry can be taken back: its target is untouched, or its backup is
    there; a target that did not exist can always be deleted. *)
Definition revertible (v : JobView) : Prop :=
  outside v /\ forall e, e ∈ entries h -> kept v e \/ untouched v e.

(** ** Entries do not interfere *)

Lemma fmap_NoDup_ne {A B} (f : A -> B) d a r x :
  NoDup (f <$> d ++ a :: r) -> x ∈ d ++ r -> f x <> f a.
Proof.
  rewrite fmap_app. cbn. intros Hnd Hx E.
  apply NoDup_app in Hnd as (_ & Hdis & Hnd). apply NoDup_cons in Hnd as [Hna _].
  apply elem_of_app in Hx as [Hx|Hx].
  - apply (Hdis (f x)); [by apply list_elem_of_fmap_2|]. rewrite E. by left.
  - apply Hna. rewrite <- E. by apply list_elem_of_fmap_2.
Qed.

Lemma omap_NoDup_ne {A B} (f : A -> option B) d a r x b :
  NoDup (omap f (d ++ a :: r)) -> x ∈ d ++ r -> f x = Some b -> f a <> Some b.
Proof.
  rewrite omap_app. cbn. intros Hnd Hx Ex Ea. rewrite Ea in Hnd.
  apply NoDup_app in Hnd as (_ & Hdis & Hnd). apply NoDup_cons in Hnd as [Hna _].
  apply elem_of_app in Hx as [Hx|Hx].
  - apply (Hdis b); [apply list_elem_of_omap; eauto|by left].
  - apply Hna, list_elem_of_omap. eauto.
Qed.

Record distinct_entries (a x : JournalEntry) : Prop := {
  de_key : key x <> key a;
  de_index : transaction_index x <> transaction_index a;
  de_prepared i : prepared_index x = Some i -> prepared_index a <> Some i;
}.

Lemma entries_distinct d a r x :
  entries h = d ++ a :: r -> x ∈ d ++ r -> distinct_entries a x.
Proof.
  intros E Hx. destruct Hwf as [_ _ _ _ _ Hp Ht Hi]. rewrite E in Hp, Ht, Hi. split.
  - intros Ek. apply (fmap_NoDup_ne folded_path d a r x Hp Hx).
    by apply fs_key_lowercase.
  - by apply (fmap_NoDup_ne _ d a r).
  - intros i. by apply (omap_NoDup_ne _ d a r).
Qed.

(** [v'] differs from [v] only in what belongs to the entry [a]. *)
Record only (a : JournalEntry) (v v' : JobView) : Prop := {
  on_files k : k <> key a -> v_files v' !! k = v_files v !! k;
  on_backup i : i <> transaction_index a -> v_backup v' !! i = v_backup v !! i;
  on_prepared i : prepared_index a <> Some i -> v_prepared v' !! i = v_prepared v !! i;
}.

#[export] Instance only_preorder a : PreOrder (only a).
Proof.
  split; [by intros v|]. intros x y z [F1 B1 P1] [F2 B2 P2]. split; intros.
  - by rewrite F2, F1.
  - by rewrite B2, B1.
  - by rewrite P2, P1.
Qed.

Lemma only_outside a v v' : a ∈ entries h -> only a v v' -> outside v -> outside v'.
Proof. intros Ha [Hf _ _] Ho k Hk. rewrite Hf; [by apply Ho|]. intros ->. by apply (Hk a). Qed.

Lemma only_applied a x v v' : distinct_entries a x -> only a v v' -> applied v x -> applied v' x.
Proof. intros [Hk _ _] [Hf _ _] [Hv Hn]. split; [by rewrite Hf|done]. Qed.

Lemma only_kept a x v v' : distinct_entries a x -> only a v v' -> kept v x -> kept v' x.
Proof. intros [_ Hi _] [_ Hb _] Hx Ho. rewrite Hb by done. by apply Hx. Qed.

Lemma only_untouched a x v v' :
  distinct_entries a x -> only a v v' -> untouched v x -> untouched v' x.
Proof. intros [Hk Hi _] [Hf Hb _] [E1 E2]. split; [by rewrite Hf|by rewrite Hb]. Qed.

Lemma only_pending a x v v' :
  distinct_entries a x -> only a v v' -> pending v x -> pending v' x.
Proof.
  intros Hd Ho [Hu Hp]. split; [by eapply only_untouched|].
  intros i Hi. rewrite (on_prepared _ _ _ Ho); [by apply Hp|]. by apply (de_prepared _ _ Hd).
Qed.

Lemma revertible_only d a r v v' :
  entries h = d ++ a :: r -> only a v v' -> revertible v ->
  kept v' a \/ untouched v' a -> revertible v'.
Proof.
  intros E Ho [Hout Hr] Ha.
  assert (a ∈ entries h) as Hin by (rewrite E, elem_of_app; right; by left).
  split; [by eapply only_outside|]. intros x Hx. rewrite E in Hx.
  assert (x = a \/ x ∈ d ++ r) as [->|Hx'].
  { rewrite elem_of_app, elem_of_cons in Hx. rewrite elem_of_app. tauto. }
  - done.
  - pose proof (entries_distinct d a r x E Hx').
    destruct (Hr x) as [Hk|Hu]; [by rewrite E|left; by eapply only_kept|right; by eapply only_untouched].
Qed.

(** ** Applying *)

Definition apply_inv (done : list JournalEntry) (v : JobView) : Prop :=
  outside v /\ (forall e, e ∈ done -> applied v e /\ kept v e)
  /\ forall rest, entries h = done ++ rest -> forall e, e ∈ rest -> pending v e.

Lemma apply_inv_revertible done rest v :
  entries h = done ++ rest -> apply_inv done v -> revertible v.
Proof.
  intros E (Ho & Hd & Hr). split; [done|]. intros e He. rewrite E in He.
  apply elem_of_app in He as [He|He]; [left; by apply Hd|right; by apply (Hr rest E)].
Qed.

Lemma apply_inv_start : committable -> apply_inv [] v0.
Proof.
  intros [_ Hb _]. split; [done|]. split; [intros e He; by apply not_elem_of_nil in He|].
  intros rest _ e _. split; [|done]. split; [done|]. by rewrite Hb, lookup_empty.
Qed.

Lemma apply_inv_step done a rest v v' :
  entries h = done ++ a :: rest -> apply_inv done v -> only a v v' ->
  applied v' a -> kept v' a -> apply_inv (done ++ [a]) v'.
Proof.
  intros E (Ho & Hd & Hr) Hon Happ Hk.
  assert (a ∈ entries h) as Hin by (rewrite E, elem_of_app; right; by left).
  split; [by eapply only_outside|]. split.
  - intros e He. apply elem_of_app in He as [He|He%list_elem_of_singleton]; [|by subst].
    assert (distinct_entries a e) by (eapply entries_distinct; [exact E|apply elem_of_app; by left]).
    destruct (Hd e He). split; [by eapply only_applied|by eapply only_kept].
  - intros rest' E' e He. rewrite <- app_assoc in E'. cbn in E'.
    assert (rest' = rest) as -> by (rewrite E in E'; by simplify_list_eq).
    eapply only_pending; [|exact Hon|].
    + eapply entries_distinct; [exact E|]. apply elem_of_app. by right.
    + apply (Hr (a :: rest) E). by right.
Qed.

(** The state of an entry whose target was moved away or absent. *)
Record cleared (a : JournalEntry) (v v' : JobView) : Prop := {
  cl_only : only a v v';
  cl_absent : v_files v' !! key a = None;
  cl_kept : kept v' a;
  cl_prepared : v_prepared v' = v_prepared v;
}.

Lemma steps_lift_Ok {A} (r : Result A) a (k : A -> M World ()) Q R w :
  r = Ok a -> steps root job (k a) Q R w -> steps root job (lift r ≫= k) Q R w.
Proof. intros -> Hk. exact Hk. Qed.

Lemma backup_step done a rest v w :
  committable -> entries h = done ++ a :: rest -> apply_inv done v -> view w = v ->
  steps root job
    (match original a with
     | Some snapshot =>
         run_mutation "RenameTargetToBackup" (Some (je_path a))
           (rename_target_to_backup root job (transaction_index a) (je_path a) snapshot)
     | None => pure tt
     end) (cleared a v) revertible w.
Proof.
  intros Hco E Hi Ev.
  assert (a ∈ entries h) as Hin by (rewrite E, elem_of_app; right; by left).
  pose proof (apply_inv_revertible _ _ _ E Hi) as Hrev.
  destruct Hi as (_ & _ & Hp). destruct (Hp (a :: rest) E a) as [[Hf Hb] _]; [by left|].
  pose proof (co_original Hco a Hin) as Ho.
  destruct (original a) as [snapshot|] eqn:Eo.
  - eapply (steps_run_mutation root job); [apply pc_rename_target|by rewrite Ev|].
    intros v' (f & Hf' & Hs & ->). rewrite Ev in Hf' |- *. cbn.
    assert (only a v (mkView (delete (key a) (v_files v))
              (<[transaction_index a := f]> (v_backup v)) (v_prepared v))) as Hon.
    { split; intros; cbn; [by rewrite lookup_delete_ne|by rewrite lookup_insert_ne|done]. }
    assert (kept (mkView (delete (key a) (v_files v))
              (<[transaction_index a := f]> (v_backup v)) (v_prepared v)) a) as Hk.
    { intros _. cbn. rewrite lookup_insert_eq. unfold key in *. congruence. }
    split; [|by eapply revertible_only; [exact E|exact Hon|exact Hrev|left]].
    split; [exact Hon|cbn; apply lookup_delete_eq|exact Hk|done].
  - apply steps_pure. rewrite Ev. split; [reflexivity| |by intros [? ?]; congruence|done].
    rewrite Hf. by destruct (v_files v0 !! key a).
Qed.

Lemma install_step done a rest v v1 w :
  entries h = done ++ a :: rest -> apply_inv done v -> cleared a v v1 -> view w = v1 ->
  steps root job
    (if bool_decide (action a = Replace) then
       index ← lift (ok_or (prepared_index a) TransactionState
                 "replacement journal entry has no prepared index");
       run_mutation "RenamePreparedToTarget" (Some (je_path a))
         (rename_prepared_to_target root job index (je_path a))
     else pure tt) (apply_inv (done ++ [a])) revertible w.
Proof.
  intros E Hi [Hon Habs Hk Hprep] Ev.
  assert (a ∈ entries h) as Hin by (rewrite E, elem_of_app; right; by left).
  pose proof (apply_inv_revertible _ _ _ E Hi) as Hrev.
  assert (revertible v1) as Hrev1
    by (eapply revertible_only; [exact E|exact Hon|exact Hrev|by left]).
  case_bool_decide as Hact.
  - pose proof (hw_ok _ Hwf) as Hok. rewrite Forall_forall in Hok.
    destruct (Hok a Hin) as [_ Hpi]. apply Hpi in Hact as Hidx. destruct Hidx as [i Hidx].
    eapply steps_lift_Ok; [by rewrite Hidx|].
    eapply (steps_run_mutation root job); [apply pc_rename_prepared|by rewrite Ev|].
    intros v' (f & Hf & _ & ->). rewrite Ev in Hf |- *. fold (key a).
    set (v2 := mkView _ _ _).
    assert (only a v1 v2) as Hon2.
    { split; intros; cbn; [by rewrite lookup_insert_ne|done|].
      rewrite lookup_delete_ne; congruence. }
    assert (kept v2 a) as Hk2 by exact Hk.
    assert (only a v v2) as Hon3 by (by etransitivity).
    split; [|by eapply revertible_only; [exact E|exact Hon3|exact Hrev|left]].
    eapply apply_inv_step; [exact E|exact Hi|exact Hon3| |exact Hk2].
    destruct Hi as (_ & _ & Hp). destruct (Hp (a :: rest) E a) as [_ Hpp]; [by left|].
    unfold applied, new_file. rewrite Hact, Hidx. cbn. rewrite lookup_insert_eq.
    rewrite Hprep, (Hpp i Hidx) in Hf. split; [done|]. intros _. by rewrite Hf.
  - apply steps_pure. rewrite Ev.
    eapply apply_inv_step; [exact E|exact Hi|exact Hon| |exact Hk].
    split; [|done]. rewrite Habs. unfold new_file. by destruct (action a).
Qed.

(** The whole step on a platform that replaces atomically: also half of it can be
    taken back. *)
Lemma replace_step done a rest w :
  committable -> entries h = done ++ a :: rest -> apply_inv done (view w) ->
  action a = Replace -> uses_atomic_replacement = true ->
  steps root job
    (run_mutation "AtomicReplaceTarget" (Some (je_path a))
      (done ← atomic_replace_target root job (transaction_index a) (je_path a) (original a);
       lift (ensure done TransactionState "atomic replacement platform refused its operation")))
    (apply_inv (done ++ [a])) revertible w.
Proof.
  intros Hco E Hi Hact Hmode. set (v := view w) in *.
  assert (a ∈ entries h) as Hin by (rewrite E, elem_of_app; right; by left).
  pose proof (apply_inv_revertible _ _ _ E Hi) as Hrev.
  pose proof (co_indices Hco Hmode a Hin Hact) as Hidx.
  assert (pending v a) as [[Hf Hb] Hp] by (destruct Hi as (_ & _ & Hp); apply (Hp (a :: rest) E); by left).
  pose proof (co_original Hco a Hin) as Ho. unfold key in *.
  assert (forall v', swapped (transaction_index a) (je_path a) (original a) v v' ->
            only a v v' /\ kept v' a /\ applied v' a) as Hswapped.
  { intros v' (f & Hf' & _ & ->). rewrite Hp in Hf' by done. split_and!.
    - split; intros; cbn; [by rewrite lookup_insert_ne| |rewrite lookup_delete_ne by naive_solver; done].
      destruct (v_files v !! fs_key (je_path a)); [by rewrite lookup_insert_ne|done].
    - intros [snapshot Eo]. cbn. unfold key. rewrite <- Hf.
      destruct (v_files v !! fs_key (je_path a)) as [g|] eqn:Eg; [by rewrite lookup_insert_eq|].
      rewrite <- Hf, Eo in Ho. done.
    - unfold applied, new_file. rewrite Hact, Hidx. cbn. unfold key.
      by rewrite lookup_insert_eq, Hf'. }
  eapply (steps_replaces root job); [by apply pc_replace|done|..].
  - intros v' (Hon & Hk & Happ)%Hswapped.
    split; [by eapply apply_inv_step|by eapply revertible_only; [exact E|..|left]].
  - intros v' [->|[(g & Hg & ->)|(Hon & Hk & _)%Hswapped]]; [done| |].
    + eapply revertible_only; [exact E| |exact Hrev|left].
      * split; intros; cbn; [by rewrite lookup_delete_ne|by rewrite lookup_insert_ne|done].
      * intros _. cbn. rewrite lookup_insert_eq. unfold key. by rewrite <- Hf.
    + by eapply revertible_only; [exact E|..|left].
Qed.

Lemma apply_entry_spec done a rest w :
  committable -> entries h = done ++ a :: rest -> apply_inv done (view w) ->
  steps root job (apply_entry h a) (apply_inv (done ++ [a])) revertible w.
Proof.
  intros Hco E Hi. unfold apply_entry.
  destruct (bool_decide (action a = Replace) && uses_atomic_replacement) eqn:Em.
  { apply andb_true_iff in Em as [Ha%bool_decide_eq_true Hmode]. by eapply replace_step. }
  apply (steps_bind _ _ _ _ (fun _ => cleared a (view w))).
  - exact (backup_step done a rest (view w) w Hco E Hi eq_refl).
  - intros _ w1 _ Hc. by eapply install_step.
Qed.

(** Applying works, or everything can be taken back; both when it returns. *)
Lemma apply_entries_spec w :
  committable -> view w = v0 ->
  steps root job (apply_entries h) (fun v => all_new v /\ revertible v) revertible w.
Proof.
  intros Hco Ev. unfold apply_entries.
  eapply steps_mono; [apply (steps_for_each _ _ _ apply_inv revertible)| |done].
  - rewrite Ev. by apply apply_inv_start.
  - intros done a rest w' E Hi. by eapply apply_entry_spec.
  - intros v Hi. split.
    + destruct Hi as (Ho & Hd & _). split; [done|]. intros e He. by apply Hd.
    + eapply (apply_inv_revertible (entries h) []); [by rewrite app_nil_r|done].
Qed.

(** ** Rolling back *)

Definition reverted (v : JobView) (e : JournalEntry) : Prop :=
  v_files v !! key e = v_files v0 !! key e.

Definition rollback_inv (done : list JournalEntry) (v : JobView) : Prop :=
  revertible v /\ forall e, e ∈ done -> reverted v e.

Lemma rollback_inv_step done a rest v v' :
  rev (entries h) = done ++ a :: rest -> rollback_inv done v -> only a v v' ->
  kept v' a \/ untouched v' a -> reverted v' a -> rollback_inv (done ++ [a]) v'.
Proof.
  intros E [Hr Hd] Hon Hst Hrev.
  assert (entries h = rev rest ++ a :: rev done) as E'.
  { rewrite <- (rev_involutive (entries h)), E, rev_app_distr. cbn. by rewrite <- app_assoc. }
  split; [by eapply revertible_only|].
  intros e He. apply elem_of_app in He as [He|He%list_elem_of_singleton]; [|by subst].
  unfold reverted. rewrite (on_files _ _ _ Hon); [by apply Hd|].
  apply de_key. eapply entries_distinct; [exact E'|]. rewrite elem_of_app. right.
  rewrite list_elem_of_In, <- in_rev. by apply list_elem_of_In.
Qed.

Lemma delete_only a v :
  only a v (mkView (delete (key a) (v_files v)) (v_backup v) (v_prepared v)).
Proof. split; intros; cbn; [by rewrite lookup_delete_ne|done|done]. Qed.

Lemma target_exists_reads path :
  reads root job (target_exists root path)
    (fun b v => b = bool_decide (is_Some (v_files v !! fs_key path))).
Proof.
  intros w. unfold target_exists. apply wp_bind.
  eapply wp_mono; [exact (pc_inspect path w)| |done|done].
  intros t w' (Hf & Hv & ->). apply wp_pure. split; [done|split; [done|]].
  apply bool_decide_ext. by rewrite fmap_is_Some.
Qed.

Lemma delete_step (Q R : JobView -> Prop) path w :
  R (view w) -> (forall v', deleted path (view w) v' -> Q v' /\ R v') ->
  steps root job (run_mutation "DeleteTarget" (Some path) (delete_target root path)) Q R w.
Proof. intros HR HQ. by eapply (steps_run_mutation root job); [apply pc_delete|..]. Qed.

(** The branch with a backup: the target is deleted if it is there, then the
    backup becomes the target again. *)
Lemma restore_step done a rest w f :
  rev (entries h) = done ++ a :: rest -> rollback_inv done (view w) ->
  v_backup (view w) !! transaction_index a = Some f -> v_files v0 !! key a = Some f ->
  steps root job
    (found ← target_exists root (je_path a);
     _ ← (if (found : bool)
          then run_mutation "DeleteTarget" (Some (je_path a)) (delete_target root (je_path a))
          else pure tt);
     run_mutation "RestoreBackup" (Some (je_path a))
       (restore_backup root job (transaction_index a) (je_path a)))
    (rollback_inv (done ++ [a])) revertible w.
Proof.
  intros E Hi Hb H0f. pose proof (proj1 Hi) as Hrev.
  eapply (steps_reads root job); [apply target_exists_reads|done|].
  intros found w1 _ Ev Hfound.
  (* the view with no target *)
  set (vd := mkView (delete (key a) (v_files (view w))) (v_backup (view w)) (v_prepared (view w))).
  pose proof (delete_only a (view w)) as Hond. fold vd in Hond.
  assert (kept vd a) as Hkd by (intros _; cbn; congruence).
  assert (entries h = rev rest ++ a :: rev done) as E'.
  { rewrite <- (rev_involutive (entries h)), E, rev_app_distr. cbn. by rewrite <- app_assoc. }
  assert (revertible vd) as Hrevd by (eapply revertible_only; [exact E'|exact Hond|done|by left]).
  apply (steps_seq _ _ _ _ (fun v => v = vd)).
  - destruct found.
    + apply delete_step; [by rewrite Ev|]. rewrite Ev. by intros v' ->.
    + apply steps_pure. rewrite Ev. symmetry in Hfound. apply bool_decide_eq_false in Hfound.
      apply eq_None_not_Some in Hfound. unfold vd, key. rewrite delete_id by done.
      by destruct (view w).
  - intros w2 _ Ev2. eapply (steps_run_mutation root job); [apply pc_restore|by rewrite Ev2|].
    intros v' (f' & Hf' & _ & ->). rewrite Ev2 in Hf' |- *. cbn in Hf'. fold (key a).
    assert (f' = f) as -> by congruence.
    set (vr := mkView _ _ _).
    assert (only a vd vr) as Honr.
    { split; intros; cbn; [by rewrite lookup_insert_ne|by rewrite lookup_delete_ne|done]. }
    assert (only a (view w) vr) as Hon by (by etransitivity).
    assert (v_files vr !! key a = v_files v0 !! key a) as Hfile
      by (cbn; by rewrite lookup_insert_eq).
    assert (untouched vr a) as Hu by (split; [exact Hfile|cbn; apply lookup_delete_eq]).
    assert (rollback_inv (done ++ [a]) vr) as Hinv
      by (eapply rollback_inv_step; [exact E|exact Hi|exact Hon|by right|exact Hfile]).
    split; [done|apply Hinv].
Qed.

(** The same branch on a platform that replaces atomically. *)
Lemma put_back_step done a rest w f :
  rev (entries h) = done ++ a :: rest -> rollback_inv done (view w) ->
  v_backup (view w) !! transaction_index a = Some f -> v_files v0 !! key a = Some f ->
  uses_atomic_replacement = true ->
  steps root job
    (run_mutation "AtomicRestoreBackup" (Some (je_path a))
      (done ← atomic_restore_backup root job (transaction_index a) (je_path a);
       lift (ensure done TransactionState "atomic rollback platform refused its operation")))
    (rollback_inv (done ++ [a])) revertible w.
Proof.
  intros E Hi Hb H0f Hmode. pose proof (proj1 Hi) as Hrev. set (v := view w) in *.
  assert (entries h = rev rest ++ a :: rev done) as E'.
  { rewrite <- (rev_involutive (entries h)), E, rev_app_distr. cbn. by rewrite <- app_assoc. }
  assert (forall v', put_back (transaction_index a) (je_path a) v v' -> rollback_inv (done ++ [a]) v')
    as Hput.
  { intros v' (f' & Hf' & ->). assert (f' = f) as -> by congruence. fold (key a).
    set (vr := mkView _ _ _).
    assert (only a v vr) as Hon.
    { split; intros; cbn; [by rewrite lookup_insert_ne|by rewrite lookup_delete_ne|done]. }
    assert (v_files vr !! key a = v_files v0 !! key a) as Hfile by (cbn; by rewrite lookup_insert_eq).
    assert (untouched vr a) as Hu by (split; [exact Hfile|cbn; apply lookup_delete_eq]).
    by eapply rollback_inv_step; [exact E|exact Hi|exact Hon|right|]. }
  eapply (steps_replaces root job); [by apply pc_put_back|done|..].
  - intros v' Hv'%Hput. split; [done|apply Hv'].
  - intros v' [->|[->|Hv'%Hput]]; [done| |apply Hv'].
    eapply revertible_only; [exact E'|apply delete_only|exact Hrev|left]. intros _. cbn. by rewrite H0f.
Qed.

Lemma rollback_entry_spec done a rest w :
  committable -> rev (entries h) = done ++ a :: rest -> rollback_inv done (view w) ->
  steps root job (rollback_entry h a) (rollback_inv (done ++ [a])) revertible w.
Proof.
  intros Hco E Hi. pose proof (proj1 Hi) as Hrev. unfold rollback_entry.
  assert (entries h = rev rest ++ a :: rev done) as E'.
  { rewrite <- (rev_involutive (entries h)), E, rev_app_distr. cbn. by rewrite <- app_assoc. }
  assert (a ∈ entries h) as Hin by (rewrite E', elem_of_app; right; by left).
  pose proof (co_original Hco a Hin) as Ho.
  assert (kept (view w) a \/ untouched (view w) a) as Hst by (by apply (proj2 Hrev)).
  (* the view does not change before the branches *)
  assert (forall b w1, view w1 = view w ->
            b = bool_decide (is_Some (original a))
                && bool_decide (is_Some (v_backup (view w) !! transaction_index a)) ->
            steps root job
              (if (b : bool) then
                 if uses_atomic_replacement then
                   run_mutation "AtomicRestoreBackup" (Some (je_path a))
                     (done ← atomic_restore_backup root job (transaction_index a) (je_path a);
                      lift (ensure done TransactionState
                              "atomic rollback platform refused its operation"))
                 else
                   found ← target_exists root (je_path a);
                   _ ← (if (found : bool)
                        then run_mutation "DeleteTarget" (Some (je_path a))
                               (delete_target root (je_path a))
                        else pure tt);
                   run_mutation "RestoreBackup" (Some (je_path a))
                     (restore_backup root job (transaction_index a) (je_path a))
               else if bool_decide (original a = None) then
                 found ← target_exists root (je_path a);
                 if (found : bool)
                 then run_mutation "DeleteTarget" (Some (je_path a))
                        (delete_target root (je_path a))
                 else pure tt
               else pure tt) (rollback_inv (done ++ [a])) revertible w1) as Hbranch.
  { intros b w1 Ev Hb. rewrite <- Ev in Hi, Hrev, Hst, Hb. destruct b.
    - symmetry in Hb. bool_inv.
      match goal with H : is_Some (v_backup _ !! _) |- _ => destruct H as [f Hf] end.
      assert (v_files v0 !! key a = Some f) as H0f
        by (destruct Hst as [Hk|[_ Hu]]; [by rewrite <- Hk|congruence]).
      destruct uses_atomic_replacement eqn:Hmode; [by eapply put_back_step|by eapply restore_step].
    - destruct (original a) as [snapshot|] eqn:Eo; cbn [is_Some] in Hb.
      + rewrite bool_decide_false by done. apply steps_pure.
        rewrite bool_decide_true in Hb by (by eexists). symmetry in Hb. cbn [andb] in Hb. bool_inv.
        assert (v_backup (view w1) !! transaction_index a = None) as Hn
          by (by apply eq_None_not_Some).
        assert (untouched (view w1) a) as Hu.
        { destruct Hst as [Hk|Hu]; [exfalso|done]. rewrite Hk in Hn by (rewrite Eo; by eexists).
          rewrite Hn in Ho. done. }
        by eapply rollback_inv_step; [exact E|exact Hi|reflexivity|right|apply Hu].
      + rewrite bool_decide_true by done.
        eapply (steps_reads root job); [apply target_exists_reads|done|].
        intros found w2 _ Ev2 Hfound. rewrite <- Ev2 in Hi, Hrev, Hfound.
        assert (forall v', only a (view w2) v' -> v_files v' !! key a = None ->
                  rollback_inv (done ++ [a]) v') as Hend.
        { intros v' Hon Hv'. eapply rollback_inv_step; [exact E|exact Hi|exact Hon|left|].
          - intros [? ?]. congruence.
          - unfold reverted. rewrite Hv'. by destruct (v_files v0 !! key a). }
        destruct found.
        * apply delete_step; [done|]. intros v' ->.
          assert (rollback_inv (done ++ [a])
            (mkView (delete (key a) (v_files (view w2))) (v_backup (view w2)) (v_prepared (view w2))))
            as Hinv by (apply Hend; [apply delete_only|cbn; apply lookup_delete_eq]).
          split; [exact Hinv|apply Hinv].
        * apply steps_pure, Hend; [reflexivity|]. symmetry in Hfound. bool_inv.
          by apply eq_None_not_Some. }
  case_bool_decide as Hs.
  - eapply (steps_reads root job); [apply pc_backup_exists|done|].
    intros b w1 _ Ev Hb. apply Hbranch; [done|]. exact Hb.
  - apply (steps_bind _ _ _ _ (fun b v => b = false /\ v = view w)); [by apply wp_pure; split; [reflexivity|]|].
    intros b w1 _ [-> Ev]. apply (Hbranch false); [done|]. done.
Qed.

(** Rolling back from any revertible state restores every target. *)
Lemma rollback_entries_spec w :
  committable -> revertible (view w) ->
  steps root job (rollback_entries h) (fun v => all_old v /\ revertible v) revertible w.
Proof.
  intros Hco Hr. unfold rollback_entries.
  eapply (steps_reads root job); [apply pc_identity|done|]. intros _ w1 _ Ev _.
  rewrite <- Ev in Hr.
  eapply steps_mono; [apply (steps_for_each _ _ _ rollback_inv revertible)| |done].
  - split; [done|]. intros e He. by apply not_elem_of_nil in He.
  - intros done a rest w' E Hi. by eapply rollback_entry_spec.
  - intros v [Hrv Hd]. split; [|done]. destruct Hrv as [Hout _]. apply map_eq. intros k.
    destruct (decide (Exists (fun e => key e = k) (entries h))) as [Hex|Hex].
    + apply Exists_exists in Hex as (e & He & <-). apply Hd.
      rewrite list_elem_of_In, <- in_rev. by apply list_elem_of_In.
    + apply Hout. intros e He <-. apply Hex, Exists_exists. eauto.
Qed.
End files.
