(* ===== verification/Recovery.v ===== *)
(** * Commit and recovery

    [commit_file_set] and [recover_incomplete] (src/src/transaction.rs) against
    the contract of a platform: the states a job can be left in, that every step
    stays in them, and that recovery ends with all files old or all files new. *)

From S2P Require Import Prelude Errors Effects Identifiers Json Trust FileSet Roots Journal.
From S2P Require Import Storage Transaction LocalPlatform Contract Atomicity.

(** ** Appending to the journal *)

(** The bytes of the journal of a job. *)
Definition journal_of (job : string) (w : World) : option (list byte) :=
  d ← w_jobs w !! job; jd_journal d.

(** [w'] is [w] after the journal of the job became [b]. *)
Record journal_is (job : string) (b : list byte) (w w' : World) : Prop := {
  ji_roots : w_roots w' = w_roots w;
  ji_jobs j : j <> job -> w_jobs w' !! j = w_jobs w !! j;
  ji_journal : journal_of job w' = Some b;
  ji_fates : w_journal_fates w' = tail (w_journal_fates w);
}.

Section append.
Context `{SerdeJsonLaws}.

(** An append adds the whole record, or a prefix of it. *)
Lemma append_state_spec job s b w :
  journal_of job w = Some b ->
  wp (append_state job s)
    (fun _ w' => journal_is job (b ++ state_bytes s) w w')
    (fun _ w' => exists k n, journal_is job (b ++ take k (state_bytes s)) w w'
                   /\ head (w_journal_fates w) = Some (Fails n))
    (fun w' => exists k, journal_is job (b ++ take k (state_bytes s)) w w') w.
Proof.
  intros Hj. unfold append_state. rewrite state_line_bytes. apply wp_bind, wp_pure.
  unfold journal_of in Hj. destruct (w_jobs w !! job) as [d|] eqn:Hd; [|done]. cbn in Hj.
  assert (forall k, journal_is job (b ++ take k (state_bytes s)) w
    (set_jobs (set_journal_fates w (tail (w_journal_fates w)))
      (<[job := {| jd_journal := Some (b ++ take k (state_bytes s));
                   jd_payload := jd_payload d |}]> (w_jobs w)))) as Hk.
  { intros k. split; cbn; [done| | |done].
    - intros j Hne. by rewrite lookup_insert_ne.
    - unfold journal_of. cbn. by rewrite lookup_insert_eq. }
  revert Hk. generalize (state_bytes s). intros x Hk.
  unfold wp, journal_append. rewrite Hd. cbn. rewrite Hj. cbn.
  destruct (w_journal_fates w) as [|[|n|k|] fates] eqn:Ef; cbn.
  1,2: pose proof (Hk (length x)) as Hf; by rewrite firstn_all in Hf |- *.
  - exists n, n. split; [apply Hk|done].
  - exists k. apply Hk.
  - exists (length x). apply Hk.
Qed.
End append.

(** A cut record: a part of its text, or all of it. *)
Lemma take_state_bytes s k :
  (exists n, (n <= length (state_text s))%nat /\ take k (state_bytes s) = take n (state_text s))
  \/ take k (state_bytes s) = state_bytes s.
Proof.
  unfold state_bytes. destruct (decide (k <= length (state_text s))%nat) as [Hle|Hgt].
  - left. exists k. by rewrite take_app_le.
  - right. rewrite take_ge; [done|]. rewrite length_app. change (length [newline]) with 1%nat. lia.
Qed.

(** No operation on the journal fails right after another one failed. *)
Definition no_repeated_failure (fates : list Fate) : Prop :=
  forall i n m, fates !! i = Some (Fails n) -> fates !! S i <> Some (Fails m).

Lemma no_repeated_failure_tail fates :
  no_repeated_failure fates -> no_repeated_failure (tail fates).
Proof. destruct fates as [|f fates]; [done|]. intros Hn i. apply (Hn (S i)). Qed.

(** ** The states of a job *)

Section states.
Context `{SerdeJsonLaws, UnicodeCase, Crypto, TransactionPlatform, !FileNames, !FileNamesLaws}.
Context `{!Reader JournalHeader, !Reader JournalStateRecord}.
Context `{!ReaderLaws JournalHeader, !ReaderLaws JournalStateRecord}.
Context (h : JournalHeader) (hb : list byte) (Hh : header_text h hb).
#[local] Abbreviation root := (jh_root h).
#[local] Abbreviation job := (jh_job_id h).
#[local] Abbreviation view := (view root job).
Context `{!PlatformContract root job}.

(** The world and the view when the commit starts. *)
Context (W0 : World).
#[local] Abbreviation v0 := (view W0).
#[local] Abbreviation all_old := (all_old v0).
#[local] Abbreviation all_new := (all_new h v0).
#[local] Abbreviation reads_as := (reads_as h).

(** The snapshots were those of the commit's start, and every entry can be
    taken back. *)
Definition undoable (v : JobView) : Prop := committable h v0 /\ revertible h v0 v.

Lemma header_is_wf : header_wf h.
Proof. apply validate_journal_header_iff, Hh. Qed.

(** What a journal [b] allows the files to be: [old] tells that the job may
    still be undone, [new] that it may be complete. *)
Inductive Standing (old new : Prop) (b : list byte) (v : JobView) : Prop :=
  | st_prepared : reads_as Prepared b -> all_old v -> old -> Standing old new b v
  | st_committing g : b = journal_bytes hb [Prepared; Committing] ++ g -> garbage g ->
      undoable v -> old -> Standing old new b v
  | st_committing_text : b = journal_bytes hb [Prepared] ++ state_text Committing ->
      all_old v -> undoable v -> old -> Standing old new b v
  | st_rolling : reads_as RollingBack b -> undoable v -> old -> Standing old new b v
  | st_committed : reads_as Committed b -> all_new v -> new -> Standing old new b v.

Definition settled (old new : Prop) (v : JobView) : Prop :=
  (old /\ all_old v) \/ (new /\ all_new v).

(** Nothing but the job and its root changes. *)
Record bystanders (w : World) : Prop := {
  by_jobs j : is_Some (w_jobs w !! j) -> j = job;
  by_roots cp : cp <> canonical_path root -> w_roots w !! cp = w_roots W0 !! cp;
}.

Definition Inv (old new : Prop) (w : World) : Prop :=
  bystanders w /\
  match journal_of job w with
  | Some b => Standing old new b (view w)
  | None => settled old new (view w)
  end.

Lemma Standing_mono (old new old' new' : Prop) b v :
  (old -> old') -> (new -> new') -> Standing old new b v -> Standing old' new' b v.
Proof.
  intros Ho Hn []; [apply st_prepared|eapply st_committing|apply st_committing_text
    |apply st_rolling|apply st_committed]; eauto.
Qed.

Lemma Inv_mono (old new old' new' : Prop) w :
  (old -> old') -> (new -> new') -> Inv old new w -> Inv old' new' w.
Proof.
  intros Ho Hn [Hb Hw]. split; [done|]. destruct (journal_of job w).
  - by eapply Standing_mono.
  - destruct Hw as [[? ?]|[? ?]]; [left|right]; split; eauto.
Qed.

(** *** Frames *)

Lemma frame_bystanders w w' : frame root w w' -> bystanders w -> bystanders w'.
Proof.
  intros (Hj & _ & Hr) [B1 B2]. split; [by rewrite Hj|].
  intros cp Hcp. by rewrite Hr, B2.
Qed.

Lemma frame_journal w w' : frame root w w' -> journal_of job w' = journal_of job w.
Proof. intros (Hj & _ & _). unfold journal_of. by rewrite Hj. Qed.

Lemma frame_view_Inv old new w w' :
  frame root w w' -> view w' = view w -> Inv old new w -> Inv old new w'.
Proof.
  intros Hf Hv [Hb Hw]. split; [by eapply frame_bystanders|].
  by rewrite (frame_journal w w'), Hv.
Qed.

Lemma view_roots w w' : w_roots w' = w_roots w -> view w' = view w.
Proof. intros E. unfold Contract.view. by rewrite E. Qed.

Lemma journal_is_view b w w' : journal_is job b w w' -> view w' = view w.
Proof. intros []. by apply view_roots. Qed.

Lemma journal_is_bystanders b w w' :
  journal_is job b w w' -> bystanders w -> bystanders w'.
Proof.
  intros [Hr Hj _ _] [B1 B2]. split.
  - intros j Hs. destruct (decide (j = job)) as [|Hne]; [done|]. apply B1. by rewrite <- Hj.
  - intros cp Hcp. by rewrite Hr, B2.
Qed.

Lemma journal_is_Inv old new b w w' :
  journal_is job b w w' -> bystanders w -> Standing old new b (view w) -> Inv old new w'.
Proof.
  intros Hji Hb Hs. split; [by eapply journal_is_bystanders|].
  by rewrite (ji_journal _ _ _ _ Hji), (journal_is_view _ _ _ Hji).
Qed.

(** *** Journals after an append *)

Lemma reads_as_dead s b : (exists e, read_journal b = Err e) -> reads_as s b.
Proof. intros [e E] r Hr. congruence. Qed.

Lemma reads_as_complete ss s :
  replay None ss = Ok (Some s) -> reads_as s (journal_bytes hb ss).
Proof.
  intros Hr. rewrite <- (app_nil_r (journal_bytes hb ss)).
  by eapply reads_as_garbage; [exact Hh| |apply garbage_nil].
Qed.

(** A record after ignored bytes. *)
Lemma reads_as_append ss s s' g :
  replay None (ss ++ [s]) = Ok (Some s) -> garbage g ->
  reads_as s (journal_bytes hb ss ++ g ++ state_bytes s)
  /\ (g <> [] -> reads_as s' (journal_bytes hb ss ++ g ++ state_bytes s)).
Proof.
  intros Hr [Hn _]. assert (g <> [] -> exists e,
    read_journal (journal_bytes hb ss ++ g ++ state_bytes s) = Err e) as Hdead.
  { intros Hne. rewrite <- (app_nil_r (g ++ state_bytes s)), <- app_assoc.
    by eapply append_unreadable. }
  split; [|intros Hne; by apply reads_as_dead, Hdead].
  destruct g as [|c g]; [|by apply reads_as_dead, Hdead]. cbn [app].
  rewrite journal_bytes_snoc. by apply reads_as_complete.
Qed.

(** A journal in which a rollback may run. *)
Definition rolling (old new : Prop) (b : list byte) : Prop :=
  forall v, undoable v -> Standing old new b v.

Lemma rolling_full (old new : Prop) g :
  old -> garbage g ->
  rolling old new (journal_bytes hb [Prepared; Committing] ++ g ++ state_bytes RollingBack).
Proof.
  intros Ho Hg v Hv. apply st_rolling; [|done|done].
  by apply (reads_as_append [Prepared; Committing] RollingBack Prepared g).
Qed.

Lemma rolling_cut (old new : Prop) g k :
  old -> garbage g ->
  rolling old new
    (journal_bytes hb [Prepared; Committing] ++ g ++ take k (state_bytes RollingBack)).
Proof.
  intros Ho Hg. destruct (take_state_bytes RollingBack k) as [(n & Hn & ->)| ->];
    [|by apply rolling_full]. intros v Hv.
  destruct (garbage_cut g RollingBack n Hg Hn) as [Hg'|[-> ->]].
  - by apply (st_committing _ _ _ _ (g ++ take n (state_text RollingBack))).
  - apply st_rolling; [|done|done]. by apply reads_as_text.
Qed.

(** The text of [s] without its line break, then a record. *)
Lemma text_then_record ss s s' r :
  reads_as r (journal_bytes hb ss ++ state_text s ++ state_bytes s').
Proof.
  apply reads_as_dead. rewrite <- (app_nil_r (state_text s ++ _)), <- app_assoc.
  eapply append_unreadable; [exact Hh|apply newline_state_text|].
  by destruct s.
Qed.

(** The text of [s] without its line break, then a part of a record's text. *)
Lemma text_then_cut s s' n :
  (0 < n <= length (state_text s'))%nat -> garbage (state_text s ++ take n (state_text s')).
Proof.
  intros Hn. split.
  - rewrite not_elem_of_app. split; [apply newline_state_text|].
    intros Hin. apply (newline_state_text s').
    rewrite <- (take_drop n (state_text s')). apply elem_of_app. by left.
  - intros r. apply brace_not_record; [by destruct s|lia].
Qed.

Lemma committing_text_cut (old new : Prop) k v :
  old -> all_old v -> undoable v ->
  Standing old new
    (journal_bytes hb [Prepared] ++ state_text Committing ++ take k (state_bytes RollingBack)) v.
Proof.
  intros Ho Hold Hrev. destruct (take_state_bytes RollingBack k) as [(n & Hn & ->)| ->].
  - destruct n as [|n].
    + rewrite take_0, app_nil_r. by apply st_committing_text.
    + apply st_prepared; [|done|done].
      eapply reads_as_garbage; [exact Hh|done|apply text_then_cut; lia].
  - apply st_prepared; [|done|done]. apply text_then_record.
Qed.

(** The journal of a prepared job, with the first record of its commit cut. *)
Lemma committing_cut (old new : Prop) k v :
  old -> all_old v -> undoable v ->
  Standing old new (journal_bytes hb [Prepared] ++ take k (state_bytes Committing)) v.
Proof.
  intros Ho Hold Hrev. destruct (take_state_bytes Committing k) as [(n & Hn & ->)| ->].
  - destruct (garbage_cut [] Committing n garbage_nil Hn) as [Hg|[_ ->]]; cbn [app] in *.
    + apply st_prepared; [|done|done]. by eapply reads_as_garbage.
    + by apply st_committing_text.
  - rewrite journal_bytes_snoc. apply (st_committing _ _ _ _ []);
      [by rewrite app_nil_r|apply garbage_nil|done|done].
Qed.

(** The last record of a commit cut: complete or not, what it says is true. *)
Lemma committed_cut (old new : Prop) k v :
  old -> new -> all_new v -> undoable v ->
  Standing old new (journal_bytes hb [Prepared; Committing] ++ take k (state_bytes Committed)) v.
Proof.
  intros Ho Hn Hnew Hrev. destruct (take_state_bytes Committed k) as [(n & Hle & ->)| ->].
  - destruct (garbage_cut [] Committed n garbage_nil Hle) as [Hg|[_ ->]]; cbn [app] in *.
    + by eapply st_committing.
    + apply st_committed; [|done|done]. by apply reads_as_text.
  - rewrite journal_bytes_snoc. apply st_committed; [|done|done]. by apply reads_as_complete.
Qed.

(** The rollback record after a cut last record is never read as a commit. *)
Lemma rolling_after_committed (old new : Prop) k :
  old ->
  rolling old new (journal_bytes hb [Prepared; Committing] ++ take k (state_bytes Committed)
                     ++ state_bytes RollingBack).
Proof.
  intros Ho. destruct (take_state_bytes Committed k) as [(n & Hle & ->)| ->].
  - destruct (garbage_cut [] Committed n garbage_nil Hle) as [Hg|[_ ->]]; cbn [app] in *.
    + by apply rolling_full.
    + intros v Hv. apply st_rolling; [|done|done]. apply text_then_record.
  - intros v Hv. apply st_rolling; [|done|done]. apply reads_as_dead.
    rewrite (app_assoc (journal_bytes _ _)), !journal_bytes_snoc. cbn [app].
    destruct (read_journal _) as [r|e] eqn:E; [exfalso|by eexists].
    apply read_journal_bound in E as Hl. by rewrite (read_journal_replay h) in E.
Qed.

Lemma rolling_cut_after_committed (old new : Prop) k k' v :
  old -> new -> all_new v -> undoable v ->
  Standing old new
    (journal_bytes hb [Prepared; Committing] ++ take k (state_bytes Committed)
       ++ take k' (state_bytes RollingBack)) v.
Proof.
  intros Ho Hn Hnew Hrev.
  destruct (take_state_bytes Committed k) as [(m & Hle' & ->)| ->].
  - destruct (garbage_cut [] Committed m garbage_nil Hle') as [Hg|[_ ->]]; cbn [app] in *;
      [by apply rolling_cut|].
    destruct (take_state_bytes RollingBack k') as [([|n] & Hle & ->)| ->].
    + rewrite take_0, app_nil_r. apply st_committed; [|done|done]. by apply reads_as_text.
    + eapply st_committing; [reflexivity|apply text_then_cut; lia|done|done].
    + apply st_rolling; [|done|done]. apply text_then_record.
  - destruct (take_state_bytes RollingBack k') as [(n & Hle & ->)| ->].
    + rewrite app_assoc, journal_bytes_snoc. cbn [app].
      destruct (garbage_cut [] RollingBack n garbage_nil Hle) as [Hg|[_ ->]]; cbn [app] in *.
      * apply st_committed; [|done|done]. by eapply reads_as_garbage.
      * apply st_rolling; [|done|done]. by apply reads_as_text.
    + pose proof (rolling_after_committed old new (length (state_bytes Committed)) Ho) as Hr.
      rewrite firstn_all in Hr. by apply Hr.
Qed.

(** *** Cleaning up *)

(** A cleanup changes no target and only loses backups. *)
Definition shrinks (v v' : JobView) : Prop :=
  v_files v' = v_files v /\ v_backup v' ⊆ v_backup v.

Lemma undoable_shrinks v v' :
  all_old v -> undoable v -> shrinks v v' -> undoable v'.
Proof.
  intros Hold (Hco & Hout & Hr) [Ef Hb]. split; [done|].
  split; [intros k; rewrite Ef; apply Hout|].
  intros e He. destruct (v_backup v' !! transaction_index e) as [f|] eqn:Eb.
  - left. destruct (Hr e He) as [Hk|[_ Hn]].
    + intros Hs. rewrite <- (Hk Hs), Eb. symmetry. by eapply lookup_weaken.
    + eapply lookup_weaken in Hb; [|exact Eb]. congruence.
  - right. split; [by rewrite Ef, Hold|done].
Qed.

Lemma Standing_shrinks (old new : Prop) b v v' :
  (all_old v \/ (new /\ all_new v /\ reads_as Committed b)) ->
  Standing old new b v -> shrinks v v' -> Standing old new b v'.
Proof.
  intros Hs Hst Hsh. pose proof Hsh as [Ef _].
  assert (all_old v -> all_old v') as Hold by (unfold Atomicity.all_old; congruence).
  assert (all_new v -> all_new v') as Hnew.
  { intros [Hout Happ]. split; [intros k; rewrite Ef; apply Hout|].
    intros e He. destruct (Happ e He) as [E1 E2]. split; [by rewrite Ef|done]. }
  destruct Hs as [Hs|(? & ? & ?)]; [|by apply st_committed; auto].
  destruct Hst; [apply st_prepared|eapply st_committing|apply st_committing_text
    |apply st_rolling|apply st_committed]; eauto using undoable_shrinks.
Qed.

Lemma settled_shrinks old new v v' : settled old new v -> shrinks v v' -> settled old new v'.
Proof.
  intros [[Ho Hv]|[Hn [Hout Happ]]] [Ef _]; [left|right]; (split; [done|]).
  - unfold Atomicity.all_old in *. congruence.
  - split; [intros k; rewrite Ef; apply Hout|].
    intros e He. destruct (Happ e He) as [E1 E2]. split; [by rewrite Ef|done].
Qed.

(** The files are all old or all new and what is left of the job agrees. *)
Definition closing (old new : Prop) (w : World) : Prop :=
  Inv old new w /\ settled old new (view w)
  /\ (all_old (view w)
      \/ forall b, journal_of job w = Some b -> new /\ all_new (view w) /\ reads_as Committed b).

Definition closed (old new : Prop) (w : World) : Prop :=
  bystanders w /\ w_jobs w !! job = None /\ settled old new (view w).

Lemma closed_Inv old new w : closed old new w -> Inv old new w.
Proof.
  intros (Hb & Hn & Hs). split; [done|]. unfold journal_of. by rewrite Hn.
Qed.

Lemma closed_no_jobs old new w : closed old new w -> w_jobs w = ∅.
Proof.
  intros ([Hb _] & Hn & _). apply map_eq. intros j. rewrite lookup_empty.
  destruct (w_jobs w !! j) eqn:E; [|done]. rewrite (Hb j) in E by done. congruence.
Qed.

Lemma cleanup_bystanders w w' :
  cleanup_frame root job w w' -> private_left job w w' -> bystanders w -> bystanders w'.
Proof.
  intros (_ & _ & _ & Hr) Hp [B1 B2]. split.
  - intros j Hs. destruct (decide (j = job)) as [|Hne]; [done|]. apply B1.
    destruct Hp as [E|d _ E|E]; rewrite E in Hs; [done| |].
    + by rewrite lookup_insert_ne in Hs.
    + by rewrite lookup_delete_ne in Hs.
  - intros cp Hcp. by rewrite Hr, B2.
Qed.

Lemma cleanup_Inv old new w w' :
  closing old new w -> cleanup_frame root job w w' -> private_left job w w' -> Inv old new w'.
Proof.
  intros ([Hb Hw] & Hs & Hc) Hf Hp. split; [by eapply cleanup_bystanders|].
  destruct Hf as (Ef & Hsub & _ & _).
  assert (shrinks (view w) (view w')) as Hsh by by split.
  assert (settled old new (view w')) as Hs' by (by eapply settled_shrinks).
  unfold journal_of in *. destruct Hp as [E|d Hd E|E]; rewrite E.
  - destruct (w_jobs w !! job ≫= jd_journal) as [b|] eqn:Ej; [|done].
    eapply Standing_shrinks; [|exact Hw|done]. destruct Hc as [Hc|Hc]; [by left|right; by apply Hc].
  - by rewrite lookup_insert_eq.
  - by rewrite lookup_delete_eq.
Qed.

Lemma cleanup_closed old new w w' :
  closing old new w -> cleanup_frame root job w w' -> w_jobs w' = delete job (w_jobs w) ->
  closed old new w'.
Proof.
  intros ([Hb _] & Hs & _) Hf Hj. split_and!.
  - eapply cleanup_bystanders; [exact Hf| |done]. by apply left_nothing.
  - by rewrite Hj, lookup_delete_eq.
  - destruct Hf as (E1 & E2 & _). eapply settled_shrinks; [exact Hs|]. by split.
Qed.

(** Checkpoints change nothing. *)
Lemma checkpoint_spec e (P : World -> Prop) w :
  P w -> (forall w1 w2, frame root w1 w2 -> view w2 = view w1 -> P w1 -> P w2) ->
  wp (checkpoint e) (fun _ => P) (fun _ => P) P w.
Proof.
  intros Hp Hst. eapply wp_mono; [exact (pc_checkpoint e w)|..]; cbn; naive_solver.
Qed.

Lemma frame_view_closing old new w w' :
  frame root w w' -> view w' = view w -> closing old new w -> closing old new w'.
Proof.
  intros Hf Hv (Hi & Hs & Hc). unfold closing. rewrite Hv, (frame_journal w w') by done.
  split; [by eapply frame_view_Inv|done].
Qed.

Lemma frame_view_closed old new w w' :
  frame root w w' -> view w' = view w -> closed old new w -> closed old new w'.
Proof.
  intros Hf Hv (Hb & Hn & Hs). unfold closed. rewrite Hv.
  split; [by eapply frame_bystanders|]. destruct Hf as (-> & _). done.
Qed.

Lemma cleanup_spec old new w :
  closing old new w ->
  wp (cleanup_prepared_job h) (fun _ => closed old new) (fun _ => Inv old new) (Inv old new) w.
Proof.
  intros Hc. unfold cleanup_prepared_job, run_mutation. apply wp_bind.
  eapply wp_mono; [apply (checkpoint_spec _ (closing old new)); [done|]|..].
  { intros w1 w2. apply frame_view_closing. }
  2-3: cbv beta; intros; by match goal with Hcl : closing _ _ _ |- _ => apply Hcl end.
  cbv beta. intros _ w1 Hc1. apply wp_bind. eapply wp_mono; [apply pc_cleanup|..]; cbn.
  2-3: intros; destruct_and?; by eapply cleanup_Inv.
  intros _ w2 (Hf & Hj).
  assert (closed old new w2) as Hcl by by eapply cleanup_closed.
  eapply wp_mono; [apply (checkpoint_spec _ (closed old new)); [done|]|..].
  { intros w3 w4. apply frame_view_closed. }
  all: cbv beta; intros; by try apply closed_Inv.
Qed.

(** *** Rolling back *)

(** A world in which a rollback may run. *)
Definition rolling_world (old : Prop) (w : World) : Prop :=
  bystanders w /\ undoable (view w)
  /\ exists b, journal_of job w = Some b /\ rolling old False b.

Lemma rolling_world_Inv old w : rolling_world old w -> Inv old False w.
Proof. intros (Hb & Hr & b & Hj & Hroll). split; [done|]. rewrite Hj. by apply Hroll. Qed.

Lemma rollback_spec (old : Prop) w :
  old -> rolling_world old w ->
  wp (rollback_entries h) (fun _ => closing old False) (fun _ => Inv old False)
    (Inv old False) w.
Proof.
  intros Ho (Hb & Hr & b & Hj & Hroll). pose proof Hr as [Hco Hrv].
  assert (forall w', frame root w w' -> undoable (view w') -> Inv old False w') as Hinv.
  { intros w' Hf Hrev. apply rolling_world_Inv. split; [by eapply frame_bystanders|].
    split; [done|]. exists b. by rewrite (frame_journal w w'). }
  eapply wp_mono; [exact (rollback_entries_spec h header_is_wf v0 w Hco Hrv)|..]; cbv beta.
  - intros _ w' (Hf & Hold & Hrev). split; [by apply Hinv|].
    split; [by left|by left].
  - intros _ w' [Hf Hrev]. by apply Hinv.
  - intros w' [Hf Hrev]. by apply Hinv.
Qed.

Lemma rollback_cleanup_spec (old : Prop) w :
  old -> rolling_world old w ->
  wp (_ ← rollback_entries h; cleanup_prepared_job h)
    (fun _ => closed old False) (fun _ => Inv old False) (Inv old False) w.
Proof.
  intros Ho Hw. apply wp_bind.
  eapply wp_mono; [by apply (rollback_spec old)| |done|done].
  cbv beta. intros _ w1. apply cleanup_spec.
Qed.

(** *** Committing *)

(** After the rollback record, whatever became of it. *)
Lemma roll_back_commit_spec detail w :
  wp (append_state job RollingBack) (fun _ => rolling_world True)
    (fun _ => rolling_world True) (Inv True True) w ->
  wp (roll_back_commit h detail) (fun _ => closed True False) (fun _ => Inv True False)
    (Inv True True) w.
Proof.
  intros Happ. unfold roll_back_commit. apply wp_bind, wp_attempt.
  assert (forall w', Inv True False w' -> Inv True True w') as Hm
    by (intros w'; by apply Inv_mono).
  assert (forall w', rolling_world True w' ->
    wp (rolled_back ← attempt (rollback_entries h);
        match rolled_back with
        | Err _ => fail (new_error RecoveryIncomplete detail)
        | Ok _ =>
            cleaned ← attempt (cleanup_prepared_job h);
            match cleaned with
            | Err _ => fail (new_error RecoveryIncomplete detail)
            | Ok _ => pure tt
            end
        end) (fun _ => closed True False) (fun _ => Inv True False) (Inv True True) w') as Hrest.
  { intros w1 Hw1. apply wp_bind, wp_attempt.
    eapply wp_mono; [by apply (rollback_spec True)|..]; cbv beta; [|done|auto].
    intros [] w2 Hc. apply wp_bind, wp_attempt.
    eapply wp_mono; [apply (cleanup_spec True False _ Hc)|..]; cbv beta; [|done|auto].
    by intros [] w3 Hw3. }
  eapply wp_mono; [exact Happ|..]; cbv beta; eauto.
Qed.

Lemma rolling_world_append old b w w' :
  journal_is job b w w' -> bystanders w -> undoable (view w) -> rolling old False b ->
  rolling_world old w'.
Proof.
  intros Hji Hb Hr Hroll. split; [by eapply journal_is_bystanders|].
  rewrite (journal_is_view _ _ _ Hji). split; [done|].
  exists b. split; [apply Hji|done].
Qed.

(** The rollback of a commit whose changes failed. *)
Lemma append_rolling_after_apply w :
  bystanders w -> undoable (view w) ->
  journal_of job w = Some (journal_bytes hb [Prepared; Committing]) ->
  wp (append_state job RollingBack) (fun _ => rolling_world True)
    (fun _ => rolling_world True) (Inv True True) w.
Proof.
  intros Hb Hr Hj. eapply wp_mono; [by apply append_state_spec|..]; cbv beta.
  - intros _ w' Hji. eapply rolling_world_append; [exact Hji|done..|].
    apply (rolling_full True False []); [done|apply garbage_nil].
  - intros _ w' (k & n & Hji & _). eapply rolling_world_append; [exact Hji|done..|].
    apply (rolling_cut True False []); [done|apply garbage_nil].
  - intros w' (k & Hji). eapply journal_is_Inv; [exact Hji|done|].
    apply (rolling_cut True True [] k); [done|apply garbage_nil|done].
Qed.

(** The rollback of a commit whose last record failed. *)
Lemma append_rolling_after_committed k w :
  bystanders w -> all_new (view w) -> undoable (view w) ->
  (forall n, head (w_journal_fates w) <> Some (Fails n)) ->
  journal_of job w =
    Some (journal_bytes hb [Prepared; Committing] ++ take k (state_bytes Committed)) ->
  wp (append_state job RollingBack) (fun _ => rolling_world True)
    (fun _ => rolling_world True) (Inv True True) w.
Proof.
  intros Hb Hnew Hr Hfates Hj. eapply wp_mono; [by apply append_state_spec|..]; cbv beta.
  - intros _ w' Hji. eapply rolling_world_append; [exact Hji|done..|].
    rewrite <- app_assoc. by apply rolling_after_committed.
  - intros _ w' (k' & n & _ & Hf). by destruct (Hfates n).
  - intros w' (k' & Hji). eapply journal_is_Inv; [exact Hji|done|].
    rewrite <- app_assoc. by apply rolling_cut_after_committed.
Qed.

(** A query of the platform changes nothing. *)
Definition quiet (w w' : World) : Prop := frame root w w' /\ view w' = view w.

Lemma quiet_trans w1 w2 w3 : quiet w1 w2 -> quiet w2 w3 -> quiet w1 w3.
Proof. intros [F1 V1] [F2 V2]. split; [by etransitivity|congruence]. Qed.

Lemma reads_spec {A} (m : M World A) (Q : A -> JobView -> Prop) w :
  reads root job m Q ->
  wp m (fun a w' => quiet w w' /\ Q a (view w)) (fun _ => quiet w) (quiet w) w.
Proof. intros Hm. eapply wp_mono; [exact (Hm w)|..]; unfold quiet; naive_solver. Qed.

Lemma verify_original_snapshots_spec w :
  wp (verify_original_snapshots h)
    (fun _ w' => quiet w w' /\ forall e, e ∈ entries h ->
                   f_snapshot <$> v_files (view w) !! key e = original e)
    (fun _ => quiet w) (quiet w) w.
Proof.
  apply (wp_for_each _ (fun done w' => quiet w w' /\ forall e, e ∈ done ->
                          f_snapshot <$> v_files (view w) !! key e = original e)).
  - split; [by split|]. intros e He. by apply not_elem_of_nil in He.
  - intros done e rest w1 _ [Hq Hd]. apply wp_bind.
    eapply wp_mono; [apply reads_spec, (pc_inspect (je_path e))|..]; cbv beta.
    2-3: intros; by eapply quiet_trans.
    intros t w2 [Hq' ->]. apply wp_lift.
    + intros [] Hok. apply ensure_Ok, bool_decide_eq_true in Hok.
      split; [by eapply quiet_trans|].
      intros e' [He'|He'%list_elem_of_singleton]%elem_of_app; [by apply Hd|]. subst e'.
      rewrite <- Hok. by destruct Hq as [_ <-].
    + intros _ _. by eapply quiet_trans.
Qed.

(** The world a commit starts in: the job is prepared, no backup exists. *)
Record ready : Prop := {
  re_bystanders : bystanders W0;
  re_journal : journal_of job W0 = Some (journal_bytes hb [Prepared]);
  re_backup : v_backup v0 = ∅;
  re_indices : uses_atomic_replacement = true -> forall e, e ∈ entries h ->
    action e = Replace -> prepared_index e = Some (transaction_index e);
  re_fates : no_repeated_failure (w_journal_fates W0);
}.

Lemma quiet_Inv old new w w' : quiet w w' -> Inv old new w -> Inv old new w'.
Proof. intros [Hf Hv]. by apply frame_view_Inv. Qed.

Lemma undoable_start : v_backup v0 = ∅ -> committable h v0 -> undoable v0.
Proof.
  intros Hb Hco. split; [done|]. split; [done|]. intros e He. right. split; [done|]. by rewrite Hb, lookup_empty.
Qed.

Lemma ready_Inv : ready -> Inv True False W0.
Proof.
  intros [Hb Hj _ _ _]. split; [done|]. rewrite Hj. apply st_prepared; [|done|done].
  by apply reads_as_complete.
Qed.

(** The end of a commit, once every entry is applied. *)
Definition seal_commit : M World CommitResult :=
  committed ← attempt (append_state job Committed);
  match committed with
  | Err _ =>
      _ ← roll_back_commit h "journal commit failed and rollback must be resumed by recovery";
      fail (new_error TransactionIo "committed journal state could not be persisted")
  | Ok _ =>
      cleaned ← attempt (cleanup_prepared_job h);
      pure {| cr_job_id := job; cr_generation := jh_generation h;
              cleanup_pending := is_err cleaned |}
  end.

(** Rolling back never ends in success. *)
Lemma roll_back_fail_spec {A} detail e (Q : A -> World -> Prop) w :
  wp (append_state job RollingBack) (fun _ => rolling_world True)
    (fun _ => rolling_world True) (Inv True True) w ->
  wp (_ ← roll_back_commit h detail; fail e) Q (fun _ => Inv True False) (Inv True True) w.
Proof.
  intros Happ. apply wp_bind.
  eapply wp_mono; [by apply (roll_back_commit_spec detail)|..]; cbv beta; [|done|done].
  intros _ w' Hc. by apply closed_Inv.
Qed.

Lemma seal_commit_spec w :
  bystanders w -> all_new (view w) -> undoable (view w) ->
  no_repeated_failure (w_journal_fates w) ->
  journal_of job w = Some (journal_bytes hb [Prepared; Committing]) ->
  wp seal_commit (fun _ => Inv False True) (fun _ => Inv True False) (Inv True True) w.
Proof.
  intros Hb Hnew Hrev Hfates Hj. apply wp_bind, wp_attempt.
  eapply wp_mono; [by apply append_state_spec|..]; cbv beta.
  - intros [] w1 Hji. apply wp_bind, wp_attempt.
    assert (closing False True w1) as Hc.
    { rewrite journal_bytes_snoc in Hji. cbn [app] in Hji.
      assert (reads_as Committed (journal_bytes hb [Prepared; Committing; Committed])) as Hra
        by by apply reads_as_complete.
      pose proof (journal_is_view _ _ _ Hji) as Hv.
      split; [eapply journal_is_Inv; [exact Hji|done|by apply st_committed]|].
      rewrite Hv. split; [by right|right]. intros b.
      rewrite (ji_journal _ _ _ _ Hji). by intros [= <-]. }
    eapply wp_mono; [by apply (cleanup_spec False True)|..]; cbv beta.
    + intros a w2 Hw2. apply wp_pure. by apply closed_Inv.
    + intros e w2 Hw2. by apply wp_pure.
    + intros w2. by apply Inv_mono.
  - intros e w1 (k & n & Hji & Hf). apply roll_back_fail_spec.
    apply (append_rolling_after_committed k).
    + by eapply journal_is_bystanders.
    + by rewrite (journal_is_view _ _ _ Hji).
    + by rewrite (journal_is_view _ _ _ Hji).
    + intros m. rewrite (ji_fates _ _ _ _ Hji). revert Hfates Hf.
      destruct (w_journal_fates w) as [|f fates]; [done|]. cbn. intros Hfates [= ->].
      specialize (Hfates 0 n m eq_refl). by destruct fates.
    + apply Hji.
  - intros w1 (k & Hji). eapply journal_is_Inv; [exact Hji|done|]. by apply committed_cut.
Qed.

(** From the first record on. *)
Lemma commit_entries_spec w :
  committable h v0 -> bystanders w -> view w = v0 ->
  no_repeated_failure (w_journal_fates w) ->
  journal_of job w = Some (journal_bytes hb [Prepared; Committing]) ->
  wp (applied ← attempt (apply_entries h);
      match applied with
      | Err commit_error =>
          _ ← roll_back_commit h "commit failed and rollback must be resumed by recovery";
          fail commit_error
      | Ok _ => seal_commit
      end) (fun _ => Inv False True) (fun _ => Inv True False) (Inv True True) w.
Proof.
  intros Hco Hb Hv Hfates Hj. apply wp_bind, wp_attempt.
  eapply wp_mono; [exact (apply_entries_spec h header_is_wf v0 w Hco Hv)|..]; cbv beta.
  - intros [] w1 (Hf & Hnew & Hrev). apply seal_commit_spec; try done.
    + by eapply frame_bystanders.
    + by destruct Hf as (_ & -> & _).
    + by rewrite (frame_journal w w1).
  - intros e w1 [Hf Hrev]. apply roll_back_fail_spec.
    apply append_rolling_after_apply; [by eapply frame_bystanders|by split|].
    by rewrite (frame_journal w w1).
  - intros w1 [Hf Hrev]. split; [by eapply frame_bystanders|].
    rewrite (frame_journal w w1), Hj by done.
    apply (st_committing _ _ _ _ []); [by rewrite app_nil_r|apply garbage_nil|by split|done].
Qed.

Lemma commit_file_set_spec :
  ready ->
  wp (commit_file_set h) (fun _ => Inv False True) (fun _ => Inv True False) (Inv True True) W0.
Proof.
  intros Hready. pose proof (ready_Inv Hready) as HI. destruct Hready as [Hb Hj Hbk Hidx Hfates].
  assert (forall w', quiet W0 w' -> Inv True False w') as Hquiet
    by (intros w' Hq; by eapply quiet_Inv).
  assert (forall w', Inv True False w' -> Inv True True w') as Hm
    by (intros w'; by apply Inv_mono).
  apply wp_bind. eapply wp_mono; [apply reads_spec, pc_identity|..]; cbv beta; [|auto..].
  intros _ w1 [Hq1 _]. apply wp_bind.
  eapply wp_mono; [apply verify_original_snapshots_spec|..]; cbv beta.
  2-3: intros; eauto using quiet_trans.
  intros _ w2 [Hq2 Horig]. assert (quiet W0 w2) as Hq by by eapply quiet_trans.
  destruct Hq1 as [_ Ev1]. rewrite Ev1 in Horig.
  assert (committable h v0) as Hco by by split.
  pose proof Hq as [Hf Hv]. pose proof Hf as (_ & Efates & _).
  assert (undoable v0) as Hrev by by apply undoable_start.
  apply wp_bind. eapply wp_mono; [apply append_state_spec|..]; cbv beta.
  { by rewrite (frame_journal W0 w2). }
  - intros _ w3 Hji. apply commit_entries_spec; [done|..].
    + eapply journal_is_bystanders; [exact Hji|]. by eapply frame_bystanders.
    + by rewrite (journal_is_view _ _ _ Hji).
    + rewrite (ji_fates _ _ _ _ Hji), Efates. by apply no_repeated_failure_tail.
    + rewrite (ji_journal _ _ _ _ Hji). by rewrite journal_bytes_snoc.
  - intros _ w3 (k & n & Hji & _). eapply journal_is_Inv; [exact Hji| |].
    + by eapply frame_bystanders.
    + rewrite Hv. by apply committing_cut.
  - intros w3 (k & Hji). eapply journal_is_Inv; [exact Hji| |].
    + by eapply frame_bystanders.
    + rewrite Hv. by apply committing_cut.
Qed.

(** *** Recovering *)

Lemma tx_read_quiet {A} (f : World -> Result A) e w :
  wp (tx_read f e) (fun a w' => quiet w w' /\ w_jobs w' = w_jobs w /\ f w' = Ok a)
    (fun _ => quiet w) (quiet w) w.
Proof.
  unfold wp, tx_read. assert (forall fs, quiet w (set_fates w fs)) as Hq
    by (intros fs; by split).
  destruct (default Works (head (w_fates w))); try apply Hq.
  destruct (f _) eqn:E; [|apply Hq]. by split_and!.
Qed.

(** What a readable journal says about the files. *)
Lemma Standing_read old new b v h' s :
  Standing old new b v -> read_journal b = Ok (h', s) ->
  h' = h /\
  match s with
  | Prepared => old /\ all_old v
  | Committing => old /\ undoable v /\
      ((exists g, b = journal_bytes hb [Prepared; Committing] ++ g /\ garbage g)
       \/ (b = journal_bytes hb [Prepared] ++ state_text Committing /\ all_old v))
  | RollingBack => old /\ undoable v /\ reads_as RollingBack b
  | Committed => new /\ all_new v /\ reads_as Committed b
  end.
Proof.
  intros Hs Hr. destruct Hs as [Hra|g Eb Hg Hrev Ho|Eb Hold Hrev Ho|Hra|Hra].
  - by injection (Hra _ Hr) as -> ->.
  - assert (reads_as Committing b) as Hra by (rewrite Eb; by eapply reads_as_garbage).
    injection (Hra _ Hr) as -> ->. split_and!; eauto.
  - assert (reads_as Committing b) as Hra by (rewrite Eb; by apply reads_as_text).
    injection (Hra _ Hr) as -> ->. split_and!; eauto.
  - by injection (Hra _ Hr) as -> ->.
  - by injection (Hra _ Hr) as -> ->.
Qed.

(** The rollback record written by recovery. *)
Lemma append_rolling_recovery (old : Prop) b w :
  bystanders w -> old -> undoable (view w) -> journal_of job w = Some b ->
  ((exists g, b = journal_bytes hb [Prepared; Committing] ++ g /\ garbage g)
   \/ (b = journal_bytes hb [Prepared] ++ state_text Committing /\ all_old (view w))) ->
  wp (append_state job RollingBack) (fun _ => rolling_world old)
    (fun _ => Inv old False) (Inv old False) w.
Proof.
  intros Hb Ho Hr Hj Hcase.
  assert (forall k, Standing old False (b ++ take k (state_bytes RollingBack)) (view w)) as Hcut.
  { intros k. destruct Hcase as [(g & -> & Hg)|[-> Hold]]; rewrite <- app_assoc.
    - by apply rolling_cut.
    - by apply committing_text_cut. }
  assert (rolling old False (b ++ state_bytes RollingBack)) as Hfull.
  { destruct Hcase as [(g & -> & Hg)|[-> Hold]]; rewrite <- app_assoc.
    - by apply rolling_full.
    - intros v Hv. apply st_rolling; [|done|done]. apply text_then_record. }
  eapply wp_mono; [by apply append_state_spec|..]; cbv beta.
  - intros _ w' Hji. by eapply rolling_world_append.
  - intros _ w' (k & n & Hji & _). by eapply journal_is_Inv.
  - intros w' (k & Hji). by eapply journal_is_Inv.
Qed.

(** What a recovery reports is true. *)
Definition reports (r : RecoveryResult) (w : World) : Prop :=
  (rolled_back_jobs r <> [] -> all_old (view w)) /\
  (committed_jobs r <> [] -> all_new (view w)).

Lemma reports_nothing r w : rolled_back_jobs r = [] -> committed_jobs r = [] -> reports r w.
Proof. intros E1 E2. by split; rewrite ?E1, ?E2. Qed.

Lemma closed_old_False (old : Prop) w : closed old False w -> old /\ all_old (view w).
Proof. by intros (_ & _ & [?|[[] _]]). Qed.
Lemma closed_False_new (new : Prop) w : closed False new w -> new /\ all_new (view w).
Proof. by intros (_ & _ & [[[] _]|?]). Qed.

Lemma closed_mono (old new old' new' : Prop) w :
  (old -> old') -> (new -> new') -> closed old new w -> closed old' new' w.
Proof.
  intros Ho Hn (Hb & Hj & Hs). split_and!; [done..|].
  destruct Hs as [[? ?]|[? ?]]; [left|right]; split; eauto.
Qed.

Definition recovered (old new : Prop) (r : RecoveryResult) (w : World) : Prop :=
  closed old new w /\ reports r w.

Lemma recover_prepared_spec old new b s w :
  bystanders w -> journal_of job w = Some b -> Standing old new b (view w) -> read_journal b = Ok (h, s) ->
  wp (recover_prepared no_recovery h s) (recovered old new) (fun _ => Inv old new)
    (Inv old new) w.
Proof.
  intros Hb Hj Hs Hr.
  destruct (Standing_read _ _ _ _ _ _ Hs Hr) as [_ Hcase].
  assert (forall w', Inv old False w' -> Inv old new w') as Hm
    by (intros w'; by apply Inv_mono).
  assert (forall w', rolling_world old w' -> old ->
    wp (_ ← rollback_entries h; _ ← cleanup_prepared_job h; pure (roll_back no_recovery job))
      (recovered old new) (fun _ => Inv old new) (Inv old new) w') as Hroll.
  { intros w1 Hw1 Ho. apply wp_bind.
    eapply wp_mono; [by apply (rollback_spec old)|..]; cbv beta; [|auto..].
    intros _ w2 Hc. apply wp_bind.
    eapply wp_mono; [by apply (cleanup_spec old False)|..]; cbv beta; [|auto..].
    intros _ w3 Hc3. apply wp_pure. split; [by apply (closed_mono old False)|].
    split; [|done]. intros _. apply (closed_old_False _ _ Hc3). }
  destruct s; cbn [recover_prepared].
  - destruct Hcase as [Ho Hold]. apply wp_bind.
    eapply wp_mono; [apply (cleanup_spec old new)|..]; cbv beta; [|..|auto].
    + split; [split; [done|by rewrite Hj]|]. split; left; done.
    + intros _ w1 Hc. apply wp_pure. split; [done|]. by apply reports_nothing.
    + done.
  - destruct Hcase as (Ho & Hrev & Hcase). rewrite bool_decide_true by done. apply wp_bind.
    eapply wp_mono; [by apply (append_rolling_recovery old b)|..]; cbv beta; auto.
  - destruct Hcase as (Hn & Hnew & Hra). apply wp_bind.
    assert (closing False new w) as Hc.
    { split; [split; [done|rewrite Hj; by apply st_committed]|]. split; [by right|].
      right. intros b'. rewrite Hj. by intros [= <-]. }
    assert (forall w', Inv False new w' -> Inv old new w') as Hm'
      by (intros w'; by apply Inv_mono).
    eapply wp_mono; [by apply (cleanup_spec False new)|..]; cbv beta; [|auto..].
    intros _ w1 Hc1. apply wp_pure. split; [by apply (closed_mono False new)|].
    split; [done|]. intros _. apply (closed_False_new _ _ Hc1).
  - destruct Hcase as (Ho & Hrev & Hra). rewrite bool_decide_false by done. apply wp_bind, wp_pure.
    apply Hroll; [|done]. split_and!; [done..|]. exists b. split; [done|].
    intros v Hv. by apply st_rolling.
Qed.

Lemma quiet_closing old new w w' : quiet w w' -> closing old new w -> closing old new w'.
Proof. intros [Hf Hv]. by apply frame_view_closing. Qed.

(** The root is gone: only the private directory is removed. *)
Lemma cleanup_private_spec old new w :
  closing old new w ->
  wp (cleanup_private_prepared_job h) (fun _ => closed old new) (fun _ => Inv old new)
    (Inv old new) w.
Proof.
  intros Hc. unfold cleanup_private_prepared_job, run_mutation. apply wp_bind.
  eapply wp_mono; [apply (checkpoint_spec _ (closing old new)); [done|]|..].
  { intros w1 w2. apply frame_view_closing. }
  2-3: cbv beta; intros; by match goal with Hcl : closing _ _ _ |- _ => apply Hcl end.
  cbv beta. intros _ w1 Hc1. apply wp_bind, wp_bind.
  eapply wp_mono; [apply tx_read_quiet|..]; cbv beta.
  2-3: intros; eapply quiet_Inv; [done|apply Hc1].
  intros found w2 (Hq & Hj & [= Hfound]).
  assert (closing old new w2) as Hc2 by by eapply quiet_closing.
  apply (wp_mono _ (fun _ => closed old new) _ (fun _ => Inv old new) _ (Inv old new)); [|..].
  - destruct found.
    + eapply wp_mono; [apply remove_job_directory_spec|..]; cbv beta.
      2-3: intros; destruct_and?; by eapply cleanup_Inv.
      intros _ w3 [Hf Hj3]. by eapply cleanup_closed.
    + apply wp_pure. destruct Hc2 as ([Hb _] & Hs & _). split_and!; [done| |done].
      apply bool_decide_eq_false in Hfound. by apply eq_None_not_Some.
  - intros _ w3 Hcl. eapply wp_mono; [apply (checkpoint_spec _ (closed old new)); [done|]|..].
    { intros w4 w5. apply frame_view_closed. }
    all: cbv beta; intros; by try apply closed_Inv.
  - done.
  - done.
Qed.

Lemma recover_job_spec old new w :
  Inv old new w ->
  wp (recover_job no_recovery job) (recovered old new) (fun _ => Inv old new) (Inv old new) w.
Proof.
  intros HI. apply wp_bind. eapply wp_mono; [apply tx_read_quiet|..]; cbv beta.
  2-3: intros; by eapply quiet_Inv.
  intros j w1 (Hq & _ & [= Ej]). apply (quiet_Inv _ _ _ _ Hq) in HI. clear w Hq.
  change (journal_of job w1 = j) in Ej. destruct j as [b|].
  - pose proof HI as [Hb Hs]. rewrite Ej in Hs. apply wp_bind, wp_lift; [|done].
    intros [h' s] Hr. destruct (Standing_read _ _ _ _ _ _ Hs Hr) as [-> Hcase].
    cbv beta iota. apply wp_bind, wp_lift; [|done]. intros [] _. apply wp_bind, wp_attempt.
    eapply wp_mono; [apply reads_spec, pc_identity|..]; cbv beta.
    + intros [] w2 [Hq _]. apply (quiet_Inv _ _ _ _ Hq) in HI as [Hb2 Hs2].
      destruct Hq as [Hf Hv]. rewrite (frame_journal w1 w2), Ej in Hs2 by done.
      apply (recover_prepared_spec old new b); [done|by rewrite (frame_journal w1 w2)|done..].
    + intros e w2 Hq. apply (quiet_Inv _ _ _ _ Hq) in HI. apply wp_bind.
      eapply (wp_mono _ (fun m w' => Inv old new w' /\ (m = true -> s = Prepared)
                           /\ view w' = view w1)).
      * case_bool_decide as Hs'.
        -- eapply wp_mono; [apply reads_spec, pc_missing|..]; cbv beta.
           2-3: intros; by eapply quiet_Inv.
           intros m w3 [Hq3 _]. split; [by eapply quiet_Inv|]. split; [done|].
           destruct Hq as [_ E1], Hq3 as [_ E2]. congruence.
        -- apply wp_pure. split; [done|]. split; [done|]. by destruct Hq.
      * intros m w3 (HI3 & Hm & Hv). destruct m; [|done].
        rewrite (Hm eq_refl) in Hcase. destruct Hcase as [Ho Hold].
        apply wp_bind. eapply wp_mono; [apply (cleanup_private_spec old new)|..]; cbv beta; [|..|done].
        -- split; [done|]. rewrite Hv. split; by left.
        -- intros _ w4 Hc. apply wp_pure. split; [done|]. by apply reports_nothing.
        -- done.
      * done.
      * done.
    + intros w2 Hq. by eapply quiet_Inv.
  - assert (closing old new w1) as Hc.
    { split; [done|]. destruct HI as [_ Hs]. rewrite Ej in Hs. split; [done|].
      right. intros b. by rewrite Ej. }
    apply wp_bind. eapply wp_mono; [apply remove_job_directory_spec|..]; cbv beta.
    2-3: intros; destruct_and?; by eapply cleanup_Inv.
    intros _ w2 [Hf Hj]. apply wp_pure. split; [by eapply cleanup_closed|].
    by apply reports_nothing.
Qed.

Lemma recover_incomplete_spec old new w :
  Inv old new w ->
  wp recover_incomplete (recovered old new) (fun _ => Inv old new) (Inv old new) w.
Proof.
  intros HI. apply wp_bind. eapply wp_mono; [apply tx_read_quiet|..]; cbv beta.
  2-3: intros; by eapply quiet_Inv.
  intros ds w1 (Hq & _ & [= Eds]). apply (quiet_Inv _ _ _ _ Hq) in HI.
  pose proof HI as [[Hjobs Hroots] Hs].
  assert (ds = [] /\ w_jobs w1 !! job = None \/ ds = [job]) as [[-> Hn]| ->].
  { subst ds. destruct (w_jobs w1 !! job) as [d|] eqn:Hd.
    - right. assert (w_jobs w1 = {[job := d]}) as ->; [|by rewrite map_to_list_singleton].
      apply map_eq. intros j. destruct (decide (j = job)) as [->|Hne].
      + by rewrite lookup_singleton_eq.
      + rewrite lookup_singleton_ne by done. apply eq_None_not_Some. by intros ?%Hjobs.
    - left. split; [|done]. assert (w_jobs w1 = ∅) as ->; [|by rewrite map_to_list_empty].
      apply map_eq. intros j. rewrite lookup_empty. apply eq_None_not_Some.
      intros Hsj. rewrite (Hjobs _ Hsj), Hd in Hsj. by destruct Hsj. }
  - apply wp_pure. unfold journal_of in Hs. rewrite Hn in Hs.
    split; [by split|]. by apply reports_nothing.
  - cbn [recover_jobs]. apply wp_bind.
    eapply wp_mono; [by apply recover_job_spec| |done|done].
    intros r w2 Hr. by apply wp_pure.
Qed.
End states.

(** ** The transaction as a whole *)

(** The service starts again: the files are as they were left, what will fail
    from now on is unknown. *)
Definition rebooted (w w' : World) : Prop :=
  w_roots w' = w_roots w /\ w_jobs w' = w_jobs w.

Section transaction.
Context `{SerdeJsonLaws, UnicodeCase, Crypto, TransactionPlatform, !FileNames, !FileNamesLaws}.
Context `{!Reader JournalHeader, !Reader JournalStateRecord}.
Context `{!ReaderLaws JournalHeader, !ReaderLaws JournalStateRecord}.

(** Recovery is run again, after failures and crashes, until it returns. *)
Inductive recovers : World -> RecoveryResult -> World -> Prop :=
  | recovers_now w r w' :
      recover_incomplete w = (Done (Ok r), w') -> recovers w r w'
  | recovers_later w o w1 w2 r w' :
      recover_incomplete w = (o, w1) -> (forall r', o <> Done (Ok r')) ->
      rebooted w1 w2 -> recovers w2 r w' -> recovers w r w'.

Context (h : JournalHeader) (hb : list byte) (Hh : header_text h hb).
Context `{!PlatformContract (jh_root h) (jh_job_id h)}.
#[local] Abbreviation view := (view (jh_root h) (jh_job_id h)).

Lemma rebooted_Inv W0 old new w w' :
  rebooted w w' -> Inv h hb W0 old new w -> Inv h hb W0 old new w'.
Proof.
  intros [Er Ej] [[B1 B2] Hs]. split; [split; by rewrite ?Er, ?Ej|].
  unfold journal_of, Contract.view in *. by rewrite Er, Ej.
Qed.

Lemma recovers_spec W0 old new w r w' :
  recovers w r w' -> Inv h hb W0 old new w -> recovered h W0 old new r w'.
Proof.
  induction 1 as [w r w' E|w o w1 w2 r w' E Hne Hre _ IH]; intros HI;
    pose proof (recover_incomplete_spec h hb Hh W0 old new w HI) as Hwp;
    unfold wp in Hwp; rewrite E in Hwp; [done|].
  apply IH. eapply rebooted_Inv; [exact Hre|]. destruct o as [[r'|e]| |]; [|done..].
  by destruct (Hne r').
Qed.

End transaction.
