(* ===== verification/LocalPlatformProof.v ===== *)
(** * The local platform keeps its promises

    [LocalTransactionPlatform] satisfies the contract of Contract, for every
    root and job. *)

From S2P Require Import Prelude Errors Effects Identifiers Json Trust FileSet Roots Journal.
From S2P Require Import Storage Transaction LocalPlatform Contract.

Section logic.
Context (root : RegisteredRoot) (job : string).
#[local] Abbreviation frame := (frame root).
#[local] Abbreviation view := (view root job).
#[local] Abbreviation reads := (reads root job).
#[local] Abbreviation mutates := (mutates root job).

(** ** Queries *)

Lemma reads_pure {A} (a : A) (Q : A -> JobView -> Prop) :
  (forall v, Q a v) -> reads (pure a) Q.
Proof. intros HQ w. apply wp_pure. by split_and!. Qed.

Lemma reads_lift {A} (r : Result A) (Q : A -> JobView -> Prop) :
  (forall a v, r = Ok a -> Q a v) -> reads (lift r) Q.
Proof. intros HQ w. apply wp_lift; intros; [split_and!; eauto|]; by split. Qed.

Lemma reads_gets {A} (f : World -> A) (Q : A -> JobView -> Prop) :
  (forall w, Q (f w) (view w)) -> reads (gets f) Q.
Proof. intros HQ w. apply wp_gets. by split_and!. Qed.

Lemma reads_mono {A} (m : M World A) (Q Q' : A -> JobView -> Prop) :
  reads m Q -> (forall a v, Q a v -> Q' a v) -> reads m Q'.
Proof. intros Hm HQ w. eapply wp_mono; [exact (Hm w)|naive_solver..]. Qed.

Lemma reads_bind {A B} (m : M World A) (k : A -> M World B) Q1 (Q : B -> JobView -> Prop) :
  reads m Q1 -> (forall a, reads (k a) (fun b v => Q1 a v -> Q b v)) -> reads (m ≫= k) Q.
Proof.
  intros Hm Hk w. apply wp_bind. eapply wp_mono; [exact (Hm w)| |done|done].
  intros a w1 (Hf & Hv & HQ). rewrite <- Hv in HQ |- *.
  eapply wp_mono; [exact (Hk a w1)|..]; cbn; intros; destruct_and?;
    split_and!; try congruence; try (by etransitivity); eauto.
Qed.

Lemma reads_then {A B} (m : M World A) (k : A -> M World B) Q1 (Q : B -> JobView -> Prop) :
  reads m Q1 -> (forall a, reads (k a) Q) -> reads (m ≫= k) Q.
Proof.
  intros Hm Hk. eapply reads_bind; [exact Hm|]. intros a.
  eapply reads_mono; [apply Hk|]. eauto.
Qed.

Lemma reads_attempt {A} (m : M World A) (Q : A -> JobView -> Prop) (Q' : Result A -> JobView -> Prop) :
  reads m Q -> (forall a v, Q a v -> Q' (Ok a) v) -> (forall e v, Q' (Err e) v) ->
  reads (attempt m) Q'.
Proof.
  intros Hm Ho He w. apply wp_attempt. eapply wp_mono; [exact (Hm w)|..]; cbn; naive_solver.
Qed.

Lemma reads_for_each {A} (f : A -> M World ()) l :
  (forall a, reads (f a) (fun _ _ => True)) -> reads (for_each f l) (fun _ _ => True).
Proof.
  intros Hf. induction l as [|a l IH]; cbn [for_each]; [by apply reads_pure|].
  by eapply reads_then.
Qed.

(** ** Changes *)

Lemma mutates_bind {A} (m : M World A) (k : A -> M World ()) Q1 (Q : JobView -> JobView -> Prop) :
  reads m Q1 -> (forall a, mutates (k a) (fun v v' => Q1 a v -> Q v v')) -> mutates (m ≫= k) Q.
Proof.
  intros Hm Hk w. apply wp_bind. eapply wp_mono; [exact (Hm w)| |done|]; cbn.
  - intros a w1 (Hf & Hv & HQ). rewrite <- Hv in HQ |- *.
    eapply wp_mono; [exact (Hk a w1)|..]; cbn; intros; destruct_and?;
      (split; [by etransitivity|]); [eauto|done|naive_solver].
  - intros w' [Hf Hv]. by split; [|left].
Qed.

Lemma mutates_then {A} (m : M World A) (k : A -> M World ()) Q1 (Q : JobView -> JobView -> Prop) :
  reads m Q1 -> (forall a, mutates (k a) Q) -> mutates (m ≫= k) Q.
Proof.
  intros Hm Hk. eapply mutates_bind; [exact Hm|]. intros a w.
  eapply wp_mono; [exact (Hk a w)|..]; cbn; naive_solver.
Qed.

Lemma mutates_pure (Q : JobView -> JobView -> Prop) : (forall v, Q v v) -> mutates (pure tt) Q.
Proof. intros HQ w. apply wp_pure. by split. Qed.

(** ** Operations of the file system *)

Lemma set_fates_quiet w fates : frame w (set_fates w fates) /\ view (set_fates w fates) = view w.
Proof. by split. Qed.

Lemma reads_tx_read {A} (f : World -> Result A) e (Q : A -> JobView -> Prop) :
  (forall w a, f w = Ok a -> Q a (view w)) -> reads (tx_read f e) Q.
Proof.
  intros HQ w. unfold wp, tx_read.
  destruct (default Works (head (w_fates w))); try apply set_fates_quiet.
  destruct (f _) eqn:E; [|apply set_fates_quiet]. split_and!; try apply set_fates_quiet.
  by apply HQ in E.
Qed.

(** The view of a directory tree. *)
Definition dir_view (d : RootDir) : JobView :=
  mkView (rd_files d) (rs_backup (reserved_of d job)) (rs_prepared (reserved_of d job)).

Lemma view_root w d : root_dir w root = Some d -> view w = dir_view d.
Proof. unfold root_dir, Contract.view. by intros ->. Qed.

Lemma update_root_view f w w' :
  update_root root f w = Some w' ->
  exists d d', root_dir w root = Some d /\ f d = Some d' /\ frame w w'
    /\ w_jobs w' = w_jobs w /\ view w = dir_view d /\ view w' = dir_view d'.
Proof.
  unfold update_root. intros E. destruct (root_dir w root) as [d|] eqn:Ed; [|done].
  cbn in E. destruct (f d) as [d'|] eqn:Ef; [|done]. cbn in E. injection E as <-.
  exists d, d'. split_and!; try done.
  - split_and!; [done..|]. intros cp Hcp. cbn. by rewrite lookup_insert_ne.
  - by apply view_root.
  - apply view_root. unfold root_dir. cbn. by rewrite lookup_insert_eq.
Qed.

Lemma mutates_tx_io f e (Q : JobView -> JobView -> Prop) :
  (forall d d', f d = Some d' -> Q (dir_view d) (dir_view d')) ->
  mutates (tx_io (update_root root f) e) Q.
Proof.
  intros HQ w. unfold wp, tx_io. set (w1 := set_fates w _).
  assert (forall w', update_root root f w1 = Some w' -> frame w w' /\ Q (view w) (view w')) as Hu.
  { intros w' (d & d' & _ & Ef & Hf & _ & Ev & ->)%update_root_view.
    change (view w1) with (view w) in Ev. rewrite Ev. split; [|by apply HQ]. exact Hf. }
  destruct (default Works (head (w_fates w))); try apply set_fates_quiet.
  - destruct (update_root root f w1) eqn:E; [by apply Hu|apply set_fates_quiet].
  - split; [|left]; apply set_fates_quiet.
  - destruct (update_root root f w1) eqn:E; cbn.
    + destruct (Hu _ eq_refl). by split; [|right].
    + split; [|left]; apply set_fates_quiet.
Qed.

(** A change the view does not show. *)
Lemma reads_tx_io f e :
  (forall d d', f d = Some d' -> dir_view d' = dir_view d) ->
  reads (tx_io (update_root root f) e) (fun _ _ => True).
Proof.
  intros Hf w. pose proof (mutates_tx_io f e (fun v v' => v' = v) Hf w) as Hm.
  eapply wp_mono; [exact Hm|..]; cbn; [naive_solver|naive_solver|].
  intros w' [? [?|?]]; by split.
Qed.
End logic.

(** ** The operations of the local platform *)

Section operations.
Context `{UnicodeCase, Crypto, FileNames, NewFiles}.
Context (root : RegisteredRoot) (job : string).
#[local] Abbreviation view := (view root job).
#[local] Abbreviation reads := (reads root job).
#[local] Abbreviation mutates := (mutates root job).

Lemma local_inspect_reads path :
  reads (local_inspect_target root path) (fun t v => t = f_snapshot <$> v_files v !! fs_key path).
Proof.
  eapply reads_then; [by apply (reads_lift _ _ _ (fun _ _ => True))|]. intros _.
  apply reads_tx_read. intros w t Ht. ok_inv. unfold Contract.view.
  unfold root_dir in *. destruct (w_roots w !! canonical_path root) as [d|]; cbn.
  - destruct (rd_files d !! fs_key path) as [f|]; ok_inv; by subst.
  - ok_inv. by subst.
Qed.

(** The directories are not in the view. *)
Lemma ensure_directory_reads unsafe components :
  reads (ensure_directory root unsafe components) (fun _ _ => True).
Proof.
  eapply reads_then; [by apply (reads_tx_read _ _ _ _ (fun _ _ => True))|].
  intros []; [by apply reads_pure|apply reads_tx_io|by apply reads_lift].
  by intros d d' [= <-].
Qed.

Lemma ensure_target_parent_reads path : reads (ensure_target_parent root path) (fun _ _ => True).
Proof.
  eapply reads_then; [by apply (reads_lift _ _ _ (fun _ _ => True))|]. intros _.
  apply reads_for_each. intros c. apply ensure_directory_reads.
Qed.

Lemma ensure_reserved_leaf_reads leaf :
  reads (ensure_reserved_leaf_directory root job leaf) (fun _ _ => True).
Proof.
  eapply reads_then; [by apply (reads_lift _ _ _ (fun _ _ => True))|]. intros _.
  eapply reads_then; [apply reads_for_each; intros; apply ensure_directory_reads|]. intros _.
  apply reads_tx_io. intros d d' Hd.
  destruct (rd_reserved d !! job) eqn:Er; injection Hd as <-; [done|].
  unfold dir_view, reserved_of. cbn. by rewrite lookup_insert_eq, Er.
Qed.

Lemma validate_reserved_job_reads : reads (validate_reserved_job_directory root job) (fun _ _ => True).
Proof.
  eapply reads_then; [by apply (reads_lift _ _ _ (fun _ _ => True))|]. intros _.
  by apply reads_tx_read.
Qed.

Lemma reserved_of_insert d r : reserved_of (with_reserved d (<[job := r]> (rd_reserved d))) job = r.
Proof. unfold reserved_of. cbn. by rewrite lookup_insert_eq. Qed.

(** The backup of an index, as the view shows it. *)
Lemma backup_view w index :
  (d ← root_dir w root; rs_backup (reserved_of d job) !! index) = v_backup (view w) !! index.
Proof.
  unfold Contract.view, root_dir. destruct (w_roots w !! canonical_path root); [done|].
  cbn. by rewrite lookup_empty.
Qed.

Lemma rename_target_mutates index path expected :
  mutates (local_rename_target_to_backup root job index path expected)
    (backed_up index path expected).
Proof.
  eapply mutates_bind; [apply local_inspect_reads|]. intros t.
  eapply mutates_bind; [apply (reads_lift _ _ _ (fun _ _ => t = Some expected))|].
  { intros [] v Hok. by apply ensure_Ok, bool_decide_eq_true in Hok. }
  intros []. eapply mutates_then; [apply ensure_reserved_leaf_reads|]. intros _.
  eapply mutates_then; [by apply (reads_gets _ _ _ (fun _ _ => True))|]. intros present.
  eapply mutates_then; [by apply (reads_lift _ _ _ (fun _ _ => True))|]. intros _.
  apply mutates_tx_io. intros d d' Hd -> Hs.
  destruct (rd_files d !! fs_key path) as [f|] eqn:Ef; [|done]. cbn in Hd. injection Hd as <-.
  cbn in Hs. rewrite Ef in Hs. injection Hs as Hs. exists f. split; [done|]. split; [done|].
  unfold dir_view, set_backup. by rewrite reserved_of_insert.
Qed.

(** A reserved file becomes the target, which was absent. *)
Lemma rename_prepared_mutates index path :
  mutates (local_rename_prepared_to_target root job index path) (installed index path).
Proof.
  eapply mutates_bind; [apply local_inspect_reads|]. intros t.
  eapply mutates_bind; [apply (reads_lift _ _ _ (fun _ _ => t = None))|].
  { intros [] v Hok. by apply ensure_Ok, bool_decide_eq_true in Hok. }
  intros []. eapply mutates_then; [by apply (reads_tx_read _ _ _ _ (fun _ _ => True))|]. intros _.
  eapply mutates_then; [apply ensure_target_parent_reads|]. intros _.
  apply mutates_tx_io. intros d d' Hd -> Hs.
  destruct (rs_prepared (reserved_of d job) !! index) as [f|] eqn:Ef; [|done].
  cbn in Hd. injection Hd as <-. symmetry in Hs. apply fmap_None in Hs.
  exists f. split; [done|]. split; [done|].
  unfold dir_view, set_prepared. by rewrite reserved_of_insert.
Qed.

Lemma restore_mutates index path :
  mutates (local_restore_backup root job index path) (restored_from index path).
Proof.
  eapply mutates_bind; [apply local_inspect_reads|]. intros t.
  eapply mutates_bind; [apply (reads_lift _ _ _ (fun _ _ => t = None))|].
  { intros [] v Hok. by apply ensure_Ok, bool_decide_eq_true in Hok. }
  intros []. eapply mutates_then; [by apply (reads_tx_read _ _ _ _ (fun _ _ => True))|]. intros _.
  eapply mutates_then; [apply ensure_target_parent_reads|]. intros _.
  apply mutates_tx_io. intros d d' Hd -> Hs.
  destruct (rs_backup (reserved_of d job) !! index) as [f|] eqn:Ef; [|done].
  cbn in Hd. injection Hd as <-. symmetry in Hs. apply fmap_None in Hs.
  exists f. split; [done|]. split; [done|].
  unfold dir_view, set_backup. by rewrite reserved_of_insert.
Qed.

Lemma delete_mutates path : mutates (local_delete_target root path) (deleted path).
Proof.
  eapply mutates_bind; [apply local_inspect_reads|]. intros [t|].
  - apply mutates_tx_io. intros d d' [= <-] _. done.
  - apply mutates_pure. intros v Hn. symmetry in Hn. apply fmap_None in Hn.
    unfold deleted. rewrite delete_id by done. by destruct v.
Qed.

Lemma backup_exists_reads index :
  reads (local_backup_exists root job index)
    (fun b v => b = bool_decide (is_Some (v_backup v !! index))).
Proof.
  eapply reads_then; [apply validate_reserved_job_reads|]. intros _.
  apply reads_tx_read. intros w b [= <-]. by rewrite backup_view.
Qed.

(** ** Cleaning up *)

(** Files of the reserved directory disappear, nothing else changes. *)
Definition erodes (w w' : World) : Prop :=
  cleanup_frame root job w w' /\ w_jobs w' = w_jobs w.

#[export] Instance erodes_preorder : PreOrder erodes.
Proof.
  split; [by intros w; split|].
  intros a b c ((F1 & B1 & J1 & R1) & W1) ((F2 & B2 & J2 & R2) & W2).
  split; [|congruence]. split_and!; [congruence| |congruence|].
  - by etransitivity.
  - intros cp Hcp. by rewrite R2, R1.
Qed.

Definition eroding {A} (m : M World A) : Prop :=
  forall w, wp m (fun _ => erodes w) (fun _ => erodes w) (erodes w) w.

Lemma quiet_erodes w w' : frame root w w' -> view w' = view w -> erodes w w'.
Proof. intros (Ej & Ef & Er) Ev. split; [|done]. split_and!; [by rewrite Ev..|done|done]. Qed.

Lemma reads_eroding {A} (m : M World A) Q : reads m Q -> eroding m.
Proof.
  intros Hm w. eapply wp_mono; [exact (Hm w)|..]; cbn; intros; destruct_and?; by apply quiet_erodes.
Qed.

Lemma eroding_bind {A B} (m : M World A) (k : A -> M World B) :
  eroding m -> (forall a, eroding (k a)) -> eroding (m ≫= k).
Proof.
  intros Hm Hk w. apply wp_bind. eapply wp_mono; [exact (Hm w)| |done|done]; cbn.
  intros a w1 Hw1. eapply wp_mono; [exact (Hk a w1)|..]; cbn; intros; by etransitivity.
Qed.

Lemma eroding_for_each {A} (f : A -> M World ()) l :
  (forall a, eroding (f a)) -> eroding (for_each f l).
Proof.
  intros Hf. induction l as [|a l IH]; cbn [for_each]; [by intros w; apply wp_pure|].
  by apply eroding_bind.
Qed.

Lemma eroding_tx_io f e :
  (forall d d', f d = Some d' -> rd_files d' = rd_files d
     /\ rs_backup (reserved_of d' job) ⊆ rs_backup (reserved_of d job)) ->
  eroding (tx_io (update_root root f) e).
Proof.
  intros Hf w.
  pose proof (mutates_tx_io root job f e
    (fun v v' => v_files v' = v_files v /\ v_backup v' ⊆ v_backup v) Hf w) as Hm.
  assert (forall w', frame root w w' -> v_files (view w') = v_files (view w) ->
    v_backup (view w') ⊆ v_backup (view w) -> erodes w w') as He
    by (intros w' (Ej & Ejf & Er) Ef Eb; split; [by split_and!|done]).
  eapply wp_mono; [exact Hm|..]; cbn.
  - intros _ w' (Hfr & ? & ?). by apply He.
  - intros _ w' (Hfr & Ev). by apply quiet_erodes.
  - intros w' (Hfr & [Ev|[? ?]]); [by apply quiet_erodes|by apply He].
Qed.

Lemma remove_reserved_eroding : eroding (remove_reserved root job).
Proof.
  eapply eroding_bind; [by eapply reads_eroding, (reads_tx_read _ _ _ _ (fun _ _ => True))|].
  intros [bs ps]. repeat (apply eroding_bind; [|intros _]);
    try (apply eroding_for_each; intros i); apply eroding_tx_io;
    intros d d' [= <-]; unfold set_backup, set_prepared; rewrite ?reserved_of_insert;
    (split; [done|cbn]).
  - apply delete_subseteq.
  - done.
  - unfold reserved_of. cbn. rewrite lookup_delete_eq. apply map_empty_subseteq.
Qed.

Lemma cleanup_frame_trans w w1 w' :
  erodes w w1 -> cleanup_frame root job w1 w' -> cleanup_frame root job w w'.
Proof.
  intros ((F1 & B1 & J1 & R1) & _) (F2 & B2 & J2 & R2). split_and!; [congruence| |congruence|].
  - by etransitivity.
  - intros cp Hcp. by rewrite R2, R1.
Qed.

Lemma private_left_trans w w1 w' :
  erodes w w1 -> private_left job w1 w' -> private_left job w w'.
Proof.
  intros (_ & Ej) [E|d Hd E|E]; rewrite Ej in *;
    [by apply left_whole|by eapply left_no_journal|by apply left_nothing].
Qed.

(** What [pc_cleanup] asks of a computation. *)
Definition cleans (m : M World ()) : Prop :=
  forall w, wp m (fun _ w' => cleanup_frame root job w w' /\ w_jobs w' = delete job (w_jobs w))
                 (fun _ w' => cleanup_frame root job w w' /\ private_left job w w')
                 (fun w' => cleanup_frame root job w w' /\ private_left job w w') w.

(** First the reserved directory, then the private one. *)
Lemma cleans_in_order (reserved private : M World ()) :
  eroding reserved -> cleans private ->
  cleans (_ ← reserved;
          found ← tx_exists (fun w => bool_decide (is_Some (w_jobs w !! job)));
          if (found : bool) then private else pure tt).
Proof.
  intros Hr Hpriv w.
  assert (forall w', erodes w w' -> cleanup_frame root job w w' /\ private_left job w w') as He
    by (intros w' [? ?]; split; [done|by apply left_whole]).
  apply wp_bind.
  apply (wp_mono _ (fun _ => erodes w) _ (fun _ => erodes w) _ (erodes w));
    [exact (Hr w)| |auto|auto].
  intros _ w1 Hw1. pose proof Hw1 as [_ Ej]. apply wp_bind, wp_gets. case_bool_decide as Hp.
  - eapply wp_mono; [apply Hpriv|..]; cbn; intros; destruct_and?;
      (split; [by eapply cleanup_frame_trans|]).
    + congruence.
    + by eapply private_left_trans.
    + by eapply private_left_trans.
  - apply wp_pure. split; [apply Hw1|]. rewrite Ej in *.
    rewrite delete_id; [done|]. by apply eq_None_not_Some.
Qed.

Lemma remove_job_directory_cleans : cleans (remove_job_directory job).
Proof. intros w. apply remove_job_directory_spec. Qed.

Lemma local_cleanup_spec : cleans (local_cleanup_job root job).
Proof.
  intros w. apply wp_bind, wp_gets.
  refine (cleans_in_order _ _ _ remove_job_directory_cleans w).
  case_bool_decide; [|by intros w'; apply wp_pure].
  refine (eroding_bind _ _ (reads_eroding _ _ validate_reserved_job_reads) _).
  intros _. apply remove_reserved_eroding.
Qed.

Lemma identity_reads : reads (local_verify_root_identity root) (fun _ _ => True).
Proof. by apply reads_tx_read. Qed.

Lemma missing_reads : reads (local_root_is_missing root) (fun _ _ => True).
Proof.
  eapply reads_then; [|by intros; apply reads_pure].
  by eapply (reads_attempt _ _ _ (fun _ _ => True) (fun _ _ => True)); [apply reads_tx_read|..].
Qed.

#[export] Instance local_platform_contract :
  @PlatformContract _ LocalTransactionPlatform root job.
Proof.
  split; [apply identity_reads|apply missing_reads| |apply local_inspect_reads
    |apply backup_exists_reads|apply rename_target_mutates|apply rename_prepared_mutates
    |apply delete_mutates|apply restore_mutates|done|done|apply local_cleanup_spec].
  intros e. by apply reads_pure.
Qed.
End operations.
