(* ===== verification/TransactionScenarios.v ===== *)
(** * Scenarios of transactions

    A job that replaces one file, removes another and creates a third, on the
    local platform: the theorems of Journal and Recovery at concrete inputs. *)

From S2P Require Import Prelude Errors Effects Identifiers Json JsonReader Trust.
From S2P Require Import FileSet RegistrySet Roots RegistryScopes Readers Journal Storage.
From S2P Require Import Transaction LocalPlatform Contract Model TrustScenarios.
From S2P Require Import RegistryScenarios Atomicity Recovery LocalPlatformProof.

#[local] Existing Instance LocalTransactionPlatform.

Definition sample_file (data : string) : File :=
  {| f_snapshot := {| ts_identity := {| volume_serial := 1; file_id := as_bytes data |};
                      last_write_time := 5; ts_size := N.of_nat (str_len data) |};
     f_data := as_bytes data |}.

Definition job_id : string := format_job_id "game-1" 7 (model_sha256 (as_bytes "manifest")).

Definition sample_header : JournalHeader :=
  {| entries := [{| action := Replace; original := Some (f_snapshot (sample_file "old app"));
                    je_path := "bin/app.exe"; prepared_index := Some 0%N; transaction_index := 0 |};
                 {| action := Replace; original := None;
                    je_path := "bin/new.dll"; prepared_index := Some 1%N; transaction_index := 1 |};
                 {| action := Remove; original := Some (f_snapshot (sample_file "old dll"));
                    je_path := "bin/old.dll"; prepared_index := None; transaction_index := 2 |}];
     jh_generation := 7; jh_job_id := job_id;
     manifest_digest := encode_hex (model_sha256 (as_bytes "manifest"));
     jh_root := game_root; jh_schema := JOURNAL_SCHEMA |}.

Definition header_bytes : list byte := document sample_header.

Lemma sample_header_text : header_text sample_header header_bytes.
Proof.
  split; [|by vm_compute]. eexists. split; [reflexivity|by vm_compute].
Qed.

(** ** Reading the journal *)

Lemma read_journal_complete_witness :
  read_journal (journal_bytes header_bytes [Prepared; Committing]) = Ok (sample_header, Committing).
Proof.
  refine (proj2 (read_journal_complete sample_header header_bytes [Prepared; Committing] _
    sample_header_text _) _).
  - by vm_compute.
  - by exists Committing.
Defined.

(** The record that ends the commit is cut after ten bytes. *)
Lemma read_journal_torn_witness :
  read_journal (journal_bytes header_bytes [Prepared; Committing] ++ take 10 (state_bytes Committed))
    = Ok (sample_header, Committing).
Proof.
  refine (read_journal_torn sample_header header_bytes [Prepared; Committing] Committing Committed
    (take 10 (state_bytes Committed)) sample_header_text _ _ _ _).
  - by vm_compute.
  - by vm_compute.
  - exists (drop 10 (state_bytes Committed)). by vm_compute.
  - by vm_compute.
Defined.

Lemma append_after_torn_unreadable_witness :
  exists e, read_journal (journal_bytes header_bytes [Prepared; Committing]
    ++ take 10 (state_text Committed) ++ state_bytes RollingBack ++ []) = Err e.
Proof.
  refine (append_after_torn_unreadable sample_header header_bytes [Prepared; Committing]
    (take 10 (state_text Committed)) Committed RollingBack [] sample_header_text _ _).
  - exists (drop 10 (state_text Committed)). by vm_compute.
  - by vm_compute.
Defined.

Lemma torn_new_journal_unreadable_witness : exists e, read_journal (take 20 header_bytes) = Err e.
Proof.
  refine (torn_new_journal_unreadable sample_header header_bytes (take 20 header_bytes)
    (drop 20 (journal_bytes header_bytes [] ++ state_text Prepared)) sample_header_text _ _).
  - by vm_compute.
  - by vm_compute.
Defined.

(** ** A commit that stops half-way *)

Definition sample_tree : RootDir :=
  {| rd_identity := identity game_root;
     rd_files := {[ fs_key "bin/app.exe" := sample_file "old app";
                    fs_key "bin/old.dll" := sample_file "old dll";
                    fs_key "readme.txt" := sample_file "readme" ]};
     rd_dirs := {[ ["bin"]; [RESERVED_ROOT_DIRECTORY]; [RESERVED_ROOT_DIRECTORY; "jobs"];
                   job_components job_id; job_components job_id ++ ["prepared"] ]};
     rd_links := ∅;
     rd_reserved := {[ job_id := {| rs_prepared := {[ 0%N := sample_file "new app";
                                                      1%N := sample_file "new dll" ]};
                                    rs_backup := ∅ |} ]} |}.

Definition sample_world (fates journal_fates : list Fate) : World :=
  mkWorld {[ canonical_path game_root := sample_tree ]}
    {[ job_id := {| jd_journal := Some (journal_bytes header_bytes [Prepared]); jd_payload := ∅ |} ]}
    fates journal_fates ∅.

Lemma sample_ready fates : ready sample_header header_bytes (sample_world fates []).
Proof.
  split.
  - split; [|done]. intros j Hj. destruct (decide (j = job_id)) as [|Hne]; [done|].
    cbn in Hj. rewrite lookup_singleton_ne in Hj by done. by destruct Hj.
  - by vm_compute.
  - by vm_compute.
  - done.
  - by intros i n m Hi.
Qed.

(** The machine stops after the twentieth operation on the files. *)
Definition crash_fates : list Fate := replicate 20 Works ++ [StopsAfter].

Definition stopped : World := snd (commit_file_set sample_header (sample_world crash_fates [])).
Definition recovered_world : World := snd (recover_incomplete (set_fates stopped [])).

Lemma outcome_of_run {A B} (p : A * B) a : fst p = a -> p = (a, snd p).
Proof. by destruct p as [x y]; intros <-. Qed.

Lemma commit_stops :
  commit_file_set sample_header (sample_world crash_fates []) = (Crashed, stopped).
Proof. unfold stopped. apply outcome_of_run. by vm_compute. Qed.

Lemma recovery_returns :
  recover_incomplete (set_fates stopped []) = (Done (Ok (roll_back no_recovery job_id)), recovered_world).
Proof. unfold recovered_world. apply outcome_of_run. by vm_compute. Qed.

Lemma rebooted_fates w fates : rebooted w (set_fates w fates).
Proof. by split. Qed.

