(* ===== verification/ApplyScenarios.v ===== *)
(** * Scenarios of the registry transaction

    A machine with one registered scope whose key holds one value; the theorems
    of Generations, RegistryApply and RegistryFaults at it, and two ways in which
    the transaction loses the values it replaced. *)

From stdpp Require Import relations.
From S2P Require Import Prelude Errors Effects Identifiers Json JsonReader Trust FileSet.
From S2P Require Import RegistrySet RegistryScopes Readers Storage RegistryStorage Journal Generations.
From S2P Require Import WindowsRegistry RegistryTransaction RegistryAtomicity.
From S2P Require Import RegistryApply RegistryFaults Model TrustScenarios RegistryScenarios.

(** The system compares names without letter case. *)
#[export] Instance model_registry_names : RegistryNames := to_ascii_lowercase.

(** ** The machine *)

Definition old_values : Values :=
  {[ "installpath" := {| srv_data := as_bytes "old"; srv_value_type := REG_SZ |} ]}.

Definition sample_key : KeyPath := (Registry64, ["software"; "publisher"; "product"]).

Definition old_keys : Keys :=
  <[sample_key := old_values]> (<[(Registry64, ["software"; "publisher"]) := ∅]>
    {[ (Registry64, ["software"]) := ∅ ]}).

Definition new_keys : Keys :=
  <[sample_key := written (rs_values signed_registry_set) old_values]> old_keys.

Definition sample_digest (n : N) : list byte := replicate 32 (byte_of_N n).

Definition sample_generation (n : N) : GenerationRecord :=
  {| generation := n; digest := sample_digest n |}.

Definition accepted (generations : GenerationRegistry) (id : string) (r : GenerationRecord)
    : GenerationRegistry := match accept generations id r with Ok g => g | Err _ => generations end.

Definition old_generations : GenerationRegistry := accepted ∅ "scope-1" (sample_generation 1).
Definition new_generations : GenerationRegistry :=
  accepted old_generations "scope-1"
    {| generation := 2; digest := vrs_digest verified_registry_set |}.

Definition generation_bytes (g : GenerationRegistry) : list byte :=
  match encode_generations g with Ok bytes => bytes | Err _ => [] end.

Definition machine (disk keys : list Fate) : RegistryWorld :=
  mkRegistryWorld
    (mkDisk {[ registry_generation_path := generation_bytes old_generations ]} disk)
    old_keys keys old_generations
    {| committing := false; stop_requested := false; stop_event := false |}.

Definition sample_scopes : RegistryScopeRegistry := {[ "scope-1" := sample_scope ]}.

(** The service starts again without faults. *)
Definition restart (w : RegistryWorld) : RegistryWorld :=
  mkRegistryWorld (mkDisk (files (rw_disk w)) []) (rw_keys w) [] (rw_generations w) (rw_flags w).
#[local] Abbreviation apply_sample :=
  (apply_registry_set_transaction sample_scope verified_registry_set).
#[local] Abbreviation recover_sample :=
  (recover_registry_transaction registry_transaction_path sample_scopes).

Lemma restart_restarted w : restarted w (restart w).
Proof. by split. Qed.

(** The outcome of a run is computed, its final state is only named. *)
Lemma ran {S A} (m : M S A) w o : fst (m w) = o -> m w = (o, snd (m w)).
Proof. intros <-. by destruct (m w). Qed.

Ltac decided := apply (bool_decide_unpack _); vm_compute; exact I.

(** ** Generations *)

Lemma old_generations_wf : generations_wf old_generations.
Proof.
  apply (accept_wf ∅ "scope-1" (sample_generation 1)); [apply generations_wf_empty|..];
    by vm_compute.
Qed.

(** The next generation is accepted, then one of another root. *)
Lemma generations_never_roll_back_witness :
  previous old_generations "scope-1" = Ok (Some (sample_generation 1)) /\
  exists g2, rtc accept_step old_generations g2 /\ generations_wf g2 /\
    exists p', previous g2 "scope-1" = Ok (Some p')
      /\ (p' = sample_generation 1 \/ (1 < generation p')%N).
Proof.
  set (g2 := accepted new_generations "root-9" (sample_generation 4)).
  assert (rtc accept_step old_generations g2) as Hs.
  { eapply rtc_l; [|apply rtc_once].
    - apply (accepted_next old_generations "scope-1"
        {| generation := 2; digest := vrs_digest verified_registry_set |} new_generations);
        by vm_compute.
    - apply (accepted_next new_generations "root-9" (sample_generation 4) g2); by vm_compute. }
  split; [by vm_compute|]. exists g2. split; [exact Hs|].
  exact (generations_never_roll_back old_generations g2 "scope-1" (sample_generation 1)
           old_generations_wf Hs ltac:(by vm_compute)).
Defined.

(** The save stops between its renames; the load finds the new generations. *)
Lemma save_load_generations_crash_safe_witness :
  let d1 := snd (save_generations new_generations registry_generation_path
    (mkDisk {[ registry_generation_path := generation_bytes old_generations ]} stop_between_renames)) in
  exists g, fst (load_generations registry_generation_path (mkDisk (files d1) [])) = Done (Ok g)
    /\ (g = new_generations \/ (g = old_generations /\ Crashed <> Done (Ok tt))).
Proof.
  intros d1. exists new_generations. split; [by vm_compute|].
  refine (save_load_generations_crash_safe registry_generation_path old_generations new_generations
    (generation_bytes old_generations) (generation_bytes new_generations)
    {[ registry_generation_path := generation_bytes old_generations ]} stop_between_renames
    Crashed d1 [] new_generations
    (snd (load_generations registry_generation_path (mkDisk (files d1) []))) _ _ _ _ _ _ _ _).
  - split; by vm_compute.
  - split; [apply old_generations_wf|by vm_compute].
  - split; [|by vm_compute].
    apply (accept_wf old_generations "scope-1"
      {| generation := 2; digest := vrs_digest verified_registry_set |});
      [apply old_generations_wf|by vm_compute|by vm_compute].
  - by vm_compute.
  - by vm_compute.
  - by vm_compute.
  - by vm_compute.
  - apply loaded_now. by vm_compute.
Defined.

(** ** Applying a registry set *)

Lemma sample_applicable disk keys :
  applicable sample_scope verified_registry_set old_values new_generations
    (generation_bytes new_generations) (machine disk keys).
Proof.
  split; [by vm_compute..|]. intros p [->| ->]; by vm_compute.
Qed.

Definition stopping : RegistryWorld := machine [] (replicate 10 Works ++ [StopsAfter]).
Definition stopped : RegistryWorld := snd (apply_sample stopping).
Definition recovered : RegistryWorld := snd (recover_sample (restart stopped)).

Lemma stopping_run : apply_sample stopping = (Crashed, stopped).
Proof. unfold stopped. apply (ran apply_sample stopping Crashed). by vm_compute. Qed.

Lemma recovering_run : recover_sample (restart stopped) = (Done (Ok tt), recovered).
Proof. unfold recovered. apply (ran recover_sample (restart stopped) (Done (Ok tt))). by vm_compute. Qed.

Lemma stopped_recovers : registry_recovers sample_scopes (restart stopped) recovered.
Proof.
  apply registry_recovers_now.
  exact recovering_run.
Qed.

Lemma stopped_keys : rw_keys stopped = new_keys /\ rw_keys recovered = old_keys.
Proof. split; decided. Qed.


(** ** What it does not survive *)

Definition sample_journal : RegistryTransactionJournal :=
  registry_journal sample_scope old_values (rs_values signed_registry_set).

Definition journal_bytes : list byte :=
  match encode_registry_transaction sample_journal with Ok bytes => bytes | Err _ => [] end.

Definition torn : RegistryWorld := machine [Works; StopsBefore 7] [].
#[local] Abbreviation create_sample :=
  (create_registry_transaction sample_scope (rs_values signed_registry_set)).

Lemma sample_created : create_sample torn = (Done (Ok (sample_key, sample_journal)), snd (create_sample torn)).
Proof. apply (ran create_sample torn (Done (Ok (sample_key, sample_journal)))). by vm_compute. Qed.

Lemma torn_registry_journal_never_recovers_witness :
  exists w1, apply_sample torn = (Crashed, w1) /\
    rw_keys w1 = rw_keys (snd (create_sample torn)) /\
    forall scopes w2 w', restarted w1 w2 -> ~ registry_recovers scopes w2 w'.
Proof.
  refine (torn_registry_journal_never_recovers sample_scope verified_registry_set sample_key
    sample_journal journal_bytes 7 torn (snd (create_sample torn)) sample_created _ _ _ _).
  - by vm_compute.
  - vm_compute. lia.
  - by vm_compute.
  - by vm_compute.
Defined.

(** The commit marker cannot be created and a value cannot be restored: the set
    is reported as not rolled back, and stays. *)
Definition denied : RegistryWorld :=
  machine (replicate 10 Works ++ [Fails 0]) (replicate 11 Works ++ [Fails 0]).

Lemma denied_run :
  fst (apply_sample denied) = Done (Err (new_error RecoveryIncomplete
    "registry commit marker failure could not be rolled back")) /\
  rw_keys (snd (recover_sample (restart (snd (apply_sample denied))))) = new_keys.
Proof. split; [by vm_compute|decided]. Qed.

(** Its rollback. *)
Definition undoing : RegistryWorld :=
  mkRegistryWorld (mkDisk {[ registry_transaction_path := journal_bytes ]} []) new_keys [Fails 0]
    new_generations {| committing := true; stop_requested := false; stop_event := false |}.

#[local] Abbreviation undo_sample :=
  (undo_registry_transaction sample_key sample_journal old_generations).

Lemma undoing_run : undo_sample undoing = (Done (Ok false), snd (undo_sample undoing)).
Proof. apply (ran undo_sample undoing (Done (Ok false))). by vm_compute. Qed.

Lemma failed_rollback_drops_journal_witness :
  fst (apply_sample denied) = Done (Err (new_error RecoveryIncomplete
    "registry commit marker failure could not be rolled back")) /\
  Done (Ok false) = Done (Ok false) /\ rw_keys (snd (undo_sample undoing)) = new_keys /\
  forall scopes w2 w', restarted (snd (undo_sample undoing)) w2 ->
    registry_recovers scopes w2 w' -> rw_keys w' = new_keys.
Proof.
  split; [exact (proj1 denied_run)|].
  refine (failed_rollback_drops_journal sample_key sample_journal old_generations journal_bytes 0
    undoing (Done (Ok false)) (snd (undo_sample undoing)) _ _ _ _ _ _ undoing_run _).
  - done.
  - split; try done; by vm_compute.
  - by vm_compute.
  - by vm_compute.
  - done.
  - done.
  - done.
Defined.
