(* ===== verification/ServiceScenarios.v ===== *)
(** * Scenarios of the service

    A service with one registered game root on the local transaction platform:
    its owner prepares and commits a signed file set, asks for the result, and
    prepares it again while the first commit worker has not ended yet. *)

From stdpp Require Import relations.
From S2P Require Import Prelude Errors Effects Identifiers Json JsonReader Trust FileSet.
From S2P Require Import RegistrySet Roots RegistryScopes Readers Protocol Authorization Storage.
From S2P Require Import RegistryStorage Journal Generations WindowsRegistry RegistryTransaction.
From S2P Require Import Readers RegistryAtomicity Transaction LocalPlatform Contract Model.
From S2P Require Import TrustScenarios RegistryScenarios ApplyScenarios TransactionScenarios.
From S2P Require Import Wire Impersonation Service Frames ServiceJobs ServiceLife ServiceState.

#[local] Existing Instance LocalTransactionPlatform.

(** ** Requests *)

(** A reader of the requests about jobs. *)
Definition decode_job_request (v : Value) : option Request :=
  kind ← field as_string "command" v;
  m ← field as_number "protocolMajor" v;
  if decide (kind = "CommitJob") then CommitJob m <$> field as_string "jobId" v
  else if decide (kind = "GetJobStatus") then GetJobStatus m <$> field as_string "jobId" v
  else if decide (kind = "PrepareFileSet") then
    id ← field as_string "rootId" v;
    manifest ← field as_string "manifestPath" v;
    staging ← field as_string "stagingPath" v;
    Some (PrepareFileSet m id manifest staging)
  else None.

#[export] Instance job_request_reader : Reader Request := reader_of decode_job_request.

Definition message_of (entries : list (string * string)) : list byte :=
  canonical_bytes (Object (("protocolMajor", number 1)
                             :: ((fun e => (fst e, VString (snd e))) <$> entries))).

Definition prepare_message : list byte :=
  message_of [("command", "PrepareFileSet"); ("rootId", "game-1");
              ("manifestPath", "C:\staging\manifest.json"); ("stagingPath", "C:\staging")].

(** The job that the sample file set makes. *)
Definition service_job : string :=
  format_job_id "game-1" 7 (vfs_digest verified_file_set).
Definition commit_message : list byte := message_of [("command", "CommitJob"); ("jobId", service_job)].
Definition status_message : list byte := message_of [("command", "GetJobStatus"); ("jobId", service_job)].

(** The owner of the root, and another user. *)
Definition client (s : string) : Client :=
  let who := Ok {| sid := s; elevated_administrator := false |} in
  {| c_caller := who; c_impersonated := who; c_reverted := Ok tt;
     c_directory _ _ := Err transaction_io;
     c_file _ := Ok (document signed_file_set);
     c_staging path := Ok path; c_payload _ _ := Ok tt;
     c_signer _ := Err transaction_io |}.
Definition owner : Client := client "S-1-5-21-1".
Definition stranger : Client := client "S-1-5-21-2".

(** ** The machine *)

Definition game_tree : RootDir :=
  {| rd_identity := identity game_root;
     rd_files := {[ fs_key "bin/app.exe" := sample_file "old app";
                    fs_key "bin/old.dll" := sample_file "old dll" ]};
     rd_dirs := {[ ["bin"] ]}; rd_links := ∅; rd_reserved := ∅ |}.

Definition staging_tree : RootDir :=
  {| rd_identity := {| volume_serial := 7; file_id := [] |};
     rd_files := {[ fs_key "bin/app.exe" := sample_file "app" ]};
     rd_dirs := {[ ["bin"] ]}; rd_links := ∅; rd_reserved := ∅ |}.

Definition quiet : Flags :=
  {| committing := false; stop_requested := false; stop_event := false |}.

Definition new_service : Service :=
  {| s_registry := mkRegistryWorld
       (mkDisk {[ keyring_path := document (signed_keyring 3) ]} []) ∅ [] ∅ quiet;
     s_tree := mkWorld (<[canonical_path game_root := game_tree]> {[ "C:\staging" := staging_tree ]})
                 ∅ [] [] ∅;
     s_roots := one_root; s_scopes := ∅; s_generations := ∅;
     s_active := None; s_preparing := None; s_ending := 0 |}.

Definition ask (c : Client) (message : list byte) : M Service Round :=
  serve_round true (PipeRequest 0 c (Ok message)).
Definition worker : M Service () := prepare_worker "C:\data".

(** An equation that evaluation decides, left to the kernel's machine. *)
Ltac computed := match goal with |- _ = ?r => vm_cast_no_check (@eq_refl _ r) end.

(** Prepared: by the request, the worker and the wake-up. *)
Definition preparing : Service := snd (ask owner prepare_message new_service).
Definition prepared : Service := snd (worker preparing).
Definition ready : Service := snd (serve_round true PipeWake prepared).
Definition started_commit : Service := snd (ask owner commit_message ready).
(** Committed: the worker has sent its result and holds its activity. *)
Definition finished : Service := snd (commit_worker started_commit).

Definition started_answer : Round :=
  Answer 0 (Mutation "commit") (Ok (pending_response service_job "committing")).

Definition prepared_answer : Round :=
  Answer 0 (Mutation "prepare") (Ok (prepared_response service_job)).

Lemma preparing_answer :
  ask owner prepare_message new_service = (Done (Ok Continue), preparing) /\
  worker preparing = (Done (Ok tt), prepared) /\
  serve_round true PipeWake prepared = (Done (Ok prepared_answer), ready).
Proof.
  unfold ready, prepared, preparing. split_and!.
  - apply (ran (ask owner prepare_message) new_service (Done (Ok Continue))). computed.
  - apply (ran worker _ (Done (Ok tt))). computed.
  - apply (ran (serve_round true PipeWake) _ (Done (Ok prepared_answer))). computed.
Qed.

Lemma commit_answer : ask owner commit_message ready = (Done (Ok started_answer), started_commit).
Proof.
  unfold started_commit. apply (ran (ask owner commit_message) ready (Done (Ok started_answer))).
  computed.
Qed.

(** ** The job *)

Definition service_owner : string := "S-1-5-21-1".

Definition is_prepared (st : ActiveJobState) : bool :=
  match st with JobPrepared _ => true | _ => false end.
Definition is_running (st : ActiveJobState) : bool :=
  match st with JobCommitting (Running _) => true | _ => false end.

Lemma ready_active :
  (fun a => (aj_job_id a, aj_owner_sid a, is_prepared (aj_state a))) <$> s_active ready
    = Some (service_job, service_owner, true)
  /\ bool_decide (s_preparing ready = None) = true.
Proof. split; computed. Qed.

Lemma ready_corresponds : corresponds ready (JReady service_job service_owner).
Proof.
  destruct ready_active as [Ha Hp%bool_decide_eq_true]. split; [exact Hp|].
  apply fmap_Some in Ha as (a & Ha & Hs). injection Hs as E1 E2 E3. exists a.
  split; [exact Ha|]. clear Ha Hp. split; [exact (eq_sym E1)|]. split; [exact (eq_sym E2)|].
  destruct (aj_state a); [by eexists|done..].
Qed.

(** The owner commits the prepared job. *)
Lemma service_refines_job_machine_witness :
  corresponds ready (JReady service_job service_owner) /\
  exists j', corresponds started_commit j' /\ (j' = JReady service_job service_owner \/
    exists ev, stands_for (Served (PipeRequest 0 owner (Ok commit_message))) ev
      /\ job_step ev (JReady service_job service_owner) j').
Proof.
  split; [exact ready_corresponds|].
  apply (service_refines_job_machine "C:\data" _ ready started_commit _ ready_corresponds).
  apply (step_round "C:\data" true (PipeRequest 0 owner (Ok commit_message)) started_answer);
    [done|exact commit_answer].
Defined.

(** The owner learns that the job is prepared, a stranger learns nothing. *)
Definition status_answer (c : Client) : Outcome Round := fst (ask c status_message ready).

Definition owner_answer : Round :=
  Answer 0 (Query "job-status") (Ok (pending_response service_job "prepared")).
Definition stranger_answer : Round :=
  Answer 0 (Query "job-status")
    (Err (new_error RootUnauthorized "job is absent or belongs to another caller")).

Lemma job_status_truthful_witness :
  (exists response, status_answer owner = Done (Ok (Answer 0 (Query "job-status") response))
     /\ shows_job service_job "prepared" response) /\
  (exists e, status_answer stranger = Done (Ok (Answer 0 (Query "job-status") (Err e)))
     /\ code e = RootUnauthorized).
Proof.
  assert (decode_request status_message = Ok (GetJobStatus 1 service_job)) as Hd by computed.
  assert (may_stop ready = false) as Hstop by computed.
  split.
  - destruct (job_status_truthful true 0 owner {| sid := "S-1-5-21-1"; elevated_administrator := false |}
      status_message 1 service_job ready _ owner_answer (snd (ask owner status_message ready))
      ready_corresponds eq_refl eq_refl Hd Hstop) as (_ & response & E & Hshow).
    { apply (ran (ask owner status_message) ready (Done (Ok owner_answer))). computed. }
    exists response. rewrite <- E. split; [computed|].
    cbv beta iota delta [job_shows] in Hshow.
    rewrite decide_True in Hshow by (split; reflexivity). exact Hshow.
  - destruct (job_status_truthful true 0 stranger {| sid := "S-1-5-21-2"; elevated_administrator := false |}
      status_message 1 service_job ready _ stranger_answer
      (snd (ask stranger status_message ready))
      ready_corresponds eq_refl eq_refl Hd Hstop) as (_ & response & E & Hshow).
    { apply (ran (ask stranger status_message) ready (Done (Ok stranger_answer))). computed. }
    cbv beta iota delta [job_shows] in Hshow.
    rewrite decide_False in Hshow by (intros [_ Hs]; discriminate Hs).
    destruct Hshow as (e & He & Hcode). exists e. rewrite He in E. rewrite <- E.
    split; [computed|exact Hcode].
Defined.

(** ** Stopping *)

(** The next transaction of the same owner while the first worker has not ended:
    the result is read, the file set is prepared again and its commit starts. *)
Definition second_run : M Service Round :=
  _ ← ask owner status_message;
  _ ← ask owner prepare_message;
  _ ← worker;
  _ ← serve_round true PipeWake;
  ask owner commit_message.

Definition second_commit : Service := snd (second_run finished).

Lemma second_commit_state :
  fst (second_run finished) = Done (Ok started_answer) /\
  is_running ∘ aj_state <$> s_active second_commit = Some true /\
  bool_decide (s_preparing second_commit = None) = true /\ s_ending second_commit = 1%nat /\
  committing (flags second_commit) = true.
Proof. split_and!; computed. Qed.

Lemma running_now s : is_running ∘ aj_state <$> s_active s = Some true -> committing_now s.
Proof.
  intros (a & Ha & Hr)%fmap_Some. exists a. cbn in Hr.
  destruct (aj_state a) as [p|[p|r|]|c e g st]; try done. by exists p.
Qed.

Definition ended : Service := snd (commit_worker_ends second_commit).
Definition asked_to_stop : Service := snd (service_control_stop ended).

(** The first worker ends now and a stop comes: the second commit is abandoned. *)
Lemma late_activity_ends_the_loop_witness :
  fst (second_run finished) = Done (Ok started_answer) /\ committing_now second_commit /\
  serve_round true PipeIdle asked_to_stop = (Done (Ok Break), asked_to_stop) /\
  committing_now asked_to_stop.
Proof.
  destruct second_commit_state as (Hr & Ha & Hp%bool_decide_eq_true & Hn & _).
  pose proof (running_now second_commit Ha) as Hnow.
  split; [exact Hr|]. split; [exact Hnow|].
  refine (late_activity_ends_the_loop second_commit ended asked_to_stop true PipeIdle Hnow Hp _ _ _).
  - rewrite Hn. discriminate.
  - exact (ran commit_worker_ends second_commit (Done (Ok tt)) eq_refl).
  - exact (ran service_control_stop ended (Done (Ok tt)) eq_refl).
Defined.

(** A stop while the first commit is at work: the loop goes on, and ends after
    the worker. *)
Definition stopping_commit : Service := snd (service_control_stop started_commit).
Definition stopped_after : Service := snd (commit_worker_ends (snd (commit_worker stopping_commit))).

Lemma stop_while_committing :
  fst (serve_round true PipeIdle stopping_commit) = Done (Ok Continue) /\
  fst (serve_round true PipeIdle stopped_after) = Done (Ok Break).
Proof. split; computed. Qed.

Definition stopping_worked : Service := snd (commit_worker stopping_commit).

Lemma stopping_runs :
  commit_worker stopping_commit = (Done (Ok tt), stopping_worked) /\
  serve_round true PipeIdle stopped_after
  = (Done (Ok Break), snd (serve_round true PipeIdle stopped_after)).
Proof.
  unfold stopping_worked. split.
  - apply (ran commit_worker stopping_commit (Done (Ok tt))). computed.
  - apply (ran (serve_round true PipeIdle) stopped_after (Done (Ok Break))). computed.
Qed.

Lemma calm_to_stop : rtc (calm_step "C:\data") new_service stopped_after.
Proof.
  destruct preparing_answer as (Hp & Hw & Hk).
  assert (forall e r x y, e <> PipeStop -> serve_round true e x = (Done (Ok r), y) ->
    calm_step "C:\data" x y) as Hround.
  { intros e r x y He Hr. apply (calm_round _ true e r x y); [intros E; contradiction|exact Hr]. }
  apply (rtc_l _ new_service preparing); [exact (Hround (PipeRequest 0 owner (Ok prepare_message)) Continue new_service preparing
       ltac:(discriminate) Hp)|].
  apply (rtc_l _ preparing prepared); [exact (calm_prepare _ _ _ Hw)|].
  apply (rtc_l _ prepared ready); [exact (Hround PipeWake prepared_answer prepared ready ltac:(discriminate) Hk)|].
  apply (rtc_l _ ready started_commit);
    [exact (Hround (PipeRequest 0 owner (Ok commit_message)) started_answer ready started_commit
       ltac:(discriminate) commit_answer)|].
  apply (rtc_l _ started_commit stopping_commit);
    [exact (calm_stop _ _ _ (ran service_control_stop started_commit (Done (Ok tt)) eq_refl))|].
  apply rtc_once. exact (calm_commit _ _ _ _ (proj1 stopping_runs)
    (ran commit_worker_ends stopping_worked (Done (Ok tt)) eq_refl)).
Qed.


(** ** A restart *)

(** The machine stops while the commit worker cleans up a committed job; the
    service starts again. *)
Definition cut_commit : Service :=
  snd (commit_worker (with_tree
    (set_fates (s_tree started_commit) (replicate 25 Works ++ [StopsBefore 0])) started_commit)).
Definition restarted : Service := snd (recover_service_state "C:\data" cut_commit).

Definition sample_record : GenerationRecord :=
  {| generation := 7; digest := vfs_digest verified_file_set |}.

Definition recovered_commits (o : Outcome RecoveryResult) : list string :=
  match o with Done (Ok recovery) => committed_jobs recovery | _ => [] end.

Lemma restart_runs :
  recover_service_state "C:\data" cut_commit = (Done (Ok tt), restarted) /\
  recovered_commits (fst (recover_incomplete (s_tree cut_commit))) = [service_job] /\
  generation_from_job_id service_job = Some ("game-1", sample_record).
Proof.
  unfold restarted. split; [|split; computed].
  apply (ran (recover_service_state "C:\data") cut_commit (Done (Ok tt))). computed.
Qed.

Lemma startup_records_commits_witness :
  corresponds restarted JIdle /\ has_accepted (s_generations restarted) "game-1" sample_record.
Proof.
  destruct restart_runs as (Hr & Hj & Hg).
  destruct (startup_records_commits "C:\data" cut_commit restarted Hr)
    as (Hc & _ & _ & _ & recovery & Hrec & Hall).
  split; [exact Hc|]. apply (Hall service_job); [|exact Hg].
  rewrite Hrec in Hj. cbn [fst recovered_commits] in Hj. rewrite Hj. apply list_elem_of_singleton. reflexivity.
Defined.

(** The state after the restart and the request of a stop. *)
Definition restarted_stopping : Service := snd (service_control_stop restarted).

Lemma model_sha256_length bytes : length (sha256 bytes) = 32%nat.
Proof.
  change (length (model_sha256 bytes) = 32%nat). unfold model_sha256. rewrite length_fmap.
  cut (forall acc, length acc = 32%nat -> length (fold_left add_byte bytes acc) = 32%nat).
  { intros H. by apply H, length_replicate. }
  induction bytes as [|b bytes IH]; intros acc Hacc; [exact Hacc|]. cbn [fold_left]. apply IH.
  destruct acc as [|a acc]; [exact Hacc|]. cbn [add_byte]. rewrite length_app. cbn in *. lia.
Qed.

Lemma service_stays_well_formed_witness :
  roots_wf (s_roots restarted_stopping) /\ generations_wf (s_generations restarted_stopping).
Proof.
  destruct (service_stays_well_formed "C:\data" model_sha256_length cut_commit restarted
    restarted_stopping (proj1 restart_runs)) as (Hr & _ & Hg & _).
  - apply rtc_once. exists StopControl. apply (step_stop "C:\data").
    exact (ran service_control_stop restarted (Done (Ok tt)) eq_refl).
  - split; [exact Hr|exact Hg].
Defined.
