(* ===== verification/PipeScenarios.v ===== *)
(** * Scenarios of the pipe

    A kernel that follows a script of what the waits see, the server on it, and
    the service of ServiceScenarios behind its pipe. *)

From stdpp Require Import relations.
From S2P Require Import PipeServer PipeSafety.
From S2P Require Import Prelude Errors Effects Identifiers Json JsonReader Trust FileSet.
From S2P Require Import RegistrySet Roots RegistryScopes Protocol Authorization Storage.
From S2P Require Import RegistryStorage Generations ServiceLog Journal WindowsRegistry.
From S2P Require Import RegistryTransaction Readers Transaction LocalPlatform Contract Model.
From S2P Require Import TrustScenarios RegistryScenarios ApplyScenarios TransactionScenarios Wire.
From S2P Require Import Impersonation Service Frames ServiceJobs ServiceState ServiceLoop PipeLoop.
From S2P Require Import ServiceScenarios.

#[local] Existing Instance LocalTransactionPlatform.

(** ** A kernel *)

(** What a wait returns, how long it takes, and the message then in the buffers. *)
Record Happening := { h_wait : N; h_elapsed : N; h_message : list byte }.

(** [tk_size]: the bytes of the last operation. *)
Record TestKernel := {
  tk_now : N;
  tk_script : list Happening;
  tk_message : list byte;
  tk_size : N;
}.

Definition with_size (n : N) (k : TestKernel) : TestKernel :=
  {| tk_now := tk_now k; tk_script := tk_script k; tk_message := tk_message k; tk_size := n |}.

(** Without a script the stop event is set. *)
Definition happens (k : TestKernel) : N * TestKernel :=
  match tk_script k with
  | [] => (0%N, k)
  | h :: rest =>
      (h_wait h, {| tk_now := tk_now k + h_elapsed h; tk_script := rest; tk_message := h_message h;
                    tk_size := N.of_nat (length (h_message h)) |})
  end.

#[export] Instance test_kernel : PipeKernel TestKernel := {
  pk_now k := (tk_now k, k);
  pk_descriptor k := (true, k);
  pk_create _ _ _ k := (true, k);
  pk_event k := (Handle, k);
  pk_disconnect _ k := (true, k);
  pk_connect _ k := (ERROR_IO_PENDING, k);
  pk_read _ k := (ERROR_IO_PENDING, k);
  pk_write _ bytes k := (0%N, with_size (N.of_nat (length bytes)) k);
  pk_cancel _ k := (true, k);
  pk_result _ _ k := ((0%N, tk_size k), k);
  pk_buffer _ k := tk_message k;
  pk_wait_one _ _ k := (0%N, k);
  pk_wait_many _ _ k := happens k;
}.

#[export] Instance test_kernel_laws : PipeKernelLaws TestKernel.
Proof.
  unshelve eexists; [exact (fun _ _ => True)|done..|].
  intros i k r k' [= <- <-] _. discriminate.
Defined.

Definition kernel_at (script : list Happening) : ServerState TestKernel :=
  mkServer (new_server 0 0 0) {| tk_now := 0; tk_script := script; tk_message := []; tk_size := 0 |}.

Definition event_of (slot : nat) (message : list byte) : Happening :=
  {| h_wait := N.of_nat slot + 2; h_elapsed := 10; h_message := message |}.
Definition timed_out (elapsed : N) : Happening :=
  {| h_wait := WAIT_TIMEOUT; h_elapsed := elapsed; h_message := [] |}.

(** ** The server alone *)

(** A client connects to the first slot and sends two bytes. *)
Definition one_message : list Happening := [event_of 0 []; event_of 0 (as_bytes "hi")].

Definition created (script : list Happening) : ServerState TestKernel :=
  snd (create PIPE_NAME SERVICE_PIPE_INSTANCES PIPE_READ_TIMEOUT PIPE_WRITE_TIMEOUT (kernel_at script)).

Lemma created_runs script :
  create PIPE_NAME SERVICE_PIPE_INSTANCES PIPE_READ_TIMEOUT PIPE_WRITE_TIMEOUT (kernel_at script)
  = (Done (Ok tt), created script).
Proof. unfold created. apply ran. vm_compute. reflexivity. Qed.

Definition delivered : ServerState TestKernel :=
  snd (next_event 5 SERVICE_IDLE_TIMEOUT_MS (created one_message)).
Definition replied : ServerState TestKernel := snd (PipeServer.respond 0 (as_bytes "there") delivered).

Lemma one_message_runs :
  rtc (server_step SERVICE_IDLE_TIMEOUT_MS) (created one_message, []) (delivered, [0]).
Proof.
  eapply rtc_once. change [0] with (owed_after (Some (RequestOf 0 (Ok (as_bytes "hi")))) []).
  apply (step_event _ 5), (ran (next_event 5 SERVICE_IDLE_TIMEOUT_MS) _
    (Done (Ok (RequestOf 0 (Ok (as_bytes "hi")))))). computed.
Qed.

Lemma reply_runs :
  rtc (server_step SERVICE_IDLE_TIMEOUT_MS) (created one_message, []) (replied, []).
Proof.
  eapply rtc_r; [exact one_message_runs|].
  apply (step_respond _ 0 (as_bytes "there") (Ok tt)); [done|].
  apply (ran (PipeServer.respond 0 (as_bytes "there")) delivered (Done (Ok (Ok tt)))). computed.
Qed.

(** While the answer is owed the slot is held; then it listens again. *)
Lemma no_connection_is_lost_witness :
  (length (instances (server delivered)) = 4 /\ NoDup (queued (server delivered) ++ [0]) /\
   forall slot, slot ∈ queued (server delivered) ++ [0] <-> pipe slot (server delivered) = true) /\
  (length (instances (server replied)) = 4 /\ NoDup (queued (server replied) ++ []) /\
   forall slot, slot ∈ queued (server replied) ++ [] <-> pipe slot (server replied) = true).
Proof.
  split.
  - exact (no_connection_is_lost PIPE_NAME SERVICE_PIPE_INSTANCES PIPE_READ_TIMEOUT PIPE_WRITE_TIMEOUT SERVICE_IDLE_TIMEOUT_MS
             (kernel_at one_message) _ _ _ (created_runs one_message) one_message_runs).
  - exact (no_connection_is_lost PIPE_NAME SERVICE_PIPE_INSTANCES PIPE_READ_TIMEOUT PIPE_WRITE_TIMEOUT SERVICE_IDLE_TIMEOUT_MS
             (kernel_at one_message) _ _ _ (created_runs one_message) reply_runs).
Defined.

Lemma kernel_storage_is_not_reused_witness :
  sound_call (create PIPE_NAME SERVICE_PIPE_INSTANCES PIPE_READ_TIMEOUT PIPE_WRITE_TIMEOUT)
    (kernel_at one_message) /\
  sound_call (next_event 5 SERVICE_IDLE_TIMEOUT_MS) delivered /\
  sound_call (PipeServer.respond 0 (as_bytes "there")) delivered.
Proof.
  destruct (kernel_storage_is_not_reused PIPE_NAME SERVICE_PIPE_INSTANCES PIPE_READ_TIMEOUT PIPE_WRITE_TIMEOUT
    SERVICE_IDLE_TIMEOUT_MS (kernel_at one_message)) as [Hc Hruns].
  destruct (Hruns _ _ _ (created_runs one_message) one_message_runs) as [He Hr].
  split; [exact Hc|]. split; [apply He|]. apply Hr. by left.
Defined.

(** A client connects, is silent for the ten seconds of a read and is dropped;
    twenty seconds later the server is idle: its thirty seconds count from the
    connection, not from its end. *)
Definition silent_client : list Happening :=
  [{| h_wait := 2; h_elapsed := 0; h_message := [] |}; timed_out 10000; timed_out 20000].

Definition left_alone : ServerState TestKernel :=
  snd (next_event 5 SERVICE_IDLE_TIMEOUT_MS (created silent_client)).

Lemma idle_means_unused_witness :
  next_event 5 SERVICE_IDLE_TIMEOUT_MS (created silent_client) = (Done (Ok PipeServer.Idle), left_alone) /\
  (PipeServer.ready (server left_alone) = [] /\ Forall (fun i => phase i = Listening) (instances (server left_alone)) /\
   exists k, kernel left_alone = snd (pk_now k) /\
    (last_activity (server left_alone) + SERVICE_IDLE_TIMEOUT_MS <= fst (pk_now k))%N).
Proof.
  assert (next_event 5 SERVICE_IDLE_TIMEOUT_MS (created silent_client)
    = (Done (Ok PipeServer.Idle), left_alone)) as He.
  { apply (ran (next_event 5 SERVICE_IDLE_TIMEOUT_MS) _ (Done (Ok PipeServer.Idle))). computed. }
  split; [exact He|]. exact (idle_means_unused 5 SERVICE_IDLE_TIMEOUT_MS _ _ He).
Defined.

Example silent_client_counts_as_idle :
  (* connected at 0, reading until 10 s, idle at 30 s *)
  fst (next_event 1 SERVICE_IDLE_TIMEOUT_MS (created silent_client)) = OutOfFuel /\
  phase <$> instances (server (snd (next_event 1 SERVICE_IDLE_TIMEOUT_MS (created silent_client)))) !! 0
    = Some (Reading 10000) /\
  phase <$> instances (server (snd (next_event 2 SERVICE_IDLE_TIMEOUT_MS (created silent_client)))) !! 0
    = Some Listening /\
  fst (next_event 3 SERVICE_IDLE_TIMEOUT_MS (created silent_client)) = Done (Ok PipeServer.Idle) /\
  tk_now (kernel left_alone) = 30000%N.
Proof. split_and!; computed. Qed.

(** ** The service behind its pipe *)

(** The owner asks for a job to be prepared; meanwhile another connection asks for
    the state of a job; then the worker is done. *)
Definition pipe_script : list Happening :=
  [event_of 0 []; event_of 0 prepare_message;
   event_of 0 []; event_of 0 status_message;
   {| h_wait := 1; h_elapsed := 10; h_message := [] |}].

Definition loop_log : ServiceLog := sample_log.

Abbreviation round_of_owner := (pipe_round (K := TestKernel) loop_log 5 true 0 owner).
Abbreviation worker_runs := (on_service (K := TestKernel) (prepare_worker "C:\data")).

Definition loop_start : Loop := mkLoop new_service (created pipe_script).
Definition loop_taken : Loop := snd (round_of_owner loop_start).
Definition loop_asked : Loop := snd (round_of_owner loop_taken).
Definition loop_worked : Loop := snd (worker_runs loop_asked).
Definition loop_answered : Loop := snd (round_of_owner loop_worked).

(** The answer about a job that does not exist yet. *)
Lemma loop_runs :
  round_of_owner loop_start
    = (Done (Ok {| goes_on := true; received := Some 0; answered_slot := None |}), loop_taken) /\
  round_of_owner loop_taken
    = (Done (Ok {| goes_on := true; received := Some 1; answered_slot := Some 1 |}), loop_asked) /\
  worker_runs loop_asked = (Done (Ok tt), loop_worked) /\
  round_of_owner loop_worked
    = (Done (Ok {| goes_on := true; received := None; answered_slot := Some 0 |}), loop_answered).
Proof.
  unfold loop_answered, loop_worked, loop_asked, loop_taken. split_and!.
  - apply (ran round_of_owner _ (Done (Ok {| goes_on := true; received := Some 0; answered_slot := None |}))).
    computed.
  - apply (ran round_of_owner _ (Done (Ok {| goes_on := true; received := Some 1; answered_slot := Some 1 |}))).
    computed.
  - apply (ran worker_runs _ (Done (Ok tt))). computed.
  - apply (ran round_of_owner _ (Done (Ok {| goes_on := true; received := None; answered_slot := Some 0 |}))).
    computed.
Qed.

Abbreviation step := (loop_step (K := TestKernel) "C:\data" loop_log).

Lemma loop_run_taken : rtc step (loop_start, [], []) (loop_taken, [0], []).
Proof.
  destruct loop_runs as (H1 & _). eapply rtc_once.
  exact (loop_round "C:\data" loop_log 5 true 0 owner _ _ _ [] [] H1 eq_refl).
Qed.

Lemma loop_run_answered : rtc step (loop_start, [], []) (loop_answered, [1; 0], [0; 1]).
Proof.
  destruct loop_runs as (_ & H2 & H3 & H4).
  etrans; [exact loop_run_taken|].
  eapply rtc_l; [exact (loop_round "C:\data" loop_log 5 true 0 owner _ _ _ [0] [] H2 eq_refl)|].
  eapply rtc_l; [exact (loop_thread "C:\data" loop_log PrepareWorker _ _ _ [1; 0] [1] eq_refl H3)|].
  eapply rtc_once. exact (loop_round "C:\data" loop_log 5 true 0 owner _ _ _ [1; 0] [1] H4 eq_refl).
Qed.

(** One request is owed an answer while its files are prepared, none afterwards. *)
Lemma every_request_is_answered_once_witness :
  [0] ≡ₚ [] ++ outstanding (l_service loop_taken) /\
  [1; 0] ≡ₚ [0; 1] ++ outstanding (l_service loop_answered) /\
  (forall slot, pipe slot (server (l_pipe loop_taken)) = true <->
     slot ∈ queued (server (l_pipe loop_taken)) ++ outstanding (l_service loop_taken)).
Proof.
  destruct (every_request_is_answered_once "C:\data" loop_log (kernel_at pipe_script) _ new_service _ _ _
    (created_runs pipe_script) eq_refl loop_run_taken) as (Ht & Hs & _).
  destruct (every_request_is_answered_once "C:\data" loop_log (kernel_at pipe_script) _ new_service _ _ _
    (created_runs pipe_script) eq_refl loop_run_answered) as (Ha & _ & _).
  split; [exact Ht|]. split; [exact Ha|exact Hs].
Defined.
