(* ===== verification/ClientScenarios.v ===== *)
(** * Scenarios of the client

    The helper hands a Launcher update over to the service of ServiceScenarios: the
    Launcher ends after seven seconds, the commit worker runs while the helper
    sleeps. *)

From stdpp Require Import relations.
From S2P Require Import Prelude Errors Effects Identifiers Json JsonReader Trust FileSet.
From S2P Require Import RegistrySet Roots RegistryScopes Readers Protocol Authorization Storage.
From S2P Require Import RegistryStorage Journal Generations WindowsRegistry RegistryTransaction.
From S2P Require Import Readers RegistryAtomicity Transaction LocalPlatform Contract Model.
From S2P Require Import TrustScenarios RegistryScenarios ApplyScenarios TransactionScenarios.
From S2P Require Import Wire Impersonation Service ServiceScenarios ServiceUpgrade.
From S2P Require Import WindowsPath Client PipeClient Handover.

#[local] Existing Instance LocalTransactionPlatform.
#[local] Instance value_reader : Reader Value := parse_json.

Record Machine := mkMachine { m_service : Service; m_clock : N; m_exit : N }.

(** One request and its answer; the service needs a millisecond. *)
Definition serve (bytes : list byte) (w : Machine) : Result (list byte) * Machine :=
  match ask owner bytes (m_service w) with
  | (Done (Ok (Answer _ _ response)), s) =>
      (ok_or (to_vec (response_value response)) ProtocolInvalid "no answer",
       mkMachine s (m_clock w + 1) (m_exit w))
  | (_, s) => (Err transaction_io, mkMachine s (m_clock w + 1) (m_exit w))
  end.

(** While the helper sleeps the commit worker runs to its end. *)
Definition rest (d : N) (w : Machine) : Machine :=
  mkMachine (snd (commit_worker_ends (snd (commit_worker (m_service w))))) (m_clock w + d) (m_exit w).

#[export] Instance test_machine : ClientMachine Machine := {
  open_service w := (Ok tt, w);
  transact := serve;
  now := m_clock;
  sleep := rest;
  launcher_open _ w := (Ok tt, w);
  launcher_wait _ d w :=
    if (m_exit w <=? m_clock w + d)%N
    then (Ok true, mkMachine (m_service w) (N.max (m_clock w) (m_exit w)) (m_exit w))
    else (Ok false, mkMachine (m_service w) (m_clock w + d) (m_exit w));
  set_event _ w := (Ok tt, w);
  regular_file _ _ := Some true;
  spawn _ w := (true, w);
}.

#[export] Instance test_clock : ClockLaws Machine.
Proof.
  split; cbn.
  - intros. apply N.le_refl.
  - intros p d w w'. destruct (m_exit w <=? m_clock w + d)%N; [done|]. intros [= <-] _. apply N.le_refl.
  - intros. apply N.le_refl.
  - intros bytes w. unfold serve. destruct (ask owner bytes (m_service w)) as [[[[| |]|]| |] s]; cbn; lia.
Qed.

Definition launcher_path : string := "C:\Games\7Launcher\7launcher.exe".
Definition start : Machine := mkMachine ready 1000 8000.

Definition hand_over : option (Reply () * ClientState Machine) :=
  wait_commit_restart 42 service_job launcher_path (Some "Local\ready") (mkClient start []).

Definition action_name (a : Action) : string :=
  match a with
  | Called (CommitJob _ _) (Good v) => "commit " +:+ default "" (text_of "state" v)
  | Called _ (Good v) => "status " +:+ default "" (text_of "state" v)
  | Called _ (Bad e) => "error " +:+ e
  | Ready => "ready"
  | Exited => "exited"
  | Restarted path => "restarted " +:+ path
  | Printed _ => "printed"
  end.

Definition handed_over : ClientState Machine := default (mkClient start []) (snd <$> hand_over).

Lemma returned {A B} (o : option (A * B)) d r :
  fst <$> o = Some r -> o = Some (r, default d (snd <$> o)).
Proof. destruct o as [[a b]|]; [by intros [= ->]|done]. Qed.

Lemma hand_over_runs : hand_over = Some (Good tt, handed_over).
Proof. apply returned. computed. Qed.

Lemma handed_over_trace :
  action_name <$> c_trace handed_over =
  ["status prepared"; "ready"; "status prepared"; "exited"; "status prepared"; "commit committing";
   "status committed"; "restarted " +:+ launcher_path; "printed"].
Proof. computed. Qed.

Lemma handover_safe_witness :
  action_name <$> c_trace handed_over =
  ["status prepared"; "ready"; "status prepared"; "exited"; "status prepared"; "commit committing";
   "status committed"; "restarted " +:+ launcher_path; "printed"] /\
  (length (commits service_job (c_trace handed_over)) <= 1)%nat.
Proof.
  split; [exact handed_over_trace|].
  exact (proj1 (proj2 (handover_safe 42 service_job launcher_path (Some "Local\ready") start
    (Good tt) handed_over hand_over_runs))).
Defined.

Lemma handover_terminates_witness :
  exists r s, wait_commit_restart 42 service_job launcher_path (Some "Local\ready")
                (mkClient start []) = Some (r, s).
Proof. exact (handover_terminates 42 service_job launcher_path (Some "Local\ready") start). Defined.

(** ** The pipe *)

(** For a second another process serves the pipe; then the service does. *)
Record PipeSystem := mkSystem { ps_clock : N; ps_sent : list byte }.

Definition ps_tick (d : N) (w : PipeSystem) : PipeSystem := mkSystem (ps_clock w + d) (ps_sent w).

Definition status_reply : list byte :=
  canonical_bytes (Object [("ok", VBool true); ("protocolMajor", number 1)]).

#[export] Instance test_system : ClientSystem PipeSystem := {
  cs_now := ps_clock;
  cs_sleep := ps_tick;
  cs_open_manager w := (true, w);
  cs_open_service w := (true, w);
  cs_start_service w := (ALREADY_RUNNING, w);
  cs_query_status w := (Some (RUNNING, 77%N), w);
  cs_wait_pipe _ w := (true, ps_tick 200 w);
  cs_open_pipe w := (true, w);
  cs_server_process w := (Some (if (ps_clock w <? 1000)%N then 13 else 77)%N, w);
  cs_message_mode w := (true, w);
  cs_create_event w := (PipeServer.Handle, w);
  cs_transact bytes w := (PipeServer.ERROR_IO_PENDING, mkSystem (ps_clock w) bytes);
  cs_wait _ w := (0%N, w);
  cs_cancel w := (true, w);
  cs_result _ w := ((0%N, N.of_nat (length status_reply)), w);
  cs_response _ := status_reply;
  cs_open_process _ w := (PipeServer.Handle, w);
  cs_wait_process _ d w := (PipeServer.WAIT_TIMEOUT, ps_tick d w);
  cs_open_event _ w := (PipeServer.Handle, w);
  cs_set_event w := (true, w);
  cs_regular_file _ _ := Some true;
  cs_spawn _ w := (true, w);
}.

#[export] Instance test_system_laws : ClientSystemLaws PipeSystem.
Proof.
  unshelve eexists; [exact (fun _ => True)|..]; cbn; try done; try (intros; apply N.le_refl).
  - intros p d w w' [= <-]. apply N.le_refl.
  - intros d w. lia.
  - intros w r w' [= <- <-] _. discriminate.
Qed.

Definition before_call : ClientState (ClientWorld PipeSystem) :=
  mkClient (mkClientWorld (mkSystem 0 []) [] false false) [].

Definition after_call : ClientState (ClientWorld PipeSystem) :=
  default before_call (snd <$> call_shared_service (GetStatus 1) before_call).

Definition call_name (c : PipeCall) : string :=
  match c with
  | AskedService None => "no process"
  | AskedService (Some pid) => "service " +:+ of_bytes (u64_to_string pid)
  | OpenedPipe b => if b then "opened" else "not opened"
  | AskedServer None => "no server"
  | AskedServer (Some pid) => "server " +:+ of_bytes (u64_to_string pid)
  | Sent message => "request of " +:+ of_bytes (u64_to_string (N.of_nat (length message))) +:+ " bytes"
  end.

(** Nothing is written to the foreign pipe; the service gets the request. *)
Lemma message_goes_to_the_service_witness :
  call_name <$> cw_trace (c_world after_call) =
    ["service 77"; "opened"; "server 13"; "service 77"; "opened"; "server 13";
     "service 77"; "opened"; "server 13"; "service 77"; "opened"; "server 13";
     "service 77"; "opened"; "server 77"; "request of 41 bytes"] /\
  exists t, cw_trace (c_world after_call) = t /\
    forall before message after, t = before ++ Sent message :: after ->
      verified before /\ after = [] /\ encode_request (GetStatus 1) = Ok message.
Proof.
  split; [computed|].
  destruct (message_goes_to_the_service (GetStatus 1) before_call) as (_ & _ & r & s' & t & Hc & Ht & Hs).
  exists t. split; [|exact Hs]. unfold after_call. rewrite Hc. exact Ht.
Defined.
