(* ===== verification/WindowsFiles.v ===== *)
(** * Files through Windows handles

    The handle helpers of src/src/windows.rs: opening a file or directory below a
    locked chain of parents, inspecting, renaming and deleting through the
    handle, over the directory trees of Transaction.

    A handle stands for the object at the place where it was opened: it is
    opened without sharing deletion, so nothing else moves the object while the
    handle is open.  The service's own operations move an object through its
    handle, which they have taken out of the table of kept handles first. *)

From S2P Require Import Prelude Errors Effects Identifiers Json Trust FileSet Roots Journal.
From S2P Require Import Storage Transaction LocalPlatform WindowsPath WindowsRegistry.

(** ** Relative paths *)

Definition relative_components (path : string) : Result (list string) :=
  _ ← ensure (negb (str_len path =? 0)%nat
              && negb (bool_decide ("\"%char ∈ as_bytes path))
              && negb (bool_decide (head (as_bytes path) = Some "/"%char))
              && negb (bool_decide (last (as_bytes path) = Some "/"%char)))
        FileSetPath "relative path is not normalized";
  mapM (fun c => match c with
    | Normal name => Ok (of_bytes name)
    | _ => Err (new_error FileSetPath "relative path contains traversal")
    end) (components path).

Definition job_relative (job : string) : string :=
  RESERVED_ROOT_DIRECTORY +:+ "/jobs/" +:+ job.

Definition prepared_relative_path (job : string) (index : N) : string :=
  job_relative job +:+ "/prepared/" +:+ of_bytes (u64_to_string index).

Definition backup_relative_path (job : string) (index : N) : string :=
  job_relative job +:+ "/backup/" +:+ of_bytes (u64_to_string index).

(** A file below a root: a target, a reserved file of a job, or another name in
    a reserved directory, where there are directories and links only. *)
Inductive Leaf :=
  | TargetFile (path : string)
  | PreparedFile (job : string) (index : N)
  | BackupFile (job : string) (index : N)
  | Stray (path : string).

Definition leaf_path (l : Leaf) : string :=
  match l with
  | TargetFile path | Stray path => path
  | PreparedFile job index => prepared_relative_path job index
  | BackupFile job index => backup_relative_path job index
  end.

(** ** What a tree has at a place *)

Inductive Node := NAbsent | NFile | NDirectory | NLink.

#[export] Instance Node_eq_dec : EqDecision Node.
Proof. solve_decision. Defined.

Definition node_at (d : RootDir) (place : list string) (file : option File) : Node :=
  if bool_decide (place ∈ rd_links d) then NLink
  else match file with
       | Some _ => NFile
       | None => if bool_decide (place = [] \/ place ∈ rd_dirs d) then NDirectory else NAbsent
       end.

(** Where the relative operations start: [RootLocation], with the identity for a
    registered root. *)
Record RootLocation := {
  rl_path : string;
  rl_identity : option DirectoryIdentity;
}.

Definition location (root : RegisteredRoot) : RootLocation :=
  {| rl_path := canonical_path root; rl_identity := Some (identity root) |}.

Definition unregistered (path : string) : RootLocation :=
  {| rl_path := path; rl_identity := None |}.

(** The answers of Windows that the trees do not determine. *)
Class WindowsVolumes := {
  (** [GetFinalPathNameByHandleW] of a directory of a tree *)
  final_path : World -> string -> list string -> option string;
  (** [GetDiskFreeSpaceExW] *)
  free_bytes : World -> string -> option N;
  (** the volume serial of a directory outside the trees *)
  serial_of_directory : World -> string -> Result N;
}.

Section files.
Context `{FileNames, NewFiles, WindowsVolumes}.

Definition find_leaf (d : RootDir) (l : Leaf) : option File :=
  match l with
  | TargetFile path => rd_files d !! fs_key path
  | PreparedFile job index => rs_prepared (reserved_of d job) !! index
  | BackupFile job index => rs_backup (reserved_of d job) !! index
  | Stray _ => None
  end.

Definition put_leaf (d : RootDir) (l : Leaf) (f : File) : RootDir :=
  match l with
  | TargetFile path => with_files d (<[fs_key path := f]> (rd_files d))
  | PreparedFile job index => set_prepared d job (<[index := f]> (rs_prepared (reserved_of d job)))
  | BackupFile job index => set_backup d job (<[index := f]> (rs_backup (reserved_of d job)))
  | Stray _ => d
  end.

Definition drop_leaf (d : RootDir) (l : Leaf) : RootDir :=
  match l with
  | TargetFile path => with_files d (delete (fs_key path) (rd_files d))
  | PreparedFile job index => set_prepared d job (delete index (rs_prepared (reserved_of d job)))
  | BackupFile job index => set_backup d job (delete index (rs_backup (reserved_of d job)))
  | Stray _ => d
  end.

Definition leaf_components (l : Leaf) : list string := default [] (ok (relative_components (leaf_path l))).

Definition leaf_node (d : RootDir) (l : Leaf) : Node := node_at d (leaf_components l) (find_leaf d l).

(** A directory on the way to [below]: it exists when it is listed and when the
    file below it exists. *)
Definition directory_node (w : World) (tree : string) (below : option Leaf) (place : list string)
    : Node :=
  match w_roots w !! tree with
  | Some d =>
      let node := node_at d place (rd_files d !! fs_key (path_of place)) in
      if decide (node = NAbsent /\ is_Some (l ← below; find_leaf d l)) then NDirectory else node
  | None => NAbsent
  end.

(** A change of one tree. *)
Definition update_tree (tree : string) (f : RootDir -> option RootDir) (w : World) : option World :=
  d ← w_roots w !! tree; d' ← f d;
  Some (set_roots w (<[tree := d']> (w_roots w))).

(** ** Questions to a handle *)

Definition query_error : MaintenanceError :=
  new_error RootIdentity "filesystem identity information cannot be queried".

Definition check_directory (n : Node) : Result () :=
  match n with
  | NLink => Err (new_error RootIdentity "opened filesystem object is a reparse point")
  | NDirectory => Ok tt
  | NFile | NAbsent =>
      Err (new_error RootIdentity "opened directory handle is not a stable directory")
  end.

Definition check_regular_file (n : Node) : Result () :=
  match n with
  | NLink => Err (new_error RootIdentity "opened filesystem object is a reparse point")
  | NFile => Ok tt
  | NDirectory | NAbsent =>
      Err (new_error RootIdentity "opened payload is not a stable single-link regular file")
  end.

Definition ensure_safe_directory (tree : string) (below : option Leaf) (place : list string)
    : M World () :=
  tx_read (fun w => check_directory (directory_node w tree below place)) query_error.

Definition leaf_node_in (w : World) (tree : string) (l : Leaf) : Node :=
  match w_roots w !! tree with Some d => leaf_node d l | None => NAbsent end.

Definition ensure_safe_regular_file (tree : string) (l : Leaf) : M World () :=
  tx_read (fun w => check_regular_file (leaf_node_in w tree l)) query_error.

Definition regular_file_snapshot (tree : string) (l : Leaf) : M World TargetSnapshot :=
  _ ← ensure_safe_regular_file tree l;
  tx_read (fun w =>
    f ← ok_or (d ← w_roots w !! tree; find_leaf d l) RootIdentity
          "filesystem identity information cannot be queried";
    Ok (f_snapshot f)) query_error.

Definition directory_identity (tree : string) : M World DirectoryIdentity :=
  _ ← ensure_safe_directory tree None [];
  tx_read (fun w => d ← ok_or (w_roots w !! tree) RootIdentity
                          "filesystem identity information cannot be queried";
                    Ok (rd_identity d)) query_error.

Definition final_path_owned (tree : string) (place : list string) : M World string :=
  tx_read (fun w => ok_or (final_path w tree place) RootIdentity
                      "canonical handle path cannot be obtained")
    (new_error RootIdentity "canonical handle path cannot be obtained").

Definition open_absolute_directory (tree : string) : M World () :=
  let e := new_error RootIdentity "directory handle cannot be opened without reparse traversal" in
  _ ← tx_read (fun w => if decide (directory_node w tree None [] = NAbsent) then Err e else Ok tt) e;
  ensure_safe_directory tree None [].

(** ** Parents and files *)

(** Opens, or creates, the directories of a path one below the other, each
    without following a link; [false] when one is absent. *)
Fixpoint lock_components (tree : string) (below : option Leaf) (create_missing : bool)
    (places : list (list string)) : M World bool :=
  match places with
  | [] => pure true
  | place :: places' =>
      let e := new_error RootIdentity "target parent cannot be opened safely" in
      node ← tx_read (fun w => Ok (directory_node w tree below place)) e;
      present ← (if decide (node = NAbsent) then
          if create_missing then
            _ ← tx_io (update_tree tree (fun d =>
                  if decide (node_at d place (rd_files d !! fs_key (path_of place)) = NAbsent)
                  then Some (with_dirs d ({[ place ]} ∪ rd_dirs d)) else None))
                (new_error TransactionIo "target parent directory cannot be created");
            _ ← tx_read (fun _ => Ok tt)
                  (new_error RootIdentity "created target parent cannot be opened safely");
            pure true
          else pure false
        else pure true);
      if (present : bool) then
        _ ← ensure_safe_directory tree below place;
        lock_components tree below create_missing places'
      else pure false
  end.

(** [below] is the file the chain leads to. *)
Definition lock_parent_chain (loc : RootLocation) (below : option Leaf) (parents : list string)
    (create_missing : bool) : M World bool :=
  let tree := rl_path loc in
  _ ← open_absolute_directory tree;
  _ ← match rl_identity loc with
      | None => pure tt
      | Some expected =>
          let e := new_error RootIdentity
                     "registered root handle identity or canonical path changed" in
          actual ← directory_identity tree;
          if decide (actual = expected) then
            path ← final_path_owned tree [];
            if decide (path = tree) then pure tt else fail e
          else fail e
      end;
  lock_components tree below create_missing (prefixes parents).

(** What a handle is opened for.  Reading attributes conflicts with no handle. *)
Inductive Access := ReadAttributes | DataOrDelete.

(** A kept handle shares neither writing nor deletion, and holds both rights. *)
Definition sharing_violation (w : World) (tree : string) (l : Leaf) (access : Access) : bool :=
  match access, l with
  | DataOrDelete, TargetFile path =>
      existsb (fun h => bool_decide (h.1.2 = tree) && bool_decide (fs_key h.2 = fs_key path))
        (elements (w_handles w))
  | _, _ => false
  end.

Definition open_relative_file (loc : RootLocation) (l : Leaf) (access : Access)
    (create_new create_parents : bool) : M World bool :=
  let tree := rl_path loc in
  let e := new_error TransactionIo "file handle cannot be opened under the locked root" in
  components ← lift (relative_components (leaf_path l));
  _ ← lift (ensure (negb (length components =? 0)%nat) FileSetPath "relative file path is empty");
  locked ← lock_parent_chain loc (Some l) (removelast components) create_parents;
  if (locked : bool) then
    found ← (if create_new then
        _ ← tx_io (fun w => update_tree tree (fun d =>
              if decide (leaf_node d l = NAbsent)
              then Some (put_leaf d l {| f_snapshot := new_snapshot w []; f_data := [] |})
              else None) w) e;
        pure true
      else tx_read (fun w =>
        match leaf_node_in w tree l with
        | NAbsent => Ok false
        | NDirectory => Err e
        | NFile | NLink => if sharing_violation w tree l access then Err e else Ok true
        end) e);
    if (found : bool) then _ ← ensure_safe_regular_file tree l; pure true else pure false
  else pure false.

(** ** Renames and deletions *)

(** The buffer of [FILE_RENAME_INFO] with its name: the length of the name, the
    bytes that are submitted and the words that are allocated. *)
Record RenameBuffer := {
  rb_name_bytes : N;
  rb_total : N;
  rb_words : N;
}.

(** [offset_of!(FILE_RENAME_INFO, FileName)] and [size_of::<usize>()] on i686. *)
Definition RENAME_HEADER : N := 12.
Definition WORD_BYTES : N := 4.

Definition rename_buffer (destination : string) : Result RenameBuffer :=
  let size_error := "rename buffer size overflowed" in
  let path_error := "rename path size overflowed" in
  let units := (N.of_nat (length (encode_utf16 destination)) / 2)%N in
  bytes ← ok_or (checked_mul usize_max units 2) TransactionState path_error;
  total ← ok_or (t ← checked_add usize_max RENAME_HEADER bytes; checked_add usize_max t 2)
            TransactionState size_error;
  rounded ← ok_or (checked_add usize_max total (WORD_BYTES - 1)) TransactionState size_error;
  Ok {| rb_name_bytes := bytes; rb_total := total; rb_words := (rounded / WORD_BYTES)%N |}.

(** [Path::join] of a name. *)
Definition join_path_name (parent name : string) : string :=
  match last (as_bytes parent) with
  | Some c => if path_sep c then parent +:+ name else parent +:+ "\" +:+ name
  | None => name
  end.

Definition rename_handle_relative (loc : RootLocation) (source destination : Leaf)
    (create_parents : bool) : M World () :=
  let tree := rl_path loc in
  components ← lift (relative_components (leaf_path destination));
  name ← lift (ok_or (last components) FileSetPath "rename destination is empty");
  locked ← lock_parent_chain loc (Some destination) (removelast components) create_parents;
  if (locked : bool) then
    parent ← final_path_owned tree (removelast components);
    _ ← lift (rename_buffer (join_path_name parent name));
    tx_io (update_tree tree (fun d =>
      f ← find_leaf d source;
      if decide (leaf_node d destination = NAbsent)
      then Some (put_leaf (drop_leaf d source) destination f) else None))
      (new_error TransactionIo "handle-based atomic rename failed")
  else fail (new_error TransactionIo "rename destination parent is unavailable").

Definition deletion_failed : MaintenanceError :=
  new_error TransactionIo "handle-based file deletion failed".

Definition delete_by_handle (tree : string) (l : Leaf) : M World () :=
  tx_io (update_tree tree (fun d => _ ← find_leaf d l; Some (drop_leaf d l))) deletion_failed.
End files.
