(* ===== verification/DirectoryNames.v ===== *)
(** * Names of a directory listing

    [directory_child_names] of src/src/windows.rs: the chain of
    [FILE_ID_BOTH_DIR_INFO] entries the file system writes into a buffer, and the
    names in it.  A read outside the buffer, which would be undefined behaviour,
    and a chain without end are [None] here; neither happens, whatever is in the
    buffer. *)

From S2P Require Import Prelude Errors WindowsRegistry.

(** ** UTF-16 *)

Definition utf8_of (c : N) : list byte :=
  let tail k := byte_of_N (128 + (c / k) mod 64) in
  (if c <? 128 then [byte_of_N c]
   else if c <? 2048 then [byte_of_N (192 + c / 64); tail 1]
   else if c <? 65536 then [byte_of_N (224 + c / 4096); tail 64; tail 1]
   else [byte_of_N (240 + c / 262144); tail 4096; tail 64; tail 1])%N.

(** [String::from_utf16], as code points: surrogates must come in pairs. *)
Fixpoint decode_utf16 (units : list N) : option (list N) :=
  match units with
  | [] => Some []
  | u :: us =>
      if (u <? 55296)%N || (57344 <=? u)%N then cons u <$> decode_utf16 us
      else match us with
      | v :: us' =>
          if (u <? 56320)%N && (56320 <=? v)%N && (v <? 57344)%N
          then cons (65536 + (u - 55296) * 1024 + (v - 56320))%N <$> decode_utf16 us'
          else None
      | [] => None
      end
  end.

(** ** Reads of the buffer *)

(** [8 * 1024] words of eight bytes. *)
Definition LISTING_BYTES : N := 65536.
(** The offset of [FileNameLength] and of [FileName] in [FILE_ID_BOTH_DIR_INFO]. *)
Definition NAME_LENGTH_OFFSET : N := 60.
Definition LISTING_HEADER : N := 104.

Section reads.
Context (buffer : list byte).

Definition byte_at (k : N) : option N := N_of_ascii <$> buffer !! N.to_nat k.

Definition u16_at (k : N) : option N := a ← byte_at k; b ← byte_at (k + 1); Some (a + 256 * b)%N.

Definition u32_at (k : N) : option N := a ← u16_at k; b ← u16_at (k + 2); Some (a + 65536 * b)%N.

(** [from_raw_parts] of 16-bit units. *)
Fixpoint units_at (k : N) (count : nat) : option (list N) :=
  match count with
  | O => Some []
  | S n => u ← u16_at k; us ← units_at (k + 2) n; Some (u :: us)
  end.

(** ** The chain of entries *)

Definition outside_buffer (end_ : option N) : bool :=
  match end_ with Some e => (LISTING_BYTES <? e)%N | None => true end.

Definition malformed : MaintenanceError :=
  new_error TransactionIo "reserved job directory enumeration is malformed".

Definition child_name (chars : list N) : list string :=
  let name := of_bytes (chars ≫= utf8_of) in
  if decide (name = "." \/ name = "..") then [] else [name].

Fixpoint entry_names (fuel : nat) (offset : N) : option (Result (list string)) :=
  match fuel with
  | O => None
  | S fuel' =>
      let header_end := checked_add usize_max offset LISTING_HEADER in
      if outside_buffer header_end then Some (Err malformed)
      else
        next ← u32_at offset;
        name_bytes ← u32_at (offset + NAME_LENGTH_OFFSET);
        if negb (name_bytes mod 2 =? 0)%N
           || outside_buffer (e ← header_end; checked_add usize_max e name_bytes)
        then Some (Err malformed)
        else
          units ← units_at (offset + LISTING_HEADER) (N.to_nat (name_bytes / 2));
          match decode_utf16 units with
          | None => Some (Err (new_error TransactionIo "reserved job entry name is not Unicode"))
          | Some chars =>
              if (next =? 0)%N then Some (Ok (child_name chars))
              else match checked_add usize_max offset next with
              | None => Some (Err malformed)
              | Some offset' =>
                  rest ← entry_names fuel' offset';
                  Some (names ← rest; Ok (child_name chars ++ names))
              end
          end
  end.

Definition listing_fuel : nat := N.to_nat (LISTING_BYTES + 1).
End reads.

(** ** The calls *)

(** An answer of [GetFileInformationByHandleEx] to a request for more entries. *)
Inductive ListingCall :=
  | Filled (bytes : list byte)
  | NoMoreFiles
  | ListingFailed.

(** What the system writes goes over what the buffer held. *)
Definition overlay (buffer bytes : list byte) : list byte :=
  take (N.to_nat LISTING_BYTES) (bytes ++ drop (length bytes) buffer).

Fixpoint listing_names (buffer : list byte) (calls : list ListingCall)
    : option (Result (list string)) :=
  match calls with
  | [] | NoMoreFiles :: _ => Some (Ok [])
  | ListingFailed :: _ =>
      Some (Err (new_error TransactionIo "reserved job directory cannot be enumerated"))
  | Filled bytes :: calls' =>
      let buffer := overlay buffer bytes in
      here ← entry_names buffer listing_fuel 0;
      match here with
      | Err e => Some (Err e)
      | Ok names =>
          rest ← listing_names buffer calls';
          Some (more ← rest; Ok (names ++ more))
      end
  end.

Definition directory_child_names (calls : list ListingCall) : option (Result (list string)) :=
  listing_names (replicate (N.to_nat LISTING_BYTES) "000"%char) calls.

(** ** No read leaves the buffer, and the chain ends *)

Section total.
Context (buffer : list byte) (Hbuffer : length buffer = N.to_nat LISTING_BYTES).

Lemma byte_at_inside k : (k < LISTING_BYTES)%N -> is_Some (byte_at buffer k).
Proof.
  intros Hk. apply fmap_is_Some, lookup_lt_is_Some. rewrite Hbuffer. lia.
Qed.

Lemma u16_at_inside k : (k + 2 <= LISTING_BYTES)%N -> is_Some (u16_at buffer k).
Proof.
  intros Hk. unfold u16_at.
  destruct (byte_at_inside k) as [a ->]; [lia|].
  destruct (byte_at_inside (k + 1)) as [b ->]; [lia|]. by eexists.
Qed.

Lemma u32_at_inside k : (k + 4 <= LISTING_BYTES)%N -> is_Some (u32_at buffer k).
Proof.
  intros Hk. unfold u32_at.
  destruct (u16_at_inside k) as [a ->]; [lia|].
  destruct (u16_at_inside (k + 2)) as [b ->]; [lia|]. by eexists.
Qed.

Lemma units_at_inside n k :
  (k + 2 * N.of_nat n <= LISTING_BYTES)%N -> is_Some (units_at buffer k n).
Proof.
  revert k. induction n as [|n IH]; intros k Hk; [by eexists|]. cbn [units_at].
  destruct (u16_at_inside k) as [u ->]; [lia|].
  destruct (IH (k + 2)%N) as [us Eus]; [lia|]. cbn. rewrite Eus. by eexists.
Qed.

Lemma outside_buffer_false o : outside_buffer o = false -> exists e, o = Some e /\ (e <= LISTING_BYTES)%N.
Proof.
  destruct o as [e|]; [|done]. cbn. intros He%N.ltb_ge. by exists e.
Qed.

Lemma entry_names_total fuel offset :
  (N.to_nat (LISTING_BYTES - offset) < fuel)%nat -> is_Some (entry_names buffer fuel offset).
Proof.
  revert offset. induction fuel as [|fuel IH]; intros offset Hf; [lia|]. cbn [entry_names].
  destruct (outside_buffer (checked_add usize_max offset LISTING_HEADER)) eqn:Eh; [by eexists|].
  apply outside_buffer_false in Eh as (e & Ee & He). rewrite Ee.
  apply checked_add_Some in Ee as [-> _]. unfold LISTING_HEADER in *.
  destruct (u32_at_inside offset) as [next ->]; [lia|].
  destruct (u32_at_inside (offset + NAME_LENGTH_OFFSET)) as [bytes ->];
    [unfold NAME_LENGTH_OFFSET; lia|]. cbn [mbind option_bind].
  destruct (negb (bytes mod 2 =? 0)%N) eqn:Eeven; [by eexists|]. cbn [orb].
  destruct (outside_buffer (checked_add usize_max _ bytes)) eqn:En; [by eexists|].
  apply outside_buffer_false in En as (e & Ee & He'). apply checked_add_Some in Ee as [-> _].
  destruct (units_at_inside (N.to_nat (bytes / 2)) (offset + 104)) as [units ->].
  { rewrite N2Nat.id. pose proof (N.Div0.mul_div_le bytes 2). lia. }
  cbn [mbind option_bind]. destruct (decode_utf16 units); [|by eexists].
  destruct (N.eqb_spec next 0); [by eexists|].
  destruct (checked_add usize_max offset next) as [offset'|] eqn:Eo; [|by eexists].
  apply checked_add_Some in Eo as [-> _].
  destruct (IH (offset + next)%N) as [rest ->]; [unfold LISTING_BYTES in *; lia|]. by eexists.
Qed.
End total.

Lemma overlay_length buffer bytes :
  length buffer = N.to_nat LISTING_BYTES -> length (overlay buffer bytes) = N.to_nat LISTING_BYTES.
Proof.
  intros Hb. unfold overlay. rewrite length_take, length_app, length_drop, Hb. lia.
Qed.

Lemma listing_names_total buffer calls :
  length buffer = N.to_nat LISTING_BYTES -> is_Some (listing_names buffer calls).
Proof.
  revert buffer. induction calls as [|[bytes| |] calls IH]; intros buffer Hb; [by eexists| |by eexists..].
  cbn [listing_names]. pose proof (overlay_length buffer bytes Hb) as Ho.
  destruct (entry_names_total (overlay buffer bytes) Ho listing_fuel 0) as [[names|e] ->];
    [unfold listing_fuel; lia| |by eexists].
  cbn [mbind option_bind]. destruct (IH _ Ho) as [rest ->]. by eexists.
Qed.

(** Listing a directory is safe whatever the file system writes: for every
    sequence of buffers, of any content, no read leaves the 64 KiB buffer and the
    walk along the entries ends. *)
Theorem directory_child_names_total calls : exists r, directory_child_names calls = Some r.
Proof.
  apply (listing_names_total _ calls). apply length_replicate.
Qed.

(** ** The names that come out *)

(** The code points [String::from_utf16] can give. *)
Definition scalar (c : N) : Prop := (c < 55296 \/ 57344 <= c < 1114112)%N.

Definition units_of (c : N) : list N :=
  (if c <? 65536 then [c] else [55296 + (c - 65536) / 1024; 56320 + (c - 65536) mod 1024])%N.

Lemma decode_utf16_units chars :
  Forall scalar chars -> decode_utf16 (chars ≫= units_of) = Some chars.
Proof.
  induction 1 as [|c chars Hc _ IH]; [done|]. cbn [mbind list_bind].
  unfold units_of at 1. destruct (N.ltb_spec c 65536) as [Hs|Hs].
  - cbn [app decode_utf16].
    replace ((c <? 55296) || (57344 <=? c))%N with true; [by rewrite IH|].
    symmetry. apply orb_true_iff. destruct Hc; [left|right]; [by apply N.ltb_lt|apply N.leb_le; lia].
  - assert (c < 1114112)%N as Hmax by (destruct Hc; lia).
    pose proof (N.Div0.div_lt_upper_bound (c - 65536) 1024 1024 ltac:(lia)) as Hq.
    pose proof (N.mod_lt (c - 65536) 1024 ltac:(lia)) as Hr.
    pose proof (N.div_mod (c - 65536) 1024 ltac:(lia)) as Hd.
    set (q := ((c - 65536) / 1024)%N) in *. set (r := ((c - 65536) mod 1024)%N) in *.
    cbn [app decode_utf16].
    replace ((55296 + q <? 55296) || (57344 <=? 55296 + q))%N with false by
      (symmetry; apply orb_false_iff; split; [apply N.ltb_ge|apply N.leb_gt]; lia).
    replace ((55296 + q <? 56320) && (56320 <=? 56320 + r) && (56320 + r <? 57344))%N with true by
      (symmetry; rewrite !andb_true_iff, N.leb_le, !N.ltb_lt; lia).
    rewrite IH. cbn. do 2 f_equal. lia.
Qed.

(** The buffer has, at the offset, an entry with this name that points [next]
    bytes on. *)
Record entry_at (buffer : list byte) (offset next : N) (chars : list N) : Prop := {
  ea_scalar : Forall scalar chars;
  ea_next : u32_at buffer offset = Some next;
  ea_length : u32_at buffer (offset + NAME_LENGTH_OFFSET)
              = Some (2 * N.of_nat (length (chars ≫= units_of)))%N;
  ea_name : units_at buffer (offset + LISTING_HEADER) (length (chars ≫= units_of))
            = Some (chars ≫= units_of);
  ea_inside : (offset + LISTING_HEADER + 2 * N.of_nat (length (chars ≫= units_of))
               <= LISTING_BYTES)%N;
}.

Inductive entry_chain (buffer : list byte) : N -> list (list N) -> Prop :=
  | chain_last offset chars :
      entry_at buffer offset 0 chars -> entry_chain buffer offset [chars]
  | chain_more offset next chars rest :
      entry_at buffer offset next chars -> next <> 0%N ->
      entry_chain buffer (offset + next) rest -> entry_chain buffer offset (chars :: rest).

Lemma entry_chain_inside buffer offset names :
  entry_chain buffer offset names -> (offset + LISTING_HEADER <= LISTING_BYTES)%N.
Proof. destruct 1 as [? ? []|? ? ? ? []]; lia. Qed.

Lemma entry_names_chain buffer fuel offset names :
  entry_chain buffer offset names -> (N.to_nat (LISTING_BYTES - offset) < fuel)%nat ->
  entry_names buffer fuel offset = Some (Ok (names ≫= child_name)).
Proof.
  intros Hc. revert fuel.
  assert (forall offset next chars, entry_at buffer offset next chars -> forall fuel,
    entry_names buffer (S fuel) offset =
      if (next =? 0)%N then Some (Ok (child_name chars))
      else match checked_add usize_max offset next with
           | None => Some (Err malformed)
           | Some offset' => rest ← entry_names buffer fuel offset';
                             Some (names ← rest; Ok (child_name chars ++ names))
           end) as Hstep.
  { clear. intros offset next chars [Hs Hn Hl Hname Hin] fuel. cbn [entry_names].
    assert (LISTING_BYTES < usize_max)%N by done.
    rewrite (checked_add_ok usize_max offset) by lia. cbn [outside_buffer].
    rewrite (proj2 (N.ltb_ge _ _)) by lia. rewrite Hn, Hl. cbn [mbind option_bind].
    rewrite (checked_add_ok usize_max) by lia. cbn [outside_buffer].
    rewrite (proj2 (N.ltb_ge _ _)) by lia.
    rewrite N.mul_comm, N.Div0.mod_mul, N.div_mul, Nat2N.id, Hname by lia.
    cbn [negb orb N.eqb mbind option_bind]. by rewrite decode_utf16_units. }
  induction Hc as [offset chars He|offset next chars rest He Hnext Hc IH]; intros fuel Hf;
    (destruct fuel as [|fuel]; [lia|]); rewrite (Hstep _ _ _ He).
  - cbn. by rewrite app_nil_r.
  - rewrite (proj2 (N.eqb_neq _ _) Hnext).
    pose proof (entry_chain_inside _ _ _ Hc) as Hin. pose proof (ea_inside _ _ _ _ He) as Hi0.
    unfold LISTING_HEADER, LISTING_BYTES in *.
    rewrite checked_add_ok by (unfold usize_max, u32_max; lia). rewrite IH; [done|].
    unfold LISTING_BYTES. lia.
Qed.

(** The names a file system reports in one buffer are the names that come out,
    without the directory itself and its parent. *)
Theorem directory_child_names_reported bytes names :
  entry_chain (overlay (replicate (N.to_nat LISTING_BYTES) "000"%char) bytes) 0 names ->
  directory_child_names [Filled bytes; NoMoreFiles] = Some (Ok (names ≫= child_name)).
Proof.
  intros Hc. unfold directory_child_names. cbn [listing_names].
  rewrite (entry_names_chain _ _ _ _ Hc) by (unfold listing_fuel; lia).
  cbn. by rewrite app_nil_r.
Qed.
