(* ===== verification/AccessControl.v ===== *)
(** * Access control

    The access tokens of src/src/windows.rs, the grant to the users of a shared
    library, and the protected data directory of src/src/windows_data_directory.rs:
    its security is read and checked, a missing directory is created and an
    existing one hardened.  What Windows does is an interface; what it grants to a
    principal is bounded by [grants], after its documentation.  Closing a handle is
    not modelled: a handle is a number. *)

From S2P Require Import PipeServer.
From S2P Require Import Prelude Errors Effects Identifiers Roots RegistryScopes Protocol Authorization.
From S2P Require Import WindowsFiles DirectoryNames WindowsPath.

#[local] Abbreviation denied detail := (new_error RootUnauthorized detail).

(** ** Access tokens *)

(** [ConvertSidToStringSidW]: [None] when it fails, [Some None] when its text is
    not Unicode. *)
Class SidText := convert_sid : list byte -> option (option string).

Definition sid_to_text `{SidText} (not_encoded invalid : string) (s : list byte) : Result string :=
  text ← ok_or (convert_sid s) RootUnauthorized not_encoded;
  ok_or text RootUnauthorized invalid.

(** What Windows answers about a token: the size of its user information and the
    SID in it, values with the size that was returned. *)
Record Token := {
  tk_user_size : N;
  tk_user : option (list byte);
  tk_elevation : option (N * N);
  tk_type : option (N * N);
  tk_duplicate : Opened;
  tk_administrator_sid : bool;
  tk_member : option bool;
}.

(** The sizes of [usize] and of [TOKEN_ELEVATION] and [TOKEN_TYPE], and two types. *)
Definition USIZE_BYTES : N := 4.
Definition TOKEN_VALUE_BYTES : N := 4.
Definition TOKEN_PRIMARY : N := 1.
Definition TOKEN_IMPERSONATION : N := 2.

Section tokens.
Context `{SidText}.

Definition token_user_sid (t : Token) : Result string :=
  let needed := tk_user_size t in
  _ ← ensure (negb ((needed =? 0) || (64 * 1024 <? needed))%N) RootUnauthorized
        "caller token user information has an invalid size";
  _ ← ok_or (checked_add usize_max needed (USIZE_BYTES - 1)) RootUnauthorized
        "caller token user information size overflowed";
  user ← ok_or (tk_user t) RootUnauthorized "caller token user information cannot be read";
  sid_to_text "caller SID cannot be encoded" "caller SID string is invalid" user.

Definition token_is_elevated (t : Token) : Result bool :=
  '(value, returned) ← ok_or (tk_elevation t) RootUnauthorized "caller token elevation cannot be read";
  _ ← ensure (returned =? TOKEN_VALUE_BYTES)%N RootUnauthorized
        "caller token elevation has an invalid size";
  Ok (negb (value =? 0)%N).

Definition token_type (t : Token) : Result N :=
  '(value, returned) ← ok_or (tk_type t) RootUnauthorized
                          "administrator membership token type cannot be read";
  _ ← ensure (returned =? TOKEN_VALUE_BYTES)%N RootUnauthorized
        "administrator membership token type has an invalid size";
  Ok value.

Definition token_is_administrator (t : Token) : Result bool :=
  kind ← token_type t;
  _ ← (if (kind =? TOKEN_PRIMARY)%N then
         kernel_handle (tk_duplicate t)
           (denied "primary token cannot be duplicated for administrator membership")
           (denied "administrator membership token is invalid")
       else ensure (kind =? TOKEN_IMPERSONATION)%N RootUnauthorized
              "administrator membership token has an unsupported type");
  _ ← ensure (tk_administrator_sid t) RootUnauthorized "administrator SID cannot be constructed";
  ok_or (tk_member t) RootUnauthorized "administrator membership cannot be checked".

(** The token of the impersonating thread: its handle and what it answers. *)
Definition current_thread_caller_identity (opened : Opened) (t : Token) : Result CallerIdentity :=
  _ ← kernel_handle opened (denied "impersonated caller token cannot be opened")
        (denied "impersonated caller token is invalid");
  who ← token_user_sid t;
  elevated ← token_is_elevated t;
  administrator ← token_is_administrator t;
  new_caller who (elevated && administrator).

Definition elevated_installer_sid (opened : Opened) (t : Token) : Result string :=
  _ ← kernel_handle opened (denied "installer token cannot be opened")
        (denied "installer token is invalid");
  elevated ← token_is_elevated t;
  administrator ← (if (elevated : bool) then token_is_administrator t else Ok false);
  _ ← ensure administrator RootUnauthorized
        "protected service data directory requires an elevated administrator";
  token_user_sid t.
End tokens.

(** ** Security of a directory *)

Definition DATA_PARENT_NAME : string := "SE7EN".
Definition DATA_DIRECTORY_NAME : string := "Service".
Definition DATA_PARENT_SDDL : string := "O:BAD:P(A;OICI;FA;;;SY)(A;OICI;FA;;;BA)(A;OICI;0x1200a9;;;BU)".
Definition DATA_DIRECTORY_SDDL : string := "O:BAD:P(A;OICI;FA;;;SY)(A;OICI;FA;;;BA)".

Definition SYSTEM_SID : string := "S-1-5-18".
Definition ADMINISTRATORS_SID : string := "S-1-5-32-544".
Definition TRUSTED_INSTALLER_SID : string :=
  "S-1-5-80-956008885-3418522649-1831038044-1853292631-2271478464".
Definition CREATOR_OWNER_SID : string := "S-1-3-0".
Definition CREATOR_GROUP_SID : string := "S-1-3-1".

Definition INHERIT_ONLY_ACE : N := 8.

(** DELETE, WRITE_DAC, WRITE_OWNER, FILE_DELETE_CHILD, MAXIMUM_ALLOWED, GENERIC_ALL. *)
Definition TAKEOVER_RIGHTS : N := foldr N.lor 0%N [65536; 262144; 524288; 64; 33554432; 268435456]%N.
(** FILE_ADD_FILE, FILE_ADD_SUBDIRECTORY, FILE_WRITE_EA, FILE_WRITE_ATTRIBUTES, GENERIC_WRITE. *)
Definition WRITE_RIGHTS : N := foldr N.lor TAKEOVER_RIGHTS [2; 4; 16; 256; 1073741824]%N.

Definition NON_GRANTING_ACE_TYPES : list N := [1; 2; 3; 6; 7; 8; 10; 12; 13; 14; 15; 16; 17; 18; 19; 20; 21]%N.
Definition SIMPLE_SID_ACE_TYPES : list N := [0; 1; 9]%N.

Inductive DirectoryRole := Parent | Data.

#[export] Instance DirectoryRole_eq_dec : EqDecision DirectoryRole.
Proof. solve_decision. Defined.

(** [ae_sid] is [None] for an object ACE, whose SID is never trusted. *)
Record AccessEntry := { ace_type : N; ace_flags : N; ae_mask : N; ae_sid : option string }.

(** [ds_entries] is [None] for a NULL DACL, which grants everyone full access. *)
Record DirectorySecurity := {
  ds_owner : string;
  dacl_protected : bool;
  ds_entries : option (list AccessEntry);
}.

Definition trusted_owner (s : string) : bool :=
  bool_decide (s ∈ [SYSTEM_SID; ADMINISTRATORS_SID; TRUSTED_INSTALLER_SID]).

Definition security_error (detail : string) : MaintenanceError := denied detail.

Definition forbidden_rights (role : DirectoryRole) : N :=
  match role with Parent => TAKEOVER_RIGHTS | Data => WRITE_RIGHTS end.

Definition is_inherit_only (e : AccessEntry) : bool :=
  negb (N.land (ace_flags e) INHERIT_ONLY_ACE =? 0)%N.

Definition trusted_entry (e : AccessEntry) : bool :=
  match ae_sid e with
  | Some s => trusted_owner s
              || (is_inherit_only e && bool_decide (s = CREATOR_OWNER_SID \/ s = CREATOR_GROUP_SID))
  | None => false
  end.

(** One entry of the DACL: whether the loop goes on. *)
Definition entry_allowed (role : DirectoryRole) (e : AccessEntry) : bool :=
  bool_decide (ace_type e ∈ NON_GRANTING_ACE_TYPES)
  || (bool_decide (role = Parent) && is_inherit_only e)
  || trusted_entry e
  || (N.land (ae_mask e) (forbidden_rights role) =? 0)%N.

Fixpoint check_entries (role : DirectoryRole) (entries : list AccessEntry) : Result () :=
  match entries with
  | [] => Ok tt
  | e :: entries' =>
      if entry_allowed role e then check_entries role entries'
      else Err (security_error
             "protected service data directory grants write access to a non-administrator")
  end.

Definition check_directory_security (s : DirectorySecurity) (role : DirectoryRole) : Result () :=
  if negb (trusted_owner (ds_owner s)) then
    Err (security_error "protected service data directory is owned by a non-administrator")
  else match ds_entries s with
  | None => Err (security_error "protected service data directory has a NULL DACL")
  | Some entries =>
      if bool_decide (role = Data) && negb (dacl_protected s) then
        Err (security_error "protected service data directory inherits permissions from its parent")
      else check_entries role entries
  end.

(** ** Reading a security descriptor *)

(** A descriptor through the calls that take it apart: [None] where the call fails.
    The owner may be absent; the DACL may be absent or null; the entries are the
    bytes of the ACEs. *)
Record Descriptor := {
  sd_owner : option (option (list byte));
  sd_control : option N;
  sd_dacl : option (option (option (list (option (list byte)))));
}.

Definition SE_DACL_PROTECTED : N := 4096.

Section descriptors.
Context `{SidText}.

Definition sid_text (s : list byte) : Result string :=
  sid_to_text "directory security SID cannot be encoded" "directory security SID string is invalid" s.

(** [None]: the code reads beyond the bytes. *)
Definition access_entry (ace : list byte) : option (Result AccessEntry) :=
  kind ← byte_at ace 0;
  flags ← byte_at ace 1;
  size ← u16_at ace 2;
  if (size <? 8)%N then Some (Err (security_error "directory DACL entry is truncated"))
  else
    mask ← u32_at ace 4;
    let entry s := {| ace_type := kind; ace_flags := flags; ae_mask := mask; ae_sid := s |} in
    Some (if bool_decide (kind ∈ SIMPLE_SID_ACE_TYPES) then
            if (size <? 16)%N then Err (security_error "directory DACL entry has no SID")
            else s ← sid_text (drop 8 ace); Ok (entry (Some s))
          else Ok (entry None)).

Fixpoint access_entries (aces : list (option (list byte))) : option (Result (list AccessEntry)) :=
  match aces with
  | [] => Some (Ok [])
  | None :: _ => Some (Err (security_error "directory DACL entry cannot be read"))
  | Some ace :: aces' =>
      e ← access_entry ace;
      match e with
      | Err error => Some (Err error)
      | Ok e => rest ← access_entries aces'; Some (es ← rest; Ok (e :: es))
      end
  end.

Definition security_from_descriptor (d : Descriptor) : option (Result DirectorySecurity) :=
  let owner :=
    owner ← ok_or (sd_owner d) RootUnauthorized "directory owner cannot be read";
    owner ← ok_or owner RootUnauthorized "directory has no owner";
    sid_text owner in
  let dacl :=
    control ← ok_or (sd_control d) RootUnauthorized "directory security control cannot be read";
    dacl ← ok_or (sd_dacl d) RootUnauthorized "directory DACL cannot be read";
    match dacl with
    | None => Ok (control, None)
    | Some aces => aces ← ok_or aces RootUnauthorized "directory DACL size cannot be read";
                   Ok (control, Some aces)
    end in
  match owner, dacl with
  | Err e, _ => Some (Err e)
  | Ok _, Err e => Some (Err e)
  | Ok owner, Ok (control, aces) =>
      let security entries :=
        {| ds_owner := owner; dacl_protected := negb (N.land control SE_DACL_PROTECTED =? 0)%N;
           ds_entries := entries |} in
      match aces with
      | None => Some (Ok (security None))
      | Some aces => entries ← access_entries aces; Some (es ← entries; Ok (security (Some es)))
      end
  end.
End descriptors.

(** ** The directories *)

(** Attributes of a file by its handle. *)
Definition FILE_ATTRIBUTE_REPARSE_POINT : N := 1024.
Definition ERROR_NOT_FOUND : list N := [2; 3]%N.
Definition ERROR_ALREADY_EXISTS : N := 183.
Definition FINAL_PATH_UNITS : N := 32768.
(** DACL_SECURITY_INFORMATION and PROTECTED_DACL_SECURITY_INFORMATION, and
    OWNER_SECURITY_INFORMATION. *)
Definition DACL_INFORMATION : N := N.lor 4 2147483648.
Definition OWNER_INFORMATION : N := 1.

(** An entry that [SetEntriesInAclW] merges. *)
Record ExplicitAccess := {
  ea_permissions : N;
  ea_inheritance : N;
  ea_sid : list byte;
}.

(** Handles are numbers; a status is zero or an error of Windows. *)
Class DirectorySystem (D : Type) := {
  (** the known folder of program data: [None] when it is unavailable, [Some None]
      when it is not Unicode *)
  dy_program_data : D -> option (option string) * D;
  (** [ProgramFilesDir] in the 64-bit view: the status and the buffer's units *)
  dy_program_files : D -> (N * list N) * D;
  (** a directory opened without following a reparse point, for reading its
      security, to change it too or (the last) without sharing writes *)
  dy_open : string -> bool -> D -> (N * N) * D;
  dy_open_exclusive : string -> D -> (N * N) * D;
  dy_attributes : N -> D -> option N * D;
  (** whether it is a directory and is being deleted *)
  dy_standard : N -> D -> option (bool * bool) * D;
  dy_final_path : N -> D -> (N * list N) * D;
  dy_security : N -> D -> option Descriptor * D;
  dy_parse : string -> D -> option Descriptor * D;
  dy_create : string -> Descriptor -> D -> N * D;
  dy_set_security : N -> N -> Descriptor -> D -> bool * D;
  dy_token : D -> (Opened * Token) * D;
  (** [ConvertStringSidToSidW]: [Some []] is a null SID *)
  dy_string_sid : string -> D -> option (list byte) * D;
  (** the DACL of a directory, entries merged into it, the DACL set *)
  dy_dacl : N -> D -> option (option (list (list byte))) * D;
  dy_merge : list ExplicitAccess -> option (list (list byte)) -> D -> option (list (list byte)) * D;
  dy_set_dacl : N -> list (list byte) -> D -> bool * D;
}.

(** The handles that keep the directories in their places, and the path. *)
Record ProtectedDataDirectory := { pd_parent : N; pd_directory : N; pd_path : string }.

Section directories.
Context `{SidText} {D : Type} `{!DirectorySystem D}.

(** *** System folders *)

(** [parent] is that of [Path::parent]. *)
Definition absolute_system_folder (path : option string) (detail : string) : Result string :=
  let path := default "" path in
  if path_is_absolute path && bool_decide (is_Some (parent path)) then Ok path
  else Err (new_error TransactionState detail).

Definition program_data_root : M D string :=
  folder ← answer dy_program_data;
  lift (path ← ok_or folder TransactionState "ProgramData is unavailable";
        absolute_system_folder path "ProgramData is not an absolute path").

(** The units up to the first zero. *)
Fixpoint before_zero (units : list N) : option (list N) :=
  match units with
  | [] => None
  | u :: us => if (u =? 0)%N then Some [] else cons u <$> before_zero us
  end.

Definition text_of_units (units : list N) : option string :=
  (fun points => of_bytes (concat (utf8_of <$> points))) <$> decode_utf16 units.

Definition program_files_root : M D string :=
  '(status, buffer) ← answer dy_program_files;
  _ ← lift (ensure (status =? 0)%N TransactionState "Program Files is unavailable");
  lift (absolute_system_folder (text_of_units (default [] (before_zero buffer)))
          "Program Files is not an absolute path").

Definition service_data_directory : M D string :=
  root ← program_data_root;
  pure (join_path_name (join_path_name root DATA_PARENT_NAME) DATA_DIRECTORY_NAME).

(** *** Handles *)

Definition queried {A} (o : option A) : Result A :=
  ok_or o RootIdentity "filesystem identity information cannot be queried".

Definition ensure_stable_directory (h : N) : M D () :=
  attributes ← answer (dy_attributes h);
  attributes ← lift (queried attributes);
  _ ← lift (ensure (N.land attributes FILE_ATTRIBUTE_REPARSE_POINT =? 0)%N RootIdentity
        "opened filesystem object is a reparse point");
  standard ← answer (dy_standard h);
  '(directory, pending) ← lift (queried standard);
  lift (ensure (directory && negb pending) RootIdentity
          "opened directory handle is not a stable directory").

(** [open_absolute_directory] *)
Definition lock_directory (path : string) : M D N :=
  '(status, h) ← answer (dy_open_exclusive path);
  _ ← lift (ensure (status =? 0)%N RootIdentity
        "directory handle cannot be opened without reparse traversal");
  _ ← ensure_stable_directory h;
  pure h.

Definition open_existing_directory (path : string) (modify_security : bool) : M D (option N) :=
  '(status, h) ← answer (dy_open path modify_security);
  if (status =? 0)%N then _ ← ensure_stable_directory h; pure (Some h)
  else if bool_decide (status ∈ ERROR_NOT_FOUND) then pure None
  else fail (new_error RootIdentity "protected service data directory cannot be opened safely").

(** [final_path_owned] *)
Definition final_path_of (h : N) : M D string :=
  '(length, buffer) ← answer (dy_final_path h);
  _ ← lift (ensure (negb ((length =? 0) || (FINAL_PATH_UNITS <=? length))%N) RootIdentity
        "canonical handle path cannot be obtained");
  lift (ok_or (text_of_units (take (N.to_nat length) buffer)) RootIdentity
          "canonical handle path is invalid Unicode").

Definition ensure_final_path (h : N) (expected : string) : M D () :=
  actual ← final_path_of h;
  lift (ensure (eq_ignore_ascii_case (default actual (strip_prefix "\\?\" actual)) expected)
          RootIdentity "protected service data directory resolved to a different location").

Definition directory_security (h : N) : M D DirectorySecurity :=
  descriptor ← answer (dy_security h);
  descriptor ← lift (ok_or descriptor RootUnauthorized "directory security cannot be read");
  match security_from_descriptor descriptor with
  | Some security => lift security
  | None => crash
  end.

Definition check_opened_directory (h : N) (role : DirectoryRole) : M D () :=
  security ← directory_security h; lift (check_directory_security security role).

Definition required_directory (c : ErrorCode) (detail : string) (h : option N) : M D N :=
  lift (ok_or h c detail).

(** *** Opening and provisioning *)

Definition open_service_data_directory : M D ProtectedDataDirectory :=
  root ← program_data_root;
  let parent_path := join_path_name root DATA_PARENT_NAME in
  let path := join_path_name parent_path DATA_DIRECTORY_NAME in
  let missing := required_directory TransactionState "protected service data directory is missing" in
  parent ← open_existing_directory parent_path false;
  parent ← missing parent;
  _ ← check_opened_directory parent Parent;
  directory ← open_existing_directory path false;
  directory ← missing directory;
  _ ← check_opened_directory directory Data;
  _ ← ensure_final_path directory path;
  pure {| pd_parent := parent; pd_directory := directory; pd_path := path |}.

(** [LocalSecurityDescriptor::parse] *)
Definition parse_descriptor (sddl : string) : M D Descriptor :=
  descriptor ← answer (dy_parse sddl);
  lift (ok_or descriptor RootUnauthorized "security descriptor could not be constructed").

(** The directory is created unless another process was first. *)
Definition create_protected_directory (path : string) (descriptor : Descriptor) : M D () :=
  status ← answer (dy_create path descriptor);
  lift (ensure ((status =? 0) || (status =? ERROR_ALREADY_EXISTS))%N TransactionIo
          "protected service data directory cannot be created").

(** The security to check and what to set: a directory of the installer's own
    account is given to the administrators. *)
Definition taken_over (installer_sid : string) (s : DirectorySecurity) : DirectorySecurity * N :=
  if decide (ds_owner s = installer_sid) then
    ({| ds_owner := ADMINISTRATORS_SID; dacl_protected := dacl_protected s; ds_entries := ds_entries s |},
     N.lor DACL_INFORMATION OWNER_INFORMATION)
  else (s, DACL_INFORMATION).

Definition provision_directory (path sddl : string) (role : DirectoryRole) (installer_sid : string)
    : M D N :=
  descriptor ← parse_descriptor sddl;
  existing ← open_existing_directory path true;
  _ ← match existing with Some _ => pure tt | None => create_protected_directory path descriptor end;
  directory ← open_existing_directory path true;
  directory ← required_directory RootIdentity "created service data directory cannot be opened" directory;
  security ← directory_security directory;
  let '(security, information) := taken_over installer_sid security in
  _ ← lift (check_directory_security security role);
  set ← answer (dy_set_security directory information descriptor);
  _ ← lift (ensure set RootUnauthorized "protected service data directory DACL cannot be applied");
  _ ← check_opened_directory directory role;
  pure directory.

Definition provision_service_data_directory : M D ProtectedDataDirectory :=
  root ← program_data_root;
  _ ← lock_directory root;
  let parent_path := join_path_name root DATA_PARENT_NAME in
  let path := join_path_name parent_path DATA_DIRECTORY_NAME in
  '(opened, token) ← answer dy_token;
  installer_sid ← lift (elevated_installer_sid opened token);
  _ ← provision_directory parent_path DATA_PARENT_SDDL Parent installer_sid;
  directory ← provision_directory path DATA_DIRECTORY_SDDL Data installer_sid;
  _ ← ensure_final_path directory path;
  open_service_data_directory.

(** *** The users of a shared library *)

(** Generic read, write and execute, and DELETE. *)
Definition ROOT_MODIFY_ACCESS_MASK : N := foldr N.lor 0%N [1179785; 1179926; 1179808; 65536]%N.
Definition BUILTIN_USERS_SID : string := "S-1-5-32-545".
Definition SUB_CONTAINERS_AND_OBJECTS_INHERIT : N := 3.

Definition string_sid (value : string) : M D (list byte) :=
  s ← answer (dy_string_sid value);
  s ← lift (ok_or s RootUnauthorized "registered root owner SID cannot be parsed");
  _ ← lift (ensure (negb (bool_decide (s = []))) RootUnauthorized "registered root owner SID is empty");
  pure s.

Definition root_modify_access_entry (s : list byte) : ExplicitAccess :=
  {| ea_permissions := ROOT_MODIFY_ACCESS_MASK;
     ea_inheritance := SUB_CONTAINERS_AND_OBJECTS_INHERIT; ea_sid := s |}.

Definition merge_root_access_entries (root : N) (entries : list ExplicitAccess) : M D () :=
  old_acl ← answer (dy_dacl root);
  old_acl ← lift (ok_or old_acl RootUnauthorized "registered root DACL cannot be read");
  new_acl ← answer (dy_merge entries old_acl);
  new_acl ← lift (ok_or new_acl RootUnauthorized
                    "maintenance service root ACE cannot be constructed");
  set ← answer (dy_set_dacl root new_acl);
  lift (ensure set RootUnauthorized "maintenance service root ACE cannot be applied").

Definition grant_shared_library_user_access (root : N) : M D () :=
  users ← string_sid BUILTIN_USERS_SID;
  merge_root_access_entries root [root_modify_access_entry users].
End directories.

(** ** What Windows grants *)

(** An upper bound of the access check for a token with these SIDs and without
    privileges: deny entries only take rights away.  Generic rights stand for the
    file rights they are mapped to. *)
Definition FILE_ALL_ACCESS : N := 2032127.
Definition FILE_GENERIC_READ : N := 1179785.
Definition FILE_GENERIC_WRITE : N := 1179926.
Definition FILE_GENERIC_EXECUTE : N := 1179808.

Definition mapped_mask (mask : N) : N :=
  let generic (bit rights : N) := if N.testbit mask bit then rights else 0%N in
  foldr N.lor mask [generic 28 FILE_ALL_ACCESS; generic 29 FILE_GENERIC_EXECUTE;
                    generic 30 FILE_GENERIC_WRITE; generic 31 FILE_GENERIC_READ]%N.

(** The entry is for one of the SIDs; that of an object ACE was not read. *)
Definition entry_is_for (sids : list string) (e : AccessEntry) : Prop :=
  match ae_sid e with Some s => s ∈ sids | None => True end.

(** [right] is a bit; the owner may always read and change the DACL. *)
Definition grants (s : DirectorySecurity) (sids : list string) (right : N) : Prop :=
  (ds_owner s ∈ sids /\ (right = 17 \/ right = 18)%N) \/
  match ds_entries s with
  | None => True
  | Some entries => exists e, e ∈ entries /\ (ace_type e ∉ NON_GRANTING_ACE_TYPES) /\
      is_inherit_only e = false /\ entry_is_for sids e /\ N.testbit (mapped_mask (ae_mask e)) right = true
  end.

Definition untrusted (sids : list string) : Prop := forall s, s ∈ sids -> trusted_owner s = false.

(** The security of a new file or directory in a directory, by the inheritance of
    the entries with the flags for objects and containers: the creator's owner and
    group take the places of CREATOR OWNER and CREATOR GROUP. *)
Definition inherited_entry (owner group : string) (e : AccessEntry) : option AccessEntry :=
  if (N.land (ace_flags e) 3 =? 0)%N then None
  else Some {| ace_type := ace_type e; ace_flags := 0; ae_mask := ae_mask e;
               ae_sid := (fun s => if decide (s = CREATOR_OWNER_SID) then owner
                                   else if decide (s = CREATOR_GROUP_SID) then group else s) <$> ae_sid e |}.

Definition child_security (owner group : string) (s : DirectorySecurity) : DirectorySecurity :=
  {| ds_owner := owner; dacl_protected := false;
     ds_entries := (fun l : list AccessEntry => omap (inherited_entry owner group) l) <$> ds_entries s |}.

(** ** A checked directory *)

Lemma forbidden_clear role mask right :
  N.land mask (forbidden_rights role) = 0%N -> N.testbit (forbidden_rights role) right = true ->
  N.testbit mask right = false.
Proof.
  intros Hm Hr. assert (N.testbit (N.land mask (forbidden_rights role)) right = false) as Hb
    by by rewrite Hm, N.bits_0.
  by rewrite N.land_spec, Hr, andb_true_r in Hb.
Qed.

Lemma disjoint_bits a b right :
  N.land a b = 0%N -> N.testbit b right = true -> N.testbit a right = false.
Proof.
  intros Hab Hb. assert (N.testbit (N.land a b) right = false) as H by by rewrite Hab, N.bits_0.
  by rewrite N.land_spec, Hb, andb_true_r in H.
Qed.

(** Generic rights do not smuggle in a forbidden one. *)
Lemma mapped_clear role mask right :
  N.land mask (forbidden_rights role) = 0%N -> N.testbit (forbidden_rights role) right = true ->
  N.testbit (mapped_mask mask) right = false.
Proof.
  intros Hm Hr. unfold mapped_mask. cbn [foldr]. rewrite !N.lor_spec, (forbidden_clear role mask right) by done.
  assert (N.testbit mask 28 = false) as -> by (by apply (forbidden_clear role); [|destruct role]).
  assert (N.testbit FILE_GENERIC_EXECUTE right = false) as He
    by (apply (disjoint_bits _ (forbidden_rights role)); [by destruct role|done]).
  assert (N.testbit FILE_GENERIC_READ right = false) as Hread
    by (apply (disjoint_bits _ (forbidden_rights role)); [by destruct role|done]).
  assert (N.testbit (if N.testbit mask 30 then FILE_GENERIC_WRITE else 0%N) right = false) as ->.
  { destruct role.
    - destruct (N.testbit mask 30); [|by rewrite N.bits_0].
      by apply (disjoint_bits _ (forbidden_rights Parent)).
    - by rewrite (forbidden_clear Data mask 30), N.bits_0. }
  destruct (N.testbit mask 29), (N.testbit mask 31); by rewrite ?He, ?Hread, ?N.bits_0.
Qed.

Lemma check_entries_Ok role entries :
  check_entries role entries = Ok tt <-> Forall (fun e => entry_allowed role e = true) entries.
Proof.
  induction entries as [|e l IH]; cbn; [by split|]. rewrite Forall_cons.
  destruct (entry_allowed role e); [rewrite IH|]; naive_solver.
Qed.

Lemma check_security_Ok s role :
  check_directory_security s role = Ok tt <->
  trusted_owner (ds_owner s) = true /\ (role = Data -> dacl_protected s = true) /\
  exists entries, ds_entries s = Some entries /\ Forall (fun e => entry_allowed role e = true) entries.
Proof.
  unfold check_directory_security. destruct (trusted_owner (ds_owner s)); cbn [negb]; [|naive_solver].
  destruct (ds_entries s) as [entries|]; [|naive_solver].
  destruct (bool_decide_reflect (role = Data)) as [->|Hr]; cbn [andb].
  - destruct (dacl_protected s); cbn [negb]; [rewrite check_entries_Ok|]; naive_solver.
  - rewrite check_entries_Ok. naive_solver.
Qed.

(** What an accepted entry gives to principals that are not trusted. *)
Lemma allowed_entry_clear role e right :
  entry_allowed role e = true -> ace_type e ∉ NON_GRANTING_ACE_TYPES ->
  trusted_entry e = false -> (role = Parent -> is_inherit_only e = false) ->
  N.testbit (forbidden_rights role) right = true ->
  N.testbit (mapped_mask (ae_mask e)) right = false.
Proof.
  unfold entry_allowed. intros Ha Ht Hs Hi Hr. rewrite bool_decide_eq_false_2, Hs in Ha by done.
  cbn [orb] in Ha. destruct role; [rewrite Hi in Ha by done|]; cbn [andb orb] in Ha;
    apply N.eqb_eq in Ha; by eapply mapped_clear.
Qed.

Lemma accepted_grants_nothing s role sids right :
  check_directory_security s role = Ok tt -> untrusted sids ->
  N.testbit (forbidden_rights role) right = true -> ~ grants s sids right.
Proof.
  intros (Ho & _ & entries & He & Hall)%check_security_Ok Hu Hr. intros [[Hin _]|Hg].
  { apply Hu in Hin. congruence. }
  rewrite He in Hg. destruct Hg as (e & Hin & Ht & Hi & Hfor & Hb).
  rewrite Forall_forall in Hall. specialize (Hall e Hin).
  rewrite (allowed_entry_clear role e right) in Hb; [done..| |by intros _|done].
  unfold trusted_entry, entry_is_for in *. rewrite Hi. destruct (ae_sid e) as [x|]; [|done].
  by rewrite (Hu x Hfor).
Qed.

Lemma accepted_children_grant_nothing s owner group sids right :
  check_directory_security s Data = Ok tt -> untrusted sids ->
  trusted_owner owner = true -> trusted_owner group = true ->
  N.testbit WRITE_RIGHTS right = true -> ~ grants (child_security owner group s) sids right.
Proof.
  intros (Ho & _ & entries & He & Hall)%check_security_Ok Hu Hown Hgroup Hr. intros [[Hin _]|Hg].
  { apply Hu in Hin. cbn in Hin. congruence. }
  unfold child_security in Hg. cbn [ds_entries] in Hg. rewrite He in Hg.
  destruct Hg as (e' & Hin & Ht & _ & Hfor & Hb). cbn in Hin.
  apply list_elem_of_omap in Hin as (e & Hin & Hie). unfold inherited_entry in Hie.
  destruct (N.land (ace_flags e) 3 =? 0)%N; [discriminate Hie|]. injection Hie as <-.
  cbn [ae_mask ace_type ae_sid] in *. rewrite Forall_forall in Hall. specialize (Hall e Hin).
  rewrite (allowed_entry_clear Data e right) in Hb; [done..| |done|done].
  unfold trusted_entry, entry_is_for in *. destruct (ae_sid e) as [x|]; [|done]. cbn in Hfor.
  destruct (decide (x = CREATOR_OWNER_SID)) as [->|H1]; [apply Hu in Hfor; congruence|].
  destruct (decide (x = CREATOR_GROUP_SID)) as [->|H2]; [apply Hu in Hfor; congruence|].
  rewrite (Hu x Hfor). apply andb_false_iff. right. apply bool_decide_eq_false. naive_solver.
Qed.

(** ** The protected data directory *)

Section peace.
Context `{SidText} {D : Type} `{!DirectorySystem D}.

(** From [d] to [d'] the security of a directory that is open has changed only if
    somebody without trust had the right to change its DACL or its owner. *)
Definition kept (descriptor : N -> D -> option Descriptor) (d d' : D) : Prop :=
  forall h sd s, descriptor h d = Some sd -> security_from_descriptor sd = Some (Ok s) ->
    descriptor h d' = Some sd \/
    exists sids, untrusted sids /\ (grants s sids 18 \/ grants s sids 19).
End peace.

(** While the calls run, other processes of principals without trust run too:
    [dy_security] reads the security of the handle's directory, and nothing but
    [grants] lets anybody change it. *)
Class DirectoryPeace (D : Type) `{SidText, !DirectorySystem D} := {
  dp_descriptor : N -> D -> option Descriptor;
  dp_security h d sd d' : dy_security h d = (Some sd, d') -> dp_descriptor h d' = Some sd;
  dp_security_kept h d : kept dp_descriptor d (snd (dy_security h d));
  dp_program_data_kept d : kept dp_descriptor d (snd (dy_program_data d));
  dp_open_kept path b d : kept dp_descriptor d (snd (dy_open path b d));
  dp_attributes_kept h d : kept dp_descriptor d (snd (dy_attributes h d));
  dp_standard_kept h d : kept dp_descriptor d (snd (dy_standard h d));
  dp_final_path_kept h d : kept dp_descriptor d (snd (dy_final_path h d));
}.

Section protected.
Context `{SidText} {D : Type} `{!DirectorySystem D, !DirectoryPeace D}.

(** The security of the handle's directory. *)
Definition has_security (h : N) (s : DirectorySecurity) (d : D) : Prop :=
  exists sd, dp_descriptor h d = Some sd /\ security_from_descriptor sd = Some (Ok s).

Definition accepted (role : DirectoryRole) (h : N) (s : DirectorySecurity) (d : D) : Prop :=
  has_security h s d /\ check_directory_security s role = Ok tt.

Lemma accepted_kept role h s d d' : accepted role h s d -> kept dp_descriptor d d' -> accepted role h s d'.
Proof.
  intros [(sd & Hd & Hs) Hc] Hk. split; [|done]. exists sd. split; [|done].
  destruct (Hk h sd s Hd Hs) as [Hd'|(sids & Hu & [Hg|Hg])]; [done| |];
    (exfalso; eapply accepted_grants_nothing; [exact Hc|exact Hu| |exact Hg]; by destruct role).
Qed.

(** What was accepted before stays accepted. *)
Definition lasting {A} (m : M D A) : Prop :=
  forall role h s d, accepted role h s d -> accepted role h s (snd (m d)).

Lemma lasting_answer {A} (call : D -> A * D) :
  (forall d, kept dp_descriptor d (snd (call d))) -> lasting (answer call).
Proof.
  intros Hk role h s d Ha. specialize (Hk d). unfold answer. destruct (call d). by eapply accepted_kept.
Qed.

Lemma lasting_lift {A} (r : Result A) : lasting (lift r).
Proof. by intros role h s d. Qed.

Lemma lasting_bind {A B} (m : M D A) (k : A -> M D B) :
  lasting m -> (forall a, lasting (k a)) -> lasting (m ≫= k).
Proof.
  intros Hm Hk role h s d Ha. specialize (Hm role h s d Ha). unfold mbind, M_bind, bind.
  destruct (m d) as [[[a|e]| |] d']; [by apply Hk|done..].
Qed.

Ltac lasting :=
  repeat first
    [ apply lasting_bind; [|intro]
    | apply lasting_answer; intro; auto using dp_security_kept, dp_program_data_kept, dp_open_kept,
        dp_attributes_kept, dp_standard_kept, dp_final_path_kept
    | apply lasting_lift
    | match goal with |- lasting (let '(_, _) := ?x in _) => destruct x end
    | match goal with |- lasting (match ?x with _ => _ end) => destruct x end
    | by intros ? ? ? ? ? ].

Lemma lasting_open path b : lasting (open_existing_directory path b).
Proof. unfold open_existing_directory, ensure_stable_directory. lasting. Qed.

Lemma lasting_check h role : lasting (check_opened_directory h role).
Proof. unfold check_opened_directory, directory_security. lasting. Qed.

Lemma lasting_final h path : lasting (ensure_final_path h path).
Proof. unfold ensure_final_path, final_path_of. lasting. Qed.

Lemma check_directory_accepts h role d d' :
  check_opened_directory h role d = (Done (Ok tt), d') -> exists s, accepted role h s d'.
Proof.
  intros Hc. apply bind_Done in Hc as (s & d1 & Hs & Hc). injection Hc as Hc <-. exists s.
  split; [|done]. apply bind_Done in Hs as (o & d2 & Ha & Hs).
  apply bind_Done in Hs as (sd & d3 & Ho & Hs). injection Ho as Ho <-.
  destruct o as [sd'|]; [|discriminate Ho]. injection Ho as ->.
  destruct (security_from_descriptor sd) as [r|] eqn:Er; [|discriminate Hs]. injection Hs as -> <-.
  exists sd. split; [|done]. unfold answer in Ha. destruct (dy_security h d) as [o d4] eqn:Ed.
  injection Ha as -> <-. by eapply dp_security.
Qed.

Lemma lasting_Done {A} (m : M D A) role h s d a d' :
  lasting m -> m d = (Done (Ok a), d') -> accepted role h s d -> accepted role h s d'.
Proof. intros Hm Hd Ha. specialize (Hm role h s d Ha). by rewrite Hd in Hm. Qed.

Lemma open_accepts d p d' :
  open_service_data_directory d = (Done (Ok p), d') ->
  exists ps s, accepted Parent (pd_parent p) ps d' /\ accepted Data (pd_directory p) s d'.
Proof.
  intros Ho. apply bind_Done in Ho as (root & d1 & _ & Ho).
  apply bind_Done in Ho as (po & d2 & _ & Ho). apply bind_Done in Ho as (ph & d3 & Hp & Ho).
  apply bind_Done in Ho as ([] & d4 & Hc & Ho).
  apply check_directory_accepts in Hc as (ps & Hps).
  apply bind_Done in Ho as (o & d5 & Hop & Ho). apply (lasting_Done _ _ _ _ _ _ _ (lasting_open _ _) Hop) in Hps.
  apply bind_Done in Ho as (h & d6 & Hh & Ho). injection Hh as _ <-.
  apply bind_Done in Ho as ([] & d7 & Hc & Ho).
  apply (lasting_Done _ _ _ _ _ _ _ (lasting_check _ _) Hc) in Hps.
  apply check_directory_accepts in Hc as (s & Hs).
  apply bind_Done in Ho as ([] & d8 & Hf & Ho). injection Ho as <- <-. exists ps, s.
  split; by eapply (lasting_Done _ _ _ _ _ _ _ (lasting_final _ _) Hf).
Qed.

Lemma provision_accepts d p d' :
  provision_service_data_directory d = (Done (Ok p), d') ->
  exists ps s, accepted Parent (pd_parent p) ps d' /\ accepted Data (pd_directory p) s d'.
Proof.
  intros Hp. apply bind_Done in Hp as (root & d1 & _ & Hp). apply bind_Done in Hp as (h & d2 & _ & Hp).
  apply bind_Done in Hp as ([opened token] & d3 & _ & Hp). apply bind_Done in Hp as (who & d4 & _ & Hp).
  apply bind_Done in Hp as (h1 & d5 & _ & Hp). apply bind_Done in Hp as (h2 & d6 & _ & Hp).
  apply bind_Done in Hp as ([] & d7 & _ & Hp). by eapply open_accepts.
Qed.

End protected.
