(* ===== verification/WindowsPlatform.v ===== *)
(** * The transaction platform of the service

    [WindowsTransactionPlatform] of src/src/windows.rs: targets are inspected,
    renamed and deleted through handles that stay open from the preparation to
    the commit, staging files are handles opened as the caller, and the reserved
    directories of a job are removed without following a link. *)

From S2P Require Import Prelude Errors Effects Identifiers Json Trust FileSet Roots Journal.
From S2P Require Import Storage Transaction LocalPlatform WindowsFiles DirectoryNames.

(** How the file system answers a listing of these names. *)
Class DirectoryListing := listing_calls : list string -> list ListingCall.

(** The leaf directories of a reserved job directory. *)
Inductive LeafDirectory := PreparedLeaf | BackupLeaf.

Definition leaf_directory_name (l : LeafDirectory) : string :=
  match l with PreparedLeaf => "prepared" | BackupLeaf => "backup" end.

Section platform.
Context `{UnicodeCase, Crypto, FileNames, NewFiles, WindowsVolumes, DirectoryListing}.

(** ** Reserved directories *)

Definition reserved_files (d : RootDir) (job : string) (leaf : LeafDirectory) : gmap N File :=
  match leaf with
  | PreparedLeaf => rs_prepared (reserved_of d job)
  | BackupLeaf => rs_backup (reserved_of d job)
  end.

Definition reserved_leaf (job : string) (leaf : LeafDirectory) (index : N) : Leaf :=
  match leaf with
  | PreparedLeaf => PreparedFile job index
  | BackupLeaf => BackupFile job index
  end.

(** The files of a reserved directory: the prepared files and the backups. *)
Definition file_names (d : RootDir) (place : list string) : list string :=
  match place with
  | [r; j; job; leaf] =>
      if decide (r = RESERVED_ROOT_DIRECTORY /\ j = "jobs") then
        let names files := (fun i => of_bytes (u64_to_string i)) <$> (map_to_list files).*1 in
        if decide (leaf = "prepared") then names (reserved_files d job PreparedLeaf)
        else if decide (leaf = "backup") then names (reserved_files d job BackupLeaf) else []
      else []
  | _ => []
  end.

(** What a reserved directory has in it: its files, directories and links. *)
Definition children (d : RootDir) (place : list string) : list string :=
  file_names d place
  ++ omap (fun c => if decide (c <> [] /\ removelast c = place) then last c else None)
       (elements (rd_dirs d ∪ rd_links d)).

Definition list_directory (tree : string) (place : list string) : M World (list string) :=
  let e := new_error TransactionIo "reserved job directory cannot be enumerated" in
  tx_read (fun w =>
    d ← ok_or (w_roots w !! tree) TransactionIo "reserved job directory cannot be enumerated";
    default (Err malformed) (directory_child_names (listing_calls (children d place)))) e.

(** [delete_by_handle] of a link: the link goes, not what it points to. *)
Definition delete_link (tree : string) (place : list string) : M World () :=
  tx_io (update_tree tree (fun d =>
    if decide (place ∈ rd_links d)
    then Some {| rd_identity := rd_identity d; rd_files := rd_files d; rd_dirs := rd_dirs d;
                 rd_links := rd_links d ∖ {[ place ]}; rd_reserved := rd_reserved d |}
    else None)) deletion_failed.

(** [delete_by_handle] of a directory, which must be empty. *)
Definition delete_directory (tree : string) (place : list string) (e : MaintenanceError)
    : M World () :=
  tx_io (update_tree tree (fun d =>
    if decide (place ∈ rd_dirs d /\ children d place = [])
    then Some (with_dirs d (rd_dirs d ∖ {[ place ]})) else None)) e.

Definition open_reserved_directory (loc : RootLocation) (path : string) : M World bool :=
  let tree := rl_path loc in
  let e := new_error TransactionIo
             "reserved job directory cannot be opened under the locked root" in
  components ← lift (relative_components path);
  _ ← lift (ensure (negb (length components =? 0)%nat) FileSetPath "reserved directory path is empty");
  locked ← lock_parent_chain loc None (removelast components) false;
  if (locked : bool)
  then tx_read (fun w => Ok (negb (bool_decide (directory_node w tree None components = NAbsent)))) e
  else pure false.

Definition components_of (path : string) : list string := default [] (ok (relative_components path)).

Definition open_reserved_regular_directory (loc : RootLocation) (path : string) : M World bool :=
  let tree := rl_path loc in
  let place := components_of path in
  found ← open_reserved_directory loc path;
  if (found : bool) then
    link ← tx_read (fun w => Ok (bool_decide (directory_node w tree None place = NLink))) query_error;
    if (link : bool) then
      _ ← delete_link tree place;
      fail (new_error RootIdentity "reserved job entry is a reparse point")
    else _ ← ensure_safe_directory tree None place; pure true
  else pure false.

(** The file of a reserved directory with this name. *)
Definition named_leaf (job : string) (leaf : LeafDirectory) (name path : string) : Leaf :=
  match parse_u64 (as_bytes name) with
  | Some index => if decide (of_bytes (u64_to_string index) = name)
                  then reserved_leaf job leaf index else Stray path
  | None => Stray path
  end.

Definition delete_reserved_file (loc : RootLocation) (job : string) (leaf : LeafDirectory)
    (name : string) : M World () :=
  _ ← lift (ensure (negb (str_len name =? 0)%nat && forallb is_ascii_digit (as_bytes name))
        RootIdentity "reserved job contains an unexpected entry");
  let item := named_leaf job leaf name
                (job_relative job +:+ "/" +:+ leaf_directory_name leaf +:+ "/" +:+ name) in
  found ← open_relative_file loc item DataOrDelete false false;
  if (found : bool) then
    _ ← regular_file_snapshot (rl_path loc) item;
    delete_by_handle (rl_path loc) item
  else pure tt.

Definition cleanup_leaf (loc : RootLocation) (job : string) (leaf : LeafDirectory) : M World () :=
  let path := job_relative job +:+ "/" +:+ leaf_directory_name leaf in
  found ← open_reserved_regular_directory loc path;
  if (found : bool) then
    names ← list_directory (rl_path loc) (components_of path);
    _ ← for_each (delete_reserved_file loc job leaf) names;
    delete_directory (rl_path loc) (components_of path)
      (new_error TransactionIo "reserved job leaf cannot be removed")
  else pure tt.

(** The job directory and its shared parents, while they are empty. *)
Definition cleanup_parent (loc : RootLocation) (path : string) : M World () :=
  found ← open_reserved_regular_directory loc path;
  if (found : bool) then
    names ← list_directory (rl_path loc) (components_of path);
    if decide (names = [])
    then delete_directory (rl_path loc) (components_of path)
           (new_error TransactionIo "reserved job parent cannot be removed")
    else pure tt
  else pure tt.

Definition cleanup_reserved_job (loc : RootLocation) (job : string) : M World () :=
  _ ← lock_parent_chain loc None [] false;
  found ← open_reserved_regular_directory loc (job_relative job);
  _ ← (if (found : bool) then for_each (cleanup_leaf loc job) [PreparedLeaf; BackupLeaf]
       else pure tt);
  for_each (cleanup_parent loc)
    [job_relative job; RESERVED_ROOT_DIRECTORY +:+ "/jobs"; RESERVED_ROOT_DIRECTORY].

(** ** The kept handles *)

(** [target_key]: the place tells which file the handle is of. *)
Definition target_key (root : RegisteredRoot) (path : string) : string * string * string :=
  (root_id root, canonical_path root, path).

(** [target_handles.remove]. *)
Definition take_handle (root : RegisteredRoot) (path : string) : M World bool := fun w =>
  (Done (Ok (bool_decide (target_key root path ∈ w_handles w))),
   set_handles w (w_handles w ∖ {[ target_key root path ]})).

(** [target_handles.insert]. *)
Definition keep_handle (root : RegisteredRoot) (path : string) : M World () :=
  modify (fun w => set_handles w ({[ target_key root path ]} ∪ w_handles w)).

(** ** The operations *)

Definition windows_verify_root_identity (root : RegisteredRoot) : M World () :=
  let e := new_error RootIdentity "registered root handle identity or canonical path changed" in
  _ ← open_absolute_directory (canonical_path root);
  actual ← directory_identity (canonical_path root);
  if decide (actual = identity root) then
    path ← final_path_owned (canonical_path root) [];
    if decide (path = canonical_path root) then pure tt else fail e
  else fail e.

(** [is_not_found] of the error. *)
Definition windows_root_is_missing (root : RegisteredRoot) : M World bool :=
  tx_query (fun w => bool_decide (directory_node w (canonical_path root) None [] = NAbsent)).

Definition windows_available_space (path : string) : M World N :=
  tx_read (fun w => ok_or (free_bytes w path) InsufficientSpace
                      "available volume space cannot be queried")
    (new_error InsufficientSpace "available volume space cannot be queried").

Definition directory_serial (path : string) : M World N :=
  tx_read (fun w =>
    match w_roots w !! path with
    | Some d => _ ← check_directory (directory_node w path None []);
                Ok (volume_serial (rd_identity d))
    | None => serial_of_directory w path
    end) query_error.

Definition windows_same_volume (left right : string) : M World bool :=
  l ← directory_serial left; r ← directory_serial right; pure (bool_decide (l = r)).

(** The staging files are the contents behind the handles opened as the caller. *)
Definition windows_open_staging_payload (staging_files : gmap string (list byte))
    (staging path : string) : M World Chunks :=
  data ← lift (ok_or (staging_files !! path) StagingInvalid
                 "staging payload was not pre-opened as the caller");
  _ ← tx_read (fun _ => Ok tt) (new_error StagingInvalid "staging payload handle cannot be rewound");
  tx_read (fun _ => Ok (file_chunks data))
    (new_error StagingInvalid "staging payload handle cannot be duplicated").

Definition windows_inspect_target (root : RegisteredRoot) (path : string)
    : M World (option TargetSnapshot) :=
  retained ← take_handle root path;
  opened ← (if (retained : bool) then pure true
            else open_relative_file (location root) (TargetFile path) DataOrDelete false false);
  if (opened : bool) then
    snapshot ← regular_file_snapshot (canonical_path root) (TargetFile path);
    _ ← keep_handle root path;
    pure (Some snapshot)
  else pure None.

(** The loop of [prepare_target_payload]. *)
Fixpoint copy_prepared (write : list byte -> M World ()) (total : N) (hashed : list byte)
    (chunks : Chunks) : M World (N * list byte) :=
  match chunks with
  | [] => pure (total, hashed)
  | None :: _ => fail (new_error TransactionIo "private prepared payload cannot be read")
  | Some chunk :: chunks' =>
      if (length chunk =? 0)%nat then pure (total, hashed)
      else
        total ← lift (ok_or (checked_add u64_max total (N.of_nat (length chunk)))
                  TransactionIo "prepared payload size overflowed");
        _ ← write chunk;
        copy_prepared write total (hashed ++ chunk) chunks'
  end.

Definition windows_prepare_target_payload (root : RegisteredRoot) (job : string) (index : N)
    (private_payload : M World Chunks) (expected : FileEntry) : M World () :=
  let prepared := PreparedFile job index in
  created ← open_relative_file (location root) prepared DataOrDelete true true;
  _ ← lift (ensure created TransactionIo "same-volume prepared file could not be created");
  source ← map_err (new_error TransactionIo "private prepared payload cannot be opened")
             private_payload;
  '(total, hashed) ← copy_prepared (fun chunk =>
      map_err (new_error TransactionIo "same-volume prepared payload cannot be written")
        (write_prepared root job index chunk)) 0 [] source;
  _ ← tx_io Some (new_error TransactionIo "same-volume prepared payload cannot be flushed");
  digest ← lift (if (total =? fe_size expected)%N
                 then decode_lower_hex 32 (fe_sha256 expected) FileSetHash else Ok []);
  _ ← lift (ensure ((total =? fe_size expected)%N && bool_decide (sha256 hashed = digest))
        FileSetHash "same-volume prepared payload failed signed hash verification");
  _ ← regular_file_snapshot (canonical_path root) prepared;
  pure tt.

Definition windows_rename_target_to_backup (root : RegisteredRoot) (job : string) (index : N)
    (path : string) (expected : TargetSnapshot) : M World () :=
  retained ← take_handle root path;
  _ ← lift (ensure retained RootIdentity "target handle was not retained from inspection");
  snapshot ← regular_file_snapshot (canonical_path root) (TargetFile path);
  _ ← lift (ensure (bool_decide (snapshot = expected)) RootIdentity
        "target handle changed before backup rename");
  rename_handle_relative (location root) (TargetFile path) (BackupFile job index) true.

(** A reserved file becomes the target, which must be absent. *)
Definition rename_to_target (root : RegisteredRoot) (source : Leaf) (path present absent : string)
    : M World () :=
  current ← windows_inspect_target root path;
  _ ← lift (ensure (bool_decide (current = None)) TransactionConflict present);
  found ← open_relative_file (location root) source DataOrDelete false false;
  _ ← lift (ensure found RecoveryIncomplete absent);
  _ ← regular_file_snapshot (canonical_path root) source;
  rename_handle_relative (location root) source (TargetFile path) true.

Definition windows_rename_prepared_to_target (root : RegisteredRoot) (job : string) (index : N)
    (path : string) : M World () :=
  rename_to_target root (PreparedFile job index) path
    "target exists before prepared handle rename" "prepared handle is absent during commit".

Definition windows_restore_backup (root : RegisteredRoot) (job : string) (index : N)
    (path : string) : M World () :=
  rename_to_target root (BackupFile job index) path
    "target exists before backup handle restore" "backup handle is absent during rollback".

Definition windows_backup_exists (root : RegisteredRoot) (job : string) (index : N)
    : M World bool :=
  let backup := BackupFile job index in
  found ← open_relative_file (location root) backup ReadAttributes false false;
  if (found : bool)
  then _ ← regular_file_snapshot (canonical_path root) backup; pure true
  else pure false.

Definition windows_delete_target (root : RegisteredRoot) (path : string) : M World () :=
  let target := TargetFile path in
  retained ← take_handle root path;
  opened ← (if (retained : bool) then pure true
            else open_relative_file (location root) target DataOrDelete false false);
  if (opened : bool) then
    _ ← regular_file_snapshot (canonical_path root) target;
    delete_by_handle (canonical_path root) target
  else pure tt.

Definition windows_cleanup_job (root : RegisteredRoot) (job : string) : M World () :=
  _ ← cleanup_reserved_job (location root) job;
  private ← tx_exists (fun w => bool_decide (is_Some (w_jobs w !! job)));
  if (private : bool)
  then map_err (new_error TransactionIo "private service job directory cannot be removed")
         (remove_job_directory job)
  else pure tt.

(** [with_staging_files]; the trait's other methods are the provided ones. *)
Definition WindowsTransactionPlatform (staging_files : gmap string (list byte))
    : TransactionPlatform := {|
  uses_atomic_replacement := false;
  atomic_replace_target _ _ _ _ _ := pure false;
  atomic_restore_backup _ _ _ _ := pure false;
  verify_root_identity := windows_verify_root_identity;
  root_is_missing := windows_root_is_missing;
  available_space := windows_available_space;
  same_volume := windows_same_volume;
  open_staging_payload := windows_open_staging_payload staging_files;
  inspect_target := windows_inspect_target;
  prepare_target_payload := windows_prepare_target_payload;
  rename_target_to_backup := windows_rename_target_to_backup;
  rename_prepared_to_target := windows_rename_prepared_to_target;
  backup_exists := windows_backup_exists;
  delete_target := windows_delete_target;
  restore_backup := windows_restore_backup;
  cleanup_job := windows_cleanup_job;
  checkpoint _ := pure tt;
|}.
End platform.
