(* ===== verification/WindowsPlatformProof.v ===== *)
(** * The Windows platform keeps its promises

    [WindowsTransactionPlatform] satisfies the contract of Contract, for every
    root and job, whatever the volumes and listings answer and whatever handles
    are kept, so the theorems of Recovery hold on it.  And it refuses a root that
    was replaced: between the verification of a registered root and an operation on it,
    somebody may put another directory at the root's path.  Every operation of
    the Windows platform opens the root again and compares its identity, so it
    refuses the impostor and changes nothing below it. *)

From S2P Require Import Prelude Errors Effects Identifiers Json Trust FileSet Roots Storage.
From S2P Require Import Journal Transaction LocalPlatform Contract LocalPlatformProof.
From S2P Require Import WindowsFiles DirectoryNames WindowsPlatform.

Section platform.
Context `{UnicodeCase, Crypto, FileNames, NewFiles, WindowsVolumes, DirectoryListing}.
Context (root : RegisteredRoot) (job : string).
#[local] Abbreviation view := (view root job).
#[local] Abbreviation reads := (reads root job).
#[local] Abbreviation mutates := (mutates root job).
#[local] Abbreviation dir_view := (dir_view job).
#[local] Abbreviation tree := (canonical_path root).
#[local] Abbreviation anything := (fun _ _ => True).

(** ** The files in the view *)

Definition view_leaf (v : JobView) (l : Leaf) : option File :=
  match l with
  | TargetFile path => v_files v !! fs_key path
  | PreparedFile _ index => v_prepared v !! index
  | BackupFile _ index => v_backup v !! index
  | Stray _ => None
  end.

(** A leaf of this job. *)
Definition own (l : Leaf) : Prop :=
  match l with PreparedFile j _ | BackupFile j _ => j = job | _ => True end.

Lemma find_leaf_view d l : own l -> find_leaf d l = view_leaf (dir_view d) l.
Proof. by destruct l; cbn; intros; subst. Qed.

Lemma view_tree w d : w_roots w !! tree = Some d -> view w = dir_view d.
Proof. apply view_root. Qed.

Lemma find_leaf_view_world w l :
  own l -> (d ← w_roots w !! tree; find_leaf d l) = view_leaf (view w) l.
Proof.
  intros Hl. destruct (w_roots w !! tree) as [d|] eqn:Ed; cbn.
  - rewrite (view_tree _ _ Ed). by apply find_leaf_view.
  - unfold Contract.view. rewrite Ed. by destruct l.
Qed.

Lemma leaf_node_absent d l : leaf_node d l = NAbsent -> find_leaf d l = None.
Proof.
  unfold leaf_node, node_at. case_bool_decide; [done|]. by destruct (find_leaf d l).
Qed.

Lemma leaf_node_file d l : leaf_node d l = NFile -> is_Some (find_leaf d l).
Proof.
  unfold leaf_node, node_at. case_bool_decide; [done|].
  destruct (find_leaf d l); [by eexists|]. by case_bool_decide.
Qed.

Lemma leaf_node_in_file w l : own l -> leaf_node_in w tree l = NFile -> is_Some (view_leaf (view w) l).
Proof.
  intros Hl. rewrite <- find_leaf_view_world by done. unfold leaf_node_in.
  destruct (w_roots w !! tree) as [d|]; [|done]. apply leaf_node_file.
Qed.

Lemma leaf_node_in_absent w l : own l -> leaf_node_in w tree l = NAbsent -> view_leaf (view w) l = None.
Proof.
  intros Hl. rewrite <- find_leaf_view_world by done. unfold leaf_node_in.
  destruct (w_roots w !! tree) as [d|]; [|done]. apply leaf_node_absent.
Qed.

Lemma directory_node_absent w l place :
  own l -> directory_node w tree (Some l) place = NAbsent -> view_leaf (view w) l = None.
Proof.
  intros Hl. rewrite <- find_leaf_view_world by done. unfold directory_node.
  destruct (w_roots w !! tree) as [d|]; [|done]. case_decide as Hd; [done|]. intros Hn.
  apply eq_None_not_Some. intros Hs. by apply Hd.
Qed.

(** ** Questions and locks *)

Lemma reads_read {A} (f : World -> Result A) e : reads (tx_read f e) anything.
Proof. by apply reads_tx_read. Qed.

Lemma reads_answer {A} (r : Result A) : reads (lift r) anything.
Proof. by apply reads_lift. Qed.

Lemma reads_ensure b c detail : reads (lift (ensure b c detail)) (fun _ _ => b = true).
Proof. apply reads_lift. by intros [] v Hb%ensure_Ok. Qed.

#[local] Hint Resolve reads_read reads_answer : core.

(** A step of which only the change matters. *)
Ltac step := eapply reads_then; [solve [eauto]|]; intros ?.

Lemma ensure_safe_directory_reads below place : reads (ensure_safe_directory tree below place) anything.
Proof. apply reads_read. Qed.

Lemma regular_file_reads l :
  own l -> reads (ensure_safe_regular_file tree l) (fun _ v => is_Some (view_leaf v l)).
Proof.
  intros Hl. apply reads_tx_read. intros w [] Hw. apply leaf_node_in_file; [done|].
  unfold check_regular_file in Hw. by destruct (leaf_node_in w tree l).
Qed.

Lemma snapshot_reads l :
  own l -> reads (regular_file_snapshot tree l) (fun t v => Some t = f_snapshot <$> view_leaf v l).
Proof.
  intros Hl. eapply reads_then; [by apply regular_file_reads|]. intros _.
  apply reads_tx_read. intros w t Ht. rewrite find_leaf_view_world in Ht by done.
  destruct (view_leaf (view w) l) as [f|]; cbn in Ht; ok_inv; by subst.
Qed.

Lemma directory_identity_reads : reads (directory_identity tree) anything.
Proof. eapply reads_then; [apply ensure_safe_directory_reads|]. intros _. apply reads_read. Qed.

Lemma final_path_reads place : reads (final_path_owned tree place) anything.
Proof. apply reads_read. Qed.

Lemma open_absolute_directory_reads : reads (open_absolute_directory tree) anything.
Proof. step. apply ensure_safe_directory_reads. Qed.

(** Creating a directory is not in the view. *)
Lemma make_directory_reads place e :
  reads (tx_io (update_tree tree (fun d =>
    if decide (node_at d place (rd_files d !! fs_key (path_of place)) = NAbsent)
    then Some (with_dirs d ({[ place ]} ∪ rd_dirs d)) else None)) e) anything.
Proof.
  apply (reads_tx_io root job). intros d d' Hd. case_decide; [|done]. by injection Hd as <-.
Qed.

(** When a directory on the way is absent, so is the file. *)
Lemma lock_components_reads l create places :
  own l ->
  reads (lock_components tree (Some l) create places) (fun b v => b = false -> view_leaf v l = None).
Proof.
  intros Hl. induction places as [|place places IH]; cbn [lock_components].
  { by apply reads_pure. }
  eapply reads_bind.
  { apply (reads_tx_read _ _ _ _ (fun node v => node = NAbsent -> view_leaf v l = None)).
    intros w node [= <-]. by apply directory_node_absent. }
  intros node. eapply reads_bind.
  { instantiate (1 := fun b _ => b = false -> node = NAbsent).
    case_decide; [|by apply reads_pure]. destruct create; [|by apply reads_pure].
    eapply reads_then; [apply make_directory_reads|]. intros _. step. by apply reads_pure. }
  intros present. destruct present.
  - eapply reads_then; [apply ensure_safe_directory_reads|]. intros _.
    eapply reads_mono; [exact IH|]. auto.
  - apply reads_pure. auto.
Qed.

Lemma lock_parent_chain_reads l parents create :
  own l ->
  reads (lock_parent_chain (location root) (Some l) parents create)
    (fun b v => b = false -> view_leaf v l = None).
Proof.
  intros Hl. eapply reads_then; [apply open_absolute_directory_reads|]. intros _.
  eapply reads_then; [|intros _; by apply lock_components_reads].
  eapply reads_then; [apply directory_identity_reads|]. intros actual.
  case_decide; [|by apply (reads_answer (Err _))].
  eapply reads_then; [apply final_path_reads|]. intros path.
  case_decide; [by apply reads_pure|by apply (reads_answer (Err _))].
Qed.

(** A file that opens is there, and one that is not found is not. *)
Lemma open_existing_reads l access create :
  own l ->
  reads (open_relative_file (location root) l access false create)
    (fun b v => b = bool_decide (is_Some (view_leaf v l))).
Proof.
  intros Hl. step. step. eapply reads_bind; [by apply lock_parent_chain_reads|]. intros [].
  - eapply reads_bind.
    { apply (reads_tx_read _ _ _ _ (fun found v => found = false -> view_leaf v l = None)).
      intros w found Hf ->. cbn [rl_path location] in Hf. apply leaf_node_in_absent; [done|].
      destruct (leaf_node_in w tree l); [done|by destruct (sharing_violation _ _ _ _)|done|
        by destruct (sharing_violation _ _ _ _)]. }
    intros [].
    + eapply reads_bind; [by apply regular_file_reads|]. intros [].
      apply reads_pure. intros v Hs _ _. by rewrite bool_decide_true.
    + apply reads_pure. intros v Hn _. by rewrite (Hn eq_refl).
  - apply reads_pure. intros v Hn. by rewrite (Hn eq_refl).
Qed.

(** ** The kept handles *)

Lemma quiet_reads {A} (f : World -> A) (g : World -> gset (string * string * string))
    (Q : A -> JobView -> Prop) :
  (forall w, Q (f w) (view w)) -> reads (fun w => (Done (Ok (f w)), set_handles w (g w))) Q.
Proof. intros HQ w. by split_and!. Qed.

Lemma take_handle_reads path : reads (take_handle root path) anything.
Proof. by apply quiet_reads. Qed.

Lemma keep_handle_reads path : reads (keep_handle root path) anything.
Proof. by apply (quiet_reads (fun _ => tt)). Qed.

(** Through the kept handle or a new one. *)
Lemma retained_reads (retained : bool) l :
  own l ->
  reads (if retained then pure true
         else open_relative_file (location root) l DataOrDelete false false)
    (fun b v => b = false -> view_leaf v l = None).
Proof.
  intros Hl. destruct retained; [by apply reads_pure|].
  eapply reads_mono; [by apply open_existing_reads|]. cbn. intros b v -> Hb.
  apply eq_None_not_Some. by apply bool_decide_eq_false in Hb.
Qed.

Lemma inspect_reads path :
  reads (windows_inspect_target root path) (fun t v => t = f_snapshot <$> v_files v !! fs_key path).
Proof.
  eapply reads_then; [apply take_handle_reads|]. intros retained.
  eapply reads_bind; [by apply (retained_reads retained (TargetFile path))|].
  intros [].
  - eapply reads_bind; [by apply (snapshot_reads (TargetFile path))|]. intros t.
    eapply reads_then; [apply keep_handle_reads|]. intros _. apply reads_pure. by intros v.
  - apply reads_pure. intros v Hv. cbn in Hv. by rewrite Hv.
Qed.

Lemma backup_exists_windows_reads index :
  reads (windows_backup_exists root job index)
    (fun b v => b = bool_decide (is_Some (v_backup v !! index))).
Proof.
  eapply reads_bind; [by apply (open_existing_reads (BackupFile job index))|]. intros [].
  - eapply reads_then; [by apply snapshot_reads|]. intros _. apply reads_pure. by intros v.
  - apply reads_pure. by intros v.
Qed.

(** ** Renames *)

(** A file comes and goes in the view. *)
Definition view_put (l : Leaf) (f : File) (v : JobView) : JobView :=
  match l with
  | TargetFile path => mkView (<[fs_key path := f]> (v_files v)) (v_backup v) (v_prepared v)
  | PreparedFile _ index => mkView (v_files v) (v_backup v) (<[index := f]> (v_prepared v))
  | BackupFile _ index => mkView (v_files v) (<[index := f]> (v_backup v)) (v_prepared v)
  | Stray _ => v
  end.

Definition view_drop (l : Leaf) (v : JobView) : JobView :=
  match l with
  | TargetFile path => mkView (delete (fs_key path) (v_files v)) (v_backup v) (v_prepared v)
  | PreparedFile _ index => mkView (v_files v) (v_backup v) (delete index (v_prepared v))
  | BackupFile _ index => mkView (v_files v) (delete index (v_backup v)) (v_prepared v)
  | Stray _ => v
  end.

Lemma dir_view_reserved d r :
  dir_view (with_reserved d (<[job := r]> (rd_reserved d)))
  = mkView (rd_files d) (rs_backup r) (rs_prepared r).
Proof. unfold LocalPlatformProof.dir_view. by rewrite reserved_of_insert. Qed.

Lemma dir_view_put d l f : own l -> dir_view (put_leaf d l f) = view_put l f (dir_view d).
Proof.
  destruct l; cbn; intros; subst; try done; unfold set_prepared, set_backup;
    by rewrite dir_view_reserved.
Qed.

Lemma dir_view_drop d l : own l -> dir_view (drop_leaf d l) = view_drop l (dir_view d).
Proof.
  destruct l; cbn; intros; subst; try done; unfold set_prepared, set_backup;
    by rewrite dir_view_reserved.
Qed.

Lemma rename_handle_mutates source destination create :
  own source -> own destination ->
  mutates (rename_handle_relative (location root) source destination create)
    (fun v v' => exists f, view_leaf v source = Some f
       /\ view_leaf v destination = None
       /\ v' = view_put destination f (view_drop source v)).
Proof.
  intros Hs Hd. eapply mutates_then; [apply reads_answer|]. intros components.
  eapply mutates_then; [apply reads_answer|]. intros name.
  eapply mutates_then; [by apply lock_parent_chain_reads|]. intros [].
  - eapply mutates_then; [apply final_path_reads|]. intros parent.
    eapply mutates_then; [apply reads_answer|]. intros _.
    apply mutates_tx_io. intros d d' E.
    destruct (find_leaf d source) as [f|] eqn:Ef; [|done]. cbn in E.
    case_decide as Hn; [|done]. injection E as <-.
    rewrite find_leaf_view in Ef by done. apply leaf_node_absent in Hn.
    rewrite find_leaf_view in Hn by done. exists f. by rewrite dir_view_put, dir_view_drop.
  - intros w. by apply wp_lift.
Qed.

Lemma rename_to_target_mutates source path present absent :
  own source ->
  mutates (rename_to_target root source path present absent)
    (fun v v' => exists f, view_leaf v source = Some f
       /\ v_files v !! fs_key path = None
       /\ v' = view_put (TargetFile path) f (view_drop source v)).
Proof.
  intros Hs. eapply mutates_then; [apply inspect_reads|]. intros current.
  eapply mutates_then; [apply reads_answer|]. intros _.
  eapply mutates_then; [by apply open_existing_reads|]. intros found.
  eapply mutates_then; [apply reads_answer|]. intros _.
  eapply mutates_then; [by apply snapshot_reads|]. intros _.
  by apply (rename_handle_mutates source (TargetFile path)).
Qed.

Lemma mutates_mono (m : M World ()) (Q Q' : JobView -> JobView -> Prop) :
  mutates m Q -> (forall v v', Q v v' -> Q' v v') -> mutates m Q'.
Proof. intros Hm HQ w. eapply wp_mono; [exact (Hm w)|..]; cbn; naive_solver. Qed.

Lemma rename_prepared_windows index path :
  mutates (windows_rename_prepared_to_target root job index path) (installed index path).
Proof.
  eapply mutates_mono; [by apply rename_to_target_mutates|].
  intros v v' (f & Hs & Hn & ->). by exists f.
Qed.

Lemma restore_windows index path :
  mutates (windows_restore_backup root job index path) (restored_from index path).
Proof.
  eapply mutates_mono; [by apply rename_to_target_mutates|].
  intros v v' (f & Hs & Hn & ->). by exists f.
Qed.

Lemma rename_target_windows index path expected :
  mutates (windows_rename_target_to_backup root job index path expected)
    (backed_up index path expected).
Proof.
  eapply mutates_then; [apply take_handle_reads|]. intros retained.
  eapply mutates_then; [apply reads_answer|]. intros _.
  eapply mutates_bind; [by apply (snapshot_reads (TargetFile path))|]. intros t.
  eapply mutates_bind; [apply reads_ensure|]. intros [].
  eapply mutates_mono; [by apply rename_handle_mutates|].
  intros v v' (f & Hs & Hn & ->) ->%bool_decide_eq_true Ht. exists f.
  rewrite Hs in Ht. by injection Ht as ->.
Qed.

Lemma delete_windows path :
  mutates (windows_delete_target root path) (deleted path).
Proof.
  eapply mutates_then; [apply take_handle_reads|]. intros retained.
  eapply mutates_bind; [by apply (retained_reads retained (TargetFile path))|]. intros [].
  - eapply mutates_then; [by apply (snapshot_reads (TargetFile path))|]. intros _.
    apply mutates_tx_io. intros d d' Hd _. cbn in Hd.
    destruct (rd_files d !! fs_key path); [|done]. by injection Hd as <-.
  - apply mutates_pure. intros v Hn. specialize (Hn eq_refl). cbn in Hn.
    unfold deleted. rewrite delete_id by done. by destruct v.
Qed.

(** ** Cleaning up *)

#[local] Abbreviation eroding := (eroding root job).

Lemma eroding_pure : eroding (pure tt).
Proof. intros w. by apply wp_pure. Qed.

(** A change of directories and links is not in the view. *)
Lemma delete_link_eroding place : eroding (delete_link tree place).
Proof.
  apply (eroding_tx_io root job). intros d d' Hd. case_decide; [|done]. by injection Hd as <-.
Qed.

Lemma delete_directory_eroding place e : eroding (delete_directory tree place e).
Proof.
  apply (eroding_tx_io root job). intros d d' Hd. case_decide; [|done]. by injection Hd as <-.
Qed.

Lemma lock_parent_chain_quiet l parents create :
  reads (lock_parent_chain (location root) l parents create) anything.
Proof.
  eapply reads_then; [apply open_absolute_directory_reads|]. intros _.
  eapply reads_then.
  { eapply reads_then; [apply directory_identity_reads|]. intros actual.
    case_decide; [|by apply (reads_answer (Err _))].
    eapply reads_then; [apply final_path_reads|]. intros path.
    case_decide; [by apply (reads_pure _ _ _ anything)|by apply (reads_answer (Err _))]. }
  intros _. generalize (prefixes parents) as places.
  induction places as [|place places IH]; [by apply reads_pure|]. cbn [lock_components].
  step. eapply reads_then.
  { instantiate (1 := anything). case_decide; [|by apply reads_pure].
    destruct create; [|by apply reads_pure].
    eapply reads_then; [apply make_directory_reads|]. intros _. step. by apply reads_pure. }
  intros []; [|by apply reads_pure].
  eapply reads_then; [apply ensure_safe_directory_reads|]. intros _. exact IH.
Qed.

Lemma read_eroding {A} (f : World -> Result A) e : eroding (tx_read f e).
Proof. eapply reads_eroding, reads_read. Qed.

Lemma answer_eroding {A} (r : Result A) : eroding (lift r).
Proof. eapply reads_eroding, reads_answer. Qed.

Lemma list_directory_eroding place : eroding (list_directory tree place).
Proof. apply read_eroding. Qed.

Lemma open_reserved_eroding path :
  eroding (open_reserved_regular_directory (location root) path).
Proof.
  apply eroding_bind.
  - apply eroding_bind; [apply answer_eroding|]. intros components.
    apply eroding_bind; [apply answer_eroding|]. intros _.
    apply eroding_bind; [eapply reads_eroding, lock_parent_chain_quiet|].
    intros []; [apply read_eroding|apply (answer_eroding (Ok _))].
  - intros []; [|apply (answer_eroding (Ok _))].
    apply eroding_bind; [apply read_eroding|]. intros []; (apply eroding_bind; [|intros _]).
    + apply delete_link_eroding.
    + apply (answer_eroding (Err _)).
    + eapply reads_eroding, ensure_safe_directory_reads.
    + apply (answer_eroding (Ok _)).
Qed.

Lemma delete_reserved_file_eroding leaf name :
  eroding (delete_reserved_file (location root) job leaf name).
Proof.
  assert (forall path, exists i, named_leaf job leaf name path = reserved_leaf job leaf i
            \/ named_leaf job leaf name path = Stray path) as Hnamed.
  { intros path. unfold named_leaf. destruct (parse_u64 _) as [i|]; [|exists 0%N; by right].
    exists i. case_decide; [by left|by right]. }
  unfold delete_reserved_file. apply eroding_bind; [apply answer_eroding|]. intros _.
  destruct (Hnamed (job_relative job +:+ "/" +:+ leaf_directory_name leaf +:+ "/" +:+ name))
    as (i & Hitem). set (item := named_leaf _ _ _ _) in *.
  assert (own item) as Hown by (destruct Hitem as [-> | ->]; by destruct leaf).
  apply eroding_bind; [by eapply reads_eroding, open_existing_reads|].
  intros []; [|apply eroding_pure].
  apply eroding_bind; [by eapply reads_eroding, snapshot_reads|]. intros _.
  apply (eroding_tx_io root job). intros d d' Hd.
  destruct (find_leaf d item); [|done]. injection Hd as <-.
  destruct Hitem as [-> | ->]; [|done]. destruct leaf; cbn;
    unfold set_prepared, set_backup; rewrite reserved_of_insert; (split; [done|cbn]).
  - done.
  - apply delete_subseteq.
Qed.

Lemma cleanup_leaf_eroding leaf : eroding (cleanup_leaf (location root) job leaf).
Proof.
  apply eroding_bind; [apply open_reserved_eroding|]. intros []; [|apply eroding_pure].
  apply eroding_bind; [apply list_directory_eroding|]. intros names. apply eroding_bind.
  - apply eroding_for_each. intros name. apply delete_reserved_file_eroding.
  - intros _. apply delete_directory_eroding.
Qed.

Lemma cleanup_parent_eroding path : eroding (cleanup_parent (location root) path).
Proof.
  apply eroding_bind; [apply open_reserved_eroding|]. intros []; [|apply eroding_pure].
  apply eroding_bind; [apply list_directory_eroding|]. intros names.
  case_decide; [apply delete_directory_eroding|apply eroding_pure].
Qed.

Lemma cleanup_reserved_eroding : eroding (cleanup_reserved_job (location root) job).
Proof.
  apply eroding_bind; [eapply reads_eroding, lock_parent_chain_quiet|]. intros _.
  apply eroding_bind; [apply open_reserved_eroding|]. intros found. apply eroding_bind.
  - destruct found; [|apply eroding_pure]. apply eroding_for_each, cleanup_leaf_eroding.
  - intros _. apply eroding_for_each, cleanup_parent_eroding.
Qed.

Lemma windows_cleanup_cleans : cleans root job (windows_cleanup_job root job).
Proof.
  apply cleans_in_order; [apply cleanup_reserved_eroding|].
  intros w. apply wp_map_err, remove_job_directory_cleans.
Qed.

(** ** The contract *)

Lemma windows_identity_reads : reads (windows_verify_root_identity root) anything.
Proof.
  eapply reads_then; [apply open_absolute_directory_reads|]. intros _.
  eapply reads_then; [apply directory_identity_reads|]. intros actual.
  case_decide; [|by apply (reads_answer (Err _))].
  eapply reads_then; [apply final_path_reads|]. intros path.
  case_decide; [by apply reads_pure|by apply (reads_answer (Err _))].
Qed.

Lemma windows_missing_reads : reads (windows_root_is_missing root) anything.
Proof.
  eapply reads_then; [|by intros; apply reads_pure].
  by eapply (reads_attempt _ _ _ anything anything); [apply reads_read|..].
Qed.

#[export] Instance windows_platform_contract staging_files :
  @PlatformContract _ (WindowsTransactionPlatform staging_files) root job.
Proof.
  split; [apply windows_identity_reads|apply windows_missing_reads| |apply inspect_reads
    |apply backup_exists_windows_reads|apply rename_target_windows|apply rename_prepared_windows
    |apply delete_windows|apply restore_windows|done|done|apply windows_cleanup_cleans].
  intros e. by apply reads_pure.
Qed.
End platform.

(** Another directory is at the path of the root. *)
Definition replaced (root : RegisteredRoot) (w : World) : Prop :=
  exists d, w_roots w !! canonical_path root = Some d /\ rd_identity d <> identity root.

(** The computation fails, or the machine stops, with the trees as they were. *)
Definition refuses {A} (root : RegisteredRoot) (m : M World A) : Prop :=
  forall w, replaced root w ->
    wp m (fun _ _ => False) (fun _ w' => w_roots w' = w_roots w) (fun w' => w_roots w' = w_roots w) w.

(** The computation leaves the trees as they were. *)
Definition keeps_trees {A} (m : M World A) : Prop :=
  forall w, wp m (fun _ w' => w_roots w' = w_roots w) (fun _ w' => w_roots w' = w_roots w)
                 (fun w' => w_roots w' = w_roots w) w.

Section guard.
Context `{UnicodeCase, Crypto, FileNames, NewFiles, WindowsVolumes, DirectoryListing}.
Context (root : RegisteredRoot).
#[local] Abbreviation refuses := (refuses root).
#[local] Abbreviation tree := (canonical_path root).

Lemma refuses_first {A B} (m : M World A) (k : A -> M World B) : refuses m -> refuses (m ≫= k).
Proof. intros Hm w Hw. apply wp_bind. eapply wp_mono; [exact (Hm w Hw)|done..]. Qed.

Lemma refuses_after {A B} (m : M World A) (k : A -> M World B) :
  keeps_trees m -> (forall a, refuses (k a)) -> refuses (m ≫= k).
Proof.
  intros Hm Hk w Hw. apply wp_bind. eapply wp_mono; [exact (Hm w)| |done|done]; cbn.
  intros a w1 E. rewrite <- E. apply Hk. by destruct Hw as (d & Hd); exists d; rewrite E.
Qed.

Lemma refuses_fail {A} e : refuses (@fail World A e).
Proof. by intros w _. Qed.

Lemma keeps_trees_read {A} (f : World -> Result A) e : keeps_trees (tx_read f e).
Proof.
  intros w. unfold wp, tx_read. destruct (default Works (head (w_fates w))); try done.
  by destruct (f _).
Qed.

Lemma keeps_trees_lift {A} (r : Result A) : keeps_trees (lift r).
Proof. intros w. by apply wp_lift. Qed.

Lemma keeps_trees_bind {A B} (m : M World A) (k : A -> M World B) :
  keeps_trees m -> (forall a, keeps_trees (k a)) -> keeps_trees (m ≫= k).
Proof.
  intros Hm Hk w. apply wp_bind. eapply wp_mono; [exact (Hm w)| |done|done]; cbn.
  intros a w1 E. rewrite <- E. apply Hk.
Qed.

#[local] Hint Resolve keeps_trees_read keeps_trees_lift : core.

Lemma keeps_trees_snapshot l : keeps_trees (regular_file_snapshot tree l).
Proof. apply keeps_trees_bind; intros; apply keeps_trees_read. Qed.

Lemma keeps_take_handle path : keeps_trees (take_handle root path).
Proof. by intros w. Qed.

Lemma identity_check {B} (same : M World B) e :
  refuses (actual ← directory_identity tree; if decide (actual = identity root) then same else fail e).
Proof.
  intros w (d & Hd & Hne). apply wp_bind, wp_bind.
  eapply wp_mono; [exact (keeps_trees_read _ _ w)| |done|done]; cbn. intros _ w1 E1.
  unfold wp, tx_read. cbn. rewrite E1, Hd. cbn.
  destruct (default Works (head (w_fates w1))); [|done..]. cbn. by rewrite decide_False.
Qed.

Lemma chain_refuses l parents create :
  refuses (lock_parent_chain (location root) l parents create).
Proof.
  apply refuses_after; [apply keeps_trees_bind; intros; apply keeps_trees_read|]. intros _.
  apply refuses_first. apply identity_check.
Qed.

Lemma open_refuses l access create parents :
  refuses (open_relative_file (location root) l access create parents).
Proof.
  apply refuses_after; [done|]. intros components. apply refuses_after; [done|]. intros _.
  apply refuses_first, chain_refuses.
Qed.

Lemma rename_refuses source destination create :
  refuses (rename_handle_relative (location root) source destination create).
Proof.
  apply refuses_after; [done|]. intros components. apply refuses_after; [done|]. intros name.
  apply refuses_first, chain_refuses.
Qed.

(** Without a kept handle the file is opened below the root. *)
Lemma retained_refuses {B} path l (k : bool -> M World B) w :
  replaced root w -> target_key root path ∉ w_handles w ->
  wp (retained ← take_handle root path;
      opened ← (if (retained : bool) then pure true
                else open_relative_file (location root) l DataOrDelete false false);
      k opened)
    (fun _ _ => False) (fun _ w' => w_roots w' = w_roots w) (fun w' => w_roots w' = w_roots w) w.
Proof.
  intros Hw Hk. apply wp_bind. unfold wp at 1, take_handle. rewrite bool_decide_false by done.
  apply wp_bind. eapply wp_mono; [apply open_refuses|..]; done.
Qed.

Lemma inspect_kept path w :
  target_key root path ∈ w_handles w ->
  wp (windows_inspect_target root path) (fun t w' => is_Some t /\ w_roots w' = w_roots w)
    (fun _ w' => w_roots w' = w_roots w) (fun w' => w_roots w' = w_roots w) w.
Proof.
  intros Hk. apply wp_bind. unfold wp at 1, take_handle. rewrite bool_decide_true by done.
  apply wp_bind, wp_pure, wp_bind.
  eapply wp_mono; [apply keeps_trees_snapshot|..]; cbn; [|done..]. intros t w1 E1. by split.
Qed.

Lemma rename_to_target_refuses source path present absent :
  refuses (rename_to_target root source path present absent).
Proof.
  intros w Hw. apply wp_bind. destruct (decide (target_key root path ∈ w_handles w)) as [Hk|Hk].
  - eapply wp_mono; [by apply inspect_kept|..]; cbn; [|done..]. intros t w1 [[s ->] E1].
    apply wp_bind, wp_lift; [|done]. by intros [] Ht%ensure_Ok.
  - eapply wp_mono; [by apply retained_refuses|..]; done.
Qed.

End guard.
