(* ===== verification/WindowsScenarios.v ===== *)
(** * Scenarios on the Windows platform

    The job of TransactionScenarios on the platform of the service, with a model
    of the volumes and of the listings: a commit, a commit that stops and is
    recovered, a listing, and a root that was replaced. *)

From S2P Require Import Prelude Errors Effects Identifiers Json JsonReader Trust.
From S2P Require Import FileSet RegistrySet Roots RegistryScopes Readers Journal Storage.
From S2P Require Import Transaction LocalPlatform Contract Model TrustScenarios.
From S2P Require Import RegistryScenarios WindowsRegistry DirectoryNames WindowsFiles.
From S2P Require Import PipeServer AccessControl WindowsPlatform WindowsPlatformProof.
From S2P Require Import Atomicity Recovery TransactionScenarios ApplyScenarios.

(** Every directory is where its path says, on one volume with room. *)
#[export] Instance model_volumes : WindowsVolumes := {|
  final_path w tree place := Some (foldl join_path_name tree place);
  free_bytes w path := Some u64_max;
  serial_of_directory w path := Ok 1%N;
|}.

(** An entry of a listing, padded to eight bytes; the last one points nowhere. *)
Definition encode_entry (more : bool) (name : string) : list byte :=
  let text := encode_utf16 name in
  let size := (104 + length text)%nat in
  let padding := ((8 - size mod 8) mod 8)%nat in
  le32 (if more then N.of_nat (size + padding) else 0)
  ++ replicate 56 "000"%char ++ le32 (N.of_nat (length text))
  ++ replicate 40 "000"%char ++ text ++ replicate padding "000"%char.

Fixpoint encode_listing (names : list string) : list byte :=
  match names with
  | [] => []
  | [name] => encode_entry false name
  | name :: names' => encode_entry true name ++ encode_listing names'
  end.

#[export] Instance model_listing : DirectoryListing :=
  fun names => [Filled (encode_listing ("." :: ".." :: names)); NoMoreFiles].

#[local] Instance windows_platform : TransactionPlatform := WindowsTransactionPlatform ∅.

(** ** A commit *)

Definition handles_of_sample : gset (string * string * string) :=
  {[ target_key game_root "bin/app.exe"; target_key game_root "bin/old.dll" ]}.

Definition windows_world (fates : list Fate) : World :=
  set_handles (sample_world fates []) handles_of_sample.

Definition committed_world : World := snd (commit_file_set sample_header (windows_world [])).

Example windows_commit_result :
  fst (commit_file_set sample_header (windows_world []))
  = Done (Ok {| cr_job_id := job_id; cr_generation := 7; cleanup_pending := false |}).
Proof. by vm_compute. Qed.

(** The targets are the new ones and nothing is left in the reserved directory. *)
Example windows_commit_files :
  (f_data <$> (v_files (view game_root job_id committed_world) !! fs_key "bin/app.exe"))
    = Some (as_bytes "new app")
  /\ v_files (view game_root job_id committed_world) !! fs_key "bin/old.dll" = None
  /\ rd_dirs <$> w_roots committed_world !! canonical_path game_root = Some {[ ["bin"] ]}.
Proof. split_and!; by vm_compute. Qed.

(** ** A commit that stops and is recovered *)

(** The machine stops in the middle of the second entry. *)
Definition windows_stopped : World :=
  snd (commit_file_set sample_header (windows_world (replicate 70 Works ++ [StopsAfter]))).

(** The process that recovers has no handle open. *)
Definition windows_recovered : World :=
  snd (recover_incomplete (set_handles (set_fates windows_stopped []) ∅)).

Example windows_recovery :
  fst (commit_file_set sample_header (windows_world (replicate 70 Works ++ [StopsAfter]))) = Crashed
  /\ v_files (view game_root job_id windows_recovered)
     = v_files (view game_root job_id (windows_world [])).
Proof. split; by vm_compute. Qed.

(** ** A listing *)

Definition listed_bytes : list byte := encode_listing ["."; ".."; "0"; "12"].

Definition points (s : string) : list N := N_of_ascii <$> as_bytes s.

Ltac computed := match goal with |- _ = ?r => vm_cast_no_check (@eq_refl _ r) end.

Ltac listed_entry :=
  split; [repeat (constructor; [left; reflexivity|]); constructor|computed|computed|computed
         |vm_compute; discriminate].

Lemma listing_entries :
  entry_chain (overlay (replicate (N.to_nat LISTING_BYTES) "000"%char) listed_bytes) 0
    (points <$> ["."; ".."; "0"; "12"]).
Proof.
  cbn [fmap list_fmap].
  apply (chain_more _ 0 112); [listed_entry|discriminate|].
  apply (chain_more _ 112 112); [listed_entry|discriminate|].
  apply (chain_more _ 224 112); [listed_entry|discriminate|].
  apply (chain_last _ 336). listed_entry.
Qed.

Lemma directory_child_names_reported_witness :
  directory_child_names [Filled listed_bytes; NoMoreFiles] = Some (Ok ["0"; "12"]).
Proof.
  etransitivity; [exact (directory_child_names_reported listed_bytes _ listing_entries)|computed].
Defined.

(** ** A root that was replaced *)

Definition impostor : RootDir :=
  {| rd_identity := {| volume_serial := 1; file_id := as_bytes "impostor" |};
     rd_files := {[ fs_key "bin/app.exe" := sample_file "their app" ]};
     rd_dirs := {[ ["bin"] ]}; rd_links := ∅; rd_reserved := ∅ |}.

Definition replaced_world : World := mkWorld {[ canonical_path game_root := impostor ]} ∅ [] [] ∅.


(** ** The protected data directory *)

(** The bytes of a SID are its text here, with one more byte. *)
#[export] Instance test_sid_text : SidText := fun s => Some (Some (of_bytes (removelast s))).
Definition sid_of (s : string) : list byte := as_bytes s ++ [" "%char].

Definition ace_of (kind flags mask : N) (s : string) : list byte :=
  let bytes := sid_of s in
  (byte_of_N <$> [kind; flags; N.of_nat (8 + length bytes) mod 256; N.of_nat (8 + length bytes) / 256;
                  mask mod 256; mask / 256 mod 256; mask / 65536 mod 256; mask / 16777216]%N) ++ bytes.

Definition descriptor_of (who : string) (protected : bool) (aces : list (N * N * N * string)) : Descriptor :=
  {| sd_owner := Some (Some (sid_of who)); sd_control := Some (if protected then SE_DACL_PROTECTED else 0)%N;
     sd_dacl := Some (Some (Some ((fun '(k, f, m, s) => Some (ace_of k f m s)) <$> aces))) |}.

Definition USERS : string := "S-1-5-32-545".
Definition SOME_USER : string := "S-1-5-21-1000000000-2000000000-3000000000-1001".

(** FA for SYSTEM and the administrators, with the flags OICI. *)
Definition full_entries : list (N * N * N * string) :=
  [(0, 3, FILE_ALL_ACCESS, SYSTEM_SID); (0, 3, FILE_ALL_ACCESS, ADMINISTRATORS_SID)]%N.

Definition verdict (d : Descriptor) (role : DirectoryRole) : option (Result ()) :=
  r ← security_from_descriptor d; Some (s ← r; check_directory_security s role).
Definition accepts (d : Descriptor) (role : DirectoryRole) : bool :=
  match verdict d role with Some (Ok _) => true | _ => false end.

(** The tests of the source: the directories of earlier releases are accepted. *)
Example installed_directories_are_accepted :
  accepts (descriptor_of ADMINISTRATORS_SID true full_entries) Data = true /\
  accepts (descriptor_of ADMINISTRATORS_SID true (full_entries ++ [(0, 3, 1179817, USERS)])%N) Parent = true /\
  accepts (descriptor_of SYSTEM_SID true (full_entries ++ [(0, 11, 268435456, CREATOR_OWNER_SID)])%N) Data = true /\
  accepts (descriptor_of TRUSTED_INSTALLER_SID true [(0, 0, FILE_ALL_ACCESS, SYSTEM_SID);
                                                     (1, 0, FILE_ALL_ACCESS, USERS)]%N) Data = true.
Proof. split_and!; computed. Qed.

(** Those of a user, or that users may write to, are not. *)
Example writable_directories_are_rejected :
  accepts (descriptor_of SOME_USER true full_entries) Data = false /\
  accepts (descriptor_of ADMINISTRATORS_SID true (full_entries ++ [(0, 3, 2, USERS)])%N) Data = false /\
  accepts (descriptor_of ADMINISTRATORS_SID true (full_entries ++ [(0, 11, 268435456, SOME_USER)])%N) Data = false /\
  accepts (descriptor_of ADMINISTRATORS_SID false full_entries) Data = false /\
  accepts (descriptor_of ADMINISTRATORS_SID true [(0, 0, 1073741824, "S-1-1-0")]%N) Data = false /\
  accepts (descriptor_of ADMINISTRATORS_SID true (full_entries ++ [(0, 2, 64, USERS)])%N) Parent = false.
Proof. split_and!; computed. Qed.

(** The directories by their handles. *)
Definition Folders : Type := list (string * Descriptor).

Fixpoint handle_of (path : string) (n : N) (d : Folders) : option N :=
  match d with
  | [] => None
  | (p, _) :: d' => if decide (p = path) then Some n else handle_of path (n + 1) d'
  end.

Definition open_folder (path : string) (d : Folders) : (N * N) * Folders :=
  (match handle_of path 0 d with Some h => (0, h) | None => (2, 0) end%N, d).

Definition units_of (s : string) : list N := N_of_ascii <$> as_bytes s.

Definition replace_security (information : N) (sd old : Descriptor) : Descriptor :=
  {| sd_owner := if (N.land information OWNER_INFORMATION =? 0)%N then sd_owner old else sd_owner sd;
     sd_control := sd_control sd; sd_dacl := sd_dacl sd |}.

(** The installer is an elevated administrator with an account of its own. *)
Definition INSTALLER : string := "S-1-5-21-1-2-3-500".
Definition installer_token : Token :=
  {| tk_user_size := 40; tk_user := Some (sid_of INSTALLER); tk_elevation := Some (1, 4)%N;
     tk_type := Some (1, 4)%N; tk_duplicate := PipeServer.Handle; tk_administrator_sid := true;
     tk_member := Some true |}.

#[export] Instance test_folders : DirectorySystem Folders := {
  dy_program_data d := (Some (Some "C:\ProgramData"), d);
  dy_program_files d := ((0%N, units_of "C:\Program Files" ++ [0%N]), d);
  dy_open path _ := open_folder path;
  dy_open_exclusive path := open_folder path;
  dy_attributes _ d := (Some 16%N, d);
  dy_standard _ d := (Some (true, false), d);
  dy_final_path h d :=
    (let units := default [] ((fun e => units_of ("\\?\" +:+ fst e)) <$> (d !! N.to_nat h)) in
     (N.of_nat (length units), units), d);
  dy_security h d := (snd <$> d !! N.to_nat h, d);
  dy_parse sddl d :=
    (if decide (sddl = DATA_DIRECTORY_SDDL) then Some (descriptor_of ADMINISTRATORS_SID true full_entries)
     else if decide (sddl = DATA_PARENT_SDDL) then
       Some (descriptor_of ADMINISTRATORS_SID true (full_entries ++ [(0, 3, 1179817, USERS)]%N))
     else None, d);
  dy_create path sd d := (0%N, d ++ [(path, sd)]);
  dy_set_security h information sd d :=
    (true, alter (fun e => (fst e, replace_security information sd (snd e))) (N.to_nat h) d);
  dy_token d := ((PipeServer.Handle, installer_token), d);
  dy_string_sid s d := (Some (sid_of s), d);
  dy_dacl _ d := (Some None, d);
  dy_merge _ _ d := (Some [], d);
  dy_set_dacl _ _ d := (true, d);
}.

#[export] Instance test_peace : DirectoryPeace Folders.
Proof.
  unshelve eexists; [exact (fun h d => snd <$> d !! N.to_nat h)|..].
  - by intros h d sd d' [= <- <-].
  - intros h d h' sd s Hd _. by left.
  - intros d h' sd s Hd _. by left.
  - intros path b d h' sd s Hd _. by left.
  - intros h d h' sd s Hd _. by left.
  - intros h d h' sd s Hd _. by left.
  - intros h d h' sd s Hd _. by left.
Defined.

Definition program_data : string * Descriptor := ("C:\ProgramData", descriptor_of SYSTEM_SID false []).

(** Nothing is there; the installer's account made the parent; a user made it. *)
Definition fresh : Folders := [program_data].
Definition own : Folders := [program_data; ("C:\ProgramData\SE7EN", descriptor_of INSTALLER false full_entries)].
Definition squatted : Folders :=
  [program_data; ("C:\ProgramData\SE7EN", descriptor_of SOME_USER true full_entries)].

Definition data_directory_opened : ProtectedDataDirectory :=
  {| pd_parent := 1; pd_directory := 2; pd_path := "C:\ProgramData\SE7EN\Service" |}.

Lemma provisioned_runs :
  provision_service_data_directory fresh
    = (Done (Ok data_directory_opened), snd (provision_service_data_directory fresh)) /\
  provision_service_data_directory own
    = (Done (Ok data_directory_opened), snd (provision_service_data_directory own)) /\
  open_service_data_directory (snd (provision_service_data_directory own))
    = (Done (Ok data_directory_opened), snd (provision_service_data_directory own)).
Proof.
  split_and!.
  - apply (ran provision_service_data_directory fresh (Done (Ok data_directory_opened))). computed.
  - apply (ran provision_service_data_directory own (Done (Ok data_directory_opened))). computed.
  - computed.
Qed.

Example squatted_directory_is_refused :
  fst (provision_service_data_directory squatted)
    = Done (Err (security_error "protected service data directory is owned by a non-administrator")) /\
  fst (open_service_data_directory squatted)
    = Done (Err (security_error "protected service data directory is owned by a non-administrator")).
Proof. split; computed. Qed.

