(* ===== verification/DirectPlatform.v ===== *)
(** * The platform of direct launcher updates

    [DirectPlatform] of src/src/windows/direct_update.rs: the Windows platform
    for one root and launcher, which replaces a target in one operation of the
    system, so that the launcher's name does not disappear between the backup
    and the replacement. *)

From S2P Require Import Prelude Errors Effects Identifiers Json Trust FileSet Roots Journal.
From S2P Require Import Storage Transaction LocalPlatform WindowsPath WindowsFiles DirectoryNames.
From S2P Require Import WindowsPlatform.

(** [path_allowed]: the launcher, libraries beside it, and files other than
    programs below 7launcher/resources. *)
Definition allowed_byte (b : byte) : bool :=
  is_ascii_digit b || is_ascii_lowercase b || is_ascii_uppercase b
  || bool_decide (b ∈ ["_"; "-"; "."; "/"]%char).

Definition has_extension (path ext : string) : bool :=
  match extension path with Some e => eq_ignore_ascii_case e ext | None => false end.

Definition path_allowed (path launcher : string) : bool :=
  if negb (is_ok (validate_relative_path path)) || (240 <? str_len path)%nat
     || negb (forallb allowed_byte (as_bytes path))
  then false
  else
    match path_components path with
    | [_] => bool_decide (path = launcher) || has_extension path "dll"
    | a :: b :: _ :: _ =>
        eq_ignore_ascii_case a "7launcher" && eq_ignore_ascii_case b "resources"
        && negb (has_extension path "exe")
    | _ => false
    end.

Section operations.
Context `{UnicodeCase, Crypto, FileNames, NewFiles, WindowsVolumes, DirectoryListing}.

(** ** Operations of the system *)

(** [ReplaceFileW], without a backup or with one.  It can stop when the replaced
    file has its backup's name, or is gone, and the replacement has not moved. *)
Definition replaced_half (d : RootDir) (target : Leaf) (backup : option Leaf) (g : File) : RootDir :=
  match backup with
  | Some b => put_leaf (drop_leaf d target) b g
  | None => drop_leaf d target
  end.

Definition replace_file (tree : string) (source target : Leaf) (backup : option Leaf)
    (e : MaintenanceError) : M World () :=
  tx_write (fun steps w =>
    if sharing_violation w tree source DataOrDelete || sharing_violation w tree target DataOrDelete
    then None
    else update_tree tree (fun d =>
      f ← find_leaf d source;
      g ← find_leaf d target;
      if match backup with Some b => bool_decide (leaf_node d b <> NAbsent) | None => false end
      then None
      else match steps with
           | O => Some d
           | 1 => Some (replaced_half d target backup g)
           | _ => Some (put_leaf (drop_leaf (replaced_half d target backup g) source) target f)
           end) w) 2 e.

(** [MoveFileExW] inside a volume. *)
Definition move_file (tree : string) (source target : Leaf) (replace_existing : bool)
    (e : MaintenanceError) : M World () :=
  tx_io (fun w =>
    if sharing_violation w tree source DataOrDelete || sharing_violation w tree target DataOrDelete
    then None
    else update_tree tree (fun d =>
      f ← find_leaf d source;
      match leaf_node d target with
      | NAbsent => Some (put_leaf (drop_leaf d source) target f)
      | NFile => if replace_existing then Some (put_leaf (drop_leaf d source) target f) else None
      | NDirectory | NLink => None
      end) w) e.

(** ** The steps around them *)

Definition locked_leaf (root : RegisteredRoot) (l : Leaf) (create : bool) : M World () :=
  components ← lift (relative_components (leaf_path l));
  _ ← lift (ensure (negb (length components =? 0)%nat) FileSetPath "atomic update path is empty");
  locked ← lock_parent_chain (location root) (Some l) (removelast components) create;
  lift (ensure locked RootIdentity "atomic update parent is absent").

(** Opening the file to look at its attributes. *)
Definition open_atomic (tree : string) (l : Leaf) (detail : string) : M World () :=
  let e := new_error TransactionIo detail in
  _ ← tx_read (fun w => match leaf_node_in w tree l with
        | NFile | NLink => Ok tt
        | NAbsent | NDirectory => Err e
        end) e;
  ensure_safe_regular_file tree l.

Definition replace_atomic (root : RegisteredRoot) (source target : Leaf) (backup : option Leaf)
    : M World () :=
  let tree := canonical_path root in
  _ ← locked_leaf root source false;
  _ ← locked_leaf root target true;
  _ ← match backup with
      | Some b =>
          _ ← locked_leaf root b true;
          present ← tx_exists (fun w => bool_decide (leaf_node_in w tree b <> NAbsent));
          lift (ensure (negb present) TransactionConflict "direct update backup already exists")
      | None => pure tt
      end;
  _ ← open_atomic tree source "atomic source cannot be opened";
  _ ← open_atomic tree target "atomic target cannot be opened";
  replace_file tree source target backup
    (new_error TransactionIo "direct atomic replacement failed").

Definition move_atomic (root : RegisteredRoot) (source target : Leaf) (replace : bool)
    : M World () :=
  let tree := canonical_path root in
  _ ← locked_leaf root source false;
  _ ← locked_leaf root target true;
  _ ← open_atomic tree source "atomic source cannot be opened";
  found ← open_relative_file (location root) target ReadAttributes false false;
  _ ← (if (found : bool) then ensure_safe_regular_file tree target else pure tt);
  move_file tree source target replace (new_error TransactionIo "direct atomic rename failed").

(** ** The platform *)

Section direct.
(** The root and the launcher the platform was made for. *)
Context (bound_root : RegisteredRoot) (launcher : string).

Definition bound (root : RegisteredRoot) : M World () :=
  _ ← lift (ensure (bool_decide (root = bound_root)) RootIdentity
        "direct journal belongs to another root");
  windows_verify_root_identity root.

Definition allowed_target (root : RegisteredRoot) (path : string) : M World () :=
  _ ← bound root;
  lift (ensure (path_allowed path launcher) FileSetPath "direct journal path is not allowed").

Definition direct_inspect_target (root : RegisteredRoot) (path : string)
    : M World (option TargetSnapshot) :=
  _ ← allowed_target root path;
  windows_inspect_target root path.

Definition direct_prepare_target_payload (root : RegisteredRoot) (job : string) (index : N)
    (private_payload : M World Chunks) (expected : FileEntry) : M World () :=
  _ ← allowed_target root (fe_path expected);
  windows_prepare_target_payload root job index private_payload expected.

Definition direct_atomic_replace_target (root : RegisteredRoot) (job : string) (index : N)
    (path : string) (original : option TargetSnapshot) : M World bool :=
  _ ← allowed_target root path;
  current ← windows_inspect_target root path;
  _ ← lift (ensure (bool_decide (current = original)) RootIdentity
        "direct target changed before replacement");
  _ ← take_handle root path;
  _ ← (match original with
       | Some _ => replace_atomic root (PreparedFile job index) (TargetFile path)
                     (Some (BackupFile job index))
       | None => move_atomic root (PreparedFile job index) (TargetFile path) false
       end);
  pure true.

Definition direct_atomic_restore_backup (root : RegisteredRoot) (job : string) (index : N)
    (path : string) : M World bool :=
  _ ← allowed_target root path;
  target ← windows_inspect_target root path;
  _ ← take_handle root path;
  _ ← (match target with
       | Some _ => replace_atomic root (BackupFile job index) (TargetFile path) None
       | None => move_atomic root (BackupFile job index) (TargetFile path) false
       end);
  pure true.

Definition direct_backup_exists (root : RegisteredRoot) (job : string) (index : N) : M World bool :=
  _ ← bound root;
  windows_backup_exists root job index.

Definition direct_delete_target (root : RegisteredRoot) (path : string) : M World () :=
  _ ← allowed_target root path;
  windows_delete_target root path.

(** The private directory is the one of the job: it follows from the policy's
    directory, which is the root's, and the job. *)
Definition direct_cleanup_job (root : RegisteredRoot) (job : string) : M World () :=
  _ ← bound root;
  windows_cleanup_job root job.

(** The renames in two steps are the provided methods; the engine calls them on
    no atomic platform. *)
Definition DirectPlatform (staging_files : gmap string (list byte)) : TransactionPlatform := {|
  uses_atomic_replacement := true;
  atomic_replace_target := direct_atomic_replace_target;
  atomic_restore_backup := direct_atomic_restore_backup;
  verify_root_identity := bound;
  root_is_missing _ := pure false;
  available_space := windows_available_space;
  same_volume := windows_same_volume;
  open_staging_payload := windows_open_staging_payload staging_files;
  inspect_target := direct_inspect_target;
  prepare_target_payload := direct_prepare_target_payload;
  rename_target_to_backup := local_rename_target_to_backup;
  rename_prepared_to_target := local_rename_prepared_to_target;
  backup_exists := direct_backup_exists;
  delete_target := direct_delete_target;
  restore_backup := local_restore_backup;
  cleanup_job := direct_cleanup_job;
  checkpoint _ := pure tt;
|}.
End direct.
End operations.
