(* ===== verification/DirectPlatformProof.v ===== *)
(** * The direct platform keeps its promises

    [DirectPlatform] satisfies the contract of Contract, for every root and job,
    on the root it was made for and on any other: there everything is refused. *)

From S2P Require Import Prelude Errors Effects Identifiers Json Trust FileSet Roots Journal.
From S2P Require Import Storage Transaction LocalPlatform WindowsFiles DirectoryNames.
From S2P Require Import WindowsPlatform DirectPlatform Contract LocalPlatformProof.
From S2P Require Import WindowsPlatformProof.

Section direct.
Context `{UnicodeCase, Crypto, FileNames, NewFiles, WindowsVolumes, DirectoryListing}.
Context (bound_root : RegisteredRoot) (launcher : string).
Context (root : RegisteredRoot) (job : string).
#[local] Abbreviation view := (view root job).
#[local] Abbreviation reads := (reads root job).
#[local] Abbreviation mutates := (mutates root job).
#[local] Abbreviation replaces := (replaces root job).
#[local] Abbreviation dir_view := (dir_view job).
#[local] Abbreviation tree := (canonical_path root).
#[local] Abbreviation anything := (fun _ _ => True).

Lemma bound_reads : reads (bound bound_root root) anything.
Proof. eapply reads_then; [apply reads_answer|]. intros _. apply windows_identity_reads. Qed.

Lemma allowed_reads path : reads (allowed_target bound_root launcher root path) anything.
Proof. eapply reads_then; [apply bound_reads|]. intros _. apply reads_answer. Qed.

(** ** Replacements *)

Lemma replaces_bind {A} (m : M World A) (k : A -> M World bool) Q1
    (Q P : JobView -> JobView -> Prop) :
  reads m Q1 -> (forall v, P v v) ->
  (forall a, replaces (k a) (fun v v' => Q1 a v -> Q v v') (fun v v' => Q1 a v -> P v v')) ->
  replaces (m ≫= k) Q P.
Proof.
  intros Hm HP Hk w. apply wp_bind. eapply wp_mono; [exact (Hm w)| |..]; cbn.
  - intros a w1 (Hf & Hv & HQ). rewrite <- Hv in HQ |- *.
    eapply wp_mono; [exact (Hk a w1)|..]; cbn; intros; destruct_and?;
      (split; [by etransitivity|]); naive_solver.
  - intros _ w' [Hf ->]. by split.
  - intros w' [Hf ->]. by split.
Qed.

Lemma replaces_then {A} (m : M World A) (k : A -> M World bool) Q1
    (Q P : JobView -> JobView -> Prop) :
  reads m Q1 -> (forall v, P v v) -> (forall a, replaces (k a) Q P) -> replaces (m ≫= k) Q P.
Proof.
  intros Hm HP Hk. eapply replaces_bind; [exact Hm|done|]. intros a w.
  eapply wp_mono; [exact (Hk a w)|..]; cbn; naive_solver.
Qed.

(** What a change in steps does: all of it, or any part of it. *)
Definition stages (m : M World ()) (Q P : JobView -> JobView -> Prop) : Prop :=
  forall w, wp m (fun _ w' => frame root w w' /\ Q (view w) (view w'))
                 (fun _ w' => frame root w w' /\ P (view w) (view w'))
                 (fun w' => frame root w w' /\ P (view w) (view w')) w.

Lemma stages_replaces (m : M World ()) Q P : stages m Q P -> replaces (_ ← m; pure true) Q P.
Proof.
  intros Hm w. apply wp_bind. eapply wp_mono; [exact (Hm w)|..]; cbn; [|done..].
  intros _ w' [Hf HQ]. by apply wp_pure.
Qed.

Lemma stages_bind {A} (m : M World A) (k : A -> M World ()) Q1 (Q P : JobView -> JobView -> Prop) :
  reads m Q1 -> (forall v, P v v) -> (forall a, stages (k a) Q P) -> stages (m ≫= k) Q P.
Proof.
  intros Hm HP Hk w. apply wp_bind. eapply wp_mono; [exact (Hm w)| |..]; cbn.
  - intros a w1 (Hf & Hv & HQ). rewrite <- Hv.
    eapply wp_mono; [exact (Hk a w1)|..]; cbn; intros; destruct_and?;
      (split; [by etransitivity|]); naive_solver.
  - intros _ w' [Hf ->]. by split.
  - intros w' [Hf ->]. by split.
Qed.

Lemma stages_mono (m : M World ()) (Q Q' P P' : JobView -> JobView -> Prop) :
  stages m Q P -> (forall v v', Q v v' -> Q' v v') -> (forall v v', P v v' -> P' v v') ->
  stages m Q' P'.
Proof. intros Hm HQ HP w. eapply wp_mono; [exact (Hm w)|..]; cbn; naive_solver. Qed.

Lemma mutates_stages (m : M World ()) (Q : JobView -> JobView -> Prop) :
  mutates m Q -> stages m Q (fun v v' => v' = v \/ Q v v').
Proof. intros Hm w. eapply wp_mono; [exact (Hm w)|..]; cbn; naive_solver. Qed.

(** A change that may be part of the way. *)
Lemma stages_tx_write f total e (Q P : JobView -> JobView -> Prop) :
  (forall v, P v v) ->
  (forall k d d', f k d = Some d' -> P (dir_view d) (dir_view d')) ->
  (forall d d', f total d = Some d' -> Q (dir_view d) (dir_view d')) ->
  forall blocked : World -> bool,
  stages (tx_write (fun k w => if blocked w then None else update_tree tree (f k) w) total e) Q P.
Proof.
  intros Hrefl HP HQ blocked w. unfold wp, tx_write. set (w1 := set_fates w _).
  assert (forall k w', (if blocked w1 then None else update_tree tree (f k) w1) = Some w' ->
    frame root w w' /\ exists d d', f k d = Some d' /\ view w = dir_view d /\ view w' = dir_view d')
    as Hu.
  { intros k w'. destruct (blocked w1); [done|].
    intros (d & d' & _ & Ef & Hf & _ & Ev & Ev')%(update_root_view root job). split; [exact Hf|].
    by exists d, d'. }
  assert (frame root w w1 /\ P (view w) (view w1)) as Hsame by (by split; [|apply Hrefl]).
  assert (forall k, frame root w (default w1 (if blocked w1 then None else update_tree tree (f k) w1))
    /\ P (view w) (view (default w1 (if blocked w1 then None else update_tree tree (f k) w1)))) as Hk.
  { intros k. destruct (if blocked w1 then None else _) as [w2|] eqn:E; [|exact Hsame]. cbn.
    destruct (Hu k w2 E) as (Hf & d & d' & Ef & -> & ->). split; [done|]. by eapply HP. }
  destruct (default Works (head (w_fates w))); [|apply Hk..].
  destruct (if blocked w1 then None else _) as [w2|] eqn:E; [|exact Hsame].
  destruct (Hu total w2 E) as (Hf & d & d' & Ef & -> & ->). split; [done|]. by eapply HQ.
Qed.

(** *** The operations of the system *)

(** Everything of a replacement; part of it; all or part. *)
Definition exchanged (source target : Leaf) (backup : option Leaf) (v v' : JobView) : Prop :=
  exists f g, view_leaf v source = Some f /\ view_leaf v target = Some g
    /\ v' = view_put target f (view_drop source
               (match backup with
                | Some b => view_put b g (view_drop target v)
                | None => view_drop target v
                end)).

Definition half_exchanged (target : Leaf) (backup : option Leaf) (v v' : JobView) : Prop :=
  exists g, view_leaf v target = Some g
    /\ v' = match backup with
            | Some b => view_put b g (view_drop target v)
            | None => view_drop target v
            end.

Definition own_backup (backup : option Leaf) : Prop :=
  match backup with Some b => own job b | None => True end.

Lemma replaced_half_view d target backup g :
  own job target -> own_backup backup ->
  dir_view (replaced_half d target backup g)
  = match backup with
    | Some b => view_put b g (view_drop target (dir_view d))
    | None => view_drop target (dir_view d)
    end.
Proof. intros Ht Hb. destruct backup; cbn; by rewrite ?dir_view_put, dir_view_drop. Qed.

Lemma replace_file_stages source target backup e :
  own job source -> own job target -> own_backup backup ->
  stages (replace_file tree source target backup e) (exchanged source target backup)
    (fun v v' => v' = v \/ half_exchanged target backup v v' \/ exchanged source target backup v v').
Proof.
  intros Hs Ht Hb.
  set (step := fun steps d => f ← find_leaf d source; g ← find_leaf d target;
    if match backup with Some b => bool_decide (leaf_node d b <> NAbsent) | None => false end
    then None
    else match steps with
         | O => Some d
         | 1%nat => Some (replaced_half d target backup g)
         | _ => Some (put_leaf (drop_leaf (replaced_half d target backup g) source) target f)
         end).
  assert (forall k d d', step k d = Some d' ->
    match k with
    | O => d' = d
    | 1%nat => half_exchanged target backup (dir_view d) (dir_view d')
    | _ => exchanged source target backup (dir_view d) (dir_view d')
    end) as Hstep.
  { intros k d d' E. unfold step in E.
    destruct (find_leaf d source) as [f|] eqn:Ef; [|done]. cbn in E.
    destruct (find_leaf d target) as [g|] eqn:Eg; [|done]. cbn in E.
    rewrite (find_leaf_view job) in Ef, Eg by done.
    destruct (match backup with Some _ => _ | None => false end); [done|].
    destruct k as [|[|k]]; injection E as <-; [done|..].
    - exists g. split; [done|]. by apply replaced_half_view.
    - exists f, g. split_and!; [done..|].
      rewrite dir_view_put, dir_view_drop by done. by rewrite replaced_half_view. }
  apply (stages_tx_write step); [by left|..].
  - intros [|[|k]] d d' E%Hstep; [left; congruence|by right; left|by right; right].
  - intros d d' E%Hstep. exact E.
Qed.

Lemma mutates_guarded f e (Q : JobView -> JobView -> Prop) (blocked : World -> bool) :
  (forall d d', f d = Some d' -> Q (dir_view d) (dir_view d')) ->
  mutates (tx_io (fun w => if blocked w then None else update_tree tree f w) e) Q.
Proof.
  intros HQ w. pose proof (mutates_tx_io root job f e Q HQ w) as Hm.
  unfold wp, tx_io in *. destruct (blocked _).
  - assert (forall fates, frame root w (set_fates w fates) /\ view (set_fates w fates) = view w) as Hq
      by (intros; apply set_fates_quiet).
    destruct (default Works (head (w_fates w))); cbn; try apply Hq.
    all: split; [|left]; apply Hq.
  - exact Hm.
Qed.

(** A move to a name that is free. *)
Lemma move_file_mutates source target e :
  own job source -> own job target ->
  mutates (move_file tree source target false e)
    (fun v v' => exists f, view_leaf v source = Some f /\ view_leaf v target = None
       /\ v' = view_put target f (view_drop source v)).
Proof.
  intros Hs Ht. apply mutates_guarded. intros d d' E.
  destruct (find_leaf d source) as [f|] eqn:Ef; [|done]. cbn in E.
  destruct (leaf_node d target) eqn:En; try done. injection E as <-.
  apply leaf_node_absent in En. rewrite (find_leaf_view job) in Ef, En by done.
  exists f. split_and!; [done..|]. by rewrite dir_view_put, dir_view_drop.
Qed.

(** *** The steps around them *)

Lemma locked_leaf_reads l create : own job l -> reads (locked_leaf root l create) anything.
Proof.
  intros Hl. eapply reads_then; [apply reads_answer|]. intros components.
  eapply reads_then; [apply reads_answer|]. intros _.
  eapply reads_then; [by apply (lock_parent_chain_reads root job)|]. intros locked.
  apply reads_answer.
Qed.

Lemma open_atomic_reads l detail : own job l -> reads (open_atomic tree l detail) anything.
Proof.
  intros Hl. eapply reads_then; [apply reads_read|]. intros _.
  eapply reads_mono; [by apply (regular_file_reads root job)|done].
Qed.

Lemma replace_atomic_stages source target backup :
  own job source -> own job target -> own_backup backup ->
  stages (replace_atomic root source target backup) (exchanged source target backup)
    (fun v v' => v' = v \/ half_exchanged target backup v v' \/ exchanged source target backup v v').
Proof.
  intros Hs Ht Hb.
  eapply stages_bind; [by apply locked_leaf_reads|by left|intros _].
  eapply stages_bind; [by apply locked_leaf_reads|by left|intros _].
  eapply stages_bind; [|by left|intros _].
  { instantiate (1 := anything). destruct backup as [b|]; [|by apply reads_pure].
    eapply reads_then; [by apply locked_leaf_reads|]. intros _.
    eapply reads_then; [by apply (reads_gets _ _ _ anything)|]. intros present. apply reads_answer. }
  eapply stages_bind; [by apply open_atomic_reads|by left|intros _].
  eapply stages_bind; [by apply open_atomic_reads|by left|intros _].
  by apply replace_file_stages.
Qed.

Lemma move_atomic_mutates source target :
  own job source -> own job target ->
  mutates (move_atomic root source target false)
    (fun v v' => exists f, view_leaf v source = Some f /\ view_leaf v target = None
       /\ v' = view_put target f (view_drop source v)).
Proof.
  intros Hs Ht.
  eapply mutates_then; [by apply locked_leaf_reads|]. intros _.
  eapply mutates_then; [by apply locked_leaf_reads|]. intros _.
  eapply mutates_then; [by apply open_atomic_reads|]. intros _.
  eapply mutates_then; [by apply (open_existing_reads root job)|]. intros found.
  eapply mutates_then; [|intros _; by apply move_file_mutates].
  instantiate (1 := anything). destruct found; [|by apply reads_pure].
  eapply reads_mono; [by apply (regular_file_reads root job)|done].
Qed.

(** *** The two operations *)

Lemma exchanged_swapped index path original v v' :
  f_snapshot <$> v_files v !! fs_key path = original ->
  exchanged (PreparedFile job index) (TargetFile path) (Some (BackupFile job index)) v v' ->
  swapped index path original v v'.
Proof.
  intros Ho (f & g & Hf & Hg & ->). cbn in *. exists f. split_and!; [done..|].
  by rewrite Hg, insert_delete_eq.
Qed.

Lemma direct_replace_spec index path original :
  replaces (direct_atomic_replace_target bound_root launcher root job index path original)
    (swapped index path original) (partly_swapped index path original).
Proof.
  eapply replaces_then; [apply allowed_reads|by left|intros _].
  eapply replaces_bind; [apply inspect_reads|by left|intros current].
  eapply replaces_bind; [apply reads_ensure|by left|intros []].
  eapply replaces_then; [apply take_handle_reads|by left|intros _].
  apply stages_replaces. destruct original as [snapshot|].
  - eapply stages_mono; [by apply replace_atomic_stages|..].
    + intros v v' Hx ->%bool_decide_eq_true Hc. by apply exchanged_swapped.
    + intros v v' Hx ->%bool_decide_eq_true Hc. destruct Hx as [->|[(g & Hg & ->)|Hx]].
      * by left.
      * right; left. by exists g.
      * right; right. by apply exchanged_swapped.
  - eapply stages_mono; [by apply mutates_stages, move_atomic_mutates|..]; cbn.
    + intros v v' (f & Hf & Hn & ->) _ _. exists f. rewrite Hn. by split_and!.
    + intros v v' Hx _ _. destruct Hx as [->|(f & Hf & Hn & ->)]; [by left|].
      right; right. exists f. rewrite Hn. by split_and!.
Qed.

Lemma direct_restore_spec index path :
  replaces (direct_atomic_restore_backup bound_root launcher root job index path)
    (put_back index path) (partly_put_back index path).
Proof.
  eapply replaces_then; [apply allowed_reads|by left|intros _].
  eapply replaces_then; [apply inspect_reads|by left|intros target].
  eapply replaces_then; [apply take_handle_reads|by left|intros _].
  assert (forall v v', exchanged (BackupFile job index) (TargetFile path) None v v' ->
            put_back index path v v') as Hback.
  { intros v v' (f & g & Hf & Hg & ->). cbn in *. exists f. split; [done|].
    by rewrite insert_delete_eq. }
  apply stages_replaces. destruct target as [snapshot|].
  - eapply stages_mono; [by apply replace_atomic_stages|exact Hback|].
    intros v v' [->|[(g & Hg & ->)|Hx]]; [by left|by right; left|right; right; by apply Hback].
  - eapply stages_mono; [by apply mutates_stages, move_atomic_mutates|..]; cbn.
    + intros v v' (f & Hf & Hn & ->). by exists f.
    + intros v v' [->|(f & Hf & Hn & ->)]; [by left|]. right; right. by exists f.
Qed.

(** ** The contract *)

Lemma direct_cleanup_cleans : cleans root job (direct_cleanup_job bound_root root job).
Proof.
  intros w. apply wp_bind. eapply wp_mono; [exact (bound_reads w)|..]; cbn.
  - intros _ w1 (Hf & Hv & _).
    pose proof (quiet_erodes root job w w1 Hf Hv) as He.
    eapply wp_mono; [apply (windows_cleanup_cleans root job)|..]; cbn; intros; destruct_and?;
      (split; [by eapply cleanup_frame_trans|]).
    + by destruct Hf as [<- _].
    + by eapply private_left_trans.
    + by eapply private_left_trans.
  - intros _ w1 [Hf Hv]. split; [by apply (quiet_erodes root job)|by apply left_whole; destruct Hf].
  - intros w1 [Hf Hv]. split; [by apply (quiet_erodes root job)|by apply left_whole; destruct Hf].
Qed.

#[export] Instance direct_platform_contract staging_files :
  @PlatformContract _ (DirectPlatform bound_root launcher staging_files) root job.
Proof.
  split; [apply bound_reads| | | | |apply rename_target_mutates|apply rename_prepared_mutates
    | |apply restore_mutates| | |apply direct_cleanup_cleans].
  - by apply reads_pure.
  - intros e. by apply reads_pure.
  - intros path. eapply reads_then; [apply allowed_reads|]. intros _. apply inspect_reads.
  - intros index. eapply reads_then; [apply bound_reads|]. intros _. apply backup_exists_windows_reads.
  - intros path. eapply mutates_then; [apply allowed_reads|]. intros _. apply delete_windows.
  - intros index path original _. apply direct_replace_spec.
  - intros index path _. apply direct_restore_spec.
Qed.
End direct.
