(* ===== verification/DirectUpdate.v ===== *)
(** * Direct launcher updates

    src/src/windows/direct_update.rs: the helper that updates a launcher with
    the caller's own rights.  A signed file set of the launcher's product is
    checked against a plan of what an update may touch and against the release
    accepted last, prepared by the transaction engine on the direct platform,
    recorded as accepted, and committed or taken back.

    The files of the update directory are files of the root's tree; documents
    given by a path, the signers of executables and the places of paths are
    answers of the system. *)

From S2P Require Import Prelude Errors Effects Identifiers Json Trust FileSet Roots Journal.
From S2P Require Import Storage Transaction LocalPlatform WindowsPath WindowsFiles DirectoryNames.
From S2P Require Import WindowsPlatform Impersonation DirectPlatform.

Definition MAX_DIRECT_MANIFEST : N := 65536.
Definition MAX_DIRECT_FILES : nat := 64.
Definition MAX_DIRECT_FILE_BYTES : N := 128 * 1024 * 1024.
Definition MAX_DIRECT_TOTAL_BYTES : N := 256 * 1024 * 1024.
Definition DIRECT_DIRECTORY : string := ".7launcher-direct-update".
Definition ACCEPTED_RELEASE : string := DIRECT_DIRECTORY +:+ "/accepted-release-v1.json".
Definition LOCK_FILE : string := DIRECT_DIRECTORY +:+ "/lock".

(** What the system answers about paths outside the trees and about programs. *)
Class DirectInputs := {
  (** a document opened without following a link: its bytes *)
  input_file : World -> string -> Result (list byte);
  (** the tree that opens at the directory of a launcher's path, and at a path *)
  launcher_directory : World -> string -> option string;
  directory_at : World -> string -> option string;
  (** the SHA-1 and SHA-256 thumbprints of the verified signer of the running
      helper, and of a program with these bytes *)
  helper_signer : World -> Result (string * string);
  program_signer : list byte -> Result (string * string);
}.

(** ** The plan *)

Definition product_byte (b : byte) : bool :=
  is_ascii_digit b || is_ascii_lowercase b || is_ascii_uppercase b
  || bool_decide (b ∈ ["_"; "."; "-"]%char).

(** [str::strip_suffix]. *)
Definition strip_suffix (p s : string) : option string :=
  of_bytes ∘ reverse <$> strip_prefix_bytes (reverse (as_bytes p)) (reverse (as_bytes s)).

(** The product of a launcher's file name, Run_<product>.exe. *)
Definition launcher_product (name : string) : option string :=
  rest ← match strip_prefix "Run_" name with
         | Some rest => Some rest
         | None => strip_prefix "run_" name
         end;
  product ← strip_suffix ".exe" rest;
  if negb (str_len product =? 0)%nat && (str_len product <=? 55)%nat
     && forallb product_byte (as_bytes product)
  then Some product else None.

(** An entry of the plan, after [total] bytes. *)
Definition check_plan_entry (launcher : string) (total : N) (e : FileEntry) : Result N :=
  _ ← ensure (path_allowed (fe_path e) launcher) FileSetPath "launcher update path is not allowed";
  total ← ok_or (checked_add u64_max total (fe_size e)) FileSetLimit
            "launcher update size overflowed";
  _ ← ensure (negb ((fe_size e =? 0)%N || (MAX_DIRECT_FILE_BYTES <? fe_size e)%N
                    || (MAX_DIRECT_TOTAL_BYTES <? total)%N))
        FileSetLimit "launcher update size is outside its bound";
  Ok total.

Definition validate_plan (manifest : VerifiedFileSet) (launcher : string) : Result () :=
  let files := fs_files (file_set manifest) in
  _ ← ensure (negb ((length files =? 0)%nat || (MAX_DIRECT_FILES <? length files)%nat
                    || negb (length (fs_remove_files (file_set manifest)) =? 0)%nat
                    || negb (length (List.filter (fun e => bool_decide (fe_path e = launcher)) files)
                             =? 1)%nat))
        FileSetLimit "launcher update file count is invalid";
  _ ← try_for (check_plan_entry launcher) 0%N files;
  Ok tt.

(** ** The accepted release *)

Record AcceptedRelease := {
  ar_keyring : Keyring;
  ar_file_set : FileSet;
}.

Section release.
Context `{SerdeJson, UnicodeCase, Crypto}.
Context `{!Reader Keyring, !Reader FileSet, !Reader AcceptedRelease}.

#[export] Instance AcceptedRelease_encoder : Encoder AcceptedRelease := fun r =>
  k ← to_value (ar_keyring r); f ← to_value (ar_file_set r);
  Some (Object [("keyring", k); ("fileSet", f)]).

(** The document the preparation writes: [json!] of the two documents, which has
    the fields of the record. *)
Definition encode_accepted (keyring : VerifiedKeyring) (manifest : VerifiedFileSet)
    : Result (list byte) :=
  value ← ok_or (to_value {| ar_keyring := Trust.keyring keyring;
                             ar_file_set := file_set manifest |})
            JsonInvalid "accepted release cannot be encoded";
  canonical_json value.

(** The checks of [accepted_release] on the document it read. *)
Definition decode_accepted (product launcher : string) (bytes : list byte)
    : Result (VerifiedKeyring * VerifiedFileSet) :=
  cache ← parse_canonical AcceptedRelease bytes (2 * MAX_DIRECT_MANIFEST);
  keyring_value ← ok_or (to_value (ar_keyring cache)) JsonInvalid "cached keyring cannot be encoded";
  keyring_bytes ← canonical_json keyring_value;
  keyring ← verify_keyring keyring_bytes KeyringAcceptance_default;
  file_set_value ← ok_or (to_value (ar_file_set cache)) JsonInvalid
                     "cached release cannot be encoded";
  file_set_bytes ← canonical_json file_set_value;
  manifest ← verify_file_set file_set_bytes keyring
               {| fsa_expected_product_id := product; fsa_previous := None |};
  _ ← validate_plan manifest launcher;
  Ok (keyring, manifest).

(** What the release accepted last asks of a keyring and of a file set. *)
Definition keyring_floor (accepted : option (VerifiedKeyring * VerifiedFileSet))
    : KeyringAcceptance :=
  match accepted with
  | Some (old, _) => {| minimum_version := kr_version (keyring old);
                        current_digest := Some (vk_digest old) |}
  | None => KeyringAcceptance_default
  end.

Definition generation_floor (accepted : option (VerifiedKeyring * VerifiedFileSet))
    : option GenerationRecord :=
  match accepted with
  | Some (_, manifest) => Some {| generation := fs_generation (file_set manifest);
                                  digest := vfs_digest manifest |}
  | None => None
  end.
End release.

(** ** The steps of the helper *)

Record DirectContext := {
  dc_root : RegisteredRoot;
  dc_launcher : string;
}.

Record PreparedDirectUpdate := {
  pd_context : DirectContext;
  pd_prepared : PreparedJob;
}.

Section update.
Context `{SerdeJson, UnicodeCase, Crypto, FileNames, NewFiles, WindowsVolumes, DirectoryListing}.
Context `{DirectInputs}.
Context `{!Reader Keyring, !Reader FileSet, !Reader AcceptedRelease}.
Context `{!Reader JournalHeader, !Reader JournalStateRecord}.

Definition read_bounded_to (path : string) (maximum : N) : M World (list byte) :=
  tx_read (fun w =>
    bytes ← input_file w path;
    _ ← ensure (N.of_nat (length bytes) <=? maximum)%N ManifestTooLarge
          "signed launcher update document is too large";
    Ok bytes) (new_error StagingInvalid "signed update document cannot be read").

Definition read_bounded (path : string) : M World (list byte) :=
  read_bounded_to path MAX_DIRECT_MANIFEST.

Definition launcher_identity (path : string) : M World (RegisteredRoot * string) :=
  name ← lift (ok_or (of_bytes <$> file_name path) RootInvalid "launcher filename is not Unicode");
  product ← lift (ok_or (launcher_product name) ProductMismatch
                    "launcher filename is not canonical");
  _ ← lift (ensure (path_is_absolute path) RootInvalid "launcher root is not absolute");
  let e := new_error RootIdentity "directory handle cannot be opened without reparse traversal" in
  tree ← tx_read (fun w => ok_or (launcher_directory w path) RootIdentity
                             "directory handle cannot be opened without reparse traversal") e;
  _ ← ensure_safe_directory tree None [];
  canonical ← final_path_owned tree [];
  identity ← directory_identity tree;
  let id := "direct-" +:+ of_bytes (take 32 (as_bytes (encode_hex (sha256 (as_bytes canonical))))) in
  root ← lift (from_canonical_identity id (to_ascii_lowercase product +:+ "-launcher") Launcher
                 canonical identity "S-1-5-18");
  pure (root, name).

Definition verify_direct_launcher_plan (manifest_path keyring_path launcher_path : string)
    : M World VerifiedFileSet :=
  '(root, launcher) ← launcher_identity launcher_path;
  keyring_bytes ← read_bounded keyring_path;
  keyring ← lift (verify_keyring keyring_bytes KeyringAcceptance_default);
  manifest_bytes ← read_bounded manifest_path;
  manifest ← lift (verify_file_set manifest_bytes keyring
                     {| fsa_expected_product_id := root_product_id root; fsa_previous := None |});
  _ ← lift (validate_plan manifest launcher);
  pure manifest.

(** The lock is a file opened without sharing: a second helper cannot open it. *)
Definition open_context (launcher_path : string) : M World DirectContext :=
  '(root, launcher) ← launcher_identity launcher_path;
  let tree := canonical_path root in
  let busy := new_error ServiceBusy "another direct launcher update is running" in
  locked ← lock_parent_chain (location root) None [DIRECT_DIRECTORY] true;
  _ ← lift (ensure locked TransactionIo "direct update directory cannot be created");
  _ ← tx_io (fun w =>
        if sharing_violation w tree (TargetFile LOCK_FILE) DataOrDelete then None
        else update_tree tree (fun d =>
          match leaf_node d (TargetFile LOCK_FILE) with
          | NAbsent => Some (put_leaf d (TargetFile LOCK_FILE)
                               {| f_snapshot := new_snapshot w []; f_data := [] |})
          | NFile | NLink => Some d
          | NDirectory => None
          end) w) busy;
  _ ← ensure_safe_regular_file tree (TargetFile LOCK_FILE);
  _ ← keep_handle root LOCK_FILE;
  pure {| dc_root := root; dc_launcher := launcher |}.

(** Dropping the context closes the lock. *)
Definition close_context (c : DirectContext) : M World () :=
  _ ← take_handle (dc_root c) LOCK_FILE; pure tt.

Definition direct_platform (c : DirectContext) (staging : gmap string (list byte))
    : TransactionPlatform :=
  DirectPlatform (dc_root c) (dc_launcher c) staging.

(** Dropping a platform closes the target handles it kept. *)
Definition drop_platform (c : DirectContext) : M World () :=
  modify (fun w => set_handles w (w_handles w ∩ {[ target_key (dc_root c) LOCK_FILE ]})).

(** [fs::read] of a file of the update directory, as far as its bound. *)
Definition read_tree_file (c : DirectContext) (path : string) (maximum : N) : M World (list byte) :=
  let tree := canonical_path (dc_root c) in
  let e := new_error StagingInvalid "signed update document cannot be opened" in
  _ ← tx_read (fun w => match leaf_node_in w tree (TargetFile path) with
        | NFile | NLink => Ok tt
        | NAbsent | NDirectory => Err e
        end) e;
  _ ← ensure_safe_regular_file tree (TargetFile path);
  tx_read (fun w =>
    f ← ok_or (d ← w_roots w !! tree; find_leaf d (TargetFile path)) StagingInvalid
          "signed update document cannot be read";
    _ ← ensure (N.of_nat (length (f_data f)) <=? maximum)%N ManifestTooLarge
          "signed launcher update document is too large";
    Ok (f_data f)) (new_error StagingInvalid "signed update document cannot be read").

Definition accepted_release (c : DirectContext)
    : M World (option (VerifiedKeyring * VerifiedFileSet)) :=
  let tree := canonical_path (dc_root c) in
  present ← tx_exists (fun w =>
    bool_decide (leaf_node_in w tree (TargetFile ACCEPTED_RELEASE) <> NAbsent));
  if (present : bool) then
    bytes ← read_tree_file c ACCEPTED_RELEASE (2 * MAX_DIRECT_MANIFEST);
    accepted ← lift (decode_accepted (root_product_id (dc_root c)) (dc_launcher c) bytes);
    pure (Some accepted)
  else pure None.

Definition trust (c : DirectContext) (keyring_path : string) : M World (list byte * VerifiedKeyring) :=
  accepted ← accepted_release c;
  bytes ← read_bounded keyring_path;
  verified ← lift (verify_keyring bytes (keyring_floor accepted));
  signer ← tx_read (fun w => Ok (helper_signer w))
             (new_error TrustSignature "updater identity is unavailable");
  _ ← lift (verify_authenticode_signer signer
              (authenticode_signer_thumbprints (keyring verified)));
  pure (bytes, verified).

(** Removing the directory of the jobs when it is empty: it holds no file. *)
Definition trim_empty_jobs : M World () :=
  _ ← attempt (tx_io Some transaction_io); pure tt.

(** The private directories are those of [w_jobs]; that the directory that holds
    them is no link is not represented. *)
Definition recovery (c : DirectContext) : M World () :=
  let e := new_error RecoveryIncomplete "direct update jobs cannot be enumerated" in
  jobs ← tx_read (fun w => Ok (size (w_jobs w))) e;
  _ ← lift (ensure (jobs <=? 2)%nat RecoveryIncomplete "too many direct update jobs");
  recovered ← attempt (let platform := direct_platform c ∅ in recover_incomplete);
  _ ← drop_platform c;
  _ ← lift recovered;
  trim_empty_jobs.

Definition replace_document (root : RegisteredRoot) (relative : string) (bytes : list byte)
    : M World () :=
  let tree := canonical_path root in
  let temp := TargetFile (relative +:+ ".new") in
  stale ← open_relative_file (location root) temp DataOrDelete false false;
  _ ← (if (stale : bool) then delete_by_handle tree temp else pure tt);
  created ← open_relative_file (location root) temp DataOrDelete true true;
  _ ← lift (ensure created TransactionIo "update receipt cannot be created");
  _ ← tx_write (fun k w => update_tree tree (fun d =>
        f ← find_leaf d temp;
        let data := f_data f ++ take k bytes in
        Some (put_leaf d temp {| f_snapshot := new_snapshot w data; f_data := data |})) w)
        (length bytes) (new_error TransactionIo "update receipt cannot be written");
  _ ← tx_io Some (new_error TransactionIo "update receipt cannot be flushed");
  move_atomic root temp (TargetFile relative) true.

(** *** Preparing *)

(** The content behind a handle that shares no writing. *)
Definition handle_content (tree : string) (l : Leaf) : M World (list byte) :=
  tx_read (fun w => f ← ok_or (d ← w_roots w !! tree; find_leaf d l) StagingInvalid
                          "staging payload handle cannot be read";
                    Ok (f_data f))
    (new_error StagingInvalid "staging payload handle cannot be read").

(** The staging files, opened; the launcher must be signed. *)
Fixpoint open_staging (launcher staging : string) (allowed : list string) (files : list FileEntry)
    : M World (gmap string (list byte)) :=
  match files with
  | [] => pure ∅
  | e :: files' =>
      found ← open_relative_file (unregistered staging) (TargetFile (fe_path e)) DataOrDelete
                false false;
      _ ← lift (ensure found StagingInvalid "launcher companion payload is absent");
      data ← handle_content staging (TargetFile (fe_path e));
      _ ← (if decide (fe_path e = launcher)
           then lift (verify_authenticode_signer (program_signer data) allowed) else pure tt);
      handles ← open_staging launcher staging allowed files';
      pure (<[fe_path e := data]> handles)
  end.

(** The launcher that is installed must be signed as well. *)
Definition check_installed_launcher (c : DirectContext) (allowed : list string) : M World () :=
  let target := TargetFile (dc_launcher c) in
  found ← open_relative_file (location (dc_root c)) target DataOrDelete false false;
  _ ← lift (ensure found RootIdentity "installed launcher is absent");
  data ← handle_content (canonical_path (dc_root c)) target;
  lift (verify_authenticode_signer (program_signer data) allowed).

Definition open_staging_root (staging : string) : M World string :=
  let e := new_error RootIdentity "directory handle cannot be opened without reparse traversal" in
  tree ← tx_read (fun w => ok_or (directory_at w staging) RootIdentity
                             "directory handle cannot be opened without reparse traversal") e;
  _ ← ensure_safe_directory tree None [];
  final_path_owned tree [].

Definition data_directory (c : DirectContext) : string :=
  join_path_name (canonical_path (dc_root c)) DIRECT_DIRECTORY.

(** After the context is open. *)
Definition prepare_in_context (c : DirectContext) (manifest_path keyring_path staging : string)
    : M World PreparedDirectUpdate :=
  '(_, keyring) ← trust c keyring_path;
  _ ← recovery c;
  accepted ← accepted_release c;
  manifest_bytes ← read_bounded manifest_path;
  manifest ← lift (verify_file_set manifest_bytes keyring
                     {| fsa_expected_product_id := root_product_id (dc_root c);
                        fsa_previous := generation_floor accepted |});
  _ ← lift (validate_plan manifest (dc_launcher c));
  let allowed := authenticode_signer_thumbprints (Trust.keyring keyring) in
  _ ← check_installed_launcher c allowed;
  tree ← open_staging_root staging;
  handles ← open_staging (dc_launcher c) tree allowed (fs_files (file_set manifest));
  prepared ← (let platform := direct_platform c handles in
              prepare_file_set (data_directory c) manifest (dc_root c) tree);
  cache ← lift (encode_accepted keyring manifest);
  recorded ← attempt (replace_document (dc_root c) ACCEPTED_RELEASE cache);
  match recorded with
  | Err e => _ ← drop_platform c; _ ← recovery c; fail e
  | Ok _ => pure {| pd_context := c; pd_prepared := prepared |}
  end.

(** A failure drops the platform and the context. *)
Definition prepare_direct_launcher_update (launcher_path manifest_path keyring_path staging : string)
    : M World PreparedDirectUpdate :=
  c ← open_context launcher_path;
  prepared ← attempt (prepare_in_context c manifest_path keyring_path staging);
  match prepared with
  | Err e => _ ← drop_platform c; _ ← close_context c; fail e
  | Ok p => pure p
  end.

(** *** Committing, cancelling, recovering *)

Definition direct_commit (p : PreparedDirectUpdate) : M World CommitResult :=
  let c := pd_context p in
  result ← attempt (let platform := direct_platform c ∅ in commit_file_set (pd_prepared p));
  _ ← drop_platform c;
  recovered ← attempt (match result with
    | Err _ => map_err (new_error RecoveryIncomplete
                          "direct update rollback could not be completed") (recovery c)
    | Ok _ => pure tt
    end);
  _ ← (match recovered with Ok _ => trim_empty_jobs | Err _ => pure tt end);
  _ ← close_context c;
  _ ← lift recovered;
  lift result.

Definition direct_cancel (p : PreparedDirectUpdate) : M World () :=
  let c := pd_context p in
  _ ← drop_platform c;
  recovered ← attempt (recovery c);
  _ ← close_context c;
  lift recovered.

Definition recover_direct_launcher_update (launcher_path keyring_path : string) : M World () :=
  c ← open_context launcher_path;
  recovered ← attempt (_ ← trust c keyring_path; recovery c);
  _ ← close_context c;
  lift recovered.
End update.
