(* ===== verification/DirectFrames.v ===== *)
(** * What a direct update leaves alone

    On a platform that replaces atomically and whose operations keep a part [f]
    of the trees, preparing, committing (a job that removes nothing) and
    recovering keep it too: the engine changes trees through the platform only.
    Then the content of one file, which the operations of the handles and of the
    direct platform keep. *)

From S2P Require Import Prelude Errors Effects Identifiers Json Trust FileSet Roots Storage.
From S2P Require Import Journal Transaction LocalPlatform Contract Frames WindowsFiles.
From S2P Require Import DirectoryNames WindowsPlatform DirectPlatform.

(** ** The transaction engine *)

(** The rules for the operations of the trees. *)
Section operations.
Context {X : Type} (f : World -> X).
Context (Hf : forall w w', w_roots w = w_roots w' -> f w = f w').

Lemma keeps_tx_read {A} (g : World -> Result A) e : keeps f (tx_read g e).
Proof. intros w. unfold tx_read. apply Hf. by destruct (default Works (head (w_fates w))). Qed.

Lemma keeps_tx_io effect e :
  (forall w w', effect w = Some w' -> f w' = f w) -> keeps f (tx_io effect e).
Proof.
  intros He w. unfold tx_io. set (w1 := set_fates w _).
  assert (f w1 = f w) as E1 by by apply Hf. assert (f (default w1 (effect w1)) = f w) as E2.
  { destruct (effect w1) as [w2|] eqn:E; cbn; [|done]. apply He in E. congruence. }
  destruct (default Works (head (w_fates w))); try exact E1; [|exact E2].
  destruct (effect w1); exact E2.
Qed.

Lemma keeps_tx_write effect total e :
  (forall k w w', effect k w = Some w' -> f w' = f w) -> keeps f (tx_write effect total e).
Proof.
  intros He w. unfold tx_write. set (w1 := set_fates w _).
  assert (f w1 = f w) as E1 by by apply Hf.
  assert (forall k, f (default w1 (effect k w1)) = f w) as E2.
  { intros k. destruct (effect k w1) as [w2|] eqn:E; cbn; [|done]. apply He in E. congruence. }
  destruct (default Works (head (w_fates w))); try apply E2.
  specialize (E2 total). by destruct (effect total w1).
Qed.

(** The private directories and the journals are not in the trees. *)
Lemma keeps_journal_append job bytes : keeps f (journal_append job bytes).
Proof.
  intros w. apply Hf. unfold journal_append.
  destruct (w_jobs w !! job) as [d|]; cbn;
    [destruct (jd_journal d); cbn|]; by destruct (default Works (head (w_journal_fates w))).
Qed.

(** A change of the private directories. *)
Lemma keeps_jobs effect e :
  (forall w w', effect w = Some w' -> w_roots w' = w_roots w) -> keeps f (tx_io effect e).
Proof. intros He. apply keeps_tx_io. intros w w' E. by apply Hf, He. Qed.
End operations.

(** A change and a write that may stop anywhere. *)
Lemma partial_tx_io effect e (Q : () -> World -> Prop) (E : World -> Prop) w :
  (forall w1, w_roots w1 = w_roots w ->
     E w1 /\ forall w2, effect w1 = Some w2 -> Q tt w2 /\ E w2) ->
  partial (tx_io effect e) Q E w.
Proof.
  intros Hf. unfold partial, tx_io. set (w1 := set_fates w _).
  destruct (Hf w1 eq_refl) as [HE Hs]. destruct (default Works (head (w_fates w))); try done;
    destruct (effect w1) eqn:Ee; try done; by apply Hs.
Qed.

Lemma partial_tx_write effect total e (Q : () -> World -> Prop) (E : World -> Prop) w :
  (forall w1, w_roots w1 = w_roots w ->
     E w1 /\ (forall k w2, effect k w1 = Some w2 -> E w2)
     /\ forall w2, effect total w1 = Some w2 -> Q tt w2) ->
  partial (tx_write effect total e) Q E w.
Proof.
  intros Hf. unfold partial, tx_write. set (w1 := set_fates w _).
  destruct (Hf w1 eq_refl) as (HE & Hk & Hs).
  assert (forall k, E (default w1 (effect k w1))) as Hd.
  { intros k. destruct (effect k w1) eqn:Ee; [by eapply Hk|done]. }
  destruct (default Works (head (w_fates w))); try apply Hd.
  destruct (effect total w1) eqn:Ee; [by apply Hs|done].
Qed.

(** ** The engine *)

(** An atomic platform whose operations keep [f]; the renames in two steps are
    not asked for. *)
Class PlatformKeeps {X} (f : World -> X) `{!TransactionPlatform} := {
  pk_atomic : uses_atomic_replacement = true;
  pk_identity root : keeps f (verify_root_identity root);
  pk_missing root : keeps f (root_is_missing root);
  pk_space path : keeps f (available_space path);
  pk_volume left right : keeps f (same_volume left right);
  pk_staging staging path : keeps f (open_staging_payload staging path);
  pk_inspect root path : keeps f (inspect_target root path);
  pk_prepare root job index payload e :
    keeps f payload -> keeps f (prepare_target_payload root job index payload e);
  pk_replace root job index path original :
    keeps f (atomic_replace_target root job index path original);
  pk_put_back root job index path : keeps f (atomic_restore_backup root job index path);
  pk_backup root job index : keeps f (backup_exists root job index);
  pk_delete root path : keeps f (delete_target root path);
  pk_cleanup root job : keeps f (cleanup_job root job);
  pk_checkpoint e : keeps f (checkpoint e);
}.

#[export] Hint Extern 1 (keeps _ _) =>
  first [ apply pk_identity | apply pk_missing | apply pk_space | apply pk_volume
        | apply pk_staging | apply pk_inspect | apply pk_replace | apply pk_put_back
        | apply pk_backup | apply pk_delete | apply pk_cleanup | apply pk_checkpoint ] : keeps.

Section engine.
Context {X : Type} (f : World -> X).
Context (Hf : forall w w', w_roots w = w_roots w' -> f w = f w').
Context `{SerdeJson, UnicodeCase, Crypto, TransactionPlatform, !PlatformKeeps f}.

#[local] Hint Extern 1 (keeps _ _) =>
  (first [apply keeps_tx_read | apply keeps_journal_append]; exact Hf) : keeps.

Lemma keeps_remove_job_directory job : keeps f (remove_job_directory job).
Proof.
  unfold remove_job_directory. apply keeps_bind; [|intro]; (apply keeps_jobs; [done|]); intros w w' E.
  - destruct (w_jobs w !! job); [|done]. by injection E as <-.
  - by injection E as <-.
Qed.

Lemma keeps_run_mutation kind path m : keeps f m -> keeps f (run_mutation kind path m).
Proof. intros Hm. unfold run_mutation. keeps. Qed.

Lemma keeps_cleanup_prepared h : keeps f (cleanup_prepared_job h).
Proof. apply keeps_run_mutation, pk_cleanup. Qed.

Lemma keeps_append_state job s : keeps f (append_state job s).
Proof. unfold append_state. keeps. Qed.

Lemma keeps_target_exists root path : keeps f (target_exists root path).
Proof. unfold target_exists. keeps. Qed.

#[local] Hint Resolve keeps_remove_job_directory keeps_run_mutation keeps_cleanup_prepared
  keeps_append_state keeps_target_exists : keeps.

Lemma keeps_rollback_entry h e : keeps f (rollback_entry h e).
Proof. unfold rollback_entry. rewrite (pk_atomic (f := f)). keeps. Qed.

#[local] Hint Resolve keeps_rollback_entry : keeps.

Lemma keeps_rollback_entries h : keeps f (rollback_entries h).
Proof. unfold rollback_entries. keeps. Qed.

#[local] Hint Resolve keeps_rollback_entries : keeps.

Lemma keeps_roll_back_commit h detail : keeps f (roll_back_commit h detail).
Proof. unfold roll_back_commit. keeps. Qed.

Lemma keeps_apply_entries h :
  (forall e, e ∈ entries h -> action e = Replace) -> keeps f (apply_entries h).
Proof.
  unfold apply_entries. induction (entries h) as [|e es IH]; intros Hr; [apply keeps_pure|].
  cbn [for_each]. apply keeps_bind; [|intro; apply IH; intros; apply Hr; by right].
  unfold apply_entry. rewrite (Hr e) by by left. rewrite (pk_atomic (f := f)), bool_decide_true by done.
  cbn [andb]. apply keeps_run_mutation. keeps.
Qed.

(** A job that removes nothing. *)
Lemma keeps_commit_file_set h :
  (forall e, e ∈ entries h -> action e = Replace) -> keeps f (commit_file_set h).
Proof.
  intros Hr. pose proof (keeps_apply_entries h Hr). pose proof (keeps_roll_back_commit h).
  unfold commit_file_set, verify_original_snapshots. keeps.
Qed.

Lemma keeps_copy_chunks write size total hashed chunks :
  (forall bytes, keeps f (write bytes)) -> keeps f (copy_chunks write size total hashed chunks).
Proof.
  intros Hw. revert total hashed. induction chunks as [|[c|] chunks IH]; intros; cbn [copy_chunks]; keeps.
Qed.

Lemma keeps_copy_reader source create write flush e :
  keeps f create -> (forall bytes, keeps f (write bytes)) -> keeps f flush ->
  keeps f (copy_reader_verified source create write flush e).
Proof.
  intros Hc Hw Hfl. unfold copy_reader_verified. keeps. by apply keeps_copy_chunks.
Qed.

Lemma keeps_entries root index files :
  keeps f (replace_entries root index files).
Proof. revert index. induction files as [|e files IH]; intros; cbn [replace_entries]; keeps. Qed.

Lemma keeps_removals root index paths : keeps f (remove_entries root index paths).
Proof. revert index. induction paths as [|p paths IH]; intros; cbn [remove_entries]; keeps. Qed.

Lemma keeps_open_payload job index : keeps f (open_payload job index).
Proof. unfold open_payload. keeps. Qed.

(** The private files of a job. *)
Lemma keeps_private effect e :
  (forall w w', effect w = Some w' -> exists j, w' = set_jobs w j) -> keeps f (tx_io effect e).
Proof. intros He. apply (keeps_jobs f Hf). intros w w' E. by destruct (He w w' E) as [j ->]. Qed.

Lemma keeps_create_payload job index : keeps f (create_payload job index).
Proof.
  apply keeps_private. intros w w' E. destruct (w_jobs w !! job) as [d|]; [|done]. cbn in E.
  destruct (jd_payload d !! index); [done|]. injection E as <-. by eexists.
Qed.

Lemma keeps_write_payload job index bytes : keeps f (write_payload job index bytes).
Proof.
  apply (keeps_tx_write f Hf). intros k w w' E. destruct (w_jobs w !! job) as [d|]; [|done].
  cbn in E. destruct (jd_payload d !! index); [|done]. injection E as <-. by apply Hf.
Qed.

Lemma keeps_flush_file : keeps f flush_file.
Proof. apply keeps_private. intros w w' [= <-]. by exists (w_jobs w); destruct w. Qed.

Lemma keeps_write_new_journal job header : keeps f (write_new_journal job header).
Proof.
  unfold write_new_journal. apply keeps_bind; [keeps|intro]. apply keeps_bind; [|intro; keeps].
  apply keeps_private. intros w w' E. destruct (w_jobs w !! job) as [d|]; [|done]. cbn in E.
  destruct (jd_journal d); [done|]. injection E as <-. by eexists.
Qed.

Lemma keeps_create_job_directory job : keeps f (create_job_directory job).
Proof.
  apply keeps_private. intros w w' E. destruct (w_jobs w !! job); [done|].
  injection E as <-. by eexists.
Qed.

#[local] Hint Resolve keeps_entries keeps_removals keeps_open_payload keeps_create_payload
  keeps_write_payload keeps_flush_file keeps_write_new_journal keeps_create_job_directory : keeps.

Lemma keeps_prepare_job_contents manifest root staging job :
  keeps f (prepare_job_contents manifest root staging job).
Proof.
  unfold prepare_job_contents. apply keeps_bind; [|intro].
  - apply keeps_for_each. intros [i e]. apply keeps_bind; [keeps|intro].
    apply keeps_copy_reader; [keeps|intro; keeps|keeps].
  - do 2 (apply keeps_bind; [keeps|intro]). apply keeps_bind; [keeps|intro].
    apply keeps_bind; [|intro; keeps]. apply keeps_for_each. intros [i e].
    apply keeps_bind; [keeps|intro]. apply pk_prepare. keeps.
Qed.

#[local] Hint Resolve keeps_prepare_job_contents : keeps.

Lemma keeps_prepare_file_set data manifest root staging :
  keeps f (prepare_file_set data manifest root staging).
Proof. unfold prepare_file_set, ensure_available_space. keeps. Qed.

Context `{!Reader JournalHeader, !Reader JournalStateRecord}.

Lemma keeps_recover_prepared result h s : keeps f (recover_prepared result h s).
Proof. unfold recover_prepared. keeps. Qed.

#[local] Hint Resolve keeps_recover_prepared : keeps.

Lemma keeps_recover_job result directory : keeps f (recover_job result directory).
Proof. unfold recover_job, cleanup_private_prepared_job. keeps; apply keeps_run_mutation; keeps. Qed.

Lemma keeps_recover_incomplete : keeps f recover_incomplete.
Proof.
  unfold recover_incomplete. apply keeps_bind; [keeps|intro l]. generalize no_recovery as r.
  induction l as [|d l IH]; intros; cbn [recover_jobs]; [keeps|].
  apply keeps_bind; [apply keeps_recover_job|intro; apply IH].
Qed.
End engine.

Section frames.
Context `{UnicodeCase, Crypto, FileNames, NewFiles, WindowsVolumes, DirectoryListing}.
Context (home path : string).

(** What the file at the path of a tree has in it. *)
Definition content (w : World) : option (list byte) :=
  f_data <$> (d ← w_roots w !! home; rd_files d !! fs_key path).

(** A leaf that is another file. *)
Definition spares (l : Leaf) : Prop :=
  match l with TargetFile p => fs_key p <> fs_key path | _ => True end.

Lemma content_roots w w' : w_roots w = w_roots w' -> content w = content w'.
Proof. unfold content. by intros ->. Qed.

Lemma put_leaf_spares d l f : spares l -> rd_files (put_leaf d l f) !! fs_key path = rd_files d !! fs_key path.
Proof. destruct l; cbn; intros; [by rewrite lookup_insert_ne|done..]. Qed.

Lemma drop_leaf_spares d l : spares l -> rd_files (drop_leaf d l) !! fs_key path = rd_files d !! fs_key path.
Proof. destruct l; cbn; intros; [by rewrite lookup_delete_ne|done..]. Qed.

(** A change of a tree that keeps the file. *)
Definition keeps_file (g : RootDir -> option RootDir) : Prop :=
  forall d d', g d = Some d' -> rd_files d' !! fs_key path = rd_files d !! fs_key path.

Lemma update_tree_content tree g w w' :
  keeps_file g -> update_tree tree g w = Some w' -> content w' = content w.
Proof.
  intros Hg E. unfold update_tree in E.
  destruct (w_roots w !! tree) as [d|] eqn:Ed; [|done]. cbn in E.
  destruct (g d) as [d'|] eqn:Eg; [|done]. injection E as <-. unfold content. cbn.
  destruct (decide (tree = home)) as [->|Hne].
  - rewrite lookup_insert_eq, Ed. cbn. by rewrite (Hg d d').
  - by rewrite lookup_insert_ne.
Qed.

Lemma keeps_read {A} (g : World -> Result A) e : keeps content (tx_read g e).
Proof. apply keeps_tx_read, content_roots. Qed.

Lemma keeps_tree tree g e : keeps_file g -> keeps content (tx_io (update_tree tree g) e).
Proof.
  intros Hg. apply keeps_tx_io; [apply content_roots|]. intros w w'. by apply update_tree_content.
Qed.

Lemma keeps_tree_dirs (tree : string) (P : RootDir -> Prop) `{!forall d, Decision (P d)} (g : RootDir -> gset (list string)) e :
  keeps content (tx_io (update_tree tree (fun d =>
    if decide (P d) then Some (with_dirs d (g d)) else None)) e).
Proof. apply keeps_tree. intros d d' E. case_decide; [|done]. by injection E as <-. Qed.

#[local] Hint Resolve keeps_read keeps_tree_dirs : keeps.

(** ** Handles *)

Lemma keeps_ensure_directory tree below place : keeps content (ensure_safe_directory tree below place).
Proof. apply keeps_read. Qed.
Lemma keeps_ensure_regular tree l : keeps content (ensure_safe_regular_file tree l).
Proof. apply keeps_read. Qed.
Lemma keeps_final_path tree place : keeps content (final_path_owned tree place).
Proof. apply keeps_read. Qed.

#[local] Hint Resolve keeps_ensure_directory keeps_ensure_regular keeps_final_path : keeps.

Lemma keeps_snapshot tree l : keeps content (regular_file_snapshot tree l).
Proof. unfold regular_file_snapshot. keeps. Qed.
Lemma keeps_directory_identity tree : keeps content (directory_identity tree).
Proof. unfold directory_identity. keeps. Qed.
Lemma keeps_open_directory tree : keeps content (open_absolute_directory tree).
Proof. unfold open_absolute_directory. keeps. Qed.

#[local] Hint Resolve keeps_snapshot keeps_directory_identity keeps_open_directory : keeps.

Lemma keeps_lock_chain loc below parents create :
  keeps content (lock_parent_chain loc below parents create).
Proof.
  unfold lock_parent_chain. apply keeps_bind; [keeps|intro]. apply keeps_bind; [keeps|intro].
  induction (prefixes parents) as [|place places IH]; cbn [lock_components]; [keeps|].
  apply keeps_bind; [keeps|intro node]. apply keeps_bind; [|intros []; keeps].
  destruct (decide (node = NAbsent)); [|keeps]. destruct create; [|keeps].
  apply keeps_bind; [apply keeps_tree_dirs|intro; keeps].
Qed.

#[local] Hint Resolve keeps_lock_chain : keeps.

Lemma keeps_open loc l access create parents :
  (create = true -> spares l) -> keeps content (open_relative_file loc l access create parents).
Proof.
  intros Hl. unfold open_relative_file. do 2 (apply keeps_bind; [keeps|intro]).
  apply keeps_bind; [keeps|intros []; [|keeps]]. apply keeps_bind; [|intros []; keeps].
  destruct create; [|keeps]. apply keeps_bind; [|intro; keeps].
  apply keeps_tx_io; [apply content_roots|]. intros w w'. apply update_tree_content.
  intros d d' E. case_decide; [|done]. injection E as <-. by apply put_leaf_spares, Hl.
Qed.

Lemma keeps_open_existing loc l access parents :
  keeps content (open_relative_file loc l access false parents).
Proof. by apply keeps_open. Qed.

Lemma keeps_delete_by_handle tree l : spares l -> keeps content (delete_by_handle tree l).
Proof.
  intros Hl. apply keeps_tree. intros d d' E. destruct (find_leaf d l); [|done].
  injection E as <-. by apply drop_leaf_spares.
Qed.

Lemma content_take_handle root p : keeps content (take_handle root p).
Proof. intros w. by apply content_roots. Qed.
Lemma keeps_keep_handle root p : keeps content (keep_handle root p).
Proof. intros w. by apply content_roots. Qed.

#[local] Hint Resolve keeps_open_existing content_take_handle keeps_keep_handle : keeps.

(** ** The operations of the Windows platform *)

Lemma keeps_windows_identity root : keeps content (windows_verify_root_identity root).
Proof. unfold windows_verify_root_identity. keeps. Qed.

Lemma keeps_inspect root p : keeps content (windows_inspect_target root p).
Proof. unfold windows_inspect_target. keeps. Qed.

Lemma keeps_windows_backup root job index : keeps content (windows_backup_exists root job index).
Proof. unfold windows_backup_exists. keeps. Qed.

Lemma keeps_windows_delete root p : fs_key p <> fs_key path -> keeps content (windows_delete_target root p).
Proof.
  intros Hp. unfold windows_delete_target. apply keeps_bind; [keeps|intro]. apply keeps_bind; [keeps|].
  intros []; [|keeps]. apply keeps_bind; [keeps|intro]. by apply keeps_delete_by_handle.
Qed.

Lemma keeps_copy_prepared write total hashed chunks :
  (forall bytes, keeps content (write bytes)) ->
  keeps content (copy_prepared write total hashed chunks).
Proof.
  intros Hw. revert total hashed. induction chunks as [|[c|] chunks IH]; intros; cbn [copy_prepared]; keeps.
Qed.

Lemma keeps_windows_prepare root job index payload e :
  keeps content payload -> keeps content (windows_prepare_target_payload root job index payload e).
Proof.
  intros Hp. unfold windows_prepare_target_payload.
  apply keeps_bind; [by apply keeps_open|intro]. apply keeps_bind; [keeps|intro].
  apply keeps_bind; [by apply keeps_map_err|intro]. apply keeps_bind; [|intros [total hashed]].
  - apply keeps_copy_prepared. intros chunk. apply keeps_map_err.
    apply keeps_tx_write; [apply content_roots|]. intros k w w'.
    apply (update_tree_content (canonical_path root)). intros d d' E. revert E. cbn.
    destruct (rs_prepared (reserved_of d job) !! index); [|done]. cbn. by intros [= <-].
  - apply keeps_bind; [|intro; keeps]. apply keeps_tx_io; [apply content_roots|].
    intros w w' [= <-]. done.
Qed.

#[local] Hint Resolve keeps_windows_identity keeps_inspect keeps_windows_backup : keeps.

(** *** Cleaning up *)

Lemma keeps_delete_link tree place : keeps content (delete_link tree place).
Proof. apply keeps_tree. intros d d' E. case_decide; [|done]. by injection E as <-. Qed.

Lemma keeps_delete_directory tree place e : keeps content (delete_directory tree place e).
Proof. apply keeps_tree. intros d d' E. case_decide; [|done]. by injection E as <-. Qed.

Lemma keeps_list_directory tree place : keeps content (list_directory tree place).
Proof. apply keeps_read. Qed.

#[local] Hint Resolve keeps_delete_link keeps_delete_directory keeps_list_directory : keeps.

Lemma keeps_open_reserved loc p : keeps content (open_reserved_regular_directory loc p).
Proof. unfold open_reserved_regular_directory, open_reserved_directory. keeps. Qed.

#[local] Hint Resolve keeps_open_reserved : keeps.

Lemma keeps_delete_reserved loc job leaf name : keeps content (delete_reserved_file loc job leaf name).
Proof.
  unfold delete_reserved_file. apply keeps_bind; [keeps|intro]. apply keeps_bind; [keeps|].
  intros []; [|keeps]. apply keeps_bind; [keeps|intro]. apply keeps_delete_by_handle.
  unfold named_leaf. destruct (parse_u64 _); [|done]. case_decide; by destruct leaf.
Qed.

#[local] Hint Resolve keeps_delete_reserved : keeps.

Lemma keeps_cleanup_leaf loc job leaf : keeps content (cleanup_leaf loc job leaf).
Proof. unfold cleanup_leaf. keeps. Qed.
Lemma keeps_cleanup_parent loc p : keeps content (cleanup_parent loc p).
Proof. unfold cleanup_parent. keeps. Qed.

#[local] Hint Resolve keeps_cleanup_leaf keeps_cleanup_parent : keeps.

Lemma keeps_windows_cleanup root job : keeps content (windows_cleanup_job root job).
Proof.
  unfold windows_cleanup_job, cleanup_reserved_job, tx_exists. keeps.
  apply keeps_map_err, keeps_remove_job_directory, content_roots.
Qed.

(** ** Replacing and moving files *)

Lemma keeps_replace_file tree source target backup e :
  spares source -> spares target -> match backup with Some b => spares b | None => True end ->
  keeps content (replace_file tree source target backup e).
Proof.
  intros Hs Ht Hb. apply keeps_tx_write; [apply content_roots|]. intros k w w' E.
  destruct (_ || _); [done|]. revert E. apply update_tree_content. intros d d' E.
  assert (forall g, rd_files (replaced_half d target backup g) !! fs_key path
                    = rd_files d !! fs_key path) as Hhalf.
  { intros g. destruct backup; cbn; by rewrite ?put_leaf_spares, drop_leaf_spares. }
  destruct (find_leaf d source) as [f|]; [|done]. destruct (find_leaf d target) as [g|]; [|done].
  cbn in E. destruct (match backup with Some _ => _ | None => _ end); [done|].
  destruct k as [|[|k]]; injection E as <-; [done|by apply Hhalf|].
  by rewrite put_leaf_spares, drop_leaf_spares.
Qed.

Lemma keeps_move_file tree source target replace e :
  spares source -> spares target -> keeps content (move_file tree source target replace e).
Proof.
  intros Hs Ht. apply keeps_tx_io; [apply content_roots|]. intros w w' E.
  destruct (_ || _); [done|]. revert E. apply update_tree_content. intros d d' E.
  destruct (find_leaf d source) as [f|]; [|done]. cbn in E.
  assert (rd_files (put_leaf (drop_leaf d source) target f) !! fs_key path
          = rd_files d !! fs_key path) as Hm by by rewrite put_leaf_spares, drop_leaf_spares.
  destruct (leaf_node d target), replace; try done; by injection E as <-.
Qed.

Lemma keeps_locked_leaf root l create : keeps content (locked_leaf root l create).
Proof. unfold locked_leaf. keeps. Qed.
Lemma keeps_open_atomic tree l detail : keeps content (open_atomic tree l detail).
Proof. unfold open_atomic. keeps. Qed.

#[local] Hint Resolve keeps_locked_leaf keeps_open_atomic : keeps.

Lemma keeps_replace_atomic root source target backup :
  spares source -> spares target -> match backup with Some b => spares b | None => True end ->
  keeps content (replace_atomic root source target backup).
Proof.
  intros Hs Ht Hb. unfold replace_atomic, tx_exists. do 5 (apply keeps_bind; [keeps|intro]).
  by apply keeps_replace_file.
Qed.

(** Everything of a move but the move. *)
Lemma keeps_move_atomic root source target replace :
  spares source -> spares target -> keeps content (move_atomic root source target replace).
Proof.
  intros Hs Ht. unfold move_atomic. do 5 (apply keeps_bind; [keeps|intro]).
  by apply keeps_move_file.
Qed.

(** ** The direct platform *)

Section platform.
Context (bound_root : RegisteredRoot) (launcher : string).
(** Nothing an update may touch is the file. *)
Context (Hallowed : forall p, path_allowed p launcher = true -> fs_key p <> fs_key path).

Lemma keeps_bound root : keeps content (bound bound_root root).
Proof. unfold bound. keeps. Qed.

Lemma keeps_allowed {B} root p (k : () -> M World B) :
  (fs_key p <> fs_key path -> keeps content (k tt)) ->
  keeps content (allowed_target bound_root launcher root p ≫= k).
Proof.
  intros Hk. destruct (path_allowed p launcher) eqn:Ep.
  - apply keeps_bind; [unfold allowed_target; apply keeps_bind; [apply keeps_bound|intro; keeps]|].
    intros []. by apply Hk, Hallowed.
  - intros w. pose proof (keeps_bound root w) as Hb.
    unfold allowed_target, mbind, M_bind, bind. rewrite Ep.
    destruct (bound bound_root root w) as [[[[]|e]| |] w1]; exact Hb.
Qed.

#[export] Instance direct_platform_keeps staging_files :
  @PlatformKeeps _ content (DirectPlatform bound_root launcher staging_files).
Proof.
  split; [done|apply keeps_bound|intro; keeps|intro; apply keeps_read|..]; cbn.
  - intros left right. unfold windows_same_volume, directory_serial. keeps.
  - intros staging p. unfold windows_open_staging_payload. keeps.
  - intros root p. apply keeps_allowed. intros _. keeps.
  - intros root job index payload e Hp. apply keeps_allowed. intros _. by apply keeps_windows_prepare.
  - intros root job index p original. apply keeps_allowed. intros Hp.
    do 3 (apply keeps_bind; [keeps|intro]). apply keeps_bind; [|intro; keeps].
    destruct original; [by apply keeps_replace_atomic|by apply keeps_move_atomic].
  - intros root job index p. apply keeps_allowed. intros Hp.
    apply keeps_bind; [keeps|intros target]. apply keeps_bind; [keeps|intro].
    apply keeps_bind; [|intro; keeps].
    destruct target; [by apply keeps_replace_atomic|by apply keeps_move_atomic].
  - intros root job index. apply keeps_bind; [apply keeps_bound|intro; keeps].
  - intros root p. apply keeps_allowed. intros Hp. by apply keeps_windows_delete.
  - intros root job. apply keeps_bind; [apply keeps_bound|intro; apply keeps_windows_cleanup].
  - intros e. keeps.
Qed.
End platform.
End frames.
