(* ===== verification/DirectRecord.v ===== *)
(** * The plan and the record of a direct update

    Which plans are accepted, and that what a preparation records is read back by
    the next helper as the same keyring and file set: a verified keyring is small,
    so that the record stays within the bound of its reader. *)

From stdpp Require Import sorting.
From S2P Require Import Prelude Errors Effects Identifiers Json Trust FileSet Roots Storage.
From S2P Require Import Journal Transaction LocalPlatform Contract Impersonation Frames.
From S2P Require Import Atomicity Recovery LocalPlatformProof WindowsFiles DirectoryNames.
From S2P Require Import WindowsPlatform WindowsPlatformProof DirectPlatform.
From S2P Require Import DirectPlatformProof DirectUpdate DirectFrames.

(** Exactly one element of a list satisfies a test. *)
Lemma filter_one {A} (P : A -> Prop) `{!forall x, Decision (P x)} (l : list A) :
  length (List.filter (fun x => bool_decide (P x)) l) = 1%nat <->
  exists before x after, l = before ++ x :: after /\ P x /\ forall y, y ∈ before ++ after -> ~ P y.
Proof.
  split.
  - induction l as [|x l IH]; [done|]. cbn. case_bool_decide as Hx; cbn; intros E.
    + exists [], x, l. split_and!; [done..|]. intros y Hy Py. injection E as E.
      apply nil_length_inv in E. apply (in_nil (a := y)). rewrite <- E. apply filter_In.
      split; [by apply list_elem_of_In|by apply bool_decide_eq_true].
    + destruct (IH E) as (before & z & after & -> & Hz & Ho). exists (x :: before), z, after.
      split_and!; [done..|]. intros y Hy. apply elem_of_cons in Hy as [->|Hy]; auto.
  - intros (before & x & after & -> & Hx & Ho).
    assert (forall l', (forall y, y ∈ l' -> ~ P y) ->
              List.filter (fun x => bool_decide (P x)) l' = []) as Hnil.
    { induction l' as [|y l' IH]; [done|]. intros Hl. cbn.
      rewrite bool_decide_false by (apply Hl; by left). apply IH. intros. apply Hl. by right. }
    rewrite List.filter_app. cbn. rewrite bool_decide_true by done.
    by rewrite !Hnil by (intros y Hy; apply Ho, elem_of_app; auto).
Qed.

(** ** The plan *)

(** The sum of the sizes. *)
Definition total_size (files : list FileEntry) : N := foldr (fun e n => fe_size e + n)%N 0%N files.

Record plan_entry_ok (launcher : string) (e : FileEntry) : Prop := {
  pe_path : path_allowed (fe_path e) launcher = true;
  pe_not_empty : fe_size e <> 0%N;
  pe_size : (fe_size e <= MAX_DIRECT_FILE_BYTES)%N;
}.

Lemma check_plan_iff launcher files total :
  (total <= MAX_DIRECT_TOTAL_BYTES)%N ->
  (exists t, try_for (check_plan_entry launcher) total files = Ok t) <->
  Forall (plan_entry_ok launcher) files /\ (total + total_size files <= MAX_DIRECT_TOTAL_BYTES)%N.
Proof.
  assert (MAX_DIRECT_TOTAL_BYTES <= u64_max)%N as Hmax by done.
  revert total. induction files as [|e files IH]; intros total Ht; cbn [try_for total_size foldr].
  { split; [intros _; split; [done|lia]|by eexists]. }
  fold (total_size files). split.
  - intros [t Hok]. ok_inv. unfold check_plan_entry in *. ok_inv. bool_inv. add_inv. subst.
    destruct (proj1 (IH (total + fe_size e)%N ltac:(lia))) as [Hf Hs]; [by eexists|].
    split; [|lia]. constructor; [by split|done].
  - intros [Hf Hs]. apply Forall_cons in Hf as [[Hp Hn Hz] Hf].
    destruct (proj2 (IH (total + fe_size e)%N ltac:(lia))) as [t Ht']; [split; [done|lia]|].
    exists t. unfold check_plan_entry. rewrite Hp. mred.
    rewrite checked_add_ok by lia. mred.
    rewrite (proj2 (N.eqb_neq _ _) Hn), (proj2 (N.ltb_ge _ _) Hz), (proj2 (N.ltb_ge _ _)) by lia.
    exact Ht'.
Qed.

(** C21: a plan is accepted exactly when it replaces between one and 64 files
    and removes none, one entry is the launcher, every entry is at an allowed
    path and has between one byte and 128 MiB, and together they have at most
    256 MiB. *)
Theorem validate_plan_iff manifest launcher :
  let files := fs_files (file_set manifest) in
  validate_plan manifest launcher = Ok tt <->
  (0 < length files <= MAX_DIRECT_FILES)%nat /\ fs_remove_files (file_set manifest) = []
  /\ (exists before e after, files = before ++ e :: after /\ fe_path e = launcher
        /\ forall e', e' ∈ before ++ after -> fe_path e' <> launcher)
  /\ Forall (plan_entry_ok launcher) files /\ (total_size files <= MAX_DIRECT_TOTAL_BYTES)%N.
Proof.
  intros files. unfold validate_plan. fold files.
  pose proof (check_plan_iff launcher files 0 ltac:(done)) as Hsum. cbn [N.add] in Hsum.
  rewrite <- (filter_one (fun e => fe_path e = launcher)). split.
  - intros Hok. ok_inv. bool_inv.
    destruct (proj1 Hsum) as [Hf Ht]; [by eexists|]. split_and!; try done; try lia.
    by apply nil_length_inv.
  - intros (Hn & Hr & Hone & Hf & Ht). destruct (proj2 Hsum (conj Hf Ht)) as [t Et].
    rewrite Hr, Hone, (proj2 (Nat.eqb_neq _ _)), (proj2 (Nat.ltb_ge _ _)) by lia.
    cbn. by rewrite Et.
Qed.

(** ** What a plan cannot touch *)

Lemma split_on_fmap (f : byte -> byte) sep l :
  (forall b, f b = sep <-> b = sep) -> length (split_on sep (f <$> l)) = length (split_on sep l).
Proof.
  intros Hf. induction l as [|b l IH]; [done|]. cbn.
  destruct (decide (b = sep)) as [Hb|Hb].
  - rewrite decide_True by by apply Hf. cbn. by rewrite IH.
  - rewrite decide_False by by rewrite Hf. pose proof (split_on_not_nil sep l).
    pose proof (split_on_not_nil sep (f <$> l)).
    destruct (split_on sep (f <$> l)), (split_on sep l); cbn in *; congruence.
Qed.

Lemma lower_slash b : to_ascii_lower b = "/"%char <-> b = "/"%char.
Proof. destruct b as [[] [] [] [] [] [] [] []]; by vm_compute. Qed.

Lemma allowed_byte_ascii b : allowed_byte b = true -> (N_of_ascii b <? 128)%N = true.
Proof. destruct b as [[] [] [] [] [] [] [] []]; by vm_compute. Qed.

Lemma components_lowercase s :
  length (path_components (to_ascii_lowercase s)) = length (path_components s).
Proof.
  unfold path_components, str_split, to_ascii_lowercase, str_map.
  rewrite !length_fmap, as_of_bytes. apply split_on_fmap, lower_slash.
Qed.

(** The files of the update directory, two components deep, are not allowed. *)
Lemma allowed_apart `{UnicodeCaseLaws, !FileNames, !FileNamesLaws} p q launcher :
  path_allowed p launcher = true -> is_ascii q = true -> length (path_components q) = 2%nat ->
  fs_key p <> fs_key q.
Proof.
  intros Hp Hq Hlen E%fs_key_lowercase. unfold path_allowed in Hp.
  destruct (_ || _) eqn:Hb; [done|]. bool_inv.
  assert (is_ascii p = true) as Ha.
  { unfold is_ascii. apply forallb_Forall. eapply Forall_impl; [eassumption|].
    apply allowed_byte_ascii. }
  rewrite !to_lowercase_ascii in E by done.
  apply (f_equal (fun s => length (path_components s))) in E. rewrite !components_lowercase in E.
  rewrite Hlen in E. destruct (path_components p) as [|? [|? [|? ?]]]; done.
Qed.


(** ** The length of canonical text *)

Section size.
Context `{SerdeJsonLaws}.

(** The canonical text of the document has at most [n] bytes. *)
Definition fits (v : Value) (n : nat) : Prop :=
  forall bytes, canonical_json v = Ok bytes -> (length bytes <= n)%nat.

Lemma fits_mono v n m : fits v n -> (n <= m)%nat -> fits v m.
Proof. intros Hf Hle bytes Hb. specialize (Hf _ Hb). lia. Qed.

Lemma fits_string s : forallb verbatim_byte (as_bytes s) = true -> fits (VString s) (str_len s + 2).
Proof.
  intros Hs bytes. cbn. rewrite write_string_verbatim by done. cbn. intros [= <-].
  cbn. rewrite length_app, length_as_bytes. cbn. lia.
Qed.

Lemma fits_number n : fits (VNumber n) 20.
Proof.
  intros bytes Hb. change (print (VNumber n) = Ok bytes) in Hb.
  apply print_number in Hb as [Hi ->]. by apply number_to_string_length.
Qed.

Lemma write_items_length {A} (f : A -> Result (list byte)) (cost : A -> nat) first l bytes :
  (forall a b, a ∈ l -> f a = Ok b -> (length b < cost a)%nat) ->
  write_items first (f <$> l) = Ok bytes -> (length bytes <= sum_list (cost <$> l))%nat.
Proof.
  revert first bytes. induction l as [|a l IH]; intros first bytes Hf; cbn [write_items fmap list_fmap].
  { intros [= <-]. cbn. lia. }
  intros Hok. ok_inv. subst. cbn. rewrite !length_app.
  pose proof (Hf a _ ltac:(by left) Hx) as Ha.
  assert (length x0 <= sum_list (cost <$> l))%nat as Hl.
  { eapply IH; [|done]. intros. eapply Hf; [by right|done]. }
  destruct first; cbn; lia.
Qed.

Lemma fits_array items n : Forall (fun v => fits v n) items -> fits (Array items) (2 + length items * S n).
Proof.
  intros Hf bytes Hb. unfold canonical_json in Hb. cbn in Hb. ok_inv. subst. cbn.
  rewrite length_app. cbn.
  assert (length x <= sum_list ((fun _ => S n) <$> items))%nat as Hl.
  { apply (write_items_length write_canonical (fun _ => S n) true items); [|done].
    rewrite Forall_forall in Hf. intros v b Hv Hb. specialize (Hf _ Hv _ Hb). lia. }
  assert (sum_list ((fun _ => S n) <$> items) = length items * S n)%nat as Hs.
  { clear. induction items; cbn; lia. }
  lia.
Qed.

(** An object whose key [k] has a value of at most [size k] bytes. *)
Lemma fits_object es (size : string -> nat) :
  Forall (fun '(k, v) => forallb verbatim_byte (as_bytes k) = true /\ fits v (size k)) es ->
  fits (Object es) (2 + sum_list ((fun k => str_len k + size k + 4)%nat <$> object_keys es)).
Proof.
  intros Hf bytes Hb. unfold canonical_json in Hb. cbn in Hb. ok_inv. subst. cbn.
  rewrite length_app. cbn. set (cost := fun k => (str_len k + size k + 4)%nat).
  apply (write_items_length _ cost) in Hx.
  - assert (cost <$> sort_keys (object_keys es) ≡ₚ cost <$> object_keys es) as Hp
      by by apply fmap_Permutation, merge_sort_Permutation.
    assert (sum_list (cost <$> sort_keys (object_keys es)) = sum_list (cost <$> object_keys es)) as Hs
      by by rewrite Hp.
    lia.
  - intros k b _ Hk. rewrite get_map in Hk. unfold write_entry in Hk. ok_inv. subst.
    destruct (get k es) as [v|] eqn:Eg; [|done]. cbn in *. simplify_eq.
    assert ((k, v) ∈ es) as Hin.
    { clear -Eg. induction es as [|[k' v'] es IH]; [done|]. cbn in Eg. case_decide.
      - simplify_eq. by left.
      - right. by apply IH. }
    rewrite Forall_forall in Hf. destruct (Hf _ Hin) as [Hv Hfit].
    rewrite write_string_verbatim in Hx0 by done. cbn in Hx0. simplify_eq.
    specialize (Hfit _ Hx1). unfold cost. rewrite length_app. cbn. rewrite length_app, length_as_bytes.
    cbn. lia.
Qed.
End size.

(** The fields of an object with plain names. *)
Ltac fields := repeat (apply Forall_cons_2; [split; [reflexivity|]|]); [..|apply Forall_nil_2].

(** ** A verified keyring *)

Lemma lower_hex_verbatim b : lower_hex_byte b = true -> verbatim_byte b = true.
Proof. destruct b as [[] [] [] [] [] [] [] []]; by vm_compute. Qed.

Lemma identifier_verbatim b : identifier_byte b = true -> verbatim_byte b = true.
Proof. destruct b as [[] [] [] [] [] [] [] []]; by vm_compute. Qed.

Lemma valid_identifier_fits s :
  valid_identifier s = true ->
  (str_len s <= 64)%nat /\ forallb verbatim_byte (as_bytes s) = true.
Proof.
  unfold valid_identifier. destruct (as_bytes s) as [|b l]; [done|]. intros Hv. bool_inv.
  split; [done|]. apply forallb_Forall.
  eapply Forall_impl; [exact H0|]. apply identifier_verbatim.
Qed.

Lemma lower_hex_fits s :
  Forall (fun b => lower_hex_byte b = true) (as_bytes s) -> forallb verbatim_byte (as_bytes s) = true.
Proof. intros Hs. apply forallb_Forall. eapply Forall_impl; [exact Hs|]. apply lower_hex_verbatim. Qed.

Lemma decode_lower_hex_bytes n s c bytes :
  decode_lower_hex n s c = Ok bytes ->
  str_len s = (2 * n)%nat /\ Forall (fun b => lower_hex_byte b = true) (as_bytes s).
Proof.
  intros [Hlen ->]%decode_lower_hex_iff. unfold encode_hex.
  rewrite str_len_of_bytes, as_of_bytes, length_encode_hex_bytes.
  split; [lia|apply encode_hex_lower].
Qed.

Section keyring.
Context `{SerdeJsonLaws, Crypto}.

Lemma release_key_fits r : key_ok r -> fits (ReleaseKey_value r) 170.
Proof.
  intros [[Hl Hv]%valid_identifier_fits [key Hk]]. unfold decode_release_key in Hk. ok_inv.
  apply decode_lower_hex_bytes in Hx as [Hlen Hhex].
  eapply fits_mono.
  - apply (fits_object _ (fun _ => 66%nat)). fields.
    + eapply fits_mono; [by apply fits_string|lia].
    + eapply fits_mono; [by apply fits_string, lower_hex_fits|lia].
  - cbn. lia.
Qed.

Lemma keyring_fits k bytes value :
  keyring_wf k -> Forall (fun b => lower_hex_byte b = true) (as_bytes (kr_signature k)) ->
  str_len (kr_signature k) = 128%nat ->
  to_value k = Some value -> canonical_json value = Ok bytes -> (length bytes <= 64 * 256)%nat.
Proof.
  intros Hwf Hsig Hsl. unfold to_value, Keyring_encoder. intros [= <-]. destruct Hwf.
  set (size := fun s : string =>
    if decide (s = "authenticodeSignerThumbprints") then (2 + 64 * 67)%nat
    else if decide (s = "releaseKeys") then (2 + 64 * 171)%nat else 130%nat).
  enough (fits (Object [
    ("authenticodeSignerThumbprints", strings_value (authenticode_signer_thumbprints k));
    ("kind", VString (kr_kind k));
    ("releaseKeys", Array (ReleaseKey_value <$> release_keys k));
    ("schema", VNumber (number_of_u64 (kr_schema k)));
    ("signature", VString (kr_signature k));
    ("version", VNumber (number_of_u64 (kr_version k)))]) (64 * 256)) as Hf by apply Hf.
  eapply fits_mono; [apply (fits_object _ size)|].
  - fields; unfold size; repeat case_decide; try done.
    + eapply fits_mono; [apply (fits_array _ 66)|].
      * apply Forall_fmap. eapply Forall_impl; [exact wf_thumbprints|].
        intros t [Hl Ht]. eapply fits_mono; [by apply fits_string, lower_hex_fits|].
        destruct Hl as [-> | ->]; lia.
      * rewrite length_fmap. unfold MAX_SIGNER_THUMBPRINTS in *. lia.
    + rewrite wf_kind. eapply fits_mono; [by apply fits_string|]. vm_compute. lia.
    + eapply fits_mono; [apply (fits_array _ 170)|].
      * apply Forall_fmap. eapply Forall_impl; [exact wf_keys|]. intros r. apply release_key_fits.
      * rewrite length_fmap. unfold MAX_RELEASE_KEYS in *. lia.
    + eapply fits_mono; [apply fits_number|lia].
    + eapply fits_mono; [by apply fits_string, lower_hex_fits|lia].
    + eapply fits_mono; [apply fits_number|lia].
  - vm_compute. lia.
Qed.
End keyring.

(** ** The record *)

Section record.
Context `{SerdeJsonLaws, UnicodeCase, Crypto}.
Context `{!Reader Keyring, !Reader FileSet, !Reader AcceptedRelease}.
Context `{!ReaderLaws AcceptedRelease}.

Lemma verify_keyring_record bytes acceptance v :
  verify_keyring bytes acceptance = Ok v ->
  (N.of_nat (length bytes) <= 16384)%N /\ verify_keyring bytes KeyringAcceptance_default = Ok v
  /\ exists value, to_value (keyring v) = Some value /\ canonical_json value = Ok bytes.
Proof.
  intros Hv. pose proof (verify_keyring_weaken _ _ _ _ Hv) as Hw.
  apply verify_keyring_Ok in Hv as (_ & Hwf & Hp & (payload & sig & key & _ & Hs & _) & _).
  apply parse_canonical_Ok in Hp as (_ & _ & value & Hval & Hc).
  apply decode_lower_hex_bytes in Hs as [Hl Hx].
  pose proof (keyring_fits _ _ _ Hwf Hx Hl Hval Hc).
  split; [lia|]. split; [done|by exists value].
Qed.

(** The floor aside, a file set is accepted again. *)
Lemma verify_file_set_weaken bytes v product previous m :
  verify_file_set bytes v {| fsa_expected_product_id := product; fsa_previous := previous |} = Ok m ->
  verify_file_set bytes v {| fsa_expected_product_id := product; fsa_previous := None |} = Ok m
  /\ exists value, to_value (file_set m) = Some value /\ canonical_json value = Ok bytes.
Proof.
  unfold verify_file_set. intros Hv. ok_inv. subst. split.
  - rewrite Hx. mred. rewrite Hx0. mred. rewrite Hx1. mred. rewrite Hx2. mred. rewrite Hx3. mred.
    rewrite Hx4. mred. rewrite Hx5. mred. cbn in Hx6 |- *. rewrite Hx6. by mred.
  - apply parse_canonical_Ok in Hx as (_ & _ & value & ? & ?). by exists value.
Qed.

(** What the preparation of a direct update records of a keyring and a file
    set it verified, the next helper reads back as the same keyring and file set,
    whatever their floors were: the record is never too large for its reader. *)
Lemma record_reads_back product launcher kb kr_floor v mb previous m :
  verify_keyring kb kr_floor = Ok v ->
  verify_file_set mb v {| fsa_expected_product_id := product; fsa_previous := previous |} = Ok m ->
  (N.of_nat (length mb) <= MAX_DIRECT_MANIFEST)%N -> validate_plan m launcher = Ok tt ->
  exists bytes, encode_accepted v m = Ok bytes /\ decode_accepted product launcher bytes = Ok (v, m).
Proof.
  intros Hv Hm Hlen Hplan.
  apply verify_keyring_record in Hv as (Hkl & Hv & kv & Hkv & Hkc).
  apply verify_file_set_weaken in Hm as (Hm & fv & Hfv & Hfc).
  set (entries := [("keyring", kv); ("fileSet", fv)]).
  assert (to_value {| ar_keyring := keyring v; ar_file_set := file_set m |}
          = Some (Object entries)) as Hval.
  { unfold to_value at 1, AcceptedRelease_encoder. cbn [ar_keyring ar_file_set].
    rewrite Hkv. cbn [mbind option_bind]. by rewrite Hfv. }
  assert (exists bytes, canonical_json (Object entries) = Ok bytes) as [bytes Hb].
  { unfold canonical_json in *. cbn [write_canonical entries].
    assert (sort_keys (object_keys entries) = ["fileSet"; "keyring"]) as -> by done.
    cbn. unfold write_entry. rewrite !write_string_verbatim by done.
    repeat case_decide; try done. cbn. rewrite Hfc. cbn. rewrite Hkc. by eexists. }
  exists bytes. unfold encode_accepted. rewrite Hval. mred. split; [done|].
  assert (length bytes <= length kb + length mb + 64)%nat as Hbl.
  { set (size := fun k => if decide (k = "keyring") then length kb else length mb).
    assert (fits (Object entries) (2 + sum_list ((fun k => str_len k + size k + 4)%nat
                                                 <$> object_keys entries))) as Hf.
    { apply fits_object. fields; intros b Eb; unfold size; repeat case_decide; try done;
        rewrite ?Hkc, ?Hfc in Eb; injection Eb as <-; lia. }
    specialize (Hf _ Hb). cbn [object_keys entries fmap list_fmap sum_list fst] in Hf.
    unfold size in Hf. revert Hf. repeat case_decide; try done. cbn. lia. }
  unfold decode_accepted.
  rewrite (parse_canonical_encoded _ _ _ _ _ Hval Hb) by (unfold MAX_DIRECT_MANIFEST in *; lia).
  mred. cbn [ar_keyring ar_file_set].
  rewrite Hkv. mred. rewrite Hkc. mred. rewrite Hv. mred. rewrite Hfv. mred. rewrite Hfc. mred.
  rewrite Hm. mred. rewrite Hplan. by mred.
Qed.
End record.
