(* ===== verification/DirectHistory.v ===== *)
(** * The accepted release never goes back

    Whatever the outcome of a helper, the record of the accepted release stays
    as it was or is replaced, at once, by a release that follows it. *)

From S2P Require Import Prelude Errors Effects Identifiers Json Trust FileSet Roots Journal.
From S2P Require Import Storage Transaction LocalPlatform WindowsFiles DirectoryNames.
From S2P Require Import WindowsPlatform Impersonation DirectPlatform DirectUpdate.
From S2P Require Import Contract Frames DirectFrames DirectRecord.

Section history.
Context `{SerdeJsonLaws, UnicodeCaseLaws, Crypto, !FileNames, !FileNamesLaws, NewFiles}.
Context `{WindowsVolumes, DirectoryListing, DirectInputs}.
Context `{!Reader Keyring, !Reader FileSet, !Reader AcceptedRelease, !ReaderLaws AcceptedRelease}.
Context `{!Reader JournalHeader, !Reader JournalStateRecord}.
Context (c : DirectContext).

Abbreviation home := (canonical_path (dc_root c)).

(** The bytes of the record. *)
Definition recorded (w : World) : option (list byte) := content home ACCEPTED_RELEASE w.

(** How the helper reads a record. *)
Definition read_as (record : option (list byte)) (a : option (VerifiedKeyring * VerifiedFileSet))
    : Prop :=
  match record, a with
  | None, None => True
  | Some bytes, Some accepted =>
      decode_accepted (root_product_id (dc_root c)) (dc_launcher c) bytes = Ok accepted
  | _, _ => False
  end.

(** A release that follows the accepted one. *)
Record follows (a : option (VerifiedKeyring * VerifiedFileSet)) (v : VerifiedKeyring)
    (m : VerifiedFileSet) : Prop := {
  fo_keyring : exists bytes, verify_keyring bytes (keyring_floor a) = Ok v;
  fo_file_set : exists bytes, (N.of_nat (length bytes) <= MAX_DIRECT_MANIFEST)%N
    /\ verify_file_set bytes v {| fsa_expected_product_id := root_product_id (dc_root c);
                                  fsa_previous := generation_floor a |} = Ok m;
  fo_plan : validate_plan m (dc_launcher c) = Ok tt;
}.

(** The record is kept, or a release that follows it is recorded. *)
Definition advances (old new : option (list byte)) : Prop :=
  new = old \/ exists a v m bytes, read_as old a /\ follows a v m
                 /\ encode_accepted v m = Ok bytes /\ new = Some bytes.

(** ** Files that are not the record *)

Lemma allowed_not_record p : path_allowed p (dc_launcher c) = true -> fs_key p <> fs_key ACCEPTED_RELEASE.
Proof. intros Hp. by eapply allowed_apart. Qed.

Lemma temp_not_record : fs_key (ACCEPTED_RELEASE +:+ ".new") <> fs_key ACCEPTED_RELEASE.
Proof. by apply apart_lowercase. Qed.

Lemma lock_not_record : fs_key LOCK_FILE <> fs_key ACCEPTED_RELEASE.
Proof. by apply apart_lowercase. Qed.

#[local] Instance direct_keeps staging :
  @PlatformKeeps _ recorded (DirectPlatform (dc_root c) (dc_launcher c) staging).
Proof. apply direct_platform_keeps, allowed_not_record. Qed.

Lemma recorded_roots w w' : w_roots w = w_roots w' -> recorded w = recorded w'.
Proof. apply content_roots. Qed.

(** *** Steps that keep the record *)

Lemma keeps_reading {A} (g : World -> Result A) e : keeps recorded (tx_read g e).
Proof. apply keeps_read. Qed.
Lemma keeps_nothing e : keeps recorded (tx_io Some e).
Proof. apply keeps_tx_io; [apply recorded_roots|]. by intros w w' [= <-]. Qed.

#[local] Hint Resolve keeps_reading keeps_nothing : keeps.

Lemma keeps_drop_platform : keeps recorded (drop_platform c).
Proof. apply keeps_modify. intros w. by apply recorded_roots. Qed.
Lemma keeps_close_context : keeps recorded (close_context c).
Proof. unfold close_context. apply keeps_bind; [apply content_take_handle|intro; keeps]. Qed.
Lemma keeps_trim : keeps recorded trim_empty_jobs.
Proof. unfold trim_empty_jobs. keeps. Qed.

#[local] Hint Resolve keeps_drop_platform keeps_close_context keeps_trim : keeps.

Lemma keeps_recovery : keeps recorded (recovery c).
Proof.
  unfold recovery. apply keeps_bind; [keeps|intro]. apply keeps_bind; [keeps|intro].
  apply keeps_bind; [apply keeps_attempt|intro; keeps].
  apply keeps_recover_incomplete; [apply recorded_roots|apply direct_keeps].
Qed.

#[local] Hint Resolve keeps_recovery : keeps.

Lemma keeps_read_bounded path maximum : keeps recorded (read_bounded_to path maximum).
Proof. apply keeps_reading. Qed.

Lemma keeps_existing loc l access parents : keeps recorded (open_relative_file loc l access false parents).
Proof. apply keeps_open_existing. Qed.

Lemma keeps_content tree l : keeps recorded (handle_content tree l).
Proof. apply keeps_reading. Qed.

#[local] Hint Resolve keeps_read_bounded keeps_existing keeps_content : keeps.

Lemma keeps_installed allowed : keeps recorded (check_installed_launcher c allowed).
Proof. unfold check_installed_launcher. keeps. Qed.

Lemma keeps_staging_root staging : keeps recorded (open_staging_root staging).
Proof.
  unfold open_staging_root, ensure_safe_directory, final_path_owned. keeps.
Qed.

Lemma keeps_staging launcher staging allowed files :
  keeps recorded (open_staging launcher staging allowed files).
Proof. induction files as [|e files IH]; cbn [open_staging]; keeps. Qed.

#[local] Hint Resolve keeps_installed keeps_staging_root keeps_staging : keeps.

Lemma keeps_accepted : keeps recorded (accepted_release c).
Proof.
  unfold accepted_release, read_tree_file, ensure_safe_regular_file, tx_exists. keeps.
Qed.

#[local] Hint Resolve keeps_accepted : keeps.

Lemma keeps_trust path : keeps recorded (trust c path).
Proof. unfold trust, read_bounded. keeps. Qed.

#[local] Hint Resolve keeps_trust : keeps.

Lemma keeps_prepare_files handles manifest staging :
  keeps recorded (let platform := direct_platform c handles in
                  prepare_file_set (data_directory c) manifest (dc_root c) staging).
Proof. apply keeps_prepare_file_set; [apply recorded_roots|apply direct_keeps]. Qed.

(** ** Reading the record *)

Definition kept (r : option (list byte)) (w : World) : Prop := recorded w = r.

Lemma partial_read {A} (g : World -> Result A) e (Q : A -> World -> Prop) r w :
  kept r w -> (forall a w', g w' = Ok a -> kept r w' -> Q a w') ->
  partial (tx_read g e) Q (kept r) w.
Proof.
  intros Hw HQ. unfold partial, tx_read. set (w1 := set_fates w _).
  assert (kept r w1) as Hw1 by done.
  destruct (default Works (head (w_fates w))); try done. destruct (g w1) eqn:E; [by apply HQ|done].
Qed.

(** A step that keeps the record. *)
Lemma partial_step {A} (m : M World A) (Q : A -> World -> Prop) r w :
  keeps recorded m -> kept r w -> (forall a w', kept r w' -> Q a w') -> partial m Q (kept r) w.
Proof.
  intros Hm Hw HQ. apply (partial_keeps recorded); [done|..]; unfold kept in *.
  - intros a w' E. apply HQ. congruence.
  - intros w' E. congruence.
Qed.

Lemma read_tree_file_spec maximum r w :
  kept r w ->
  partial (read_tree_file c ACCEPTED_RELEASE maximum)
    (fun bytes w' => kept r w' /\ r = Some bytes) (kept r) w.
Proof.
  intros Hw. unfold read_tree_file.
  apply partial_bind, partial_step; [apply keeps_reading|done|intros _ w1 Hw1].
  apply partial_bind, partial_step; [apply keeps_reading|done|intros _ w2 Hw2].
  apply partial_read; [done|]. intros bytes w3 E Hw3. split; [done|].
  destruct (w_roots w3 !! home) as [d|] eqn:Ed; [|done]. cbn in E.
  destruct (rd_files d !! fs_key ACCEPTED_RELEASE) as [f|] eqn:Ef; [|done]. cbn in E. ok_inv. subst.
  unfold kept, recorded, content in Hw3. rewrite Ed in Hw3. cbn in Hw3. by rewrite Ef in Hw3.
Qed.

Lemma absent_record w :
  leaf_node_in w home (TargetFile ACCEPTED_RELEASE) = NAbsent -> recorded w = None.
Proof.
  unfold leaf_node_in, recorded, content. destruct (w_roots w !! home) as [d|]; [|done]. cbn.
  unfold leaf_node, node_at. cbn [find_leaf]. case_bool_decide; [done|].
  by destruct (rd_files d !! fs_key ACCEPTED_RELEASE).
Qed.

Lemma accepted_release_spec r w :
  kept r w -> partial (accepted_release c) (fun a w' => kept r w' /\ read_as r a) (kept r) w.
Proof.
  intros Hw. unfold accepted_release, tx_exists. apply partial_bind, partial_gets.
  case_bool_decide as Hp.
  - apply partial_bind. eapply partial_mono; [by apply read_tree_file_spec| |done].
    intros bytes w1 [Hw1 ->]. apply partial_bind, partial_lift; [|done].
    intros accepted E. by apply partial_pure.
  - apply absent_record in Hp. apply partial_pure. split; [done|].
    unfold kept in Hw. by rewrite <- Hw, Hp.
Qed.

Lemma read_bounded_spec path r w :
  kept r w ->
  partial (read_bounded path)
    (fun bytes w' => kept r w' /\ (N.of_nat (length bytes) <= MAX_DIRECT_MANIFEST)%N) (kept r) w.
Proof.
  intros Hw. apply partial_read; [done|]. intros bytes w1 E Hw1. split; [done|]. ok_inv.
  subst. by bool_inv.
Qed.

Lemma trust_spec path r w :
  kept r w ->
  partial (trust c path) (fun kv w' => kept r w' /\ exists a bytes, read_as r a
                            /\ verify_keyring bytes (keyring_floor a) = Ok kv.2) (kept r) w.
Proof.
  intros Hw. unfold trust.
  apply partial_bind. eapply partial_mono; [by apply accepted_release_spec| |done].
  intros a w1 [Hw1 Ha]. apply partial_bind. eapply partial_mono; [by apply read_bounded_spec| |done].
  intros bytes w2 [Hw2 _]. apply partial_bind, partial_lift; [|done]. intros v Hv.
  apply partial_bind, partial_step; [keeps|done|intros signer w3 Hw3].
  apply partial_bind, partial_lift; [|done]. intros _ _. apply partial_pure.
  split; [done|]. by exists a, bytes.
Qed.

(** ** Replacing the record *)

(** The temporary file of a replacement. *)
Abbreviation temporary := (TargetFile (ACCEPTED_RELEASE +:+ ".new")).

Abbreviation waiting := (content home (ACCEPTED_RELEASE +:+ ".new")).

(** The record, and the temporary file beside it. *)
Definition both (r t : option (list byte)) (w : World) : Prop := kept r w /\ waiting w = t.

(** A step that keeps both files. *)
Lemma partial_both {A} (m : M World A) (Q : A -> World -> Prop) r t w :
  (forall p, keeps (content home p) m) -> both r t w -> (forall a w', both r t w' -> Q a w') ->
  partial m Q (kept r) w.
Proof.
  intros Hm [Hr Ht] HQ. apply (partial_keeps (fun w => (recorded w, waiting w))).
  - intros w'. cbn. unfold recorded. by rewrite !Hm.
  - intros a w' [= Er Et]. apply HQ. unfold both, kept in *. by rewrite Er, Et.
  - intros w' [= Er _]. unfold kept in *. by rewrite Er.
Qed.

Lemma keeps_nothing_both p e : keeps (content home p) (tx_io Some e).
Proof. apply keeps_tx_io; [apply content_roots|]. by intros w w' [= <-]. Qed.

(** A change of the tree that keeps the record. *)
Lemma update_tree_kept g r w w' :
  keeps_file ACCEPTED_RELEASE g -> update_tree home g w = Some w' -> kept r w -> kept r w'.
Proof.
  intros Hg E Hw. unfold kept, recorded in *. by rewrite (update_tree_content home _ _ _ _ _ Hg E).
Qed.

Lemma same_roots_kept r w w' : w_roots w' = w_roots w -> kept r w -> kept r w'.
Proof. intros E Hw. unfold kept in *. by rewrite (recorded_roots _ _ E). Qed.

Lemma create_temporary_spec parents r w :
  kept r w ->
  partial (open_relative_file (location (dc_root c)) temporary DataOrDelete true parents)
    (fun created w' => kept r w' /\ (created = true -> both r (Some []) w')) (kept r) w.
Proof.
  intros Hw. unfold open_relative_file.
  apply partial_bind, partial_step; [keeps|done|intros components w1 Hw1].
  apply partial_bind, partial_step; [keeps|done|intros _ w2 Hw2].
  apply partial_bind, partial_step; [apply keeps_lock_chain|done|intros [] w3 Hw3];
    [|by apply partial_pure].
  do 2 apply partial_bind. apply partial_tx_io. intros w4 E4.
  pose proof (same_roots_kept _ _ _ E4 Hw3) as Hw4. split; [done|]. intros w5 E5.
  assert (both r (Some []) w5) as Hw5.
  { split.
    - eapply update_tree_kept; [|exact E5|exact Hw4]. intros d d' Ed. case_decide; [|done].
      injection Ed as <-. exact (put_leaf_spares _ _ temporary _ temp_not_record).
    - unfold update_tree in E5. cbn in E5. destruct (w_roots w4 !! home) as [d|] eqn:Ed; [|done].
      cbn in E5. case_decide; [|done]. cbn in E5. injection E5 as <-. unfold content. cbn.
      rewrite lookup_insert_eq. cbn. by rewrite lookup_insert_eq. }
  split; [|apply Hw5]. apply partial_pure. apply partial_bind.
  apply (partial_both _ _ r (Some [])); [intros p; apply keeps_ensure_regular|done|].
  intros _ w6 Hw6. apply partial_pure. split; [apply Hw6|done].
Qed.

Lemma write_temporary_spec bytes e r w :
  both r (Some []) w ->
  partial (tx_write (fun k w => update_tree home (fun d =>
             f ← find_leaf d temporary;
             let data := f_data f ++ take k bytes in
             Some (put_leaf d temporary {| f_snapshot := new_snapshot w data; f_data := data |})) w)
           (length bytes) e)
    (fun _ => both r (Some bytes)) (kept r) w.
Proof.
  intros [Hw Ht]. apply partial_tx_write. intros w1 E1.
  pose proof (same_roots_kept _ _ _ E1 Hw) as Hw1. split; [done|].
  assert (forall k w2, update_tree home (fun d =>
             f ← find_leaf d temporary;
             let data := f_data f ++ take k bytes in
             Some (put_leaf d temporary {| f_snapshot := new_snapshot w1 data; f_data := data |})) w1
             = Some w2 -> both r (Some (take k bytes)) w2) as Hk.
  { intros k w2 E2. split.
    - eapply update_tree_kept; [|exact E2|exact Hw1]. intros d d' Ed.
      destruct (find_leaf d temporary); [|done]. cbn in Ed. injection Ed as <-.
      exact (put_leaf_spares _ _ temporary _ temp_not_record).
    - unfold update_tree in E2. rewrite E1 in E2. unfold content in Ht.
      destruct (w_roots w !! home) as [d|] eqn:Ed; [|done]. cbn in E2, Ht.
      destruct (rd_files d !! _) as [f|] eqn:Ef; [|done]. cbn in E2, Ht. injection E2 as <-.
      injection Ht as Ht. unfold content. cbn. rewrite lookup_insert_eq. cbn.
      rewrite lookup_insert_eq. cbn. by rewrite Ht. }
  split; [intros k w2 E2; by eapply Hk|]. intros w2 E2. pose proof (Hk _ _ E2) as Hw2.
  by rewrite firstn_all in Hw2.
Qed.

(** The record after a move that may have happened. *)
Definition moved (r : option (list byte)) (bytes : list byte) (w : World) : Prop :=
  kept r w \/ kept (Some bytes) w.

Lemma move_temporary_spec bytes r w :
  both r (Some bytes) w ->
  partial (move_atomic (dc_root c) temporary (TargetFile ACCEPTED_RELEASE) true)
    (fun _ => kept (Some bytes)) (moved r bytes) w.
Proof.
  intros Hw. apply (partial_mono _ (fun _ => kept (Some bytes)) _ (moved r bytes)); [|done..].
  assert (forall A (m : M World A) k w, both r (Some bytes) w -> (forall p, keeps (content home p) m) ->
    (forall a w', both r (Some bytes) w' -> partial (k a) (fun _ => kept (Some bytes)) (moved r bytes) w') ->
    partial (m ≫= k) (fun _ : () => kept (Some bytes)) (moved r bytes) w) as Hstep.
  { intros A m k w0 Hw0 Hm Hk. apply partial_bind.
    apply (partial_mono _ (fun _ => both r (Some bytes)) _ (kept r) (moved r bytes)).
    - by apply (partial_both m _ r (Some bytes)).
    - intros a w'. apply Hk.
    - by left. }
  unfold move_atomic.
  apply Hstep; [done|intros p; apply keeps_locked_leaf|intros _ w1 Hw1].
  apply Hstep; [done|intros p; apply keeps_locked_leaf|intros _ w2 Hw2].
  apply Hstep; [done|intros p; apply keeps_open_atomic|intros _ w3 Hw3].
  apply Hstep; [done|intros p; apply keeps_open_existing|intros found w4 Hw4].
  apply Hstep; [done|intros p; destruct found; [apply keeps_ensure_regular|apply keeps_pure]|intros _ w5 [Hw5 Ht]].
  apply partial_tx_io. intros w6 E6. pose proof (same_roots_kept _ _ _ E6 Hw5) as Hw6.
  split; [by left|]. intros w7 E7. destruct (_ || _); [done|]. unfold update_tree in E7.
  rewrite E6 in E7. unfold content in Ht.
  destruct (w_roots w5 !! home) as [d|] eqn:Ed; [|done]. cbn in E7, Ht.
  destruct (rd_files d !! fs_key (ACCEPTED_RELEASE +:+ ".new")) as [f|] eqn:Ef; [|done].
  cbn in E7, Ht. injection Ht as Ht.
  assert (kept (Some bytes) w7) as Hw7; [|split; [done|by right]].
  assert (w7 = set_roots w6 (<[home := put_leaf (drop_leaf d temporary) (TargetFile ACCEPTED_RELEASE) f]>
                               (w_roots w5))) as ->.
  { destruct (leaf_node d _); cbn in E7; try done; by injection E7 as <-. }
  unfold kept, recorded, content. cbn. rewrite lookup_insert_eq. cbn. rewrite lookup_insert_eq. cbn.
  by rewrite Ht.
Qed.

Lemma replace_document_spec bytes r w :
  kept r w ->
  partial (replace_document (dc_root c) ACCEPTED_RELEASE bytes)
    (fun _ => kept (Some bytes)) (moved r bytes) w.
Proof.
  intros Hw.
  assert (forall A (m : M World A) (Q : A -> World -> Prop) k w,
    partial m Q (kept r) w ->
    (forall a w', Q a w' -> partial (k a) (fun _ => kept (Some bytes)) (moved r bytes) w') ->
    partial (m ≫= k) (fun _ : () => kept (Some bytes)) (moved r bytes) w) as Hstep.
  { intros A m Q k w0 Hm Hk. apply partial_bind. eapply partial_mono; [done|done|by left]. }
  unfold replace_document.
  apply (Hstep _ _ (fun _ => kept r)); [by apply partial_step; [keeps|..]|intros stale w1 Hw1].
  apply (Hstep _ _ (fun _ => kept r)).
  { apply partial_step; [|done..]. destruct stale; [|keeps].
    apply keeps_delete_by_handle, temp_not_record. }
  intros _ w2 Hw2. eapply Hstep; [by apply create_temporary_spec|intros created w3 [Hw3 Hc]].
  apply (Hstep _ _ (fun _ w' => kept r w' /\ both r (Some []) w')).
  { apply partial_lift; [|done]. intros [] E. ok_inv. subst. split; [done|by apply Hc]. }
  intros _ w4 [_ Hw4]. eapply Hstep; [by apply write_temporary_spec|intros [] w5 Hw5].
  apply (Hstep _ _ (fun _ => both r (Some bytes))).
  { apply (partial_both _ _ r (Some bytes)); [intros p; apply keeps_nothing_both|done..]. }
  intros _ w6 Hw6. by apply move_temporary_spec.
Qed.

(** ** Preparing *)

(** What a computation returns, when it returns. *)
Definition results {A} (m : M World A) (P : A -> Prop) : Prop :=
  forall w a, fst (m w) = Done (Ok a) -> P a.

Lemma results_bind {A B} (m : M World A) (k : A -> M World B) P Q :
  results m P -> (forall a, P a -> results (k a) Q) -> results (m ≫= k) Q.
Proof.
  intros Hm Hk w b. unfold mbind, M_bind, bind. specialize (Hm w).
  destruct (m w) as [[[a|e]| |] w1]; [|done..]. intros E. eapply Hk; [|done]. by apply Hm.
Qed.

Lemma results_pure {A} (a : A) (P : A -> Prop) : P a -> results (pure a) P.
Proof. intros Hp w b [= <-]. done. Qed.

Lemma results_any {A} (m : M World A) : results m (fun _ => True).
Proof. done. Qed.

Definition replaces_only (h : PreparedJob) : Prop := forall e, e ∈ entries h -> action e = Replace.

Lemma replace_entries_only `{TransactionPlatform} root index files :
  results (replace_entries root index files) (fun es => forall e, e ∈ es -> action e = Replace).
Proof.
  revert index. induction files as [|f files IH]; intros index; cbn [replace_entries].
  { apply results_pure. intros e He. by apply elem_of_nil in He. }
  eapply results_bind; [apply results_any|intros i _].
  eapply results_bind; [apply results_any|intros target _].
  eapply results_bind; [apply IH|intros rest Hr].
  apply results_pure. intros e [->|He]%elem_of_cons; [done|by apply Hr].
Qed.

Lemma prepare_file_set_only `{TransactionPlatform} data m root staging :
  fs_remove_files (file_set m) = [] ->
  results (prepare_file_set data m root staging) replaces_only.
Proof.
  intros Hm. unfold prepare_file_set.
  do 6 (eapply results_bind; [apply results_any|intros ? _]).
  apply (results_bind _ _ (fun r => match r with Ok h => replaces_only h | Err _ => True end));
    [|intros [h|e] Hh; [by apply results_pure|]].
  - intros w r. unfold attempt.
    assert (results (prepare_job_contents m root staging
      (format_job_id (root_id root) (fs_generation (file_set m)) (vfs_digest m))) replaces_only) as Hc.
    { unfold prepare_job_contents. rewrite Hm. cbn [remove_entries].
      eapply results_bind; [apply results_any|intros ? _].
      eapply results_bind; [apply replace_entries_only|intros es Hes].
      eapply results_bind; [by apply (results_pure [] (fun l => l = []))|intros ? ->].
      rewrite app_nil_r. do 2 (eapply results_bind; [apply results_any|intros ? _]).
      by apply results_pure. }
    specialize (Hc w). destruct (prepare_job_contents _ _ _ _ w) as [[[h|e]| |] w1]; cbn in *.
    + intros [= <-]. apply (Hc h eq_refl).
    + by intros [= <-].
    + done.
    + done.
  - eapply results_bind; [apply results_any|intros ? _]. by intros w h.
Qed.

Lemma partial_results {A} (m : M World A) P (Q : A -> World -> Prop) E w :
  results m P -> partial m Q E w -> partial m (fun a w' => P a /\ Q a w') E w.
Proof. intros Hm. specialize (Hm w). unfold partial. destruct (m w) as [[[a|e]| |] w']; cbn in *; auto. Qed.

(** The record of any world after [r]. *)
Definition forward (r : option (list byte)) (w : World) : Prop := advances r (recorded w).

Lemma kept_forward r w : kept r w -> forward r w.
Proof. by left. Qed.

(** A step that leaves an advanced record alone. *)
Lemma forward_step {A} (m : M World A) (Q : A -> World -> Prop) r w :
  keeps recorded m -> forward r w -> (forall a w', forward r w' -> Q a w') ->
  partial m Q (forward r) w.
Proof.
  intros Hm Hw HQ. apply (partial_keeps recorded); [done|..]; unfold forward in *.
  - intros a w' E. apply HQ. by rewrite E.
  - intros w' E. by rewrite E.
Qed.

Lemma prepare_in_context_spec manifest_path keyring_path staging r w :
  kept r w ->
  partial (prepare_in_context c manifest_path keyring_path staging)
    (fun p w' => forward r w' /\ pd_context p = c /\ replaces_only (pd_prepared p)) (forward r) w.
Proof.
  intros Hw. unfold prepare_in_context.
  assert (forall A B (m : M World A) (Q : A -> World -> Prop) (k : A -> M World B) Q' w,
    partial m Q (kept r) w -> (forall a w', Q a w' -> partial (k a) Q' (forward r) w') ->
    partial (m ≫= k) Q' (forward r) w) as Hstep.
  { intros A B m Q k Q' w0 Hm Hk. apply partial_bind.
    eapply partial_mono; [done|done|intros w'; apply kept_forward]. }
  assert (forall A B (m : M World A) (k : A -> M World B) Q' w,
    keeps recorded m -> kept r w ->
    (forall a w', kept r w' -> partial (k a) Q' (forward r) w') ->
    partial (m ≫= k) Q' (forward r) w) as Hkeep.
  { intros A B m k Q' w0 Hm H0' Hk. apply (Hstep _ _ _ (fun _ => kept r)); [by apply partial_step|done]. }
  eapply Hstep; [by apply trust_spec|intros [kb v] w1 (Hw1 & a1 & vb & Ha1 & Hv)]. cbn in Hv.
  apply Hkeep; [keeps|done|intros _ w2 Hw2].
  eapply Hstep; [by apply accepted_release_spec|intros a w3 [Hw3 Ha]].
  assert (a1 = a) as ->.
  { unfold read_as in *. destruct r as [bytes|], a1, a; try done. congruence. }
  eapply Hstep; [by apply read_bounded_spec|intros mb w4 [Hw4 Hmb]].
  apply (Hstep _ _ _ (fun m w' => kept r w' /\ verify_file_set mb v
     {| fsa_expected_product_id := root_product_id (dc_root c);
        fsa_previous := generation_floor a |} = Ok m)).
  { by apply partial_lift. }
  intros m w5 [Hw5 Hm].
  apply (Hstep _ _ _ (fun _ w' => kept r w' /\ validate_plan m (dc_launcher c) = Ok tt)).
  { by apply partial_lift; [intros []|]. }
  intros _ w6 [Hw6 Hplan].
  assert (follows a v m) as Hf by by (split; [by exists vb|by exists mb|]).
  apply Hkeep; [keeps|done|intros _ w7 Hw7].
  apply Hkeep; [keeps|done|intros tree w8 Hw8].
  apply Hkeep; [keeps|done|intros handles w9 Hw9].
  apply (Hstep _ _ _ (fun h w' => replaces_only h /\ kept r w')).
  { apply partial_results.
    - apply prepare_file_set_only. unfold validate_plan in Hplan. ok_inv. bool_inv. by apply nil_length_inv.
    - by apply partial_step; [apply keeps_prepare_files|..]. }
  intros h w10 [Hh Hw10].
  apply (Hstep _ _ _ (fun bytes w' => kept r w' /\ encode_accepted v m = Ok bytes)).
  { by apply partial_lift. }
  intros bytes w11 [Hw11 Hb].
  assert (forall w', moved r bytes w' -> forward r w') as Hmoved.
  { intros w' [Hk|Hk]; [by left|]. right. exists a, v, m, bytes. by split_and!. }
  apply partial_bind, partial_attempt.
  eapply partial_mono; [by apply replace_document_spec|..].
  - intros [] w12 Hw12. apply partial_pure. split_and!; [|done..]. apply Hmoved. by right.
  - intros w12 Hw12. split; [|by apply Hmoved]. intros e.
    apply partial_bind, forward_step; [keeps|by apply Hmoved|intros _ w13 Hw13].
    apply partial_bind, forward_step; [keeps|done|intros _ w14 Hw14]. done.
Qed.

(** ** The functions of the helper *)

Lemma keeps_identity path : keeps recorded (launcher_identity path).
Proof.
  unfold launcher_identity, ensure_safe_directory, final_path_owned, directory_identity. keeps.
Qed.

Lemma keeps_open_context path : keeps recorded (open_context path).
Proof.
  unfold open_context. apply keeps_bind; [apply keeps_identity|intros [root launcher]].
  apply keeps_bind; [apply keeps_lock_chain|intro]. apply keeps_bind; [keeps|intro].
  apply keeps_bind; [|intro].
  - apply keeps_tx_io; [apply recorded_roots|]. intros w w' E. destruct (sharing_violation _ _ _ _); [done|].
    eapply (update_tree_content home); [|exact E]. intros d d' Ed.
    destruct (leaf_node d _); try done; injection Ed as <-; [|done..].
    exact (put_leaf_spares _ _ (TargetFile LOCK_FILE) _ lock_not_record).
  - apply keeps_bind; [apply keeps_ensure_regular|intro].
    apply keeps_bind; [apply keeps_keep_handle|intro; keeps].
Qed.

(** The helper for this path works on the context's root. *)
Definition opens (path : string) (w : World) : Prop :=
  forall c', fst (open_context path w) = Done (Ok c') -> c' = c.

(** A state of the update directory: the trees, and the operation a helper has
    prepared. *)
Inductive direct_step : World * option PreparedDirectUpdate ->
    World * option PreparedDirectUpdate -> Prop :=
  | Prepares path manifest_path keyring_path staging w :
      opens path w ->
      let result := prepare_direct_launcher_update path manifest_path keyring_path staging w in
      direct_step (w, None)
        (snd result, match fst result with Done (Ok p) => Some p | _ => None end)
  | Commits p w : direct_step (w, Some p) (snd (direct_commit p w), None)
  | Cancels p w : direct_step (w, Some p) (snd (direct_cancel p w), None)
  | Recovers path keyring_path w :
      opens path w ->
      direct_step (w, None) (snd (recover_direct_launcher_update path keyring_path w), None)
  (** the helper is lost *)
  | Lost w p : direct_step (w, p) (w, None)
  (** other programs change anything but the record *)
  | Others w w' p : recorded w' = recorded w -> direct_step (w, p) (w', p).

Definition pending_ok (p : option PreparedDirectUpdate) : Prop :=
  match p with Some p => pd_context p = c /\ replaces_only (pd_prepared p) | None => True end.

Lemma keeps_direct_commit p :
  pd_context p = c -> replaces_only (pd_prepared p) -> keeps recorded (direct_commit p).
Proof.
  intros Hc Hp. unfold direct_commit. rewrite Hc. apply keeps_bind; [|intros result].
  - apply keeps_attempt, keeps_commit_file_set; [apply recorded_roots|apply direct_keeps|done].
  - apply keeps_bind; [keeps|intro]. apply keeps_bind; [|intros []; keeps].
    apply keeps_attempt. destruct result; [keeps|apply keeps_map_err, keeps_recovery].
Qed.

Lemma prepare_spec path manifest_path keyring_path staging w :
  opens path w ->
  partial (prepare_direct_launcher_update path manifest_path keyring_path staging)
    (fun p w' => forward (recorded w) w' /\ pd_context p = c /\ replaces_only (pd_prepared p))
    (forward (recorded w)) w.
Proof.
  intros Ho. unfold prepare_direct_launcher_update. apply partial_bind.
  pose proof (keeps_open_context path w) as Hk. unfold opens in Ho. unfold partial at 1.
  destruct (open_context path w) as [[[c'|e]| |] w1]; cbn in Hk; try by left.
  rewrite (Ho c' eq_refl). apply partial_bind, partial_attempt.
  eapply partial_mono; [by apply prepare_in_context_spec|by intros p w2|].
  intros w2 Hw2. split; [|done]. intros e.
  apply partial_bind, forward_step; [keeps|done|intros _ w3 Hw3].
  apply partial_bind, forward_step; [keeps|done|intros _ w4 Hw4]. done.
Qed.

Lemma recover_keeps path keyring_path w :
  opens path w -> recorded (snd (recover_direct_launcher_update path keyring_path w)) = recorded w.
Proof.
  intros Ho. unfold recover_direct_launcher_update. unfold mbind at 1, M_bind, bind.
  pose proof (keeps_open_context path w) as Hk. unfold opens in Ho.
  destruct (open_context path w) as [[[c'|e]| |] w1]; try exact Hk.
  rewrite (Ho c' eq_refl). cbn in Hk. rewrite <- Hk.
  match goal with |- recorded (snd (?m w1)) = _ => enough (keeps recorded m) as Hm by apply Hm end.
  apply keeps_bind; [apply keeps_attempt; keeps|intro; keeps].
Qed.

Lemma direct_step_forward w p w' p' :
  direct_step (w, p) (w', p') -> pending_ok p -> forward (recorded w) w' /\ pending_ok p'.
Proof.
  intros Hs Hp. inversion Hs; subst.
  - match goal with Ho : opens _ w |- _ => pose proof (prepare_spec path manifest_path keyring_path staging w Ho) as Hr end.
    unfold partial in Hr. subst result.
    destruct (prepare_direct_launcher_update _ _ _ _ w) as [[[p|e]| |] w1]; cbn in *; tauto.
  - destruct Hp as [Hc Hr]. split; [|done]. left. by apply keeps_direct_commit.
  - destruct Hp as [Hc Hr]. split; [|done]. left. unfold direct_cancel. rewrite Hc.
    match goal with |- recorded (snd (?m w)) = _ => enough (keeps recorded m) as Hm by apply Hm end.
    apply keeps_bind; [keeps|intro]. apply keeps_bind; [apply keeps_attempt; keeps|intro; keeps].
  - split; [|done]. left. by apply recover_keeps.
  - split; [by left|done].
  - split; [by left|done].
Qed.

(** The accepted release [a'] is no older than [a]: a version and a generation
    that stay the same name the same documents. *)
Definition no_older (a a' : option (VerifiedKeyring * VerifiedFileSet)) : Prop :=
  match a, a' with
  | None, _ => True
  | Some (v, m), Some (v', m') =>
      (kr_version (keyring v) <= kr_version (keyring v'))%N
      /\ (kr_version (keyring v) = kr_version (keyring v') -> vk_digest v = vk_digest v')
      /\ (fs_generation (file_set m) <= fs_generation (file_set m'))%N
      /\ (fs_generation (file_set m) = fs_generation (file_set m') -> vfs_digest m = vfs_digest m')
  | Some _, None => False
  end.

#[export] Instance no_older_preorder : PreOrder no_older.
Proof.
  split.
  - intros [[v m]|]; [|done]. split_and!; done || lia.
  - intros [[v1 m1]|] [[v2 m2]|] [[v3 m3]|]; try done. cbn.
    intros (L1 & E1 & L2 & E2) (L3 & E3 & L4 & E4). split_and!; [lia| |lia|].
    + intros E. rewrite E1, E3 by lia. done.
    + intros E. rewrite E2, E4 by lia. done.
Qed.

Lemma follows_no_older r a v m :
  read_as r a -> follows a v m -> no_older a (Some (v, m)).
Proof.
  intros Hr [[kb Hv] (mb & _ & Hm) _]. destruct a as [[v0 m0]|]; [|done]. cbn.
  destruct r as [bytes|]; [|done]. cbn in Hr. unfold decode_accepted in Hr. ok_inv. subst.
  apply verify_keyring_Ok in Hx2 as (_ & Hwf0 & _).
  apply verify_keyring_Ok in Hv as (Hd & Hwf & _ & _ & Hmin & Hsame). cbn in Hmin, Hsame.
  unfold verify_file_set in Hm. ok_inv. subst.
  match goal with Hg : check_generation _ _ _ _ _ _ = Ok _ |- _ =>
    rename Hg into Hgen end.
  apply check_generation_Ok in Hgen. cbn in Hgen. destruct (Hgen _ eq_refl) as [Hle Heq].
  cbn in *. split_and!; [done| |done|].
  - intros E. rewrite Hd. apply Hsame; [by symmetry|destruct Hwf0; lia|done].
  - intros E. symmetry. by apply Heq.
Qed.

Lemma advances_no_older r r' a :
  advances r r' -> read_as r a -> exists a', read_as r' a' /\ no_older a a'.
Proof.
  intros [->|(a1 & v & m & bytes & Ha1 & Hf & Hb & ->)] Ha; [by exists a|].
  assert (a1 = a) as ->.
  { unfold read_as in *. destruct r as [b|], a1, a; try done. congruence. }
  exists (Some (v, m)). split; [|by eapply follows_no_older].
  destruct Hf as [[kb Hv] (mb & Hlen & Hm) Hplan].
  destruct (record_reads_back _ _ _ _ _ _ _ _ Hv Hm Hlen Hplan) as (bytes' & Hb' & Hd).
  cbn. congruence.
Qed.

End history.
