(* ===== verification/DirectOutcome.v ===== *)
(** * The outcome of a direct update

    [PreparedDirectUpdate::commit]: the commit of the transaction engine, and
    the recovery that follows a failed one. *)

From S2P Require Import Prelude Errors Effects Identifiers Json Trust FileSet Roots Journal.
From S2P Require Import Storage Transaction LocalPlatform WindowsFiles DirectoryNames.
From S2P Require Import WindowsPlatform DirectPlatform DirectUpdate.
From S2P Require Import Contract Atomicity Recovery WindowsPlatformProof DirectPlatformProof.

Section outcome.
Context `{SerdeJsonLaws, UnicodeCase, Crypto, !FileNames, !FileNamesLaws, NewFiles}.
Context `{WindowsVolumes, DirectoryListing, DirectInputs}.
Context `{!Reader Keyring, !Reader FileSet, !Reader AcceptedRelease}.
Context `{!Reader JournalHeader, !Reader JournalStateRecord}.
Context `{!ReaderLaws JournalHeader, !ReaderLaws JournalStateRecord}.
Context (c : DirectContext) (h : JournalHeader) (hb : list byte) (Hh : header_text h hb).
Context (W0 : World).

#[local] Instance platform : TransactionPlatform := direct_platform c ∅.
#[local] Instance contract : PlatformContract (jh_root h) (jh_job_id h).
Proof. apply direct_platform_contract. Qed.

#[local] Abbreviation view := (view (jh_root h) (jh_job_id h)).
#[local] Abbreviation Inv := (Inv h hb W0).
#[local] Abbreviation closed := (closed h W0).

(** Same trees, private directories and journal fates. *)
Definition same_files (w w' : World) : Prop :=
  w_roots w' = w_roots w /\ w_jobs w' = w_jobs w.

Lemma same_files_Inv old new w w' : same_files w w' -> Inv old new w -> Inv old new w'.
Proof.
  intros [Er Ej] [[B1 B2] Hs]. split; [split; by rewrite ?Er, ?Ej|].
  unfold journal_of, Contract.view in *. by rewrite Er, Ej.
Qed.

Lemma same_files_closed old new w w' : same_files w w' -> closed old new w -> closed old new w'.
Proof.
  intros [Er Ej] ([B1 B2] & Hn & Hs). split; [split; by rewrite ?Er, ?Ej|].
  unfold Contract.view in *. by rewrite Er, Ej.
Qed.

(** A property of the files alone. *)
Class Stable (P : World -> Prop) := stable w w' : same_files w w' -> P w -> P w'.

#[local] Instance Inv_stable old new : Stable (Inv old new).
Proof. intros w w'. apply same_files_Inv. Qed.
#[local] Instance closed_stable old new : Stable (closed old new).
Proof. intros w w'. apply same_files_closed. Qed.

Lemma wp_same {A} (m : M World A) (P : World -> Prop) `{!Stable P} w :
  (forall w1, same_files w1 (snd (m w1))) -> fst (m w) <> OutOfFuel -> P w ->
  wp m (fun _ => P) (fun _ => P) P w.
Proof.
  intros Hm Hf Hp. specialize (Hm w). unfold wp.
  destruct (m w) as [[[a|e]| |] w1]; cbn in *; try done; by eapply stable.
Qed.

Lemma wp_drop (P : World -> Prop) `{!Stable P} w :
  P w -> wp (drop_platform c) (fun _ => P) (fun _ _ => False) (fun _ => False) w.
Proof. intros Hp. by refine (stable (P := P) w _ _ Hp). Qed.

Lemma wp_close (P : World -> Prop) `{!Stable P} w :
  P w -> wp (close_context c) (fun _ => P) (fun _ _ => False) (fun _ => False) w.
Proof. intros Hp. by refine (stable (P := P) w _ _ Hp). Qed.

Lemma wp_trim (P : World -> Prop) `{!Stable P} E w :
  P w -> wp trim_empty_jobs (fun _ => P) E P w.
Proof.
  intros Hp. unfold trim_empty_jobs, wp, mbind, M_bind, bind, attempt, tx_io.
  destruct (default Works (head (w_fates w))); cbn; by apply (stable w).
Qed.

Lemma wp_read {A} (f : World -> Result A) e (P : World -> Prop) `{!Stable P} w :
  P w -> wp (tx_read f e) (fun _ => P) (fun _ => P) P w.
Proof.
  intros Hp. apply (wp_same _ P); [intros w1| |done]; unfold tx_read; by destruct (default Works _).
Qed.

Lemma recovery_spec old new w :
  Inv old new w -> wp (recovery c) (fun _ => closed old new) (fun _ => Inv old new) (Inv old new) w.
Proof.
  intros HI. unfold recovery. apply wp_bind.
  eapply wp_mono; [by apply (wp_read _ _ (Inv old new))| |done..]. intros jobs w1 Hw1.
  apply wp_bind, wp_lift; [|done]. intros _ _. apply wp_bind, wp_attempt.
  assert (forall (r : Result RecoveryResult) w, Inv old new w -> (is_ok r -> closed old new w) ->
    wp (_ ← drop_platform c; _ ← lift r; trim_empty_jobs) (fun _ => closed old new)
       (fun _ => Inv old new) (Inv old new) w) as Hend.
  { intros r w0 HI0 Hc0. destruct r as [r|e]; apply wp_bind.
    - eapply wp_mono; [by apply (wp_drop (closed old new)); apply Hc0| |done..].
      intros [] w2 Hw2. apply wp_bind, wp_lift; [|done]. intros _ _.
      eapply wp_mono; [by apply (wp_trim (closed old new) (fun _ => Inv old new))|done..|].
      intros; by eapply closed_Inv.
    - eapply wp_mono; [by apply (wp_drop (Inv old new))| |done..].
      intros [] w2 Hw2. apply wp_bind, wp_lift; [done|]. done. }
  eapply wp_mono; [exact (recover_incomplete_spec h hb Hh W0 old new w1 Hw1)|..]; cbv beta.
  - intros r w2 [Hc _]. apply Hend; [by eapply closed_Inv|done].
  - intros e w2 HI2. by apply Hend.
  - done.
Qed.

Lemma Inv_new w : Inv False True w -> all_new h (view W0) (view w).
Proof.
  intros [_ Hs]. destruct (journal_of _ w) as [b|].
  - by destruct Hs.
  - by destruct Hs as [[[] _]|[_ Hn]].
Qed.

(** The end of [direct_commit]. *)
Lemma commit_tail (P : World -> Prop) `{!Stable P} (result : Result CommitResult)
    (recovered : Result ()) w :
  P w -> (forall w', P w' -> Inv True True w') ->
  wp (_ ← (match recovered with Ok _ => trim_empty_jobs | Err _ => pure tt end);
      _ ← close_context c; _ ← lift recovered; lift result)
     (fun r w => P w /\ result = Ok r)
     (fun e w => P w /\ (recovered = Err e \/ recovered = Ok tt /\ result = Err e))
     (Inv True True) w.
Proof.
  intros Hp HP. apply wp_bind.
  apply (wp_mono _ (fun _ => P) _ (fun _ _ => False) _ P); [|intros _ w1 Hw1|done|done].
  - destruct recovered; [by apply wp_trim|done].
  - apply wp_bind. eapply wp_mono; [by apply (wp_close P)| |done..].
    intros [] w2 Hw2. apply wp_bind, wp_lift; [|by intros e ->; split; [|left]].
    intros [] ->. apply wp_lift; [done|]. intros e ->. split; [done|by right].
Qed.

(** The commit of the engine, then what the helper does. *)
Lemma direct_commit_spec p :
  pd_context p = c -> pd_prepared p = h -> ready h hb W0 ->
  wp (direct_commit p) (fun _ => Inv False True)
    (fun e w => Inv True False w /\ (code e <> RecoveryIncomplete -> closed True False w))
    (Inv True True) W0.
Proof.
  intros Hc Hp Hready. unfold direct_commit. rewrite Hc, Hp. apply wp_bind, wp_attempt.
  eapply wp_mono; [exact (commit_file_set_spec h hb Hh W0 Hready)|..]; cbv beta; [| |done].
  - intros result w1 HI. apply wp_bind.
    eapply wp_mono; [exact (wp_drop (Inv False True) w1 HI)| |done..]. intros [] w2 Hw2.
    apply wp_bind, wp_attempt, wp_pure.
    eapply wp_mono; [apply (commit_tail (Inv False True) (Ok result) (Ok tt) w2 Hw2)|..]; cbv beta.
    + intros w'. by apply Inv_mono.
    + by intros r w' [HI' _].
    + intros e w' [_ [He|[_ He]]]; done.
    + done.
  - intros e0 w1 HI. apply wp_bind.
    eapply wp_mono; [exact (wp_drop (Inv True False) w1 HI)| |done..]. intros [] w2 Hw2.
    apply wp_bind, wp_attempt, wp_map_err.
    eapply wp_mono; [exact (recovery_spec True False w2 Hw2)|..]; cbv beta.
    + intros [] w3 Hw3.
      eapply wp_mono; [apply (commit_tail (closed True False) (Err e0) (Ok tt) w3 Hw3)|..]; cbv beta.
      * intros w' Hw'. by eapply Inv_mono, closed_Inv.
      * by intros r w' [_ He].
      * intros e w' [Hw' _]. split; [by eapply closed_Inv|done].
      * done.
    + intros e1 w3 Hw3.
      eapply wp_mono; [apply (commit_tail (Inv True False) (Err e0) (Err _) w3 Hw3)|..]; cbv beta.
      * intros w'. by apply Inv_mono.
      * by intros r w' [_ He].
      * intros e w' [Hw' [[= <-]|[He _]]]; [|done]. by split.
      * done.
    + intros w3. by apply Inv_mono.
Qed.

End outcome.
