(* ===== verification/DirectScenarios.v ===== *)
(** * Scenarios of direct updates

    A launcher that is updated by its helper: the release is prepared and
    committed, and the theorems of direct updates at these inputs. *)

From S2P Require Import Prelude Errors Effects Identifiers Json JsonReader Trust.
From S2P Require Import FileSet RegistrySet Roots RegistryScopes Readers Journal Storage.
From S2P Require Import Transaction LocalPlatform Contract Model TrustScenarios.
From S2P Require Import RegistryScenarios WindowsRegistry DirectoryNames WindowsFiles.
From S2P Require Import WindowsPlatform Impersonation DirectPlatform DirectUpdate.
From S2P Require Import Atomicity Recovery TransactionScenarios WindowsScenarios.
From S2P Require Import Frames DirectFrames DirectRecord DirectHistory DirectOutcome.

(** ** The reader of the record *)

Definition decode_accepted_release (v : Value) : option AcceptedRelease :=
  k ← field decode_keyring "keyring" v;
  f ← field decode_file_set "fileSet" v;
  Some {| ar_keyring := k; ar_file_set := f |}.

#[export] Instance accepted_reader : Reader AcceptedRelease := reader_of decode_accepted_release.

#[export] Instance accepted_reader_laws : ReaderLaws AcceptedRelease.
Proof.
  apply reader_of_laws. intros d v bytes Hv _. revert Hv. unfold to_value at 1, AcceptedRelease_encoder.
  generalize (decode_keyring_normalize (ar_keyring d)), (decode_file_set_normalize (ar_file_set d)).
  destruct (to_value (ar_keyring d)) as [kv|]; [|done].
  destruct (to_value (ar_file_set d)) as [fv|]; [|done].
  intros Hk Hf [= <-]. unfold decode_accepted_release. read_fields.
  rewrite (Hk kv eq_refl). cbn [mbind option_bind]. read_fields.
  rewrite (Hf fv eq_refl). by destruct d.
Qed.

(** ** A release of the launcher *)

Definition launcher_files (exe dll : string) : list FileEntry :=
  [{| fe_path := "Run_demo.exe"; fe_sha256 := encode_hex (model_sha256 (as_bytes exe));
      fe_size := N.of_nat (str_len exe) |};
   {| fe_path := "View.dll"; fe_sha256 := encode_hex (model_sha256 (as_bytes dll));
      fe_size := N.of_nat (str_len dll) |}].

Definition launcher_release (signature : string) : FileSet :=
  {| fs_files := launcher_files "new exe" "new dll";
     fs_generation := 2; fs_key_id := "release-1"; fs_kind := FILE_SET_KIND;
     fs_product_id := "demo-launcher"; fs_remove_files := [];
     fs_schema := FILE_SET_SCHEMA; fs_signature := signature |}.

Definition signed_release : FileSet :=
  launcher_release
    (sign release_key_bytes FILE_SET_SIGNING_DOMAIN (file_set_payload (launcher_release ""))).

Definition verified_release : VerifiedFileSet :=
  {| file_set := signed_release; vfs_digest := sha256 (document signed_release) |}.

Example release_plan : validate_plan verified_release "Run_demo.exe" = Ok tt.
Proof. by vm_compute. Qed.

(** ** The machine *)

Definition launcher_tree : string := canonical_path game_root.
Definition launcher_path : string := launcher_tree +:+ "\Run_demo.exe".
Definition staging_tree : string := "\\?\C:\Staging".

#[export] Instance model_inputs : DirectInputs := {|
  input_file _ path :=
    if decide (path = "keyring.json") then Ok (document (signed_keyring 3))
    else if decide (path = "release.json") then Ok (document signed_release)
    else Err (new_error StagingInvalid "signed update document cannot be opened");
  launcher_directory _ _ := Some launcher_tree;
  directory_at _ path := Some path;
  helper_signer _ := Ok ("0123456789abcdef0123456789abcdef01234567", "");
  program_signer _ := Ok ("0123456789abcdef0123456789abcdef01234567", "");
|}.

Definition directory (files : list (string * string)) : RootDir :=
  {| rd_identity := identity game_root;
     rd_files := list_to_map (prod_map fs_key sample_file <$> files);
     rd_dirs := ∅; rd_links := ∅; rd_reserved := ∅ |}.

Definition launcher_world (fates : list Fate) : World :=
  mkWorld {[ launcher_tree := directory [("Run_demo.exe", "old exe"); ("launcher.ini", "mine")];
             staging_tree := directory [("Run_demo.exe", "new exe"); ("View.dll", "new dll")] ]}
    ∅ fates [] ∅.

(** The launcher's root, as the helper opens it. *)
Definition launcher_context : DirectContext :=
  {| dc_root := {| root_id := "direct-" +:+ of_bytes (take 32 (as_bytes (encode_hex
                                (sha256 (as_bytes launcher_tree)))));
                   root_product_id := "demo-launcher"; root_kind := Launcher;
                   canonical_path := launcher_tree; identity := identity game_root;
                   root_owner_sid := "S-1-5-18" |};
     dc_launcher := "Run_demo.exe" |}.

Definition prepare (w : World) : Outcome PreparedDirectUpdate * World :=
  prepare_direct_launcher_update launcher_path "release.json" "keyring.json" staging_tree w.

Definition launcher_job : string :=
  format_job_id (root_id (dc_root launcher_context)) 2 (vfs_digest verified_release).

(** What the helper prepares. *)
Definition launcher_header : JournalHeader :=
  {| entries := [{| action := Replace; original := Some (f_snapshot (sample_file "old exe"));
                    je_path := "Run_demo.exe"; prepared_index := Some 0%N; transaction_index := 0 |};
                 {| action := Replace; original := None;
                    je_path := "View.dll"; prepared_index := Some 1%N; transaction_index := 1 |}];
     jh_generation := 2; jh_job_id := launcher_job;
     manifest_digest := encode_hex (vfs_digest verified_release);
     jh_root := dc_root launcher_context; jh_schema := JOURNAL_SCHEMA |}.

Definition prepared_update : PreparedDirectUpdate :=
  {| pd_context := launcher_context; pd_prepared := launcher_header |}.

Definition prepared_world : World := snd (prepare (launcher_world [])).

Example prepare_succeeds : fst (prepare (launcher_world [])) = Done (Ok prepared_update).
Proof. by vm_compute. Qed.

(** ** A commit that stops and is recovered *)

Definition direct_header_bytes : list byte := document launcher_header.

Lemma launcher_header_text : header_text launcher_header direct_header_bytes.
Proof. split; [|by vm_compute]. eexists. split; [reflexivity|by vm_compute]. Qed.

(** The helper is lost in the middle of the second file. *)
Definition commit_start (fates : list Fate) : World := set_fates prepared_world fates.

Definition direct_fates : list Fate := replicate 40 Works ++ [StopsAfter].
Definition direct_stopped : World := snd (direct_commit prepared_update (commit_start direct_fates)).

#[local] Instance recovery_platform : TransactionPlatform := direct_platform launcher_context ∅.

Definition direct_recovered : World := snd (recover_incomplete (set_fates direct_stopped [])).

Lemma ready_from w fates :
  dom (w_jobs w) = {[ launcher_job ]} ->
  journal_of launcher_job w = Some (journal_bytes direct_header_bytes [Prepared]) ->
  v_backup (view (jh_root launcher_header) launcher_job w) = ∅ -> w_journal_fates w = [] ->
  ready launcher_header direct_header_bytes (set_fates w fates).
Proof.
  intros Hd Hj Hb Hf. split; [split; [|done]|exact Hj|exact Hb| |].
  - intros j Hs. apply elem_of_dom in Hs. unfold set_fates in Hs. cbn [w_jobs] in Hs.
    rewrite Hd in Hs. by apply elem_of_singleton in Hs.
  - intros _ e He _. unfold launcher_header in He. cbn [entries] in He. rewrite !elem_of_cons in He.
    by destruct He as [-> |[-> |He%elem_of_nil]].
  - unfold set_fates. cbn [w_journal_fates]. rewrite Hf. by intros i n m Hi.
Qed.

Lemma direct_ready fates : ready launcher_header direct_header_bytes (commit_start fates).
Proof. apply ready_from; computed. Qed.

Lemma direct_commit_stops :
  direct_commit prepared_update (commit_start direct_fates) = (Crashed, direct_stopped).
Proof. unfold direct_stopped. apply outcome_of_run. by vm_compute. Qed.

Lemma direct_recovery_returns :
  exists r, recover_incomplete (set_fates direct_stopped []) = (Done (Ok r), direct_recovered).
Proof. eexists. unfold direct_recovered. apply outcome_of_run. by vm_compute. Qed.


(** ** Two updates, one after the other *)

Definition updated_world : World := snd (direct_commit prepared_update prepared_world).

Example update_succeeds :
  fst (direct_commit prepared_update prepared_world)
    = Done (Ok {| cr_job_id := launcher_job; cr_generation := 2; cleanup_pending := false |})
  /\ f_data <$> (d ← w_roots updated_world !! launcher_tree; rd_files d !! fs_key "Run_demo.exe")
    = Some (as_bytes "new exe")
  /\ f_data <$> (d ← w_roots updated_world !! launcher_tree; rd_files d !! fs_key "launcher.ini")
    = Some (as_bytes "mine").
Proof. split_and!; by vm_compute. Qed.

Lemma launcher_opens w :
  fst (open_context launcher_path w) = Done (Ok launcher_context) ->
  opens launcher_context launcher_path w.
Proof. intros E c' E'. congruence. Qed.

