(* ===== verification/ServiceBinaries.v ===== *)
(** * The binaries of the service

    The slots of the service's executable below Program Files, src/src/
    windows_upgrade.rs: staging the candidate of a signed bundle, making it the
    live binary while the old one is kept, putting the old one back. *)

From S2P Require Import Prelude Errors Effects Identifiers Json Trust FileSet Roots.
From S2P Require Import Journal Storage Transaction LocalPlatform WindowsPath WindowsFiles Impersonation.

Definition SERVICE_BINARY_NAME : string := "Se7enService.exe".
Definition SERVICE_BUNDLE_PRODUCT_ID : string := "7launcher-maintenance".

Definition MANAGED_SERVICE_RELATIVE_PATH : string := "7Launcher/Service/Se7enService.exe".
Definition MANAGED_CANDIDATE_RELATIVE_PATH : string :=
  "7Launcher/Service/Se7enService.candidate.exe".
Definition MANAGED_PREVIOUS_RELATIVE_PATH : string :=
  "7Launcher/Service/Se7enService.previous.exe".
Definition PREVIOUS_MANAGED_SERVICE_RELATIVE_PATH : string := "7Launcher/Se7enService.exe".

(** The signer of a program with these bytes: its SHA-1 and SHA-256 thumbprints. *)
Class ProgramSigners := file_signer : list byte -> Result (string * string).

(** ** Paths *)

(** [Path::join] of a relative path. *)
Definition native_path_from_canonical_relative (root relative : string) : string :=
  foldl join_path_name root (str_split "/" relative).

Definition managed_binary_path_at (program_files : string) : string :=
  native_path_from_canonical_relative program_files MANAGED_SERVICE_RELATIVE_PATH.
Definition managed_candidate_binary_path_at (program_files : string) : string :=
  native_path_from_canonical_relative program_files MANAGED_CANDIDATE_RELATIVE_PATH.
Definition previous_managed_binary_path_at (program_files : string) : string :=
  native_path_from_canonical_relative program_files PREVIOUS_MANAGED_SERVICE_RELATIVE_PATH.

Definition service_image_path (binary : string) : string :=
  of_bytes [quote] +:+ binary +:+ of_bytes [quote] +:+ " --service".

Definition supported_previous_relative_path_for_image
    (current expected known_mixed_current previous_native previous_mixed : string)
    : option string :=
  if decide (current = expected \/ current = known_mixed_current)
  then Some MANAGED_SERVICE_RELATIVE_PATH
  else if decide (current = previous_native \/ current = previous_mixed)
  then Some PREVIOUS_MANAGED_SERVICE_RELATIVE_PATH
  else None.

(** ** Bundles *)

Definition validate_service_bundle (manifest : VerifiedFileSet) : Result FileEntry :=
  match fs_files (file_set manifest) with
  | [e] =>
      _ ← ensure (bool_decide (fs_remove_files (file_set manifest) = [])
                  && bool_decide (fe_path e = SERVICE_BINARY_NAME))
            ProductMismatch
            "service bundle must contain only the fixed maintenance service executable";
      Ok e
  | _ => Err (new_error ProductMismatch
               "service bundle must contain only the fixed maintenance service executable")
  end.

Section slots.
Context `{UnicodeCase, Crypto, FileNames, NewFiles, WindowsVolumes, ProgramSigners}.

Definition service_upgrade_io : MaintenanceError :=
  new_error TransactionIo "maintenance service upgrade file operation failed".

(** Reading a file through its handle from the start. *)
Definition read_open_file (tree : string) (l : Leaf) : M World (list byte) :=
  tx_read (fun w => f ← ok_or (d ← w_roots w !! tree; find_leaf d l) TransactionIo
                          "maintenance service upgrade file operation failed";
                    Ok (f_data f)) service_upgrade_io.

Definition hash_open_file (tree : string) (l : Leaf) : M World (list byte) :=
  data ← read_open_file tree l; pure (sha256 data).

Definition verify_bundle_file (tree : string) (l : Leaf) (e : FileEntry) (kr : VerifiedKeyring)
    : M World () :=
  snapshot ← regular_file_snapshot tree l;
  _ ← lift (ensure (ts_size snapshot =? fe_size e)%N FileSetHash
        "service bundle executable size does not match FileSet v1");
  actual ← hash_open_file tree l;
  expected ← lift (decode_lower_hex 32 (fe_sha256 e) FileSetHash);
  _ ← lift (ensure (bool_decide (actual = expected)) FileSetHash
        "service bundle executable SHA-256 does not match FileSet v1");
  data ← read_open_file tree l;
  lift (verify_authenticode_signer (file_signer data)
          (authenticode_signer_thumbprints (keyring kr))).

(** Opening an existing file below Program Files; missing directories are created. *)
Definition open_managed (program_files relative : string) : M World bool :=
  open_relative_file (unregistered program_files) (TargetFile relative) DataOrDelete false true.

(** [delete_managed_file_at]. *)
Definition delete_managed_file (program_files relative : string) : M World () :=
  found ← open_managed program_files relative;
  if (found : bool) then
    _ ← regular_file_snapshot program_files (TargetFile relative);
    delete_by_handle program_files (TargetFile relative)
  else pure tt.

(** Copying the source into the new file and flushing it. *)
Definition copy_binary (bundle program_files relative : string) : M World () :=
  data ← read_open_file bundle (TargetFile SERVICE_BINARY_NAME);
  _ ← tx_write (fun k w => update_tree program_files (fun d =>
        f ← find_leaf d (TargetFile relative);
        let data := f_data f ++ take k data in
        Some (put_leaf d (TargetFile relative)
                {| f_snapshot := new_snapshot w data; f_data := data |})) w)
        (length data) service_upgrade_io;
  tx_io Some service_upgrade_io.

Definition stage_candidate_binary (program_files bundle_root : string) (e : FileEntry)
    (kr : VerifiedKeyring) : M World string :=
  _ ← lift (ensure (path_is_absolute bundle_root) StagingInvalid
        "service bundle root must be absolute");
  found ← open_relative_file (unregistered bundle_root) (TargetFile SERVICE_BINARY_NAME)
            DataOrDelete false false;
  _ ← lift (ensure found StagingInvalid "signed service bundle executable is absent");
  _ ← verify_bundle_file bundle_root (TargetFile SERVICE_BINARY_NAME) e kr;
  let relative := MANAGED_CANDIDATE_RELATIVE_PATH in
  existing ← open_managed program_files relative;
  if (existing : bool) then
    _ ← verify_bundle_file program_files (TargetFile relative) e kr;
    pure (managed_candidate_binary_path_at program_files)
  else
    let temporary := relative +:+ ".new" in
    stale ← open_managed program_files temporary;
    _ ← (if (stale : bool) then delete_by_handle program_files (TargetFile temporary) else pure tt);
    created ← open_relative_file (unregistered program_files) (TargetFile temporary) DataOrDelete
                true true;
    _ ← lift (ensure created TransactionIo "fixed-path service staging file could not be created");
    _ ← copy_binary bundle_root program_files temporary;
    _ ← verify_bundle_file program_files (TargetFile temporary) e kr;
    _ ← rename_handle_relative (unregistered program_files) (TargetFile temporary)
          (TargetFile relative) true;
    pure (managed_candidate_binary_path_at program_files).

Definition verify_managed_binary (program_files : string) (e : FileEntry) (kr : VerifiedKeyring)
    : M World () :=
  found ← open_managed program_files MANAGED_SERVICE_RELATIVE_PATH;
  _ ← lift (ensure found RecoveryIncomplete "fixed managed service executable is absent");
  verify_bundle_file program_files (TargetFile MANAGED_SERVICE_RELATIVE_PATH) e kr.

(** ** Activating and putting back *)

(** Renaming one slot to another. *)
Definition move_slot (program_files source destination : string) (absent failed : MaintenanceError)
    : M World () :=
  found ← open_managed program_files source;
  _ ← (if (found : bool) then pure tt else fail absent);
  _ ← regular_file_snapshot program_files (TargetFile source);
  map_err failed (rename_handle_relative (unregistered program_files) (TargetFile source)
                    (TargetFile destination) true).

Definition activate_staged_service_binary (program_files : string)
    (previous_relative_path : option string) : M World () :=
  _ ← lift (match previous_relative_path with
        | Some relative =>
            ensure (bool_decide (relative = MANAGED_SERVICE_RELATIVE_PATH
                                 \/ relative = PREVIOUS_MANAGED_SERVICE_RELATIVE_PATH))
              RootInvalid "previous service executable is outside the supported managed paths"
        | None => Ok tt
        end);
  previous_exists ← open_relative_file (unregistered program_files)
                      (TargetFile MANAGED_PREVIOUS_RELATIVE_PATH) ReadAttributes false true;
  _ ← (match previous_relative_path, (previous_exists : bool) with
       | Some relative, false =>
           move_slot program_files relative MANAGED_PREVIOUS_RELATIVE_PATH
             (new_error RecoveryIncomplete "installed service executable is absent before upgrade")
             (new_error TransactionIo
                "live service executable could not be retained for rollback")
       | _, _ => delete_managed_file program_files MANAGED_SERVICE_RELATIVE_PATH
       end);
  move_slot program_files MANAGED_CANDIDATE_RELATIVE_PATH MANAGED_SERVICE_RELATIVE_PATH
    (new_error RecoveryIncomplete "staged service candidate disappeared before activation")
    (new_error TransactionIo "staged service executable could not be activated").

Definition restore_previous_service_binary (program_files : string) : M World () :=
  _ ← delete_managed_file program_files MANAGED_SERVICE_RELATIVE_PATH;
  move_slot program_files MANAGED_PREVIOUS_RELATIVE_PATH MANAGED_SERVICE_RELATIVE_PATH
    (new_error RecoveryIncomplete "previous service executable is absent during rollback")
    (new_error RecoveryIncomplete "previous service executable could not be restored").
End slots.
