(* ===== verification/SlotSafety.v ===== *)
(** * The old binary survives an upgrade

    What the operations of ServiceBinaries do to the slots, with any faults and
    cut anywhere: each slot is kept, or moved or removed whole; and what the live
    and the previous slot hold while an upgrade is under way. *)

From S2P Require Import Prelude Errors Effects Identifiers Json Trust FileSet Roots Storage.
From S2P Require Import Journal Transaction LocalPlatform Contract Impersonation Frames.
From S2P Require Import WindowsPath WindowsFiles DirectFrames ServiceBinaries.

Section moves.
Context `{UnicodeCaseLaws, Crypto, !FileNames, !FileNamesLaws, NewFiles, WindowsVolumes}.
Context (program_files : string).

(** What a slot holds. *)
Definition slot (w : World) (path : string) : option (list byte) := content program_files path w.

(** All slots are as they were. *)
Definition same_slots (w w' : World) : Prop := forall path, slot w' path = slot w path.

(** The file of [s] is in [d] now, which was empty. *)
Record moved (s d : string) (w w' : World) : Prop := {
  mv_there : is_Some (slot w s);
  mv_empty : slot w d = None;
  mv_to : slot w' d = slot w s;
  mv_from : slot w' s = None;
  mv_rest path : fs_key path <> fs_key s -> fs_key path <> fs_key d -> slot w' path = slot w path;
}.

(** Nothing is in [s] any more. *)
Record removed (s : string) (w w' : World) : Prop := {
  rm_gone : slot w' s = None;
  rm_rest path : fs_key path <> fs_key s -> slot w' path = slot w path;
}.

#[export] Instance same_slots_equiv : Equivalence same_slots.
Proof.
  split; unfold same_slots; [done|by intros ???|intros ??? H12 H23 p; by rewrite H23].
Qed.

#[export] Instance moved_proper s d : Proper (same_slots ==> same_slots ==> iff) (moved s d).
Proof.
  assert (forall w1 w2 w1' w2', same_slots w1 w2 -> same_slots w1' w2' ->
            moved s d w1 w1' -> moved s d w2 w2') as Hone.
  { intros w1 w2 w1' w2' E E' []. split; intros; rewrite ?E, ?E'; auto. }
  intros w1 w2 E w1' w2' E'. split; apply Hone; done || by symmetry.
Qed.

#[export] Instance removed_proper s : Proper (same_slots ==> same_slots ==> iff) (removed s).
Proof.
  assert (forall w1 w2 w1' w2', same_slots w1 w2 -> same_slots w1' w2' ->
            removed s w1 w1' -> removed s w2 w2') as Hone.
  { intros w1 w2 w1' w2' E E' []. split; intros; rewrite ?E, ?E'; auto. }
  intros w1 w2 E w1' w2' E'. split; apply Hone; done || by symmetry.
Qed.

Lemma same_roots_slots w w' : w_roots w' = w_roots w -> same_slots w w'.
Proof. intros E path. by apply content_roots. Qed.

(** ** Steps that keep the slots *)

Definition quiet {A} (m : M World A) : Prop := forall path, keeps (content program_files path) m.

Lemma partial_quiet {A} (m : M World A) (Q : A -> World -> Prop) (E : World -> Prop) w :
  quiet m -> (forall a w', same_slots w w' -> Q a w') -> (forall w', same_slots w w' -> E w') ->
  partial m Q E w.
Proof.
  intros Hm HQ HE. unfold partial.
  assert (same_slots w (snd (m w))) as Hs by (intros path; apply Hm).
  destruct (m w) as [[[a|e]| |] w']; auto.
Qed.

Lemma quiet_read {A} (g : World -> Result A) e : quiet (tx_read g e).
Proof. intros p. apply keeps_read. Qed.
Lemma quiet_regular tree l : quiet (ensure_safe_regular_file tree l).
Proof. intros p. apply keeps_ensure_regular. Qed.
Lemma quiet_snapshot tree l : quiet (regular_file_snapshot tree l).
Proof. intros p. apply keeps_snapshot. Qed.
Lemma quiet_lift {A} (r : Result A) : quiet (lift r).
Proof. intros p w. done. Qed.
Lemma quiet_lock loc below parents create : quiet (lock_parent_chain loc below parents create).
Proof. intros p. apply keeps_lock_chain. Qed.

(** A chain of parents that is created where it is missing is there. *)
Lemma lock_components_true tree below places w :
  partial (lock_components tree below true places)
    (fun locked w' => locked = true /\ same_slots w w') (same_slots w) w.
Proof.
  revert w. induction places as [|place places IH]; intros w; cbn [lock_components].
  - by apply partial_pure.
  - apply partial_bind, partial_quiet; [apply quiet_read|intros node w1 E1|done].
    apply partial_bind.
    apply (partial_mono _ (fun present w' => present = true /\ same_slots w w') _ (same_slots w)).
    + destruct (decide (node = NAbsent)); [|by apply partial_pure].
      apply partial_bind, partial_quiet; [intros p; apply keeps_tree_dirs| |intros; by etrans].
      intros _ w2 E2. apply partial_bind, partial_quiet; [apply quiet_read| |intros; by do 2 etrans].
      intros _ w3 E3. apply partial_pure. split; [done|by do 2 etrans].
    + intros present w2 [-> E2]. apply partial_bind, partial_quiet; [|intros _ w3 E3|intros; by etrans].
      { intros p. apply keeps_ensure_directory. }
      eapply partial_mono; [apply IH|cbn|cbn]; intros; destruct_and?; try split; try done;
        by do 2 (etrans; [done|]).
    + done.
Qed.

Lemma lock_parent_chain_true loc below parents w :
  partial (lock_parent_chain loc below parents true)
    (fun locked w' => locked = true /\ same_slots w w') (same_slots w) w.
Proof.
  unfold lock_parent_chain.
  apply partial_bind, partial_quiet; [intros p; apply keeps_open_directory|intros _ w1 E1|done].
  apply partial_bind, partial_quiet.
  - intros p. destruct (rl_identity loc); [|by intros w0].
    apply keeps_bind; [apply keeps_directory_identity|intros actual].
    destruct (decide _); [|by intros w0]. apply keeps_bind; [apply keeps_final_path|intros path].
    by destruct (decide _); intros w0.
  - intros _ w2 E2. eapply partial_mono; [apply lock_components_true|..]; cbn.
    + intros locked w3 [-> E3]. split; [done|]. by do 2 (etrans; [done|]).
    + intros w3 E3. by do 2 (etrans; [done|]).
  - intros w2 E2. by etrans.
Qed.

(** ** Slots *)

Lemma leaf_absent w path :
  leaf_node_in w program_files (TargetFile path) = NAbsent -> slot w path = None.
Proof.
  unfold leaf_node_in, slot, content. destruct (w_roots w !! program_files) as [d|]; [|done]. cbn.
  unfold leaf_node, node_at. cbn [find_leaf]. case_bool_decide; [done|].
  by destruct (rd_files d !! fs_key path).
Qed.

Lemma leaf_file w path :
  leaf_node_in w program_files (TargetFile path) = NFile -> is_Some (slot w path).
Proof.
  unfold leaf_node_in, slot, content. destruct (w_roots w !! program_files) as [d|]; [|done]. cbn.
  unfold leaf_node, node_at. cbn [find_leaf]. case_bool_decide; [done|].
  destruct (rd_files d !! fs_key path); [by eexists|]. by case_bool_decide.
Qed.

(** Opening a slot tells whether there is a file. *)
Lemma open_slot_spec path access w :
  partial (open_relative_file (unregistered program_files) (TargetFile path) access false true)
    (fun found w' => same_slots w w' /\ (if found : bool then is_Some (slot w path) else slot w path = None))
    (same_slots w) w.
Proof.
  unfold open_relative_file. cbn [rl_path unregistered].
  apply partial_bind, partial_lift; [intros components _|done].
  apply partial_bind, partial_lift; [intros _ _|done].
  apply partial_bind. eapply partial_mono; [apply lock_parent_chain_true|cbn|done].
  intros locked w1 [-> E1]. apply partial_bind.
  eapply (partial_mono _ (fun (found : bool) w' => same_slots w w' /\ (found = false -> slot w path = None)) _ (same_slots w)); [|cbn|done].
  - unfold partial, tx_read. set (w2 := set_fates w1 _).
    assert (same_slots w w2) as E2 by (etrans; [exact E1|by apply same_roots_slots]).
    destruct (default Works (head (w_fates w1))); try done.
    destruct (leaf_node_in w2 program_files (TargetFile path)) eqn:En; try done.
    + split; [done|]. intros _. rewrite <- E2. by apply leaf_absent.
    + by destruct (sharing_violation _ _ _ _).
    + by destruct (sharing_violation _ _ _ _).
  - intros [] w2 [E2 Hn]; [|apply partial_pure; split; [done|by apply Hn]].
    apply partial_bind. unfold ensure_safe_regular_file, partial, tx_read. cbn. set (w3 := set_fates w2 _).
    assert (same_slots w w3) as E3 by (etrans; [exact E2|by apply same_roots_slots]).
    destruct (default Works (head (w_fates w2))); try done.
    destruct (leaf_node_in w3 program_files (TargetFile path)) eqn:En; try done. cbn.
    split; [done|]. rewrite <- E3. by apply leaf_file.
Qed.

(** The effect of a deletion. *)
Lemma drop_slot_removed path w w' :
  update_tree program_files (fun d => _ ← find_leaf d (TargetFile path);
                                      Some (drop_leaf d (TargetFile path))) w = Some w' ->
  removed path w w'.
Proof.
  unfold update_tree, slot, content. intros E.
  destruct (w_roots w !! program_files) as [d|] eqn:Ed; [|done]. cbn in E.
  destruct (rd_files d !! fs_key path) eqn:Ef; [|done]. cbn in E. injection E as <-.
  split.
  - unfold slot, content. cbn. rewrite lookup_insert_eq. cbn. by rewrite lookup_delete_eq.
  - intros q Hq. unfold slot, content. cbn. rewrite lookup_insert_eq, Ed. cbn. by rewrite lookup_delete_ne.
Qed.

Lemma put_slot_moved s d w w' :
  fs_key s <> fs_key d ->
  update_tree program_files (fun t =>
    f ← find_leaf t (TargetFile s);
    if decide (leaf_node t (TargetFile d) = NAbsent)
    then Some (put_leaf (drop_leaf t (TargetFile s)) (TargetFile d) f) else None) w = Some w' ->
  moved s d w w'.
Proof.
  intros Hne E. unfold update_tree in E.
  destruct (w_roots w !! program_files) as [t|] eqn:Et; [|done]. cbn in E.
  destruct (rd_files t !! fs_key s) as [f|] eqn:Ef; [|done]. cbn in E.
  destruct (decide _) as [Ha|]; [|done]. cbn in E. injection E as <-.
  assert (slot w d = None) as Hd.
  { apply leaf_absent. unfold leaf_node_in. by rewrite Et. }
  split; [..|intros q Hs Hd']; unfold slot, content in *; cbn; rewrite ?lookup_insert_eq, ?Et; cbn.
  - rewrite Ef. by eexists.
  - rewrite Et in Hd. done.
  - by rewrite lookup_insert_eq, Ef.
  - rewrite lookup_insert_ne by done. by rewrite lookup_delete_eq.
  - rewrite lookup_insert_ne by done. by rewrite lookup_delete_ne.
Qed.

(** Deleting a slot: it is as it was or gone; gone when the call returns. *)
Lemma delete_managed_spec path w :
  partial (delete_managed_file program_files path)
    (fun _ w' => removed path w w') (fun w' => same_slots w w' \/ removed path w w') w.
Proof.
  unfold delete_managed_file, open_managed. apply partial_bind.
  eapply partial_mono; [apply open_slot_spec|cbn|by left].
  intros [] w1 [E1 Hf].
  - apply partial_bind, partial_quiet; [apply quiet_snapshot|intros _ w2 E2|intros; left; by etrans].
    assert (same_slots w w2) as E12 by by etrans.
    apply partial_tx_io. intros w3 E3.
    assert (same_slots w w3) as E13 by (etrans; [exact E12|by apply same_roots_slots]).
    split; [by left|]. intros w4 E4. apply drop_slot_removed in E4. rewrite <- E13 in E4. auto.
  - apply partial_pure. split; [by rewrite E1|]. intros q _. apply E1.
Qed.

(** Renaming a slot: it is where it was, or in its new place. *)
Lemma rename_spec s d create w :
  fs_key s <> fs_key d ->
  partial (rename_handle_relative (unregistered program_files) (TargetFile s) (TargetFile d) create)
    (fun _ w' => moved s d w w') (fun w' => same_slots w w' \/ moved s d w w') w.
Proof.
  intros Hne. unfold rename_handle_relative. cbn [rl_path unregistered].
  apply partial_bind, partial_lift; [intros components _|by left].
  apply partial_bind, partial_lift; [intros name _|by left].
  apply partial_bind, partial_quiet; [apply quiet_lock|intros locked w1 E1|by left].
  destruct locked; [|by left].
  apply partial_bind, partial_quiet; [intros p; apply keeps_final_path|intros parent w2 E2|intros; left; by etrans].
  apply partial_bind, partial_lift; [intros _ _|left; by etrans].
  apply partial_tx_io. intros w3 E3.
  assert (same_slots w w3) as E.
  { etrans; [exact E1|]. etrans; [exact E2|]. by apply same_roots_slots. }
  split; [by left|]. intros w4 E4. apply put_slot_moved in E4; [|done]. rewrite <- E in E4. auto.
Qed.

Lemma move_slot_spec s d absent failed w :
  fs_key s <> fs_key d ->
  partial (move_slot program_files s d absent failed)
    (fun _ w' => moved s d w w') (fun w' => same_slots w w' \/ moved s d w w') w.
Proof.
  intros Hne. unfold move_slot, open_managed. apply partial_bind.
  eapply partial_mono; [apply open_slot_spec|cbn|by left].
  intros found w1 [E1 _]. apply partial_bind, partial_quiet.
  { destruct found; intros p w0; done. }
  2: { intros w2 E2. left. by etrans. }
  intros _ w2 E2. apply partial_bind, partial_quiet; [apply quiet_snapshot|intros _ w3 E3|].
  2: { intros w3 E3. left. by do 2 (etrans; [done|]). }
  assert (same_slots w w3) as E by by do 2 (etrans; [done|]).
  apply partial_map_err. eapply partial_mono; [by apply rename_spec|cbn|cbn].
  - intros _ w4 Hm. by rewrite E.
  - intros w4 [Hs|Hm]; [left; by etrans|right; by rewrite E].
Qed.
End moves.

(** ** Staging, activating and putting back *)

Abbreviation LIVE := MANAGED_SERVICE_RELATIVE_PATH.
Abbreviation CANDIDATE := MANAGED_CANDIDATE_RELATIVE_PATH.
Abbreviation PREVIOUS := MANAGED_PREVIOUS_RELATIVE_PATH.
Abbreviation STAGING := (MANAGED_CANDIDATE_RELATIVE_PATH +:+ ".new").

Section safety.
Context `{UnicodeCaseLaws, Crypto, !FileNames, !FileNamesLaws, NewFiles, WindowsVolumes}.
Context `{ProgramSigners}.
Context (program_files : string).

Abbreviation slot := (slot program_files).
Abbreviation same_slots := (same_slots program_files).
Abbreviation moved := (moved program_files).
Abbreviation removed := (removed program_files).

(** Where the binary of an installed service is. *)
Definition source_path (source : string) : Prop :=
  source = LIVE \/ source = PREVIOUS_MANAGED_SERVICE_RELATIVE_PATH.

Lemma source_apart source :
  source_path source ->
  fs_key source <> fs_key PREVIOUS /\ fs_key source <> fs_key CANDIDATE /\ fs_key source <> fs_key STAGING.
Proof. intros [-> | ->]; split_and!; by apply apart_lowercase. Qed.

Lemma live_apart :
  fs_key LIVE <> fs_key PREVIOUS /\ fs_key LIVE <> fs_key CANDIDATE /\ fs_key LIVE <> fs_key STAGING.
Proof. apply source_apart. by left. Qed.

Lemma candidate_apart : fs_key CANDIDATE <> fs_key STAGING /\ fs_key PREVIOUS <> fs_key CANDIDATE
  /\ fs_key PREVIOUS <> fs_key STAGING.
Proof. split_and!; by apply apart_lowercase. Qed.

(** ** Verified binaries *)

(** The bytes are those of the signed bundle, signed by an allowed signer. *)
Definition verified (e : FileEntry) (kr : VerifiedKeyring) (bytes : list byte) : Prop :=
  decode_lower_hex 32 (fe_sha256 e) FileSetHash = Ok (sha256 bytes)
  /\ verify_authenticode_signer (file_signer bytes)
       (authenticode_signer_thumbprints (keyring kr)) = Ok tt.

Lemma read_slot_spec path w :
  partial (read_open_file program_files (TargetFile path))
    (fun bytes w' => same_slots w w' /\ slot w path = Some bytes) (same_slots w) w.
Proof.
  unfold read_open_file, partial, tx_read. set (w1 := set_fates w _).
  destruct (default Works (head (w_fates w))); try done.
  unfold slot, SlotSafety.slot, content. cbn. destruct (w_roots w !! program_files) as [d|]; [|done]. cbn.
  by destruct (rd_files d !! fs_key path).
Qed.

Lemma quiet_read_open tree l : quiet program_files (read_open_file tree l).
Proof. apply quiet_read. Qed.

Lemma quiet_verify tree l e kr : quiet program_files (verify_bundle_file tree l e kr).
Proof.
  intros p. unfold verify_bundle_file, hash_open_file.
  apply keeps_bind; [apply keeps_snapshot|intro]. apply keeps_bind; [keeps|intro].
  apply keeps_bind; [apply keeps_bind; [apply quiet_read_open|intro; keeps]|intro].
  apply keeps_bind; [keeps|intro]. apply keeps_bind; [keeps|intro].
  apply keeps_bind; [apply quiet_read_open|intro; keeps].
Qed.

(** A slot that passes the check holds a verified binary. *)
Lemma verify_slot_spec path e kr w :
  partial (verify_bundle_file program_files (TargetFile path) e kr)
    (fun _ w' => same_slots w w' /\ exists bytes, slot w path = Some bytes /\ verified e kr bytes)
    (same_slots w) w.
Proof.
  unfold verify_bundle_file, hash_open_file.
  apply partial_bind, (partial_quiet program_files); [apply quiet_snapshot|intros snapshot w1 E1|done].
  apply partial_bind, partial_lift; [intros _ _|done].
  do 2 apply partial_bind. eapply partial_mono; [apply read_slot_spec|cbv beta|cbv beta].
  2: { intros w2 E2. by etrans. }
  intros bytes w2 [E2 Hb]. apply partial_pure.
  assert (same_slots w w2) as E12 by by etrans. rewrite E1 in Hb.
  apply partial_bind, partial_lift; [intros expected He|done].
  apply partial_bind, partial_lift; [intros [] Hs|done]. ok_inv. bool_inv. subst expected.
  apply partial_bind. eapply partial_mono; [apply read_slot_spec|cbv beta|cbv beta].
  2: { intros w3 E3. by etrans. }
  intros bytes' w3 [E3 Hb']. rewrite E12, Hb in Hb'. injection Hb' as <-.
  assert (same_slots w w3) by by etrans.
  apply partial_lift; [intros [] Hv|done]. split; [done|]. by exists bytes.
Qed.

(** ** Staging *)

Lemma keeps_rename path source destination create :
  spares path source -> spares path destination ->
  keeps (content program_files path)
    (rename_handle_relative (unregistered program_files) source destination create).
Proof.
  intros Hs Hd. unfold rename_handle_relative.
  apply keeps_bind; [keeps|intro]. apply keeps_bind; [keeps|intro].
  apply keeps_bind; [apply keeps_lock_chain|intros []; [|keeps]].
  apply keeps_bind; [apply keeps_final_path|intro]. apply keeps_bind; [keeps|intro].
  apply keeps_tree. intros d d' E. destruct (find_leaf d source); [|done]. cbn in E.
  case_decide; [|done]. injection E as <-. by rewrite put_leaf_spares, drop_leaf_spares.
Qed.

Lemma keeps_copy_binary path bundle target :
  fs_key target <> fs_key path ->
  keeps (content program_files path) (copy_binary bundle program_files target).
Proof.
  intros Hne. unfold copy_binary. apply keeps_bind; [apply quiet_read_open|intro bytes].
  apply keeps_bind; [|intro].
  - apply keeps_tx_write; [apply content_roots|]. intros k w w'. apply update_tree_content.
    intros d d' E. destruct (find_leaf d (TargetFile target)); [|done]. injection E as <-.
    by apply (put_leaf_spares path d (TargetFile target)).
  - apply keeps_tx_io; [apply content_roots|]. by intros w w' [= <-].
Qed.

Lemma keeps_stage path bundle e kr :
  fs_key CANDIDATE <> fs_key path -> fs_key STAGING <> fs_key path ->
  keeps (content program_files path) (stage_candidate_binary program_files bundle e kr).
Proof.
  intros Hc Hs. unfold stage_candidate_binary, open_managed.
  apply keeps_bind; [keeps|intro]. apply keeps_bind; [apply keeps_open_existing|intro].
  apply keeps_bind; [keeps|intro]. apply keeps_bind; [apply quiet_verify|intro].
  apply keeps_bind; [apply keeps_open_existing|intros []].
  - apply keeps_bind; [apply quiet_verify|intro; keeps].
  - apply keeps_bind; [apply keeps_open_existing|intro].
    apply keeps_bind; [case_match; [by apply keeps_delete_by_handle|keeps]|intro].
    apply keeps_bind; [by apply keeps_open|intro]. apply keeps_bind; [keeps|intro].
    apply keeps_bind; [by apply keeps_copy_binary|intro].
    apply keeps_bind; [apply quiet_verify|intro].
    apply keeps_bind; [by apply keeps_rename|intro; keeps].
Qed.

(** The slots besides those that staging writes. *)
Definition same_live (w w' : World) : Prop :=
  forall path, fs_key CANDIDATE <> fs_key path -> fs_key STAGING <> fs_key path ->
    slot w' path = slot w path.

Lemma same_slots_live w w' : same_slots w w' -> same_live w w'.
Proof. intros E path _ _. apply E. Qed.

#[export] Instance same_live_preorder : PreOrder same_live.
Proof. split; unfold same_live; [done|]. intros w1 w2 w3 E12 E23 p Hc Hs. by rewrite E23, E12. Qed.

(** A step of staging. *)
Lemma partial_staging {A} (m : M World A) (Q : A -> World -> Prop) w0 w :
  (forall path, fs_key CANDIDATE <> fs_key path -> fs_key STAGING <> fs_key path ->
     keeps (content program_files path) m) ->
  same_live w0 w -> (forall a w', same_live w0 w' -> Q a w') -> partial m Q (same_live w0) w.
Proof.
  intros Hm Hw HQ. assert (same_live w0 (snd (m w))) as Hs.
  { intros path Hc Hp. rewrite <- (Hw path Hc Hp). by apply Hm. }
  unfold partial. destruct (m w) as [[[a|e]| |] w']; auto.
Qed.

(** Staging writes the candidate alone, and returns with a verified one. *)
Lemma stage_spec bundle e kr w :
  partial (stage_candidate_binary program_files bundle e kr)
    (fun path w' => path = managed_candidate_binary_path_at program_files /\ same_live w w'
       /\ exists bytes, slot w' CANDIDATE = Some bytes /\ verified e kr bytes)
    (same_live w) w.
Proof.
  unfold stage_candidate_binary, open_managed.
  apply partial_bind, partial_staging; [by intros|done|intros _ w1 E1].
  apply partial_bind, partial_staging; [intros; apply keeps_open_existing|done|intros found w2 E2].
  apply partial_bind, partial_staging; [by intros|done|intros _ w3 E3].
  apply partial_bind, partial_staging; [intros; apply quiet_verify|done|intros _ w4 E4].
  apply partial_bind, partial_staging; [intros; apply keeps_open_existing|done|intros [] w5 E5].
  - apply partial_bind.
    eapply partial_mono; [apply verify_slot_spec|cbv beta|intros w6 E6; etrans; [done|by apply same_slots_live]].
    intros _ w6 [E6 (bytes & Hb & Hv)]. apply partial_pure. split; [done|].
    split; [etrans; [done|by apply same_slots_live]|]. exists bytes. by rewrite E6.
  - apply partial_bind, partial_staging; [intros; apply keeps_open_existing|done|intros stale w6 E6].
    apply partial_bind, partial_staging; [|done|intros _ w7 E7].
    { intros path Hc Hs. case_match; [by apply keeps_delete_by_handle|keeps]. }
    apply partial_bind, partial_staging; [intros; by apply keeps_open|done|intros created w8 E8].
    apply partial_bind, partial_staging; [by intros|done|intros _ w9 E9].
    apply partial_bind, partial_staging; [intros; by apply keeps_copy_binary|done|intros _ w10 E10].
    apply partial_bind.
    eapply partial_mono; [apply verify_slot_spec|cbv beta|intros w11 E11; etrans; [done|by apply same_slots_live]].
    intros _ w11 [E11 (bytes & Hb & Hv)].
    assert (same_live w w11) as Hw11 by (etrans; [done|by apply same_slots_live]).
    apply partial_bind. eapply partial_mono; [apply rename_spec|cbv beta|cbv beta].
    + intro E. symmetry in E. revert E. apply candidate_apart.
    + intros _ w12 Hm. apply partial_pure. split; [done|]. split.
      * etrans; [done|]. intros p Hc Hs. by apply (mv_rest _ _ _ _ _ Hm).
      * exists bytes. split; [|done]. by rewrite (mv_to _ _ _ _ _ Hm), E11.
    + intros w12 [Hs|Hm]; (etrans; [done|]); [by apply same_slots_live|].
      intros p Hc Hs. by apply (mv_rest _ _ _ _ _ Hm).
Qed.

(** ** Activation *)

(** The old binary: the previous slot's, or else the source's. *)
Definition saved (source : string) (w : World) : option (list byte) :=
  match slot w PREVIOUS with Some bytes => Some bytes | None => slot w source end.

#[export] Instance saved_proper source : Proper (same_slots ==> eq) (saved source).
Proof. intros w w' E. unfold saved. by rewrite !E. Qed.

Lemma same_live_saved source w w' : source_path source -> same_live w w' -> saved source w' = saved source w.
Proof.
  intros (Hp & Hc & Hs)%source_apart E. destruct candidate_apart as (_ & Hpc & Hps).
  unfold saved. by rewrite !E by by apply not_eq_sym.
Qed.

Lemma moved_away_saved source w w' :
  source_path source -> slot w PREVIOUS = None -> moved source PREVIOUS w w' ->
  slot w' PREVIOUS = saved source w /\ is_Some (slot w' PREVIOUS) /\ slot w' CANDIDATE = slot w CANDIDATE.
Proof.
  intros (Hp & Hc & Hs)%source_apart Hn [Hi He Ht Hf Hr]. destruct candidate_apart as (_ & Hpc & _).
  unfold saved. rewrite Hn, Ht. split_and!; [done|done|]. by apply Hr; apply not_eq_sym.
Qed.

(** The second half of an activation, with the old binary in the previous slot. *)
Lemma move_candidate_spec absent failed old w :
  slot w PREVIOUS = old ->
  partial (move_slot program_files CANDIDATE LIVE absent failed)
    (fun _ w' => slot w' PREVIOUS = old /\ is_Some (slot w' LIVE) /\ slot w' LIVE = slot w CANDIDATE
                 /\ slot w' CANDIDATE = None)
    (fun w' => slot w' PREVIOUS = old) w.
Proof.
  intros Ho. destruct live_apart as (Hlp & Hlc & _), candidate_apart as (_ & Hpc & _).
  assert (forall w', moved CANDIDATE LIVE w w' -> slot w' PREVIOUS = old) as Hm.
  { intros w' [_ _ _ _ Hr]. rewrite Hr; [done..|by apply not_eq_sym]. }
  eapply partial_mono; [apply move_slot_spec; by apply not_eq_sym|cbv beta|cbv beta].
  - intros _ w' Hw. split; [by apply Hm|]. destruct Hw as [Hi _ Ht Hf _]. by rewrite Ht, Hf.
  - intros w' [E|Hw]; [by rewrite E|by apply Hm].
Qed.

Definition first_half (previous_exists : bool) (source : string) : M World () :=
  if previous_exists then delete_managed_file program_files LIVE
  else move_slot program_files source PREVIOUS
         (new_error RecoveryIncomplete "installed service executable is absent before upgrade")
         (new_error TransactionIo "live service executable could not be retained for rollback").

(** The first half: the old binary is in the previous slot after it. *)
Lemma first_half_spec source previous_exists w :
  source_path source -> (if previous_exists : bool then is_Some (slot w PREVIOUS) else slot w PREVIOUS = None) ->
  partial (first_half previous_exists source)
    (fun _ w' => slot w' PREVIOUS = saved source w /\ is_Some (slot w' PREVIOUS)
                 /\ slot w' CANDIDATE = slot w CANDIDATE)
    (fun w' => saved source w' = saved source w) w.
Proof.
  intros Hsrc Hp. destruct live_apart as (Hlp & Hlc & _), (source_apart source Hsrc) as (Hsp & _).
  unfold first_half. destruct previous_exists.
  - assert (forall w', removed LIVE w w' -> slot w' PREVIOUS = slot w PREVIOUS) as Hr.
    { intros w' [_ Hr]. apply Hr. by apply not_eq_sym. }
    destruct Hp as [bytes Hb].
    eapply partial_mono; [apply delete_managed_spec|cbv beta|cbv beta]; unfold saved; rewrite ?Hb.
    + intros _ w' Hw. rewrite (Hr _ Hw), Hb. split_and!; [done|by eexists|].
      apply (rm_rest _ _ _ _ Hw). by apply not_eq_sym.
    + intros w' [E|Hw]; [by rewrite E, Hb|by rewrite (Hr _ Hw), Hb].
  - eapply partial_mono; [by apply move_slot_spec|cbv beta|cbv beta].
    + intros _ w' Hw. by apply moved_away_saved.
    + intros w' [E|Hw]; [by rewrite E|].
      destruct (moved_away_saved source w w' Hsrc Hp Hw) as (E & [bytes Hb] & _).
      unfold saved at 1. rewrite Hb in E |- *. done.
Qed.

Lemma activate_spec source w :
  source_path source ->
  partial (activate_staged_service_binary program_files (Some source))
    (fun _ w' => slot w' PREVIOUS = saved source w /\ is_Some (slot w' PREVIOUS)
       /\ is_Some (slot w' LIVE) /\ slot w' LIVE = slot w CANDIDATE /\ slot w' CANDIDATE = None)
    (fun w' => saved source w' = saved source w) w.
Proof.
  intros Hsrc. unfold activate_staged_service_binary.
  apply partial_bind, partial_lift; [intros _ _|done].
  apply partial_bind. eapply partial_mono; [apply open_slot_spec|cbv beta|cbv beta].
  2: { intros w1 E1. by rewrite <- E1. }
  intros previous_exists w1 [E1 Hp]. assert (saved source w = saved source w1) as -> by by rewrite E1.
  apply partial_bind.
  apply (partial_mono _ (fun _ w' => slot w' PREVIOUS = saved source w1
           /\ is_Some (slot w' PREVIOUS) /\ slot w' CANDIDATE = slot w1 CANDIDATE) _
           (fun w' => saved source w' = saved source w1)).
  - destruct previous_exists.
    + eapply (first_half_spec source true); [done|by rewrite E1].
    + apply (first_half_spec source false); [done|by rewrite E1].
  - intros _ w2 (Hold & [bytes Hb] & Hc).
    eapply partial_mono; [by apply move_candidate_spec|cbv beta|cbv beta].
    + intros _ w3 (Hp3 & Hl & Hlc & Hn). rewrite Hp3. split_and!; [by rewrite <- Hb|by eexists|done|by rewrite Hlc, Hc, E1|done].
    + intros w3 Hp3. unfold saved at 1. by rewrite Hp3, <- Hold, Hb.
  - done.
Qed.

(** ** Putting back *)

Lemma restore_spec w :
  partial (restore_previous_service_binary program_files)
    (fun _ w' => is_Some (slot w PREVIOUS) /\ slot w' LIVE = slot w PREVIOUS /\ slot w' PREVIOUS = None)
    (fun w' => slot w' PREVIOUS = slot w PREVIOUS
       \/ slot w' LIVE = slot w PREVIOUS /\ slot w' PREVIOUS = None) w.
Proof.
  destruct live_apart as (Hlp & _). unfold restore_previous_service_binary.
  assert (forall w', removed LIVE w w' -> slot w' PREVIOUS = slot w PREVIOUS) as Hr.
  { intros w' [_ Hr]. apply Hr. by apply not_eq_sym. }
  apply partial_bind. eapply partial_mono; [apply delete_managed_spec|cbv beta|cbv beta].
  - intros _ w1 Hg%Hr. eapply partial_mono; [apply move_slot_spec; by apply not_eq_sym|cbv beta|cbv beta].
    + intros _ w2 [Hi _ Ht Hf _]. by rewrite Ht, Hf, <- Hg.
    + intros w2 [E|[_ _ Ht Hf _]]; [left; by rewrite E|right; by rewrite Ht, Hf, <- Hg].
  - intros w1 [E|Hg]; [left; by rewrite E|left; by apply Hr].
Qed.

(** ** Histories *)

(** What installers do to the slots while an upgrade of the service at [source]
    is under way: staging a binary and activating it, with any faults and cut
    anywhere; other programs may change everything but the slots of the old
    binary. *)
Inductive slot_step (source : string) : World -> World -> Prop :=
  | Stages bundle e kr w :
      slot_step source w (snd (stage_candidate_binary program_files bundle e kr w))
  | Activates w :
      slot_step source w (snd (activate_staged_service_binary program_files (Some source) w))
  | Changes w w' :
      slot w' PREVIOUS = slot w PREVIOUS -> slot w' source = slot w source -> slot_step source w w'.

Lemma partial_snd {A} (m : M World A) (Q : A -> World -> Prop) (E : World -> Prop) w :
  partial m Q E w -> (exists a, fst (m w) = Done (Ok a) /\ Q a (snd (m w))) \/ E (snd (m w)).
Proof. unfold partial. destruct (m w) as [[[a|e]| |] w']; cbn; eauto. Qed.

Lemma slot_step_saved source w w' :
  source_path source -> slot_step source w w' -> saved source w' = saved source w.
Proof.
  intros Hsrc [bundle e kr w0|w0|w0 w1 Hp Hs].
  - destruct (partial_snd _ _ _ _ (stage_spec bundle e kr w0)) as [(path & _ & _ & Hl & _)|Hl];
      by apply same_live_saved.
  - destruct (partial_snd _ _ _ _ (activate_spec source w0 Hsrc)) as [(? & _ & Hp & [b Hb] & _)|Hl]; [|done].
    unfold saved at 1. by rewrite Hb, <- Hp.
  - unfold saved. by rewrite Hp, Hs.
Qed.

(** C8: while a service is upgraded its old binary is never lost: however often
    candidates are staged and activated, with any faults of the file system and
    cut anywhere, the old binary is in the slot it was in or in the previous
    slot; when an activation returns it is in the previous slot and the
    candidate is live; and one attempt to put it back, whatever happens during
    it, leaves it in the previous slot or live, live when it returns. *)
Theorem old_binary_is_kept source old w w' :
  source_path source -> saved source w = Some old -> rtc (slot_step source) w w' ->
  (slot w' source = Some old \/ slot w' PREVIOUS = Some old) /\
  (forall w'', activate_staged_service_binary program_files (Some source) w' = (Done (Ok tt), w'') ->
     slot w'' PREVIOUS = Some old /\ is_Some (slot w'' LIVE) /\ slot w'' LIVE = slot w' CANDIDATE) /\
  (slot w' PREVIOUS = Some old ->
     forall r w'', restore_previous_service_binary program_files w' = (r, w'') ->
       match r with
       | Done (Ok _) => slot w'' LIVE = Some old
       | _ => slot w'' PREVIOUS = Some old \/ slot w'' LIVE = Some old
       end).
Proof.
  intros Hsrc Hold Hs.
  assert (saved source w' = Some old) as Hold'.
  { induction Hs as [|w w1 w' Hstep _ IH]; [done|]. apply IH.
    by rewrite (slot_step_saved source w w1 Hsrc Hstep). }
  split_and!.
  - unfold saved in Hold'. destruct (slot w' PREVIOUS); auto.
  - intros w'' E. pose proof (activate_spec source w' Hsrc) as Ha. unfold partial in Ha. rewrite E in Ha.
    destruct Ha as (Hp & _ & Hl & Hc & _). by rewrite Hp.
  - intros Hp r w'' E. pose proof (restore_spec w') as Hr. unfold partial in Hr. rewrite E, Hp in Hr.
    destruct r as [[a|e]| |]; [by destruct Hr as (_ & Hl & _)|destruct Hr as [|[]]; auto..].
Qed.
End safety.
