(* ===== verification/ServiceControl.v ===== *)
(** * Controlling the service

    The calls of src/src/windows_upgrade.rs and src/src/windows.rs that create,
    configure, query, start and stop the service through the service control
    manager, and the check of the running service.  The manager is an interface:
    its answers are arbitrary, the decisions on them are the code's. *)

From S2P Require Import Prelude Errors Effects Identifiers Json Protocol Wire.

Definition SERVICE_NAME : string := "SE7ENService".
Definition SERVICE_DISPLAY_NAME : string := "SE7EN Service".
Definition SERVICE_DESCRIPTION : string :=
  "Provides secure privileged file maintenance for 7Launcher games and applications.".
Definition SERVICE_ACCOUNT : string := "LocalSystem".

(** Durations in milliseconds. *)
Definition DEFAULT_STOP_TIMEOUT : N := 300 * 1000.
Definition START_TIMEOUT : N := 30 * 1000.
Definition POLL_INTERVAL : N := 100.

(** ** The manager *)

(** The constants of winsvc.h and winerror.h. *)
Definition SERVICE_STOPPED : N := 1.
Definition SERVICE_RUNNING : N := 4.
Definition SERVICE_ACCEPT_STOP : N := 1.
Definition SERVICE_WIN32_OWN_PROCESS : N := 16.
Definition SERVICE_DEMAND_START : N := 3.
Definition SERVICE_ERROR_NORMAL : N := 1.
Definition ERROR_SERVICE_ALREADY_RUNNING : N := 1056.
Definition ERROR_SERVICE_DOES_NOT_EXIST : N := 1060.
Definition ERROR_SERVICE_CANNOT_ACCEPT_CTRL : N := 1061.
Definition ERROR_SERVICE_NOT_ACTIVE : N := 1062.

(** [SERVICE_STATUS_PROCESS], what is used of it, and its size on i686. *)
Record ServiceStatus := { current_state : N; controls_accepted : N }.
Definition STATUS_BYTES : N := 36.

(** [QUERY_SERVICE_CONFIGW]; a text is [None] when it is not Unicode. *)
Record ServiceConfig := {
  sc_type : N;
  sc_start : N;
  sc_error : N;
  sc_image : option string;
  sc_account : option string;
}.

(** The settings of [ChangeServiceConfig2W] and [SetServiceObjectSecurity]. *)
Inductive ServiceSetting :=
  | SidNone
  | Privileges (names : list string)
  | FailureActions (restart_delays : list N) (reset_seconds : N)
  | Description (text : string)
  | Dacl (sddl : string).

(** A call returns its answer and the manager's next state; a status is zero or
    an error of Windows. *)
Class ServiceManager `{SerdeJson} (S : Type) := {
  sm_now : S -> N;
  sm_sleep : N -> S -> S;
  sm_open_manager : S -> bool * S;
  sm_open_service : S -> N * S;
  sm_create : string -> S -> bool * S;
  sm_delete : S -> bool * S;
  sm_configure : ServiceSetting -> S -> bool * S;
  (** the size the configuration needs, and the configuration *)
  sm_config_size : S -> N * S;
  sm_query_config : S -> option ServiceConfig * S;
  sm_change_config : string -> S -> bool * S;
  (** the status and its size *)
  sm_query_status : S -> option (ServiceStatus * N) * S;
  sm_control_stop : S -> N * S;
  sm_start : S -> N * S;
  (** [call_shared_service] *)
  sm_call : Request -> S -> Result Value * S;
}.

(** Time does not go back and a sleep lasts at least its duration. *)
Class ServiceClock `{SerdeJson} (S : Type) `{!ServiceManager S} := {
  sm_sleep_lasts d s : (sm_now s + d <= sm_now (sm_sleep d s))%N;
  sm_status_later s : (sm_now s <= sm_now (snd (sm_query_status s)))%N;
  sm_stop_later s : (sm_now s <= sm_now (snd (sm_control_stop s)))%N;
  sm_start_later s : (sm_now s <= sm_now (snd (sm_start s)))%N;
}.

(** ** Creation and configuration *)

Definition required_privileges : list string := ["SeChangeNotifyPrivilege"; "SeImpersonatePrivilege"].
Definition SERVICE_FAILURE_RESTART_DELAYS_MS : list N := [5000; 60000]%N.
Definition SERVICE_FAILURE_RESET_SECONDS : N := 24 * 60 * 60.
Definition SERVICE_DACL_SDDL : string := "D:P(A;;GA;;;SY)(A;;GA;;;BA)(A;;LCRP;;;AU)".

Section control.
Context `{SerdeJson} {S : Type} `{!ServiceManager S}.

Definition configure_system_service : M S () :=
  let set setting := succeeds (sm_configure setting) RootUnauthorized in
  _ ← set SidNone "service SID mode could not be configured";
  _ ← set (Privileges required_privileges) "service privileges could not be restricted";
  _ ← set (FailureActions SERVICE_FAILURE_RESTART_DELAYS_MS SERVICE_FAILURE_RESET_SECONDS)
        "service failure actions could not be configured";
  _ ← set (Description SERVICE_DESCRIPTION) "maintenance service description could not be configured";
  set (Dacl SERVICE_DACL_SDDL) "maintenance service DACL could not be configured".

Definition open_setup_manager : M S () :=
  succeeds sm_open_manager RootUnauthorized
    "elevated installer cannot open the service control manager".

(** Whether there is a service. *)
Definition open_setup_service : M S bool :=
  status ← answer sm_open_service;
  lift (if (status =? 0)%N then Ok true
        else if (status =? ERROR_SERVICE_DOES_NOT_EXIST)%N then Ok false
        else Err (new_error RootUnauthorized
               "elevated installer cannot open the existing maintenance service")).

Definition delete_service (c : ErrorCode) (detail : string) : M S () := succeeds sm_delete c detail.

(** [query_service_config]: the image of a service whose configuration is the one
    it was created with. *)
Definition query_service_config : M S string :=
  needed ← answer sm_config_size;
  _ ← lift (ensure (negb ((needed =? 0)%N || (64 * 1024 <? needed)%N)) RecoveryIncomplete
        "maintenance service configuration has an invalid size");
  _ ← lift (ok_or (checked_add usize_max needed 3) RecoveryIncomplete
        "maintenance service configuration size overflowed");
  config ← answer sm_query_config;
  config ← lift (ok_or config RecoveryIncomplete
        "maintenance service configuration cannot be queried");
  _ ← lift (ensure ((sc_type config =? SERVICE_WIN32_OWN_PROCESS)%N
                    && (sc_start config =? SERVICE_DEMAND_START)%N
                    && (sc_error config =? SERVICE_ERROR_NORMAL)%N)
        RecoveryIncomplete "maintenance service type, start mode, or error policy drifted");
  image ← lift (ok_or (sc_image config) RecoveryIncomplete
        "maintenance service ImagePath is invalid Unicode");
  account ← lift (ok_or (sc_account config) RecoveryIncomplete
        "maintenance service account is invalid Unicode");
  _ ← lift (ensure (eq_ignore_ascii_case account SERVICE_ACCOUNT) RecoveryIncomplete
        "maintenance service account drifted from LocalSystem");
  pure image.

Definition ensure_expected_service_config (expected : string) : M S () :=
  image ← query_service_config;
  lift (ensure (bool_decide (image = expected)) RecoveryIncomplete
    "maintenance service ImagePath does not match its protected release record").

Definition change_service_image_path (image : string) : M S () :=
  succeeds (sm_change_config image) RecoveryIncomplete
    "maintenance service ImagePath could not be switched".

(** ** Stopping and starting *)

Definition query_service_status : M S ServiceStatus :=
  found ← answer sm_query_status;
  '(status, needed) ← lift (ok_or found TransactionIo
        "maintenance service status cannot be queried");
  _ ← lift (ensure (needed =? STATUS_BYTES)%N TransactionState
        "maintenance service status has an invalid size");
  pure status.

(** The rounds a loop that sleeps [POLL_INTERVAL] has before the timeout. *)
Definition poll_fuel (timeout : N) : nat := 2 + N.to_nat (timeout / POLL_INTERVAL).

Definition request_stop : M S () :=
  status ← answer sm_control_stop;
  lift (ensure ((status =? 0)%N || (status =? ERROR_SERVICE_CANNOT_ACCEPT_CTRL)%N
                || (status =? ERROR_SERVICE_NOT_ACTIVE)%N)
    TransactionIo "maintenance service stop request failed").

Definition request_stop_of (status : ServiceStatus) : M S () :=
  if negb (N.land (controls_accepted status) SERVICE_ACCEPT_STOP =? 0)%N
  then request_stop else pure tt.

Fixpoint stop_loop (fuel : nat) (started timeout : N) : M S () :=
  match fuel with
  | O => out_of_fuel
  | Datatypes.S fuel' =>
      status ← query_service_status;
      if (current_state status =? SERVICE_STOPPED)%N then pure tt
      else
        _ ← request_stop_of status;
        elapsed ← gets (fun s => sm_now s - started)%N;
        if (timeout <=? elapsed)%N
        then fail (new_error ServiceBusy "maintenance service is still committing or rolling back")
        else _ ← modify (sm_sleep POLL_INTERVAL); stop_loop fuel' started timeout
  end.

Definition stop_and_wait (timeout : N) : M S () :=
  started ← gets sm_now;
  stop_loop (poll_fuel timeout) started timeout.

Fixpoint start_loop (fuel : nat) (started timeout : N) : M S () :=
  match fuel with
  | O => out_of_fuel
  | Datatypes.S fuel' =>
      status ← query_service_status;
      if (current_state status =? SERVICE_RUNNING)%N then pure tt
      else
        elapsed ← gets (fun s => sm_now s - started)%N;
        if (current_state status =? SERVICE_STOPPED)%N || (timeout <=? elapsed)%N
        then fail (new_error TransactionIo "maintenance service did not reach the running state")
        else _ ← modify (sm_sleep POLL_INTERVAL); start_loop fuel' started timeout
  end.

Definition start_and_wait (timeout : N) : M S () :=
  status ← answer sm_start;
  _ ← lift (ensure ((status =? 0)%N || (status =? ERROR_SERVICE_ALREADY_RUNNING)%N)
        TransactionIo "maintenance service could not be started");
  started ← gets sm_now;
  start_loop (poll_fuel timeout) started timeout.

(** ** The check of the running service *)

Definition check_running_service (response : Value) (expected_version : string) : Result () :=
  _ ← ensure (bool_decide (entry "ok" response ≫= value_bool = Some true)
              && bool_decide (entry "serviceVersion" response ≫= value_str = Some expected_version))
        ProtocolVersion "running maintenance service version failed health-check";
  capabilities ← ok_or (entry "capabilities" response ≫= value_array) ProtocolVersion
        "running maintenance service omitted capabilities";
  try_for (fun _ required =>
      ensure (existsb (fun value => bool_decide (value_str value = Some required)) capabilities)
        ProtocolVersion "running maintenance service lacks a required capability")
    tt ["file-set-v1"; "registry-set-v1"].

Definition verify_running_service (expected_version : string) : M S () :=
  response ← answer (sm_call (GetStatus PROTOCOL_MAJOR));
  response ← lift response;
  lift (check_running_service response expected_version).
End control.

(** ** Waiting ends, and sees what happens in time *)

Section waiting.
Context `{SerdeJson} {S : Type} `{!ServiceManager S, !ServiceClock S}.

(** A status is the answer of one query. *)
Definition seen (status : ServiceStatus) (s : S) : Prop :=
  exists s0, sm_query_status s0 = (Some (status, STATUS_BYTES), s).

Lemma query_status_spec s :
  wp query_service_status
    (fun status s' => seen status s' /\ (sm_now s <= sm_now s')%N)
    (fun _ _ => True) (fun _ => False) s.
Proof.
  pose proof (sm_status_later s) as Hs. apply wp_bind. unfold wp, answer.
  destruct (sm_query_status s) as [found s'] eqn:Eq. cbn in Hs.
  apply wp_bind, wp_lift; [|done]. intros [status needed] E.
  apply wp_bind, wp_lift; [|done]. intros [] En.
  destruct found as [[status' needed']|]; [|done]. injection E as -> ->.
  unfold ensure in En. destruct (N.eqb_spec needed STATUS_BYTES) as [->|]; [|done].
  split; [by exists s|done].
Qed.

Lemma request_stop_spec status s :
  wp (request_stop_of status) (fun _ s' => sm_now s <= sm_now s')%N (fun _ _ => True)
    (fun _ => False) s.
Proof.
  unfold request_stop_of. destruct (negb _); [|cbn; lia]. unfold request_stop. apply wp_bind.
  pose proof (sm_stop_later s) as Hs. unfold wp, answer. destruct (sm_control_stop s) as [code s'].
  by apply wp_lift.
Qed.

Lemma poll_fuel_covers timeout :
  exists fuel, poll_fuel timeout = Datatypes.S fuel /\ (timeout <= POLL_INTERVAL * N.of_nat fuel)%N.
Proof.
  exists (1 + N.to_nat (timeout / POLL_INTERVAL))%nat. split; [done|].
  rewrite Nat2N.inj_add, N2Nat.id. unfold POLL_INTERVAL.
  pose proof (N.div_mod timeout 100). pose proof (N.mod_lt timeout 100). lia.
Qed.

Lemma stop_loop_spec fuel started timeout s :
  (started <= sm_now s)%N ->
  (timeout <= (sm_now s - started) + POLL_INTERVAL * N.of_nat fuel)%N ->
  wp (stop_loop (Datatypes.S fuel) started timeout)
    (fun _ s' => exists status, seen status s' /\ current_state status = SERVICE_STOPPED)
    (fun _ _ => True) (fun _ => False) s.
Proof.
  revert s. induction fuel as [|fuel IH]; intros s Hs Ht; cbn [stop_loop].
  all: apply wp_bind; (eapply wp_mono; [apply query_status_spec| |done..]).
  all: intros status s1 [Hseen H1]; destruct (N.eqb_spec (current_state status) SERVICE_STOPPED);
    [apply wp_pure; by exists status|].
  all: apply wp_bind; (eapply wp_mono; [apply request_stop_spec| |done..]).
  all: intros [] s2 H2; apply wp_bind, wp_gets; destruct (N.leb_spec timeout (sm_now s2 - started)); [done|].
  - lia.
  - apply wp_bind. unfold wp, modify. apply IH; pose proof (sm_sleep_lasts POLL_INTERVAL s2);
      unfold POLL_INTERVAL in *; lia.
Qed.

Lemma start_loop_spec fuel started timeout s :
  (started <= sm_now s)%N ->
  (timeout <= (sm_now s - started) + POLL_INTERVAL * N.of_nat fuel)%N ->
  wp (start_loop (Datatypes.S fuel) started timeout)
    (fun _ s' => exists status, seen status s' /\ current_state status = SERVICE_RUNNING)
    (fun _ _ => True) (fun _ => False) s.
Proof.
  revert s. induction fuel as [|fuel IH]; intros s Hs Ht; cbn [start_loop].
  all: apply wp_bind; (eapply wp_mono; [apply query_status_spec| |done..]).
  all: intros status s1 [Hseen H1]; destruct (N.eqb_spec (current_state status) SERVICE_RUNNING);
    [apply wp_pure; by exists status|].
  all: apply wp_bind, wp_gets; destruct (current_state status =? SERVICE_STOPPED)%N; [done|]; cbn [orb].
  all: destruct (N.leb_spec timeout (sm_now s1 - started)); [done|].
  - lia.
  - apply wp_bind. unfold wp, modify. apply IH; pose proof (sm_sleep_lasts POLL_INTERVAL s1);
      unfold POLL_INTERVAL in *; lia.
Qed.

Lemma stop_and_wait_spec timeout s :
  wp (stop_and_wait timeout)
    (fun _ s' => exists status, seen status s' /\ current_state status = SERVICE_STOPPED)
    (fun _ _ => True) (fun _ => False) s.
Proof.
  unfold stop_and_wait. apply wp_bind, wp_gets.
  destruct (poll_fuel_covers timeout) as (fuel & -> & Ht). apply stop_loop_spec; lia.
Qed.

Lemma start_and_wait_spec timeout s :
  wp (start_and_wait timeout)
    (fun _ s' => exists status, seen status s' /\ current_state status = SERVICE_RUNNING)
    (fun _ _ => True) (fun _ => False) s.
Proof.
  unfold start_and_wait. apply wp_bind. unfold wp at 1, answer. destruct (sm_start s) as [status s1].
  apply wp_bind, wp_lift; [intros [] _|done]. apply wp_bind, wp_gets.
  destruct (poll_fuel_covers timeout) as (fuel & -> & Ht). apply start_loop_spec; lia.
Qed.

(** A service that stops: its status can be queried and a stop requested, each in
    at most [slack], and from [deadline] on it is stopped. *)
Record stops_by (deadline slack : N) (P : S -> Prop) : Prop := {
  sb_status s : P s -> exists status s', sm_query_status s = (Some (status, STATUS_BYTES), s')
    /\ P s' /\ (sm_now s' <= sm_now s + slack)%N
    /\ ((deadline <= sm_now s)%N -> current_state status = SERVICE_STOPPED);
  sb_control s : P s -> exists code s', sm_control_stop s = (code, s')
    /\ code ∈ [0; ERROR_SERVICE_CANNOT_ACCEPT_CTRL; ERROR_SERVICE_NOT_ACTIVE]%N
    /\ P s' /\ (sm_now s' <= sm_now s + slack)%N;
  sb_sleep s : P s -> P (sm_sleep POLL_INTERVAL s);
}.

Section stopping.
Context (deadline slack : N) (P : S -> Prop) (HP : stops_by deadline slack P).

Lemma query_stopping s :
  P s -> wp query_service_status (fun status s' => P s' /\ (sm_now s <= sm_now s' <= sm_now s + slack)%N
            /\ ((deadline <= sm_now s)%N -> current_state status = SERVICE_STOPPED))
         (fun _ _ => False) (fun _ => False) s.
Proof.
  intros Hs. destruct (sb_status _ _ _ HP s Hs) as (status & s' & E & HP' & Ht & Hd).
  pose proof (sm_status_later s) as Hl. rewrite E in Hl.
  unfold wp, query_service_status, answer, mbind, M_bind, bind, lift. by rewrite E.
Qed.

Lemma request_stopping status s :
  P s -> wp (request_stop_of status) (fun _ s' => P s' /\ (sm_now s <= sm_now s' <= sm_now s + slack)%N)
         (fun _ _ => False) (fun _ => False) s.
Proof.
  intros Hs. unfold request_stop_of. destruct (negb _); [|apply wp_pure; split; [done|lia]].
  destruct (sb_control _ _ _ HP s Hs) as (code & s' & E & Hc & HP' & Ht).
  pose proof (sm_stop_later s) as Hl. rewrite E in Hl.
  unfold wp, request_stop, answer, mbind, M_bind, bind, lift. rewrite E.
  assert (((code =? 0) || (code =? ERROR_SERVICE_CANNOT_ACCEPT_CTRL)
           || (code =? ERROR_SERVICE_NOT_ACTIVE))%N = true) as ->; [|done].
  repeat (apply elem_of_cons in Hc as [->|Hc]; [done|]). by apply elem_of_nil in Hc.
Qed.

Lemma stop_loop_stopping fuel started timeout s :
  P s -> (deadline + 2 * slack < started + timeout)%N -> (started <= sm_now s)%N ->
  (timeout <= (sm_now s - started) + POLL_INTERVAL * N.of_nat fuel)%N ->
  wp (stop_loop (Datatypes.S fuel) started timeout) (fun _ => P) (fun _ _ => False) (fun _ => False) s.
Proof.
  intros Hs Hd. revert s Hs. induction fuel as [|fuel IH]; intros s Hs Hst Ht; cbn [stop_loop].
  all: apply wp_bind; (eapply wp_mono; [by apply query_stopping| |done..]).
  all: intros status s1 (HP1 & H1 & Hstop); destruct (N.eqb_spec (current_state status) SERVICE_STOPPED);
    [by apply wp_pure|].
  all: assert (~ (deadline <= sm_now s)%N) by by intros ?%Hstop.
  all: apply wp_bind; (eapply wp_mono; [by apply request_stopping| |done..]).
  all: intros [] s2 [HP2 H2]; apply wp_bind, wp_gets; destruct (N.leb_spec timeout (sm_now s2 - started)); [lia|].
  - lia.
  - apply wp_bind. unfold wp, modify. apply IH; pose proof (sm_sleep_lasts POLL_INTERVAL s2);
      [by apply (sb_sleep _ _ _ HP)|unfold POLL_INTERVAL in *; lia..].
Qed.
End stopping.

(** C14: waiting for the service to stop always ends, and returns success only
    after a query that showed the service stopped; a service that can be queried
    and told to stop and is stopped some time before the timeout, at least as
    long as a query and a request take, is seen stopped. *)
Theorem stop_is_seen timeout s :
  fst (stop_and_wait timeout s) <> OutOfFuel
  /\ (forall s', stop_and_wait timeout s = (Done (Ok tt), s') ->
        exists status, seen status s' /\ current_state status = SERVICE_STOPPED)
  /\ (forall deadline slack P, stops_by deadline slack P -> P s ->
        (deadline + 2 * slack < sm_now s + timeout)%N ->
        exists s', stop_and_wait timeout s = (Done (Ok tt), s') /\ P s').
Proof.
  pose proof (stop_and_wait_spec timeout s) as Hw. unfold wp in Hw. split_and!.
  - intros E. by destruct (stop_and_wait timeout s) as [[[]| |] s'].
  - intros s' E. by rewrite E in Hw.
  - intros deadline slack P HP Hs Ht.
    assert (wp (stop_and_wait timeout) (fun _ => P) (fun _ _ => False) (fun _ => False) s) as Hp.
    { unfold stop_and_wait. apply wp_bind, wp_gets.
      destruct (poll_fuel_covers timeout) as (fuel & -> & Hf).
      eapply (stop_loop_stopping deadline slack P HP); [done|done|lia|lia]. }
    unfold wp in Hp. destruct (stop_and_wait timeout s) as [[[[]|e]| |] s']; try done. by exists s'.
Qed.
End waiting.
