(* ===== verification/ServiceRecords.v ===== *)
(** * The documents of service releases and upgrades

    Encoding and decoding of the release record and of the upgrade journal,
    src/src/service_upgrade.rs: what the installer stores it can always read. *)

From S2P Require Import Prelude Errors Identifiers Json Effects Protocol ServiceUpgrade DirectRecord.

(** [MAX_IPC_MESSAGE_BYTES], as the bound of a document. *)
Definition MAX_RECORD_BYTES : N := 64 * 1024.

Section documents.
Context `{SerdeJson}.

Definition ServiceReleaseRecord_value (r : ServiceReleaseRecord) : Value :=
  Object [("digest", VString (sr_digest r));
          ("generation", VNumber (number_of_u64 (sr_generation r)));
          ("kind", VString (sr_kind r));
          ("schema", VNumber (number_of_u64 (sr_schema r)));
          ("serviceVersion", VString (service_version r))].

#[export] Instance ServiceReleaseRecord_encoder : Encoder ServiceReleaseRecord := fun r =>
  Some (ServiceReleaseRecord_value r).

Definition upgrade_phase_name (p : UpgradePhase) : string :=
  match p with
  | Staged => "staged"
  | OldStopped => "oldStopped"
  | ConfigSwitched => "configSwitched"
  | Healthy => "healthy"
  end.

#[export] Instance ServiceUpgradeJournal_encoder : Encoder ServiceUpgradeJournal := fun j =>
  Some (Object [
    ("candidate", ServiceReleaseRecord_value (candidate j));
    ("candidateImagePath", VString (candidate_image_path j));
    ("kind", VString (uj_kind j));
    ("phase", VString (upgrade_phase_name (phase j)));
    ("previous", match previous j with Some p => ServiceReleaseRecord_value p | None => Null end);
    ("schema", VNumber (number_of_u64 (uj_schema j)))]).

Context `{!Reader ServiceReleaseRecord, !Reader ServiceUpgradeJournal}.

Definition encode_upgrade_journal (journal : ServiceUpgradeJournal) : Result (list byte) :=
  _ ← validate_journal journal;
  value ← ok_or (to_value journal) JsonInvalid "service upgrade journal cannot be encoded";
  canonical_json value.

Definition decode_upgrade_journal (bytes : list byte) : Result ServiceUpgradeJournal :=
  journal ← parse_canonical ServiceUpgradeJournal bytes MAX_RECORD_BYTES;
  _ ← validate_journal journal;
  Ok journal.

Definition encode_release_record (record : ServiceReleaseRecord) : Result (list byte) :=
  _ ← validate_record record;
  value ← ok_or (to_value record) JsonInvalid "service release record cannot be encoded";
  canonical_json value.

Definition decode_release_record (bytes : list byte) : Result ServiceReleaseRecord :=
  record ← parse_canonical ServiceReleaseRecord bytes MAX_RECORD_BYTES;
  _ ← validate_record record;
  Ok record.
End documents.

(** ** What is stored is read back *)

Section roundtrip.
Context `{SerdeJsonLaws}.
Context `{!Reader ServiceReleaseRecord, !Reader ServiceUpgradeJournal}.
Context `{!ReaderLaws ServiceReleaseRecord, !ReaderLaws ServiceUpgradeJournal}.

Lemma fits_text s : fits (VString s) (2 + 6 * str_len s).
Proof.
  intros bytes Hb. unfold canonical_json in Hb. cbn in Hb.
  destruct (write_string s) as [l|] eqn:El; [|done]. cbn in Hb. injection Hb as <-.
  by apply write_string_length.
Qed.

Lemma version_length s v : parse_version s = Ok v -> (str_len s <= 62)%nat.
Proof.
  intros [(Ha & Hb & Hc) <-]%parse_version_text. unfold display_version.
  rewrite str_len_of_bytes. repeat (rewrite ?length_app; cbn [length]).
  pose proof (u64_to_string_digits _ Ha) as (_ & _ & ?).
  pose proof (u64_to_string_digits _ Hb) as (_ & _ & ?).
  pose proof (u64_to_string_digits _ Hc) as (_ & _ & ?). lia.
Qed.

Lemma record_value_fits r : validate_record r = Ok tt -> fits (ServiceReleaseRecord_value r) 1000.
Proof.
  intros Hv. unfold validate_record in Hv. ok_inv. bool_inv.
  match goal with Hp : parse_version _ = Ok _ |- _ => apply version_length in Hp as Hver end.
  match goal with Hd : decode_lower_hex _ _ _ = Ok _ |- _ => apply decode_lower_hex_bytes in Hd as [Hlen Hhex] end.
  eapply fits_mono; [apply (fits_object _ (fun k => if decide (k = "serviceVersion") then 374 else 100)%nat)|].
  - fields; repeat case_decide; try done.
    + eapply fits_mono; [by apply fits_string, lower_hex_fits|lia].
    + eapply fits_mono; [apply fits_number|lia].
    + match goal with Hk : sr_kind r = _ |- _ => rewrite Hk end.
      eapply fits_mono; [by apply fits_string|]. vm_compute. lia.
    + eapply fits_mono; [apply fits_number|lia].
    + eapply fits_mono; [apply fits_text|lia].
  - vm_compute. lia.
Qed.

Lemma journal_value_fits j v :
  validate_journal j = Ok tt -> to_value j = Some v -> fits v (64 * 512).
Proof.
  intros Hv. unfold to_value, ServiceUpgradeJournal_encoder. intros [= <-].
  unfold validate_journal in Hv. ok_inv. bool_inv. repeat match goal with u : () |- _ => destruct u end.
  match goal with Hp : validate_image_path _ = Ok _ |- _ => unfold validate_image_path in Hp; ok_inv; bool_inv end.
  set (size := fun k => if decide (k = "candidateImagePath") then (2 + 6 * MAX_IMAGE_PATH_BYTES)%nat else 1000%nat).
  eapply fits_mono; [apply (fits_object _ size)|].
  - fields; unfold size; repeat case_decide; try done.
    + by apply record_value_fits.
    + eapply fits_mono; [apply fits_text|]. lia.
    + match goal with Hk : uj_kind j = _ |- _ => rewrite Hk end.
      eapply fits_mono; [by apply fits_string|]. vm_compute. lia.
    + eapply fits_mono; [apply fits_text|]. destruct (phase j); vm_compute; lia.
    + destruct (previous j) as [p|]; [|intros b [= <-]; vm_compute; lia].
      by apply record_value_fits.
    + eapply fits_mono; [apply fits_number|lia].
  - apply (bool_decide_unpack _). by vm_compute.
Qed.

(** An upgrade journal and a release record that were encoded are read back
    as they were: they stay within the bound of their reader, so what an
    installer stored before it was interrupted never keeps the next one from
    starting. *)
Theorem upgrade_documents_read_back :
  (forall j bytes, encode_upgrade_journal j = Ok bytes -> decode_upgrade_journal bytes = Ok j) /\
  (forall r bytes, encode_release_record r = Ok bytes -> decode_release_record bytes = Ok r).
Proof.
  split; intros d bytes He.
  - unfold encode_upgrade_journal in He.
    destruct (validate_journal d) as [[]|e] eqn:Hx; mred; [|done].
    destruct (to_value d) as [v|] eqn:Ev; [|done]. cbn [ok_or] in He. mred.
    pose proof (journal_value_fits _ _ Hx Ev _ He) as Hl.
    unfold decode_upgrade_journal.
    rewrite (parse_canonical_encoded _ _ _ _ _ Ev He) by (unfold MAX_RECORD_BYTES; lia).
    mred. rewrite Hx. by mred.
  - unfold encode_release_record in He.
    destruct (validate_record d) as [[]|e] eqn:Hx; mred; [|done].
    pose proof (record_value_fits _ Hx _ He) as Hl.
    assert (to_value d = Some (ServiceReleaseRecord_value d)) as Ev by done.
    unfold decode_release_record.
    rewrite (parse_canonical_encoded _ _ _ _ _ Ev He) by (unfold MAX_RECORD_BYTES; lia).
    mred. rewrite Hx. by mred.
Qed.
End roundtrip.
