(* ===== verification/ServiceSetup.v ===== *)
(** * Installing, upgrading and removing the service

    src/src/windows_upgrade.rs: [ensure_system_service], [remove_system_service]
    and [verify_service_bundle], with the platform that [execute_service_upgrade]
    runs on.  The state of an installer is the trees with the service's binaries,
    the files of the protected data directory, whether it holds a handle of the
    service, and the machine with the service control manager. *)

From S2P Require Import Prelude Errors Effects Identifiers Json Protocol Trust FileSet Roots.
From S2P Require Import Journal Storage Transaction LocalPlatform WindowsPath WindowsFiles.
From S2P Require Import Impersonation Service ServiceUpgrade ServiceRecords ServiceBinaries.
From S2P Require Import ServiceControl.

Definition RELEASE_RECORD_FILE : string := "service-release-v1.json".
Definition UPGRADE_JOURNAL_FILE : string := "service-upgrade-v1.json".
Definition KEYRING_FILE : string := "keyring-v1.json".
Definition MANAGER_BINARY_NAME : string := "Se7enServiceManager.exe".
Definition UNINSTALL_SUBKEY : string :=
  "SOFTWARE\Microsoft\Windows\CurrentVersion\Uninstall\{846CF93F-AC92-4A47-9A4A-959B44C95CF4}_is1".
Definition UNINSTALL_DISPLAY_NAME : string := "SE7EN Service".
Definition UNINSTALL_PUBLISHER : string := "SE7EN Solutions".

(** [ERROR_FILE_NOT_FOUND]. *)
Definition ERROR_FILE_NOT_FOUND : N := 2.

Inductive EnsureServiceResult := WasInstalled | WasUpgraded | WasCurrent.
Inductive RemoveServiceResult := Removed | Absent.

Definition ensure_result_name (r : EnsureServiceResult) : string :=
  match r with WasInstalled => "installed" | WasUpgraded => "upgraded" | WasCurrent => "current" end.
Definition remove_result_name (r : RemoveServiceResult) : string :=
  match r with Removed => "removed" | Absent => "absent" end.

(** ** The rest of the machine *)

(** Calls about the entry in Programs and Features, a key of its own. *)
Inductive RegistryCall :=
  | CreateEntry (subkey : string)
  | SetText (name value : string)
  | SetFlag (name : string) (value : N)
  | DeleteEntry (subkey : string).

(** The answer of [fs::remove_file]. *)
Inductive RemoveAnswer := FileRemoved | FileNotFound | FileKept.

(** What an installer asks of the machine besides the service control manager. *)
Class SetupMachine (S : Type) := {
  (** [program_files_root] *)
  sy_program_files : Result string;
  (** opening and reading a file to its end; the answer is its bytes *)
  sy_document : string -> S -> option (list byte);
  (** the installer's token: opened, elevated, an administrator's *)
  sy_token : S -> option (Result bool * Result bool);
  (** [CreateMutexW] of the installer's name: [None] when it fails, whether the
      mutex was there already *)
  sy_mutex : string -> S -> option bool * S;
  (** the protected data directory: its path, checked, and made if it is missing *)
  sy_data_path : S -> Result ();
  sy_open_data : S -> Result ();
  sy_provision_data : S -> Result () * S;
  (** a status, zero or an error of Windows *)
  sy_registry : RegistryCall -> S -> N * S;
  sy_current_exe : S -> option string;
  sy_create_dir_all : string -> S -> bool * S;
  sy_copy_file : string -> string -> S -> bool * S;
  sy_remove_file : string -> S -> RemoveAnswer * S;
  sy_rename_file : string -> string -> S -> bool * S;
  sy_delete_at_boot : string -> S -> S;
  (** [fs::remove_dir] of the data directory's parent *)
  sy_remove_parent : S -> S;
}.

(** ** The state of an installer *)

Record SetupState (S : Type) := mkSetup {
  su_world : World;
  su_disk : Disk;
  su_service : bool;
  su_machine : S;
}.
Arguments mkSetup {_} _ _ _ _.
Arguments su_world {_} _.
Arguments su_disk {_} _.
Arguments su_service {_} _.
Arguments su_machine {_} _.

Section setup.
Context `{SerdeJson, UnicodeCase, Crypto, FileNames, NewFiles, WindowsVolumes, ProgramSigners}.
Context {S : Type} `{!ServiceManager S, !SetupMachine S}.
Context `{!Reader Keyring, !Reader FileSet}.
Context `{!Reader ServiceReleaseRecord, !Reader ServiceUpgradeJournal}.

Abbreviation State := (SetupState S).

Definition on_trees {A} (m : M World A) : M State A := fun s =>
  let '(o, w) := m (su_world s) in (o, mkSetup w (su_disk s) (su_service s) (su_machine s)).
Definition on_data {A} (m : M Disk A) : M State A := fun s =>
  let '(o, d) := m (su_disk s) in (o, mkSetup (su_world s) d (su_service s) (su_machine s)).
Definition on_machine {A} (m : M S A) : M State A := fun s =>
  let '(o, x) := m (su_machine s) in (o, mkSetup (su_world s) (su_disk s) (su_service s) x).
Definition set_service (b : bool) : M State () :=
  modify (fun s => mkSetup (su_world s) (su_disk s) b (su_machine s)).

(** A question to the machine, and a call that answers with a result. *)
Definition ask {A} (f : S -> A) : M State A := on_machine (gets f).
Definition check {A} (f : S -> Result A) : M State A := r ← ask f; lift r.
Definition perform {A} (f : S -> Result A * S) : M State A :=
  r ← on_machine (answer f); lift r.

Definition program_files_root : M State string := lift sy_program_files.

(** An operation of the slots below Program Files. *)
Definition below_program_files {A} (m : string -> M World A) : M State A :=
  program_files ← program_files_root;
  on_trees (m program_files).

(** ** Documents *)

(** [read_service_file] of a shipped document. *)
Definition read_document (path : string) : M State (list byte) :=
  bytes ← ask (sy_document path);
  bytes ← lift (ok_or bytes TrustSignature "protected service trust file cannot be opened");
  _ ← lift (ensure (N.of_nat (length bytes) <=? MAX_MANIFEST_BYTES)%N ManifestTooLarge
        "protected service trust file exceeds the bound");
  pure bytes.

Definition load_document {A} (path : string) (decode : list byte -> Result A)
    : M Disk (option A) :=
  _ ← recover_service_file_replacement path;
  found ← path_exists path;
  if (found : bool) then
    bytes ← read_service_file path MAX_RECORD_BYTES;
    document ← lift (decode bytes);
    pure (Some document)
  else pure None.

Definition load_release_record : M Disk (option ServiceReleaseRecord) :=
  load_document RELEASE_RECORD_FILE decode_release_record.
Definition load_upgrade_journal : M Disk (option ServiceUpgradeJournal) :=
  load_document UPGRADE_JOURNAL_FILE decode_upgrade_journal.

Definition store_document (path : string) (bytes : Result (list byte)) : M Disk () :=
  _ ← recover_service_file_replacement path;
  bytes ← lift bytes;
  replace_service_file path bytes.

(** [verify_candidate_keyring_bytes]: against the installed keyring. *)
Definition verify_candidate_keyring (source_bytes : list byte) : M State VerifiedKeyring :=
  _ ← check sy_data_path;
  installed ← on_data (
    _ ← recover_service_file_replacement KEYRING_FILE;
    found ← path_exists KEYRING_FILE;
    if (found : bool) then bytes ← read_service_file KEYRING_FILE MAX_MANIFEST_BYTES; pure (Some bytes)
    else pure None);
  lift (verify_candidate_keyring_bytes installed source_bytes).

Definition install_verified_keyring_bytes (source_bytes : list byte) : M State () :=
  _ ← verify_candidate_keyring source_bytes;
  _ ← check sy_data_path;
  on_data (store_document KEYRING_FILE (Ok source_bytes)).

(** The signed bundle: its keyring, its file set and the executable's entry. *)
Definition read_bundle (manifest_path keyring_path : string)
    : M State (list byte * VerifiedKeyring * VerifiedFileSet * FileEntry) :=
  keyring_bytes ← read_document keyring_path;
  keyring ← verify_candidate_keyring keyring_bytes;
  manifest_bytes ← read_document manifest_path;
  manifest ← lift (verify_file_set manifest_bytes keyring
        {| fsa_expected_product_id := SERVICE_BUNDLE_PRODUCT_ID; fsa_previous := None |});
  e ← lift (validate_service_bundle manifest);
  pure (keyring_bytes, keyring, manifest, e).

(** What a verified service bundle proves. *)
Record ServiceBundleEvidence := {
  be_generation : N;
  be_size : N;
  be_sha256 : string;
}.

Definition verify_service_bundle (bundle_root manifest_path keyring_path : string)
    : M State ServiceBundleEvidence :=
  _ ← lift (ensure (path_is_absolute bundle_root) StagingInvalid
        "service bundle root must be absolute");
  '(_, keyring, manifest, e) ← read_bundle manifest_path keyring_path;
  _ ← on_trees (
    found ← open_relative_file (unregistered bundle_root) (TargetFile SERVICE_BINARY_NAME)
              DataOrDelete false false;
    _ ← lift (ensure found StagingInvalid "signed service bundle executable is absent");
    verify_bundle_file bundle_root (TargetFile SERVICE_BINARY_NAME) e keyring);
  pure {| be_generation := fs_generation (file_set manifest);
          be_size := fe_size e; be_sha256 := fe_sha256 e |}.

(** ** The service's binary and its ImagePath *)

Definition supported_previous_binary_relative_path (expected : string) : M State string :=
  current ← on_machine query_service_config;
  program_files ← program_files_root;
  let mixed relative := service_image_path (join_path_name program_files relative) in
  lift (ok_or (supported_previous_relative_path_for_image current expected
                 (mixed MANAGED_SERVICE_RELATIVE_PATH)
                 (service_image_path (previous_managed_binary_path_at program_files))
                 (mixed PREVIOUS_MANAGED_SERVICE_RELATIVE_PATH))
          RecoveryIncomplete
          "maintenance service ImagePath is outside the current and supported previous paths").

Definition provision_service_data_directory : M State () := perform sy_provision_data.

(** [create_system_service]. *)
Definition create_system_service (executable : string) : M State () :=
  _ ← on_machine (succeeds sm_open_manager RootUnauthorized
        "service control manager cannot be opened for setup");
  _ ← on_machine (succeeds (sm_create (service_image_path executable)) TransactionIo
        "shared maintenance service could not be created");
  _ ← on_machine configure_system_service;
  provision_service_data_directory.

(** ** The platform of an upgrade *)

(** [WindowsUpgradePlatform]; the handle of the service is in the state. *)
Record UpgradeContext := {
  uc_previous_binary_relative_path : option string;
  uc_candidate_binary : string;
  uc_keyring_bytes : list byte;
}.

(** [self.service()]: the handle. *)
Definition service_handle : M State () :=
  held ← gets su_service;
  lift (ensure held RecoveryIncomplete "SCM service handle is unavailable during upgrade").

Definition stop_if_open : M State () :=
  held ← gets su_service;
  if (held : bool) then on_machine (stop_and_wait DEFAULT_STOP_TIMEOUT) else pure tt.

Definition windows_activate (c : UpgradeContext) (journal : ServiceUpgradeJournal) : M State () :=
  program_files ← program_files_root;
  _ ← lift (ensure (bool_decide (uc_candidate_binary c = managed_candidate_binary_path_at program_files))
        TransactionState "staged service candidate is outside the fixed managed path");
  _ ← lift (ensure (bool_decide (is_Some (previous journal)
                                 <-> is_Some (uc_previous_binary_relative_path c)))
        TransactionState "service upgrade source path does not match the protected journal");
  _ ← below_program_files (fun program_files =>
        activate_staged_service_binary program_files (uc_previous_binary_relative_path c));
  program_files ← program_files_root;
  held ← gets su_service;
  _ ← (if (held : bool) then pure tt
       else _ ← create_system_service (managed_binary_path_at program_files);
            opened ← on_machine open_setup_service;
            set_service opened);
  _ ← service_handle;
  current ← on_machine query_service_config;
  _ ← (if decide (current = candidate_image_path journal) then pure tt
       else on_machine (change_service_image_path (candidate_image_path journal)));
  _ ← on_machine configure_system_service;
  provision_service_data_directory.

Definition windows_verify_health (journal : ServiceUpgradeJournal) : M State () :=
  _ ← service_handle;
  current ← on_machine query_service_config;
  _ ← (if decide (current = candidate_image_path journal) then pure tt
       else _ ← on_machine (stop_and_wait DEFAULT_STOP_TIMEOUT);
            on_machine (change_service_image_path (candidate_image_path journal)));
  _ ← on_machine configure_system_service;
  _ ← on_machine (start_and_wait START_TIMEOUT);
  on_machine (verify_running_service (service_version (candidate journal))).

Definition delete_managed (relative : string) : M State () :=
  below_program_files (fun program_files => delete_managed_file program_files relative).

Definition windows_rollback (journal : ServiceUpgradeJournal) : M State () :=
  _ ← stop_if_open;
  match previous journal with
  | Some old =>
      _ ← below_program_files restore_previous_service_binary;
      _ ← service_handle;
      _ ← on_machine (change_service_image_path (candidate_image_path journal));
      _ ← on_machine configure_system_service;
      _ ← on_machine (start_and_wait START_TIMEOUT);
      on_machine (verify_running_service (service_version old))
  | None =>
      _ ← delete_managed MANAGED_SERVICE_RELATIVE_PATH;
      _ ← delete_managed MANAGED_CANDIDATE_RELATIVE_PATH;
      held ← gets su_service;
      _ ← set_service false;
      _ ← lift (ensure held RecoveryIncomplete "newly created service disappeared before rollback");
      on_machine (delete_service RecoveryIncomplete "failed initial service could not be deleted")
  end.

Definition windows_finalize (c : UpgradeContext) (journal : ServiceUpgradeJournal) : M State () :=
  _ ← install_verified_keyring_bytes (uc_keyring_bytes c);
  _ ← on_data (store_document RELEASE_RECORD_FILE (encode_release_record (candidate journal)));
  _ ← delete_managed MANAGED_PREVIOUS_RELATIVE_PATH;
  delete_managed MANAGED_CANDIDATE_RELATIVE_PATH.

Definition windows_clear_journal : M State () := on_data (
  _ ← recover_service_file_replacement UPGRADE_JOURNAL_FILE;
  found ← path_exists UPGRADE_JOURNAL_FILE;
  if (found : bool) then
    remove_file UPGRADE_JOURNAL_FILE (new_error RecoveryIncomplete
      "completed service upgrade journal could not be removed")
  else pure tt).

Definition WindowsUpgradePlatform (c : UpgradeContext) : ServiceUpgradePlatform State := {|
  persist_journal journal :=
    on_data (store_document UPGRADE_JOURNAL_FILE (encode_upgrade_journal journal));
  stop_service := stop_if_open;
  activate_candidate := windows_activate c;
  verify_candidate_health := windows_verify_health;
  rollback_service := windows_rollback;
  finalize_upgrade := windows_finalize c;
  clear_journal := windows_clear_journal;
|}.

(** ** Installing *)

Definition map_upgrade_outcome (o : EnsureServiceOutcome) : EnsureServiceResult :=
  match o with Installed => WasInstalled | Upgraded => WasUpgraded end.

Definition run_upgrade (c : UpgradeContext) (journal : ServiceUpgradeJournal)
    : M State EnsureServiceResult :=
  outcome ← (let platform := WindowsUpgradePlatform c in execute_service_upgrade journal);
  pure (map_upgrade_outcome outcome).

(** An upgrade that another run began goes on if it is the same one. *)
Definition same_upgrade (journal : ServiceUpgradeJournal) (release : ServiceReleaseRecord)
    (installed : option ServiceReleaseRecord) (image_path : string) : bool :=
  bool_decide (candidate journal = release)
  && (bool_decide (previous journal = installed) || bool_decide (installed = Some release))
  && bool_decide (candidate_image_path journal = image_path).

Definition stage_candidate (bundle_root : string) (e : FileEntry) (keyring : VerifiedKeyring)
    : M State string :=
  below_program_files (fun program_files => stage_candidate_binary program_files bundle_root e keyring).

Definition install_system_service (bundle_root manifest_path keyring_path : string)
    : M State EnsureServiceResult :=
  _ ← on_machine open_setup_manager;
  service ← on_machine open_setup_service;
  _ ← set_service service;
  _ ← (if (service : bool) then check sy_open_data else provision_service_data_directory);
  installed ← on_data load_release_record;
  _ ← lift (ensure (negb (service && bool_decide (installed = None))) RecoveryIncomplete
        "pre-release service without a protected release record must be removed manually");
  '(keyring_bytes, keyring, manifest, e) ← read_bundle manifest_path keyring_path;
  release ← lift (new_record CARGO_PKG_VERSION (fs_generation (file_set manifest)) (vfs_digest manifest));
  decision ← lift (decide_service_upgrade release installed);
  program_files ← program_files_root;
  let image_path := service_image_path (managed_binary_path_at program_files) in
  existing ← on_data load_upgrade_journal;
  match existing with
  | Some journal =>
      _ ← lift (ensure (same_upgrade journal release installed image_path) TransactionConflict
            "another maintenance service upgrade journal is active");
      relative ← (match previous journal with
        | Some _ =>
            _ ← lift (ensure service RecoveryIncomplete
                  "upgrade journal has a previous release but the SCM service is absent");
            relative ← supported_previous_binary_relative_path image_path;
            pure (Some relative)
        | None => pure None
        end);
      candidate_binary ← stage_candidate bundle_root e keyring;
      run_upgrade {| uc_previous_binary_relative_path := relative;
                     uc_candidate_binary := candidate_binary;
                     uc_keyring_bytes := keyring_bytes |} journal
  | None =>
      match decision with
      | KeepCompatible =>
          _ ← lift (ensure service RecoveryIncomplete
                "service release record exists but the SCM service is absent; remove SE7EN Service from Programs and Features and retry");
          _ ← below_program_files (fun program_files => verify_managed_binary program_files e keyring);
          _ ← on_machine (ensure_expected_service_config image_path);
          _ ← on_machine (start_and_wait START_TIMEOUT);
          _ ← on_machine (verify_running_service (service_version release));
          _ ← install_verified_keyring_bytes keyring_bytes;
          pure WasCurrent
      | Install =>
          candidate_binary ← stage_candidate bundle_root e keyring;
          journal ← lift (new_journal release None image_path);
          run_upgrade {| uc_previous_binary_relative_path := None;
                         uc_candidate_binary := candidate_binary;
                         uc_keyring_bytes := keyring_bytes |} journal
      | Upgrade =>
          old ← lift (ok_or installed RecoveryIncomplete
                "upgrade decision lost the installed service record");
          _ ← lift (ensure service RecoveryIncomplete
                "installed maintenance service is absent from SCM; remove SE7EN Service from Programs and Features and retry");
          relative ← supported_previous_binary_relative_path image_path;
          candidate_binary ← stage_candidate bundle_root e keyring;
          journal ← lift (new_journal release (Some old) image_path);
          run_upgrade {| uc_previous_binary_relative_path := Some relative;
                         uc_candidate_binary := candidate_binary;
                         uc_keyring_bytes := keyring_bytes |} journal
      end
  end.
End setup.
