(* ===== verification/ServiceRemoval.v ===== *)
(** * The component around the service

    src/src/windows_upgrade.rs: the entry in Programs and Features, the copy of
    the manager beside the service, the installer's mutex and privileges, and
    removing the service with all that belongs to it. *)

From S2P Require Import Prelude Errors Effects Identifiers Json Protocol Trust FileSet Roots.
From S2P Require Import Journal Storage Transaction LocalPlatform WindowsPath WindowsFiles.
From S2P Require Import Impersonation Service ServiceUpgrade ServiceRecords ServiceBinaries.
From S2P Require Import ServiceControl ServiceSetup.

Definition INSTALLER_MUTEX_NAME : string := "Global\SE7ENServiceInstaller-v1".

Section component.
Context `{SerdeJson, UnicodeCase, Crypto, FileNames, NewFiles, WindowsVolumes, ProgramSigners}.
Context {S : Type} `{!ServiceManager S, !SetupMachine S}.
Context `{!Reader Keyring, !Reader FileSet}.
Context `{!Reader ServiceReleaseRecord, !Reader ServiceUpgradeJournal}.

Abbreviation State := (SetupState S).

(** ** Privileges and the mutex *)

Definition require_elevated_installer : M State () :=
  token ← ask sy_token;
  '(elevated, administrator) ← lift (ok_or token RootUnauthorized
        "installer process token cannot be opened");
  elevated ← lift elevated;
  administrator ← (if (elevated : bool) then lift administrator else pure false);
  lift (ensure administrator RootUnauthorized
    "service ensure operation requires an elevated administrator").

Definition acquire_installer_mutex : M State () :=
  created ← on_machine (answer (sy_mutex INSTALLER_MUTEX_NAME));
  already_exists ← lift (ok_or created ServiceBusy "maintenance installer mutex cannot be acquired");
  lift (ensure (negb already_exists) ServiceBusy "another maintenance installer is already active").

(** ** The entry in Programs and Features *)

Definition uninstall_registry_result (status : N) : Result () :=
  if (status =? 0)%N then Ok tt
  else Err (with_platform_status RegistryIo
         "Programs and Features entry for the service cannot be written" status).

Definition set_entry (call : RegistryCall) : M State () :=
  status ← on_machine (answer (sy_registry call));
  lift (uninstall_registry_result status).

Definition service_install_directory (program_files : string) : string :=
  join_path_name (join_path_name program_files "7Launcher") "Service".

Definition quoted (path : string) : string := of_bytes [quote] +:+ path +:+ of_bytes [quote].

Definition write_uninstall_entry (manager : string) : M State () :=
  program_files ← program_files_root;
  let directory := service_install_directory program_files in
  for_each set_entry
    [CreateEntry UNINSTALL_SUBKEY;
     SetText "DisplayName" UNINSTALL_DISPLAY_NAME;
     SetText "DisplayVersion" CARGO_PKG_VERSION;
     SetText "Publisher" UNINSTALL_PUBLISHER;
     SetText "InstallLocation" directory;
     SetText "DisplayIcon" (join_path_name directory SERVICE_BINARY_NAME);
     SetText "UninstallString" (quoted manager +:+ " uninstall-service --interactive");
     SetText "QuietUninstallString" (quoted manager +:+ " uninstall-service");
     SetFlag "NoModify" 1;
     SetFlag "NoRepair" 1].

Definition delete_uninstall_entry : M State () :=
  status ← on_machine (answer (sy_registry (DeleteEntry UNINSTALL_SUBKEY)));
  lift (if (status =? ERROR_FILE_NOT_FOUND)%N then Ok tt else uninstall_registry_result status).

(** ** The manager's copy *)

Definition install_uninstall_manager : M State string :=
  source ← ask sy_current_exe;
  source ← lift (ok_or source TransactionState "the manager executable path is unavailable");
  program_files ← program_files_root;
  let directory := service_install_directory program_files in
  let destination := join_path_name directory MANAGER_BINARY_NAME in
  if decide (source = destination) then pure destination
  else
    _ ← on_machine (succeeds (sy_create_dir_all directory) TransactionIo
          "the installed service directory cannot be created");
    _ ← on_machine (succeeds (sy_copy_file source destination) TransactionIo
          "the uninstall manager cannot be installed beside the service");
    pure destination.

(** Never fails; a copy that is running is renamed and deleted at the next start. *)
Definition remove_installed_manager : M State () :=
  match sy_program_files with
  | Err _ => pure tt
  | Ok program_files =>
      let directory := service_install_directory program_files in
      let manager := join_path_name directory MANAGER_BINARY_NAME in
      removed ← on_machine (answer (sy_remove_file manager));
      match removed with
      | FileRemoved | FileNotFound => pure tt
      | FileKept =>
          let retired := join_path_name directory (MANAGER_BINARY_NAME +:+ ".retired") in
          _ ← on_machine (answer (sy_remove_file retired));
          renamed ← on_machine (answer (sy_rename_file manager retired));
          on_machine (modify (sy_delete_at_boot (if (renamed : bool) then retired else manager)))
      end
  end.

(** ** The protected state *)

(** [fs::remove_file] where the file may be absent. *)
Definition remove_if_present (path : string) : M Disk () :=
  io (fun fs => Some (delete path fs)) unchanged
    (new_error TransactionIo "service release record could not be removed").

(** [fs::remove_dir_all]: a failed or interrupted one leaves some of the files. *)
Definition remove_dir_all : M Disk () :=
  io (fun _ => Some ∅) (fun k fs => list_to_map (drop k (map_to_list fs)))
    (new_error TransactionIo "protected service state could not be removed").

Definition remove_state_directory : M State () :=
  _ ← on_data remove_dir_all;
  on_machine (modify sy_remove_parent).

Definition remove_service_state : M State () :=
  opened ← ask sy_open_data;
  match opened with
  | Err _ => pure tt
  | Ok _ =>
      _ ← on_data (for_each remove_if_present [RELEASE_RECORD_FILE; UPGRADE_JOURNAL_FILE]);
      remove_state_directory
  end.

Definition remove_component_leftovers : M State () :=
  _ ← delete_uninstall_entry;
  _ ← delete_managed MANAGED_SERVICE_RELATIVE_PATH;
  _ ← delete_managed MANAGED_CANDIDATE_RELATIVE_PATH;
  _ ← delete_managed MANAGED_PREVIOUS_RELATIVE_PATH;
  _ ← remove_installed_manager;
  remove_service_state.

(** ** The two operations of an installer *)

Definition ensure_system_service (bundle_root manifest_path keyring_path : string)
    : M State EnsureServiceResult :=
  _ ← require_elevated_installer;
  _ ← acquire_installer_mutex;
  outcome ← install_system_service bundle_root manifest_path keyring_path;
  manager ← install_uninstall_manager;
  _ ← write_uninstall_entry manager;
  pure outcome.

Definition remove_system_service : M State RemoveServiceResult :=
  _ ← require_elevated_installer;
  _ ← acquire_installer_mutex;
  _ ← on_machine open_setup_manager;
  service ← on_machine open_setup_service;
  if (service : bool) then
    program_files ← program_files_root;
    _ ← supported_previous_binary_relative_path
          (service_image_path (managed_binary_path_at program_files));
    _ ← on_machine (stop_and_wait DEFAULT_STOP_TIMEOUT);
    _ ← on_machine (delete_service TransactionIo "maintenance service could not be deleted");
    _ ← remove_component_leftovers;
    pure Removed
  else
    _ ← remove_component_leftovers;
    pure Absent.
End component.

(** ** The Remove button *)

(** What became of the process started with elevation. *)
Inductive ElevationAnswer := Declined | NotStarted | NoExitCode | Exited (status : N).

(** The user and the shell. *)
Class Elevation (S : Type) := {
  el_language : S -> N;
  (** a question to the user, by its text: whether the answer is yes *)
  el_confirm : string -> S -> bool * S;
  el_executable : S -> option (option string);
  el_run : string -> string -> S -> ElevationAnswer * S;
}.

Section prompt.
Context {S : Type} `{!Elevation S}.

(** The primary language is Russian. *)
Definition confirm_service_removal : M S bool :=
  language ← gets el_language;
  answer (el_confirm (if (N.land language 0x3ff =? 0x19)%N
                      then "Удалить SE7EN Service с этого компьютера?"
                      else "Remove SE7EN Service from this computer?")).

Definition run_elevated_service_removal : M S bool :=
  executable ← gets el_executable;
  executable ← lift (ok_or executable TransactionState "the service executable path is unavailable");
  executable ← lift (ok_or executable TransactionState
        "the service executable path is not representable");
  ended ← answer (el_run executable "uninstall-service");
  lift (match ended with
        | Declined => Ok false
        | NotStarted => Err (new_error TransactionState "elevated service removal did not start")
        | NoExitCode => Err (new_error TransactionState
                          "elevated service removal did not report an exit code")
        | Exited status => if (status =? 0)%N then Ok true
                           else Err (new_error TransactionIo "elevated service removal failed")
        end).

Definition confirm_and_elevate_service_removal : M S bool :=
  confirmed ← confirm_service_removal;
  if (confirmed : bool) then run_elevated_service_removal else pure false.

(** Nothing is started unless the user said yes. *)
Lemma removal_needs_consent s :
  fst (confirm_service_removal s) = Done (Ok false) ->
  confirm_and_elevate_service_removal s = (Done (Ok false), snd (confirm_service_removal s)).
Proof.
  intros E. unfold confirm_and_elevate_service_removal, mbind, M_bind, bind.
  destruct (confirm_service_removal s) as [o s']. cbn in *. by subst.
Qed.
End prompt.
