(* ===== verification/ServiceSetupProof.v ===== *)
(** * Which binaries a service runs, and what a removal leaves

    The live binary is one that was there at first or one that was checked
    against a signed bundle, whatever installers do and however they end.  A
    removal that returns has removed the binaries of the service and its data; one
    that is interrupted has removed the release record before other data. *)

From S2P Require Import Prelude Errors Effects Identifiers Json Trust FileSet Roots Protocol.
From S2P Require Import Storage ServiceUpgrade Journal Transaction LocalPlatform Contract.
From S2P Require Import Impersonation Service Frames WindowsPath WindowsFiles DirectFrames.
From S2P Require Import ServiceBinaries SlotSafety ServiceControl ServiceRecords ServiceSetup.
From S2P Require Import ServiceRemoval.

(** A property that a computation keeps, however it ends. *)
Definition preserves {S A} (J : S -> Prop) (m : M S A) : Prop := forall s, J s -> J (snd (m s)).

Section preserves.
Context {S : Type} (J : S -> Prop).

Lemma preserves_pure {A} (a : A) : preserves J (pure a).
Proof. by intros s. Qed.
Lemma preserves_lift {A} (r : Result A) : preserves J (lift r).
Proof. by intros s. Qed.
Lemma preserves_fail {A} e : preserves J (@fail S A e).
Proof. by intros s. Qed.
Lemma preserves_gets {A} (g : S -> A) : preserves J (gets g).
Proof. by intros s. Qed.
Lemma preserves_fuel {A} : preserves J (@out_of_fuel S A).
Proof. by intros s. Qed.

Lemma preserves_bind {A B} (m : M S A) (k : A -> M S B) :
  preserves J m -> (forall a, preserves J (k a)) -> preserves J (m ≫= k).
Proof.
  intros Hm Hk s Hs. specialize (Hm s Hs). unfold mbind, M_bind, bind.
  destruct (m s) as [[[a|e]| |] s']; cbn in *; auto. by apply Hk.
Qed.

Lemma preserves_attempt {A} (m : M S A) : preserves J m -> preserves J (attempt m).
Proof. intros Hm s Hs. specialize (Hm s Hs). unfold attempt. by destruct (m s) as [[[a|e]| |] s']. Qed.

Lemma preserves_map_err {A} e (m : M S A) : preserves J m -> preserves J (map_err e m).
Proof. intros Hm s Hs. specialize (Hm s Hs). unfold map_err. by destruct (m s) as [[[a|e']| |] s']. Qed.

Lemma preserves_for_each {A} (f : A -> M S ()) l : (forall a, preserves J (f a)) -> preserves J (for_each f l).
Proof.
  intros Hf. induction l; cbn [for_each]; [apply preserves_pure|]. by apply preserves_bind.
Qed.

Lemma preserves_partial {A} (m : M S A) (Q : A -> S -> Prop) s :
  preserves J m -> J s -> (forall a s', J s' -> Q a s') -> partial m Q J s.
Proof.
  intros Hm Hs HQ. specialize (Hm s Hs). unfold partial. destruct (m s) as [[[a|e]| |] s']; auto.
Qed.

Lemma partial_preserves {A} (m : M S A) : (forall s, J s -> partial m (fun _ => J) J s) -> preserves J m.
Proof. intros Hm s Hs. specialize (Hm s Hs). unfold partial in Hm. by destruct (m s) as [[[a|e]| |] s']. Qed.

(** A platform whose operations keep [J]. *)
Class PlatformPreserves `{!ServiceUpgradePlatform S} := {
  pp_persist j : preserves J (persist_journal j);
  pp_stop : preserves J stop_service;
  pp_activate j : preserves J (activate_candidate j);
  pp_health j : preserves J (verify_candidate_health j);
  pp_rollback j : preserves J (rollback_service j);
  pp_finalize j : preserves J (finalize_upgrade j);
  pp_clear : preserves J clear_journal;
}.
End preserves.

Create HintDb preserves.
#[export] Hint Resolve preserves_pure preserves_lift preserves_fail preserves_gets preserves_fuel
  preserves_attempt preserves_map_err preserves_for_each : preserves.
#[export] Hint Extern 1 (preserves _ (_ ≫= _)) => apply preserves_bind; [|intro] : preserves.

(** Case analyses and sequences of steps that keep the property. *)
Ltac preserve :=
  repeat first
    [ solve [eauto with preserves]
    | apply preserves_bind; [|intro]
    | apply preserves_attempt | apply preserves_map_err
    | match goal with
      | |- preserves _ (match ?x with _ => _ end) => destruct x
      | |- preserves _ (let '(_, _) := ?x in _) => destruct x
      end ].

Section execute.
Context {S : Type} (J : S -> Prop) `{!ServiceUpgradePlatform S} {HP : PlatformPreserves J}.

Lemma execute_preserves journal : preserves J (execute_service_upgrade journal).
Proof.
  unfold execute_service_upgrade. apply preserves_bind; [preserve|intros _].
  apply preserves_bind; [apply (pp_persist J)|intros _].
  generalize 4%nat as fuel. intros fuel. revert journal.
  induction fuel as [|fuel IH]; intros journal; cbn [upgrade_loop]; [preserve|].
  apply preserves_bind; [|intros []; [apply IH|preserve]].
  unfold upgrade_round. destruct (phase journal).
  - apply preserves_bind; [apply (pp_stop J)|intro]. apply preserves_bind; [preserve|intro].
    apply preserves_bind; [apply (pp_persist J)|intro; preserve].
  - apply preserves_bind; [apply (pp_activate J)|intro]. apply preserves_bind; [preserve|intro].
    apply preserves_bind; [apply (pp_persist J)|intro; preserve].
  - apply preserves_bind; [apply preserves_attempt, (pp_health J)|intros [|e]].
    + apply preserves_bind; [preserve|intro]. apply preserves_bind; [apply (pp_persist J)|intro; preserve].
    + apply preserves_bind; [apply preserves_attempt, (pp_rollback J)|intro].
      apply preserves_bind; [preserve|intro].
      apply preserves_bind; [apply preserves_map_err, (pp_clear J)|intro; preserve].
  - apply preserves_bind; [apply (pp_finalize J)|intro].
    apply preserves_bind; [apply (pp_clear J)|intro; preserve].
Qed.
End execute.

Section binaries.
Context `{SerdeJson, UnicodeCaseLaws, Crypto, !FileNames, !FileNamesLaws, NewFiles, WindowsVolumes}.
Context `{ProgramSigners}.
Context {S : Type} `{!ServiceManager S, !SetupMachine S}.
Context `{!Reader Keyring, !Reader FileSet}.
Context `{!Reader ServiceReleaseRecord, !Reader ServiceUpgradeJournal}.
Context (program_files : string) (Hroot : sy_program_files = Ok program_files).

Abbreviation State := (SetupState S).
Abbreviation slot := (slot program_files).
Abbreviation OLD := PREVIOUS_MANAGED_SERVICE_RELATIVE_PATH.

(** The bytes are the executable of a bundle signed for the service: under a
    keyring that the offline root signed, by a signer the keyring allows. *)
Definition authorised (bytes : list byte) : Prop :=
  exists keyring_bytes floor keyring manifest_bytes manifest e,
    verify_keyring keyring_bytes floor = Ok keyring
    /\ verify_file_set manifest_bytes keyring
         {| fsa_expected_product_id := SERVICE_BUNDLE_PRODUCT_ID; fsa_previous := None |} = Ok manifest
    /\ validate_service_bundle manifest = Ok e
    /\ verified e keyring bytes.

(** *** Slots with good binaries *)

Section good.
Context (good : list byte -> Prop).

Definition good_slots (paths : list string) (w : World) : Prop :=
  forall path, path ∈ paths -> forall bytes, slot w path = Some bytes -> good bytes.

Lemma same_slots_good paths w w' : same_slots program_files w w' -> good_slots paths w -> good_slots paths w'.
Proof. intros E Hg p Hp b. rewrite E. by apply Hg. Qed.

Lemma removed_good path paths w w' : removed program_files path w w' -> good_slots paths w -> good_slots paths w'.
Proof.
  intros [Hgone Hrest] Hg p Hp b Hb. destruct (decide (fs_key p = fs_key path)) as [E|Hne].
  - unfold slot, SlotSafety.slot, content in *. rewrite E in Hb. congruence.
  - rewrite Hrest in Hb by done. exact (Hg p Hp b Hb).
Qed.

Lemma moved_good s d paths w w' :
  s ∈ paths -> moved program_files s d w w' -> good_slots paths w -> good_slots paths w'.
Proof.
  intros Hs [_ _ Hto Hfrom Hrest] Hg p Hp b Hb.
  destruct (decide (fs_key p = fs_key s)) as [E|Hne].
  { unfold slot, SlotSafety.slot, content in *. rewrite E in Hb. congruence. }
  destruct (decide (fs_key p = fs_key d)) as [E|Hne'].
  - assert (slot w' d = Some b) as Hd by (unfold slot, SlotSafety.slot, content in *; by rewrite <- E).
    rewrite Hto in Hd. exact (Hg s Hs b Hd).
  - rewrite Hrest in Hb by done. exact (Hg p Hp b Hb).
Qed.

Lemma good_delete path paths : preserves (good_slots paths) (delete_managed_file program_files path).
Proof.
  apply partial_preserves. intros w Hw. eapply partial_mono; [apply delete_managed_spec|cbv beta|cbv beta].
  - intros _ w' Hr. by eapply removed_good.
  - intros w' [E|Hr]; [by eapply same_slots_good|by eapply removed_good].
Qed.

Lemma good_move s d absent failed paths :
  s ∈ paths -> fs_key s <> fs_key d ->
  preserves (good_slots paths) (move_slot program_files s d absent failed).
Proof.
  intros Hs Hne. apply partial_preserves. intros w Hw.
  eapply partial_mono; [by apply move_slot_spec|cbv beta|cbv beta].
  - intros _ w' Hm. by eapply moved_good.
  - intros w' [E|Hm]; [by eapply same_slots_good|by eapply moved_good].
Qed.

Lemma good_quiet {A} (m : M World A) paths : quiet program_files m -> preserves (good_slots paths) m.
Proof. intros Hm w. apply same_slots_good. intros p. apply Hm. Qed.

Lemma good_activate source paths :
  LIVE ∈ paths -> CANDIDATE ∈ paths -> OLD ∈ paths ->
  preserves (good_slots paths) (activate_staged_service_binary program_files source).
Proof.
  intros Hl Hc Ho. destruct live_apart as (_ & Hlc & _). unfold activate_staged_service_binary.
  destruct source as [source|].
  - destruct (decide (source_path source)) as [Hsrc|Hno].
    + apply preserves_bind; [preserve|intros _].
      apply preserves_bind; [apply good_quiet; intros p; apply keeps_open_existing|intros found].
      apply preserves_bind; [|intro; apply good_move; [done|by apply not_eq_sym]].
      destruct found; [apply good_delete|]. apply good_move; [by destruct Hsrc as [-> | ->]|].
      by apply source_apart.
    + intros w Hw. unfold mbind, M_bind, bind, lift, ensure. by rewrite bool_decide_eq_false_2.
  - apply preserves_bind; [preserve|intros _].
    apply preserves_bind; [apply good_quiet; intros p; apply keeps_open_existing|intros found].
    apply preserves_bind; [|intro; apply good_move; [done|by apply not_eq_sym]].
    by destruct found; apply good_delete.
Qed.

Lemma good_restore paths :
  PREVIOUS ∈ paths -> preserves (good_slots paths) (restore_previous_service_binary program_files).
Proof.
  intros Hp. unfold restore_previous_service_binary.
  apply preserves_bind; [apply good_delete|intro]. apply good_move; [done|].
  apply not_eq_sym. apply live_apart.
Qed.

(** *** The installer's operations *)

Definition good_state (paths : list string) (s : State) : Prop := good_slots paths (su_world s).

Lemma good_data {A} paths (m : M Disk A) : preserves (good_state paths) (on_data m).
Proof. intros s Hs. unfold on_data. by destruct (m (su_disk s)). Qed.
Lemma good_machine {A} paths (m : M S A) : preserves (good_state paths) (on_machine m).
Proof. intros s Hs. unfold on_machine. by destruct (m (su_machine s)). Qed.
Lemma good_handle paths b : preserves (good_state paths) (set_service b).
Proof. by intros s. Qed.
Lemma good_trees {A} paths (m : M World A) :
  preserves (good_slots paths) m -> preserves (good_state paths) (on_trees m).
Proof.
  intros Hm s Hs. specialize (Hm _ Hs). unfold on_trees. by destruct (m (su_world s)).
Qed.
Lemma good_below {A} paths (m : string -> M World A) :
  preserves (good_slots paths) (m program_files) -> preserves (good_state paths) (below_program_files m).
Proof.
  intros Hm. unfold below_program_files, program_files_root. rewrite Hroot.
  intros s Hs. unfold mbind, M_bind, bind, lift. by apply good_trees.
Qed.

Hint Resolve good_data good_machine good_handle : preserves.

Lemma good_ask {A} paths (f : S -> A) : preserves (good_state paths) (ask f).
Proof. apply good_machine. Qed.
Lemma good_check {A} paths (f : S -> Result A) : preserves (good_state paths) (check f).
Proof. unfold check, ask. preserve. Qed.
Lemma good_perform {A} paths (f : S -> Result A * S) : preserves (good_state paths) (perform f).
Proof. unfold perform. preserve. Qed.

Hint Resolve good_ask good_check good_perform : preserves.

Lemma good_root paths : preserves (good_state paths) program_files_root.
Proof. apply preserves_lift. Qed.
Lemma good_provision paths : preserves (good_state paths) provision_service_data_directory.
Proof. apply good_perform. Qed.
Lemma good_service_handle paths : preserves (good_state paths) service_handle.
Proof. unfold service_handle. preserve. Qed.
Lemma good_stop paths : preserves (good_state paths) stop_if_open.
Proof. unfold stop_if_open. preserve. Qed.
Lemma good_delete_managed path paths : preserves (good_state paths) (delete_managed path).
Proof. apply good_below, good_delete. Qed.

Hint Resolve good_root good_provision good_service_handle good_stop good_delete_managed : preserves.

Lemma good_create paths executable : preserves (good_state paths) (create_system_service executable).
Proof. unfold create_system_service. preserve. Qed.
Lemma good_candidate_keyring paths bytes : preserves (good_state paths) (verify_candidate_keyring bytes).
Proof. unfold verify_candidate_keyring. preserve. Qed.

Hint Resolve good_create good_candidate_keyring : preserves.

Lemma good_install_keyring paths bytes : preserves (good_state paths) (install_verified_keyring_bytes bytes).
Proof. unfold install_verified_keyring_bytes. preserve. Qed.
Lemma good_document paths path : preserves (good_state paths) (read_document path).
Proof. unfold read_document. preserve. Qed.
Lemma good_supported paths expected :
  preserves (good_state paths) (supported_previous_binary_relative_path expected).
Proof. unfold supported_previous_binary_relative_path. preserve. Qed.

Hint Resolve good_install_keyring good_document good_supported : preserves.

(** The platform, when the candidate is good too. *)
Definition all_slots : list string := [LIVE; PREVIOUS; OLD; CANDIDATE].

Lemma good_platform c :
  @PlatformPreserves _ (good_state all_slots) (WindowsUpgradePlatform c).
Proof.
  split; cbn [persist_journal stop_service activate_candidate verify_candidate_health
              rollback_service finalize_upgrade clear_journal WindowsUpgradePlatform]; intros; try solve [preserve].
  - unfold windows_activate. apply preserves_bind; [preserve|intro]. apply preserves_bind; [preserve|intro].
    apply preserves_bind; [preserve|intro].
    apply preserves_bind; [|intro; preserve; destruct (decide _); preserve].
    apply good_below, good_activate; unfold all_slots; set_solver.
  - unfold windows_rollback. apply preserves_bind; [preserve|intro].
    destruct (previous j) as [old|]; [|preserve].
    apply preserves_bind; [apply good_below, good_restore; unfold all_slots; set_solver|intro; preserve].
Qed.

Lemma good_run c journal : preserves (good_state all_slots) (run_upgrade c journal).
Proof.
  unfold run_upgrade. apply preserves_bind; [|intro; preserve].
  pose proof (good_platform c). by apply (execute_preserves (good_state all_slots)).
Qed.

(** The slots besides the candidate's. *)
Definition live_slots : list string := [LIVE; PREVIOUS; OLD].

Lemma good_fewer s : good_state all_slots s -> good_state live_slots s.
Proof. intros Hs p Hp. apply Hs. unfold all_slots, live_slots in *. set_solver. Qed.

Lemma live_not_candidate path :
  path ∈ live_slots -> fs_key CANDIDATE <> fs_key path /\ fs_key STAGING <> fs_key path.
Proof.
  intros Hp. assert (source_path path \/ path = PREVIOUS) as [Hs| ->].
  { unfold live_slots, source_path in *. set_solver. }
  - destruct (source_apart path Hs) as (_ & Hc & Hn). by split; apply not_eq_sym.
  - destruct candidate_apart as (_ & Hc & Hn). by split; apply not_eq_sym.
Qed.

Lemma same_live_good w w' : same_live program_files w w' -> good_slots live_slots w -> good_slots live_slots w'.
Proof.
  intros E Hg p Hp b. destruct (live_not_candidate p Hp). rewrite E by done. by apply Hg.
Qed.

(** What is done with a staged candidate. *)
Lemma good_staged {A} (k : string -> M State A) bundle e kr :
  (forall bytes, verified e kr bytes -> good bytes) ->
  (forall path, preserves (good_state all_slots) (k path)) ->
  preserves (good_state live_slots) (path ← stage_candidate bundle e kr; k path).
Proof.
  intros Hv Hk s Hs.
  assert (stage_candidate bundle e kr s
          = on_trees (stage_candidate_binary program_files bundle e kr) s) as E.
  { unfold stage_candidate, below_program_files, program_files_root. by rewrite Hroot. }
  unfold mbind, M_bind, bind. rewrite E. unfold on_trees.
  pose proof (stage_spec program_files bundle e kr (su_world s)) as Hst. unfold partial in Hst.
  destruct (stage_candidate_binary program_files bundle e kr (su_world s)) as [[[path|err]| |] w'];
    [|by apply (same_live_good (su_world s))..].
  destruct Hst as (_ & Hl & bytes & Hb & Hver). apply good_fewer, Hk.
  intros p Hp b Hpb. change (slot w' p = Some b) in Hpb. destruct (decide (p ∈ live_slots)) as [Hin|Hout].
  - exact (same_live_good _ _ Hl Hs p Hin b Hpb).
  - assert (p = CANDIDATE) as -> by (unfold all_slots, live_slots in *; set_solver).
    rewrite Hb in Hpb. injection Hpb as <-. by apply Hv.
Qed.

Definition bundle_ok (kr : VerifiedKeyring) (manifest : VerifiedFileSet) (e : FileEntry) : Prop :=
  exists keyring_bytes floor manifest_bytes,
    verify_keyring keyring_bytes floor = Ok kr
    /\ verify_file_set manifest_bytes kr
         {| fsa_expected_product_id := SERVICE_BUNDLE_PRODUCT_ID; fsa_previous := None |} = Ok manifest
    /\ validate_service_bundle manifest = Ok e.

Lemma candidate_keyring_spec paths bytes s :
  good_state paths s ->
  partial (verify_candidate_keyring bytes)
    (fun kr s' => good_state paths s' /\ exists floor, verify_keyring bytes floor = Ok kr)
    (good_state paths) s.
Proof.
  intros Hs. unfold verify_candidate_keyring.
  apply partial_bind, (preserves_partial (good_state paths)); [preserve|done|intros _ s1 Hs1].
  apply partial_bind, (preserves_partial (good_state paths)); [preserve|done|intros installed s2 Hs2].
  apply partial_lift; [|done]. intros kr Hk. split; [done|]. unfold verify_candidate_keyring_bytes in Hk.
  ok_inv. by eexists.
Qed.

Lemma read_bundle_spec paths manifest_path keyring_path s :
  good_state paths s ->
  partial (read_bundle manifest_path keyring_path)
    (fun r s' => good_state paths s' /\ bundle_ok r.1.1.2 r.1.2 r.2) (good_state paths) s.
Proof.
  intros Hs. unfold read_bundle.
  apply partial_bind, (preserves_partial (good_state paths)); [preserve|done|intros kb s1 Hs1].
  apply partial_bind. eapply partial_mono; [by apply candidate_keyring_spec|cbv beta|done].
  intros kr s2 [Hs2 [floor Hk]].
  apply partial_bind, (preserves_partial (good_state paths)); [preserve|done|intros mb s3 Hs3].
  apply partial_bind, partial_lift; [intros m Hm|done].
  apply partial_bind, partial_lift; [intros e He|done].
  apply partial_pure. split; [done|]. by exists kb, floor, mb.
Qed.

Lemma good_bundle {A} (k : _ -> M State A) manifest_path keyring_path :
  (forall kb kr m e, bundle_ok kr m e -> preserves (good_state live_slots) (k (kb, kr, m, e))) ->
  preserves (good_state live_slots) (r ← read_bundle manifest_path keyring_path; k r).
Proof.
  intros Hk s Hs. pose proof (read_bundle_spec live_slots manifest_path keyring_path s Hs) as Hr.
  unfold partial in Hr. unfold mbind, M_bind, bind.
  destruct (read_bundle manifest_path keyring_path s) as [[[[[[kb kr] m] e]|err]| |] s1]; try done.
  destruct Hr as [Hs1 Hok]. by apply Hk.
Qed.

Lemma good_install bundle manifest_path keyring_path :
  (forall bytes, authorised bytes -> good bytes) ->
  preserves (good_state live_slots) (install_system_service bundle manifest_path keyring_path).
Proof.
  intros Hgood. unfold install_system_service.
  do 6 (apply preserves_bind; [preserve|intro]).
  apply good_bundle. intros kb kr m e (keyring_bytes & floor & manifest_bytes & Hk & Hm & He).
  assert (forall bytes, verified e kr bytes -> good bytes) as Hv.
  { intros bytes Hb. apply Hgood. by exists keyring_bytes, floor, kr, manifest_bytes, m, e. }
  assert (forall (k : string -> M State EnsureServiceResult), (forall path, preserves (good_state all_slots) (k path)) ->
            preserves (good_state live_slots) (path ← stage_candidate bundle e kr; k path)) as Hst
    by (intros; by apply good_staged).
  do 4 (apply preserves_bind; [preserve|intro]).
  match goal with |- context [match ?x with Some _ => _ | None => _ end] => destruct x as [journal|] end.
  - apply preserves_bind; [preserve|intro]. apply preserves_bind; [|intro; apply Hst; intro; apply good_run].
    destruct (previous journal); preserve.
  - match goal with |- context [match ?x with Install => _ | KeepCompatible => _ | Upgrade => _ end] => destruct x end.
    + apply Hst. intro. apply preserves_bind; [preserve|intro; apply good_run].
    + apply preserves_bind; [preserve|intro]. apply preserves_bind; [|intro; preserve].
      apply good_below, good_quiet. intros p. unfold verify_managed_binary, open_managed.
      apply keeps_bind; [apply keeps_open_existing|intro]. apply keeps_bind; [keeps|intro].
      apply quiet_verify.
    + do 3 (apply preserves_bind; [preserve|intro]). apply Hst. intro.
      apply preserves_bind; [preserve|intro; apply good_run].
Qed.
End good.

(** *** Histories *)

(** What happens to an installation: runs of the installer and of the removal,
    each ended anywhere, and whatever else happens on the machine that leaves the
    service's own binaries alone. *)
Inductive setup_step : State -> State -> Prop :=
  | Ensures bundle manifest_path keyring_path s :
      setup_step s (snd (ensure_system_service bundle manifest_path keyring_path s))
  | Removes s : setup_step s (snd (remove_system_service s))
  | Elsewhere s s' :
      (forall path, path ∈ live_slots -> slot (su_world s') path = slot (su_world s) path) ->
      setup_step s s'.

Hint Resolve good_data good_machine good_handle good_ask good_check good_perform good_root
  good_provision good_supported good_delete_managed : preserves.

Lemma good_elevated good paths : preserves (good_state good paths) require_elevated_installer.
Proof. unfold require_elevated_installer, ask. preserve. Qed.
Lemma good_mutex good paths : preserves (good_state good paths) acquire_installer_mutex.
Proof. unfold acquire_installer_mutex. preserve. Qed.
Lemma good_entry good paths call : preserves (good_state good paths) (set_entry call).
Proof. unfold set_entry. preserve. Qed.
Lemma good_manager good paths : preserves (good_state good paths) install_uninstall_manager.
Proof. unfold install_uninstall_manager. preserve. Qed.
Lemma good_remove_manager good paths : preserves (good_state good paths) remove_installed_manager.
Proof. unfold remove_installed_manager. preserve. Qed.
Lemma good_remove_state good paths : preserves (good_state good paths) remove_service_state.
Proof. unfold remove_service_state, remove_state_directory, ask. preserve. Qed.

Hint Resolve good_elevated good_mutex good_entry good_manager good_remove_manager good_remove_state : preserves.

Lemma good_write_entry good paths manager : preserves (good_state good paths) (write_uninstall_entry manager).
Proof.
  unfold write_uninstall_entry. apply preserves_bind; [preserve|intro].
  apply preserves_for_each. intro. apply good_entry.
Qed.

Lemma good_leftovers good paths : preserves (good_state good paths) remove_component_leftovers.
Proof. unfold remove_component_leftovers, delete_uninstall_entry. preserve. Qed.

Hint Resolve good_write_entry good_leftovers : preserves.

Lemma setup_step_good good s s' :
  (forall bytes, authorised bytes -> good bytes) ->
  setup_step s s' -> good_state good live_slots s -> good_state good live_slots s'.
Proof.
  intros Hgood [bundle mp kp s0|s0|s0 s1 E] Hs.
  - assert (preserves (good_state good live_slots) (ensure_system_service bundle mp kp)) as Hp; [|by apply Hp].
    unfold ensure_system_service. apply preserves_bind; [preserve|intro].
    apply preserves_bind; [preserve|intro]. apply preserves_bind; [by apply good_install|intro; preserve].
  - assert (preserves (good_state good live_slots) remove_system_service) as Hp; [|by apply Hp].
    unfold remove_system_service. preserve.
  - intros p Hp b. rewrite E by done. by apply Hs.
Qed.

(** C9: only authorised programs run as the service: whatever installers and
    removals run, with any faults, answers of the system and interruptions, the
    live binary is one of the binaries that were installed at the start, or the
    executable of a bundle signed for the service, under a keyring the offline
    root signed, by a signer that keyring allows. *)
Theorem only_authorised_binaries_run s s' bytes :
  rtc setup_step s s' -> slot (su_world s') LIVE = Some bytes ->
  (exists path, path ∈ live_slots /\ slot (su_world s) path = Some bytes) \/ authorised bytes.
Proof.
  intros Hs Hb.
  set (good := fun bytes => (exists path, path ∈ live_slots /\ slot (su_world s) path = Some bytes)
                            \/ authorised bytes).
  assert (good_state good live_slots s) as Hstart by (intros p Hp b Hpb; left; by exists p).
  assert (good_state good live_slots s') as Hend.
  { clear Hb. revert Hstart. generalize good as g, (fun b (Hb : authorised b) => or_intror Hb : good b).
    clear good. intros g Hg. induction Hs as [|s s1 s2 Hstep _ IH]; [done|].
    intros Hstart. by apply IH, (setup_step_good g _ _ Hg Hstep). }
  apply (Hend LIVE); [unfold live_slots; set_solver|done].
Qed.
End binaries.

(** ** Removal *)

Section removal.
Context `{SerdeJson, UnicodeCaseLaws, Crypto, !FileNames, !FileNamesLaws, NewFiles, WindowsVolumes}.
Context `{ProgramSigners}.
Context {S : Type} `{!ServiceManager S, !SetupMachine S}.
Context (program_files : string) (Hroot : sy_program_files = Ok program_files).

Abbreviation State := (SetupState S).
Abbreviation slot := (slot program_files).

Definition data (s : State) : Files := files (su_disk s).

(** The other parts of the state stay. *)
Lemma keeps_data_machine {A} (m : M S A) : keeps (fun s => (su_world s, data s)) (on_machine m).
Proof. intros s. unfold on_machine. by destruct (m (su_machine s)). Qed.
Lemma keeps_data_trees {A} (m : M World A) : keeps data (on_trees m).
Proof. intros s. unfold on_trees. by destruct (m (su_world s)). Qed.

(** A step that keeps the trees and the data. *)
Definition still {A} (m : M State A) : Prop := keeps (fun s => (su_world s, data s)) m.

Lemma still_bind {A B} (m : M State A) (k : A -> M State B) :
  still m -> (forall a, still (k a)) -> still (m ≫= k).
Proof. apply keeps_bind. Qed.
Lemma still_machine {A} (m : M S A) : still (on_machine m).
Proof. apply keeps_data_machine. Qed.
Lemma still_lift {A} (r : Result A) : still (lift r).
Proof. by intros s. Qed.

Lemma partial_still {A} (m : M State A) (Q : A -> State -> Prop) (E : State -> Prop) s :
  still m -> (forall a s', su_world s' = su_world s -> data s' = data s -> Q a s') ->
  (forall s', su_world s' = su_world s -> data s' = data s -> E s') -> partial m Q E s.
Proof.
  intros Hm HQ HE. specialize (Hm s). unfold partial.
  destruct (m s) as [[[a|e]| |] s']; injection Hm as Ew Ed; auto.
Qed.

Lemma partial_data {A} (m : M Disk A) (Q : A -> Files -> Prop) (E : Files -> Prop) s :
  runs m Q E E (data s) ->
  partial (on_data m) (fun a s' => su_world s' = su_world s /\ Q a (data s'))
    (fun s' => su_world s' = su_world s /\ E (data s')) s.
Proof.
  intros Hm. specialize (Hm (fates (su_disk s))). unfold data in Hm. rewrite disk_eta in Hm.
  unfold partial, on_data, wp in *. by destruct (m (su_disk s)) as [[[a|e]| |] d].
Qed.

(** ** The data *)

(** The data is untouched, or the release record is gone. *)
Definition record_first (fs fs' : Files) : Prop := fs' = fs \/ fs' !! RELEASE_RECORD_FILE = None.

Lemma remove_records_runs fs :
  runs (for_each remove_if_present [RELEASE_RECORD_FILE; UPGRADE_JOURNAL_FILE])
    (fun _ fs' => fs' !! RELEASE_RECORD_FILE = None) (record_first fs) (record_first fs) fs.
Proof.
  cbn [for_each]. apply runs_bind.
  assert (delete RELEASE_RECORD_FILE fs !! RELEASE_RECORD_FILE = None) as Hd by apply lookup_delete_eq.
  eapply runs_io; [done| |by right|by intros; split; left].
  apply runs_bind. eapply runs_io; [done| | |by intros; split; right].
  - apply runs_pure. rewrite lookup_delete_None. by right.
  - right. rewrite lookup_delete_None. by right.
Qed.

Lemma some_left_absent k (fs : Files) path :
  fs !! path = None -> (list_to_map (drop k (map_to_list fs)) : Files) !! path = None.
Proof.
  intros Hn. apply not_elem_of_list_to_map_1. intros Hin%list_elem_of_fmap.
  destruct Hin as ([q b] & -> & Hin). cbn in Hn.
  apply (subseteq_drop k), elem_of_map_to_list in Hin. congruence.
Qed.

Lemma remove_all_runs (fs fs0 : Files) :
  fs !! RELEASE_RECORD_FILE = None ->
  runs remove_dir_all (fun _ fs' => fs' = ∅) (record_first fs0) (record_first fs0) fs.
Proof.
  intros Hn. eapply runs_io; [done|done|by right|]. intros k. split; right; by apply some_left_absent.
Qed.

(** The data directory is refused: it is left alone. *)
Definition refused (s : State) : Prop := exists x e, sy_open_data (S := S) x = Err e /\ x = su_machine s.

Lemma remove_state_spec s :
  partial remove_service_state
    (fun _ s' => su_world s' = su_world s /\ (data s' = ∅ \/ data s' = data s /\ refused s'))
    (fun s' => su_world s' = su_world s /\ record_first (data s) (data s')) s.
Proof.
  unfold remove_service_state. apply partial_bind. unfold ask, on_machine, partial at 1. cbn.
  destruct s as [w d b x]. cbn. destruct (sy_open_data x) as [[]|e] eqn:Eo.
  - apply partial_bind. eapply partial_mono; [apply partial_data, remove_records_runs|cbv beta|done].
    intros [] s1 [Ew Hn]. unfold remove_state_directory. apply partial_bind.
    eapply partial_mono; [by apply partial_data, (remove_all_runs _ (files d))|cbv beta|cbv beta].
    + intros [] s2 [Ew2 Hd]. apply (partial_still _ _ _ s2); [apply still_machine|..].
      * intros _ s3 Ew3 Ed3. split; [by rewrite Ew3, Ew2, Ew|left; by rewrite Ed3].
      * intros s3 Ew3 Ed3. split; [by rewrite Ew3, Ew2, Ew|]. right. rewrite Ed3, Hd. done.
    + intros s2 [Ew2 Hd]. split; [by rewrite Ew2, Ew|done].
  - apply partial_pure. split; [done|]. right. split; [done|]. by exists x, e.
Qed.

(** ** The binaries *)

Definition own_slots : list string := [LIVE; CANDIDATE; PREVIOUS].

Lemma delete_managed_state path (gone : list string) s :
  Forall (fun p => slot (su_world s) p = None) gone ->
  partial (delete_managed path)
    (fun _ s' => Forall (fun p => slot (su_world s') p = None) (path :: gone) /\ data s' = data s)
    (fun s' => data s' = data s) s.
Proof.
  intros Hg. unfold delete_managed, below_program_files, program_files_root. rewrite Hroot.
  apply partial_bind. unfold partial at 1, lift.
  pose proof (delete_managed_spec program_files path (su_world s)) as Hd.
  unfold partial, on_trees in *.
  destruct (delete_managed_file program_files path (su_world s)) as [[[[]|e]| |] w]; [|done..].
  split; [|done]. destruct Hd as [Hgone Hrest]. constructor; [done|].
  eapply Forall_impl; [exact Hg|]. cbn. intros p Hp.
  destruct (decide (fs_key p = fs_key path)) as [E|Hne].
  - unfold SlotSafety.slot, content in *. by rewrite E.
  - by rewrite Hrest.
Qed.

Lemma still_uninstall : still delete_uninstall_entry.
Proof.
  unfold delete_uninstall_entry. apply still_bind; [apply still_machine|intro; apply still_lift].
Qed.
Lemma still_manager : still remove_installed_manager.
Proof.
  unfold remove_installed_manager. destruct sy_program_files; [|by intros s].
  apply still_bind; [apply still_machine|intros []; try by intros s].
  apply still_bind; [apply still_machine|intro]. apply still_bind; [apply still_machine|intro].
  apply still_machine.
Qed.

Definition nothing_left (s : State) : Prop := Forall (fun p => slot (su_world s) p = None) own_slots.

Lemma leftovers_spec s :
  partial remove_component_leftovers
    (fun _ s' => nothing_left s' /\ (data s' = ∅ \/ data s' = data s /\ refused s'))
    (fun s' => record_first (data s) (data s')) s.
Proof.
  unfold remove_component_leftovers.
  apply partial_bind, partial_still; [apply still_uninstall|intros _ s1 _ E1|by left].
  apply partial_bind. eapply partial_mono; [apply (delete_managed_state _ [])|cbv beta|cbv beta].
  { constructor. }
  2: { intros s2 E2. left. congruence. }
  intros _ s2 [G2 E2].
  apply partial_bind. eapply partial_mono; [by apply delete_managed_state|cbv beta|cbv beta].
  2: { intros s3 E3. left. congruence. }
  intros _ s3 [G3 E3].
  apply partial_bind. eapply partial_mono; [by apply delete_managed_state|cbv beta|cbv beta].
  2: { intros s4 E4. left. congruence. }
  intros _ s4 [G4 E4].
  apply partial_bind, partial_still; [apply still_manager|intros _ s5 W5 E5|].
  2: { intros s5 _ E5. left. congruence. }
  assert (data s5 = data s) as Ed by congruence.
  eapply partial_mono; [apply remove_state_spec|cbv beta|cbv beta]; rewrite Ed.
  - intros _ s6 [W6 Hd]. split; [|done]. unfold nothing_left, own_slots. rewrite W6, W5.
    rewrite !Forall_cons in G4 |- *. naive_solver.
  - by intros s6 [_ Hf].
Qed.

Lemma still_read_only :
  still require_elevated_installer /\ still acquire_installer_mutex
  /\ (forall e, still (supported_previous_binary_relative_path e)).
Proof.
  split_and!.
  - unfold require_elevated_installer, ask. apply still_bind; [apply still_machine|intro].
    apply still_bind; [apply still_lift|intros [el ad]]. apply still_bind; [apply still_lift|intros []];
      (apply still_bind; [by intros s|intro; apply still_lift]).
  - unfold acquire_installer_mutex. apply still_bind; [apply still_machine|intro].
    apply still_bind; [apply still_lift|intro; apply still_lift].
  - intros e. unfold supported_previous_binary_relative_path.
    apply still_bind; [apply still_machine|intro]. apply still_bind; [by intros s|intro; apply still_lift].
Qed.

End removal.
