(* ===== verification/SetupScenarios.v ===== *)
(** * Scenarios of installers

    A small machine on which the phases of an upgrade run; a service that is
    upgraded by a bundle whose program does not start; and what the theorems of
    the installer say at these inputs. *)

From S2P Require Import Prelude Errors Effects Identifiers Json JsonReader Trust.
From S2P Require Import FileSet RegistrySet Roots RegistryScopes Protocol Storage.
From S2P Require Import ServiceUpgrade Journal WindowsRegistry Readers Transaction.
From S2P Require Import LocalPlatform Contract Impersonation Service Frames WindowsPath Model.
From S2P Require Import TrustScenarios RegistryScenarios TransactionScenarios WindowsFiles.
From S2P Require Import DirectoryNames WindowsPlatform WindowsScenarios DirectFrames.
From S2P Require Import ServiceBinaries SlotSafety ServiceControl ServiceRecords ServiceSetup.
From S2P Require Import ServiceRemoval ServiceSetupProof.

Module Phases.
(** How far the work of the upgrade went. *)
Inductive Progress := Reached (p : UpgradePhase) | Finished | RolledBack | Unknown.

Record Machine := mkMachine {
  mc_journal : option ServiceUpgradeJournal;
  mc_progress : Progress;
  mc_fates : list Fate;
}.

Definition machine_error : MaintenanceError := new_error TransactionIo "operation failed".

(** An operation takes effect, fails without effect, or the machine stops. *)
Definition operation (f : Machine -> Machine) : M Machine () := fun w =>
  let w1 := mkMachine (mc_journal w) (mc_progress w) (tail (mc_fates w)) in
  match default Works (head (mc_fates w)) with
  | Works => (Done (Ok tt), f w1)
  | Fails _ => (Done (Err machine_error), w1)
  | StopsBefore _ => (Crashed, w1)
  | StopsAfter => (Crashed, f w1)
  end.

Definition set_journal (j : option ServiceUpgradeJournal) (w : Machine) : Machine :=
  mkMachine j (mc_progress w) (mc_fates w).
Definition set_progress (p : Progress) (w : Machine) : Machine :=
  mkMachine (mc_journal w) p (mc_fates w).

#[export] Instance model_upgrade_platform : ServiceUpgradePlatform Machine := {|
  persist_journal j := operation (set_journal (Some j));
  stop_service := operation (set_progress (Reached OldStopped));
  activate_candidate _ := operation (set_progress (Reached ConfigSwitched));
  verify_candidate_health _ := operation (set_progress (Reached Healthy));
  rollback_service _ := operation (set_progress RolledBack);
  finalize_upgrade _ := operation (set_progress Finished);
  clear_journal := operation (set_journal None);
|}.

Definition phase_index (p : UpgradePhase) : nat :=
  match p with Staged => 0 | OldStopped => 1 | ConfigSwitched => 2 | Healthy => 3 end.

(** The work of phase [p] is done: it may have gone further. *)
Definition at_least (p : UpgradePhase) (w : Machine) : Prop :=
  match mc_progress w with
  | Reached q => (phase_index p <= phase_index q)%nat
  | Finished => True
  | RolledBack | Unknown => False
  end.

Lemma operation_spec (f : Machine -> Machine) (Q : () -> Machine -> Prop)
    (E : MaintenanceError -> Machine -> Prop) (C : Machine -> Prop) w :
  (forall fates, let w1 := mkMachine (mc_journal w) (mc_progress w) fates in
     Q tt (f w1) /\ E machine_error w1 /\ C w1 /\ C (f w1)) ->
  wp (operation f) Q E C w.
Proof.
  intros Hall. destruct (Hall (tail (mc_fates w))) as (HQ & HE & HC & HCf).
  unfold wp, operation. by destruct (default Works (head (mc_fates w))).
Qed.

#[export] Instance model_upgrade_contract u : UpgradeContract u.
Proof.
  refine {| stored := mc_journal; world := at_least;
            finished w := mc_progress w = Finished;
            rolled_back w := mc_progress w = RolledBack |}.
  - unfold at_least. intros p q w Hv Hw. destruct (mc_progress w); [|done..].
    destruct p, q; cbn in *; try done; lia.
  - unfold at_least. by intros w ->.
  - intros p w Hw. apply operation_spec. intros fates w1. split_and!; auto.
  - intros w Hw. apply operation_spec. intros fates w1. split_and!; try done; cbn; lia.
  - intros w Hw. apply operation_spec. intros fates w1. split_and!; try done; cbn; lia.
  - intros w Hw. apply operation_spec. intros fates w1. split_and!; try done; cbn; lia.
  - intros w Hw. apply operation_spec. intros fates w1. by split_and!.
  - intros w Hw. apply operation_spec. intros fates w1. by split_and!.
  - intros P w [->| ->] Hw; apply operation_spec; intros fates w1; split_and!; auto.
Defined.

Definition sample_upgrade : ServiceUpgradeJournal :=
  {| candidate := sample_release "1.10.0" "b"; candidate_image_path := "C:\service.exe";
     uj_kind := UPGRADE_JOURNAL_KIND; phase := Staged;
     previous := Some (sample_release "1.2.0" "a"); uj_schema := DOCUMENT_SCHEMA |}.

(** The machine stops right after the candidate was activated. *)
Definition stopping_machine : Machine :=
  mkMachine None (Reached Staged) [Works; Works; Works; StopsAfter].

End Phases.


(** ** The readers of the installer's documents *)

Definition decode_release (v : Value) : option ServiceReleaseRecord :=
  digest ← field as_string "digest" v;
  generation ← field as_number "generation" v;
  kind ← field as_string "kind" v;
  schema ← field as_number "schema" v;
  version ← field as_string "serviceVersion" v;
  Some {| sr_digest := digest; sr_generation := generation; sr_kind := kind;
          sr_schema := schema; service_version := version |}.

Definition decode_phase (v : Value) : option UpgradePhase :=
  s ← as_string v;
  if decide (s = "staged") then Some Staged
  else if decide (s = "oldStopped") then Some OldStopped
  else if decide (s = "configSwitched") then Some ConfigSwitched
  else if decide (s = "healthy") then Some Healthy else None.

Definition decode_previous (v : Value) : option (option ServiceReleaseRecord) :=
  match v with Null => Some None | _ => Some <$> decode_release v end.

Definition decode_upgrade (v : Value) : option ServiceUpgradeJournal :=
  candidate ← field decode_release "candidate" v;
  image ← field as_string "candidateImagePath" v;
  kind ← field as_string "kind" v;
  phase ← field decode_phase "phase" v;
  previous ← field decode_previous "previous" v;
  schema ← field as_number "schema" v;
  Some {| candidate := candidate; candidate_image_path := image; uj_kind := kind;
          phase := phase; previous := previous; uj_schema := schema |}.

#[export] Instance release_reader : Reader ServiceReleaseRecord := reader_of decode_release.
#[export] Instance upgrade_reader : Reader ServiceUpgradeJournal := reader_of decode_upgrade.

Lemma decode_release_normalize r :
  decode_release (normalize (ServiceReleaseRecord_value r)) = Some r.
Proof. unfold ServiceReleaseRecord_value, decode_release. read_fields. by destruct r. Qed.

Lemma decode_previous_normalize (p : option ServiceReleaseRecord) :
  decode_previous (normalize (match p with Some p => ServiceReleaseRecord_value p | None => Null end))
  = Some p.
Proof.
  destruct p as [p|]; [|done]. unfold decode_previous. rewrite decode_release_normalize.
  by destruct (normalize (ServiceReleaseRecord_value p)) eqn:E.
Qed.

#[export] Instance release_reader_laws : ReaderLaws ServiceReleaseRecord.
Proof.
  apply reader_of_laws. intros d v bytes Hv _. revert Hv. unfold to_value, ServiceReleaseRecord_encoder.
  intros [= <-]. apply decode_release_normalize.
Qed.

#[export] Instance upgrade_reader_laws : ReaderLaws ServiceUpgradeJournal.
Proof.
  apply reader_of_laws. intros d v bytes Hv _. revert Hv. unfold to_value, ServiceUpgradeJournal_encoder.
  intros [= <-]. unfold decode_upgrade. read_fields. rewrite decode_release_normalize.
  cbn [mbind option_bind]. read_fields. rewrite decode_previous_normalize. cbn [mbind option_bind].
  destruct d as [c i k [] p s]; read_fields; reflexivity.
Qed.

(** ** A bundle *)

Definition service_file (exe : string) : FileEntry :=
  {| fe_path := SERVICE_BINARY_NAME; fe_sha256 := encode_hex (model_sha256 (as_bytes exe));
     fe_size := N.of_nat (str_len exe) |}.

Definition service_bundle (signature : string) : FileSet :=
  {| fs_files := [service_file "new service"];
     fs_generation := 1; fs_key_id := "release-1"; fs_kind := FILE_SET_KIND;
     fs_product_id := SERVICE_BUNDLE_PRODUCT_ID; fs_remove_files := [];
     fs_schema := FILE_SET_SCHEMA; fs_signature := signature |}.

Definition signed_bundle : FileSet :=
  service_bundle
    (sign release_key_bytes FILE_SET_SIGNING_DOMAIN (file_set_payload (service_bundle ""))).

(** ** The machine *)

#[export] Instance model_signers : ProgramSigners :=
  fun _ => Ok ("0123456789abcdef0123456789abcdef01234567", "").

(** A service that runs or not, its ImagePath when it is installed, the answers to
    the next starts and the versions the next calls of the service report. *)
Record Computer := mkComputer {
  co_now : N;
  co_running : bool;
  co_image : option string;
  co_starts : list N;
  co_versions : list string;
}.

Definition tick (c : Computer) : Computer :=
  mkComputer (co_now c + 1) (co_running c) (co_image c) (co_starts c) (co_versions c).
Definition set_running (b : bool) (c : Computer) : Computer :=
  mkComputer (co_now c) b (co_image c) (co_starts c) (co_versions c).
Definition set_image (i : option string) (c : Computer) : Computer :=
  mkComputer (co_now c) (co_running c) i (co_starts c) (co_versions c).

Definition status_of (running : bool) : ServiceStatus :=
  if running then {| current_state := SERVICE_RUNNING; controls_accepted := SERVICE_ACCEPT_STOP |}
  else {| current_state := SERVICE_STOPPED; controls_accepted := 0 |}.

Definition status_answer (version : string) : Value :=
  Object [("capabilities", Array [VString "file-set-v1"; VString "registry-set-v1"]);
          ("ok", VBool true); ("serviceVersion", VString version)].

#[export] Instance model_manager : ServiceManager Computer := {|
  sm_now := co_now;
  sm_sleep d c := mkComputer (co_now c + d) (co_running c) (co_image c) (co_starts c) (co_versions c);
  sm_open_manager c := (true, c);
  sm_open_service c := (match co_image c with Some _ => 0 | None => ERROR_SERVICE_DOES_NOT_EXIST end%N, c);
  sm_create image c := (true, set_image (Some image) c);
  sm_delete c := (true, set_image None c);
  sm_configure _ c := (true, c);
  sm_config_size c := (200%N, c);
  sm_query_config c := (Some {| sc_type := SERVICE_WIN32_OWN_PROCESS; sc_start := SERVICE_DEMAND_START;
                                sc_error := SERVICE_ERROR_NORMAL; sc_image := co_image c;
                                sc_account := Some "LocalSystem" |}, c);
  sm_change_config image c := (true, set_image (Some image) c);
  sm_query_status c := (Some (status_of (co_running c), STATUS_BYTES), tick c);
  sm_control_stop c := (0%N, tick (set_running false c));
  sm_start c :=
    let status := default 0%N (head (co_starts c)) in
    (status, mkComputer (co_now c + 1) (bool_decide (status = 0%N)) (co_image c)
               (tail (co_starts c)) (co_versions c));
  sm_call _ c := (Ok (status_answer (default "" (head (co_versions c)))),
                  mkComputer (co_now c) (co_running c) (co_image c) (co_starts c) (tail (co_versions c)));
|}.

#[export] Instance model_clock : ServiceClock Computer.
Proof. split; intros; cbn; lia. Qed.

Definition program_files : string := "C:\Program Files".
Definition bundle_root : string := "C:\Setup".

#[export] Instance model_setup_machine : SetupMachine Computer := {|
  sy_program_files := Ok program_files;
  sy_document path _ :=
    if decide (path = "keyring.json") then Some (document (signed_keyring 3))
    else if decide (path = "bundle.json") then Some (document signed_bundle) else None;
  sy_token _ := Some (Ok true, Ok true);
  sy_mutex _ c := (Some false, c);
  sy_data_path _ := Ok tt;
  sy_open_data _ := Ok tt;
  sy_provision_data c := (Ok tt, c);
  sy_registry _ c := (0%N, c);
  sy_current_exe _ := Some "C:\Setup\Manager.exe";
  sy_create_dir_all _ c := (true, c);
  sy_copy_file _ _ c := (true, c);
  sy_remove_file _ c := (FileRemoved, c);
  sy_rename_file _ _ c := (true, c);
  sy_delete_at_boot _ c := c;
  sy_remove_parent c := c;
|}.

(** The service of version 1.0.2 is installed and runs. *)
Definition old_release : ServiceReleaseRecord :=
  {| sr_digest := encode_hex (model_sha256 (as_bytes "old manifest")); sr_generation := 1;
     sr_kind := RELEASE_RECORD_KIND; sr_schema := DOCUMENT_SCHEMA; service_version := "1.0.2" |}.

Definition setup_directory (files : list (string * string)) : RootDir :=
  {| rd_identity := identity game_root;
     rd_files := list_to_map (prod_map fs_key sample_file <$> files);
     rd_dirs := ∅; rd_links := ∅; rd_reserved := ∅ |}.

Definition installed_world : World :=
  mkWorld {[ program_files := setup_directory [(LIVE, "old service")];
             bundle_root := setup_directory [(SERVICE_BINARY_NAME, "new service")] ]} ∅ [] [] ∅.

Definition installed (starts : list N) (versions : list string) : SetupState Computer :=
  {| su_world := installed_world;
     su_disk := mkDisk {[ RELEASE_RECORD_FILE := document old_release;
                          KEYRING_FILE := document (signed_keyring 3) ]} [];
     su_service := false;
     su_machine := mkComputer 0 true (Some (service_image_path (managed_binary_path_at program_files)))
                     starts versions |}.

Definition ensure_service (s : SetupState Computer) : Outcome EnsureServiceResult * SetupState Computer :=
  ensure_system_service bundle_root "bundle.json" "keyring.json" s.

Definition binary (path : string) (s : SetupState Computer) : option (list byte) :=
  slot program_files (su_world s) path.

(** *** An upgrade that succeeds *)

Definition upgraded : SetupState Computer := snd (ensure_service (installed [] ["1.0.3"])).

Example upgrade_succeeds :
  fst (ensure_service (installed [] ["1.0.3"])) = Done (Ok WasUpgraded)
  /\ binary LIVE upgraded = Some (as_bytes "new service")
  /\ binary PREVIOUS upgraded = None /\ binary CANDIDATE upgraded = None
  /\ co_running (su_machine upgraded) = true.
Proof. split_and!; by vm_compute. Qed.

(** *** An upgrade that is rolled back *)

(** [ERROR_SERVICE_REQUEST_TIMEOUT]. *)
Definition TIMED_OUT : N := 1053.

(** The new program does not start, the old one does. *)
Definition rolled_back : SetupState Computer :=
  snd (ensure_service (installed [TIMED_OUT] ["1.0.2"])).

Example upgrade_rolls_back :
  fst (ensure_service (installed [TIMED_OUT] ["1.0.2"]))
    = Done (Err (new_error TransactionIo "maintenance service could not be started"))
  /\ binary LIVE rolled_back = Some (as_bytes "old service")
  /\ files (su_disk rolled_back) !! UPGRADE_JOURNAL_FILE = None
  /\ co_running (su_machine rolled_back) = true.
Proof. split_and!; by vm_compute. Qed.

(** *** A rollback that is repeated *)

Definition code_of {A} (o : Outcome A) : option ErrorCode :=
  match o with Done (Err e) => Some (code e) | _ => None end.

(** The old program does not start at once either. *)
Definition first_try : SetupState Computer :=
  snd (ensure_service (installed [TIMED_OUT; TIMED_OUT] ["1.0.2"])).
Definition second_try : SetupState Computer := snd (ensure_service first_try).


(** ** The theorems at these inputs *)

Lemma old_binary_is_kept_witness :
  exists w, rtc (slot_step program_files LIVE) installed_world w
    /\ saved program_files LIVE installed_world = Some (as_bytes "old service")
    /\ (slot program_files w LIVE = Some (as_bytes "old service")
        \/ slot program_files w PREVIOUS = Some (as_bytes "old service")).
Proof.
  exists (snd (activate_staged_service_binary program_files (Some LIVE)
            (snd (stage_candidate_binary program_files bundle_root (service_file "new service")
                    (verified_keyring 3) installed_world)))).
  assert (rtc (slot_step program_files LIVE) installed_world
    (snd (activate_staged_service_binary program_files (Some LIVE)
            (snd (stage_candidate_binary program_files bundle_root (service_file "new service")
                    (verified_keyring 3) installed_world))))) as Hs.
  { eapply rtc_l; [apply Stages|]. eapply rtc_l; [apply Activates|]. apply rtc_refl. }
  assert (saved program_files LIVE installed_world = Some (as_bytes "old service")) as Ho by by vm_compute.
  split; [exact Hs|]. split; [exact Ho|].
  exact (proj1 (old_binary_is_kept program_files LIVE _ _ _ (or_introl eq_refl) Ho Hs)).
Defined.

Lemma only_authorised_binaries_run_witness :
  exists bytes, slot program_files (su_world upgraded) LIVE = Some bytes
    /\ ((exists path, path ∈ live_slots
           /\ slot program_files (su_world (installed [] ["1.0.3"])) path = Some bytes)
        \/ authorised bytes).
Proof.
  exists (as_bytes "new service").
  assert (slot program_files (su_world upgraded) LIVE = Some (as_bytes "new service")) as Hb by by vm_compute.
  split; [exact Hb|].
  refine (only_authorised_binaries_run program_files eq_refl (installed [] ["1.0.3"]) upgraded _ _ Hb).
  apply rtc_once. unfold upgraded, ensure_service. exact (Ensures _ _ _ _ _).
Defined.


Lemma stop_is_seen_witness :
  stops_by 1 1 (fun c : Computer => (co_running c = false))
  /\ exists s', stop_and_wait DEFAULT_STOP_TIMEOUT (mkComputer 0 false None [] []) = (Done (Ok tt), s').
Proof.
  assert (stops_by 1 1 (fun c : Computer => co_running c = false)) as Hs.
  { split.
    - intros c Hc. exists (status_of false), (tick c). rewrite <- Hc. split_and!; [done|done|cbn; lia|].
      by rewrite Hc.
    - intros c Hc. exists 0%N, (tick (set_running false c)).
      split_and!; [done|by left|done|cbn; lia].
    - done. }
  split; [exact Hs|].
  destruct (proj2 (proj2 (stop_is_seen DEFAULT_STOP_TIMEOUT (mkComputer 0 false None [] []))) _ _ _ Hs eq_refl)
    as (s' & E & _); [vm_compute; reflexivity|]. by exists s'.
Defined.

Lemma upgrade_documents_read_back_witness :
  exists bytes, encode_release_record old_release = Ok bytes /\ decode_release_record bytes = Ok old_release.
Proof.
  exists (document old_release).
  assert (encode_release_record old_release = Ok (document old_release)) as E by by vm_compute.
  split; [exact E|]. exact (proj2 upgrade_documents_read_back _ _ E).
Defined.

(** *** A candidate that was left behind *)

(** The candidate of another bundle is in the slot: an installer was interrupted
    before its journal was written, or a resumed upgrade was rolled back. *)
Definition left_behind : SetupState Computer :=
  {| su_world := mkWorld {[ program_files := setup_directory [(LIVE, "old service"); (CANDIDATE, "bad service")];
                            bundle_root := setup_directory [(SERVICE_BINARY_NAME, "new service")] ]} ∅ [] [] ∅;
     su_disk := su_disk (installed [] []); su_service := false;
     su_machine := su_machine (installed [] ["1.0.3"]) |}.

(** Every other bundle is refused from then on. *)
Example left_behind_candidate_refuses :
  code_of (fst (ensure_service left_behind)) = Some FileSetHash
  /\ binary CANDIDATE (snd (ensure_service left_behind)) = Some (as_bytes "bad service").
Proof. split; by vm_compute. Qed.
